(* ===== verification/_CoqProject ===== *)
-Q . S2P
Prelude.v
GoTime.v
Errors.v
Models.v
Retry.v
Batch.v
Fingerprint.v
Sql.v
Repo.v
Transactions.v
Json.v
GoStrings.v
TableNames.v
Statements.v
Registry.v
Stats.v
Options.v
PgJobs.v
PgUnique.v
PgReads.v
Replay.v
Pages.v
Listings.v
DbSql.v
DbUnique.v
DbReads.v
SqliteJobs.v
MysqlJobs.v
PicodataJobs.v
PicodataStats.v
Rows.v
PicodataMigrator.v
Handles.v
SqliteConnector.v
Clients.v
Runtimes.v
Engine.v
Scopes.v
Migrators.v
Tools.v
Deploy.v
Pretty.v
Logging.v
Files.v
Backends.v
Fencing.v
Lifecycle.v
Runtime.v
Api.v
Fanout.v
FanoutFlow.v
LeaseManager.v
Footprint.v
Service.v
ExecBatch.v
WorkerFootprint.v
Refinement.v
ExecProofs.v
Progress.v
Delivery.v
Settling.v
Samples.v
Witnesses.v
BackendRuns.v
ReplayRuns.v
FanoutRuns.v
LifecycleRuns.v
MigratorRuns.v
ProgressRuns.v
SettlingRuns.v
StorageRuns.v
