(* ===== verification/Prelude.v ===== *)
(** * Verification of the outbox job queue

    The program under src/ is a transactional outbox: producers stage jobs in
    a table of their own database, workers claim them under time-limited leases,
    run a handler, and settle each job: delete it, put it back for a later
    attempt, defer it, or move it to a table of failed jobs.  Several processes
    share the tables; nothing but the statements they execute coordinates them.

    ** The parts of the program and where they are modelled

    - Values and errors.  [GoTime] (time.Time as nanoseconds since the zero
      time, formatting), [Errors] (error trees with wrapping and joining,
      outbox/disposition.go), [Models] (shared/types, outbox/capability.go,
      outbox/ids.go, outbox/models), [Retry] (outbox/retry_policy.go), [Batch]
      (outbox/batch.go and the result checks), [Json] (json.Valid and white
      space), [GoStrings] (strings, strconv and bufio), [Fingerprint] (the
      content fingerprint of deduplicated jobs), [Tools] (sizes, the validator
      and identifiers as text; shared/tools, shared/validator, simpleid).
    - Tables.  [Sql]: the tables of the migrations as finite maps and the
      statements the repositories issue on them.
    - The contract.  [Repo]: the operations of outbox/contract.go as records,
      and what a backend promises of them as classes ([LeaseRepository],
      [BatchRepository], [UniqueRepository], [FailedRepository]; [Stats] has
      [StatsRepository], [Registry] what staging under a key means).  Theorems
      about the service are proved against these classes only.
    - Backends.  PostgreSQL: [PgJobs], [PgUnique], [PgReads] and [Replay]
      (backends/pgsql/repositories, backends/pgsql/replay).  [DbSql],
      [DbUnique], [DbReads], [Pages] and [Listings]: what SQLite and MySQL
      share; [SqliteJobs] and [MysqlJobs] are the two backends, [PicodataJobs]
      and [PicodataStats] the fourth, [PicodataMigrator] its migrator.  [Rows]:
      the same creations and reads column by column (column lists, placeholders,
      selected expressions, scan destinations) for the last three.
      [Transactions]: the transaction managers of the backends and SQLite's
      immediate transactions.  [Backends]: each backend is an instance of the
      contract classes.
    - Storage.  [Handles]: the pools and connections a process holds while it
      builds a client.  [SqliteConnector] (backends/sqlite/storage/connector.go),
      [Clients] (the storage packages: options, constructors, Close),
      [TableNames] (table.go and the constructors of the repositories),
      [Statements] (the texts and arguments of SQLite's and MySQL's statements
      about several jobs),
      [Runtimes] (backends/*/runtime), [Engine] (pgsqlclient/pg.go, the
      transaction contexts of all backends), [Scopes] (the PostgreSQL
      transaction manager as the sequence of calls it makes through the
      engine), [Migrators] (the goose-based migrators), [Deploy]
      (backends/picodata/deployenv), [Pretty] (the debug text of a query),
      [Logging] (outbox/logger and the logger adapter of the Picodata client),
      [Files] (shared/tools/file.go, shared/loadenv).
    - The protocol.  [Fencing]: any number of clients calling any repository
      that keeps the contract, as a step relation on the tables.
    - The service.  [Options] (service_options.go, registration), [Runtime]
      (the monad a worker runs in), [Api] (outbox/api.go), [Fanout]
      and [FanoutFlow] (outbox/fanout.go), [LeaseManager] (the lease ledger and heartbeat of
      service_batch.go), [Service] (claims, single handlers, observer events),
      [ExecBatch] and [ExecProofs] (service_execution_batch.go and the worker
      loop), [Lifecycle] (Run, BeginDrain, Readiness as a transition system).
      [Footprint], [WorkerFootprint] and [Refinement] connect the service to
      the protocol.  [Progress] is about a worker left alone, [Delivery] puts
      producers before it, and [Settling] lets its handlers fail and retries
      them window after window.
    - [Samples], [Witnesses], [BackendRuns], [ReplayRuns], [FanoutRuns],
      [LifecycleRuns], [MigratorRuns], [ProgressRuns], [SettlingRuns] and
      [StorageRuns]: the theorems applied to concrete configurations and runs.

    Operations keep the names of the code; a Go method that returns a value and
    an error is a function into [res], a repository operation is an [Op] (a
    function on the tables), a method of the service is a computation of the
    monad [M] over a [World] (tables, clock and generator positions, ledger,
    trace).  What a worker cannot control is a field of its [Env]: clock
    readings, generated ids and tokens, handler answers, cancellation, driver
    failures before or after a statement took effect, and the moves of other
    clients between any two of its statements.

    ** What the theorems show

    - Fencing ([stale_lease_fenced], [lease_settled_once], [no_job_lost],
      [claim_excludes_live_leases], [interleaving_invariant]): in every
      interleaving a lease that was lost stays lost, is settled at most once,
      rows disappear only by a settlement under a live lease, and the tables
      stay well-formed.  What a claim hands to a worker is well typed
      ([claimed_jobs_typed]).
    - Refinement ([worker_refines_protocol]): whatever its environment answers,
      a worker changes the tables only by steps of that protocol; and each
      backend keeps the contract ([pg_keeps_contracts],
      [sqlite_keeps_contracts], [mysql_keeps_contracts],
      [picodata_keeps_contract]).  MySQL and Picodata claim with more than one
      transaction; [mysql_claim_interleaved] and [picodata_claim_interleaved]
      say what is left of the contract when others act in between.
    - The worker ([single_batch_delivery], [execution_batch_delivery],
      [processBatchJob_follows_disposition], [dlq_atomic],
      [batch_settlement_atomic], [applyExecutionBatchOutcomes_settles]): who is
      handed to which handler how often, what each answer does to the row, and
      that dead-letter transitions and batch settlements are all or nothing.
    - Progress ([every_job_ends], [acknowledged_puts_delivered],
      [worker_empties_queue]): no job is retried for ever, whatever its handler
      answers it is delivered or recorded as failed within its attempts; and
      when handlers succeed every acknowledged put reaches its handler exactly
      once.  These theorems are about windows in which nothing else acts and no
      statement fails; the safety theorems above need neither.
    - The lease manager ([finalization_window], [ensureLeasesLocked_sound]):
      settlements run inside a window that every involved lease covers.
    - Transactions ([transaction_finalized], [scope_is_one_transaction],
      [immediate_transaction_clean], [RunInTx_is_managed]): every begun
      transaction is committed or rolled back exactly once whatever the callback
      does, everything a callback issues is a statement on the one transaction
      its scope began, and the transactor of the worker model is what the
      managers implement.
    - Lifecycle ([drain_is_final], [one_run_at_a_time], [drain_can_finish]):
      after BeginDrain returned no claim starts and no probe reports ready, and
      a drain can always finish.
    - Producers, fan-out, replay, statistics, pages, migrations: idempotent
      puts, all-or-nothing dispatch, an event that reaches each of its targets
      once ([event_reaches_targets]), provenance of replays, totals that
      reconcile, complete traversals, and migrations recorded only after all
      their statements succeeded.

    - Storage ([runtime_owns_pool], [connection_configured],
      [NewPool_leaks_on_ping], [statements_join_transaction],
      [table_names_quoted], [statements_bound], [rows_read_back],
      [migrations_isolated], [connection_settings_stable],
      [ParseSize_modular], [pretty_substitutes], [adapter_filters],
      [FindFileDir_nearest]): what is opened is
      returned or closed, except on one path of PostgreSQL; every SQLite
      connection is configured before use; statements go to the transaction of
      their context, with as many arguments as placeholders and the fence in
      its place; every field is read from the column it was written to; names
      and settings reach statements and connections in their normal form.

    ** Conventions, bounds and fuel

    - Times and durations are [Z] nanoseconds; a duration addition that Go
      would wrap is written with its wrap-around ([wrap64]) where the operands
      are not bounded by validated options.  The resolution of a timestamp
      column is a function [ts] with the class [Rounding] (monotone,
      idempotent, off by less than a millisecond).
    - UUIDs are [N] with zero as the nil value; google/uuid, SHA-256, the JSON
      codecs of fan-out, the host's replay admission and the databases' text of
      a timestamp are parameters with stated promises, discharged by concrete
      functions in the files of runs.
    - Error texts keep the fixed part of their format; operands and stacks are
      dropped.
    - Widths of text columns are not modelled; the attempt counter's overflow
      is.  Row locks of other transactions are a parameter of PostgreSQL claims.
    - Effects of a handler on the database are moves of the other clients.
    - Fuel: [fill_loop] is called with the number of clock readings left of its
      window and provably does not run out; [claim_rounds] of MySQL runs as
      often as other clients disturb it, and [mysql_claim_ends] bounds that;
      [traverse] needs one call more than rows; [runWorker] takes the number of
      rounds to run and the theorems hold for every number.  The retries of a
      migration statement are bounded by the code itself, those of [db_Conn]
      by the two that database/sql allows; [Itoa] writes twenty digits, which
      every [int] fits.  [find_loop] needs no more rounds than the path has
      characters, and three.
    - The database libraries answer each call with an error or none, chosen by
      the number of the call; net/url, pgx, certificates and goose are
      parameters with what is relied on as hypotheses.

    ** Not modelled

    Generated mocks, tests and their databases, and the example programs: they
    keep no state of the outbox and call what is modelled.  The interfaces of
    contract.go files have no code.  CountLight of PostgreSQL is modelled over
    the planner's counts, which are arbitrary.  The channel inside the lease
    mutex is abstracted to mutual exclusion with cancellable acquisition, and
    UUID text parsing is google/uuid's.  The encodings of log/slog, the quoting
    of fmt and the parsing of .env files are parameters.  The fan-out dispatcher
    is run on the row its put left, not by the worker loop, in which it is a
    handler among the others. *)

From stdpp Require Export base sorting numbers strings gmap list.

(** ** Options shared by the whole library *)

#[export] Set Default Goal Selector "!".

(** ** Results: a Go [(value, error)] pair of which exactly one side is used *)

Inductive res (E A : Type) : Type :=
| Ok (a : A)
| Err (e : E).
Arguments Ok {E A} a.
Arguments Err {E A} e.

#[global] Instance res_ret {E} : MRet (res E) := λ A, Ok.
#[global] Instance res_bind {E} : MBind (res E) :=
  λ A B f r, match r with Ok a => f a | Err e => Err e end.
#[global] Instance res_fmap {E} : FMap (res E) :=
  λ A B f r, match r with Ok a => Ok (f a) | Err e => Err e end.

Definition is_Ok {E A} (r : res E A) : bool :=
  match r with Ok _ => true | Err _ => false end.

Definition res_map_err {E E' A} (f : E → E') (r : res E A) : res E' A :=
  match r with Ok a => Ok a | Err e => Err (f e) end.

Lemma res_bind_ok {E A B} (f : A → res E B) (r : res E A) b :
  (r ≫= f) = Ok b ↔ ∃ a, r = Ok a ∧ f a = Ok b.
Proof. destruct r; cbn; naive_solver. Qed.

(** A guard: continue with [tt] unless the test holds, then fail with [e]. *)
Definition fail_if {E} (b : bool) (e : E) : res E unit := if b then Err e else Ok tt.

Lemma fail_if_ok {E} (b : bool) (e : E) : fail_if b e = Ok tt ↔ b = false.
Proof. destruct b; cbn; naive_solver. Qed.

Lemma res_map_err_ok {E E' A} (f : E → E') (r : res E A) a : res_map_err f r = Ok a ↔ r = Ok a.
Proof. destruct r; cbn; naive_solver. Qed.

(** Sequencing checks that return nothing. *)
Lemma res_seq_ok {E} (r r' : res E unit) : (r ≫= λ _, r') = Ok tt ↔ r = Ok tt ∧ r' = Ok tt.
Proof. rewrite res_bind_ok. split; [intros ([] & ? & ?)|intros []]; eauto. Qed.

(** Sequencing a check over a list, stopping at the first failure; this is
    the shape of a Go [for] loop that only validates. *)
Section check_all.
Context {E A : Type} (f : nat → A → res E unit).

Fixpoint check_from (i : nat) (l : list A) : res E unit :=
  match l with
  | [] => Ok tt
  | x :: l => _ ← f i x; check_from (S i) l
  end.
End check_all.

Lemma check_from_ok {E A} (f : nat → A → res E unit) i l :
  check_from f i l = Ok tt ↔ ∀ k x, l !! k = Some x → f (i + k) x = Ok tt.
Proof.
  revert i; induction l as [|y l IH]; intros i; cbn; [naive_solver|].
  split.
  - intros [[] [Hy Hl]]%res_bind_ok [|k] x Hk; cbn in Hk; simplify_eq.
    + by rewrite Nat.add_0_r.
    + rewrite <- Nat.add_succ_comm. by eapply IH.
  - intros H. pose proof (H 0 y eq_refl) as H0. rewrite Nat.add_0_r in H0.
    rewrite H0. cbn. apply IH. intros k x Hk.
    rewrite Nat.add_succ_comm. by apply H.
Qed.

(** Filters that agree on the elements of a list. *)
Lemma filter_agree {A} (P Q : A → Prop) `{!∀ x, Decision (P x), !∀ x, Decision (Q x)} (l : list A) :
  (∀ x, x ∈ l → P x ↔ Q x) → filter P l = filter Q l.
Proof.
  induction l as [|x l IH]; intros Hl; [done|]. rewrite !filter_cons, IH by set_solver.
  pose proof (Hl x ltac:(set_solver)). repeat case_decide; naive_solver.
Qed.

Lemma NoDup_take {A} n (l : list A) : NoDup l → NoDup (take n l).
Proof. rewrite <- (take_drop n l) at 1. by intros [? _]%NoDup_app. Qed.

Lemma NoDup_fst_filter {A B} (P : A * B → Prop) `{!∀ x, Decision (P x)} (l : list (A * B)) :
  NoDup l.*1 → NoDup (filter P l).*1.
Proof.
  induction l as [|x l IH]; [done|]. rewrite fmap_cons, NoDup_cons, filter_cons. intros [Hn Hl].
  case_decide; [|by apply IH]. rewrite fmap_cons, NoDup_cons. split; [|by apply IH].
  intros (y & Hy & [_ Hin]%list_elem_of_filter)%list_elem_of_fmap. apply Hn.
  rewrite Hy. by apply list_elem_of_fmap_2.
Qed.

(** ** Machine integers *)

(** Go's [int], [int64] and [time.Duration] are 64-bit two's complement. *)
Definition two63 : Z := 2 ^ 63.
Definition two64 : Z := 2 ^ 64.
Definition wrap64 (z : Z) : Z := (z + two63) `mod` two64 - two63.
Definition int64 (z : Z) : Prop := (- two63 ≤ z < two63)%Z.
Definition max_int32 : Z := 2147483647.

Lemma two63_val : two63 = 9223372036854775808%Z. Proof. reflexivity. Qed.
Lemma two64_val : two64 = 18446744073709551616%Z. Proof. reflexivity. Qed.

Lemma wrap64_id z : int64 z → wrap64 z = z.
Proof.
  unfold int64, wrap64. rewrite two63_val, two64_val. intros H.
  rewrite Z.mod_small; lia.
Qed.

Lemma wrap64_range z : int64 (wrap64 z).
Proof.
  unfold int64, wrap64. rewrite two63_val, two64_val.
  pose proof (Z.mod_pos_bound (z + 9223372036854775808) 18446744073709551616). lia.
Qed.

(** ** [sort.Slice]

    [sort.Slice] permutes a slice so that no later element is [less] than an
    earlier one.  It is not stable; every use in the modelled code has a
    comparison that is total on the data, so the sorted permutation is
    unique and merge sort computes it. *)
Section sort_slice.
Context {A : Type} (less : A → A → bool).

Definition not_after (a b : A) : Prop := less b a = false.
#[global] Instance not_after_dec a b : Decision (not_after a b) := decide (_ = _).

Definition sort_slice (l : list A) : list A := merge_sort not_after l.

Lemma sort_slice_perm l : sort_slice l ≡ₚ l.
Proof. apply merge_sort_Permutation. Qed.

Lemma sort_slice_length l : length (sort_slice l) = length l.
Proof. by rewrite sort_slice_perm. Qed.

Lemma sort_slice_elem x l : x ∈ sort_slice l ↔ x ∈ l.
Proof. by rewrite sort_slice_perm. Qed.

(** The comparison of every use is a strict order, and total up to the
    elements it cannot distinguish. *)
Class StrictOrderB : Prop := {
  less_asym a b : less a b = true → less b a = false;
  not_after_trans : Transitive not_after
}.

Context `{!StrictOrderB}.

#[local] Instance not_after_total : Total not_after.
Proof.
  intros a b. unfold not_after. destruct (less b a) eqn:Hl; [right|by left].
  by apply less_asym.
Qed.

Lemma sort_slice_sorted l : StronglySorted not_after (sort_slice l).
Proof. apply StronglySorted_merge_sort; [exact not_after_trans|apply _]. Qed.

(** The sorted permutation is unique when only equal elements tie. *)
Lemma sort_slice_unique l l' :
  (∀ a b, a ∈ l → b ∈ l → less a b = false → less b a = false → a = b) →
  l' ≡ₚ l → StronglySorted not_after l' → l' = sort_slice l.
Proof.
  intros Hanti Hperm Hs. apply (StronglySorted_unique_strong not_after).
  - intros a b Ha Hb H1 H2. rewrite Hperm in Ha. rewrite sort_slice_elem in Hb.
    unfold not_after in *. by apply Hanti.
  - done.
  - apply sort_slice_sorted.
  - by rewrite Hperm, sort_slice_perm.
Qed.

(** Without ties between distinct elements the order is strict. *)
Lemma sorted_strict l : StronglySorted not_after l → NoDup l →
  (∀ a b, a ∈ l → b ∈ l → less a b = false → less b a = false → a = b) →
  StronglySorted (λ a b, less a b = true) l.
Proof.
  induction 1 as [|a l Hl IH Hall]; intros Hnd Htie; constructor.
  - apply NoDup_cons in Hnd as [_ Hnd]. apply IH; [done|]. intros x y Hx Hy. apply Htie; by right.
  - rewrite Forall_forall in Hall |- *. intros b Hb. specialize (Hall b Hb). unfold not_after in Hall.
    destruct (less a b) eqn:Hab; [done|]. exfalso. apply NoDup_cons in Hnd as [Hn _].
    assert (a = b) as -> by (apply Htie; [by left|by right|done|done]). done.
Qed.
End sort_slice.
Arguments StrictOrderB {A} less.

(** ** Byte-wise string order, Go's [<] on strings *)

Lemma string_ltb_le s1 s2 : String.ltb s1 s2 = true ↔ String.le s1 s2 ∧ s1 ≠ s2.
Proof.
  unfold String.le, String.leb, String.ltb. destruct (s1 ?= s2)%string eqn:H; cbn.
  - apply String.compare_eq_iff in H as ->. naive_solver.
  - split; [|done]. split; [done|]. intros ->.
    assert ((s2 ?= s2)%string = Eq) as H2.
    { pose proof (String.compare_antisym s2 s2) as Ha. by destruct (s2 ?= s2)%string. }
    congruence.
  - naive_solver.
Qed.

Lemma string_ltb_false s1 s2 : String.ltb s1 s2 = false ↔ String.le s2 s1.
Proof.
  rewrite <- not_true_iff_false, string_ltb_le. split.
  - intros H. destruct (total String.le s1 s2) as [Hle|]; [|done].
    destruct (decide (s1 = s2)) as [->|]; [done|naive_solver].
  - intros H [Hle Hne]. apply Hne. by apply (anti_symm String.le).
Qed.

(** ** Byte classes *)

Fixpoint all_bytes (p : Ascii.ascii → bool) (s : string) : bool :=
  match s with
  | EmptyString => true
  | String c s => p c && all_bytes p s
  end.

Lemma all_bytes_app p s t : all_bytes p (s +:+ t) = all_bytes p s && all_bytes p t.
Proof.
  induction s as [|c s IH]; [done|].
  change (p c && all_bytes p (s +:+ t) = p c && all_bytes p s && all_bytes p t). by rewrite IH, andb_assoc.
Qed.

Lemma all_bytes_mono (p q : Ascii.ascii → bool) s :
  (∀ c, p c = true → q c = true) → all_bytes p s = true → all_bytes q s = true.
Proof. intros Hpq. induction s as [|c s IH]; [done|]. cbn. rewrite !andb_true_iff. naive_solver. Qed.

(** A separator outside the class cuts a string in one way. *)
Lemma cut_inj p c s1 s2 t1 t2 : p c = false → all_bytes p s1 = true → all_bytes p s2 = true →
  s1 +:+ String c t1 = s2 +:+ String c t2 → s1 = s2 ∧ t1 = t2.
Proof.
  intros Hc. revert s2; induction s1 as [|c1 s1 IH]; intros [|c2 s2]; cbn; intros H1 H2 Heq;
    injection Heq; clear Heq; rewrite ?andb_true_iff in *.
  - intros Hs. split; [done|exact Hs].
  - intros _ <-. destruct H2. congruence.
  - intros _ ->. destruct H1. congruence.
  - intros Hs ->. destruct H1 as [_ H1], H2 as [_ H2]. by destruct (IH _ H1 H2 Hs) as [-> ->].
Qed.

(** ** Lexicographic comparison

    The comparators of the program have the shape "if the first keys differ
    compare them, otherwise compare the rest". *)
Definition lex {A} (eqk ltk rest : A → A → bool) (a b : A) : bool :=
  if eqk a b then rest a b else ltk a b.

(** A strict linear order on keys, with its equality test. *)
Class LinearKey {K} (eqb ltb : K → K → bool) : Prop := {
  key_eqb a b : eqb a b = true ↔ a = b;
  key_irrefl a : ltb a a = false;
  key_trans a b c : ltb a b = true → ltb b c = true → ltb a c = true;
  key_tri a b : ltb a b = false → ltb b a = false → a = b
}.

#[global] Instance Z_linear : LinearKey Z.eqb Z.ltb.
Proof. split; intros *; rewrite ?Z.eqb_eq, ?Z.ltb_lt, ?Z.ltb_ge; lia. Qed.
#[global] Instance N_linear : LinearKey N.eqb N.ltb.
Proof. split; intros *; rewrite ?N.eqb_eq, ?N.ltb_lt, ?N.ltb_ge; lia. Qed.
#[global] Instance string_linear : LinearKey String.eqb String.ltb.
Proof.
  split.
  - apply String.eqb_eq.
  - intros a. by rewrite string_ltb_false.
  - intros a b c [Hab Hne]%string_ltb_le [Hbc _]%string_ltb_le. apply string_ltb_le.
    split; [by etrans|]. intros <-. apply Hne. by apply (anti_symm String.le).
  - intros a b ?%string_ltb_false ?%string_ltb_false. by apply (anti_symm String.le).
Qed.

Section lexicographic.
Context {A K : Type} (eqb ltb : K → K → bool) `{!LinearKey eqb ltb} (key : A → K).
Context (rest : A → A → bool) `{!StrictOrderB rest}.

Definition lex_by (a b : A) : bool :=
  lex (λ a b, eqb (key a) (key b)) (λ a b, ltb (key a) (key b)) rest a b.

#[global] Instance lex_strict : StrictOrderB lex_by.
Proof.
  assert (∀ k, eqb k k = true) as Hrefl by (intros k; by apply key_eqb).
  assert (∀ a b, lex_by a b = false ↔
            ltb (key b) (key a) = true ∨ key a = key b ∧ rest a b = false) as Hf.
  { intros a b. unfold lex_by, lex. destruct (eqb (key a) (key b)) eqn:E.
    - apply key_eqb in E. rewrite E, key_irrefl. naive_solver.
    - assert (key a ≠ key b) as Hne by (intros Heq; rewrite Heq, Hrefl in E; done).
      destruct (ltb (key b) (key a)) eqn:E2; split; try naive_solver.
      + intros _. destruct (ltb (key a) (key b)) eqn:E3; [|done].
        pose proof (key_trans _ _ _ E2 E3) as H. by rewrite key_irrefl in H.
      + intros H. exfalso. apply Hne. by apply key_tri. }
  split.
  - intros a b Hab. apply Hf. unfold lex_by, lex in Hab.
    destruct (eqb (key a) (key b)) eqn:E; [right|by left].
    apply key_eqb in E. by eauto using less_asym.
  - intros a b c. unfold not_after. rewrite !Hf.
    intros [H1|[E1 H1]] [H2|[E2 H2]].
    + left. by eapply key_trans.
    + left. by rewrite E2.
    + left. by rewrite <- E1.
    + right. split; [congruence|].
      exact (not_after_trans rest a b c H1 H2).
Qed.

Lemma lex_tie a b : lex_by a b = false → lex_by b a = false →
  key a = key b ∧ rest a b = false ∧ rest b a = false.
Proof.
  unfold lex_by, lex. destruct (eqb (key a) (key b)) eqn:E.
  - apply key_eqb in E. rewrite E. rewrite (proj2 (key_eqb _ _) eq_refl). auto.
  - destruct (eqb (key b) (key a)) eqn:E2.
    + apply key_eqb in E2. rewrite E2, (proj2 (key_eqb _ _) eq_refl) in E. done.
    + intros H1 H2. pose proof (key_tri _ _ H1 H2) as H.
      rewrite H, (proj2 (key_eqb _ _) eq_refl) in E. done.
Qed.
End lexicographic.

(** The innermost comparison of a chain: one key. *)
Definition by_key {A K} (ltb : K → K → bool) (key : A → K) (a b : A) : bool :=
  ltb (key a) (key b).

#[global] Instance by_key_strict {A K} eqb ltb `{!@LinearKey K eqb ltb} (key : A → K) :
  StrictOrderB (by_key ltb key).
Proof.
  split; unfold by_key.
  - intros a b Hab. destruct (ltb (key b) (key a)) eqn:E; [|done].
    pose proof (key_trans _ _ _ Hab E) as C. by rewrite key_irrefl in C.
  - intros a b c. unfold not_after. intros H1 H2.
    destruct (ltb (key c) (key a)) eqn:E; [|done].
    destruct (ltb (key a) (key b)) eqn:E2.
    { by rewrite (key_trans _ _ _ E E2) in H2. }
    pose proof (key_tri _ _ E2 H1) as Heq. congruence.
Qed.
