(* ===== verification/GoTime.v ===== *)
(** * Go's [time] package, as far as the program uses it

    A [time.Time] is modelled by its instant: the number of nanoseconds since
    the zero [Time] (January 1, year 1, 00:00:00 UTC).  [UTC()] changes the
    location used for display and never the instant, so it is the identity
    here.  A [time.Duration] is an [int64] number of nanoseconds. *)

From S2P Require Import Prelude.
Open Scope Z_scope.

Definition Nanosecond : Z := 1.
Definition Microsecond : Z := 1000.
Definition Millisecond : Z := 1000000.
Definition Second : Z := 1000000000.
Definition Minute : Z := 60 * Second.

(** [time.Time{}], [IsZero], [Before], [After], [Add]. *)
Definition zeroTime : Z := 0.
Definition IsZero (t : Z) : bool := t =? zeroTime.
Definition Before (t u : Z) : bool := t <? u.
Definition After (t u : Z) : bool := u <? t.
Definition Add (t d : Z) : Z := t + d.

Lemma Before_spec t u : reflect (t < u) (Before t u).
Proof. apply Z.ltb_spec0. Qed.
Lemma After_spec t u : reflect (u < t) (After t u).
Proof. apply Z.ltb_spec0. Qed.

(** [t.Truncate(d)] rounds down to a multiple of [d] since the zero time. *)
Definition Truncate (t d : Z) : Z := t - t `mod` d.

Lemma Truncate_le t d : 0 < d → Truncate t d ≤ t.
Proof. intros. unfold Truncate. pose proof (Z.mod_pos_bound t d). lia. Qed.

Lemma Truncate_gt t d : 0 < d → t - d < Truncate t d.
Proof. intros. unfold Truncate. pose proof (Z.mod_pos_bound t d). lia. Qed.

(** Instants at millisecond resolution: [t.UnixMilli()] and
    [time.UnixMilli(ms)].  The Unix epoch is 62135596800 s after the zero
    time; both functions round towards minus infinity. *)
Definition unixEpoch : Z := 62135596800 * Second.
Definition UnixMilli (t : Z) : Z := (t - unixEpoch) `div` Millisecond.
Definition FromUnixMilli (ms : Z) : Z := unixEpoch + ms * Millisecond.

Lemma UnixMilli_FromUnixMilli ms : UnixMilli (FromUnixMilli ms) = ms.
Proof.
  unfold UnixMilli, FromUnixMilli, Millisecond.
  replace (unixEpoch + ms * 1000000 - unixEpoch) with (ms * 1000000) by lia.
  by rewrite Z.div_mul.
Qed.

Lemma UnixMilli_mono t u : t ≤ u → UnixMilli t ≤ UnixMilli u.
Proof. intros. unfold UnixMilli, Millisecond. apply Z.div_le_mono; lia. Qed.

Lemma FromUnixMilli_lt m n : m < n ↔ FromUnixMilli m < FromUnixMilli n.
Proof. unfold FromUnixMilli, Millisecond. lia. Qed.

(** Storing an instant and reading it back keeps it, rounded down to a
    millisecond. *)
Lemma FromUnixMilli_UnixMilli t : FromUnixMilli (UnixMilli t) = Truncate t Millisecond.
Proof.
  unfold FromUnixMilli, UnixMilli, Truncate, Millisecond.
  pose proof (Z.div_mod (t - unixEpoch) 1000000 ltac:(lia)).
  assert ((t - unixEpoch) `mod` 1000000 = t `mod` 1000000) as Hm.
  { replace unixEpoch with (62135596800 * 1000 * 1000000) by reflexivity.
    by rewrite Zminus_mod, Z.mod_mul, Z.sub_0_r, Z.mod_mod. }
  lia.
Qed.

(** ** [Format(time.RFC3339Nano)] in UTC *)

(** The proleptic Gregorian date of a day counted from the zero time, as
    (year, month, day): the usual era computation on years that start in
    March.  Day 0 is 0001-01-01, which is day 306 after 0000-03-01. *)
Definition civil (days : Z) : Z * Z * Z :=
  let z := days + 306 in
  let era := z `div` 146097 in
  let doe := z - era * 146097 in
  let yoe := (doe - doe `div` 1460 + doe `div` 36524 - doe `div` 146096) `div` 365 in
  let doy := doe - (365 * yoe + yoe `div` 4 - yoe `div` 100) in
  let mp := (5 * doy + 2) `div` 153 in
  let d := doy - (153 * mp + 2) `div` 5 + 1 in
  let m := if mp <? 10 then mp + 3 else mp - 9 in
  let y := yoe + era * 400 + (if m <=? 2 then 1 else 0) in
  (y, m, d).

Definition digit (n : Z) : string :=
  String (Ascii.ascii_of_N (Z.to_N (48 + n `mod` 10))) EmptyString.

(** [k] decimal digits of [n], most significant first. *)
Fixpoint digits (k : nat) (n : Z) : string :=
  match k with
  | O => ""
  | S k => digits k (n `div` 10) +:+ digit n
  end.

(** The fraction [.999999999] of the layout: nine digits without trailing
    zeros, nothing at all for a whole second. *)
Fixpoint fraction (k : nat) (n : Z) : string :=
  match k with
  | O => ""
  | S k => if n `mod` 10 =? 0 then fraction k (n `div` 10) else "." +:+ digits (S k) n
  end.

(** Years 0 to 9999 print with exactly four digits, which covers every
    instant the layout is defined for. *)
Definition FormatRFC3339Nano (t : Z) : string :=
  let days := t `div` (86400 * Second) in
  let rest := t `mod` (86400 * Second) in
  let sec := rest `div` Second in
  let nano := rest `mod` Second in
  let '(y, m, d) := civil days in
  digits 4 y +:+ "-" +:+ digits 2 m +:+ "-" +:+ digits 2 d +:+ "T" +:+
  digits 2 (sec `div` 3600) +:+ ":" +:+ digits 2 (sec `div` 60 `mod` 60) +:+ ":" +:+
  digits 2 (sec `mod` 60) +:+ fraction 9 nano +:+ "Z".

Example format_zero : FormatRFC3339Nano zeroTime = "0001-01-01T00:00:00Z".
Proof. vm_compute. reflexivity. Qed.
Example format_epoch : FormatRFC3339Nano unixEpoch = "1970-01-01T00:00:00Z".
Proof. vm_compute. reflexivity. Qed.
Example format_frac :
  FormatRFC3339Nano (unixEpoch + 1709210096 * Second + 123450000) = "2024-02-29T12:34:56.12345Z".
Proof. vm_compute. reflexivity. Qed.
