(* ===== verification/Errors.v ===== *)
(** * Error values and handler dispositions

    Models the error trees the program builds ([errors.New], [fmt.Errorf]
    with [%w], [errors.Join], the typed wrappers of outbox/disposition.go and
    [HandlerPanicError] of outbox/contract.go) and the searches [errors.Is]
    and [errors.As] over them, then outbox/disposition.go itself. *)

From S2P Require Import Prelude GoTime.
Open Scope Z_scope.

(** The sentinel errors of the program, compared by identity. *)
Inductive sentinel : Type :=
| ErrNoJobs | ErrJobStatNotInit
| ErrReservationBatchSizeUnsupported | ErrEmptyReservationBatch
| ErrUniqueRepositoryNotConfigured | ErrInvalidSchemaVersion | ErrLeaseLost
| ErrUnsupportedClaim | ErrNonAtomicDLQUnsupported | ErrTransactionCapabilitiesRequired
| ErrInvalidBatchResult | ErrBatchRepositoryNotConfigured
| ErrServiceRunning | ErrServiceNotRunning | ErrServiceDraining | ErrWorkerGoexit
| ErrOption | ErrRetryPolicy | errCancelledClaimCleanup
| ErrFanoutRepositoryNotConfigured | ErrIdempotencyConflict | ErrInvalidFanout
| ErrJobIDUuidZero | ErrLeaseTokenUUIDZero | ErrMessageIDUuidZero
| ContextCanceled | ContextDeadlineExceeded
| ErrRowAlreadyExists | ErrNoRows | SqlErrNoRows | SqlErrTxDone | SqlErrConnDone
| ErrNotConfigured | ErrInvalidRequest | ErrAdmissionRequired | ErrNotAdmitted
| ErrUnsupportedFanout | ErrNestedTransaction | ErrSourceNotFound | ErrInvalidSource
| ErrSourceActive | ErrRequestConflict | ErrReplayNotFound.

#[global] Instance sentinel_eq_dec : EqDecision sentinel.
Proof. solve_decision. Defined.

(** An error value.  [EText] and [EWrapf] carry their rendered message, as
    [errors.New] and [fmt.Errorf] do; [EWrapf] also carries the errors its
    [%w] verbs wrap. *)
Inductive err : Type :=
| ESentinel (s : sentinel)
| EText (msg : string)
| EWrapf (msg : string) (es : list err)
| EJoin (es : list err)
| permanentError (e : err)
| retryAtError (e : err) (at_ : Z)
| deferAtError (e : err) (at_ : Z)
| HandlerPanicError (jobName value : string).

Abbreviation result := (res err).

(** Induction over the nested lists of [EWrapf] and [EJoin]. *)
Section err_rect.
Context (P : err → Prop)
  (Hsent : ∀ s, P (ESentinel s)) (Htext : ∀ m, P (EText m))
  (Hwrap : ∀ m es, Forall P es → P (EWrapf m es))
  (Hjoin : ∀ es, Forall P es → P (EJoin es))
  (Hperm : ∀ e, P e → P (permanentError e))
  (Hretry : ∀ e at_, P e → P (retryAtError e at_))
  (Hdefer : ∀ e at_, P e → P (deferAtError e at_))
  (Hpanic : ∀ j v, P (HandlerPanicError j v)).

Fixpoint err_nested_ind (e : err) : P e :=
  let go := fix go (es : list err) : Forall P es :=
    match es with
    | [] => Forall_nil_2 P
    | e :: es => Forall_cons_2 P e es (err_nested_ind e) (go es)
    end in
  match e with
  | ESentinel s => Hsent s
  | EText m => Htext m
  | EWrapf m es => Hwrap m es (go es)
  | EJoin es => Hjoin es (go es)
  | permanentError e => Hperm e (err_nested_ind e)
  | retryAtError e at_ => Hretry e at_ (err_nested_ind e)
  | deferAtError e at_ => Hdefer e at_ (err_nested_ind e)
  | HandlerPanicError j v => Hpanic j v
  end.
End err_rect.

(** The text of a sentinel as declared in the source. *)
Definition sentinel_text (s : sentinel) : string :=
  match s with
  | ErrNoJobs => "no jobs found"
  | ErrJobStatNotInit => "jobsStatRepo not initialized"
  | ErrReservationBatchSizeUnsupported => "outbox reservation batch size is unsupported by repository"
  | ErrEmptyReservationBatch =>
      "outbox repository returned an empty reservation batch with a nil error; return ErrNoJobs when no jobs are available"
  | ErrUniqueRepositoryNotConfigured => "outbox unique repository is not configured"
  | ErrInvalidSchemaVersion => "outbox schema version must be positive"
  | ErrLeaseLost => "outbox job lease lost"
  | ErrUnsupportedClaim => "outbox repository claimed an unsupported capability"
  | ErrNonAtomicDLQUnsupported =>
      "outbox transactor does not support atomic DLQ; configure WithAllowNonAtomicDLQ() to accept best-effort delivery"
  | ErrTransactionCapabilitiesRequired =>
      "outbox transactor must implement TransactionCapabilities or configure WithAllowNonAtomicDLQ()"
  | ErrInvalidBatchResult => "outbox invalid batch result"
  | ErrBatchRepositoryNotConfigured => "outbox batch repository is not configured"
  | ErrServiceRunning => "outbox service is already running"
  | ErrServiceNotRunning => "outbox service is not running"
  | ErrServiceDraining => "outbox service is draining"
  | ErrWorkerGoexit => "outbox worker exited via runtime.Goexit"
  | ErrOption => "outbox invalid option"
  | ErrRetryPolicy => "outbox invalid retry policy"
  | errCancelledClaimCleanup => "outbox could not release cancelled claim"
  | ErrFanoutRepositoryNotConfigured => "outbox fan-out repository is not configured"
  | ErrIdempotencyConflict => "outbox idempotency key conflicts with different job content"
  | ErrInvalidFanout => "outbox invalid fan-out snapshot"
  | ErrJobIDUuidZero => "JobID uuid is zero"
  | ErrLeaseTokenUUIDZero => "LeaseToken uuid is zero"
  | ErrMessageIDUuidZero => "MessageID uuid is zero"
  | ContextCanceled => "context canceled"
  | ContextDeadlineExceeded => "context deadline exceeded"
  | ErrRowAlreadyExists => "row already exists"
  | ErrNoRows => "no rows found"
  | SqlErrNoRows => "sql: no rows in result set"
  | SqlErrTxDone => "sql: transaction has already been committed or rolled back"
  | SqlErrConnDone => "sql: connection is already closed"
  | ErrNotConfigured => "replay requires a PostgreSQL client"
  | ErrInvalidRequest => "replay requires nonzero request and failed job IDs"
  | ErrAdmissionRequired => "replay requires host admission"
  | ErrNotAdmitted => "replay admission requires a stable business key"
  | ErrUnsupportedFanout => "fan-out replay is unsupported"
  | ErrNestedTransaction => "replay must own its transaction"
  | ErrSourceNotFound => "replay source not found"
  | ErrInvalidSource => "invalid replay source"
  | ErrSourceActive => "original job or previous replay is still active"
  | ErrRequestConflict => "replay request conflicts with retained provenance"
  | ErrReplayNotFound => "replay provenance not found"
  end.

(** [err.Error()]. *)
Fixpoint Error (e : err) : string :=
  match e with
  | ESentinel s => sentinel_text s
  | EText m => m
  | EWrapf m _ => m
  | EJoin es =>
      (fix lines (es : list err) : string :=
         match es with
         | [] => ""
         | [e] => Error e
         | e :: es => Error e +:+ String (Ascii.ascii_of_nat 10) (lines es)
         end) es
  | permanentError e => "permanent: " +:+ Error e
  | retryAtError e at_ => "retry at " +:+ FormatRFC3339Nano at_ +:+ ": " +:+ Error e
  | deferAtError e at_ => "defer at " +:+ FormatRFC3339Nano at_ +:+ ": " +:+ Error e
  | HandlerPanicError j v => "panic in batch job " +:+ j +:+ ": " +:+ v
  end.

(** [fmt.Errorf("pre: %w", e)] and [fmt.Errorf("%w: detail", sentinel)]. *)
Definition wrapf (pre : string) (e : err) : err := EWrapf (pre +:+ ": " +:+ Error e) [e].
Definition wrapAs (s : sentinel) (detail : string) : err :=
  EWrapf (sentinel_text s +:+ ": " +:+ detail) [ESentinel s].

(** [errors.Join] drops nil errors and is nil when nothing is left. *)
Definition errors_Join (es : list (option err)) : option err :=
  match omap id es with
  | [] => None
  | es => Some (EJoin es)
  end.

(** [errors.Is(e, s)] for a sentinel [s]: pre-order search of the tree. *)
Fixpoint errors_Is (e : err) (s : sentinel) : bool :=
  match e with
  | ESentinel s' => bool_decide (s' = s)
  | EText _ | HandlerPanicError _ _ => false
  | EWrapf _ es | EJoin es => existsb (λ e, errors_Is e s) es
  | permanentError e | retryAtError e _ | deferAtError e _ => errors_Is e s
  end.

(** [errors.As(e, &target)]: the first error of the tree, in pre-order, that
    the target type accepts; [pick] is the type test. *)
Fixpoint errors_As {T} (pick : err → option T) (e : err) : option T :=
  match pick e with
  | Some t => Some t
  | None =>
      match e with
      | ESentinel _ | EText _ | HandlerPanicError _ _ => None
      | EWrapf _ es | EJoin es =>
          (fix first (es : list err) : option T :=
             match es with
             | [] => None
             | e :: es => match errors_As pick e with Some t => Some t | None => first es end
             end) es
      | permanentError e | retryAtError e _ | deferAtError e _ => errors_As pick e
      end
  end.

(** ** outbox/disposition.go *)

Definition pick_permanent (e : err) : option unit :=
  match e with permanentError _ => Some tt | _ => None end.
Definition pick_retryAt (e : err) : option Z :=
  match e with retryAtError _ at_ => Some at_ | _ => None end.
Definition pick_deferAt (e : err) : option Z :=
  match e with deferAtError _ at_ => Some at_ | _ => None end.
Definition pick_panic (e : err) : option (string * string) :=
  match e with HandlerPanicError j v => Some (j, v) | _ => None end.

Definition IsPermanent (e : option err) : bool :=
  match e with Some e => bool_decide (is_Some (errors_As pick_permanent e)) | None => false end.

Definition Permanent (e : option err) : option err :=
  match e with
  | None => None
  | Some e' => if IsPermanent e then e else Some (permanentError e')
  end.

Definition RetryAt (e : option err) (at_ : Z) : option err :=
  match e with None => None | Some e => Some (retryAtError e at_) end.

Definition RetryTime (e : option err) : option Z :=
  match e with Some e => errors_As pick_retryAt e | None => None end.

Definition DeferAt (e : option err) (at_ : Z) : option err :=
  match e with None => None | Some e => Some (deferAtError e at_) end.

Definition DeferTime (e : option err) : option Z :=
  match e with Some e => errors_As pick_deferAt e | None => None end.

(** outbox/service_execution_batch.go, [hasDeferTime]. *)
Definition hasDeferTime (e : option err) : bool := bool_decide (is_Some (DeferTime e)).

(** ** The searches are pre-order searches *)

(** The errors of a tree in the order [errors.Is] and [errors.As] visit them. *)
Fixpoint preorder (e : err) : list err :=
  e :: match e with
       | ESentinel _ | EText _ | HandlerPanicError _ _ => []
       | EWrapf _ es | EJoin es =>
           (fix all (es : list err) : list err :=
              match es with [] => [] | e :: es => preorder e ++ all es end) es
       | permanentError e | retryAtError e _ | deferAtError e _ => preorder e
       end.

Definition preorder_all (es : list err) : list err := es ≫= preorder.

Lemma preorder_children m es : preorder (EWrapf m es) = EWrapf m es :: preorder_all es.
Proof. reflexivity. Qed.

Lemma preorder_join es : preorder (EJoin es) = EJoin es :: preorder_all es.
Proof. reflexivity. Qed.

Section search.
Context {T : Type} (pick : err → option T).

(** The first success of [pick] along a list. *)
Definition first_of (l : list err) : option T := head (omap pick l).

Lemma first_of_app l1 l2 :
  first_of (l1 ++ l2) = match first_of l1 with Some t => Some t | None => first_of l2 end.
Proof. unfold first_of. rewrite omap_app. by destruct (omap pick l1). Qed.

Lemma first_of_cons e l :
  first_of (e :: l) = match pick e with Some t => Some t | None => first_of l end.
Proof. unfold first_of. cbn. by destruct (pick e). Qed.

Lemma first_of_search es :
  Forall (λ e, errors_As pick e = first_of (preorder e)) es →
  (fix first (es : list err) : option T :=
     match es with
     | [] => None
     | e :: es => match errors_As pick e with Some t => Some t | None => first es end
     end) es = first_of (preorder_all es).
Proof.
  induction 1 as [|e es He _ IH]; [done|].
  unfold preorder_all in *. cbn. by rewrite He, first_of_app, IH.
Qed.

Lemma errors_As_first e : errors_As pick e = first_of (preorder e).
Proof.
  induction e using err_nested_ind;
    rewrite ?preorder_children, ?preorder_join; cbn [errors_As preorder];
    rewrite first_of_cons; destruct (pick _); try done.
  all: by apply first_of_search.
Qed.

Lemma errors_As_wrap m e : pick (EWrapf m [e]) = None →
  errors_As pick (EWrapf m [e]) = errors_As pick e.
Proof. intros H. cbn. rewrite H. by destruct (errors_As pick e). Qed.
End search.

Lemma errors_Is_existsb es s :
  Forall (λ e, errors_Is e s = true ↔ ESentinel s ∈ preorder e) es →
  existsb (λ e, errors_Is e s) es = true ↔ ESentinel s ∈ preorder_all es.
Proof.
  unfold preorder_all. induction 1 as [|e es He _ IH]; cbn; [set_solver|].
  rewrite orb_true_iff, He, IH, elem_of_app. done.
Qed.

Lemma errors_Is_preorder e s : errors_Is e s = true ↔ ESentinel s ∈ preorder e.
Proof.
  induction e using err_nested_ind;
    rewrite ?preorder_children, ?preorder_join; cbn [errors_Is preorder];
    rewrite elem_of_cons.
  - rewrite bool_decide_eq_true. set_solver.
  - set_solver.
  - rewrite errors_Is_existsb by done. naive_solver.
  - rewrite errors_Is_existsb by done. naive_solver.
  - naive_solver.
  - naive_solver.
  - naive_solver.
  - set_solver.
Qed.

(** Facts every caller uses: wrapping never hides a sentinel. *)
Lemma errors_Is_wrapf pre e s : errors_Is (wrapf pre e) s = errors_Is e s.
Proof. cbn. by rewrite orb_false_r. Qed.

Lemma errors_Is_wrapAs s d s' : errors_Is (wrapAs s d) s' = bool_decide (s = s').
Proof. cbn. by rewrite orb_false_r. Qed.

Lemma errors_Join_Is es s :
  match errors_Join es with Some e => errors_Is e s | None => false end = true
  ↔ ∃ e, Some e ∈ es ∧ errors_Is e s = true.
Proof.
  unfold errors_Join.
  assert (existsb (λ e, errors_Is e s) (omap id es) = true ↔
          ∃ e, Some e ∈ es ∧ errors_Is e s = true) as H.
  { rewrite existsb_exists. setoid_rewrite <- list_elem_of_In.
    setoid_rewrite list_elem_of_omap. cbn. naive_solver. }
  destruct (omap id es) as [|e l] eqn:E; [|by rewrite <- H].
  cbn in H. by rewrite <- H.
Qed.

(** ** Dispositions *)

Lemma IsPermanent_preorder e :
  IsPermanent (Some e) = true ↔ ∃ e', permanentError e' ∈ preorder e.
Proof.
  unfold IsPermanent. rewrite bool_decide_eq_true, errors_As_first. unfold first_of.
  split.
  - intros [[] H]. destruct (omap pick_permanent (preorder e)) as [|[] l] eqn:E; [done|].
    assert (tt ∈ omap pick_permanent (preorder e)) as (e' & He' & Hp)%list_elem_of_omap
      by (rewrite E; set_solver).
    destruct e'; cbn in Hp; naive_solver.
  - intros [e' He']. destruct (omap pick_permanent (preorder e)) as [|[] l] eqn:E.
    + assert (tt ∈ omap pick_permanent (preorder e)) as Hin
        by (apply list_elem_of_omap; eauto). rewrite E in Hin. set_solver.
    + by eexists.
Qed.

Lemma preorder_all_elem e es : e ∈ preorder_all es ↔ ∃ x, x ∈ es ∧ e ∈ preorder x.
Proof. unfold preorder_all. rewrite list_elem_of_bind. naive_solver. Qed.

Lemma preorder_refl e : e ∈ preorder e.
Proof. destruct e; cbn; set_solver. Qed.

Lemma preorder_trans e1 e2 e3 : e1 ∈ preorder e2 → e2 ∈ preorder e3 → e1 ∈ preorder e3.
Proof.
  intros H12. induction e3 using err_nested_ind;
    rewrite ?preorder_children, ?preorder_join; cbn [preorder];
    rewrite elem_of_cons; intros [->|H23];
    rewrite ?preorder_children, ?preorder_join in H12; try done;
    try (apply elem_of_cons; right; set_solver); cbn in H12.
  all: rewrite preorder_all_elem in H23; destruct H23 as (x & Hx & H23).
  all: apply elem_of_cons; right; apply preorder_all_elem; exists x; split; [done|].
  all: rewrite Forall_forall in H; by apply (H x Hx).
Qed.

(** Marking a failure permanent keeps nil nil, is idempotent, marks every
    non-nil error, and the mark is seen by [IsPermanent] through any
    wrapping, joining or retry/defer marker put around it later. *)
Theorem permanent_disposition (e : option err) :
  Permanent None = None
  ∧ Permanent (Permanent e) = Permanent e
  ∧ IsPermanent (Permanent e) = bool_decide (is_Some e)
  ∧ (∀ outer e', Permanent e = Some e' → e' ∈ preorder outer → IsPermanent (Some outer) = true).
Proof.
  assert (IsPermanent (Permanent e) = bool_decide (is_Some e)) as HP.
  { destruct e as [e|]; [|by vm_compute]. cbn [Permanent].
    rewrite bool_decide_true by done. destruct (IsPermanent (Some e)) eqn:H; [done|].
    apply IsPermanent_preorder. exists e. cbn. set_solver. }
  split; [done|]. split; [|split; [done|]].
  - destruct e as [e|]; [|done]. rewrite bool_decide_true in HP by done.
    destruct (Permanent (Some e)) eqn:H; [|done]. cbn [Permanent]. by rewrite HP.
  - intros outer e' He' Hsub. rewrite He' in HP. destruct e as [e|]; [|done].
    rewrite bool_decide_true in HP by done. apply IsPermanent_preorder in HP as [e2 H2].
    apply IsPermanent_preorder. eauto using preorder_trans.
Qed.

(** The retry time and the defer time of an error are read from the
    first marker of their kind in search order: an explicit marker around
    any error wins over the markers inside it, a marker of the other kind
    or a [%w] wrapper around it is transparent, and nil has neither. *)
Theorem retry_defer_disposition (e : err) (at_ : Z) :
  RetryTime (RetryAt (Some e) at_) = Some at_
  ∧ DeferTime (DeferAt (Some e) at_) = Some at_
  ∧ RetryTime (DeferAt (Some e) at_) = RetryTime (Some e)
  ∧ DeferTime (RetryAt (Some e) at_) = DeferTime (Some e)
  ∧ (∀ pre, RetryTime (Some (wrapf pre e)) = RetryTime (Some e))
  ∧ (∀ pre, DeferTime (Some (wrapf pre e)) = DeferTime (Some e))
  ∧ RetryTime (Some e) = first_of pick_retryAt (preorder e)
  ∧ DeferTime (Some e) = first_of pick_deferAt (preorder e)
  ∧ RetryAt None at_ = None ∧ DeferAt None at_ = None.
Proof.
  repeat split; try done.
  - intros pre. by apply errors_As_wrap.
  - intros pre. by apply errors_As_wrap.
  - apply errors_As_first.
  - apply errors_As_first.
Qed.
