(* ===== verification/Models.v ===== *)
(** * Identifiers, capabilities and persisted rows

    shared/types/types.go, outbox/ids.go, outbox/capability.go,
    outbox/models/*.go, outbox/context.go and the plain data types of
    outbox/batch.go, outbox/contract.go and outbox/observer.go.

    The three identifier types are 16-byte UUIDs; a value is modelled by the
    128-bit number its bytes spell, so the nil UUID is 0 and the byte order
    (which is also the order of the canonical text) is the order of [N]. *)

From S2P Require Import Prelude GoTime Errors.
Open Scope Z_scope.

Abbreviation JobID := N.
Abbreviation LeaseToken := N.
Abbreviation MessageID := N.
Abbreviation SchemaVersion := Z.

Definition JobIDNil : JobID := 0%N.
Definition LeaseTokenNil : LeaseToken := 0%N.
Definition MessageIDNil : MessageID := 0%N.
Definition DefaultSchemaVersion : SchemaVersion := 1.
Definition MaxReservationBatchSize : Z := 1000.

(** ** shared/types/types.go *)

Module JobIDType.
Definition IsZero (t : JobID) : bool := N.eqb t JobIDNil.
Definition Validate (t : JobID) : result unit :=
  fail_if (IsZero t) (wrapf "validate" (ESentinel ErrJobIDUuidZero)).
Definition AsPointer (t : JobID) : option JobID := if IsZero t then None else Some t.
End JobIDType.

Module LeaseTokenType.
Definition IsZero (t : LeaseToken) : bool := N.eqb t LeaseTokenNil.
Definition Validate (t : LeaseToken) : result unit :=
  fail_if (IsZero t) (wrapf "validate" (ESentinel ErrLeaseTokenUUIDZero)).
End LeaseTokenType.

Module MessageIDType.
Definition IsZero (t : MessageID) : bool := N.eqb t MessageIDNil.
Definition Validate (t : MessageID) : result unit :=
  fail_if (IsZero t) (wrapf "validate" (ESentinel ErrMessageIDUuidZero)).
Definition AsPointer (t : MessageID) : option MessageID := if IsZero t then None else Some t.
End MessageIDType.

Lemma job_id_valid t : JobIDType.Validate t = Ok tt ↔ t ≠ JobIDNil.
Proof. unfold JobIDType.Validate, JobIDType.IsZero. by rewrite fail_if_ok, N.eqb_neq. Qed.

Lemma lease_token_valid t : LeaseTokenType.Validate t = Ok tt ↔ t ≠ LeaseTokenNil.
Proof. unfold LeaseTokenType.Validate, LeaseTokenType.IsZero. by rewrite fail_if_ok, N.eqb_neq. Qed.

(** ** outbox/capability.go *)

Record JobCapability : Type := {
  cap_Name : string;
  cap_SchemaVersion : SchemaVersion
}.

#[global] Instance JobCapability_eq_dec : EqDecision JobCapability.
Proof. solve_decision. Defined.

#[global] Program Instance JobCapability_countable : Countable JobCapability :=
  inj_countable' (λ c, (cap_Name c, cap_SchemaVersion c))
                 (λ p, {| cap_Name := p.1; cap_SchemaVersion := p.2 |}) _.
Next Obligation. by intros []. Qed.

Definition Validate (c : JobCapability) : result unit :=
  fail_if (cap_SchemaVersion c <=? 0) (wrapAs ErrInvalidSchemaVersion "").

Lemma capability_valid c : Validate c = Ok tt ↔ 0 < cap_SchemaVersion c.
Proof. unfold Validate. by rewrite fail_if_ok, Z.leb_gt. Qed.

Definition normalizeSchemaVersion (version : SchemaVersion) : SchemaVersion :=
  if version <=? 0 then DefaultSchemaVersion else version.

(** [capabilityForJob] and [capabilityForBatchJob] differ only in the
    interface they test; [versioned] is [SchemaVersion()] of a handler that
    implements the versioned interface. *)
Definition capabilityFor (name : string) (versioned : option SchemaVersion) : result JobCapability :=
  let capability := {| cap_Name := name;
                       cap_SchemaVersion := default DefaultSchemaVersion versioned |} in
  _ ← Validate capability; Ok capability.

(** The comparison of [sortCapabilities]: by name, then by version. *)
Definition capability_less : JobCapability → JobCapability → bool :=
  lex_by String.eqb String.ltb cap_Name (by_key Z.ltb cap_SchemaVersion).

Definition sortCapabilities (capabilities : list JobCapability) : list JobCapability :=
  sort_slice capability_less capabilities.

#[global] Instance capability_less_strict : StrictOrderB capability_less.
Proof. apply _. Qed.

Lemma capability_less_tie a b :
  capability_less a b = false → capability_less b a = false → a = b.
Proof.
  intros H1 H2. destruct (lex_tie _ _ _ _ _ _ H1 H2) as (Hn & H3 & H4).
  unfold by_key in *. pose proof (key_tri _ _ H3 H4).
  destruct a, b; cbn in *; congruence.
Qed.

(** Whatever order the capability map is iterated in, the workers see
    the same capability list: [sortCapabilities] returns the one permutation
    ordered by name and then by version. *)
Theorem sortCapabilities_canonical (l1 l2 : list JobCapability) :
  l1 ≡ₚ l2 →
  sortCapabilities l1 = sortCapabilities l2
  ∧ sortCapabilities l1 ≡ₚ l2
  ∧ StronglySorted (not_after capability_less) (sortCapabilities l1).
Proof.
  intros Hp. unfold sortCapabilities. split; [|split].
  - apply sort_slice_unique; [apply _| | |].
    + intros a b _ _. apply capability_less_tie.
    + by rewrite sort_slice_perm.
    + apply sort_slice_sorted, _.
  - by rewrite sort_slice_perm.
  - apply sort_slice_sorted, _.
Qed.

Definition cap_a1 : JobCapability := {| cap_Name := "a"; cap_SchemaVersion := 1 |}.
Definition cap_a2 : JobCapability := {| cap_Name := "a"; cap_SchemaVersion := 2 |}.
Definition cap_b1 : JobCapability := {| cap_Name := "b"; cap_SchemaVersion := 1 |}.

Lemma sortCapabilities_canonical_witness :
  sortCapabilities [cap_b1; cap_a2; cap_a1] = sortCapabilities [cap_a1; cap_a2; cap_b1]
  ∧ sortCapabilities [cap_b1; cap_a2; cap_a1] = [cap_a1; cap_a2; cap_b1].
Proof.
  split; [|vm_compute; reflexivity].
  apply (sortCapabilities_canonical [cap_b1; cap_a2; cap_a1] [cap_a1; cap_a2; cap_b1]).
  apply (Permutation_rev [cap_b1; cap_a2; cap_a1]).
Defined.

(** ** outbox/models *)

(** A row of the active queue.  [sql.NullTime] and [sql.NullString] are
    options. *)
Record Job : Type := mkJob {
  ID : JobID;
  Queue : string;
  Name : string;
  SchemaVersionOf : SchemaVersion;
  Payload : string;
  Attempts : Z;
  ReservedAt : option Z;
  LeaseTokenOf : LeaseToken;
  DeduplicationKey : option string;
  AvailableAt : Z;
  CreatedAt : Z
}.

Record JobFailed : Type := mkJobFailed {
  f_ID : JobID;
  f_JobID : JobID;
  f_Queue : string;
  f_Name : string;
  f_SchemaVersion : SchemaVersion;
  f_Payload : string;
  f_Reason : string;
  f_FailedAt : Z;
  f_CreatedAt : Z;
  f_Connection : string;
  f_Exception : string
}.

#[global] Instance Job_eq_dec : EqDecision Job.
Proof. solve_decision. Defined.
#[global] Instance JobFailed_eq_dec : EqDecision JobFailed.
Proof. solve_decision. Defined.

(** The capability a persisted row belongs to. *)
Definition job_capability (j : Job) : JobCapability :=
  {| cap_Name := Name j; cap_SchemaVersion := normalizeSchemaVersion (SchemaVersionOf j) |}.

(** ** outbox/batch.go, outbox/contract.go: data *)

Record BatchConfig : Type := { MaxMessages : Z; MaxBytes : Z; MaxWait : Z }.
Record BatchJobItem : Type := { item_JobID : JobID; item_Payload : string; item_Attempt : Z }.
Record BatchItemResult : Type := { r_JobID : JobID; r_Err : option err }.
Abbreviation BatchResult := (list BatchItemResult).
Record BatchClaimLimits : Type := { lim_MaxMessages : Z; lim_MaxBytes : Z }.

Inductive BatchJobOutcomeKind : Type :=
| BatchJobOutcomeSuccess | BatchJobOutcomeRetry | BatchJobOutcomeDefer | BatchJobOutcomeDLQ.
#[global] Instance BatchJobOutcomeKind_eq_dec : EqDecision BatchJobOutcomeKind.
Proof. solve_decision. Defined.

Record BatchJobOutcome : Type := {
  o_JobID : JobID;
  o_Kind : BatchJobOutcomeKind;
  o_AvailableAt : Z;
  o_Reason : string
}.

Record UniquePutResult : Type := { u_JobID : JobID; u_Created : bool }.
Record UniqueBatchPut : Type := {
  p_DeduplicationKey : string;
  p_Name : string;
  p_SchemaVersion : SchemaVersion;
  p_Payload : string;
  p_AvailableAt : Z
}.

(** ** outbox/context.go *)

Record JobMetadata : Type := { meta_ID : JobID; meta_Attempt : Z }.

(** The value stored under [jobMetadataKey] by [withJobMetadata]. *)
Definition withJobMetadata (job : Job) : option JobMetadata :=
  Some {| meta_ID := ID job; meta_Attempt := Attempts job |}.

Definition JobMetadataFromContext (value : option JobMetadata) : option JobMetadata :=
  match value with
  | Some m => if N.eqb (meta_ID m) JobIDNil || (meta_Attempt m <=? 0) then None else Some m
  | None => None
  end.

Definition JobIDFromContext (value : option JobMetadata) : JobID :=
  match JobMetadataFromContext value with Some m => meta_ID m | None => JobIDNil end.
