(* ===== verification/Retry.v ===== *)
(** * Retry scheduling

    outbox/retry_policy.go and the bounded backoff of
    outbox/service_execution_batch.go ([batchAttemptBackoff]).

    Delays are [int64] nanoseconds: the doubling is computed with the
    machine's wrap-around and proved never to reach it.  The doubling loops
    run on fuel 64, one more than the number of doublings any positive
    [int64] allows; running out of fuel would be [None], and the theorems
    show it never happens. *)

From S2P Require Import Prelude GoTime Errors Models.
Open Scope Z_scope.

Definition batchRetryBase : Z := 100 * Millisecond.
Definition batchRetryMaximum : Z := 30 * Second.

Record RetryAttempt : Type := {
  ra_JobID : JobID;
  ra_Capability : JobCapability;
  ra_Attempt : Z;
  ra_Err : err
}.

(** A callback supplied by the host either returns or panics. *)
Inductive callback (A : Type) : Type :=
| Returns (a : A)
| Panics (value : string).
Arguments Returns {A} a.
Arguments Panics {A} value.

(** [RetryPolicy]: the interface has one method, [RetryDelay]. *)
Abbreviation RetryPolicy := (RetryAttempt → callback Z).

Record exponentialRetryPolicy : Type := {
  baseDelay : Z;
  maxDelay : Z;
  jitter : option (Z → callback Z)
}.

Definition NewExponentialRetryPolicy (base maximum : Z) (jit : option (Z → callback Z)) :
    result exponentialRetryPolicy :=
  if (base <=? 0) || (maximum <=? 0) || (maximum <? base)
  then Err (wrapAs ErrRetryPolicy "require 0 < base delay <= maximum delay")
  else Ok {| baseDelay := base; maxDelay := maximum; jitter := jit |}.

(** The loop [for step := 1; step < attempt && delay < max; step++]. *)
Fixpoint doubling (fuel : nat) (step attempt delay maximum : Z) : option Z :=
  match fuel with
  | O => None
  | S fuel =>
      if (step <? attempt) && (delay <? maximum) then
        if maximum `quot` 2 <? delay then Some maximum
        else doubling fuel (step + 1) attempt (wrap64 (delay * 2)) maximum
      else Some delay
  end.

Definition doubling_fuel : nat := 64.

Definition RetryDelay (p : exponentialRetryPolicy) (attempt : RetryAttempt) : option (callback Z) :=
  match doubling doubling_fuel 1 (ra_Attempt attempt) (baseDelay p) (maxDelay p) with
  | None => None
  | Some delay =>
      Some match jitter p with
           | None => Returns (delay `min` maxDelay p)
           | Some jit =>
               match jit delay with
               | Returns d => Returns (d `min` maxDelay p)
               | Panics v => Panics v
               end
           end
  end.

Definition batchAttemptBackoff (attempt : Z) : option Z :=
  let attempt := if attempt <? 1 then 1 else attempt in
  match doubling doubling_fuel 1 attempt batchRetryBase batchRetryMaximum with
  | None => None
  | Some delay => Some (delay `min` batchRetryMaximum)
  end.

(** [retryPolicyDelay] recovers a panicking callback. *)
Definition retryPolicyDelay (policy : RetryPolicy) (attempt : RetryAttempt) : result Z :=
  match policy attempt with
  | Panics v => Err (wrapAs ErrRetryPolicy ("panic: " +:+ v))
  | Returns delay =>
      if delay <? 0 then Err (wrapAs ErrRetryPolicy "negative delay") else Ok delay
  end.

(** [(s *Service) retryTime]; [retryPolicy] is the service option. *)
Definition retryTime (retryPolicy : option RetryPolicy) (job : Job) (handleErr : err)
    (now legacyDelay : Z) : result Z :=
  match RetryTime (Some handleErr) with
  | Some at_ => Ok (if Before at_ now then now else at_)
  | None =>
      match retryPolicy with
      | None => Ok (Add now legacyDelay)
      | Some policy =>
          delay ← retryPolicyDelay policy
            {| ra_JobID := ID job; ra_Capability := job_capability job;
               ra_Attempt := Attempts job; ra_Err := handleErr |};
          Ok (Add now delay)
      end
  end.

(** ** Doubling never overflows and stops *)

Section doubling.
Context (maximum : Z) (Hmax : 0 < maximum < two63).

Lemma half_bound delay : ¬ maximum `quot` 2 < delay → 0 < delay → delay * 2 ≤ maximum.
Proof.
  intros H1 H2. rewrite Z.quot_div_nonneg in H1 by lia.
  pose proof (Z.mul_div_le maximum 2). lia.
Qed.

(** [k] doublings reach [2 ^ k * delay]; the fuel covers what is left. *)
Lemma doubling_spec fuel step attempt delay :
  0 < delay ≤ maximum → two63 ≤ 2 ^ (Z.of_nat fuel - 1) * delay →
  doubling fuel step attempt delay maximum =
    Some (if step <? attempt then (delay * 2 ^ (attempt - step)) `min` maximum else delay).
Proof.
  revert step delay; induction fuel as [|fuel IH]; intros step delay Hd Hf.
  { exfalso. change (2 ^ (Z.of_nat 0 - 1)) with 0 in Hf. rewrite two63_val in *. lia. }
  cbn [doubling]. destruct (Z.ltb_spec step attempt) as [Hs|Hs]; cbn [andb]; [|done].
  assert (1 ≤ 2 ^ (attempt - step - 1)) as Hpow.
  { apply (Z.pow_le_mono_r 2 0); lia. }
  assert (2 ^ (attempt - step) = 2 * 2 ^ (attempt - step - 1)) as Hsplit.
  { rewrite <- Z.pow_succ_r by lia. f_equal. lia. }
  destruct (Z.ltb_spec delay maximum) as [Hlt|Hge]; cbn [andb].
  2: { f_equal. rewrite Z.min_r; nia. }
  destruct (Z.ltb_spec (maximum `quot` 2) delay) as [Hq|Hq].
  { f_equal. rewrite Z.quot_div_nonneg in Hq by lia.
    pose proof (Z.mul_succ_div_gt maximum 2). rewrite Z.min_r; nia. }
  pose proof (half_bound delay ltac:(lia) ltac:(lia)) as Hh.
  rewrite wrap64_id by (unfold int64; rewrite two63_val in *; lia).
  rewrite IH; [|lia|].
  - f_equal. destruct (Z.ltb_spec (step + 1) attempt).
    + rewrite Hsplit. replace (attempt - (step + 1)) with (attempt - step - 1) by lia.
      f_equal. lia.
    + assert (attempt = step + 1) as -> by lia.
      replace (step + 1 - step) with 1 by lia. rewrite Z.min_l; lia.
  - destruct fuel as [|fuel]; [exfalso; rewrite two63_val in *; cbn in Hf; lia|].
    replace (Z.of_nat (S (S fuel)) - 1) with (Z.succ (Z.of_nat fuel)) in Hf by lia.
    rewrite Z.pow_succ_r in Hf by lia.
    replace (Z.of_nat (S fuel) - 1) with (Z.of_nat fuel) by lia. lia.
Qed.
End doubling.

Lemma doubling_enough delay : 0 < delay → two63 ≤ 2 ^ (Z.of_nat doubling_fuel - 1) * delay.
Proof. intros. change (2 ^ (Z.of_nat doubling_fuel - 1)) with two63. rewrite two63_val. lia. Qed.

(** The delay the documentation describes: the base doubled once per attempt
    after the first, capped. *)
Definition exponential_reference (base maximum attempt : Z) : Z :=
  (base * 2 ^ (attempt `max` 1 - 1)) `min` maximum.

Lemma doubling_reference base maximum attempt :
  0 < base ≤ maximum → maximum < two63 →
  doubling doubling_fuel 1 attempt base maximum = Some (exponential_reference base maximum attempt).
Proof.
  intros Hb Hm. rewrite doubling_spec by (try apply doubling_enough; lia).
  f_equal. unfold exponential_reference. destruct (Z.ltb_spec 1 attempt).
  - by rewrite Z.max_l by lia.
  - rewrite Z.max_r by lia. change (2 ^ (1 - 1)) with 1. rewrite Z.min_l; lia.
Qed.

(** C28: a policy the constructor accepts never runs out of fuel and never
    overflows: without jitter its delay is the base doubled once per attempt
    after the first, capped at the maximum; with jitter the callback sees
    exactly that capped delay and its answer is capped again. *)
Theorem RetryDelay_exponential base maximum jit p attempt :
  NewExponentialRetryPolicy base maximum jit = Ok p → int64 maximum →
  RetryDelay p attempt =
    Some match jit with
         | None => Returns (exponential_reference base maximum (ra_Attempt attempt))
         | Some f => match f (exponential_reference base maximum (ra_Attempt attempt)) with
                     | Returns d => Returns (d `min` maximum)
                     | Panics v => Panics v
                     end
         end.
Proof.
  unfold NewExponentialRetryPolicy. intros H Hm.
  destruct (Z.leb_spec base 0), (Z.leb_spec maximum 0), (Z.ltb_spec maximum base);
    cbn in H; simplify_eq.
  unfold RetryDelay. cbn [baseDelay maxDelay jitter]. unfold int64 in Hm. rewrite doubling_reference by lia.
  destruct jit as [f|]; [done|]. do 2 f_equal. unfold exponential_reference. lia.
Qed.

Definition retry_attempt_of (n : Z) : RetryAttempt :=
  {| ra_JobID := 1; ra_Capability := cap_a1; ra_Attempt := n; ra_Err := EText "x" |}.

Lemma RetryDelay_exponential_witness :
  ∃ p, NewExponentialRetryPolicy Second Minute None = Ok p ∧
       RetryDelay p (retry_attempt_of 4) = Some (Returns (8 * Second)).
Proof.
  eexists. split; [vm_compute; reflexivity|].
  rewrite (RetryDelay_exponential Second Minute None _ (retry_attempt_of 4));
    [vm_compute; reflexivity|vm_compute; reflexivity|].
  split; vm_compute; congruence.
Defined.

(** The batch backoff is total, starts at 100 ms, doubles per attempt
    and stays between 100 ms and 30 s for every attempt number. *)
Theorem batchAttemptBackoff_bounded attempt :
  batchAttemptBackoff attempt = Some (exponential_reference batchRetryBase batchRetryMaximum attempt)
  ∧ batchRetryBase ≤ exponential_reference batchRetryBase batchRetryMaximum attempt ≤ batchRetryMaximum.
Proof.
  assert (1 ≤ 2 ^ (attempt `max` 1 - 1)) as Hp by (apply (Z.pow_le_mono_r 2 0); lia).
  assert (0 < batchRetryBase ≤ batchRetryMaximum) as Hb by (vm_compute; split; congruence).
  split.
  - unfold batchAttemptBackoff.
    rewrite doubling_reference by (try done; vm_compute; congruence).
    f_equal. unfold exponential_reference. destruct (Z.ltb_spec attempt 1).
    + rewrite !Z.max_r by lia. lia.
    + lia.
  - unfold exponential_reference. nia.
Qed.

Lemma batchAttemptBackoff_pos attempt : ∃ d, batchAttemptBackoff attempt = Some d ∧ 0 ≤ d.
Proof.
  unfold batchAttemptBackoff. generalize (if attempt <? 1 then 1 else attempt). intros n.
  rewrite doubling_reference by (vm_compute; try split; congruence).
  eexists. split; [done|]. unfold exponential_reference.
  assert (1 ≤ 2 ^ (n `max` 1 - 1)) by (apply (Z.pow_le_mono_r 2 0); lia).
  assert (0 < batchRetryBase ≤ batchRetryMaximum) by (vm_compute; split; congruence). nia.
Qed.

Lemma retryTime_not_past policy job e now legacy at_ : 0 ≤ legacy →
  retryTime policy job e now legacy = Ok at_ → now ≤ at_.
Proof.
  intros Hl. unfold retryTime, Before, Add. destruct (RetryTime (Some e)) as [a|].
  { destruct (Z.ltb_spec a now); intros; simplify_eq/=; lia. }
  destruct policy as [p|]; [|intros; simplify_eq/=; lia].
  unfold retryPolicyDelay. destruct (p _) as [d|v]; cbn; [|done].
  destruct (Z.ltb_spec d 0); cbn; intros; simplify_eq/=; lia.
Qed.

(** Scheduling a counted failure.  An explicit [RetryAt] wins over the
    policy and is never earlier than the completion time; the policy is
    consulted only without one, a negative delay or a panic of the policy is
    [ErrRetryPolicy], and every accepted time is at or after [now] (given
    the non-negative default the callers pass). *)
Theorem retryTime_spec policy job e now legacy :
  0 ≤ legacy →
  (∀ at_, RetryTime (Some e) = Some at_ →
     retryTime policy job e now legacy = Ok (at_ `max` now))
  ∧ (RetryTime (Some e) = None → policy = None →
     retryTime policy job e now legacy = Ok (now + legacy))
  ∧ (∀ at_, retryTime policy job e now legacy = Ok at_ → now ≤ at_)
  ∧ (∀ e', retryTime policy job e now legacy = Err e' →
     RetryTime (Some e) = None ∧ is_Some policy ∧ errors_Is e' ErrRetryPolicy = true).
Proof.
  intros Hl. unfold retryTime, Before, Add.
  destruct (RetryTime (Some e)) as [a|].
  { destruct (Z.ltb_spec a now); repeat split; try done; intros; simplify_eq;
      f_equal; lia. }
  destruct policy as [p|]; [|repeat split; intros; simplify_eq/=; lia].
  unfold retryPolicyDelay. destruct (p _) as [d|v]; cbn.
  - destruct (Z.ltb_spec d 0); cbn; repeat split; intros; simplify_eq/=; try done; lia.
  - repeat split; intros; simplify_eq/=; done.
Qed.

Definition sample_job : Job :=
  mkJob 7 "queue" "a" 1 "{}" 2 (Some 100) 9 None 10 5.

Lemma retryTime_spec_witness :
  0 ≤ 0 ∧ retryTime None sample_job (retryAtError (EText "x") 50) 20 0 = Ok 50.
Proof.
  split; [lia|].
  destruct (retryTime_spec None sample_job (retryAtError (EText "x") 50) 20 0 ltac:(lia)) as [H _].
  rewrite (H 50); reflexivity.
Defined.
