(* ===== verification/Batch.v ===== *)
(** * Batch contracts

    outbox/batch.go (configuration defaults and bounds, result validation)
    and the pure helpers of outbox/service_execution_batch.go and
    outbox/service_batch.go that select, validate and order claimed rows. *)

From S2P Require Import Prelude GoTime Errors Models.
Open Scope Z_scope.

(** ** [BatchConfig.Normalize] *)

Definition defaultBatchMaxMessages : Z := 100.
Definition defaultBatchMaxBytes : Z := Z.shiftl 4 20.
Definition defaultBatchMaxWait : Z := 25 * Millisecond.

Definition or_default (v d : Z) : Z := if v =? 0 then d else v.

Definition normalize (c : BatchConfig) : result BatchConfig :=
  if (MaxMessages c <? 0) || (MaxBytes c <? 0) || (MaxWait c <? 0)
  then Err (EText "outbox batch limits must not be negative")
  else
    let r := {| MaxMessages := or_default (MaxMessages c) defaultBatchMaxMessages;
                MaxBytes := or_default (MaxBytes c) defaultBatchMaxBytes;
                MaxWait := or_default (MaxWait c) defaultBatchMaxWait |} in
    if MaxReservationBatchSize <? MaxMessages r
    then Err (EText "outbox batch maximum messages exceeds maximum")
    else if max_int32 <? MaxBytes r
    then Err (EText "outbox batch maximum bytes overflows supported bound")
    else Ok r.

(** [Normalize] copies the normalized limits. *)
Definition Normalize (c : BatchConfig) : result BatchConfig :=
  r ← normalize c; Ok {| MaxMessages := MaxMessages r; MaxBytes := MaxBytes r; MaxWait := MaxWait r |}.

Lemma normalize_range c r : normalize c = Ok r →
  1 ≤ MaxMessages r ≤ MaxReservationBatchSize ∧ 1 ≤ MaxBytes r ≤ max_int32 ∧ 1 ≤ MaxWait r.
Proof.
  assert (∀ v d, 0 ≤ v → 1 ≤ d → 1 ≤ or_default v d) as Hd.
  { intros v d Hv Hd. unfold or_default. destruct (Z.eqb_spec v 0); lia. }
  unfold normalize. destruct c as [m b w]; cbn.
  destruct (Z.ltb_spec m 0), (Z.ltb_spec b 0), (Z.ltb_spec w 0); cbn; try done.
  destruct (Z.ltb_spec MaxReservationBatchSize (or_default m defaultBatchMaxMessages)) as [|Hm]; [done|].
  destruct (Z.ltb_spec max_int32 (or_default b defaultBatchMaxBytes)) as [|Hb]; [done|].
  intros [= <-]. cbn. split_and!; try done; apply Hd; try lia; vm_compute; congruence.
Qed.

(** Normalising a configuration is idempotent, maps the zero value to
    100 messages, 4 MiB and 25 ms, and every accepted configuration has all
    three limits positive and within the supported bounds. *)
Theorem normalize_bounds c r :
  normalize c = Ok r →
  normalize r = Ok r
  ∧ 1 ≤ MaxMessages r ≤ MaxReservationBatchSize
  ∧ 1 ≤ MaxBytes r ≤ max_int32
  ∧ 1 ≤ MaxWait r
  ∧ (MaxMessages c = 0 → MaxMessages r = 100)
  ∧ (MaxBytes c = 0 → MaxBytes r = 4194304)
  ∧ (MaxWait c = 0 → MaxWait r = 25 * Millisecond)
  ∧ (MaxMessages c ≠ 0 → MaxBytes c ≠ 0 → MaxWait c ≠ 0 → r = c).
Proof.
  unfold normalize. destruct c as [m b w]; cbn.
  destruct (Z.ltb_spec m 0), (Z.ltb_spec b 0), (Z.ltb_spec w 0); cbn; try done.
  destruct (Z.ltb_spec MaxReservationBatchSize (or_default m defaultBatchMaxMessages)) as [|Hm]; [done|].
  destruct (Z.ltb_spec max_int32 (or_default b defaultBatchMaxBytes)) as [|Hb]; [done|].
  intros [= <-]. cbn.
  assert (∀ v d, 0 ≤ v → 1 ≤ d → 1 ≤ or_default v d ∧ or_default (or_default v d) d = or_default v d
            ∧ (v = 0 → or_default v d = d) ∧ (v ≠ 0 → or_default v d = v)) as Hd.
  { intros v d ??. unfold or_default. destruct (Z.eqb_spec v 0).
    - destruct (Z.eqb_spec d 0); lia.
    - destruct (Z.eqb_spec v 0); lia. }
  destruct (Hd m defaultBatchMaxMessages) as (Hm1 & Hm2 & Hm3 & Hm4); [lia|vm_compute; congruence|].
  destruct (Hd b defaultBatchMaxBytes) as (Hb1 & Hb2 & Hb3 & Hb4); [lia|vm_compute; congruence|].
  destruct (Hd w defaultBatchMaxWait) as (Hw1 & Hw2 & Hw3 & Hw4); [lia|vm_compute; congruence|].
  repeat split; try lia.
  - rewrite Hm2, Hb2, Hw2.
    destruct (Z.ltb_spec (or_default m defaultBatchMaxMessages) 0); [lia|].
    destruct (Z.ltb_spec (or_default b defaultBatchMaxBytes) 0); [lia|].
    destruct (Z.ltb_spec (or_default w defaultBatchMaxWait) 0); [lia|]. cbn.
    rewrite (proj2 (Z.ltb_ge _ _) Hm), (proj2 (Z.ltb_ge _ _) Hb). done.
  - done.
  - done.
  - done.
  - intros. by rewrite Hm4, Hb4, Hw4.
Qed.

Lemma normalize_bounds_witness :
  ∃ r, normalize {| MaxMessages := 0; MaxBytes := 0; MaxWait := 0 |} = Ok r ∧ 1 ≤ MaxWait r.
Proof.
  eexists. split; [vm_compute; reflexivity|].
  eapply (normalize_bounds {| MaxMessages := 0; MaxBytes := 0; MaxWait := 0 |}).
  vm_compute; reflexivity.
Defined.

(** ** [validateBatchResult] *)

Definition invalid_result (detail : string) : err := wrapAs ErrInvalidBatchResult detail.

(** The first loop: the position of every input job. *)
Fixpoint build_positions (index : nat) (input : list BatchJobItem) (positions : gmap JobID nat) :
    result (gmap JobID nat) :=
  match input with
  | [] => Ok positions
  | item :: input =>
      if JobIDType.IsZero (item_JobID item) then Err (invalid_result "input has an empty JobID")
      else if bool_decide (is_Some (positions !! item_JobID item))
      then Err (invalid_result "duplicate input JobID")
      else build_positions (S index) input (<[item_JobID item := index]> positions)
  end.

(** The second loop: store each result's error at its input's position. *)
Fixpoint place_results (items : BatchResult) (positions : gmap JobID nat)
    (seen : gset JobID) (errs : list (option err)) : result (list (option err)) :=
  match items with
  | [] => Ok errs
  | item :: items =>
      match positions !! r_JobID item with
      | None => Err (invalid_result "unknown JobID")
      | Some position =>
          if bool_decide (r_JobID item ∈ seen) then Err (invalid_result "duplicate JobID")
          else place_results items positions ({[r_JobID item]} ∪ seen) (<[position := r_Err item]> errs)
      end
  end.

Definition validateBatchResult (input : list BatchJobItem) (res : BatchResult) :
    result (list (option err)) :=
  if negb (length res =? length input)%nat then Err (invalid_result "item count")
  else
    positions ← build_positions 0 input ∅;
    place_results res positions ∅ (replicate (length input) None).

Definition item_ids (input : list BatchJobItem) : list JobID := item_JobID <$> input.
Definition result_ids (res : BatchResult) : list JobID := r_JobID <$> res.

Lemma build_positions_ok index input positions positions' :
  build_positions index input positions = Ok positions' →
  NoDup (item_ids input) ∧ (∀ id, id ∈ item_ids input → id ≠ JobIDNil ∧ positions !! id = None)
  ∧ (∀ id p, positions' !! id = Some p ↔
       positions !! id = Some p ∨ ∃ k, item_ids input !! k = Some id ∧ p = (index + k)%nat).
Proof.
  revert index positions; induction input as [|item input IH]; cbn; intros index positions H.
  { simplify_eq. split; [constructor|]. split; [set_solver|]. naive_solver. }
  unfold JobIDType.IsZero in H. destruct (N.eqb_spec (item_JobID item) JobIDNil) as [|Hz]; [done|].
  case_bool_decide as Hdup; [done|]. apply eq_None_not_Some in Hdup.
  apply IH in H as (Hnd & Hfresh & Hpos). split; [|split].
  - constructor; [|done]. intros Hin. destruct (Hfresh _ Hin) as [_ Hn]. simplify_map_eq.
  - intros id [->|Hin]%elem_of_cons; [done|]. destruct (Hfresh _ Hin) as [? Hn].
    split; [done|]. by apply lookup_insert_None in Hn as [??].
  - intros id p. rewrite Hpos, lookup_insert_Some. split.
    + intros [[[<- <-]|[_ ?]]|(k & Hk & ->)]; [right; exists 0%nat; split; [done|lia]|by left|].
      right. exists (S k). split; [done|lia].
    + intros [Hp|(k & Hk & ->)].
      * left. right. split; [|done]. intros <-. congruence.
      * destruct k as [|k]; cbn in Hk; simplify_eq; [left; left; split; [done|lia]|].
        right. exists k. split; [done|lia].
Qed.

Lemma build_positions_total index input positions :
  NoDup (item_ids input) → (∀ id, id ∈ item_ids input → id ≠ JobIDNil ∧ positions !! id = None) →
  ∃ positions', build_positions index input positions = Ok positions'.
Proof.
  revert index positions; induction input as [|item input IH]; cbn; intros index positions Hnd Hf.
  { eauto. }
  apply NoDup_cons in Hnd as [Hnin Hnd].
  destruct (Hf (item_JobID item)) as [Hz Hn]; [set_solver|].
  unfold JobIDType.IsZero. rewrite (proj2 (N.eqb_neq _ _) Hz).
  rewrite bool_decide_false by (by rewrite Hn; intros []).
  apply IH; [done|]. intros id Hin. destruct (Hf id) as [??]; [set_solver|]. split; [done|].
  rewrite lookup_insert_ne; [done|]. intros Heq. apply Hnin. by rewrite Heq.
Qed.

Lemma place_results_ok items positions seen errs errs' :
  place_results items positions seen errs = Ok errs' →
  NoDup (result_ids items)
  ∧ (∀ id, id ∈ result_ids items → is_Some (positions !! id) ∧ id ∉ seen)
  ∧ length errs' = length errs.
Proof.
  revert seen errs; induction items as [|item items IH]; cbn; intros seen errs H.
  { simplify_eq. split; [constructor|]. split; [set_solver|done]. }
  destruct (positions !! r_JobID item) as [p|] eqn:Hp; [|done].
  case_bool_decide as Hs; [done|].
  apply IH in H as (Hnd & Hin & Hlen). rewrite length_insert in Hlen.
  split; [|split; [|done]].
  - constructor; [|done]. intros Hi. destruct (Hin _ Hi) as [_ Hn]. set_solver.
  - intros id [->|Hi]%elem_of_cons; [by rewrite Hp|]. destruct (Hin _ Hi). set_solver.
Qed.

Lemma place_results_total items positions seen errs :
  NoDup (result_ids items) →
  (∀ id, id ∈ result_ids items → is_Some (positions !! id) ∧ id ∉ seen) →
  ∃ errs', place_results items positions seen errs = Ok errs'.
Proof.
  revert seen errs; induction items as [|item items IH]; cbn; intros seen errs Hnd Hin; [eauto|].
  apply NoDup_cons in Hnd as [Hnin Hnd].
  destruct (Hin (r_JobID item)) as [[p ->] Hs]; [set_solver|].
  rewrite bool_decide_false by done. apply IH; [done|].
  intros id Hi. destruct (Hin id) as [??]; [set_solver|]. split; [done|]. set_solver.
Qed.

(** What ends up at a position: the error of the result placed there last. *)
Lemma place_results_at items positions seen errs errs' :
  place_results items positions seen errs = Ok errs' →
  (∀ id1 id2 p, positions !! id1 = Some p → positions !! id2 = Some p → id1 = id2) →
  ∀ p, (p < length errs)%nat →
    (∀ it, it ∈ items → positions !! r_JobID it = Some p → errs' !! p = Some (r_Err it))
    ∧ ((∀ it, it ∈ items → positions !! r_JobID it ≠ Some p) → errs' !! p = errs !! p).
Proof.
  revert seen errs; induction items as [|item items IH]; cbn; intros seen errs H Hinj p Hlt.
  { simplify_eq. split; [set_solver|done]. }
  destruct (positions !! r_JobID item) as [q|] eqn:Hq; [|done].
  case_bool_decide as Hs; [done|].
  pose proof (place_results_ok _ _ _ _ _ H) as (_ & Hseen & _).
  destruct (IH _ _ H Hinj p) as [IH1 IH2]; [by rewrite length_insert|].
  assert (∀ it, it ∈ items → positions !! r_JobID it = Some q → False) as Hno.
  { intros it Hit Hpos. destruct (Hseen (r_JobID it)) as [_ Hns].
    { unfold result_ids. apply list_elem_of_fmap. eauto. }
    apply Hns. rewrite (Hinj _ _ _ Hpos Hq). set_solver. }
  split.
  - intros it [->|Hit]%elem_of_cons Hp; [|by eauto]. simplify_eq.
    rewrite IH2; [by apply list_lookup_insert_eq|]. intros it' Hit' Hp'. by apply (Hno it').
  - intros Hnone. rewrite IH2 by set_solver. apply list_lookup_insert_ne.
    intros ->. apply (Hnone item); [set_solver|done].
Qed.

Section validate.
Context (input : list BatchJobItem) (res : BatchResult).

Lemma item_ids_lookup k id :
  item_ids input !! k = Some id ↔ ∃ item, input !! k = Some item ∧ item_JobID item = id.
Proof. unfold item_ids. rewrite list_lookup_fmap_Some. naive_solver. Qed.

(** The two loops together, on inputs of equal length. *)
Lemma validate_loops errs :
  length res = length input →
  (positions ← build_positions 0 input ∅;
   place_results res positions ∅ (replicate (length input) None)) = Ok errs →
  NoDup (item_ids input) ∧ JobIDNil ∉ item_ids input ∧ result_ids res ≡ₚ item_ids input
  ∧ length errs = length input
  ∧ ∀ i item r, input !! i = Some item → r ∈ res → r_JobID r = item_JobID item →
      errs !! i = Some (r_Err r).
Proof.
  intros Hlen (positions & Hb & Hp)%res_bind_ok.
  destruct (build_positions_ok _ _ _ _ Hb) as (Hnd & Hfresh & Hpos).
  destruct (place_results_ok _ _ _ _ _ Hp) as (Hndr & Hin & Hl).
  rewrite length_replicate in Hl.
  assert (∀ id p, positions !! id = Some p ↔ item_ids input !! p = Some id) as Hpos'.
  { intros id p. rewrite Hpos, lookup_empty. naive_solver. }
  split_and!; [done| | |done|].
  - intros Hz. by destruct (Hfresh _ Hz).
  - apply submseteq_length_Permutation.
    + apply NoDup_submseteq; [done|]. intros id Hid. destruct (Hin id Hid) as [[p Hp'] _].
      apply Hpos' in Hp'. by apply list_elem_of_lookup_2 in Hp'.
    + unfold item_ids, result_ids. rewrite !length_fmap. lia.
  - intros i item r Hi Hr Hid.
    assert (positions !! r_JobID r = Some i) as Hri.
    { apply Hpos', item_ids_lookup. exists item. by rewrite Hid. }
    assert (∀ id1 id2 p, positions !! id1 = Some p → positions !! id2 = Some p → id1 = id2) as Hinj.
    { intros id1 id2 p H1%Hpos' H2%Hpos'. congruence. }
    eapply (place_results_at _ _ _ _ _ Hp Hinj i); [|done..].
    rewrite length_replicate. by eapply lookup_lt_Some.
Qed.

(** A batch result is accepted exactly when the inputs carry distinct
    non-zero job ids and the results name each input once, in any order;
    the accepted errors are then those the handler reported, moved to the
    position of their job. *)
Theorem validateBatchResult_spec errs :
  validateBatchResult input res = Ok errs ↔
  NoDup (item_ids input) ∧ JobIDNil ∉ item_ids input ∧ result_ids res ≡ₚ item_ids input
  ∧ length errs = length input
  ∧ ∀ i item r, input !! i = Some item → r ∈ res → r_JobID r = item_JobID item →
      errs !! i = Some (r_Err r).
Proof.
  unfold validateBatchResult. split.
  - destruct (Nat.eqb_spec (length res) (length input)) as [Hlen|]; [|done]. cbn [negb].
    by apply validate_loops.
  - intros (Hnd & Hz & Hperm & Hl & Hat).
    assert (length res = length input) as Hlen.
    { apply Permutation_length in Hperm. unfold result_ids, item_ids in Hperm.
      by rewrite !length_fmap in Hperm. }
    rewrite (proj2 (Nat.eqb_eq _ _) Hlen). cbn [negb].
    destruct (build_positions_total 0 input ∅ Hnd) as [positions Hb].
    { intros id Hid. split; [|apply lookup_empty]. by intros ->. }
    destruct (build_positions_ok _ _ _ _ Hb) as (_ & _ & Hpos).
    destruct (place_results_total res positions ∅ (replicate (length input) None)) as [errs' Hp].
    { by rewrite Hperm. }
    { intros id Hid. rewrite Hperm in Hid. apply list_elem_of_lookup in Hid as [k Hk].
      split; [|set_solver]. exists k. apply Hpos. eauto. }
    assert ((positions ← build_positions 0 input ∅;
             place_results res positions ∅ (replicate (length input) None)) = Ok errs') as Hok.
    { by rewrite Hb. }
    rewrite Hok. destruct (validate_loops errs' Hlen Hok) as (_ & _ & _ & Hl' & Hat').
    f_equal. apply list_eq. intros i.
    destruct (input !! i) as [item|] eqn:Hi.
    + assert (item_JobID item ∈ result_ids res) as (r & Hr1 & Hr2)%list_elem_of_fmap.
      { rewrite Hperm. apply list_elem_of_fmap. exists item.
        split; [done|]. by eapply list_elem_of_lookup_2. }
      by rewrite (Hat i item r), (Hat' i item r).
    + apply lookup_ge_None in Hi.
      rewrite !(proj2 (lookup_ge_None _ _)) by lia. done.
Qed.
End validate.

(** Every rejection of a result is [ErrInvalidBatchResult]. *)
Lemma validateBatchResult_err input res e :
  validateBatchResult input res = Err e → errors_Is e ErrInvalidBatchResult = true.
Proof.
  unfold validateBatchResult. destruct (negb _); [by intros [= <-]|].
  assert (∀ i l m e, build_positions i l m = Err e → errors_Is e ErrInvalidBatchResult = true) as Hb.
  { intros i l; revert i; induction l as [|it l IH]; intros i m e'; cbn; [done|].
    destruct (JobIDType.IsZero _); [by intros [= <-]|].
    case_bool_decide; [by intros [= <-]|]. apply IH. }
  assert (∀ l p s m e, place_results l p s m = Err e → errors_Is e ErrInvalidBatchResult = true) as Hp.
  { induction l as [|it l IH]; intros p s m e'; cbn; [done|].
    destruct (p !! _); [|by intros [= <-]]. case_bool_decide; [by intros [= <-]|]. apply IH. }
  destruct (build_positions 0 input ∅) eqn:E; cbn; [apply Hp|]. intros [= <-]. by eapply Hb.
Qed.

(** ** Claimed rows *)

(** outbox/service_batch.go, [validateClaimedJobLease]. *)
Definition validateClaimedJobLease (job : Job) (token : LeaseToken) (now : Z) : result unit :=
  if negb (N.eqb (LeaseTokenOf job) token)
  then Err (wrapAs ErrLeaseLost "invalid lease token")
  else match ReservedAt job with
       | Some r => if After r now then Ok tt
                   else Err (wrapAs ErrLeaseLost "invalid or expired claimed lease")
       | None => Err (wrapAs ErrLeaseLost "invalid or expired claimed lease")
       end.

Lemma validateClaimedJobLease_ok job token now :
  validateClaimedJobLease job token now = Ok tt ↔
  LeaseTokenOf job = token ∧ ∃ r, ReservedAt job = Some r ∧ now < r.
Proof.
  unfold validateClaimedJobLease, After.
  destruct (N.eqb_spec (LeaseTokenOf job) token); cbn; [|naive_solver].
  destruct (ReservedAt job) as [r|]; [|naive_solver].
  destruct (Z.ltb_spec now r); naive_solver lia.
Qed.

(** outbox/service_execution_batch.go, [validateClaimedExecutionBatch].  The
    clock is read once per row: [clock i] is the [i]-th reading. *)
Fixpoint validate_claimed_rows (clock : nat → Z) (i : nat) (jobs : list Job)
    (capability : JobCapability) (token : LeaseToken) (seen : gset JobID) : result unit :=
  match jobs with
  | [] => Ok tt
  | job :: jobs =>
      if negb (bool_decide (job_capability job = capability))
      then Err (wrapAs ErrUnsupportedClaim "claimed another capability")
      else
        _ ← validateClaimedJobLease job token (clock i);
        if bool_decide (ID job ∈ seen) then Err (wrapAs ErrLeaseLost "duplicate claimed job")
        else validate_claimed_rows clock (S i) jobs capability token ({[ID job]} ∪ seen)
  end.

Definition validateClaimedExecutionBatch (clock : nat → Z) (jobs : list Job)
    (capability : JobCapability) (token : LeaseToken) (limit : Z) : result unit :=
  match jobs with
  | [] => Err (ESentinel ErrEmptyReservationBatch)
  | _ =>
      if limit <? Z.of_nat (length jobs)
      then Err (EText "batch repository returned more jobs than the limit")
      else validate_claimed_rows clock 0 jobs capability token ∅
  end.

Lemma validate_claimed_rows_ok clock i jobs capability token seen :
  validate_claimed_rows clock i jobs capability token seen = Ok tt ↔
  NoDup (ID <$> jobs)
  ∧ (∀ k job, jobs !! k = Some job → job_capability job = capability
       ∧ validateClaimedJobLease job token (clock (i + k)%nat) = Ok tt ∧ ID job ∉ seen).
Proof.
  revert i seen; induction jobs as [|job jobs IH]; cbn; intros i seen.
  { split; [|done]. intros _. split; [constructor|]. by intros []. }
  case_bool_decide as Hc; cbn.
  2: { split; [done|]. intros [_ H]. destruct (H 0%nat job eq_refl) as [? _]. done. }
  destruct (validateClaimedJobLease job token (clock i)) as [[]|e] eqn:Hv; cbn.
  2: { split; [done|]. intros [_ H]. destruct (H 0%nat job eq_refl) as (_ & H' & _).
       rewrite Nat.add_0_r in H'. congruence. }
  case_bool_decide as Hs.
  { split; [done|]. intros [_ H]. destruct (H 0%nat job eq_refl) as (_ & _ & H'). done. }
  rewrite IH, NoDup_cons. split.
  - intros [Hnd H]. split; [split; [|done]|].
    + intros (j & Hj & [k Hk]%list_elem_of_lookup)%list_elem_of_fmap.
      destruct (H k j Hk) as (_ & _ & Hn). rewrite <- Hj in Hn. set_solver.
    + intros [|k] j Hk; cbn in Hk; simplify_eq; [by rewrite Nat.add_0_r|].
      destruct (H k j Hk) as (? & Hl & ?). rewrite Nat.add_succ_r. cbn in Hl.
      split; [done|]. split; [done|]. set_solver.
  - intros [[Hnin Hnd] H]. split; [done|]. intros k j Hk.
    destruct (H (S k) j Hk) as (? & Hl & ?). rewrite Nat.add_succ_r in Hl.
    split; [done|]. split; [done|]. apply not_elem_of_union. split; [|done].
    apply not_elem_of_singleton. intros Heq. apply Hnin. rewrite <- Heq.
    apply list_elem_of_fmap. exists j. split; [done|]. by eapply list_elem_of_lookup_2.
Qed.

Lemma claimed_batch_facts clock jobs capability token limit :
  validateClaimedExecutionBatch clock jobs capability token limit = Ok tt →
  1 ≤ Z.of_nat (length jobs) ≤ limit ∧ NoDup (ID <$> jobs)
  ∧ Forall (λ j, job_capability j = capability ∧ LeaseTokenOf j = token) jobs.
Proof.
  unfold validateClaimedExecutionBatch. destruct jobs as [|j0 js] eqn:Hj; [done|]. rewrite <- Hj.
  destruct (Z.ltb_spec limit (Z.of_nat (length jobs))); [done|].
  intros [Hnd Hall]%validate_claimed_rows_ok. split; [split; [rewrite Hj; cbn; lia|done]|]. split; [done|].
  apply Forall_lookup. intros k j Hk. destruct (Hall _ _ Hk) as (? & [? _]%validateClaimedJobLease_ok & _). done.
Qed.

(** A claimed execution batch is admitted exactly when it is non-empty,
    within the limit, free of duplicates, entirely of the requested
    capability, and every row carries the claim's token with a lease still
    running at the moment that row is checked. *)
Theorem validateClaimedExecutionBatch_spec clock jobs capability token limit :
  validateClaimedExecutionBatch clock jobs capability token limit = Ok tt ↔
  1 ≤ Z.of_nat (length jobs) ≤ limit
  ∧ NoDup (ID <$> jobs)
  ∧ ∀ k job, jobs !! k = Some job →
      job_capability job = capability ∧ LeaseTokenOf job = token
      ∧ ∃ r, ReservedAt job = Some r ∧ clock k < r.
Proof.
  unfold validateClaimedExecutionBatch.
  destruct jobs as [|j0 js] eqn:Hj; [cbn; split; [done|lia]|]. rewrite <- Hj.
  assert (1 ≤ Z.of_nat (length jobs)) as H1 by (rewrite Hj; cbn; lia).
  destruct (Z.ltb_spec limit (Z.of_nat (length jobs))); [split; [done|lia]|].
  rewrite validate_claimed_rows_ok. setoid_rewrite validateClaimedJobLease_ok.
  cbn. split.
  - intros [Hnd H']. split; [done|]. split; [done|]. intros k job Hk.
    destruct (H' k job Hk) as (? & [? ?] & _). done.
  - intros (_ & Hnd & H'). split; [done|]. intros k job Hk.
    destruct (H' k job Hk) as (? & ? & ?). split; [done|]. split; [done|]. set_solver.
Qed.

(** ** Payload limits *)

Definition payload_len (job : Job) : Z := Z.of_nat (String.length (Payload job)).
Fixpoint payload_sum (jobs : list Job) : Z :=
  match jobs with [] => 0 | job :: jobs => payload_len job + payload_sum jobs end.

Lemma payload_len_nonneg job : 0 ≤ payload_len job.
Proof. unfold payload_len. lia. Qed.

Lemma payload_sum_nonneg jobs : 0 ≤ payload_sum jobs.
Proof. induction jobs as [|j jobs IH]; cbn; [lia|]. pose proof (payload_len_nonneg j). lia. Qed.

Lemma payload_sum_app l1 l2 : payload_sum (l1 ++ l2) = payload_sum l1 + payload_sum l2.
Proof. induction l1 as [|j l1 IH]; cbn; [lia|]. rewrite IH. lia. Qed.

(** outbox/service_execution_batch.go, [selectBatchPayloadLimitWithUsed]. *)
Fixpoint selectBatchPayloadLimitWithUsed (jobs : list Job) (maxBytes used : Z) : list Job * list Job :=
  match jobs with
  | [] => ([], [])
  | job :: rest =>
      if maxBytes <? used + payload_len job then ([], jobs)
      else let '(selected, tail) := selectBatchPayloadLimitWithUsed rest maxBytes (used + payload_len job) in
           (job :: selected, tail)
  end.

Lemma select_fits jobs maxBytes used selected tail :
  selectBatchPayloadLimitWithUsed jobs maxBytes used = (selected, tail) →
  selected ++ tail = jobs ∧ (used ≤ maxBytes → used + payload_sum selected ≤ maxBytes).
Proof.
  revert used selected tail; induction jobs as [|job jobs IH]; cbn; intros used selected tail Hsel.
  { simplify_eq/=. split; [done|lia]. }
  destruct (Z.ltb_spec maxBytes (used + payload_len job)); [simplify_eq/=; split; [done|lia]|].
  destruct (selectBatchPayloadLimitWithUsed jobs maxBytes (used + payload_len job)) as [s t] eqn:E.
  simplify_eq/=. destruct (IH _ _ _ E) as (Happ & Hle). split; [by rewrite Happ|lia].
Qed.

(** The rows a fill step keeps are the longest prefix whose payload fits
    the bytes left, the rest are handed back for release, and none is lost,
    reordered or duplicated. *)
Theorem selectBatchPayloadLimit_longest jobs maxBytes used selected tail :
  selectBatchPayloadLimitWithUsed jobs maxBytes used = (selected, tail) →
  selected ++ tail = jobs
  ∧ (used ≤ maxBytes → used + payload_sum selected ≤ maxBytes)
  ∧ (∀ job rest, tail = job :: rest → maxBytes < used + payload_sum selected + payload_len job).
Proof.
  revert used selected tail; induction jobs as [|job jobs IH]; cbn; intros used selected tail H.
  { simplify_eq/=. split; [done|]. split; [lia|done]. }
  destruct (Z.ltb_spec maxBytes (used + payload_len job)).
  { simplify_eq/=. split; [done|]. split; [cbn; lia|]. intros ? ? [= <- <-]. cbn. lia. }
  destruct (selectBatchPayloadLimitWithUsed jobs maxBytes (used + payload_len job)) as [s t] eqn:E.
  simplify_eq/=. destruct (IH _ _ _ E) as (Happ & Hle & Hmax). split; [by rewrite Happ|].
  split; [intros; lia|]. intros j r Ht. specialize (Hmax j r Ht). lia.
Qed.

Definition job_with (id : JobID) (payload : string) : Job :=
  mkJob id "queue" "a" 1 payload 1 (Some 100) 9 None 10 5.

Lemma selectBatchPayloadLimit_longest_witness :
  selectBatchPayloadLimitWithUsed [job_with 1 "abc"; job_with 2 "def"] 5 1
    = ([job_with 1 "abc"], [job_with 2 "def"])
  ∧ 1 + payload_sum [job_with 1 "abc"] ≤ 5.
Proof.
  assert (selectBatchPayloadLimitWithUsed [job_with 1 "abc"; job_with 2 "def"] 5 1
    = ([job_with 1 "abc"], [job_with 2 "def"])) as H by (vm_compute; reflexivity).
  split; [exact H|].
  apply (selectBatchPayloadLimit_longest [job_with 1 "abc"; job_with 2 "def"] 5 1 _ _ H). lia.
Defined.

(** outbox/service_execution_batch.go, [validateBoundedExecutionBatchPayload]:
    [index] and [usedBytes] are the loop variables, [count] is [len(jobs)]. *)
Fixpoint check_bounded_payload (index : nat) (usedBytes : Z) (count : nat) (jobs : list Job) (maxBytes : Z) :
    result unit :=
  match jobs with
  | [] => Ok tt
  | job :: jobs =>
      if (index =? 0)%nat && (maxBytes <? payload_len job) then
        if (count =? 1)%nat then Ok tt
        else Err (wrapAs ErrUnsupportedClaim "bounded batch returned jobs after oversized first payload")
      else if maxBytes - usedBytes <? payload_len job
      then Err (wrapAs ErrUnsupportedClaim "bounded batch payload exceeds the limit")
      else check_bounded_payload (S index) (usedBytes + payload_len job) count jobs maxBytes
  end.

Definition validateBoundedExecutionBatchPayload (jobs : list Job) (maxBytes : Z) : result unit :=
  check_bounded_payload 0 0 (length jobs) jobs maxBytes.

Lemma check_bounded_payload_later index used count jobs maxBytes :
  index ≠ 0%nat →
  check_bounded_payload index used count jobs maxBytes = Ok tt ↔ jobs = [] ∨ used + payload_sum jobs ≤ maxBytes.
Proof.
  revert index used; induction jobs as [|job jobs IH]; cbn; intros index used Hi; [naive_solver|].
  pose proof (payload_len_nonneg job). pose proof (payload_sum_nonneg jobs).
  rewrite (proj2 (Nat.eqb_neq _ _) Hi). cbn.
  destruct (Z.ltb_spec (maxBytes - used) (payload_len job)).
  { split; [done|]. intros [?|?]; [done|lia]. }
  rewrite IH by lia. split.
  - intros [->|?]; right; cbn in *; lia.
  - intros [?|?]; [done|]. right. lia.
Qed.

Lemma bounded_payload_facts jobs maxBytes :
  validateBoundedExecutionBatchPayload jobs maxBytes = Ok tt → payload_sum jobs ≤ maxBytes ∨ (length jobs ≤ 1)%nat.
Proof.
  unfold validateBoundedExecutionBatchPayload. destruct jobs as [|job jobs]; [right; cbn; lia|].
  cbn [check_bounded_payload Nat.eqb andb length payload_sum].
  destruct (Z.ltb_spec maxBytes (payload_len job)).
  { destruct (Nat.eqb_spec (length jobs) 0); [right; lia|done]. }
  rewrite Z.sub_0_r. destruct (Z.ltb_spec maxBytes (payload_len job)); [lia|].
  rewrite check_bounded_payload_later by lia. intros [->|?]; [right; cbn; lia|left; lia].
Qed.

(** A bounded claim passes the payload check exactly when its payload
    fits the byte limit, or it is the single oversized first row the
    contract allows. *)
Theorem validateBounded_spec jobs maxBytes :
  0 ≤ maxBytes →
  validateBoundedExecutionBatchPayload jobs maxBytes = Ok tt ↔
  payload_sum jobs ≤ maxBytes ∨ ∃ job, jobs = [job] ∧ maxBytes < payload_len job.
Proof.
  intros Hm. unfold validateBoundedExecutionBatchPayload.
  destruct jobs as [|job jobs]; [cbn; naive_solver|].
  pose proof (payload_sum_nonneg jobs).
  cbn [check_bounded_payload Nat.eqb andb length payload_sum].
  destruct (Z.ltb_spec maxBytes (payload_len job)).
  { destruct (Nat.eqb_spec (length jobs) 0) as [Hl%nil_length_inv|].
    - subst. naive_solver.
    - split; [done|]. intros [?|(? & [= -> ->] & _)]; [lia|done]. }
  rewrite Z.sub_0_r. destruct (Z.ltb_spec maxBytes (payload_len job)); [lia|].
  rewrite check_bounded_payload_later by lia. split.
  - intros [->|?]; left; cbn; lia.
  - intros [?|(? & [= -> ->] & ?)]; [right; lia|lia].
Qed.

Lemma validateBounded_spec_witness :
  0 ≤ 2 ∧ validateBoundedExecutionBatchPayload [job_with 1 "abc"] 2 = Ok tt.
Proof.
  split; [lia|]. apply (validateBounded_spec [job_with 1 "abc"] 2); [lia|].
  right. exists (job_with 1 "abc"). split; [reflexivity|]. vm_compute. reflexivity.
Defined.

(** ** Queue order *)

(** The durable queue order of the repositories: [available_at],
    [created_at], [id]. *)
Definition queue_less : Job → Job → bool :=
  lex_by Z.eqb Z.ltb AvailableAt (lex_by Z.eqb Z.ltb CreatedAt (by_key N.ltb ID)).

#[global] Instance queue_less_strict : StrictOrderB queue_less.
Proof. apply _. Qed.

Lemma queue_less_tie a b : queue_less a b = false → queue_less b a = false → ID a = ID b.
Proof.
  intros H1 H2. destruct (lex_tie _ _ _ _ _ _ H1 H2) as (_ & H3 & H4).
  destruct (lex_tie _ _ _ _ _ _ H3 H4) as (_ & H5 & H6). by apply key_tri.
Qed.

Section uuid_text.
(** The canonical text of a UUID, [uuid.UUID.String] of google/uuid. *)
Context (uuid_String : JobID → string).

(** outbox/service_execution_batch.go, [sortExecutionBatchJobs]. *)
Definition execution_less : Job → Job → bool :=
  lex_by Z.eqb Z.ltb AvailableAt
    (lex_by Z.eqb Z.ltb CreatedAt (by_key String.ltb (λ j, uuid_String (ID j)))).

Definition sortExecutionBatchJobs (jobs : list Job) : list Job := sort_slice execution_less jobs.

#[global] Instance execution_less_strict : StrictOrderB execution_less.
Proof. apply _. Qed.

(** The handler receives its batch in durable queue order: sorting by
    the identifiers' text is sorting by [available_at, created_at, id],
    given that the text of a UUID orders like its bytes. *)
Theorem sortExecutionBatchJobs_queue_order jobs :
  (∀ a b, a ∈ jobs → b ∈ jobs →
     String.ltb (uuid_String (ID a)) (uuid_String (ID b)) = N.ltb (ID a) (ID b)) →
  NoDup (ID <$> jobs) →
  sortExecutionBatchJobs jobs = sort_slice queue_less jobs
  ∧ sortExecutionBatchJobs jobs ≡ₚ jobs
  ∧ StronglySorted (not_after queue_less) (sortExecutionBatchJobs jobs).
Proof.
  intros Htext Hnd.
  assert (∀ a b, a ∈ jobs → b ∈ jobs → execution_less a b = queue_less a b) as Hless.
  { intros a b Ha Hb. unfold execution_less, queue_less, lex_by, lex, by_key. by rewrite Htext. }
  assert (StronglySorted (not_after queue_less) (sortExecutionBatchJobs jobs)) as Hs.
  { pose proof (sort_slice_sorted execution_less jobs) as Hs. unfold sortExecutionBatchJobs.
    assert (∀ x, x ∈ sort_slice execution_less jobs → x ∈ jobs) as Hin
      by (intros x; apply sort_slice_elem).
    revert Hs Hin. generalize (sort_slice execution_less jobs).
    induction 1 as [|a l _ IH Ha]; intros Hin; constructor; [apply IH; set_solver|].
    rewrite Forall_forall in Ha |- *. intros b Hb. unfold not_after.
    rewrite <- Hless by set_solver. by apply Ha. }
  split; [|split; [apply sort_slice_perm|done]].
  apply sort_slice_unique; [apply _| |apply sort_slice_perm|done].
  intros a b Ha Hb H1 H2. pose proof (queue_less_tie _ _ H1 H2) as Hid.
  apply list_elem_of_lookup in Ha as [i Hi], Hb as [k Hk].
  assert (i = k) as ->; [|congruence].
  eapply NoDup_lookup; [exact Hnd| |]; rewrite list_lookup_fmap_Some; [exists a|exists b]; eauto.
Qed.
End uuid_text.

Lemma sortExecutionBatchJobs_queue_order_witness :
  let jobs := [job_with 12 "x"; job_with 3 "y"] in
  let text := λ id : JobID, digits 3 (Z.of_N id) in
  NoDup (ID <$> jobs) ∧ sortExecutionBatchJobs text jobs = [job_with 3 "y"; job_with 12 "x"].
Proof.
  intros jobs text.
  assert (NoDup (ID <$> jobs)) as Hnd by (apply (bool_decide_eq_true_1 _); vm_compute; reflexivity).
  split; [exact Hnd|].
  rewrite (proj1 (sortExecutionBatchJobs_queue_order text jobs
    ltac:(intros a b; unfold jobs; rewrite !elem_of_cons, !elem_of_nil;
          intros [->|[->|[]]] [->|[->|[]]]; vm_compute; reflexivity) Hnd)).
  vm_compute. reflexivity.
Defined.

(** outbox/service_execution_batch.go, [executionBatchFinalizationTimeout]. *)
Definition leaseFinalizationTimeout : Z := 5 * Second.
Definition batchDLQInsertAllowance : Z := 25 * Millisecond.
Definition batchFinalizationMargin : Z := Second.

Fixpoint dlq_timeout (timeout : Z) (outcomes : list BatchJobOutcome) : Z :=
  match outcomes with
  | [] => timeout
  | o :: outcomes =>
      dlq_timeout (if bool_decide (o_Kind o = BatchJobOutcomeDLQ)
                   then timeout + batchDLQInsertAllowance else timeout) outcomes
  end.

Definition executionBatchFinalizationTimeout (outcomes : list BatchJobOutcome) : Z :=
  dlq_timeout leaseFinalizationTimeout outcomes.
