(* ===== verification/Fingerprint.v ===== *)
(** * The content fingerprint of an idempotent job

    [jobFingerprint], identical in the PostgreSQL, MySQL and SQLite
    repositories: four fields, each prefixed by its decimal length and a
    colon, hashed with SHA-256.  The hash is a parameter; what is proved is
    that the hashed text determines the four fields. *)

From stdpp Require Import pretty.
From S2P Require Import Prelude GoTime Errors Models.
Open Scope Z_scope.

(** [strconv.Itoa] and [strconv.FormatInt(_, 10)]. *)
Definition Itoa (n : Z) : string := pretty n.

Definition len (s : string) : Z := Z.of_nat (String.length s).

(** One length-prefixed field. *)
Definition field (s : string) : string := Itoa (len s) +:+ ":" +:+ s.

Definition canonical (name : string) (schemaVersion : SchemaVersion) (payload : string)
    (availableAt : Z) : string :=
  let version := Itoa schemaVersion in
  let available := FormatRFC3339Nano availableAt in
  field name +:+ field version +:+ field payload +:+ field available.

Definition jobFingerprint (sha256hex : string → string) (name : string)
    (schemaVersion : SchemaVersion) (payload : string) (availableAt : Z) : string :=
  sha256hex (canonical name schemaVersion payload availableAt).

(** ** Length-prefixed fields can be read back *)

Definition is_digit (c : Ascii.ascii) : bool :=
  let n := Ascii.N_of_ascii c in (48 <=? n)%N && (n <=? 57)%N.

Abbreviation all_digits s := (all_bytes is_digit s = true).

Lemma pretty_N_char_digit x : is_digit (pretty_N_char x) = true.
Proof. unfold pretty_N_char. repeat case_match; reflexivity. Qed.

Lemma pretty_N_go_digits x s : all_digits s → all_digits (pretty_N_go x s).
Proof.
  revert s. induction (N.lt_wf_0 x) as [x _ IH]; intros s Hs.
  destruct (decide (x = 0)%N) as [->|Hx]; [by rewrite pretty_N_go_0|].
  rewrite pretty_N_go_step by lia. apply IH; [apply N.div_lt; lia|].
  cbn. by rewrite pretty_N_char_digit.
Qed.

Lemma Itoa_digits n : 0 ≤ n → all_digits (Itoa n).
Proof.
  intros Hn. unfold Itoa, pretty, pretty_Z. destruct n as [|p|p]; [by cbn| |lia].
  unfold pretty, pretty_positive, pretty, pretty_N. case_decide; [by cbn|].
  by apply pretty_N_go_digits.
Qed.

Lemma app_length_inj s1 s2 t1 t2 :
  String.length s1 = String.length s2 → s1 +:+ t1 = s2 +:+ t2 → s1 = s2 ∧ t1 = t2.
Proof.
  revert s2; induction s1 as [|c s1 IH]; intros [|c2 s2]; cbn; try done.
  intros [= Hl] [= -> Hs]. by destruct (IH _ Hl Hs) as [-> ->].
Qed.

Lemma string_app_assoc (s t u : string) : (s +:+ t) +:+ u = s +:+ t +:+ u.
Proof. induction s as [|c s IH]; [done|]. exact (f_equal (String c) IH). Qed.

Lemma field_inj a b s t : field a +:+ s = field b +:+ t → a = b ∧ s = t.
Proof.
  unfold field. rewrite !string_app_assoc. intros H.
  apply (cut_inj is_digit) in H as [Hl H]; [|done|apply Itoa_digits; unfold len; lia..].
  apply (inj pretty) in Hl. unfold len in Hl. apply app_length_inj in H; [done|lia].
Qed.

(** C27: the hashed text is an injective encoding of the job's content: two
    jobs with the same canonical text have the same name, schema version and
    payload, and the same availability text; so when the digest does not
    collide on two texts, equal fingerprints mean equal content. *)
Theorem canonical_injective (sha256hex : string → string) n1 v1 p1 a1 n2 v2 p2 a2 :
  (sha256hex (canonical n1 v1 p1 a1) = sha256hex (canonical n2 v2 p2 a2) →
   canonical n1 v1 p1 a1 = canonical n2 v2 p2 a2) →
  jobFingerprint sha256hex n1 v1 p1 a1 = jobFingerprint sha256hex n2 v2 p2 a2 →
  n1 = n2 ∧ v1 = v2 ∧ p1 = p2 ∧ FormatRFC3339Nano a1 = FormatRFC3339Nano a2.
Proof.
  intros Hcf Hfp. apply Hcf in Hfp. unfold canonical in Hfp.
  apply field_inj in Hfp as [-> Hfp]. apply field_inj in Hfp as [Hv Hfp].
  apply field_inj in Hfp as [-> Hfp].
  assert (field (FormatRFC3339Nano a1) +:+ "" = field (FormatRFC3339Nano a2) +:+ "") as Hlast
    by (by rewrite Hfp).
  apply field_inj in Hlast as [Ha _]. by apply (inj pretty) in Hv.
Qed.

Lemma canonical_injective_witness :
  jobFingerprint (λ s, s) "ab" 1 "c" 0 = jobFingerprint (λ s, s) "ab" 1 "c" 0 ∧ "ab" = "ab".
Proof.
  split; [reflexivity|].
  apply (canonical_injective (λ s, s) "ab" 1 "c" 0 "ab" 1 "c" 0); [intros H; exact H|reflexivity].
Defined.
