(* ===== verification/Sql.v ===== *)
(** * Tables and SQL statements

    The tables created by the migrations (jobs, jobs_failed,
    outbox_job_idempotency_keys, outbox_job_replays) as finite maps from
    their primary keys, and the statement forms the repositories issue over
    them: [INSERT] with its uniqueness constraints, [UPDATE ... WHERE],
    [DELETE ... WHERE] with their affected-row counts, and [SELECT ... WHERE
    ... ORDER BY ... LIMIT].  A comparison with a NULL [reserved_at] is not
    true, as in SQL.

    A timestamp argument reaches the database rounded to the resolution of
    its column; [ts] below is that rounding, one per backend. *)

From S2P Require Import Prelude GoTime Errors Models Batch.
Open Scope Z_scope.

Record IdemKey : Type := mkIdemKey {
  ik_job_id : JobID;
  ik_fingerprint : string;
  ik_created_at : Z
}.

Record ReplayRow : Type := mkReplayRow {
  rp_failed_job_id : JobID;
  rp_source_job_id : JobID;
  rp_job_id : JobID;
  rp_business_key : string;
  rp_queue : string;
  rp_name : string;
  rp_schema_version : SchemaVersion;
  rp_payload : string;
  rp_original_deduplication_key : string;
  rp_created_at : Z
}.

Record Db : Type := mkDb {
  jobs_t : gmap JobID Job;
  keys_t : gmap string IdemKey;
  failed_t : gmap JobID JobFailed;
  replays_t : gmap MessageID ReplayRow
}.

Definition empty_db : Db := mkDb ∅ ∅ ∅ ∅.
Definition set_jobs (t : gmap JobID Job) (d : Db) : Db :=
  mkDb t (keys_t d) (failed_t d) (replays_t d).
Definition set_keys (t : gmap string IdemKey) (d : Db) : Db :=
  mkDb (jobs_t d) t (failed_t d) (replays_t d).
Definition set_failed (t : gmap JobID JobFailed) (d : Db) : Db :=
  mkDb (jobs_t d) (keys_t d) t (replays_t d).
Definition set_replays (t : gmap MessageID ReplayRow) (d : Db) : Db :=
  mkDb (jobs_t d) (keys_t d) (failed_t d) t.

Lemma set_jobs_id d : set_jobs (jobs_t d) d = d.
Proof. by destruct d. Qed.

Lemma set_keys_id d : set_keys (keys_t d) d = d.
Proof. by destruct d. Qed.

(** The primary key of a stored row is its id. *)
Definition keyed (t : gmap JobID Job) : Prop := ∀ id j, t !! id = Some j → ID j = id.

(** ** Row predicates and row updates of the queue *)

(** [lease_token = tok and reserved_at > now]. *)
Definition live (tok : LeaseToken) (now : Z) (j : Job) : bool :=
  N.eqb (LeaseTokenOf j) tok && match ReservedAt j with Some r => now <? r | None => false end.

(** [available_at <= now and (reserved_at is null or reserved_at <= now)]. *)
Definition ready (now : Z) (j : Job) : bool :=
  (AvailableAt j <=? now) && match ReservedAt j with Some r => r <=? now | None => true end.

(** [name = c.name and schema_version = c.version]. *)
Definition row_is (j : Job) (c : JobCapability) : bool :=
  String.eqb (Name j) (cap_Name c) && (SchemaVersionOf j =? cap_SchemaVersion c).

Definition in_ids (ids : list JobID) (j : Job) : bool := bool_decide (ID j ∈ ids).

Definition reserve_row (until : Z) (tok : LeaseToken) (j : Job) : Job :=
  mkJob (ID j) (Queue j) (Name j) (SchemaVersionOf j) (Payload j) (Attempts j + 1)
        (Some until) tok (DeduplicationKey j) (AvailableAt j) (CreatedAt j).
Definition extend_row (until : Z) (j : Job) : Job :=
  mkJob (ID j) (Queue j) (Name j) (SchemaVersionOf j) (Payload j) (Attempts j)
        (Some until) (LeaseTokenOf j) (DeduplicationKey j) (AvailableAt j) (CreatedAt j).
Definition release_row (j : Job) : Job :=
  mkJob (ID j) (Queue j) (Name j) (SchemaVersionOf j) (Payload j) (Attempts j - 1)
        None LeaseTokenNil (DeduplicationKey j) (AvailableAt j) (CreatedAt j).
Definition reschedule_row (at_ : Z) (j : Job) : Job :=
  mkJob (ID j) (Queue j) (Name j) (SchemaVersionOf j) (Payload j) (Attempts j)
        None LeaseTokenNil (DeduplicationKey j) at_ (CreatedAt j).
Definition defer_row (at_ : Z) (j : Job) : Job :=
  mkJob (ID j) (Queue j) (Name j) (SchemaVersionOf j) (Payload j) (Attempts j - 1)
        None LeaseTokenNil (DeduplicationKey j) at_ (CreatedAt j).

Lemma live_spec tok now j :
  live tok now j = true ↔ LeaseTokenOf j = tok ∧ ∃ r, ReservedAt j = Some r ∧ now < r.
Proof.
  unfold live. rewrite andb_true_iff, N.eqb_eq.
  destruct (ReservedAt j) as [r|]; [rewrite Z.ltb_lt|]; naive_solver.
Qed.

Lemma ready_not_live tok now j : ready now j = true → live tok now j = false.
Proof.
  unfold ready, live. rewrite andb_true_iff. intros [_ H].
  destruct (ReservedAt j); [|by rewrite andb_false_r].
  apply andb_false_iff. right. apply Z.ltb_ge. by apply Z.leb_le.
Qed.

(** ** Statements *)

Section statements.
Context (p : Job → bool).

Definition affected (t : gmap JobID Job) : Z :=
  Z.of_nat (size (filter (λ kv, p kv.2 = true) t)).

Definition sql_update (f : Job → Job) (t : gmap JobID Job) : gmap JobID Job * Z :=
  ((λ j, if p j then f j else j) <$> t, affected t).

Definition sql_delete (t : gmap JobID Job) : gmap JobID Job * Z :=
  (filter (λ kv, p kv.2 = false) t, affected t).

(** The rows satisfying [p], in the order of [less]. *)
Definition rows_where (t : gmap JobID Job) : list Job :=
  filter (λ j, p j = true) (map_to_list t).*2.

Definition sql_select (less : Job → Job → bool) (limit : nat) (t : gmap JobID Job) : list Job :=
  take limit (sort_slice less (rows_where t)).

Lemma sql_update_lookup f t id :
  (sql_update f t).1 !! id = (λ j, if p j then f j else j) <$> t !! id.
Proof. apply lookup_fmap. Qed.

Lemma sql_delete_lookup t id :
  (sql_delete t).1 !! id = match t !! id with
                           | Some j => if p j then None else Some j
                           | None => None
                           end.
Proof.
  cbn. rewrite map_lookup_filter. destruct (t !! id) as [j|]; [|done]. cbn.
  destruct (p j) eqn:E; [by rewrite option_guard_False by done|by rewrite option_guard_True].
Qed.

Lemma rows_where_elem t j : keyed t → j ∈ rows_where t ↔ t !! ID j = Some j ∧ p j = true.
Proof.
  intros Hk. unfold rows_where. rewrite list_elem_of_filter, list_elem_of_fmap.
  split.
  - intros [Hp ([id j'] & -> & Hin%elem_of_map_to_list)]. cbn in *.
    by rewrite (Hk _ _ Hin).
  - intros [Hl Hp]. split; [done|]. exists (ID j, j). by rewrite elem_of_map_to_list.
Qed.

Lemma rows_where_NoDup t : keyed t → NoDup (ID <$> rows_where t).
Proof.
  intros Hk. unfold rows_where. pose proof (NoDup_fst_map_to_list t) as Hnd.
  assert ((map_to_list t).*1 = ID <$> (map_to_list t).*2) as Heq.
  { rewrite <- list_fmap_compose. apply list_fmap_ext. intros i [id j] Hi. cbn.
    symmetry. apply Hk, elem_of_map_to_list. by eapply list_elem_of_lookup_2. }
  rewrite Heq in Hnd. revert Hnd. generalize ((map_to_list t).*2) as l.
  induction l as [|j l IH]; [done|]. rewrite fmap_cons. intros [Hn Hnd]%NoDup_cons.
  rewrite filter_cons. case_decide; [|auto]. rewrite fmap_cons. apply NoDup_cons. split; [|auto].
  intros (j' & Hj & [_ Hin]%list_elem_of_filter)%list_elem_of_fmap.
  apply Hn. rewrite Hj. apply list_elem_of_fmap. eauto.
Qed.

(** Affected rows are the selected rows. *)
Lemma affected_rows t : keyed t → affected t = Z.of_nat (length (rows_where t)).
Proof.
  intros Hk. unfold affected. f_equal. rewrite <- length_map_to_list.
  assert ((map_to_list (filter (λ kv, p kv.2 = true) t)).*2 ≡ₚ rows_where t) as Hp.
  { apply NoDup_Permutation.
    - apply (NoDup_fmap_1 ID). rewrite <- list_fmap_compose.
      assert (ID ∘ snd <$> map_to_list (filter (λ kv, p kv.2 = true) t)
              = (map_to_list (filter (λ kv, p kv.2 = true) t)).*1) as ->;
        [|apply NoDup_fst_map_to_list].
      apply list_fmap_ext. intros i [id j] Hi. cbn. apply list_elem_of_lookup_2 in Hi.
      apply elem_of_map_to_list, map_lookup_filter_Some in Hi as [Hi _]. by apply Hk.
    - apply (NoDup_fmap_1 ID), rows_where_NoDup, Hk.
    - intros j. rewrite rows_where_elem by done. rewrite list_elem_of_fmap. split.
      + intros ([id j'] & -> & Hin). apply elem_of_map_to_list, map_lookup_filter_Some in Hin as [Hl Hp].
        cbn in *. by rewrite (Hk _ _ Hl).
      + intros [Hl Hp]. exists (ID j, j). split; [done|].
        apply elem_of_map_to_list, map_lookup_filter_Some. done. }
  by rewrite <- Hp, length_fmap.
Qed.
End statements.

#[global] Arguments sql_update : simpl never.
#[global] Arguments sql_delete : simpl never.

(** ** The head of an ordered selection *)

Section top.
Context (less : Job → Job → bool) `{!StrictOrderB less}.

Definition top (n : nat) (l : list Job) : list Job := take n (sort_slice less l).

Lemma top_elem n l x : x ∈ top n l → x ∈ l.
Proof. intros H%(subseteq_take n). by apply sort_slice_elem in H. Qed.

Lemma top_length n l : length (top n l) = (n `min` length l)%nat.
Proof. unfold top. by rewrite length_take, sort_slice_length. Qed.

Lemma top_sorted n l : StronglySorted (not_after less) (top n l).
Proof.
  pose proof (sort_slice_sorted less l) as H. unfold top.
  rewrite <- (take_drop n (sort_slice less l)) in H.
  by apply StronglySorted_app_1_l in H.
Qed.

Lemma top_submseteq n l : top n l ⊆+ l.
Proof. unfold top. rewrite <- (sort_slice_perm less l) at 2. apply submseteq_take. Qed.

Lemma top_NoDup n l : NoDup l → NoDup (top n l).
Proof.
  intros Hl. rewrite <- (sort_slice_perm less l) in Hl. by apply NoDup_take.
Qed.

(** What is left out comes after everything taken, and only when the limit
    is reached. *)
Lemma top_rest n l x :
  x ∈ l → x ∉ top n l → length (top n l) = n ∧ ∀ y, y ∈ top n l → not_after less y x.
Proof.
  intros Hx Hn. unfold top in *.
  rewrite <- (sort_slice_elem less), <- (take_drop n (sort_slice less l)), elem_of_app in Hx.
  destruct Hx as [Hx|Hx]; [done|]. split.
  - rewrite length_take. destruct (decide (n ≤ length (sort_slice less l))%nat); [lia|].
    rewrite drop_ge in Hx by lia. set_solver.
  - intros y Hy. pose proof (sort_slice_sorted less l) as H.
    rewrite <- (take_drop n (sort_slice less l)) in H.
    by eapply StronglySorted_app_1_elem_of in H.
Qed.

End top.

(** The ordered selection of a [SELECT ... WHERE ... ORDER BY ... LIMIT]. *)
Lemma sql_select_top p less n t : sql_select p less n t = top less n (rows_where p t).
Proof. reflexivity. Qed.

(** ** Inserting a queue row *)

Definition unique_violation (c : string) : err :=
  EText ("duplicate key value violates unique constraint " +:+ c +:+ " (SQLSTATE 23505)").
Definition check_violation (c : string) : err :=
  EText ("new row violates check constraint " +:+ c +:+ " (SQLSTATE 23514)").

(** Whether some row holds a deduplication key. *)
Definition key_in_use (k : string) (t : gmap JobID Job) : bool :=
  bool_decide (map_Exists (λ _ j, DeduplicationKey j = Some k) t).

(** [INSERT INTO jobs]: the primary key, the unique index on
    [deduplication_key] and the check on [schema_version]. *)
Definition insert_job (j : Job) (d : Db) : result unit * Db :=
  if bool_decide (is_Some (jobs_t d !! ID j)) then (Err (unique_violation "jobs_pkey"), d)
  else if match DeduplicationKey j with Some k => key_in_use k (jobs_t d) | None => false end
  then (Err (unique_violation "jobs_deduplication_key_unique"), d)
  else if SchemaVersionOf j <=? 0 then (Err (check_violation "jobs_schema_version_positive"), d)
  else (Ok tt, set_jobs (<[ID j := j]> (jobs_t d)) d).

(** [INSERT INTO jobs_failed]: the primary key and the unique [job_id]. *)
Definition insert_failed (f : JobFailed) (d : Db) : result unit * Db :=
  if bool_decide (is_Some (failed_t d !! f_ID f)) then (Err (unique_violation "jobs_failed_pkey"), d)
  else if bool_decide (map_Exists (λ _ g, f_JobID g = f_JobID f) (failed_t d))
  then (Err (unique_violation "jobs_failed_uuid_unique"), d)
  else if f_SchemaVersion f <=? 0 then (Err (check_violation "jobs_failed_schema_version_positive"), d)
  else (Ok tt, set_failed (<[f_ID f := f]> (failed_t d)) d).

Lemma key_in_use_spec k t :
  key_in_use k t = true ↔ ∃ id j, t !! id = Some j ∧ DeduplicationKey j = Some k.
Proof. unfold key_in_use. by rewrite bool_decide_eq_true. Qed.

(** ** The idempotency-key registry *)

(** Whether some key was registered for a job; [job_id] is unique. *)
Definition registered (id : JobID) (t : gmap string IdemKey) : bool :=
  bool_decide (map_Exists (λ _ r, ik_job_id r = id) t).

(** Inserting a key that is not registered. *)
Definition insert_key (k : string) (r : IdemKey) (t : gmap string IdemKey) :
    result (gmap string IdemKey) :=
  if registered (ik_job_id r) t then Err (unique_violation "outbox_job_idempotency_keys_job_id_key")
  else Ok (<[k := r]> t).

Lemma registered_false id t : registered id t = false ↔ ∀ k r, t !! k = Some r → ik_job_id r ≠ id.
Proof.
  unfold registered. rewrite bool_decide_eq_false. unfold map_Exists. naive_solver.
Qed.

Lemma key_in_use_false k t :
  key_in_use k t = false ↔ ∀ id j, t !! id = Some j → DeduplicationKey j ≠ Some k.
Proof. unfold key_in_use. rewrite bool_decide_eq_false. unfold map_Exists. naive_solver. Qed.

(** The keys of live jobs are registered to them, and every registered job
    has one key. *)
Record registry_ok (d : Db) : Prop := {
  reg_active : ∀ id j k, jobs_t d !! id = Some j → DeduplicationKey j = Some k →
    ∃ r, keys_t d !! k = Some r ∧ ik_job_id r = id;
  reg_inj : ∀ k1 k2 r1 r2, keys_t d !! k1 = Some r1 → keys_t d !! k2 = Some r2 →
    ik_job_id r1 = ik_job_id r2 → k1 = k2
}.

(** An id drawn at random occurs nowhere. *)
Definition fresh_id (id : JobID) (d : Db) : Prop :=
  id ≠ JobIDNil ∧ jobs_t d !! id = None ∧ registered id (keys_t d) = false.

(** ** Applying batch outcomes to the rows they own *)

Definition outcome_of (outcomes : list BatchJobOutcome) (id : JobID) : option BatchJobOutcome :=
  find (λ o, N.eqb (o_JobID o) id) outcomes.

(** What one owned row becomes under its outcome: [None] deletes it. *)
Definition outcome_row (ts : Z → Z) (o : BatchJobOutcome) (j : Job) : option Job :=
  match o_Kind o with
  | BatchJobOutcomeSuccess | BatchJobOutcomeDLQ => None
  | BatchJobOutcomeRetry => Some (reschedule_row (ts (o_AvailableAt o)) j)
  | BatchJobOutcomeDefer => Some (defer_row (ts (o_AvailableAt o)) j)
  end.

Lemma outcome_of_Some outcomes id o :
  outcome_of outcomes id = Some o → o ∈ outcomes ∧ o_JobID o = id.
Proof.
  unfold outcome_of. intros [Hin Heq]%find_some.
  rewrite <- list_elem_of_In in Hin. by rewrite N.eqb_eq in Heq.
Qed.
