(* ===== verification/Repo.v ===== *)
(** * The repository contract

    The operations of [outbox.JobsRepository] (outbox/contract.go) as
    functions on the database, and the laws every backend owes the service:
    the comment on that interface and docs/contracts.md, as equations on the
    tables.  The service components are verified against the laws; the
    backend files prove that their statements satisfy them.

    An operation receives what the environment supplies: the clock readings
    and fresh identifiers the code takes, and for a claim the set of rows
    other transactions hold locked ([SKIP LOCKED]). *)

From S2P Require Import Prelude GoTime Errors Models Batch Sql.
Open Scope Z_scope.

Definition Op (A : Type) : Type := Db → result A * Db.

Record JobsRepository : Type := {
  CreateJobVersioned : JobID → Z → string → SchemaVersion → string → Z → Op JobID;
  FindAndReserveJobsForCapabilities :
    gset JobID → Z → Z → LeaseToken → list JobCapability → Z → Op (list Job);
  ExtendJobLeases : list JobID → LeaseToken → Z → Z → Op Z;
  ReleaseUnstartedJobsWithLease : list JobID → LeaseToken → Z → Op Z;
  DeleteJobWithLease : JobID → LeaseToken → Z → Op Z;
  RescheduleJobWithLease : JobID → LeaseToken → Z → Z → Op Z;
  DeferJobWithLease : option (JobID → LeaseToken → Z → Z → Op Z);
  MaxReservationBatchSizeOf : Z;
  (** whether claims pass over rows locked by other transactions *)
  SkipLocked : bool
}.

(** [BatchJobsRepository] with the optional [BoundedBatchJobsRepository]. *)
Record BatchJobsRepository : Type := {
  FindAndReserveJobsForCapability :
    gset JobID → Z → Z → LeaseToken → JobCapability → Z → Op (list Job);
  FindAndReserveJobsForCapabilityBounded :
    option (gset JobID → Z → Z → LeaseToken → JobCapability → BatchClaimLimits → Op (list Job));
  ApplyBatchJobOutcomes : LeaseToken → Z → list BatchJobOutcome → Op Z;
  MaxExecutionBatchSize : Z;
  BatchSkipLocked : bool
}.

Definition skipped (skip : bool) (locked : gset JobID) : gset JobID := if skip then locked else ∅.

(** [UniqueJobsRepository], [UniqueBatchJobsRepository] and
    [FanoutMaintenanceRepository]; the ids are the fresh ones the call draws. *)
Record UniqueJobsRepository : Type := {
  CreateJobVersionedUniqueResult :
    JobID → Z → string → string → SchemaVersion → string → Z → Op UniquePutResult;
  CreateJobVersionedUniqueBatch :
    (nat → JobID) → Z → list UniqueBatchPut → Op (list UniquePutResult);
  PruneJobIdempotencyKeys : gset string → Z → Z → Op Z
}.

(** A run that fails leaves the database as it was: each operation is one
    statement or one transaction. *)
Definition atomic {A} (op : Op A) : Prop := ∀ d e d', op d = (Err e, d') → d' = d.

(** The row predicates of the fenced statements. *)
Definition owned (ids : list JobID) (tok : LeaseToken) (now : Z) (j : Job) : bool :=
  in_ids ids j && live tok now j.
Definition owned_counted (ids : list JobID) (tok : LeaseToken) (now : Z) (j : Job) : bool :=
  owned ids tok now j && (0 <? Attempts j).
Definition claimable (now : Z) (caps : list JobCapability) (j : Job) : bool :=
  ready now j && existsb (row_is j) caps.

(** The effect of an [UPDATE] or [DELETE] with the count it reports. *)
Definition updates (p : Job → bool) (f : Job → Job) (d : Db) (n : Z) (d' : Db) : Prop :=
  d' = set_jobs (sql_update p f (jobs_t d)).1 d ∧ n = affected p (jobs_t d).
(** An [UPDATE] that may leave a row as it was: some drivers report the rows
    it found, others the rows it changed. *)
Definition updates_found (p : Job → bool) (f : Job → Job) (d : Db) (n : Z) (d' : Db) : Prop :=
  d' = set_jobs (sql_update p f (jobs_t d)).1 d
  ∧ affected (λ j, p j && bool_decide (f j ≠ j)) (jobs_t d) ≤ n ≤ affected p (jobs_t d).
Definition deletes (p : Job → bool) (d : Db) (n : Z) (d' : Db) : Prop :=
  d' = set_jobs (sql_delete p (jobs_t d)).1 d ∧ n = affected p (jobs_t d).

(** What every successful claim guarantees. *)
Record claim_base (ts : Z → Z) (locked : gset JobID) (now until : Z) (tok : LeaseToken)
    (caps : list JobCapability) (limit : Z) (d : Db) (js : list Job) (d' : Db) : Prop := {
  cp_token : tok ≠ LeaseTokenNil;
  cp_count : 1 ≤ Z.of_nat (length js) ≤ limit;
  cp_distinct : NoDup (ID <$> js);
  (** every claimed row was ready, of a requested capability and unlocked;
      it carries the claim's token and one more attempt *)
  cp_rows : ∀ j, j ∈ js → ∃ r u, jobs_t d !! ID j = Some r ∧ claimable (ts now) caps r = true
    ∧ ID j ∉ locked ∧ ts u = ts until ∧ j = reserve_row u tok r;
  cp_order : StronglySorted (not_after queue_less) js;
  (** the stored rows: the claimed ones reserved, all others untouched *)
  cp_db : d' = set_jobs (sql_update (in_ids (ID <$> js)) (reserve_row (ts until) tok) (jobs_t d)).1 d
}.

(** Nothing ready was passed over for something later in the queue. *)
Definition claim_prefix (ts : Z → Z) (locked : gset JobID) (now : Z)
    (caps : list JobCapability) (limit : Z) (d : Db) (js : list Job) : Prop :=
  NoDup caps → ∀ r, jobs_t d !! ID r = Some r → claimable (ts now) caps r = true →
    ID r ∉ locked → ID r ∉ ID <$> js →
    Z.of_nat (length js) = limit ∧ ∀ j, j ∈ js → not_after queue_less j r.

(** The rows a claim may take. *)
Definition unlocked_ready (locked : gset JobID) (now : Z) (j : Job) : bool :=
  ready now j && negb (bool_decide (ID j ∈ locked)).

(** [BoundedBatchJobsRepository]: the longest prefix within the byte limit,
    or the first row alone when it is larger than the limit. *)
Definition bounded_prefix (maxBytes : Z) (l : list Job) : list Job :=
  match l with
  | [] => []
  | j :: rest =>
      if maxBytes <? payload_len j then [j]
      else j :: (selectBatchPayloadLimitWithUsed rest maxBytes (payload_len j)).1
  end.

Definition bounded_claim (ts : Z → Z) (locked : gset JobID) (now : Z) (cap : JobCapability)
    (limits : BatchClaimLimits) (d : Db) : list Job :=
  bounded_prefix (lim_MaxBytes limits)
    (top queue_less (Z.to_nat (lim_MaxMessages limits))
       (rows_where (λ j, unlocked_ready locked (ts now) j && row_is j cap) (jobs_t d))).

(** An outcome the repository accepts. *)
Definition outcome_ok (o : BatchJobOutcome) : bool :=
  negb (JobIDType.IsZero (o_JobID o)) &&
  match o_Kind o with
  | BatchJobOutcomeSuccess => true
  | BatchJobOutcomeRetry | BatchJobOutcomeDefer => negb (IsZero (o_AvailableAt o))
  | BatchJobOutcomeDLQ => negb (String.eqb (o_Reason o) "")
  end.

Definition outcomes_ok (maximum : Z) (tok : LeaseToken) (os : list BatchJobOutcome) : Prop :=
  tok ≠ LeaseTokenNil ∧ 1 ≤ Z.of_nat (length os) ≤ maximum ∧ NoDup (o_JobID <$> os)
  ∧ Forall (λ o, outcome_ok o = true) os.

(** The row an outcome may settle: live under the token and, to be put back,
    with the attempt its claim counted. *)
Definition settleable (tok : LeaseToken) (now : Z) (o : BatchJobOutcome) (j : Job) : bool :=
  live tok now j &&
  match o_Kind o with
  | BatchJobOutcomeSuccess | BatchJobOutcomeDLQ => true
  | BatchJobOutcomeRetry | BatchJobOutcomeDefer => 0 <? Attempts j
  end.

Definition all_settleable (tok : LeaseToken) (now : Z) (os : list BatchJobOutcome) (t : gmap JobID Job) : Prop :=
  ∀ o, o ∈ os → ∃ j, t !! o_JobID o = Some j ∧ settleable tok now o j = true.

(** Every outcome applied to its row. *)
Definition settle (ts : Z → Z) (os : list BatchJobOutcome) (t : gmap JobID Job) : gmap JobID Job :=
  map_imap (λ id j, match outcome_of os id with Some o => outcome_row ts o j | None => Some j end) t.

Definition request_ok (R : JobsRepository) (ids : list JobID) (tok : LeaseToken) : Prop :=
  tok ≠ LeaseTokenNil ∧ 1 ≤ Z.of_nat (length ids) ≤ MaxReservationBatchSizeOf R
  ∧ JobIDNil ∉ ids.

(** The rounding of a Go time to the resolution of a timestamp column. *)
Class Rounding (ts : Z → Z) : Prop := {
  ts_mono a b : a ≤ b → ts a ≤ ts b;
  ts_idem a : ts (ts a) = ts a;
  ts_close a : a - Millisecond < ts a < a + Millisecond
}.

(** What a backend promises.  [ts] is the timestamp rounding of its columns. *)
Class LeaseRepository (ts : Z → Z) (R : JobsRepository) : Prop := {
  lease_rounding :: Rounding ts;
  max_positive : 1 ≤ MaxReservationBatchSizeOf R ≤ MaxReservationBatchSize;

  create_atomic id now name v payload at_ : atomic (CreateJobVersioned R id now name v payload at_);
  create_ok id now name v payload at_ d id' d' :
    CreateJobVersioned R id now name v payload at_ d = (Ok id', d') →
    id' = id ∧ 0 < v ∧ jobs_t d !! id = None ∧
    ∃ q, d' = set_jobs (<[id := mkJob id q name v payload 0 None LeaseTokenNil None (ts at_) (ts now)]>
                          (jobs_t d)) d;

  claim_atomic locked now until tok caps limit :
    atomic (FindAndReserveJobsForCapabilities R locked now until tok caps limit);
  claim_ok locked now until tok caps limit d js d' :
    keyed (jobs_t d) →
    FindAndReserveJobsForCapabilities R locked now until tok caps limit d = (Ok js, d') →
    claim_base ts (skipped (SkipLocked R) locked) now until tok caps limit d js d'
    ∧ claim_prefix ts (skipped (SkipLocked R) locked) now caps limit d js;

  extend_atomic ids tok now until : atomic (ExtendJobLeases R ids tok now until);
  extend_ok ids tok now until d n d' :
    ExtendJobLeases R ids tok now until d = (Ok n, d') →
    request_ok R ids tok ∧ updates_found (owned ids tok (ts now)) (extend_row (ts until)) d n d';
  extend_total ids tok now until d :
    request_ok R ids tok → ∃ n d', ExtendJobLeases R ids tok now until d = (Ok n, d');

  release_atomic ids tok now : atomic (ReleaseUnstartedJobsWithLease R ids tok now);
  release_ok ids tok now d n d' :
    ReleaseUnstartedJobsWithLease R ids tok now d = (Ok n, d') →
    request_ok R ids tok ∧ updates (owned_counted ids tok (ts now)) release_row d n d';
  release_total ids tok now d :
    request_ok R ids tok → ∃ n d', ReleaseUnstartedJobsWithLease R ids tok now d = (Ok n, d');

  delete_atomic id tok now : atomic (DeleteJobWithLease R id tok now);
  delete_ok id tok now d n d' :
    DeleteJobWithLease R id tok now d = (Ok n, d') →
    request_ok R [id] tok ∧ deletes (owned [id] tok (ts now)) d n d';
  delete_total id tok now d :
    request_ok R [id] tok → ∃ n d', DeleteJobWithLease R id tok now d = (Ok n, d');

  reschedule_atomic id tok now at_ : atomic (RescheduleJobWithLease R id tok now at_);
  reschedule_ok id tok now at_ d n d' :
    RescheduleJobWithLease R id tok now at_ d = (Ok n, d') →
    request_ok R [id] tok ∧ updates (owned [id] tok (ts now)) (reschedule_row (ts at_)) d n d';
  reschedule_total id tok now at_ d :
    request_ok R [id] tok → ∃ n d', RescheduleJobWithLease R id tok now at_ d = (Ok n, d');

  defer_atomic dj id tok now at_ : DeferJobWithLease R = Some dj → atomic (dj id tok now at_);
  (** a defer that reports a row compensated exactly that row *)
  defer_ok dj id tok now at_ d n d' : DeferJobWithLease R = Some dj → keyed (jobs_t d) →
    dj id tok now at_ d = (Ok n, d') →
    request_ok R [id] tok ∧ updates (owned_counted [id] tok (ts now)) (defer_row (ts at_)) d n d'
}.

(** What a true-batch backend promises on top ([MaxExecutionBatchSize] is its
    limit on one invocation). *)
Class BatchRepository (ts : Z → Z) (B : BatchJobsRepository) : Prop := {
  max_execution_positive : 1 ≤ MaxExecutionBatchSize B ≤ MaxReservationBatchSize;

  capability_atomic locked now until tok cap limit :
    atomic (FindAndReserveJobsForCapability B locked now until tok cap limit);
  capability_ok locked now until tok cap limit d js d' :
    keyed (jobs_t d) →
    FindAndReserveJobsForCapability B locked now until tok cap limit d = (Ok js, d') →
    claim_base ts (skipped (BatchSkipLocked B) locked) now until tok [cap] limit d js d'
    ∧ claim_prefix ts (skipped (BatchSkipLocked B) locked) now [cap] limit d js;

  bounded_atomic f locked now until tok cap limits :
    FindAndReserveJobsForCapabilityBounded B = Some f →
    atomic (f locked now until tok cap limits);
  bounded_ok f locked now until tok cap limits d js d' :
    FindAndReserveJobsForCapabilityBounded B = Some f → keyed (jobs_t d) →
    f locked now until tok cap limits d = (Ok js, d') →
    claim_base ts (skipped (BatchSkipLocked B) locked) now until tok [cap] (lim_MaxMessages limits) d js d'
    ∧ 1 ≤ lim_MaxBytes limits
    ∧ js = reserve_row (ts until) tok
             <$> bounded_claim ts (skipped (BatchSkipLocked B) locked) now cap limits d;

  apply_atomic tok now os : atomic (ApplyBatchJobOutcomes B tok now os);
  (** a call that succeeds settled every row it was given *)
  apply_ok tok now os d n d' : keyed (jobs_t d) →
    ApplyBatchJobOutcomes B tok now os d = (Ok n, d') →
    outcomes_ok (MaxExecutionBatchSize B) tok os ∧ n = Z.of_nat (length os)
    ∧ all_settleable tok (ts now) os (jobs_t d)
    ∧ d' = set_jobs (settle ts os (jobs_t d)) d;
  apply_total tok now os d : keyed (jobs_t d) →
    outcomes_ok (MaxExecutionBatchSize B) tok os → all_settleable tok (ts now) os (jobs_t d) →
    ∃ n d', ApplyBatchJobOutcomes B tok now os d = (Ok n, d');
  (** one row lost loses the whole call, and nothing is written *)
  apply_lost tok now os d : keyed (jobs_t d) →
    outcomes_ok (MaxExecutionBatchSize B) tok os → ¬ all_settleable tok (ts now) os (jobs_t d) →
    ∃ e, ApplyBatchJobOutcomes B tok now os d = (Err e, d) ∧ errors_Is e ErrLeaseLost = true
}.

(** ** Counting owned rows *)

Lemma affected_pos p t : keyed t →
  affected p t ≠ 0 ↔ ∃ id j, t !! id = Some j ∧ p j = true.
Proof.
  intros Hk. rewrite affected_rows by done. split.
  - intros H. destruct (rows_where p t) as [|j l] eqn:E; [done|].
    assert (j ∈ rows_where p t) as Hin by (rewrite E; set_solver).
    apply rows_where_elem in Hin as [Hl Hp]; [eauto|done].
  - intros (id & j & Hl & Hp) H0. rewrite <- (Hk _ _ Hl) in Hl.
    assert (j ∈ rows_where p t) as Hin by (by apply rows_where_elem).
    destruct (rows_where p t); [set_solver|cbn in H0; lia].
Qed.

(** A statement that reports as many rows as it was given ids touched every
    one of them. *)
Lemma affected_all p ids t : keyed t →
  (∀ j, p j = true → ID j ∈ ids) → Z.of_nat (length ids) ≤ affected p t →
  NoDup ids ∧ ∀ id, id ∈ ids → ∃ j, t !! id = Some j ∧ p j = true.
Proof.
  intros Hk Hp Hn. rewrite affected_rows in Hn by done.
  assert (ID <$> rows_where p t ≡ₚ ids) as Hperm.
  { apply submseteq_length_Permutation; [|rewrite length_fmap; lia].
    apply NoDup_submseteq; [by apply rows_where_NoDup|].
    intros id (j & -> & Hj)%list_elem_of_fmap. apply rows_where_elem in Hj as [_ Hj]; auto. }
  split; [rewrite <- Hperm; by apply rows_where_NoDup|].
  intros id Hid. rewrite <- Hperm in Hid. apply list_elem_of_fmap in Hid as (j & -> & Hj).
  apply rows_where_elem in Hj as [??]; eauto.
Qed.

Lemma affected_mono p q t : (∀ j, p j = true → q j = true) → affected p t ≤ affected q t.
Proof.
  intros Hpq. unfold affected. apply inj_le, map_subseteq_size, map_filter_subseteq_ext. intros id j _. apply Hpq.
Qed.

Lemma updates_are_found p f d n d' : updates p f d n d' → updates_found p f d n d'.
Proof. intros [-> ->]. split; [done|]. split; [|done]. apply affected_mono. by intros j []%andb_true_iff. Qed.

Lemma updates_written p f d n d' : updates_found p f d n d' → updates p f d (affected p (jobs_t d)) d'.
Proof. by intros [-> _]. Qed.

Lemma affected_singleton p id t : keyed t →
  (∀ j, p j = true → ID j = id) →
  affected p t = match t !! id with Some j => if p j then 1 else 0 | None => 0 end.
Proof.
  intros Hk Hp. destruct (Z.eq_dec (affected p t) 0) as [H0|H0].
  - rewrite H0. destruct (t !! id) as [j|] eqn:E; [|done]. destruct (p j) eqn:Ep; [|done].
    exfalso. apply (proj2 (affected_pos p t Hk)); eauto.
  - pose proof (proj1 (affected_pos p t Hk) H0) as (id' & j & Hl & Hj).
    assert (id' = id) as -> by (rewrite <- (Hk _ _ Hl); auto). rewrite Hl, Hj.
    rewrite affected_rows in H0 |- * by done.
    assert (ID <$> rows_where p t ⊆+ [id]) as Hs.
    { apply NoDup_submseteq; [by apply rows_where_NoDup|].
      intros x (r & -> & Hr)%list_elem_of_fmap. apply rows_where_elem in Hr as [_ Hr]; [|done].
      rewrite (Hp _ Hr). set_solver. }
    apply submseteq_length in Hs. rewrite length_fmap in Hs. cbn in Hs. lia.
Qed.

Lemma in_ids_spec ids j : in_ids ids j = true ↔ ID j ∈ ids.
Proof. unfold in_ids. apply bool_decide_eq_true. Qed.

Lemma owned_in ids tok now j : owned ids tok now j = true → ID j ∈ ids.
Proof. unfold owned. by intros [H%in_ids_spec _]%andb_true_iff. Qed.

Lemma owned_live ids tok now j : owned ids tok now j = true → live tok now j = true.
Proof. unfold owned. by intros [_ H]%andb_true_iff. Qed.

Lemma owned_counted_owned ids tok now j :
  owned_counted ids tok now j = true → owned ids tok now j = true.
Proof. unfold owned_counted. by intros [H _]%andb_true_iff. Qed.

(** Statements keep rows under their primary keys. *)
Lemma keyed_update p f t : (∀ j, ID (f j) = ID j) → keyed t → keyed (sql_update p f t).1.
Proof.
  intros Hf Hk id j. rewrite sql_update_lookup, fmap_Some. intros (r & Hr & ->).
  destruct (p r); rewrite ?Hf; by apply Hk.
Qed.

Lemma keyed_delete p t : keyed t → keyed (sql_delete p t).1.
Proof.
  intros Hk id j. rewrite sql_delete_lookup. destruct (t !! id) eqn:E; [|done].
  destruct (p _); [done|]. intros [= ->]. by apply Hk.
Qed.

Create HintDb outbox discriminated.
#[export] Hint Resolve keyed_update keyed_delete owned_in owned_live owned_counted_owned : outbox.

(** ** Operations shared by the backends *)

Definition fail {A} (e : err) : Op A := λ d, (Err e, d).

(** A validation in front of an operation. *)
Definition guarded {A} (v : result unit) (o : Op A) : Op A := λ d,
  match v with Ok _ => o d | Err e => (Err e, d) end.

(** One fenced [UPDATE] or [DELETE] reporting its affected rows. *)
Definition exec_update (p : Job → bool) (f : Job → Job) : Op Z := λ d,
  (Ok (affected p (jobs_t d)), set_jobs (sql_update p f (jobs_t d)).1 d).
Definition exec_delete (p : Job → bool) : Op Z := λ d,
  (Ok (affected p (jobs_t d)), set_jobs (sql_delete p (jobs_t d)).1 d).

Lemma guarded_atomic {A} v (o : Op A) : atomic o → atomic (guarded v o).
Proof. intros Ho d e d'. unfold guarded. destruct v; [apply Ho|by intros [= _ ->]]. Qed.

Lemma fail_atomic {A} e : atomic (fail (A:=A) e).
Proof. by intros d e' d' [= _ ->]. Qed.

Lemma exec_update_atomic p f : atomic (exec_update p f).
Proof. by intros d e d'. Qed.

Lemma exec_delete_atomic p : atomic (exec_delete p).
Proof. by intros d e d'. Qed.

Lemma guarded_ok {A} v (o : Op A) d a d' :
  guarded v o d = (Ok a, d') ↔ v = Ok tt ∧ o d = (Ok a, d').
Proof. unfold guarded. destruct v as [[]|]; naive_solver. Qed.

#[export] Hint Resolve guarded_atomic fail_atomic exec_update_atomic exec_delete_atomic : outbox.

(** Row predicates that agree select, count, update and delete the same rows. *)
Section ext.
Context (p q : Job → bool) (Hpq : ∀ j, p j = q j).

Lemma affected_ext t : affected p t = affected q t.
Proof. unfold affected. do 2 f_equal. apply map_filter_ext. intros. by rewrite Hpq. Qed.

Lemma sql_update_ext f t : (sql_update p f t).1 = (sql_update q f t).1.
Proof. apply map_fmap_ext. intros. by rewrite Hpq. Qed.

Lemma sql_delete_ext t : (sql_delete p t).1 = (sql_delete q t).1.
Proof. apply map_filter_ext. intros. by rewrite Hpq. Qed.

Lemma updates_ext f d n d' : updates p f d n d' → updates q f d n d'.
Proof. unfold updates. by rewrite affected_ext, sql_update_ext. Qed.

Lemma deletes_ext d n d' : deletes p d n d' → deletes q d n d'.
Proof. unfold deletes. by rewrite affected_ext, sql_delete_ext. Qed.
End ext.

Lemma in_ids_single id j : in_ids [id] j = N.eqb (ID j) id.
Proof.
  apply eq_true_iff_eq. rewrite in_ids_spec, N.eqb_eq. set_solver.
Qed.

(** ** Reserving a selection *)

Lemma keyed_rows_anti p t : keyed t →
  ∀ a b, a ∈ rows_where p t → b ∈ rows_where p t → ID a = ID b → a = b.
Proof.
  intros Hk a b [Ha _]%rows_where_elem [Hb _]%rows_where_elem Heq; [|done..].
  rewrite Heq, Hb in Ha. naive_solver.
Qed.

Lemma remove_dups_NoDup `{EqDecision A} (l : list A) : NoDup l → remove_dups l ≡ₚ l.
Proof.
  intros Hl. apply NoDup_Permutation; [apply NoDup_remove_dups|done|].
  intros x. apply elem_of_remove_dups.
Qed.

Section reserve.
Context (until : Z) (tok : LeaseToken).

Lemma reserve_row_id j : ID (reserve_row until tok j) = ID j.
Proof. done. Qed.

Lemma queue_less_reserve u v a b :
  queue_less (reserve_row u tok a) (reserve_row v tok b) = queue_less a b.
Proof. done. Qed.

(** The selected rows, read back after the update, are the selection
    reserved: each once, whatever the multiplicity in the selection. *)
Lemma reserved_rows t c : keyed t → (∀ j, j ∈ c → t !! ID j = Some j) →
  rows_where (in_ids (ID <$> c)) (sql_update (in_ids (ID <$> c)) (reserve_row until tok) t).1
  ≡ₚ reserve_row until tok <$> remove_dups c.
Proof.
  intros Hk Hc. set (t' := (sql_update _ _ _).1).
  assert (keyed t') as Hk' by (by apply keyed_update).
  assert (∀ j, j ∈ c → t' !! ID j = Some (reserve_row until tok j)) as Ht'.
  { intros j Hj. unfold t'. rewrite sql_update_lookup, (Hc j Hj). cbn.
    rewrite (proj2 (in_ids_spec _ _)); [done|]. by apply list_elem_of_fmap_2. }
  apply NoDup_Permutation.
  - apply (NoDup_fmap_1 ID). by apply rows_where_NoDup.
  - apply (NoDup_fmap_1 ID). rewrite <- list_fmap_compose.
    apply NoDup_fmap_2_strong; [|apply NoDup_remove_dups].
    intros a b Ha Hb Heq. rewrite elem_of_remove_dups in Ha, Hb. cbn in Heq.
    pose proof (Hc _ Ha) as H1. rewrite Heq, (Hc _ Hb) in H1. naive_solver.
  - intros j. rewrite rows_where_elem, in_ids_spec, !list_elem_of_fmap by done.
    setoid_rewrite elem_of_remove_dups. split.
    + intros (Hl & r & Hr & Hin). exists r. split; [|done].
      rewrite Hr, (Ht' r Hin) in Hl. naive_solver.
    + intros (r & -> & Hin). cbn. split; [by apply Ht'|eauto].
Qed.

Lemma StronglySorted_reserve c : StronglySorted (not_after queue_less) c →
  StronglySorted (not_after queue_less) (reserve_row until tok <$> c).
Proof.
  induction 1 as [|j c _ IH Hj]; [constructor|]. rewrite fmap_cons. constructor; [done|].
  by apply Forall_fmap.
Qed.

(** A selection without repetitions, in queue order, is read back as it is. *)
Lemma reserved_rows_sorted t c : keyed t → (∀ j, j ∈ c → t !! ID j = Some j) →
  NoDup c → StronglySorted (not_after queue_less) c →
  sort_slice queue_less
    (rows_where (in_ids (ID <$> c)) (sql_update (in_ids (ID <$> c)) (reserve_row until tok) t).1)
  = reserve_row until tok <$> c.
Proof.
  intros Hk Hc Hnd Hs. symmetry. apply sort_slice_unique; [apply _| | |].
  - intros a b Ha Hb H1 H2. apply (keyed_rows_anti _ _ (keyed_update _ _ _ reserve_row_id Hk) a b Ha Hb).
    by apply queue_less_tie.
  - rewrite reserved_rows by done. by rewrite remove_dups_NoDup.
  - by apply StronglySorted_reserve.
Qed.
End reserve.

(** ** Establishing the claim laws *)

Section claim.
Context (ts : Z → Z) (locked : gset JobID) (now until u : Z) (tok : LeaseToken)
        (caps : list JobCapability) (limit : Z) (d : Db) (c js : list Job).
Context (Hk : keyed (jobs_t d)) (Hu : ts u = ts until).
Context (Hc : ∀ j, j ∈ c →
           jobs_t d !! ID j = Some j ∧ claimable (ts now) caps j = true ∧ ID j ∉ locked).
Context (Hjs : js ≡ₚ reserve_row u tok <$> remove_dups c).

Lemma claim_ids j : ID j ∈ ID <$> js ↔ ID j ∈ ID <$> c.
Proof.
  rewrite Hjs, <- list_fmap_compose, !list_elem_of_fmap.
  by setoid_rewrite elem_of_remove_dups.
Qed.

Lemma claim_base_intro :
  tok ≠ LeaseTokenNil → c ≠ [] → Z.of_nat (length c) ≤ limit →
  StronglySorted (not_after queue_less) js →
  claim_base ts locked now until tok caps limit d js
    (set_jobs (sql_update (in_ids (ID <$> c)) (reserve_row (ts until) tok) (jobs_t d)).1 d).
Proof.
  intros Htok Hne Hlen Hs. split.
  - done.
  - rewrite Hjs, length_fmap.
    assert (length (remove_dups c) ≤ length c)%nat.
    { apply submseteq_length, NoDup_submseteq; [apply NoDup_remove_dups|].
      intros x. by rewrite elem_of_remove_dups. }
    destruct c as [|j0 c0]; [done|].
    assert (j0 ∈ remove_dups (j0 :: c0)) as Hin by (rewrite elem_of_remove_dups; set_solver).
    destruct (remove_dups (j0 :: c0)); [set_solver|cbn in *; lia].
  - rewrite Hjs, <- list_fmap_compose. apply NoDup_fmap_2_strong; [|apply NoDup_remove_dups].
    intros a b Ha Hb Heq. rewrite elem_of_remove_dups in Ha, Hb. cbn in Heq.
    destruct (Hc _ Ha) as [H1 _], (Hc _ Hb) as [H2 _]. rewrite Heq, H2 in H1. naive_solver.
  - intros j. rewrite Hjs. intros (r & -> & Hr)%list_elem_of_fmap.
    rewrite elem_of_remove_dups in Hr. destruct (Hc _ Hr) as (H1 & H2 & H3). exists r, u. done.
  - done.
  - f_equal. apply sql_update_ext. intros j.
    apply eq_true_iff_eq. by rewrite !in_ids_spec, claim_ids.
Qed.

(** When the selection is the head of the ready rows in queue order, nothing
    was passed over. *)
Lemma claim_prefix_intro rows :
  c = top queue_less (Z.to_nat limit) rows → NoDup rows → 0 ≤ limit →
  (∀ r, jobs_t d !! ID r = Some r → claimable (ts now) caps r = true → ID r ∉ locked → r ∈ rows) →
  ∀ r, jobs_t d !! ID r = Some r → claimable (ts now) caps r = true → ID r ∉ locked →
    ID r ∉ ID <$> js →
    Z.of_nat (length js) = limit ∧ ∀ j, j ∈ js → not_after queue_less j r.
Proof.
  intros Hcr Hnd Hl Hrows r Hr Hcl Hnl Hni. rewrite claim_ids in Hni.
  assert (r ∉ c) as Hrc by (intros Hin; by apply Hni, list_elem_of_fmap_2).
  specialize (Hrows _ Hr Hcl Hnl). rewrite Hcr in Hrc.
  destruct (top_rest _ _ _ _ Hrows Hrc) as [Hlen Hord]. rewrite <- Hcr in Hlen, Hord. split.
  - rewrite Hjs, length_fmap, remove_dups_NoDup; [lia|].
    rewrite Hcr. by apply top_NoDup.
  - intros j. rewrite Hjs. intros (x & -> & Hx)%list_elem_of_fmap.
    rewrite elem_of_remove_dups in Hx. exact (Hord _ Hx).
Qed.
End claim.

(** ** Validating and applying outcomes *)

(** The loop over the outcomes of a call; [seen] holds the ids before. *)
Fixpoint check_outcomes (duplicate : string) (outcomes : list BatchJobOutcome) (seen : gset JobID) :
    result unit :=
  match outcomes with
  | [] => Ok tt
  | outcome :: rest =>
      _ ← res_map_err (wrapf "outcome") (JobIDType.Validate (o_JobID outcome));
      _ ← fail_if (bool_decide (o_JobID outcome ∈ seen)) (EText duplicate);
      _ ← match o_Kind outcome with
          | BatchJobOutcomeSuccess => Ok tt
          | BatchJobOutcomeRetry | BatchJobOutcomeDefer =>
              fail_if (IsZero (o_AvailableAt outcome)) (EText "outcome has an empty availability time")
          | BatchJobOutcomeDLQ =>
              fail_if (String.eqb (o_Reason outcome) "") (EText "outcome has an invalid DLQ record")
          end;
      check_outcomes duplicate rest ({[o_JobID outcome]} ∪ seen)
  end.

Definition finalized_partly : err := wrapAs ErrLeaseLost "finalized some of the batch jobs".

Definition kind_in (kinds : list BatchJobOutcomeKind) (o : BatchJobOutcome) : bool :=
  bool_decide (o_Kind o ∈ kinds).

Lemma check_outcomes_ok dup os seen :
  check_outcomes dup os seen = Ok tt ↔
  Forall (λ o, outcome_ok o = true) os ∧ NoDup (o_JobID <$> os) ∧ ∀ o, o ∈ os → o_JobID o ∉ seen.
Proof.
  revert seen. induction os as [|o os IH]; intros seen; cbn [check_outcomes].
  { split; [|done]. intros _. split_and!; [constructor|apply NoDup_nil_2|set_solver]. }
  rewrite !res_seq_ok, IH, res_map_err_ok, fail_if_ok, bool_decide_eq_false, fmap_cons, NoDup_cons,
    Forall_cons.
  unfold JobIDType.Validate, outcome_ok. rewrite fail_if_ok, list_elem_of_fmap.
  assert (∀ x, x ∈ os → o_JobID x ∉ ({[o_JobID o]} ∪ seen : gset JobID)
            ↔ o_JobID x ≠ o_JobID o ∧ o_JobID x ∉ seen) as Hs by set_solver.
  split.
  - intros (Hz & Hn & Hk & HF & Hnd & Hd). split_and!; try done.
    + rewrite Hz. destruct (o_Kind o); rewrite ?fail_if_ok in Hk; by rewrite ?Hk.
    + intros (x & Hx & Hin). by destruct (Hd _ Hin); set_solver.
    + set_solver.
  - intros [[Ho HF] [[Hn Hnd] Hd]]. apply andb_true_iff in Ho as [Hz Hk].
    split_and!; try done; [by apply negb_true_iff in Hz|set_solver| |].
    + destruct (o_Kind o); rewrite ?fail_if_ok; by rewrite ?negb_true_iff in Hk.
    + intros x Hx. apply not_elem_of_union. split; [|set_solver].
      intros Heq%elem_of_singleton. apply Hn. eauto.
Qed.

(** Disjoint predicates count separately. *)
Lemma affected_disjoint p q t : keyed t → (∀ j, p j = true → q j = false) →
  affected p t + affected q t = affected (λ j, p j || q j) t.
Proof.
  intros Hk Hd. rewrite !affected_rows by done. unfold rows_where.
  induction (map_to_list t).*2 as [|j l IH]; [done|].
  rewrite !filter_cons. specialize (Hd j).
  destruct (p j), (q j); repeat case_decide; cbn -[filter] in *; try lia; naive_solver.
Qed.

Lemma affected_all_iff p ids t : keyed t → NoDup ids → (∀ j, p j = true → ID j ∈ ids) →
  affected p t = Z.of_nat (length ids) ↔ ∀ id, id ∈ ids → ∃ j, t !! id = Some j ∧ p j = true.
Proof.
  intros Hk Hnd Hp. split; [intros Hn; by apply (affected_all p ids t Hk Hp), Z.eq_le_incl|].
  intros H. rewrite affected_rows by done. f_equal. rewrite <- (length_fmap ID).
  apply Permutation_length, NoDup_Permutation; [by apply rows_where_NoDup|done|].
  intros id. rewrite list_elem_of_fmap. split.
  - intros (j & -> & [_ Hj]%rows_where_elem); auto.
  - intros (j & Hl & Hj)%H. exists j. pose proof (Hk _ _ Hl) as <-. split; [done|].
    by apply rows_where_elem.
Qed.

Section settle.
Context (ts : Z → Z) (tok : LeaseToken) (now : Z) (os : list BatchJobOutcome).

Definition settles (j : Job) : bool :=
  match outcome_of os (ID j) with Some o => settleable tok now o j | None => false end.

Lemma outcome_of_elem o : NoDup (o_JobID <$> os) → o ∈ os → outcome_of os (o_JobID o) = Some o.
Proof.
  intros Hnd Hin. unfold outcome_of. revert Hnd Hin. induction os as [|x l IH]; [set_solver|].
  rewrite fmap_cons, NoDup_cons. intros [Hn Hnd] [->|Hin]%elem_of_cons; cbn; [by rewrite N.eqb_refl|].
  destruct (N.eqb_spec (o_JobID x) (o_JobID o)) as [E|_]; [|by apply IH].
  exfalso. apply Hn. rewrite E. by apply list_elem_of_fmap_2.
Qed.

Lemma settles_in j : settles j = true → ID j ∈ o_JobID <$> os.
Proof.
  unfold settles. destruct (outcome_of os (ID j)) as [o|] eqn:E; [|done]. intros _.
  apply outcome_of_Some in E as [Hin <-]. by apply list_elem_of_fmap_2.
Qed.

Lemma settles_count t : keyed t → NoDup (o_JobID <$> os) →
  affected settles t = Z.of_nat (length os) ↔ all_settleable tok now os t.
Proof.
  intros Hk Hnd. rewrite <- (length_fmap o_JobID os), affected_all_iff by auto using settles_in.
  unfold all_settleable, settles. split.
  - intros H o Ho. destruct (H (o_JobID o)) as (j & Hl & Hj); [by apply list_elem_of_fmap_2|].
    rewrite (Hk _ _ Hl), (outcome_of_elem o) in Hj by done. eauto.
  - intros H id (o & -> & Ho)%list_elem_of_fmap. destruct (H o Ho) as (j & Hl & Hj).
    exists j. by rewrite (Hk _ _ Hl), (outcome_of_elem o).
Qed.

Lemma settle_lookup t id :
  settle ts os t !! id =
    t !! id ≫= λ j, match outcome_of os id with Some o => outcome_row ts o j | None => Some j end.
Proof. apply map_lookup_imap. Qed.

Lemma outcome_row_id o j j' : outcome_row ts o j = Some j' → ID j' = ID j.
Proof. unfold outcome_row. destruct (o_Kind o); naive_solver. Qed.

Lemma keyed_settle t : keyed t → keyed (settle ts os t).
Proof.
  intros Hk id j'. rewrite settle_lookup. intros (j & Hl & Hj)%bind_Some.
  destruct (outcome_of os id); [apply outcome_row_id in Hj as ->|injection Hj as <-]; by apply Hk.
Qed.
End settle.
#[export] Hint Resolve keyed_settle : outbox.

(** The statements of a backend settle a batch of outcomes: [del] deletes,
    [upd] puts back with [f].  Only the agreement of the three with
    [outcome_row] is left to the backend. *)
Section settling.
Context (ts : Z → Z) (tok : LeaseToken) (now : Z) (os : list BatchJobOutcome).
Context (del upd : Job → bool) (f : Job → Job) (t : gmap JobID Job).
Context (Hk : keyed t) (Hnd : NoDup (o_JobID <$> os)).
Context (Hsplit : ∀ j, del j || upd j = settles tok now os j).
Context (Hdisj : ∀ j, del j = true → upd j = false).

Lemma settling_count :
  affected del t + affected upd t = Z.of_nat (length os) ↔ all_settleable tok now os t.
Proof.
  rewrite affected_disjoint by done. rewrite (affected_ext _ _ Hsplit). by apply settles_count.
Qed.

(** Deleting first does not change what is then updated. *)
Lemma affected_after_delete : affected upd (sql_delete del t).1 = affected upd t.
Proof.
  unfold affected, sql_delete. cbn. do 2 f_equal. rewrite map_filter_filter_l; [done|].
  intros id j _ Hu. cbn in *. destruct (del j) eqn:E; [|done]. by rewrite Hdisj in Hu.
Qed.

Context (Hrow : ∀ o j, outcome_of os (ID j) = Some o → settleable tok now o j = true →
           outcome_row ts o j = if del j then None else Some (f j)).

Lemma settling_lookup id : all_settleable tok now os t →
  settle ts os t !! id = t !! id ≫= λ j, if del j then None else if upd j then Some (f j) else Some j.
Proof.
  intros Hall. rewrite settle_lookup. destruct (t !! id) as [j|] eqn:Hl; cbn; [|done].
  pose proof (Hk _ _ Hl) as <-. specialize (Hsplit j). unfold settles in Hsplit.
  destruct (outcome_of os (ID j)) as [o|] eqn:Ho.
  - pose proof (outcome_of_Some _ _ _ Ho) as [Hin Hid].
    destruct (Hall o Hin) as (j' & Hl' & Hs). rewrite Hid, Hl in Hl'. injection Hl' as <-.
    rewrite (Hrow o j Ho Hs). rewrite Hs in Hsplit. destruct (del j), (upd j); done.
  - by apply orb_false_iff in Hsplit as [-> ->].
Qed.

Lemma settling_simultaneous : all_settleable tok now os t →
  omap (λ j, if del j then None else if upd j then Some (f j) else Some j) t = settle ts os t.
Proof. intros Hall. apply map_eq. intros id. by rewrite lookup_omap, settling_lookup. Qed.

Lemma settling_sequential : all_settleable tok now os t →
  (sql_update upd f (sql_delete del t).1).1 = settle ts os t.
Proof.
  intros Hall. apply map_eq. intros id. rewrite settling_lookup, sql_update_lookup, sql_delete_lookup; [|done].
  destruct (t !! id) as [j|]; cbn; [|done]. destruct (del j); cbn; [done|]. by destruct (upd j).
Qed.
End settling.

(** ** A defer is a batch of one *)

Definition defer_outcome (id : JobID) (at_ : Z) : BatchJobOutcome :=
  {| o_JobID := id; o_Kind := BatchJobOutcomeDefer; o_AvailableAt := at_; o_Reason := "" |}.

Lemma outcomes_ok_single m tok o :
  outcomes_ok m tok [o] → o_JobID o ≠ JobIDNil ∧ tok ≠ LeaseTokenNil.
Proof.
  intros (Htok & _ & _ & [[Ho _]%andb_true_iff _]%Forall_cons). split; [|done].
  by apply negb_true_iff, N.eqb_neq in Ho.
Qed.

Lemma defer_as_outcome ts id tok now at_ d n d' : keyed (jobs_t d) →
  n = Z.of_nat (length [defer_outcome id at_]) →
  all_settleable tok now [defer_outcome id at_] (jobs_t d) →
  d' = set_jobs (settle ts [defer_outcome id at_] (jobs_t d)) d →
  updates (owned_counted [id] tok now) (defer_row (ts at_)) d n d'.
Proof.
  intros Hk Hn Hall ->. set (o := defer_outcome id at_) in *.
  assert (∀ j, settles tok now [o] j = owned_counted [id] tok now j) as Hext.
  { intros j. unfold settles, owned_counted, owned, outcome_of, settleable. cbn.
    rewrite in_ids_single, (N.eqb_sym (ID j)). by destruct (N.eqb id (ID j)). }
  split.
  - f_equal. apply map_eq. intros k. rewrite settle_lookup, sql_update_lookup.
    destruct (jobs_t d !! k) as [j|] eqn:Hl; cbn; [|done]. pose proof (Hk _ _ Hl) as <-.
    rewrite <- Hext. unfold settles, outcome_of. cbn. destruct (N.eqb_spec id (ID j)) as [->|]; [|done].
    destruct (Hall o ltac:(set_solver)) as (j' & Hl' & Hs). cbn in Hl'. rewrite Hl in Hl'.
    injection Hl' as <-. by rewrite Hs.
  - rewrite <- (affected_ext _ _ Hext), Hn. symmetry. apply settles_count; [done| |done].
    apply NoDup_singleton.
Qed.

(** ** Ready rows and bounded prefixes *)

Lemma unlocked_ready_spec locked now j :
  unlocked_ready locked now j = true ↔ ready now j = true ∧ ID j ∉ locked.
Proof. unfold unlocked_ready. by rewrite andb_true_iff, negb_true_iff, bool_decide_eq_false. Qed.

Lemma claimable_single now cap j : claimable now [cap] j = ready now j && row_is j cap.
Proof. unfold claimable. cbn. by rewrite orb_false_r. Qed.

Lemma rows_where_distinct p t : keyed t → NoDup (rows_where p t).
Proof. intros Hk. by apply (NoDup_fmap_1 ID), rows_where_NoDup. Qed.

Lemma select_prefix l maxBytes used : (selectBatchPayloadLimitWithUsed l maxBytes used).1 `prefix_of` l.
Proof.
  revert used. induction l as [|j l IH]; intros used; cbn; [done|].
  case_match; [apply prefix_nil|]. specialize (IH (used + payload_len j)).
  destruct (selectBatchPayloadLimitWithUsed _ _ _). by apply prefix_cons.
Qed.

Lemma bounded_prefix_prefix maxBytes l : bounded_prefix maxBytes l `prefix_of` l.
Proof.
  destruct l as [|j l]; cbn; [done|]. case_match.
  - apply prefix_cons, prefix_nil.
  - apply prefix_cons, select_prefix.
Qed.

Lemma bounded_prefix_nil maxBytes l : bounded_prefix maxBytes l = [] ↔ l = [].
Proof. destruct l; cbn; [done|]. by case_match. Qed.

Section bounded.
Context (ts : Z → Z) (locked : gset JobID) (now : Z) (cap : JobCapability)
        (limits : BatchClaimLimits) (d : Db) (Hk : keyed (jobs_t d)).
Let c := bounded_claim ts locked now cap limits d.

Lemma bounded_claim_prefix :
  c `prefix_of` top queue_less (Z.to_nat (lim_MaxMessages limits))
     (rows_where (λ j, unlocked_ready locked (ts now) j && row_is j cap) (jobs_t d)).
Proof. apply bounded_prefix_prefix. Qed.

Lemma bounded_claim_elem j : j ∈ c →
  jobs_t d !! ID j = Some j ∧ claimable (ts now) [cap] j = true ∧ ID j ∉ locked.
Proof.
  intros Hj. pose proof bounded_claim_prefix as [k Hp].
  assert (j ∈ c ++ k) as Hin by set_solver. rewrite <- Hp in Hin.
  apply top_elem, rows_where_elem in Hin as [Hl [Hu Hr]%andb_true_iff]; [|done].
  apply unlocked_ready_spec in Hu as [Hready Hn]. by rewrite claimable_single, Hready, Hr.
Qed.

Lemma bounded_claim_NoDup : NoDup c.
Proof.
  pose proof bounded_claim_prefix as [k Hp].
  assert (NoDup (c ++ k)) as Hnd by (rewrite <- Hp; by apply top_NoDup, rows_where_distinct).
  by apply NoDup_app in Hnd as [? _].
Qed.

Lemma bounded_claim_sorted : StronglySorted (not_after queue_less) c.
Proof.
  pose proof bounded_claim_prefix as [k Hp].
  assert (StronglySorted (not_after queue_less) (c ++ k)) as Hs by (rewrite <- Hp; apply top_sorted, _).
  by apply StronglySorted_app_1_l in Hs.
Qed.

Lemma bounded_claim_length : (length c ≤ Z.to_nat (lim_MaxMessages limits))%nat.
Proof.
  pose proof (prefix_length _ _ bounded_claim_prefix) as Hl. rewrite top_length in Hl. lia.
Qed.
End bounded.

(** ** Idempotent staging *)

(** The row a unique put queues. *)
Definition queued (ts : Z → Z) (id : JobID) (now : Z) (key name : string) (v : SchemaVersion)
    (payload : string) (availableAt : Z) : Job :=
  mkJob id "queue" name v payload 0 None LeaseTokenNil (Some key) (ts availableAt) (ts now).

(** The loop over the items of a unique batch; [seen] holds the keys before. *)
Fixpoint check_puts (items : list UniqueBatchPut) (seen : gset string) : result unit :=
  match items with
  | [] => Ok tt
  | item :: rest =>
      _ ← fail_if (String.eqb (p_DeduplicationKey item) "") (EText "item has an empty deduplication key");
      _ ← fail_if (bool_decide (p_DeduplicationKey item ∈ seen)) (EText "duplicate deduplication key");
      _ ← res_map_err (wrapf "item")
            (Validate {| cap_Name := p_Name item; cap_SchemaVersion := p_SchemaVersion item |});
      check_puts rest ({[p_DeduplicationKey item]} ∪ seen)
  end.

Definition put_ok (item : UniqueBatchPut) : Prop :=
  p_DeduplicationKey item ≠ "" ∧ 0 < p_SchemaVersion item.

Definition puts_ok (items : list UniqueBatchPut) : Prop :=
  1 ≤ Z.of_nat (length items) ≤ MaxReservationBatchSize
  ∧ Forall put_ok items ∧ NoDup (p_DeduplicationKey <$> items).

Lemma check_puts_ok items seen :
  check_puts items seen = Ok tt ↔
  Forall put_ok items ∧ NoDup (p_DeduplicationKey <$> items)
  ∧ ∀ i, i ∈ items → p_DeduplicationKey i ∉ seen.
Proof.
  revert seen. induction items as [|i items IH]; intros seen; cbn [check_puts].
  { split; [|done]. intros _. split_and!; [constructor|apply NoDup_nil_2|set_solver]. }
  rewrite !res_seq_ok, IH, res_map_err_ok, capability_valid, !fail_if_ok, bool_decide_eq_false,
    String.eqb_neq, fmap_cons, NoDup_cons, Forall_cons. cbn. unfold put_ok.
  split.
  - intros (Hk & Hn & Hv & HF & Hnd & Hd). split_and!; try done; [|set_solver].
    intros (x & Hx & Hin)%list_elem_of_fmap. apply (Hd _ Hin). set_solver.
  - intros [[[Hk Hv] HF] [[Hn Hnd] Hd]]. split_and!; try done; [set_solver|].
    intros x Hx. apply not_elem_of_union. split; [|set_solver].
    intros Heq%elem_of_singleton. apply Hn. rewrite <- Heq. by apply list_elem_of_fmap_2.
Qed.

(** What a unique put registers: the key and the job, together. *)
Definition staged (ts : Z → Z) (fp : string) (id : JobID) (now : Z) (key name : string)
    (v : SchemaVersion) (payload : string) (at_ : Z) (d : Db) : Db :=
  set_keys (<[key := mkIdemKey id fp (ts now)]> (keys_t d))
    (set_jobs (<[id := queued ts id now key name v payload at_]> (jobs_t d)) d).

(** The puts of a batch one after the other; [None] when one of them fails. *)
Fixpoint put_all (U : UniqueJobsRepository) (newID : nat → JobID) (now : Z) (index : nat)
    (items : list UniqueBatchPut) (d : Db) : option (list UniquePutResult * Db) :=
  match items with
  | [] => Some ([], d)
  | item :: rest =>
      match CreateJobVersionedUniqueResult U (newID index) now (p_DeduplicationKey item) (p_Name item)
              (p_SchemaVersion item) (p_Payload item) (p_AvailableAt item) d with
      | (Ok r, d1) =>
          match put_all U newID now (S index) rest d1 with
          | Some (rs, d2) => Some (r :: rs, d2)
          | None => None
          end
      | (Err _, _) => None
      end
  end.

(** What an idempotent producer relies on; [fp] is the content fingerprint. *)
Class UniqueRepository (ts : Z → Z) (fp : string → SchemaVersion → string → Z → string)
    (U : UniqueJobsRepository) : Prop := {
  unique_atomic id now key name v payload at_ :
    atomic (CreateJobVersionedUniqueResult U id now key name v payload at_);
  (** a new key stages one job under the drawn id *)
  unique_new id now key name v payload at_ d :
    key ≠ "" → 0 < v → registry_ok d → fresh_id id d → keys_t d !! key = None →
    CreateJobVersionedUniqueResult U id now key name v payload at_ d
    = (Ok {| u_JobID := id; u_Created := true |},
       staged ts (fp name v payload at_) id now key name v payload at_ d);
  (** a registered key with the same content answers the first job again *)
  unique_known id now key name v payload at_ d r :
    key ≠ "" → 0 < v → fresh_id id d → keys_t d !! key = Some r →
    ik_fingerprint r = fp name v payload at_ →
    CreateJobVersionedUniqueResult U id now key name v payload at_ d
    = (Ok {| u_JobID := ik_job_id r; u_Created := false |}, d);
  (** and with other content is a conflict that changes nothing *)
  unique_conflict id now key name v payload at_ d r :
    key ≠ "" → 0 < v → keys_t d !! key = Some r → ik_fingerprint r ≠ fp name v payload at_ →
    ∃ e, CreateJobVersionedUniqueResult U id now key name v payload at_ d = (Err e, d)
         ∧ errors_Is e ErrIdempotencyConflict = true;
  unique_invalid id now key name v payload at_ d : key = "" ∨ v ≤ 0 →
    ∃ e, CreateJobVersionedUniqueResult U id now key name v payload at_ d = (Err e, d);
  (** a batch is the sequence of its puts, or nothing *)
  unique_batch newID now items d : puts_ok items → registry_ok d →
    (∀ i j, newID i = newID j → i = j) → (∀ i, fresh_id (newID i) d) →
    match put_all U newID now 0 items d with
    | Some (rs, d') => CreateJobVersionedUniqueBatch U newID now items d = (Ok rs, d')
    | None => ∃ e, CreateJobVersionedUniqueBatch U newID now items d = (Err e, d)
                   ∧ errors_Is e ErrIdempotencyConflict = true
    end;
  prune_atomic locked before limit : atomic (PruneJobIdempotencyKeys U locked before limit);
  (** pruning forgets at most [limit] old keys, none of a live job *)
  prune_ok locked before limit d n d' :
    PruneJobIdempotencyKeys U locked before limit d = (Ok n, d') →
    ∃ doomed : gset string, d' = set_keys (filter (λ kr, kr.1 ∉ doomed) (keys_t d)) d
    ∧ n = Z.of_nat (size doomed) ∧ n ≤ limit
    ∧ ∀ k, k ∈ doomed → ∃ r, keys_t d !! k = Some r ∧ ik_created_at r < ts before
                              ∧ key_in_use k (jobs_t d) = false
}.

Lemma staged_registry_ok ts fp id now key name v payload at_ d :
  registry_ok d → fresh_id id d → keys_t d !! key = None →
  registry_ok (staged ts fp id now key name v payload at_ d).
Proof.
  intros [Hact Hinj] (_ & Hj & Hreg) Hk. rewrite registered_false in Hreg. split; cbn.
  - intros id' j k. rewrite lookup_insert_Some. intros [[<- <-]|[Hne Hl]] Hd.
    + cbn in Hd. injection Hd as ->. exists (mkIdemKey id fp (ts now)). by rewrite lookup_insert_eq.
    + destruct (Hact _ _ _ Hl Hd) as (r & Hr & Hid). exists r. split; [|done].
      rewrite lookup_insert_ne; [done|]. intros ->. by rewrite Hk in Hr.
  - intros k1 k2 r1 r2. rewrite !lookup_insert_Some.
    intros [[<- <-]|[Hn1 H1]] [[<- <-]|[Hn2 H2]] Heq; cbn in *; eauto;
      exfalso; eapply Hreg; eauto.
Qed.

Lemma staged_fresh ts fp id now key name v payload at_ d x :
  fresh_id x d → x ≠ id → fresh_id x (staged ts fp id now key name v payload at_ d).
Proof.
  intros (Hz & Hj & Hr) Hne. unfold fresh_id, staged. cbn. split_and!; [done|by rewrite lookup_insert_ne|].
  rewrite registered_false in *. intros k r. rewrite lookup_insert_Some. naive_solver.
Qed.

(** ** Laws shared by the backends that check and execute *)

Lemma guarded_pass {A} v (o : Op A) d : v = Ok tt → guarded v o d = o d.
Proof. by intros ->. Qed.

Lemma owned_single id tok now j : N.eqb (ID j) id && live tok now j = owned [id] tok now j.
Proof. unfold owned. by rewrite in_ids_single. Qed.

Lemma request_single R id tok : 1 ≤ MaxReservationBatchSizeOf R →
  id ≠ JobIDNil ∧ tok ≠ LeaseTokenNil ↔ request_ok R [id] tok.
Proof.
  intros Hm. unfold request_ok. cbn. rewrite not_elem_of_cons. split; [|naive_solver].
  intros []. split_and!; [done|lia|lia|done|set_solver].
Qed.

Lemma skipped_false locked : skipped false locked = ∅.
Proof. done. Qed.

Lemma unlocked_ready_none now j : unlocked_ready ∅ now j = ready now j.
Proof. unfold unlocked_ready. rewrite bool_decide_false by set_solver. by rewrite andb_true_r. Qed.

Lemma rows_where_ext p q t : (∀ j, p j = q j) → rows_where p t = rows_where q t.
Proof.
  intros Hpq. unfold rows_where. induction ((map_to_list t).*2) as [|j l IH]; [done|].
  rewrite !filter_cons, Hpq, IH. done.
Qed.

(** ** Failed jobs *)

(** [JobsFailedRepository]: the drawn record id and the two clock readings,
    then the arguments of [CreateFailedJobVersioned]. *)
Record JobsFailedRepository : Type := {
  CreateFailedJobVersioned :
    JobID → Z → Z → JobID → string → SchemaVersion → string → string → Op JobID
}.

Definition failed_row (ts : Z → Z) (newID : JobID) (failedAt createdAt : Z) (jobID : JobID) (name : string)
    (v : SchemaVersion) (payload reason : string) : JobFailed :=
  mkJobFailed newID jobID "queue" name v payload reason (ts failedAt) (ts createdAt) "" "".

(** A failed-job record is written whole or not at all, once per job, and
    nothing else is touched.  A backend reads the clock once or twice. *)
Class FailedRepository (ts : Z → Z) (F : JobsFailedRepository) : Prop := {
  failed_atomic newID failedAt createdAt jobID name v payload reason :
    atomic (CreateFailedJobVersioned F newID failedAt createdAt jobID name v payload reason);
  failed_ok newID failedAt createdAt jobID name v payload reason d id d' :
    CreateFailedJobVersioned F newID failedAt createdAt jobID name v payload reason d = (Ok id, d') →
    id = newID ∧ failed_t d !! newID = None ∧ (∀ i f, failed_t d !! i = Some f → f_JobID f ≠ jobID)
    ∧ ∃ t, (t = failedAt ∨ t = createdAt)
        ∧ d' = set_failed (<[newID := failed_row ts newID failedAt t jobID name v payload reason]> (failed_t d)) d;
  failed_total newID failedAt createdAt jobID name v payload reason d :
    0 < v → failed_t d !! newID = None → (∀ i f, failed_t d !! i = Some f → f_JobID f ≠ jobID) →
    ∃ d', CreateFailedJobVersioned F newID failedAt createdAt jobID name v payload reason d = (Ok newID, d')
}.

(** ** The answers of a deduplicated put *)

Section unique.
Context (ts : Z → Z) (fp : string → SchemaVersion → string → Z → string) (U : UniqueJobsRepository).
Context `{!UniqueRepository ts fp U}.

(** What one deduplicated put may answer and do. *)
Inductive put_answer (id : JobID) (now : Z) (key name : string) (v : SchemaVersion) (payload : string) (at_ : Z)
    (d : Db) : result UniquePutResult → Db → Prop :=
| put_staged : key ≠ "" → 0 < v → keys_t d !! key = None →
    put_answer id now key name v payload at_ d (Ok {| u_JobID := id; u_Created := true |})
      (staged ts (fp name v payload at_) id now key name v payload at_ d)
| put_replayed r : keys_t d !! key = Some r → ik_fingerprint r = fp name v payload at_ →
    put_answer id now key name v payload at_ d (Ok {| u_JobID := ik_job_id r; u_Created := false |}) d
| put_refused e : (∀ r, keys_t d !! key = Some r → key ≠ "" → 0 < v →
      ik_fingerprint r ≠ fp name v payload at_ ∧ errors_Is e ErrIdempotencyConflict = true) →
    put_answer id now key name v payload at_ d (Err e) d.

Lemma put_answers id now key name v payload at_ d r d' : registry_ok d → fresh_id id d →
  CreateJobVersionedUniqueResult U id now key name v payload at_ d = (r, d') →
  put_answer id now key name v payload at_ d r d'.
Proof.
  intros Hreg Hfresh Hop.
  destruct (decide (key = "" ∨ v ≤ 0)) as [Hbad|Hgood].
  { destruct (unique_invalid (U:=U) id now key name v payload at_ d Hbad) as [e He].
    rewrite He in Hop. injection Hop as <- <-. apply put_refused. intros ? _ ? ?. exfalso. destruct Hbad; [done|lia]. }
  apply Decidable.not_or in Hgood as [Hk Hv]. apply Z.nle_gt in Hv.
  destruct (keys_t d !! key) as [row|] eqn:Hrow.
  - destruct (decide (ik_fingerprint row = fp name v payload at_)) as [Hf|Hf].
    + rewrite (unique_known (U:=U) _ _ _ _ _ _ _ _ _ Hk Hv Hfresh Hrow Hf) in Hop. injection Hop as <- <-.
      by apply put_replayed.
    + destruct (unique_conflict (U:=U) id now key name v payload at_ d row Hk Hv Hrow Hf) as (e & He & Hc).
      rewrite He in Hop. injection Hop as <- <-. apply put_refused. intros r Hr _ _.
      rewrite Hrow in Hr. by injection Hr as <-.
  - rewrite (unique_new (U:=U) _ _ _ _ _ _ _ _ Hk Hv Hreg Hfresh Hrow) in Hop. injection Hop as <- <-.
    by apply put_staged.
Qed.
End unique.

(** ** Others between the statements of a call *)

Section others.
Context (moves : nat → Db → Db).

(** Only others acted. *)
Definition others_only : Db → Db → Prop := rtc (λ d d', ∃ k, d' = moves k d).

Lemma others_step k d : others_only d (moves k d).
Proof. apply rtc_once. by exists k. Qed.

Lemma others_keyed d d' : (∀ k d, keyed (jobs_t d) → keyed (jobs_t (moves k d))) →
  others_only d d' → keyed (jobs_t d) → keyed (jobs_t d').
Proof. intros Hkeyed. induction 1 as [|d d1 d' [k ->] _ IH]; auto. Qed.
End others.
