(* ===== verification/Transactions.v ===== *)
(** * Transaction managers

    backends/pgsql/storage/transaction/transaction_manager.go,
    backends/{sqlite,mysql}/storage/transaction/manager.go,
    backends/picodata/storage/transaction/manager.go and
    backends/sqlite/repositories/jobsrepo/immediate_transaction.go: when a
    transaction is begun, committed and rolled back around a callback that may
    return, panic or exit its goroutine.

    A [Session] is the database behind one context: the committed tables and,
    when the context carries a transaction, the tables as it sees them.  The
    driver's answers are arbitrary; a commit that fails may or may not have
    taken effect.  The database undoes a transaction that is rolled back or
    whose connection is lost. *)

From S2P Require Import Prelude GoTime Errors Models Batch Sql Repo.
Open Scope Z_scope.

(** A failed call: the driver's error and whether the statement was executed. *)
Record Fault : Type := { fault_err : err; fault_applied : bool }.

(** How a callback ends. *)
Inductive Exit : Type :=
| Returned (e : option err)
| Panicked (v : string)
| Goexited.

Record Session : Type := mkSession {
  stored : Db;
  open_tx : option Db;
  commits : nat;
  rollbacks : nat
}.

Record Driver : Type := {
  begin_err : option err;
  commit_err : option Fault;
  rollback_err : option err
}.

Definition Callback : Type := Session → Exit * Session.

(** ** The transaction of a context *)

Definition BeginTx (s : Session) : Session := mkSession (stored s) (Some (stored s)) (commits s) (rollbacks s).

Definition Commit (drv : Driver) (s : Session) : option err * Session :=
  match open_tx s with
  | None => (Some (ESentinel SqlErrTxDone), s)
  | Some d =>
      match commit_err drv with
      | None => (None, mkSession d None (S (commits s)) (rollbacks s))
      | Some f => (Some (fault_err f), mkSession (if fault_applied f then d else stored s) None (S (commits s)) (rollbacks s))
      end
  end.

Definition Rollback (drv : Driver) (s : Session) : option err * Session :=
  match open_tx s with
  | None => (Some (ESentinel SqlErrTxDone), s)
  | Some _ => (rollback_err drv, mkSession (stored s) None (commits s) (S (rollbacks s)))
  end.

(** [recover()] in the deferred function: the callback's error, and whether it
    returned.  A goroutine that exits leaves the error nil. *)
Definition callback_error (x : Exit) : option err :=
  match x with
  | Returned e => e
  | Panicked v => Some (EText ("panic recovered: " +:+ v))
  | Goexited => None
  end.
Definition is_nil (e : option err) : bool := match e with None => true | Some _ => false end.
Definition callbackReturned (x : Exit) : bool := match x with Returned _ => true | _ => false end.

(** What the caller sees: a recovered panic is a return. *)
Definition finished (x : Exit) (e : option err) : Exit := match x with Goexited => Goexited | _ => Returned e end.

Definition commit_with (text : string) (drv : Driver) (s : Session) : option err * Session :=
  match Commit drv s with
  | (None, s') => (None, s')
  | (Some e, s') => (Some (wrapf text e), s')
  end.

Definition rollback_with (text : string) (drv : Driver) (e : option err) (s : Session) : option err * Session :=
  match Rollback drv s with
  | (None, s') => (e, s')
  | (Some rb, s') => (errors_Join [e; Some (wrapf text rb)], s')
  end.

(** Statements run in the transaction of the context. *)
Definition op_callback {A} (op : Op A) : Callback := λ s,
  let '(r, d') := op (default (stored s) (open_tx s)) in
  (Returned (match r with Ok _ => None | Err e => Some e end), mkSession (stored s) (Some d') (commits s) (rollbacks s)).

(** ** PostgreSQL *)

Definition pg_runTransaction (drv : Driver) (fn : Callback) (s : Session) : Exit * Session :=
  match open_tx s with
  | Some _ => fn s
  | None =>
      match begin_err drv with
      | Some e => (Returned (Some (wrapf "can't begin transaction" e)), s)
      | None =>
          let '(x, s1) := fn (BeginTx s) in
          let returned := callbackReturned x in
          let e0 := callback_error x in
          let '(e1, s2) := if returned && is_nil e0
                           then commit_with "commit failed" drv s1 else (e0, s1) in
          let '(e2, s3) := if negb returned || negb (is_nil e1)
                           then rollback_with "rollback failed" drv e1 s2 else (e1, s2) in
          (finished x e2, s3)
      end
  end.

(** The isolation level and access mode of the context's values are options of
    [BeginTx] only. *)
Definition pg_RunInTx (drv : Driver) (fn : Callback) : Session → Exit * Session := pg_runTransaction drv fn.
Definition ReadCommitted (drv : Driver) (fn : Callback) : Session → Exit * Session := pg_runTransaction drv fn.
Definition RepeatableRead (drv : Driver) (fn : Callback) : Session → Exit * Session := pg_runTransaction drv fn.
Definition Serializable (drv : Driver) (fn : Callback) : Session → Exit * Session := pg_runTransaction drv fn.

(** ** SQLite and MySQL *)

Definition sql_RunInTx (backend : string) (configured : bool) (drv : Driver) (fn : Callback) (s : Session) : Exit * Session :=
  if negb configured then (Returned (Some (EText (backend +:+ " transaction manager is not configured"))), s)
  else match open_tx s with
  | Some _ => fn s
  | None =>
      match begin_err drv with
      | Some e => (Returned (Some (wrapf "begin tx" e)), s)
      | None =>
          let '(x, s1) := fn (BeginTx s) in
          let e0 := callback_error x in
          if callbackReturned x && is_nil e0 then
            let '(e1, s2) := commit_with "commit" drv s1 in (finished x e1, s2)
          else
            let '(e1, s2) := rollback_with "rollback" drv e0 s1 in (finished x e1, s2)
      end
  end.

Definition sqlite_RunInTx : bool → Driver → Callback → Session → Exit * Session := sql_RunInTx "sqlite".
Definition mysql_RunInTx : bool → Driver → Callback → Session → Exit * Session := sql_RunInTx "mysql".

(** ** Picodata *)

Definition best_effort_RunInTx (configured : bool) (fn : Callback) (s : Session) : Exit * Session :=
  if negb configured then (Returned (Some (EText "transaction manager is not configured")), s) else fn s.

(** ** SQLite's immediate transactions

    A claim takes a pooled connection and issues [BEGIN IMMEDIATE], [COMMIT] and
    [ROLLBACK] itself, so the pool does not know whether a transaction is open
    on it.  A connection that is discarded loses its transaction. *)

Record Conn : Type := mkConn {
  c_stored : Db;
  c_tx : option Db;
  c_discarded : bool;
  c_closed : bool
}.

(** The driver's answers; a [BEGIN] may fail after it opened the transaction,
    and a failed [COMMIT] may have taken effect, or have left the transaction
    open. *)
Record ConnDriver : Type := {
  conn_err : option err;
  pragma_err : option err;
  immediate_err : option Fault;
  end_err : option (Fault * bool);
  undo_err : option err;
  raw_err : option err;
  close_err : option err
}.

Definition begin_immediate (drv : ConnDriver) (c : Conn) : option err * Conn :=
  let opened := mkConn (c_stored c) (Some (c_stored c)) (c_discarded c) (c_closed c) in
  match immediate_err drv with
  | None => (None, opened)
  | Some f => (Some (fault_err f), if fault_applied f then opened else c)
  end.

Definition exec_commit (drv : ConnDriver) (c : Conn) : option err * Conn :=
  match c_tx c with
  | None => (Some (EText "cannot commit - no transaction is active"), c)
  | Some d =>
      match end_err drv with
      | None => (None, mkConn d None (c_discarded c) (c_closed c))
      | Some (f, still_open) =>
          (Some (fault_err f),
           if fault_applied f then mkConn d None (c_discarded c) (c_closed c)
           else mkConn (c_stored c) (if still_open : bool then Some d else None) (c_discarded c) (c_closed c))
      end
  end.

Definition exec_rollback (drv : ConnDriver) (c : Conn) : option err * Conn :=
  match c_tx c, undo_err drv with
  | None, _ => (Some (EText "cannot rollback - no transaction is active"), c)
  | Some _, None => (None, mkConn (c_stored c) None (c_discarded c) (c_closed c))
  | Some _, Some e => (Some e, c)
  end.

(** [conn.Raw] reports [driver.ErrBadConn] after it dropped the connection;
    [raw_err] is any other answer.  A connection already gone has no
    transaction either. *)
Definition discardImmediateConnection (drv : ConnDriver) (c : Conn) : option err * Conn :=
  match raw_err drv with
  | None => (None, mkConn (c_stored c) None true (c_closed c))
  | Some e => if errors_Is e SqlErrConnDone then (None, mkConn (c_stored c) None true (c_closed c)) else (Some e, c)
  end.

Definition close_conn (drv : ConnDriver) (e : option err) (c : Conn) : option err * Conn :=
  let c' := mkConn (c_stored c) (c_tx c) (c_discarded c) true in
  match close_err drv with
  | Some ce => if errors_Is ce SqlErrConnDone then (e, c')
               else (errors_Join [e; Some (wrapf "close immediate transaction connection" ce)], c')
  | None => (e, c')
  end.

(** The deferred clean-up of a transaction that was not committed. *)
Definition undo (drv : ConnDriver) (e : option err) (c : Conn) : option err * Conn :=
  match exec_rollback drv c with
  | (None, c') => (e, c')
  | (Some rb, c') =>
      let '(de, c'') := discardImmediateConnection drv c' in
      (errors_Join [e; Some (wrapf "rollback immediate transaction" rb); de], c'')
  end.

(** The first deferred function, on the way out with [x]. *)
Definition close_after (drv : ConnDriver) (x : Exit) (p : option err * Conn) : Exit * Conn :=
  let '(e', c') := close_conn drv p.1 p.2 in
  (match x with Returned _ => Returned e' | _ => x end, c').

(** [work] runs its statements on the open transaction; an exit other than a
    return passes through the deferred functions. *)
Definition runImmediateTransaction (drv : ConnDriver) (work : Db → Exit * Db) (c : Conn) : Exit * Conn :=
  match pragma_err drv with
  | Some e => close_after drv (Returned None) (Some e, c)
  | None =>
      match begin_immediate drv c with
      | (Some e, c1) =>
          let '(de, c2) := discardImmediateConnection drv c1 in
          close_after drv (Returned None) (errors_Join [Some e; de], c2)
      | (None, c1) =>
          let '(x, d1) := work (default (c_stored c1) (c_tx c1)) in
          let c2 := mkConn (c_stored c1) (Some d1) (c_discarded c1) (c_closed c1) in
          match x with
          | Returned None =>
              match exec_commit drv c2 with
              | (None, c3) => close_after drv x (None, c3)
              | (Some e, c3) => close_after drv x (undo drv (Some e) c3)
              end
          | Returned (Some e) => close_after drv x (undo drv (Some e) c2)
          | _ => close_after drv x (undo drv None c2)
          end
      end
  end.

Definition withImmediateTransaction (drv : ConnDriver) (work : Db → Exit * Db) (s : Session) : Exit * Session * option Conn :=
  match open_tx s with
  | Some d => let '(x, d') := work d in (x, mkSession (stored s) (Some d') (commits s) (rollbacks s), None)
  | None =>
      match conn_err drv with
      | Some e => (Returned (Some e), s, None)
      | None =>
          let '(x, c) := runImmediateTransaction drv work (mkConn (stored s) None false false) in
          (x, mkSession (c_stored c) None (commits s) (rollbacks s), Some c)
      end
  end.

(** ** Finalization *)

(** A callback whose statements all run in the open transaction. *)
Definition inside (fn : Callback) : Prop := ∀ s d x s', open_tx s = Some d → fn s = (x, s') →
  ∃ d', s' = mkSession (stored s) (Some d') (commits s) (rollbacks s).

Lemma nested_is_inside run fn : (∀ s d, open_tx s = Some d → run fn s = fn s) → inside fn → inside (run fn : Callback).
Proof. intros Hrun Hfn s d x s' Hs. rewrite (Hrun s d Hs). intros Hop. by eapply Hfn. Qed.

(** A run of [fn] around a transaction of its own, by its driver's answers. *)
Inductive finalized (drv : Driver) (fn : Callback) (s : Session) : Exit → Session → Prop :=
| Unstarted e : finalized drv fn s (Returned (Some e)) s
| Committed d : fn (BeginTx s) = (Returned None, mkSession (stored s) (Some d) (commits s) (rollbacks s)) →
    finalized drv fn s (Returned None) (mkSession d None (S (commits s)) (rollbacks s))
| CommitFailed d f e n : fn (BeginTx s) = (Returned None, mkSession (stored s) (Some d) (commits s) (rollbacks s)) →
    commit_err drv = Some f →
    finalized drv fn s (Returned (Some e)) (mkSession (if fault_applied f then d else stored s) None (S (commits s)) n)
| RolledBack x d e : fn (BeginTx s) = (x, mkSession (stored s) (Some d) (commits s) (rollbacks s)) →
    x ≠ Returned None → x ≠ Goexited →
    finalized drv fn s (Returned (Some e)) (mkSession (stored s) None (commits s) (S (rollbacks s)))
| Abandoned d : fn (BeginTx s) = (Goexited, mkSession (stored s) (Some d) (commits s) (rollbacks s)) →
    finalized drv fn s Goexited (mkSession (stored s) None (commits s) (S (rollbacks s))).

Lemma op_callback_inside {A} (op : Op A) : inside (op_callback op).
Proof. intros s d x s' Hs. unfold op_callback. destruct (op _) as [r d']. intros [= <- <-]. eauto. Qed.

Lemma begun fn s : inside fn → ∃ x d, fn (BeginTx s) = (x, mkSession (stored s) (Some d) (commits s) (rollbacks s)).
Proof.
  intros Hfn. destruct (fn (BeginTx s)) as [x s1] eqn:Hrun. destruct (Hfn (BeginTx s) (stored s) _ _ eq_refl Hrun) as [d ->]. eauto.
Qed.

(** The deferred function after each exit of the callback. *)
Ltac finalize_exit drv :=
  cbn; unfold rollback_with, commit_with, Rollback, Commit; cbn;
  repeat match goal with
         | |- context [commit_err drv] => destruct (commit_err drv) eqn:?; cbn
         | |- context [rollback_err drv] => destruct (rollback_err drv); cbn
         end;
  first [by eapply Committed | by eapply CommitFailed | by eapply RolledBack | by eapply Abandoned].

Lemma pg_finalized drv fn s : inside fn → open_tx s = None →
  finalized drv fn s (pg_runTransaction drv fn s).1 (pg_runTransaction drv fn s).2.
Proof.
  intros Hfn Hs. unfold pg_runTransaction. rewrite Hs. destruct (begin_err drv) as [be|]; [constructor|].
  destruct (begun fn s Hfn) as (x & d & Hx). rewrite Hx. destruct x as [[e|]|v|]; finalize_exit drv.
Qed.

Lemma sql_finalized backend drv fn s : inside fn → open_tx s = None →
  finalized drv fn s (sql_RunInTx backend true drv fn s).1 (sql_RunInTx backend true drv fn s).2.
Proof.
  intros Hfn Hs. unfold sql_RunInTx. cbn [negb]. rewrite Hs. destruct (begin_err drv) as [be|]; [constructor|].
  destruct (begun fn s Hfn) as (x & d & Hx). rewrite Hx. destruct x as [[e|]|v|]; finalize_exit drv.
Qed.

(** The two managers. *)
Definition manager (run : Driver → Callback → Session → Exit * Session) : Prop :=
  run = pg_runTransaction ∨ ∃ backend, run = sql_RunInTx backend true.

(** C21: a transaction is finished once, whatever its callback and its driver
    do.  A callback that returns nil is committed and its tables are the stored
    ones; a commit that reports an error may have taken effect or not; a
    callback that returns an error, panics or exits its goroutine leaves the
    stored tables as they were; a panic becomes an error of the call; no exit
    leaves a transaction open.  A call in a context that already carries a
    transaction joins it: it runs the callback and finalizes nothing, so a
    callback that nests such calls still runs inside the one transaction. *)
Theorem transaction_finalized run drv fn s : manager run → inside fn →
  match open_tx s with
  | Some _ => run drv fn s = fn s
  | None => finalized drv fn s (run drv fn s).1 (run drv fn s).2 ∧ open_tx (run drv fn s).2 = None
  end ∧ inside (run drv fn).
Proof.
  intros Hrun Hfn. split.
  - destruct (open_tx s) eqn:Hs.
    + destruct Hrun as [->|[b ->]]; [unfold pg_runTransaction|unfold sql_RunInTx]; by rewrite Hs.
    + assert (finalized drv fn s (run drv fn s).1 (run drv fn s).2) as Hfin
        by (destruct Hrun as [->|[b ->]]; [by apply pg_finalized|by apply sql_finalized]).
      split; [done|]. destruct (run drv fn s) as [x s']. cbn in *. by destruct Hfin.
  - apply (nested_is_inside (run drv)); [|done]. intros s0 d Hs0.
    destruct Hrun as [->|[b ->]]; [unfold pg_runTransaction|unfold sql_RunInTx]; by rewrite Hs0.
Qed.

(** [conn.Raw] with a function that reports a bad connection drops it. *)
Definition discards (drv : ConnDriver) : Prop :=
  ∀ e, raw_err drv = Some e → errors_Is e SqlErrConnDone = true.

Lemma discard_spec drv c : discards drv →
  discardImmediateConnection drv c = (None, mkConn (c_stored c) None true (c_closed c)).
Proof.
  intros Hraw. unfold discardImmediateConnection. destruct (raw_err drv) as [e|] eqn:He; [|done]. by rewrite Hraw.
Qed.

(** What a deferred function does to the connection, and that it never clears
    an error. *)
Lemma undo_spec drv e c : discards drv →
  let p := undo drv e c in c_tx p.2 = None ∧ c_stored p.2 = c_stored c ∧ (p.1 = None → e = None).
Proof.
  intros Hraw. unfold undo, exec_rollback.
  destruct (c_tx c), (undo_err drv); rewrite ?discard_spec by done; cbn; by destruct e.
Qed.

Lemma close_spec drv x p y c' : close_after drv x p = (y, c') →
  c_closed c' = true ∧ c_tx c' = c_tx p.2 ∧ c_stored c' = c_stored p.2
  ∧ match x with Returned _ => ∃ e, y = Returned e ∧ (e = None → p.1 = None) | _ => y = x end.
Proof.
  destruct p as [e c]. unfold close_after, close_conn. cbn.
  destruct (close_err drv) as [ce|]; [destruct (errors_Is ce _)|]; intros [= <- <-]; destruct x; cbn;
    split_and!; try done; eexists; (split; [done|]); by destruct e.
Qed.

(** C22: an immediate transaction leaves a clean connection.  However the work
    ends and whichever statements the driver fails, with [conn.Raw] dropping
    the connection as documented, the connection is closed with no transaction
    open on it, so none is returned to the pool holding the write lock; the
    stored tables are those before, or those of a work that returned nil;
    success means the work returned nil and was committed; panics and exits of
    the goroutine pass through after the rollback. *)
Theorem immediate_transaction_clean drv work c x c' : discards drv → c_tx c = None →
  runImmediateTransaction drv work c = (x, c') →
  c_closed c' = true ∧ c_tx c' = None
  ∧ (c_stored c' = c_stored c ∨ work (c_stored c) = (Returned None, c_stored c'))
  ∧ match x with
    | Returned None => work (c_stored c) = (Returned None, c_stored c')
    | Returned (Some _) => True
    | _ => (work (c_stored c)).1 = x ∧ c_stored c' = c_stored c
    end.
Proof.
  intros Hraw Hc. unfold runImmediateTransaction.
  destruct (pragma_err drv) as [e|].
  { intros (? & Htx & Hst & ? & -> & Hn)%close_spec. cbn in *. rewrite Hst.
    split_and!; [done|congruence|auto|]. by case_match; [|specialize (Hn eq_refl)]. }
  destruct (begin_immediate drv c) as [[e|] c1] eqn:Hb.
  { rewrite discard_spec by done. intros (? & Htx & Hst & ? & -> & Hn)%close_spec. cbn in *.
    assert (c_stored c1 = c_stored c) as Hc1 by (unfold begin_immediate in Hb; repeat case_match; naive_solver).
    split_and!; [done..|left; congruence|]. by case_match; [|specialize (Hn eq_refl)]. }
  assert (c_stored c1 = c_stored c ∧ default (c_stored c1) (c_tx c1) = c_stored c) as [Hc1 ->]
    by (unfold begin_immediate in Hb; repeat case_match; naive_solver).
  destruct (work (c_stored c)) as [x1 d1]. set (c2 := mkConn _ _ _ _). assert (c_stored c2 = c_stored c) as Hc2 by done.
  destruct x1 as [[e|]|v|].
  - destruct (undo_spec drv (Some e) c2 Hraw) as (Hu1 & Hu2 & Hu3).
    intros (? & Htx & Hst & ? & -> & Hn)%close_spec. split_and!; [done|congruence|left; congruence|].
    case_match; [done|]. by specialize (Hu3 (Hn eq_refl)).
  - unfold exec_commit. cbn. destruct (end_err drv) as [[f still]|].
    + set (c3 := if fault_applied f then _ else _).
      assert (c_stored c3 = c_stored c ∨ c_stored c3 = d1) as Hc3 by (unfold c3; destruct (fault_applied f); cbn; auto).
      destruct (undo_spec drv (Some (fault_err f)) c3 Hraw) as (Hu1 & Hu2 & Hu3).
      intros (? & Htx & Hst & ? & -> & Hn)%close_spec. rewrite Hst, Hu2.
      split_and!; [done|congruence|destruct Hc3 as [->| ->]; auto|].
      case_match; [done|]. by specialize (Hu3 (Hn eq_refl)).
    + intros (? & Htx & Hst & ? & -> & _)%close_spec. cbn in *. rewrite Hst. split_and!; auto. by case_match.
  - destruct (undo_spec drv None c2 Hraw) as (Hu1 & Hu2 & _).
    intros (? & Htx & Hst & ->)%close_spec. split_and!; [done|congruence|left; congruence|done|congruence].
  - destruct (undo_spec drv None c2 Hraw) as (Hu1 & Hu2 & _).
    intros (? & Htx & Hst & ->)%close_spec. split_and!; [done|congruence|left; congruence|done|congruence].
Qed.
