(* ===== verification/Json.v ===== *)
(** * [json.Valid] and [strings.TrimSpace]

    What outbox/fanout.go uses of the standard library to check raw messages
    and identifiers: the byte-driven scanner of encoding/json behind
    [json.Valid], and the white-space test behind [strings.TrimSpace].  Byte
    strings are [string]s. *)

From Stdlib Require Import Ascii.
From S2P Require Import Prelude.

(** ** The scanner *)

(** [parseObjectKey], [parseObjectValue], [parseArrayValue]. *)
Inductive parse_state : Type := parseObjectKey | parseObjectValue | parseArrayValue.

(** The [step] function of the scanner. *)
Inductive scan_state : Type :=
| stateBeginValue | stateBeginValueOrEmpty | stateBeginString | stateBeginStringOrEmpty
| stateInString | stateInStringEsc | stateInStringEscU (missing : nat)
| stateNeg | state1 | state0 | stateDot | stateDot0 | stateE | stateESign | stateE0
| stateLiteral (rest : string)                    (* the letters of true, false, null still due *)
| stateEndValue | stateEndTop.

Record scanner : Type := mkScanner { sc_step : scan_state; sc_stack : list parse_state }.

Definition maxNestingDepth : N := 10000.
Definition too_deep (stack : list parse_state) : bool := (maxNestingDepth <? N.of_nat (length stack))%N.

Definition byte (n : N) : Ascii.ascii := Ascii.ascii_of_N n.
Definition quote : Ascii.ascii := byte 34.

Definition byte_in (lo hi c : Ascii.ascii) : bool :=
  (Ascii.N_of_ascii lo <=? Ascii.N_of_ascii c)%N && (Ascii.N_of_ascii c <=? Ascii.N_of_ascii hi)%N.

Definition is_byte (c d : Ascii.ascii) : bool := Ascii.eqb c d.
Arguments is_byte c d%_char.
Arguments byte_in (lo hi)%_char c.
Definition isSpace (c : Ascii.ascii) : bool :=
  is_byte c " " || is_byte c "009" || is_byte c "013" || is_byte c "010".
Definition digit (c : Ascii.ascii) : bool := byte_in "0" "9" c.
Definition hex (c : Ascii.ascii) : bool := digit c || byte_in "a" "f" c || byte_in "A" "F" c.

(** [None] is a syntax error. *)
Definition goto (s : scan_state) (stack : list parse_state) : option scanner := Some (mkScanner s stack).

Definition push (p : parse_state) (s : scan_state) (stack : list parse_state) : option scanner :=
  if too_deep (p :: stack) then None else goto s (p :: stack).

Definition pop (stack : list parse_state) : option scanner :=
  match stack with
  | [] | [_] => goto stateEndTop []
  | _ :: stack => goto stateEndValue stack
  end.

Definition end_top (c : Ascii.ascii) : option scanner := if isSpace c then goto stateEndTop [] else None.

Definition end_value (c : Ascii.ascii) (stack : list parse_state) : option scanner :=
  match stack with
  | [] => end_top c
  | p :: rest =>
      if isSpace c then goto stateEndValue stack
      else match p with
           | parseObjectKey => if is_byte c ":" then goto stateBeginValue (parseObjectValue :: rest) else None
           | parseObjectValue =>
               if is_byte c "," then goto stateBeginString (parseObjectKey :: rest)
               else if is_byte c "}" then pop stack else None
           | parseArrayValue =>
               if is_byte c "," then goto stateBeginValue stack
               else if is_byte c "]" then pop stack else None
           end
  end.

Definition begin_value (c : Ascii.ascii) (stack : list parse_state) : option scanner :=
  if isSpace c then goto stateBeginValue stack
  else if is_byte c "{" then push parseObjectKey stateBeginStringOrEmpty stack
  else if is_byte c "[" then push parseArrayValue stateBeginValueOrEmpty stack
  else if is_byte c quote then goto stateInString stack
  else if is_byte c "-" then goto stateNeg stack
  else if is_byte c "0" then goto state0 stack
  else if is_byte c "t" then goto (stateLiteral "rue") stack
  else if is_byte c "f" then goto (stateLiteral "alse") stack
  else if is_byte c "n" then goto (stateLiteral "ull") stack
  else if byte_in "1" "9" c then goto state1 stack
  else None.

Definition begin_string (c : Ascii.ascii) (stack : list parse_state) : option scanner :=
  if isSpace c then goto stateBeginString stack
  else if is_byte c quote then goto stateInString stack
  else None.

Definition after_zero (c : Ascii.ascii) (stack : list parse_state) : option scanner :=
  if is_byte c "." then goto stateDot stack
  else if is_byte c "e" || is_byte c "E" then goto stateE stack
  else end_value c stack.

Definition exponent_digit (c : Ascii.ascii) (stack : list parse_state) : option scanner :=
  if digit c then goto stateE0 stack else None.

Definition step (c : Ascii.ascii) (s : scanner) : option scanner :=
  let stack := sc_stack s in
  match sc_step s with
  | stateBeginValue => begin_value c stack
  | stateBeginValueOrEmpty =>
      if isSpace c then goto stateBeginValueOrEmpty stack
      else if is_byte c "]" then end_value c stack
      else begin_value c stack
  | stateBeginString => begin_string c stack
  | stateBeginStringOrEmpty =>
      if isSpace c then goto stateBeginStringOrEmpty stack
      else if is_byte c "}" then
        match stack with
        | _ :: rest => end_value c (parseObjectValue :: rest)
        | [] => None
        end
      else begin_string c stack
  | stateInString =>
      if is_byte c quote then goto stateEndValue stack
      else if is_byte c "\" then goto stateInStringEsc stack
      else if (Ascii.N_of_ascii c <? 32)%N then None
      else goto stateInString stack
  | stateInStringEsc =>
      if is_byte c "b" || is_byte c "f" || is_byte c "n" || is_byte c "r" || is_byte c "t" || is_byte c "\" || is_byte c "/" || is_byte c quote
      then goto stateInString stack
      else if is_byte c "u" then goto (stateInStringEscU 4) stack
      else None
  | stateInStringEscU n =>
      if hex c then goto (match n with S (S n) => stateInStringEscU (S n) | _ => stateInString end) stack else None
  | stateNeg => if is_byte c "0" then goto state0 stack else if byte_in "1" "9" c then goto state1 stack else None
  | state1 => if digit c then goto state1 stack else after_zero c stack
  | state0 => after_zero c stack
  | stateDot => if digit c then goto stateDot0 stack else None
  | stateDot0 =>
      if digit c then goto stateDot0 stack
      else if is_byte c "e" || is_byte c "E" then goto stateE stack
      else end_value c stack
  | stateE => if is_byte c "+" || is_byte c "-" then goto stateESign stack else exponent_digit c stack
  | stateESign => exponent_digit c stack
  | stateE0 => if digit c then goto stateE0 stack else end_value c stack
  | stateLiteral rest =>
      match rest with
      | String d EmptyString => if is_byte c d then goto stateEndValue stack else None
      | String d rest => if is_byte c d then goto (stateLiteral rest) stack else None
      | EmptyString => None
      end
  | stateEndValue => end_value c stack
  | stateEndTop => end_top c
  end.

Fixpoint scan (data : string) (s : scanner) : option scanner :=
  match data with
  | EmptyString => Some s
  | String c data => match step c s with Some s' => scan data s' | None => None end
  end.

(** [scanner.eof]: the value must be complete, a final number counting as
    ended by a space. *)
Definition ends (s : scanner) : bool :=
  match step " "%char s with
  | Some s' => match sc_step s' with stateEndTop => true | _ => false end
  | None => false
  end.

Definition json_Valid (data : string) : bool :=
  match scan data (mkScanner stateBeginValue []) with
  | Some s => ends s
  | None => false
  end.

Example json_valid_works :
  json_Valid "{}" = true ∧ json_Valid " [1, -2.5e+3, true, [], {}] " = true
  ∧ json_Valid ("{" +:+ String quote ("a\u00e9\n" +:+ String quote ": null}")) = true
  ∧ json_Valid "" = false ∧ json_Valid "01" = false ∧ json_Valid "{} x" = false ∧ json_Valid "[1,]" = false.
Proof. split_and!; reflexivity. Qed.

(** ** [strings.TrimSpace]

    [unicode.IsSpace] over the UTF-8 encodings of its runes; a byte that does
    not start one of them is not a space.  [blank s] is
    [strings.TrimSpace(s) == ""]. *)

(** The number of bytes of the leading space rune, 0 when there is none. *)
Definition space_len (s : string) : nat :=
  match s with
  | String a rest =>
      let n := Ascii.N_of_ascii a in
      if ((9 <=? n) && (n <=? 13) || (n =? 32))%N then 1
      else match rest with
           | String b rest =>
               let m := Ascii.N_of_ascii b in
               if ((n =? 194) && ((m =? 133) || (m =? 160)))%N then 2
               else match rest with
                    | String c _ =>
                        let l := Ascii.N_of_ascii c in
                        if ((n =? 225) && (m =? 154) && (l =? 128)
                            || (n =? 226) && (m =? 128)
                               && ((128 <=? l) && (l <=? 138) || (l =? 168) || (l =? 169) || (l =? 175))
                            || (n =? 226) && (m =? 129) && (l =? 159)
                            || (n =? 227) && (m =? 128) && (l =? 128))%N
                        then 3 else 0
                    | EmptyString => 0
                    end
           | EmptyString => 0
           end
  | EmptyString => 0
  end.

(** Every byte belongs to a space rune; [skip] bytes of the current rune are
    still due. *)
Fixpoint blank_from (skip : nat) (s : string) : bool :=
  match s with
  | EmptyString => true
  | String _ rest =>
      match skip with
      | S skip => blank_from skip rest
      | O => match space_len s with O => false | S skip => blank_from skip rest end
      end
  end.

Definition blank (s : string) : bool := blank_from 0 s.

Arguments json_Valid data : simpl never.
Arguments blank s : simpl never.

Example blank_works : blank "" = true ∧ blank "  " = true ∧ blank " a " = false
  ∧ blank (String (byte 194) (String (byte 160) "")) = true ∧ blank (String (byte 194) "") = false.
Proof. split_and!; reflexivity. Qed.
