(* ===== verification/GoStrings.v ===== *)
(** * Go's [strings], [strconv] and [bufio], as far as the migrator uses them

    Strings are byte strings; white space and case are those of [unicode] on
    the UTF-8 encodings ([Json.space_len]). *)

From Stdlib Require Import Ascii.
From S2P Require Import Prelude GoTime Errors Json.
Open Scope Z_scope.

(** ** [strings] *)

(** [strings.TrimLeftFunc(s, unicode.IsSpace)]; [skip] bytes of the current
    space rune are still to be dropped. *)
Fixpoint trim_left (skip : nat) (s : string) : string :=
  match s with
  | EmptyString => ""
  | String _ rest =>
      match skip with
      | S skip => trim_left skip rest
      | O => match space_len s with O => s | S skip => trim_left skip rest end
      end
  end.

(** [strings.TrimRightFunc(s, unicode.IsSpace)]: up to the first suffix that
    is blank. *)
Fixpoint trim_right (s : string) : string :=
  match s with
  | EmptyString => ""
  | String a rest => if blank s then "" else String a (trim_right rest)
  end.

Definition TrimSpace (s : string) : string := trim_right (trim_left 0 s).

Definition HasPrefix (s prefix : string) : bool := String.prefix prefix s.

Fixpoint HasSuffix (s suffix : string) : bool :=
  String.eqb s suffix || match s with EmptyString => false | String _ rest => HasSuffix rest suffix end.

(** [strings.Index]; [None] is -1. *)
Definition Index (s sub : string) : option nat := String.index 0 sub s.
Definition Contains (s sub : string) : bool := match Index s sub with Some _ => true | None => false end.

(** [s[from:]] and [s[from:to]]. *)
Definition slice_from (from : nat) (s : string) : string := String.substring from (String.length s - from) s.
Definition slice (from to : nat) (s : string) : string := String.substring from (to - from) s.

Definition ascii_between (lo hi : N) (c : Ascii.ascii) : bool :=
  ((lo <=? Ascii.N_of_ascii c) && (Ascii.N_of_ascii c <=? hi))%N.
Definition is_digit (c : Ascii.ascii) : bool := ascii_between 48 57 c.
Definition is_lower (c : Ascii.ascii) : bool := ascii_between 97 122 c.
Definition is_upper (c : Ascii.ascii) : bool := ascii_between 65 90 c.

(** [strings.ToUpper] as far as a comparison with ASCII text can tell: besides
    the ASCII letters, U+0131 and U+017F are the runes whose upper case is
    ASCII.  Bytes of other runes stay outside ASCII. *)
Fixpoint ToUpper (s : string) : string :=
  match s with
  | EmptyString => ""
  | String a rest =>
      if is_lower a then String (Ascii.ascii_of_N (Ascii.N_of_ascii a - 32)) (ToUpper rest)
      else match rest with
           | String b rest' =>
               if (Ascii.N_of_ascii a =? 196)%N && (Ascii.N_of_ascii b =? 177)%N then String "I"%char (ToUpper rest')
               else if (Ascii.N_of_ascii a =? 197)%N && (Ascii.N_of_ascii b =? 191)%N then String "S"%char (ToUpper rest')
               else String a (ToUpper rest)
           | EmptyString => String a (ToUpper rest)
           end
  end.

(** [strings.ToLower] likewise: U+0130 and U+212A have an ASCII lower case. *)
Fixpoint ToLower (s : string) : string :=
  match s with
  | EmptyString => ""
  | String a rest =>
      if is_upper a then String (Ascii.ascii_of_N (Ascii.N_of_ascii a + 32)) (ToLower rest)
      else match rest with
           | String b ((String c rest'') as rest') =>
               if (Ascii.N_of_ascii a =? 196)%N && (Ascii.N_of_ascii b =? 176)%N then String "i"%char (ToLower rest')
               else if (Ascii.N_of_ascii a =? 226)%N && (Ascii.N_of_ascii b =? 132)%N && (Ascii.N_of_ascii c =? 170)%N
               then String "k"%char (ToLower rest'')
               else String a (ToLower rest)
           | String b EmptyString =>
               if (Ascii.N_of_ascii a =? 196)%N && (Ascii.N_of_ascii b =? 176)%N then "i" else String a (ToLower rest)
           | EmptyString => String a (ToLower rest)
           end
  end.

(** The width of the first rune ([utf8.DecodeRuneInString]): an encoding that
    is not valid counts one byte. *)
Definition rune_len (s : string) : nat :=
  match s with
  | EmptyString => 0
  | String a rest =>
      let tail lo hi k (s : string) :=
        match s with String b rest => if ascii_between lo hi b then k rest else 1%nat | EmptyString => 1%nat end in
      let a := Ascii.N_of_ascii a in
      let last2 := tail 128%N 191%N (λ _, 2%nat) in
      let last3 := tail 128%N 191%N (λ _, 3%nat) in
      let last4 := tail 128%N 191%N (tail 128%N 191%N (λ _, 4%nat)) in
      (if (a <? 194)%N then 1%nat
       else if (a <=? 223)%N then last2 rest
       else if (a =? 224)%N then tail 160%N 191%N last3 rest
       else if (a =? 237)%N then tail 128%N 159%N last3 rest
       else if (a <=? 239)%N then tail 128%N 191%N last3 rest
       else if (a =? 240)%N then tail 144%N 191%N last4 rest
       else if (a <=? 243)%N then tail 128%N 191%N last4 rest
       else if (a =? 244)%N then tail 128%N 143%N last4 rest
       else 1)%nat
  end.

(** [strings.ReplaceAll] of a non-empty text; [skip] bytes of a replaced
    occurrence are still to be dropped. *)
Fixpoint replace_from (old new : string) (skip : nat) (s : string) : string :=
  match s with
  | EmptyString => ""
  | String a rest =>
      match skip with
      | S skip => replace_from old new skip rest
      | O => if String.prefix old s then new +:+ replace_from old new (String.length old - 1) rest
             else String a (replace_from old new 0 rest)
      end
  end.

(** Of the empty text: before every rune and at the end; [due] bytes of the
    current rune are still to be copied. *)
Fixpoint replace_empty (new : string) (due : nat) (s : string) : string :=
  match s with
  | EmptyString => new
  | String a rest =>
      match due with
      | S due => String a (replace_empty new due rest)
      | O => new +:+ String a (replace_empty new (rune_len s - 1) rest)
      end
  end.

Definition ReplaceAll (s old new : string) : string :=
  if String.eqb old "" then replace_empty new 0 s else replace_from old new 0 s.

(** [strings.SplitN(s, "_", 2)[0]]. *)
Fixpoint before_underscore (s : string) : string :=
  match s with
  | EmptyString => ""
  | String a rest => if Ascii.eqb a "_"%char then "" else String a (before_underscore rest)
  end.

(** ** [path/filepath] *)

(** [filepath.Ext]: from the last dot of the last element. *)
Fixpoint Ext (s : string) : string :=
  match s with
  | EmptyString => ""
  | String a rest =>
      match Ext rest with
      | EmptyString =>
          if Ascii.eqb a "."%char && all_bytes (λ c, negb (Ascii.eqb c "/"%char)) rest then s else ""
      | e => e
      end
  end.

(** [strings.TrimSuffix(name, filepath.Ext(name))]. *)
Definition without_ext (name : string) : string :=
  String.substring 0 (String.length name - String.length (Ext name)) name.

(** ** [strconv.ParseInt(s, 10, 64)] *)

Fixpoint parse_digits (acc : Z) (s : string) : option Z :=
  match s with
  | EmptyString => Some acc
  | String a rest =>
      if is_digit a then parse_digits (10 * acc + (Z.of_N (Ascii.N_of_ascii a) - 48)) rest else None
  end.

Definition parse_uint (s : string) : option Z := match s with EmptyString => None | _ => parse_digits 0 s end.

Definition ParseInt (s : string) : option Z :=
  let in_range n := if (- two63 <=? n) && (n <? two63) then Some n else None in
  match s with
  | EmptyString => None
  | String a rest =>
      if Ascii.eqb a "+"%char then parse_uint rest ≫= in_range
      else if Ascii.eqb a "-"%char then parse_uint rest ≫= λ n, in_range (- n)
      else parse_uint s ≫= in_range
  end.

(** ** [bufio.Scanner] over lines *)

Definition newline : Ascii.ascii := Ascii.ascii_of_N 10.
Definition carriage_return : Ascii.ascii := Ascii.ascii_of_N 13.
Definition MaxScanTokenSize : nat := 65536.

(** [dropCR]. *)
Fixpoint drop_cr (s : string) : string :=
  match s with
  | EmptyString => ""
  | String a EmptyString => if Ascii.eqb a carriage_return then "" else s
  | String a rest => String a (drop_cr rest)
  end.

(** The text of each line; a final newline starts no further line. *)
Fixpoint split_lines (line : string) (s : string) : list string :=
  match s with
  | EmptyString => if String.eqb line "" then [] else [line]
  | String a rest =>
      if Ascii.eqb a newline then line :: split_lines "" rest
      else split_lines (line +:+ String a "") rest
  end.

(** [ErrTooLong] when a line fills the buffer. *)
Definition scan_lines (s : string) : result (list string) :=
  let lines := split_lines "" s in
  if forallb (λ l, (String.length l <? MaxScanTokenSize)%nat) lines then Ok (drop_cr <$> lines)
  else Err (EText "bufio.Scanner: token too long").

Example strings_work :
  TrimSpace "  a b  " = "a b" ∧ TrimSpace (String newline (String (byte 194) (String (byte 160) "x"))) = "x"
  ∧ ReplaceAll "aXbX" "X" "--" = "a--b--" ∧ ReplaceAll "ab" "" "-" = "-a-b-"
  ∧ HasSuffix "1_a.sql" ".sql" = true ∧ without_ext "1_a.sql" = "1_a" ∧ before_underscore "1_a_b" = "1"
  ∧ ParseInt "00017" = Some 17 ∧ ParseInt "-9223372036854775808" = Some (- two63)
  ∧ ParseInt "9223372036854775808" = None ∧ ParseInt "1x" = None ∧ ParseInt "" = None
  ∧ ToUpper "drop tAble 1" = "DROP TABLE 1" ∧ ToLower "StAtus" = "status"
  ∧ scan_lines ("a" +:+ String carriage_return (String newline (String newline "b"))) = Ok ["a"; ""; "b"].
Proof. split_and!; reflexivity. Qed.

(** ** [TrimSpace] is idempotent *)

(** A space rune is recognised by its own bytes. *)
Lemma space_len_app u x : space_len u ≠ 0%nat → space_len (u +:+ x) = space_len u.
Proof.
  destruct u as [|a [|b [|c u]]]; [done|..|done];
    [change (String a "" +:+ x) with (String a x)|change (String a (String b "") +:+ x) with (String a (String b x))];
    unfold space_len; cbv zeta; repeat case_match; done.
Qed.

Lemma space_len_le u : (space_len u ≤ String.length u)%nat.
Proof.
  destruct u as [|a [|b [|c u]]]; unfold space_len; cbv zeta; repeat case_match; cbn; lia.
Qed.

Lemma blank_from_app k u b : (k ≤ String.length u)%nat → blank_from k u = true → blank b = true →
  blank_from k (u +:+ b) = true.
Proof.
  intros Hk Hu Hb. revert k Hk Hu. induction u as [|a u IH]; intros k Hk Hu.
  - cbn in Hk. assert (k = 0%nat) as -> by lia. exact Hb.
  - pose proof (space_len_le (String a u)) as Hle. pose proof (space_len_app (String a u) b) as Hs.
    change (String a u +:+ b) with (String a (u +:+ b)) in *. cbn [String.length] in *. cbn [blank_from] in *. destruct k as [|k].
    + destruct (space_len (String a u)) as [|k]; [done|]. rewrite Hs by done. apply IH; [lia|done].
    + apply IH; [lia|done].
Qed.

(** What [trim_right] drops is blank. *)
Lemma trim_right_app s : ∃ b, s = trim_right s +:+ b ∧ blank b = true.
Proof.
  induction s as [|a s (b & Hs & Hb)]; [by exists ""|]. cbn [trim_right].
  destruct (blank (String a s)) eqn:Hbl; [by exists (String a s)|]. exists b. split; [|done].
  change (String a (trim_right s) +:+ b) with (String a (trim_right s +:+ b)). by rewrite <- Hs.
Qed.

Lemma trim_right_idem s : trim_right (trim_right s) = trim_right s.
Proof.
  induction s as [|a s IH]; [done|]. cbn [trim_right]. destruct (blank (String a s)) eqn:Hbl; [done|].
  cbn [trim_right]. destruct (blank (String a (trim_right s))) eqn:Hu; [|by rewrite IH].
  destruct (trim_right_app s) as (b & Hs & Hb). exfalso.
  assert (blank (String a (trim_right s) +:+ b) = true) as Hx by (apply blank_from_app; [lia|done|done]).
  change (String a (trim_right s) +:+ b) with (String a (trim_right s +:+ b)) in Hx. rewrite <- Hs in Hx. congruence.
Qed.

Lemma trim_left_start k s : trim_left k s = "" ∨ space_len (trim_left k s) = 0%nat.
Proof.
  revert k. induction s as [|a s IH]; intros k; [by left|]. cbn [trim_left]. destruct k; [|apply IH].
  destruct (space_len (String a s)) eqn:Hl; [by right|apply IH].
Qed.

Lemma trim_left_id s : space_len s = 0%nat → trim_left 0 s = s.
Proof. destruct s; [done|]. cbn [trim_left]. by intros ->. Qed.

Lemma TrimSpace_idem s : TrimSpace (TrimSpace s) = TrimSpace s.
Proof.
  unfold TrimSpace. destruct (trim_left_start 0 s) as [->|Hl]; [done|]. set (t := trim_left 0 s) in *.
  rewrite (trim_left_id (trim_right t)); [apply trim_right_idem|].
  destruct (trim_right_app t) as (b & Ht & _). destruct (decide (space_len (trim_right t) = 0%nat)) as [|Hne]; [done|].
  pose proof (space_len_app (trim_right t) b Hne) as Hs. rewrite <- Ht in Hs. congruence.
Qed.
