(* ===== verification/TableNames.v ===== *)
(** * Table names and repository construction

    backends/{sqlite,mysql,picodata}/repositories/table.go: the validation and
    quoting that stands between a configured table name and the text of every
    statement, and the constructors of the repositories that apply it
    (backends/*/repositories/{jobsrepo,jobsfailedrepo}/repo.go).

    A rune above ASCII is refused wherever it stands, so the loops over runes
    are loops over bytes. *)

From Stdlib Require Import Ascii.
From S2P Require Import Prelude GoTime Errors Retry Json GoStrings.
Open Scope Z_scope.

(** ** [strings.Split] on one byte, [strings.Trim] with one byte, [strings.Join] *)

Fixpoint split_byte (sep : ascii) (part : string) (s : string) : list string :=
  match s with
  | EmptyString => [part]
  | String a rest => if Ascii.eqb a sep then part :: split_byte sep "" rest
                     else split_byte sep (part +:+ String a "") rest
  end.
Definition Split (s : string) (sep : ascii) : list string := split_byte sep "" s.

Fixpoint trim_left_byte (c : ascii) (s : string) : string :=
  match s with
  | EmptyString => ""
  | String a rest => if Ascii.eqb a c then trim_left_byte c rest else s
  end.
Fixpoint trim_right_byte (c : ascii) (s : string) : string :=
  match s with
  | EmptyString => ""
  | String a rest =>
      match trim_right_byte c rest with
      | EmptyString => if Ascii.eqb a c then "" else String a ""
      | rest' => String a rest'
      end
  end.
Definition Trim (s : string) (c : ascii) : string := trim_right_byte c (trim_left_byte c s).

Fixpoint Join (l : list string) (sep : string) : string :=
  match l with
  | [] => ""
  | [x] => x
  | x :: l => x +:+ sep +:+ Join l sep
  end.

(** ** Quoting *)

Definition double_quote : ascii := Ascii.ascii_of_N 34.
Definition backtick : ascii := Ascii.ascii_of_N 96.
Definition dot : ascii := "."%char.

Definition letter (c : ascii) : bool := is_lower c || is_upper c || Ascii.eqb c "_"%char.
Definition word (c : ascii) : bool := letter c || is_digit c.

(** [for i, r := range p]. *)
Fixpoint check_runes (backend trimmed : string) (i : nat) (p : string) : result unit :=
  match p with
  | EmptyString => Ok tt
  | String r p =>
      if (i =? 0)%nat then
        if negb (letter r)
        then Err (EText (backend +:+ ": invalid table name " +:+ trimmed +:+ ": must start with a letter or underscore"))
        else check_runes backend trimmed (S i) p
      else
        if negb (word r)
        then Err (EText (backend +:+ ": invalid table name " +:+ trimmed +:+ ": contains invalid character"))
        else check_runes backend trimmed (S i) p
  end.

Definition quote_with (quote : ascii) (p : string) : string := String quote (p +:+ String quote "").

(** The checks of one identifier, and the identifier in quotes. *)
Definition quote_identifier (backend trimmed : string) (quote : ascii) (limit : nat) (p : string) : result string :=
  if String.eqb p "" then Err (EText (backend +:+ ": invalid table name " +:+ trimmed +:+ ": empty part"))
  else if (limit <? String.length p)%nat then Err (EText (backend +:+ ": table identifier exceeds the length limit"))
  else _ ← check_runes backend trimmed 0 p; Ok (quote_with quote p).

Fixpoint quote_parts (backend trimmed : string) (quote : ascii) (limit : nat) (parts : list string) : result (list string) :=
  match parts with
  | [] => Ok []
  | part :: parts =>
      q ← quote_identifier backend trimmed quote limit (Trim (TrimSpace part) quote);
      qs ← quote_parts backend trimmed quote limit parts;
      Ok (q :: qs)
  end.

(** One or two identifiers. *)
Definition quote_qualified (backend : string) (quote : ascii) (limit : nat) (name : string) : result string :=
  let trimmed := TrimSpace name in
  if String.eqb trimmed "" then Err (EText (backend +:+ ": table name is empty"))
  else
    let parts := Split trimmed dot in
    if (2 <? length parts)%nat
    then Err (EText (backend +:+ ": invalid table name " +:+ trimmed +:+ ": too many schema parts"))
    else quotedParts ← quote_parts backend trimmed quote limit parts; Ok (Join quotedParts ".").

Module SqliteTable.
Definition ValidateAndQuoteTableName (name : string) : result string :=
  quote_qualified "sqlite" double_quote 1000 name.
End SqliteTable.

Module MysqlTable.
Definition ValidateAndQuoteTableName (name : string) : result string :=
  quote_qualified "mysql" backtick 64 name.
End MysqlTable.

Module PicodataTable.
Definition ValidateAndQuoteTableName (name : string) : result string :=
  let trimmed := TrimSpace name in
  if String.eqb trimmed "" then Err (EText "picodata: table name is empty")
  else quote_identifier "picodata" trimmed double_quote 64 (Trim trimmed double_quote).
End PicodataTable.

Example quoting_works :
  SqliteTable.ValidateAndQuoteTableName " main.jobs " = Ok (quote_with double_quote "main" +:+ "." +:+ quote_with double_quote "jobs")
  ∧ MysqlTable.ValidateAndQuoteTableName "jobs" = Ok (quote_with backtick "jobs")
  ∧ is_Ok (SqliteTable.ValidateAndQuoteTableName "jobs; drop table jobs") = false
  ∧ is_Ok (SqliteTable.ValidateAndQuoteTableName "a.b.c") = false
  ∧ is_Ok (PicodataTable.ValidateAndQuoteTableName "a.b") = false
  ∧ PicodataTable.ValidateAndQuoteTableName (quote_with double_quote "_t1") = Ok (quote_with double_quote "_t1").
Proof. split_and!; vm_compute; reflexivity. Qed.

(** ** What the quoting guarantees *)

Definition identifier (p : string) : bool :=
  match p with EmptyString => false | String a rest => letter a && all_bytes word rest end.

(** The bytes of a rendered name are neither white space nor the start of an
    encoded one. *)
Definition plain (c : ascii) : bool :=
  word c || Ascii.eqb c dot || Ascii.eqb c double_quote || Ascii.eqb c backtick.

Lemma plain_space c rest : plain c = true → space_len (String c rest) = 0%nat.
Proof.
  intros Hc. unfold space_len. assert (∃ n, Ascii.N_of_ascii c = n ∧ (33 <= n < 128)%N) as (n & -> & Hn).
  { exists (Ascii.N_of_ascii c). split; [done|]. revert Hc.
    destruct c as [[] [] [] [] [] [] [] []]; vm_compute; (done || (intros; split; congruence)). }
  rewrite (proj2 (N.leb_gt n 13)), (proj2 (N.eqb_neq n 32)), andb_false_r by lia. cbn.
  rewrite (proj2 (N.eqb_neq n 194)), (proj2 (N.eqb_neq n 225)), (proj2 (N.eqb_neq n 226)), (proj2 (N.eqb_neq n 227)) by lia.
  cbn. by destruct rest as [|? [|]].
Qed.

Lemma TrimSpace_plain s : all_bytes plain s = true → TrimSpace s = s.
Proof.
  intros Hs. unfold TrimSpace.
  assert (trim_left 0 s = s) as ->.
  { destruct s as [|a rest]; [done|]. cbn [all_bytes] in Hs. apply andb_true_iff in Hs as [Ha _].
    cbn [trim_left]. by rewrite plain_space. }
  induction s as [|a rest IH]; [done|]. cbn [all_bytes] in Hs. apply andb_true_iff in Hs as [Ha Hr].
  cbn [trim_right]. unfold blank. cbn [blank_from]. rewrite plain_space by done. by rewrite IH.
Qed.

Lemma check_runes_later b t i p : check_runes b t (S i) p = Ok tt ↔ all_bytes word p = true.
Proof.
  revert i. induction p as [|a p IH]; intros i; [done|]. cbn. destruct (word a); cbn; [apply IH|]. split; done.
Qed.

Lemma check_runes_ok b t p : p ≠ "" → check_runes b t 0 p = Ok tt ↔ identifier p = true.
Proof.
  intros Hp. destruct p as [|a p]; [done|]. cbn [check_runes identifier Nat.eqb].
  destruct (letter a); cbn; [apply check_runes_later|]. split; done.
Qed.

Lemma identifier_nonempty p : identifier p = true → p ≠ "".
Proof. by destruct p. Qed.

Lemma quote_identifier_ok b t quote limit p q :
  quote_identifier b t quote limit p = Ok q ↔
  identifier p = true ∧ (String.length p ≤ limit)%nat ∧ q = quote_with quote p.
Proof.
  unfold quote_identifier. destruct (String.eqb_spec p "") as [->|Hp]; [split; [done|by intros [? _]]|].
  destruct (Nat.ltb_spec limit (String.length p)); [split; [done|lia]|].
  rewrite <- (check_runes_ok b t p Hp). destruct (check_runes b t 0 p) as [[]|e]; cbn; naive_solver.
Qed.

Lemma letter_word a : letter a = true → word a = true.
Proof. unfold word. by intros ->. Qed.

Lemma identifier_words p : identifier p = true → all_bytes word p = true.
Proof. destruct p as [|a p]; [done|]. cbn. intros [Ha Hp]%andb_true_iff. by rewrite letter_word. Qed.

(** Neither quote nor dot is a word byte. *)
Lemma word_not c d : word d = false → word c = true → Ascii.eqb c d = false.
Proof. intros Hd Hc. apply Ascii.eqb_neq. intros ->. congruence. Qed.

Lemma append_nil_r (s : string) : s +:+ "" = s.
Proof. induction s as [|a s IH]; [done|]. change (String a (s +:+ "") = String a s). by rewrite IH. Qed.

Lemma append_assoc (s t u : string) : (s +:+ t) +:+ u = s +:+ (t +:+ u).
Proof. induction s as [|a s IH]; [done|]. change (String a ((s +:+ t) +:+ u) = String a (s +:+ (t +:+ u))). by rewrite IH. Qed.

Section trimming.
Context (quote : ascii) (Hquote : word quote = false).

Lemma trim_right_word p s : all_bytes word p = true → trim_right_byte quote s = "" →
  trim_right_byte quote (p +:+ s) = p.
Proof.
  intros Hp Hs. induction p as [|a p IH]; [done|]. cbn in Hp. apply andb_true_iff in Hp as [Ha Hp].
  change (String a p +:+ s) with (String a (p +:+ s)). cbn [trim_right_byte]. rewrite IH by done.
  destruct p; [|done]. by rewrite (word_not a quote).
Qed.

Lemma Trim_identifier p : identifier p = true → Trim p quote = p ∧ Trim (quote_with quote p) quote = p.
Proof.
  intros Hid. pose proof (identifier_words p Hid) as Hw.
  assert (∀ s, trim_left_byte quote (p +:+ s) = p +:+ s) as Hl.
  { intros s. destruct p as [|a p]; [done|]. cbn in Hw. apply andb_true_iff in Hw as [Ha _].
    change (String a p +:+ s) with (String a (p +:+ s)). cbn [trim_left_byte]. by rewrite (word_not a quote). }
  unfold Trim, quote_with. split.
  - specialize (Hl ""). rewrite append_nil_r in Hl. rewrite Hl.
    pose proof (trim_right_word p "" Hw eq_refl) as Ht. by rewrite append_nil_r in Ht.
  - cbn [trim_left_byte]. rewrite Ascii.eqb_refl, Hl. apply trim_right_word; [done|]. cbn. by rewrite Ascii.eqb_refl.
Qed.
End trimming.

(** ** Splitting a rendered name *)

Lemma split_byte_word sep part x s : all_bytes (λ c, negb (Ascii.eqb c sep)) x = true →
  split_byte sep part (x +:+ s) = split_byte sep (part +:+ x) s.
Proof.
  revert part. induction x as [|a x IH]; intros part Hx; [by rewrite append_nil_r|].
  cbn in Hx. apply andb_true_iff in Hx as [Ha Hx]. apply negb_true_iff in Ha.
  change (String a x +:+ s) with (String a (x +:+ s)). cbn [split_byte]. rewrite Ha, IH by done.
  by rewrite append_assoc.
Qed.

Lemma Split_Join_byte sep l : l ≠ [] → Forall (λ x, all_bytes (λ c, negb (Ascii.eqb c sep)) x = true) l →
  Split (Join l (String sep "")) sep = l.
Proof.
  unfold Split. intros Hne HF. induction HF as [|x l Hx HF IH]; [done|]. destruct l as [|y l].
  - cbn [Join]. rewrite <- (append_nil_r x) at 1. by rewrite split_byte_word.
  - change (Join (x :: y :: l) (String sep "")) with (x +:+ String sep (Join (y :: l) (String sep ""))).
    rewrite split_byte_word by done. cbn [split_byte]. rewrite Ascii.eqb_refl.
    change ("" +:+ x) with x. f_equal. by apply IH.
Qed.

Lemma Split_Join l : l ≠ [] → Forall (λ x, all_bytes (λ c, negb (Ascii.eqb c dot)) x = true) l →
  Split (Join l ".") dot = l.
Proof. apply (Split_Join_byte dot). Qed.

(** ** The theorem *)

(** One or, where a schema is allowed, two identifiers within the limit. *)
Definition table_ref (limit max : nat) (ids : list string) : Prop :=
  (1 ≤ length ids ≤ max)%nat ∧ Forall (λ p, identifier p = true ∧ (String.length p ≤ limit)%nat) ids.
Definition render (quote : ascii) (ids : list string) : string := Join (quote_with quote <$> ids) ".".

(** A backend's validation, its quote, its length limit and its number of
    parts. *)
Inductive quoting : (string → result string) → ascii → nat → nat → Prop :=
| quoting_sqlite : quoting SqliteTable.ValidateAndQuoteTableName double_quote 1000 2
| quoting_mysql : quoting MysqlTable.ValidateAndQuoteTableName backtick 64 2
| quoting_picodata : quoting PicodataTable.ValidateAndQuoteTableName double_quote 64 1.

Lemma Join_bytes (p : ascii → bool) l : p dot = true → Forall (λ x, all_bytes p x = true) l → all_bytes p (Join l ".") = true.
Proof.
  intros Hd HF. induction HF as [|x l Hx HF IH]; [done|]. destruct l as [|y l]; [done|].
  change (Join (x :: y :: l) ".") with (x +:+ ("." +:+ Join (y :: l) ".")).
  rewrite !all_bytes_app, Hx, IH. change (true && ((p dot && true) && true) = true). by rewrite Hd.
Qed.

Lemma quote_with_bytes (p : ascii → bool) quote x : p quote = true → all_bytes p x = true → all_bytes p (quote_with quote x) = true.
Proof.
  intros Hq Hx. unfold quote_with. change (p quote && all_bytes p (x +:+ String quote "") = true).
  rewrite all_bytes_app, Hq, Hx. cbn. by rewrite Hq.
Qed.

Section rendered.
Context (quote : ascii) (Hquote : word quote = false) (Hplain : plain quote = true) (Hdot : Ascii.eqb quote dot = false).

Lemma word_plain c : word c = true → plain c = true.
Proof. unfold plain. by intros ->. Qed.

Lemma word_dot c : word c = true → negb (Ascii.eqb c dot) = true.
Proof. intros Hc. apply negb_true_iff. by apply word_not. Qed.

(** A part that reads as the identifier [p]: as it is, or in quotes. *)
Definition reads (x p : string) : Prop := identifier p = true ∧ (x = p ∨ x = quote_with quote p).

Lemma reads_bytes x p : reads x p → all_bytes plain x = true ∧ all_bytes (λ c, negb (Ascii.eqb c dot)) x = true.
Proof.
  intros [Hid Hx]. pose proof (identifier_words p Hid) as Hw.
  pose proof (all_bytes_mono _ _ p word_plain Hw). pose proof (all_bytes_mono _ _ p word_dot Hw).
  destruct Hx as [->| ->]; [done|]. split; apply quote_with_bytes; try done. by rewrite Hdot.
Qed.

Lemma reads_part x p : reads x p → Trim (TrimSpace x) quote = p.
Proof.
  intros Hr. destruct (reads_bytes x p Hr) as [Hx _]. rewrite TrimSpace_plain by done.
  destruct Hr as [Hid [->| ->]]; by apply Trim_identifier.
Qed.

Lemma quote_parts_reads b t limit xs ids : Forall2 reads xs ids → Forall (λ p, (String.length p ≤ limit)%nat) ids →
  quote_parts b t quote limit xs = Ok (quote_with quote <$> ids).
Proof.
  induction 1 as [|x p xs ids Hx _ IH]; intros HF; [done|]. apply Forall_cons in HF as [Hp HF].
  cbn [quote_parts]. rewrite (reads_part x p Hx).
  rewrite (proj2 (quote_identifier_ok b t quote limit p (quote_with quote p))) by (split_and!; [apply Hx|done..]).
  cbn. by rewrite IH.
Qed.

Lemma quote_parts_ok b t limit xs qs : quote_parts b t quote limit xs = Ok qs →
  ∃ ids, qs = quote_with quote <$> ids ∧ length ids = length xs
  ∧ Forall (λ p, identifier p = true ∧ (String.length p ≤ limit)%nat) ids.
Proof.
  revert qs. induction xs as [|x xs IH]; intros qs; cbn [quote_parts]; [intros [= <-]; by exists []|].
  intros (q & Hq & (qs' & Hqs & [= <-])%res_bind_ok)%res_bind_ok.
  apply quote_identifier_ok in Hq as (Hid & Hlen & ->). destruct (IH _ Hqs) as (ids & -> & Hl & HF).
  exists (Trim (TrimSpace x) quote :: ids). split_and!; [done|cbn; by rewrite Hl|by constructor].
Qed.

Lemma qualified_reads b limit xs ids : (1 ≤ length ids ≤ 2)%nat → Forall2 reads xs ids →
  Forall (λ p, (String.length p ≤ limit)%nat) ids →
  quote_qualified b quote limit (Join xs ".") = Ok (render quote ids).
Proof.
  intros Hn Hr HF. pose proof (Forall2_length _ _ _ Hr) as Hlen. unfold quote_qualified.
  assert (all_bytes plain (Join xs ".") = true ∧ Forall (λ x, all_bytes (λ c, negb (Ascii.eqb c dot)) x = true) xs) as [Hp Hd].
  { split; [apply Join_bytes; [done|]|]; apply Forall_forall; intros x Hx;
      apply list_elem_of_lookup in Hx as [i Hx]; destruct (Forall2_lookup_l _ _ _ _ _ Hr Hx) as (p & _ & Hxp);
      by apply (reads_bytes x p). }
  rewrite TrimSpace_plain by done.
  assert (xs ≠ []) as Hne by (intros ->; cbn in Hlen; lia).
  destruct (String.eqb_spec (Join xs ".") "") as [He|_].
  { pose proof (Split_Join xs Hne Hd) as Hs. rewrite He in Hs. cbn in Hs. subst xs.
    inversion Hr as [|? p ? ? [Hid Hx]]; subst. destruct Hx as [<-|Hx]; [done|by destruct p]. }
  rewrite Split_Join by done. rewrite (proj2 (Nat.ltb_ge _ _)) by lia.
  by rewrite (quote_parts_reads b _ limit xs ids Hr HF).
Qed.

Lemma qualified_ok b limit name q : quote_qualified b quote limit name = Ok q →
  ∃ ids, table_ref limit 2 ids ∧ q = render quote ids.
Proof.
  unfold quote_qualified. destruct (String.eqb (TrimSpace name) ""); [done|].
  destruct (Nat.ltb_spec 2 (length (Split (TrimSpace name) dot))) as [|Hn]; [done|].
  intros (qs & Hqs & [= <-])%res_bind_ok. apply quote_parts_ok in Hqs as (ids & -> & Hlen & HF).
  exists ids. split; [|done]. split; [|done]. rewrite Hlen. split; [|done].
  clear. unfold Split. generalize "" as part. generalize (TrimSpace name) as s0. intros s0. induction s0 as [|a s IH]; intros part; cbn; [lia|].
  case_match; cbn; [lia|apply IH].
Qed.

Lemma picodata_ok b limit name q t : quote_identifier b t quote limit (Trim (TrimSpace name) quote) = Ok q →
  ∃ ids, table_ref limit 1 ids ∧ q = render quote ids.
Proof.
  intros (Hid & Hlen & ->)%quote_identifier_ok. exists [Trim (TrimSpace name) quote].
  split; [|done]. split; [cbn; lia|]. by repeat constructor.
Qed.
End rendered.

Lemma quoting_spec validate quote limit max : quoting validate quote limit max →
  (∀ name q, validate name = Ok q → ∃ ids, table_ref limit max ids ∧ q = render quote ids)
  ∧ (∀ ids, table_ref limit max ids → validate (Join ids ".") = Ok (render quote ids)
                                     ∧ validate (render quote ids) = Ok (render quote ids)).
Proof.
  assert (∀ quote limit b, word quote = false → plain quote = true → Ascii.eqb quote dot = false →
    (∀ name q, quote_qualified b quote limit name = Ok q → ∃ ids, table_ref limit 2 ids ∧ q = render quote ids)
    ∧ (∀ ids, table_ref limit 2 ids → quote_qualified b quote limit (Join ids ".") = Ok (render quote ids)
                                     ∧ quote_qualified b quote limit (render quote ids) = Ok (render quote ids))) as Hqual.
  { clear. intros quote limit b H1 H2 H3. split; [apply qualified_ok|]. intros ids [Hn HF].
    assert (Forall (λ p, (String.length p ≤ limit)%nat) ids) by (eapply Forall_impl; [exact HF|]; naive_solver).
    split; apply qualified_reads; try done.
    - clear -HF. induction HF as [|p ids [Hp _] HF IH]; constructor; [split; auto|done].
    - clear -HF. induction HF as [|p ids [Hp _] HF IH]; constructor; [split; auto|done]. }
  intros [| |]; [by apply Hqual..|]. unfold PicodataTable.ValidateAndQuoteTableName. split.
  - intros name q. destruct (String.eqb (TrimSpace name) ""); [done|]. by apply picodata_ok.
  - intros ids [Hn HF]. destruct ids as [|p [|]]; cbn in Hn; try lia. apply Forall_singleton in HF as [Hid Hlen].
    assert (∀ x, reads double_quote x p → x ≠ "" →
      (if String.eqb (TrimSpace x) "" then Err (EText "picodata: table name is empty")
       else quote_identifier "picodata" (TrimSpace x) double_quote 64 (Trim (TrimSpace x) double_quote))
      = Ok (quote_with double_quote p)) as Hx.
    { intros x Hr Hne. rewrite (reads_part double_quote eq_refl eq_refl eq_refl x p Hr).
      rewrite TrimSpace_plain by (by apply (reads_bytes double_quote eq_refl eq_refl x p Hr)). rewrite (proj2 (String.eqb_neq _ _)) by done.
      by apply quote_identifier_ok. }
    split; apply Hx; try done; [split; auto|by apply identifier_nonempty|split; auto].
Qed.

(** C37: table names reach statements only as quoted identifiers.  An accepted
    name is rendered as one identifier, or two separated by a dot where the
    backend has schemas, each in quotes: letters, digits and underscores, not
    starting with a digit, within the length limit, so no quote, space or other
    SQL text.  Rendering is stable under a second validation, and every
    reference of that shape is accepted as written or already quoted. *)
Theorem table_names_quoted validate quote limit max : quoting validate quote limit max →
  (∀ name q, validate name = Ok q → ∃ ids, table_ref limit max ids ∧ q = render quote ids)
  ∧ (∀ ids, table_ref limit max ids → validate (Join ids ".") = Ok (render quote ids)
                                     ∧ validate (render quote ids) = Ok (render quote ids)).
Proof. apply quoting_spec. Qed.

Lemma table_names_quoted_witness :
  SqliteTable.ValidateAndQuoteTableName "main.jobs" = Ok (render double_quote ["main"; "jobs"])
  ∧ SqliteTable.ValidateAndQuoteTableName (render double_quote ["main"; "jobs"]) = Ok (render double_quote ["main"; "jobs"]).
Proof.
  refine (proj2 (table_names_quoted _ _ _ _ quoting_sqlite) ["main"; "jobs"] _).
  split; [cbn; lia|]. repeat constructor; vm_compute; lia.
Defined.

(** ** Repository construction *)

(** A client is the handle a constructor is given; the nil interface is
    [None].  A nil option is skipped. *)
Section repositories.
Context {Client : Type}.

Fixpoint apply_opts {A} (opts : list (option (A → A))) (cfg : A) : A :=
  match opts with
  | [] => cfg
  | Some opt :: opts => apply_opts opts (opt cfg)
  | None :: opts => apply_opts opts cfg
  end.

Record jobs_config : Type := mkJobsConfig { cfg_tableName : string; cfg_idempotencyTableName : string }.
Definition WithJobsTable (tableName : string) (c : jobs_config) : jobs_config :=
  mkJobsConfig tableName (cfg_idempotencyTableName c).
Definition WithIdempotencyTable (tableName : string) (c : jobs_config) : jobs_config :=
  mkJobsConfig (cfg_tableName c) tableName.

Record JobsRepo : Type := mkJobsRepo { jr_client : Client; jr_tableName : string; jr_idempotencyTableName : string }.
Record FailedRepo : Type := mkFailedRepo { fr_client : Client; fr_tableName : string }.

Definition new_jobs_repo (backend : string) (validate : string → result string) (client : option Client)
    (opts : list (option (jobs_config → jobs_config))) : result JobsRepo :=
  match client with
  | None => Err (EText (backend +:+ " jobsrepo: client is nil"))
  | Some client =>
      let cfg := apply_opts opts (mkJobsConfig "jobs" "outbox_job_idempotency_keys") in
      quotedTable ← res_map_err (wrapf "jobs table") (validate (cfg_tableName cfg));
      quotedIdempTable ← res_map_err (wrapf "idempotency table") (validate (cfg_idempotencyTableName cfg));
      Ok (mkJobsRepo client quotedTable quotedIdempTable)
  end.

(** The repositories over one table. *)
Definition WithTable (tableName : string) (_ : string) : string := tableName.
Definition new_table_repo (nil_client : string) (default_table : string) (validate : string → result string)
    (client : option Client) (opts : list (option (string → string))) : result FailedRepo :=
  match client with
  | None => Err (EText nil_client)
  | Some client =>
      quoted ← validate (apply_opts opts default_table);
      Ok (mkFailedRepo client quoted)
  end.

Definition must {A} (text : string) (r : result A) : callback A :=
  match r with Ok repo => Returns repo | Err e => Panics (Error (wrapf text e)) end.

Definition sqlite_jobs_New := new_jobs_repo "sqlite" SqliteTable.ValidateAndQuoteTableName.
Definition sqlite_jobs_Must client opts := must "fatal sqlite jobs repo" (sqlite_jobs_New client opts).
Definition sqlite_failed_New :=
  new_table_repo "sqlite jobsfailedrepo: client is nil" "jobs_failed" SqliteTable.ValidateAndQuoteTableName.
Definition sqlite_failed_Must client opts := must "fatal sqlite jobs failed repo" (sqlite_failed_New client opts).
Definition mysql_jobs_New := new_jobs_repo "mysql" MysqlTable.ValidateAndQuoteTableName.
Definition mysql_jobs_Must client opts := must "fatal mysql jobs repo" (mysql_jobs_New client opts).
Definition mysql_failed_New :=
  new_table_repo "mysql jobsfailedrepo: client is nil" "jobs_failed" MysqlTable.ValidateAndQuoteTableName.
Definition mysql_failed_Must client opts := must "fatal mysql jobs failed repo" (mysql_failed_New client opts).
Definition picodata_jobs_New :=
  new_table_repo "picodata jobsrepo: client is nil" "outbox_jobs" PicodataTable.ValidateAndQuoteTableName.
Definition picodata_jobs_Must client opts := must "fatal jobs repo" (picodata_jobs_New client opts).
Definition picodata_failed_New :=
  new_table_repo "picodata jobsfailedrepo: client is nil" "outbox_jobs_failed" PicodataTable.ValidateAndQuoteTableName.
Definition picodata_failed_Must client opts := must "fatal jobs failed repo" (picodata_failed_New client opts).

(** PostgreSQL repositories take no table name. *)
Definition pg_New (client : option Client) : result Client :=
  match client with None => Err (EText "pgsql client is required") | Some client => Ok client end.
Definition pg_Must (client : option Client) : callback Client := must "fatal user repo" (pg_New client).

(** The default configurations of every backend are accepted. *)
Lemma sqlite_jobs_default client :
  sqlite_jobs_New (Some client) [] =
  Ok (mkJobsRepo client (render double_quote ["jobs"]) (render double_quote ["outbox_job_idempotency_keys"])).
Proof. reflexivity. Qed.
Lemma sqlite_failed_default client :
  sqlite_failed_New (Some client) [] = Ok (mkFailedRepo client (render double_quote ["jobs_failed"])).
Proof. reflexivity. Qed.
Lemma mysql_jobs_default client :
  mysql_jobs_New (Some client) [] =
  Ok (mkJobsRepo client (render backtick ["jobs"]) (render backtick ["outbox_job_idempotency_keys"])).
Proof. reflexivity. Qed.
Lemma mysql_failed_default client :
  mysql_failed_New (Some client) [] = Ok (mkFailedRepo client (render backtick ["jobs_failed"])).
Proof. reflexivity. Qed.
End repositories.
