(* ===== verification/Statements.v ===== *)
(** * Statement texts of SQLite and MySQL

    The statements of backends/{sqlite,mysql}/repositories/jobsrepo/api.go whose
    text depends on how many jobs they are about: a text with question marks
    and a list of arguments, put together separately.  What the statements do
    to the tables is in [DbSql], [DbUnique], [SqliteJobs] and [MysqlJobs]. *)

From Stdlib Require Import Ascii.
From S2P Require Import Prelude GoTime Errors Models GoStrings TableNames.
Open Scope Z_scope.

Module Statements.

(** What is bound to a placeholder. *)
Inductive Arg : Type :=
| AJob (id : JobID)
| AToken (t : LeaseToken)
| AKind (k : BatchJobOutcomeKind)
| AText (s : string)
| ANum (n : Z)
| ATime (t : Z)
| ANull.

(** [fmt.Sprintf] with %s verbs only. *)
Fixpoint Sprintf (f : string) (args : list string) : string :=
  match f with
  | EmptyString => ""
  | String a rest =>
      match rest with
      | String b rest' =>
          if Ascii.eqb a "%"%char && Ascii.eqb b "s"%char then
            match args with
            | x :: args => x +:+ Sprintf rest' args
            | [] => "%!s(MISSING)" +:+ Sprintf rest' []
            end
          else String a (Sprintf rest args)
      | EmptyString => f
      end
  end.

(** shared/strings/strings.go *)
Definition Concate (query tableName : string) : string := Sprintf query [tableName].

(** [strings.Repeat], and [strings.TrimSuffix] of one byte. *)
Fixpoint Repeat (s : string) (count : nat) : string :=
  match count with O => "" | S count => s +:+ Repeat s count end.
Fixpoint TrimSuffix (s : string) (c : ascii) : string :=
  match s with
  | EmptyString => ""
  | String a EmptyString => if Ascii.eqb a c then "" else s
  | String a rest => String a (TrimSuffix rest c)
  end.

Definition sqlPlaceholders (count : nat) : string := TrimSuffix (Repeat "?," count) ","%char.
Definition sqlValueRows (count width : nat) : string :=
  let row := "(" +:+ sqlPlaceholders width +:+ ")" in
  Join (replicate count row) ",".

Definition jobColumns : list string :=
  ["id"; "queue"; "name"; "schema_version"; "payload"; "attempts"; "reserved_at"; "lease_token";
   "deduplication_key"; "available_at"; "created_at"].
Definition defaultQueue : string := "queue".

(** A put with its generated id, fingerprint and creation time. *)
Record preparedUniqueBatchPut : Type := mkPrepared {
  pr_put : UniqueBatchPut;
  pr_jobID : JobID;
  pr_fingerprint : string;
  pr_createdAt : Z
}.

Definition Statement : Type := string * list Arg.

(** ** Texts the two backends share

    [stamp] is how a time is passed: SQLite stores milliseconds, MySQL times. *)
Section shared.
Context (stamp : Z → Arg).

Definition extend_statement (table : string) (jobIDs : list JobID) (leaseToken : LeaseToken) (now until : Z) : Statement :=
  (Sprintf "UPDATE %s SET reserved_at = ?
		WHERE id IN (%s) AND lease_token = ? AND reserved_at > ?;"
     [table; sqlPlaceholders (length jobIDs)],
   [stamp until] ++ (AJob <$> jobIDs) ++ [AToken leaseToken; stamp now]).

Definition release_statement (table : string) (jobIDs : list JobID) (leaseToken : LeaseToken) (now : Z) : Statement :=
  (Sprintf "UPDATE %s
		SET attempts = attempts - 1, reserved_at = NULL, lease_token = ?
		WHERE id IN (%s) AND lease_token = ? AND reserved_at > ? AND attempts > 0;"
     [table; sqlPlaceholders (length jobIDs)],
   [AToken LeaseTokenNil] ++ (AJob <$> jobIDs) ++ [AToken leaseToken; stamp now]).

Definition claimed_statement (table : string) (jobIDs : list JobID) (leaseToken : LeaseToken) : Statement :=
  (Sprintf "SELECT %s FROM %s
		WHERE id IN (%s) AND lease_token = ?
		ORDER BY available_at, created_at, id;"
     [Join jobColumns ", "; table; sqlPlaceholders (length jobIDs)],
   (AJob <$> jobIDs) ++ [AToken leaseToken]).

Definition register_keys_statement (on_conflict table : string) (prepared : list preparedUniqueBatchPut) : Statement :=
  (Concate "INSERT INTO %s
		(deduplication_key, job_id, fingerprint, created_at) VALUES " table
     +:+ sqlValueRows (length prepared) 4 +:+ on_conflict,
   prepared ≫= λ item, [AText (p_DeduplicationKey (pr_put item)); AJob (pr_jobID item); AText (pr_fingerprint item);
                        stamp (pr_createdAt item)]).

Definition load_keys_statement (table : string) (prepared : list preparedUniqueBatchPut) : Statement :=
  (Sprintf ("SELECT deduplication_key, job_id, fingerprint
		FROM %s WHERE deduplication_key IN ("
     +:+ sqlPlaceholders (length prepared) +:+ ");") [table],
   (λ item, AText (p_DeduplicationKey (pr_put item))) <$> prepared).

Definition insert_jobs_statement (table : string) (created : list preparedUniqueBatchPut) : Statement :=
  (Concate "INSERT INTO %s (
		id, queue, name, schema_version, payload, attempts, reserved_at,
		lease_token, deduplication_key, available_at, created_at
	) VALUES " table
     +:+ sqlValueRows (length created) 11 +:+ ";",
   created ≫= λ item, [AJob (pr_jobID item); AText defaultQueue; AText (p_Name (pr_put item));
     ANum (p_SchemaVersion (pr_put item)); AText (p_Payload (pr_put item)); ANum 0; ANull; AToken LeaseTokenNil;
     AText (p_DeduplicationKey (pr_put item)); stamp (p_AvailableAt (pr_put item)); stamp (pr_createdAt item)]).

(** The arguments of a list of outcomes, and what the settlements append. *)
Definition outcome_args (outcomes : list BatchJobOutcome) : list Arg :=
  outcomes ≫= λ o, [AJob (o_JobID o); AKind (o_Kind o); stamp (o_AvailableAt o)].
Definition terminal_args (leaseToken : LeaseToken) (now : Z) : list Arg :=
  [AKind BatchJobOutcomeSuccess; AKind BatchJobOutcomeDLQ; AToken leaseToken; stamp now].
Definition retry_args (leaseToken : LeaseToken) (now : Z) : list Arg :=
  [AKind BatchJobOutcomeDefer; AToken LeaseTokenNil; AKind BatchJobOutcomeRetry; AKind BatchJobOutcomeDefer;
   AToken leaseToken; stamp now].
End shared.

(** ** SQLite *)

Definition millis (t : Z) : Arg := ANum (UnixMilli t).

Definition sqlite_reserve_statement (table : string) (jobIDs : list JobID) (leaseToken : LeaseToken) (until : Z) : Statement :=
  (Sprintf "UPDATE %s
		SET attempts = attempts + 1, reserved_at = ?, lease_token = ?
		WHERE id IN (%s);"
     [table; sqlPlaceholders (length jobIDs)],
   [millis until; AToken leaseToken] ++ (AJob <$> jobIDs)).

Definition sqliteBatchOutcomeInput (outcomes : list BatchJobOutcome) : string * list Arg :=
  ("WITH input(job_id, kind, available_at) AS (VALUES " +:+ Join (replicate (length outcomes) "(?, ?, ?)") ", " +:+ ")",
   outcome_args millis outcomes).

Definition sqlite_terminal_statement (table : string) (leaseToken : LeaseToken) (now : Z) (outcomes : list BatchJobOutcome) :
    Statement :=
  let '(inputSQL, args) := sqliteBatchOutcomeInput outcomes in
  (Sprintf "%s
	DELETE FROM %s
	WHERE id IN (SELECT job_id FROM input WHERE kind IN (?, ?))
		AND lease_token = ? AND reserved_at > ?;"
     [inputSQL; table], args ++ terminal_args millis leaseToken now).

Definition sqlite_retry_statement (table : string) (leaseToken : LeaseToken) (now : Z) (outcomes : list BatchJobOutcome) :
    Statement :=
  let '(inputSQL, args) := sqliteBatchOutcomeInput outcomes in
  (Sprintf "%s
	UPDATE %s
	SET attempts = CASE
			WHEN (SELECT kind FROM input WHERE input.job_id = %s.id) = ? THEN attempts - 1
			ELSE attempts
		END,
		available_at = (SELECT available_at FROM input WHERE input.job_id = %s.id),
		reserved_at = NULL,
		lease_token = ?
	WHERE id IN (SELECT job_id FROM input WHERE kind IN (?, ?))
		AND lease_token = ? AND reserved_at > ? AND attempts > 0;"
     [inputSQL; table; table; table], args ++ retry_args millis leaseToken now).

(** ** MySQL *)

Definition mysql_reserve_statement (table : string) (jobIDs : list JobID) (leaseToken : LeaseToken) (now until : Z) : Statement :=
  (Sprintf "UPDATE %s FORCE INDEX (PRIMARY)
		SET attempts = attempts + 1, reserved_at = ?, lease_token = ?
		WHERE id IN (%s)
			AND available_at <= ? AND (reserved_at IS NULL OR reserved_at <= ?);"
     [table; sqlPlaceholders (length jobIDs)],
   [ATime until; AToken leaseToken] ++ (AJob <$> jobIDs) ++ [ATime now; ATime now]).

Definition outcome_row (index : nat) : string :=
  if (index =? 0)%nat then "SELECT ? AS job_id, ? AS kind, ? AS available_at" else "SELECT ?, ?, ?".
Definition mysqlBatchOutcomeInput (outcomes : list BatchJobOutcome) : string * list Arg :=
  (Join (outcome_row <$> seq 0 (length outcomes)) " UNION ALL ", outcome_args ATime outcomes).

Definition mysql_terminal_statement (table : string) (leaseToken : LeaseToken) (now : Z) (outcomes : list BatchJobOutcome) :
    Statement :=
  let '(inputSQL, args) := mysqlBatchOutcomeInput outcomes in
  (Sprintf "DELETE job FROM %s AS job
		JOIN (%s) AS input ON input.job_id = job.id
		WHERE input.kind IN (?, ?) AND job.lease_token = ? AND job.reserved_at > ?;"
     [table; inputSQL], args ++ terminal_args ATime leaseToken now).

Definition mysql_retry_statement (table : string) (leaseToken : LeaseToken) (now : Z) (outcomes : list BatchJobOutcome) :
    Statement :=
  let '(inputSQL, args) := mysqlBatchOutcomeInput outcomes in
  (Sprintf "UPDATE %s AS job
		JOIN (%s) AS input ON input.job_id = job.id
		SET job.attempts = CASE WHEN input.kind = ? THEN job.attempts - 1 ELSE job.attempts END,
			job.available_at = input.available_at, job.reserved_at = NULL, job.lease_token = ?
		WHERE input.kind IN (?, ?) AND job.lease_token = ?
			AND job.reserved_at > ? AND job.attempts > 0;"
     [table; inputSQL], args ++ retry_args ATime leaseToken now).

Definition sqlite_on_conflict : string := " ON CONFLICT(deduplication_key) DO NOTHING;".
Definition mysql_on_conflict : string := " ON DUPLICATE KEY UPDATE deduplication_key = VALUES(deduplication_key);".

Example statement_works :
  extend_statement ATime "t" [7%N; 8%N] 3%N 1 5
  = ("UPDATE t SET reserved_at = ?
		WHERE id IN (?,?) AND lease_token = ? AND reserved_at > ?;",
     [ATime 5; AJob 7; AJob 8; AToken 3; ATime 1]).
Proof. reflexivity. Qed.

(** ** Placeholders *)

Definition mark : ascii := "?"%char.
Fixpoint marks (s : string) : nat :=
  match s with EmptyString => 0 | String a s => (if Ascii.eqb a mark then 1 else 0) + marks s end.
(** The verbs of a format. *)
Fixpoint verbs (f : string) : nat :=
  match f with
  | EmptyString => 0
  | String a rest =>
      match rest with
      | String b rest' => if Ascii.eqb a "%"%char && Ascii.eqb b "s"%char then S (verbs rest') else verbs rest
      | EmptyString => 0
      end
  end.

Lemma marks_app s t : marks (s +:+ t) = (marks s + marks t)%nat.
Proof. induction s as [|a s IH]; [done|]. change (String a s +:+ t) with (String a (s +:+ t)). cbn [marks]. rewrite IH. lia. Qed.

Lemma marks_none s : all_bytes (λ c, negb (Ascii.eqb c mark)) s = true → marks s = 0%nat.
Proof. induction s as [|a s IH]; [done|]. cbn. intros [->%negb_true_iff Hs]%andb_true_iff. by apply IH. Qed.

Lemma string_ind2 (P : string → Prop) : P "" → (∀ a, P (String a "")) →
  (∀ a b s, P s → P (String b s) → P (String a (String b s))) → ∀ s, P s.
Proof.
  intros H0 H1 H2 s. enough (P s ∧ ∀ a, P (String a s)) as [? _] by done.
  induction s as [|b s [IH1 IH2]]; [by split|]. split; [apply IH2|]. intros a. apply H2; [done|apply IH2].
Qed.

(** A format with as many texts as verbs: nothing else is printed. *)
Lemma marks_Sprintf f args : verbs f = length args → marks (Sprintf f args) = (marks f + sum_list (marks <$> args))%nat.
Proof.
  revert args. induction f as [|a|a b f IH1 IH2] using string_ind2; intros args Hv.
  - by destruct args.
  - destruct args; [|done]. cbn. lia.
  - change (verbs (String a (String b f))) with (if Ascii.eqb a "%"%char && Ascii.eqb b "s"%char then S (verbs f) else verbs (String b f)) in Hv.
    change (Sprintf (String a (String b f)) args) with
      (if Ascii.eqb a "%"%char && Ascii.eqb b "s"%char then
         match args with x :: args => x +:+ Sprintf f args | [] => "%!s(MISSING)" +:+ Sprintf f [] end
       else String a (Sprintf (String b f) args)).
    destruct (Ascii.eqb a "%"%char && Ascii.eqb b "s"%char) eqn:Hab.
    + destruct args as [|x args]; [done|]. injection Hv as Hv. rewrite marks_app, IH1 by done.
      apply andb_true_iff in Hab as [->%Ascii.eqb_eq ->%Ascii.eqb_eq]. cbn. lia.
    + cbn [marks]. rewrite IH2 by done. cbn [marks]. lia.
Qed.

Lemma Sprintf_cons a b f args : Sprintf (String a (String b f)) args =
  if Ascii.eqb a "%"%char && Ascii.eqb b "s"%char then
    match args with x :: args => x +:+ Sprintf f args | [] => "%!s(MISSING)" +:+ Sprintf f [] end
  else String a (Sprintf (String b f) args).
Proof. reflexivity. Qed.
Lemma verbs_cons a b f : verbs (String a (String b f)) =
  if Ascii.eqb a "%"%char && Ascii.eqb b "s"%char then S (verbs f) else verbs (String b f).
Proof. reflexivity. Qed.

Lemma Sprintf_none g args : verbs g = 0%nat → Sprintf g args = g.
Proof.
  induction g as [|a|a b g IH1 IH2] using string_ind2; [done|done|].
  rewrite verbs_cons, Sprintf_cons. destruct (_ && _); [done|]. intros Hg. by rewrite IH2.
Qed.

(** A format in two parts, the second not starting with an s. *)
Definition no_s (g : string) : bool := match g with String c _ => negb (Ascii.eqb c "s"%char) | EmptyString => true end.

Lemma Sprintf_app f g t1 t2 : verbs f = length t1 → no_s g = true → Sprintf (f +:+ g) (t1 ++ t2) = Sprintf f t1 +:+ Sprintf g t2.
Proof.
  intros Hv Hs. revert t1 Hv. induction f as [|a|a b f IH1 IH2] using string_ind2; intros t1 Hv.
  - by destruct t1.
  - destruct t1; [|done]. change (String a "" +:+ g) with (String a g). cbn [app].
    change (Sprintf (String a "") [] +:+ Sprintf g t2) with (String a (Sprintf g t2)).
    destruct g as [|b g]; [done|]. apply negb_true_iff in Hs. by rewrite Sprintf_cons, Hs, andb_false_r.
  - change (String a (String b f) +:+ g) with (String a (String b (f +:+ g))). rewrite Sprintf_cons. rewrite verbs_cons in Hv.
    rewrite (Sprintf_cons a b f). destruct (_ && _).
    + destruct t1 as [|x t1]; [done|]. injection Hv as Hv. cbn [app]. rewrite IH1 by done. by rewrite append_assoc.
    + specialize (IH2 t1 Hv). change (String b f +:+ g) with (String b (f +:+ g)) in IH2. by rewrite IH2.
Qed.

(** ** Counting *)

Lemma marks_placeholders n : marks (sqlPlaceholders n) = n.
Proof.
  unfold sqlPlaceholders. assert (∀ m, TrimSuffix (Repeat "?," (S m)) ","%char = Repeat "?," m +:+ "?") as Htrim.
  { induction m as [|m IH]; [done|]. change (Repeat "?," (S (S m))) with (String "?"%char (String ","%char (Repeat "?," (S m)))).
    change (Repeat "?," (S m) +:+ "?") with (String "?"%char (String ","%char (Repeat "?," m +:+ "?"))). by rewrite <- IH. }
  destruct n as [|n]; [done|]. rewrite Htrim, marks_app. cbn. enough (marks (Repeat "?," n) = n) by lia.
  clear. induction n as [|n IH]; [done|]. change (Repeat "?," (S n)) with (String "?"%char (String ","%char (Repeat "?," n))).
  cbn [marks]. by rewrite IH.
Qed.

Lemma marks_Join l sep k : marks sep = 0%nat → Forall (λ x, marks x = k) l → marks (Join l sep) = (length l * k)%nat.
Proof.
  intros Hsep HF. induction HF as [|x l Hx HF IH]; [done|]. destruct l as [|y l]; [cbn; lia|].
  change (Join (x :: y :: l) sep) with (x +:+ (sep +:+ Join (y :: l) sep)). rewrite !marks_app, IH, Hsep, Hx. cbn. lia.
Qed.

Lemma marks_rows n w : marks (sqlValueRows n w) = (n * w)%nat.
Proof.
  unfold sqlValueRows. rewrite (marks_Join _ _ w), length_replicate; [done|done|].
  apply Forall_replicate. rewrite !marks_app, marks_placeholders. cbn. lia.
Qed.

Lemma marks_sqlite_input outcomes : marks (sqliteBatchOutcomeInput outcomes).1 = (length outcomes * 3)%nat.
Proof.
  unfold sqliteBatchOutcomeInput. cbn [fst]. rewrite !marks_app, (marks_Join _ _ 3), length_replicate; [cbn; lia|done|].
  by apply Forall_replicate.
Qed.

Lemma marks_mysql_input outcomes : marks (mysqlBatchOutcomeInput outcomes).1 = (length outcomes * 3)%nat.
Proof.
  unfold mysqlBatchOutcomeInput. cbn [fst]. rewrite (marks_Join _ _ 3), length_fmap, length_seq; [done|done|].
  apply Forall_fmap, Forall_forall. intros i _. unfold compose, outcome_row. by destruct (i =? 0)%nat.
Qed.

Lemma length_bind_const {A} (f : A → list Arg) l k : (∀ x, length (f x) = k) → length (l ≫= f) = (length l * k)%nat.
Proof. intros Hf. induction l as [|x l IH]; [done|]. rewrite bind_cons, length_app, IH, Hf. cbn. lia. Qed.

(** An accepted table name holds no placeholder. *)
Definition accepted (table : string) : Prop :=
  (∃ name, SqliteTable.ValidateAndQuoteTableName name = Ok table) ∨ (∃ name, MysqlTable.ValidateAndQuoteTableName name = Ok table).

Lemma render_marks quote ids : Ascii.eqb quote mark = false → Forall (λ p, identifier p = true) ids → marks (render quote ids) = 0%nat.
Proof.
  intros Hq HF. apply marks_none, Join_bytes; [done|]. apply Forall_fmap. eapply Forall_impl; [exact HF|]. intros p Hp.
  apply quote_with_bytes; [by rewrite Hq|]. eapply all_bytes_mono; [|by apply identifier_words].
  intros c Hc. apply negb_true_iff. by apply word_not.
Qed.

Lemma accepted_marks table : accepted table → marks table = 0%nat.
Proof.
  intros [[name Hn]|[name Hn]]; [apply (quoting_spec _ _ _ _ quoting_sqlite) in Hn|apply (quoting_spec _ _ _ _ quoting_mysql) in Hn];
    destruct Hn as (ids & [_ HF] & ->); apply render_marks; try done; eapply Forall_impl; try exact HF; naive_solver.
Qed.

Lemma verbs_none g : all_bytes (λ c, negb (Ascii.eqb c "%"%char)) g = true → verbs g = 0%nat.
Proof.
  induction g as [|a|a b g IH1 IH2] using string_ind2; [done|done|]. rewrite verbs_cons. cbn [all_bytes].
  intros [->%negb_true_iff Hg]%andb_true_iff. by apply IH2.
Qed.

Lemma placeholders_bytes (p : ascii → bool) n : p "?"%char = true → p ","%char = true → all_bytes p (sqlPlaceholders n) = true.
Proof.
  intros Hq Hc. unfold sqlPlaceholders.
  assert (∀ s c, all_bytes p s = true → all_bytes p (TrimSuffix s c) = true) as Ht.
  { intros s c. induction s as [|a s IH]; [done|]. cbn [all_bytes]. intros [Ha Hs]%andb_true_iff. destruct s as [|b s].
    - cbn [TrimSuffix]. destruct (Ascii.eqb a c); cbn [all_bytes]; by rewrite ?Ha.
    - cbn [TrimSuffix all_bytes]. rewrite Ha. by apply IH. }
  apply Ht. induction n as [|n IH]; [done|]. change (Repeat "?," (S n)) with (String "?"%char (String ","%char (Repeat "?," n))).
  cbn [all_bytes]. by rewrite Hq, Hc.
Qed.

(** ** Binding *)

(** [a] is the argument of the placeholder that follows the text [column]. *)
Definition bound (st : Statement) (column : string) (a : Arg) : Prop :=
  ∃ before after, st.1 = before +:+ column +:+ "?" +:+ after ∧ st.2 !! marks (before +:+ column) = Some a.

(** A literal is cut around the text of a column. *)
Definition cut_before (column f : string) : string :=
  match Index f (column +:+ "?") with Some i => String.substring 0 i f | None => "" end.
Definition cut_after (column f : string) : string :=
  match Index f (column +:+ "?") with Some i => slice_from (i + String.length column + 1) f | None => "" end.
Definition cuts (column f : string) : bool :=
  String.eqb f (cut_before column f +:+ column +:+ "?" +:+ cut_after column f)
  && no_s column && negb (String.eqb column "") && no_s (cut_after column f) && (verbs column =? 0)%nat.

Lemma bound_literal f column t1 t2 args a : cuts column f = true → verbs (cut_before column f) = length t1 →
  args !! (marks (cut_before column f) + sum_list (marks <$> t1) + marks column)%nat = Some a →
  bound (Sprintf f (t1 ++ t2), args) column a.
Proof.
  unfold cuts. rewrite !andb_true_iff, String.eqb_eq, Nat.eqb_eq. intros ((((Hf & Hc) & Hne) & Ha) & Hv0) Hv Harg.
  exists (Sprintf (cut_before column f) t1), (Sprintf (cut_after column f) t2). cbn [fst snd]. split.
  - rewrite Hf at 1. rewrite Sprintf_app by (try done; by destruct column). f_equal.
    rewrite (Sprintf_app column _ [] t2) by done. rewrite Sprintf_none by done. f_equal.
    by rewrite (Sprintf_app "?" _ [] t2).
  - by rewrite marks_app, marks_Sprintf.
Qed.

(** The statements about [n] jobs with what their columns are to receive. *)
Inductive batch_statement (n : nat) : Statement → list (string * Arg) → Prop :=
| st_extend stamp table ids tok now until : accepted table → length ids = n →
    batch_statement n (extend_statement stamp table ids tok now until)
      [("SET reserved_at = ", stamp until); ("AND lease_token = ", AToken tok); ("AND reserved_at > ", stamp now)]
| st_release stamp table ids tok now : accepted table → length ids = n →
    batch_statement n (release_statement stamp table ids tok now)
      [(", lease_token = ", AToken LeaseTokenNil); ("AND lease_token = ", AToken tok); ("AND reserved_at > ", stamp now)]
| st_claimed table ids tok : accepted table → length ids = n →
    batch_statement n (claimed_statement table ids tok) [("AND lease_token = ", AToken tok)]
| st_sqlite_reserve table ids tok until : accepted table → length ids = n →
    batch_statement n (sqlite_reserve_statement table ids tok until)
      [(", reserved_at = ", millis until); (", lease_token = ", AToken tok)]
| st_mysql_reserve table ids tok now until : accepted table → length ids = n →
    batch_statement n (mysql_reserve_statement table ids tok now until)
      [(", reserved_at = ", ATime until); (", lease_token = ", AToken tok); ("AND available_at <= ", ATime now);
       ("OR reserved_at <= ", ATime now)]
| st_sqlite_terminal table tok now outcomes : accepted table → length outcomes = n →
    batch_statement n (sqlite_terminal_statement table tok now outcomes)
      [("AND lease_token = ", AToken tok); ("AND reserved_at > ", millis now)]
| st_mysql_terminal table tok now outcomes : accepted table → length outcomes = n →
    batch_statement n (mysql_terminal_statement table tok now outcomes)
      [("AND job.lease_token = ", AToken tok); ("AND job.reserved_at > ", ATime now)]
| st_sqlite_retry table tok now outcomes : accepted table → length outcomes = n →
    batch_statement n (sqlite_retry_statement table tok now outcomes)
      [(".id) = ", AKind BatchJobOutcomeDefer); ("lease_token = ", AToken LeaseTokenNil);
       ("AND lease_token = ", AToken tok); ("AND reserved_at > ", millis now)]
| st_mysql_retry table tok now outcomes : accepted table → length outcomes = n →
    batch_statement n (mysql_retry_statement table tok now outcomes)
      [("WHEN input.kind = ", AKind BatchJobOutcomeDefer); (", job.lease_token = ", AToken LeaseTokenNil);
       ("AND job.lease_token = ", AToken tok); ("AND job.reserved_at > ", ATime now)]
| st_sqlite_register table prepared : accepted table → length prepared = n →
    batch_statement n (register_keys_statement millis sqlite_on_conflict table prepared) []
| st_mysql_register table prepared : accepted table → length prepared = n →
    batch_statement n (register_keys_statement ATime mysql_on_conflict table prepared) []
| st_load_keys table prepared : accepted table → length prepared = n →
    batch_statement n (load_keys_statement table prepared) []
| st_insert stamp table created : accepted table → length created = n →
    batch_statement n (insert_jobs_statement stamp table created) [].

(** Placeholders of a literal are counted by evaluation. *)
Ltac eval_marks := repeat match goal with
  | |- context [marks (String ?a ?s)] =>
      let k := eval vm_compute in (marks (String a s)) in change (marks (String a s)) with k
  | |- context [marks (Join jobColumns ?sep)] => change (marks (Join jobColumns sep)) with 0%nat
  end.
Ltac count_format Ht := rewrite marks_Sprintf by done; cbn [fmap list_fmap sum_list sum_list_with id];
  rewrite ?Ht, ?marks_placeholders, ?marks_sqlite_input, ?marks_mysql_input; eval_marks.

Lemma length_outcome_args stamp outcomes : length (outcome_args stamp outcomes) = (length outcomes * 3)%nat.
Proof. by apply length_bind_const. Qed.

(** As many arguments as placeholders, and not too many. *)
Lemma statement_count n st binds : batch_statement n st binds →
  marks st.1 = length st.2 ∧ (length st.2 ≤ 11 * n + 6)%nat.
Proof.
  destruct 1 as [stamp table ids tok now until Ht Hn|stamp table ids tok now Ht Hn|table ids tok Ht Hn
    |table ids tok until Ht Hn|table ids tok now until Ht Hn|table tok now outcomes Ht Hn|table tok now outcomes Ht Hn
    |table tok now outcomes Ht Hn|table tok now outcomes Ht Hn|table prepared Ht Hn|table prepared Ht Hn|table prepared Ht Hn
    |stamp table prepared Ht Hn]; apply accepted_marks in Ht; subst n.
  1-5: cbn [fst snd extend_statement release_statement claimed_statement sqlite_reserve_statement mysql_reserve_statement];
    rewrite ?length_app, length_fmap; count_format Ht; cbn [length]; lia.
  1,3: unfold sqlite_terminal_statement, sqlite_retry_statement; 
    change (sqliteBatchOutcomeInput outcomes) with ((sqliteBatchOutcomeInput outcomes).1, outcome_args millis outcomes);
    cbn [fst snd]; rewrite length_app, length_outcome_args; count_format Ht; cbn [length terminal_args retry_args]; lia.
  1,2: unfold mysql_terminal_statement, mysql_retry_statement; 
    change (mysqlBatchOutcomeInput outcomes) with ((mysqlBatchOutcomeInput outcomes).1, outcome_args ATime outcomes);
    cbn [fst snd]; rewrite length_app, length_outcome_args; count_format Ht; cbn [length terminal_args retry_args]; lia.
  - cbn [fst snd register_keys_statement]. unfold Concate. rewrite !marks_app, marks_rows, (length_bind_const _ _ 4) by done.
    count_format Ht. change (marks sqlite_on_conflict) with 0%nat. lia.
  - cbn [fst snd register_keys_statement]. unfold Concate. rewrite !marks_app, marks_rows, (length_bind_const _ _ 4) by done.
    count_format Ht. change (marks mysql_on_conflict) with 0%nat. lia.
  - cbn [fst snd load_keys_statement]. rewrite length_fmap, (Sprintf_app _ _ [table] []); [rewrite (Sprintf_none (_ +:+ _))|done|].
    + rewrite !marks_app, marks_placeholders. count_format Ht. lia.
    + apply verbs_none. rewrite all_bytes_app. by rewrite placeholders_bytes.
    + pose proof (placeholders_bytes (λ c, negb (Ascii.eqb c "s"%char)) (length prepared) eq_refl eq_refl) as Hp.
      destruct (sqlPlaceholders (length prepared)) as [|c s]; [done|]. cbn [all_bytes] in Hp.
      apply andb_true_iff in Hp as [Hc _]. exact Hc.
  - cbn [fst snd insert_jobs_statement]. unfold Concate. rewrite !marks_app, marks_rows, (length_bind_const _ _ 11) by done.
    count_format Ht. lia.
Qed.

(** Each column of a statement receives the argument meant for it. *)
Ltac find_arg :=
  repeat (rewrite lookup_app_r by (rewrite ?length_fmap, ?length_outcome_args; cbn [length]; lia));
  rewrite ?length_fmap, ?length_outcome_args; cbn [length];
  match goal with |- _ !! ?i = _ =>
    first [replace i with 0%nat by lia; reflexivity | replace i with 1%nat by lia; reflexivity
          |replace i with 2%nat by lia; reflexivity | replace i with 3%nat by lia; reflexivity
          |replace i with 4%nat by lia; reflexivity | replace i with 5%nat by lia; reflexivity]
  end.
Ltac bind_column Ht :=
  match goal with |- bound (Sprintf ?f ?texts, ?args) ?col ?a =>
    let k := eval vm_compute in (verbs (cut_before col f)) in
    let m := eval vm_compute in (marks (cut_before col f)) in
    change texts with (take k texts ++ drop k texts);
    apply bound_literal; [vm_compute; reflexivity|vm_compute; reflexivity|];
    change (marks (cut_before col f)) with m; change (marks col) with 0%nat;
    cbn [take fmap list_fmap sum_list sum_list_with id];
    rewrite ?Ht, ?marks_placeholders, ?marks_sqlite_input, ?marks_mysql_input; eval_marks; find_arg
  end.

Lemma statement_binds n st binds : batch_statement n st binds → Forall (λ b, bound st b.1 b.2) binds.
Proof.
  destruct 1 as [stamp table ids tok now until Ht Hn|stamp table ids tok now Ht Hn|table ids tok Ht Hn
    |table ids tok until Ht Hn|table ids tok now until Ht Hn|table tok now outcomes Ht Hn|table tok now outcomes Ht Hn
    |table tok now outcomes Ht Hn|table tok now outcomes Ht Hn|table prepared Ht Hn|table prepared Ht Hn|table prepared Ht Hn
    |stamp table prepared Ht Hn]; apply accepted_marks in Ht; subst n; repeat apply Forall_cons_2; try apply Forall_nil_2;
    cbn [fst snd].
  all: unfold extend_statement, release_statement, claimed_statement, sqlite_reserve_statement, mysql_reserve_statement,
    sqlite_terminal_statement, sqlite_retry_statement, mysql_terminal_statement, mysql_retry_statement, terminal_args, retry_args.
  all: try change (sqliteBatchOutcomeInput outcomes) with ((sqliteBatchOutcomeInput outcomes).1, outcome_args millis outcomes).
  all: try change (mysqlBatchOutcomeInput outcomes) with ((mysqlBatchOutcomeInput outcomes).1, outcome_args ATime outcomes).
  all: cbv beta iota; bind_column Ht.
Qed.

(** C36: every statement about a batch is well formed.  For any accepted table
    name and up to the maximum number of jobs, the texts of SQLite and MySQL
    have exactly as many placeholders as there are arguments, no more than the
    32766 that SQLite accepts (MySQL takes 65535), and the lease token, the deadline and the
    clock of a claim, an extension, a release and a settlement are bound to the
    columns they fence or set. *)
Theorem statements_bound n st binds : batch_statement n st binds → Z.of_nat n ≤ MaxReservationBatchSize →
  marks st.1 = length st.2 ∧ Z.of_nat (length st.2) ≤ 32766 ∧ ∀ column a, (column, a) ∈ binds → bound st column a.
Proof.
  intros Hst Hn. destruct (statement_count n st binds Hst) as [Hc Hle]. split; [done|]. split.
  - unfold MaxReservationBatchSize in Hn. lia.
  - intros column a Hin. pose proof (statement_binds n st binds Hst) as HF. rewrite Forall_forall in HF. exact (HF _ Hin).
Qed.

End Statements.

Import Statements.

Lemma statements_bound_witness :
  let st := release_statement millis (render double_quote ["jobs"]) [5%N; 6%N] 9%N (FromUnixMilli 77) in
  marks st.1 = length st.2 ∧ Z.of_nat (length st.2) ≤ 32766
  ∧ ∀ column a, (column, a) ∈ [(", lease_token = ", AToken LeaseTokenNil); ("AND lease_token = ", AToken 9%N);
                               ("AND reserved_at > ", ANum 77)] → bound st column a.
Proof.
  refine (statements_bound 2 _ _ (st_release 2 millis (render double_quote ["jobs"]) [5%N; 6%N] 9%N (FromUnixMilli 77) _ eq_refl) _).
  - left. exists "jobs". vm_compute. reflexivity.
  - vm_compute. discriminate.
Defined.
