(* ===== verification/Registry.v ===== *)
(** * The idempotency registry, for every backend

    What the repositories share about staging under a key and pruning the
    registry of keys ([outbox_job_idempotency_keys]). *)

From S2P Require Import Prelude GoTime Errors Models Batch Fingerprint Sql Repo.
Open Scope Z_scope.

(** ** Staging *)

Lemma insert_staged_job ts id now key name v payload at_ d :
  0 < v → jobs_t d !! id = None → key_in_use key (jobs_t d) = false →
  insert_job (queued ts id now key name v payload at_) d
  = (Ok tt, set_jobs (<[id := queued ts id now key name v payload at_]> (jobs_t d)) d).
Proof.
  intros Hv Hj Hk. unfold insert_job. cbn. rewrite Hj, Hk. rewrite bool_decide_false by (by intros []).
  by rewrite (proj2 (Z.leb_gt v 0)).
Qed.

(** A key of the registry's complement is used by no live job. *)
Lemma registry_unused d key : registry_ok d → keys_t d !! key = None → key_in_use key (jobs_t d) = false.
Proof.
  intros [Hact _] Hk. apply key_in_use_false. intros id j Hl Hd.
  destruct (Hact _ _ _ Hl Hd) as (r & Hr & _). by rewrite Hk in Hr.
Qed.

(** ** Pruning *)

Definition prune_less : string * IdemKey → string * IdemKey → bool :=
  lex_by Z.eqb Z.ltb (λ kr, ik_created_at kr.2) (by_key String.ltb fst).

Definition prunable (before : Z) (locked : gset string) (jobs : gmap JobID Job) (kr : string * IdemKey) : bool :=
  (ik_created_at kr.2 <? before) && negb (key_in_use kr.1 jobs) && negb (bool_decide (kr.1 ∈ locked)).

(** [DELETE] of the [limit] oldest keys created before a time that no live job
    holds, passing over the locked ones. *)
Definition prune_keys (before limit : Z) (locked : gset string) : Op Z := λ d,
  let candidates := take (Z.to_nat limit)
    (sort_slice prune_less
       (filter (λ kr, prunable before locked (jobs_t d) kr = true) (map_to_list (keys_t d)))) in
  let doomed := list_to_set candidates.*1 : gset string in
  (Ok (Z.of_nat (length candidates)), set_keys (filter (λ kr, kr.1 ∉ doomed) (keys_t d)) d).

Lemma prune_keys_ok before limit locked d n d' : 1 ≤ limit →
  prune_keys before limit locked d = (Ok n, d') →
  ∃ doomed : gset string, d' = set_keys (filter (λ kr, kr.1 ∉ doomed) (keys_t d)) d
  ∧ n = Z.of_nat (size doomed) ∧ n ≤ limit
  ∧ ∀ k, k ∈ doomed → ∃ r, keys_t d !! k = Some r ∧ ik_created_at r < before
                            ∧ key_in_use k (jobs_t d) = false.
Proof.
  intros Hl1 Hop. unfold prune_keys in Hop.
  set (old := filter (λ kr, prunable before locked (jobs_t d) kr = true) (map_to_list (keys_t d))) in Hop.
  set (c := take _ _) in Hop. injection Hop as <- <-.
  assert (∀ kr, kr ∈ c → kr ∈ old) as Hsub.
  { intros kr Hkr%(subseteq_take _). by apply sort_slice_elem in Hkr. }
  assert (NoDup c.*1) as Hnd.
  { unfold c. rewrite fmap_take. apply NoDup_take. rewrite (sort_slice_perm prune_less old).
    apply NoDup_fst_filter, NoDup_fst_map_to_list. }
  exists (list_to_set c.*1). split; [done|]. split_and!.
  - rewrite size_list_to_set by done. by rewrite length_fmap.
  - unfold c. rewrite length_take. lia.
  - intros k ([k' r] & -> & [Hp Hin]%Hsub%list_elem_of_filter)%elem_of_list_to_set%list_elem_of_fmap.
    exists r. apply elem_of_map_to_list in Hin. split; [done|]. unfold prunable in Hp.
    apply andb_true_iff in Hp as [[Hb Hu]%andb_true_iff _]. cbn in *.
    by apply Z.ltb_lt in Hb; apply negb_true_iff in Hu.
Qed.

