(* ===== verification/Stats.v ===== *)
(** * Queue statistics

    The aggregate types of outbox/contract.go, the SQL aggregates the backends
    compute them with, and the reconciliation of the totals. *)

From S2P Require Import Prelude GoTime Errors Models Batch Sql Repo.
Open Scope Z_scope.

(** ** outbox/contract.go: queue statistics *)

Record CapabilityQueueStats : Type := {
  s_Name : string;
  s_SchemaVersion : SchemaVersion;
  s_Total : Z;
  s_Available : Z;
  s_Processing : Z;
  s_OldestAvailableAt : Z
}.

Record QueueStats : Type := {
  ObservedAt : Z;
  Total : Z;
  Available : Z;
  Processing : Z;
  ByCapability : list CapabilityQueueStats
}.

(** [count( * ) filter (where p)]. *)
Fixpoint count (p : Job → bool) (rows : list Job) : Z :=
  match rows with
  | [] => 0
  | j :: rows => (if p j then 1 else 0) + count p rows
  end.

(** [min(available_at) filter (where p)], NULL on no row. *)
Fixpoint min_available (p : Job → bool) (rows : list Job) : option Z :=
  match rows with
  | [] => None
  | j :: rows =>
      if p j then Some (match min_available p rows with Some m => Z.min (AvailableAt j) m | None => AvailableAt j end)
      else min_available p rows
  end.

(** [reserved_at > now and lease_token <> nil]. *)
Definition processing (now : Z) (j : Job) : bool :=
  match ReservedAt j with Some r => now <? r | None => false end && negb (N.eqb (LeaseTokenOf j) LeaseTokenNil).

Definition row_capability (j : Job) : JobCapability :=
  {| cap_Name := Name j; cap_SchemaVersion := SchemaVersionOf j |}.

Definition all_rows (t : gmap JobID Job) : list Job := (map_to_list t).*2.

(** The totals the loop over the groups accumulates. *)
Fixpoint accumulate (stats : QueueStats) (groups : list CapabilityQueueStats) : QueueStats :=
  match groups with
  | [] => stats
  | g :: groups =>
      accumulate {| ObservedAt := ObservedAt stats;
                    Total := Total stats + s_Total g;
                    Available := Available stats + s_Available g;
                    Processing := Processing stats + s_Processing g;
                    ByCapability := ByCapability stats ++ [g] |} groups
  end.

Definition group_stats (now : Z) (rows : list Job) (c : JobCapability) : CapabilityQueueStats :=
  let group := filter (λ j, row_is j c = true) rows in
  {| s_Name := cap_Name c; s_SchemaVersion := cap_SchemaVersion c;
     s_Total := count (λ _, true) group;
     s_Available := count (ready now) group;
     s_Processing := count (processing now) group;
     s_OldestAvailableAt := default zeroTime (min_available (ready now) group) |}.

Definition no_stats (observedAt : Z) : QueueStats :=
  {| ObservedAt := observedAt; Total := 0; Available := 0; Processing := 0; ByCapability := [] |}.

(** [sort.Slice(stats.ByCapability, ...)]. *)
Definition stats_less : CapabilityQueueStats → CapabilityQueueStats → bool :=
  lex_by String.eqb String.ltb s_Name (by_key Z.ltb s_SchemaVersion).

#[global] Instance stats_less_strict : StrictOrderB stats_less.
Proof. apply _. Qed.

(** ** What a statistics repository promises

    [JobsStatRepository]: a read, answering the groups of the table in some
    order and their sums. *)
Class StatsRepository (ts : Z → Z) (repo : Z → Op QueueStats) : Prop := {
  stats_read observedAt d r d' : repo observedAt d = (r, d') → d' = d;
  stats_ok observedAt d st d' : repo observedAt d = (Ok st, d') →
    ∃ caps, caps ≡ₚ remove_dups (row_capability <$> all_rows (jobs_t d))
      ∧ st = accumulate (no_stats observedAt) (group_stats (ts observedAt) (all_rows (jobs_t d)) <$> caps)
}.

(** ** Counting *)

Lemma row_is_capability j c : row_is j c = true ↔ row_capability j = c.
Proof.
  unfold row_is. rewrite andb_true_iff, String.eqb_eq, Z.eqb_eq. destruct c. cbn.
  split; [intros [<- <-]; done|intros [= <- <-]; done].
Qed.

Lemma count_app p l1 l2 : count p (l1 ++ l2) = count p l1 + count p l2.
Proof. induction l1 as [|j l1 IH]; cbn; lia. Qed.

Lemma count_length p l : count p l = Z.of_nat (length (filter (λ j, p j = true) l)).
Proof.
  induction l as [|j l IH]; [done|]. cbn [count]. rewrite filter_cons, IH.
  destruct (p j); case_decide; try done; cbn [length]; lia.
Qed.

Lemma count_affected p t : count p (all_rows t) = affected p t.
Proof.
  rewrite count_length. unfold affected, all_rows. f_equal.
  rewrite <- length_map_to_list, map_filter_alt, map_to_list_to_map.
  - induction (map_to_list t) as [|[i j] l IH]; [done|]. rewrite fmap_cons, !filter_cons. cbn.
    repeat case_decide; cbn; lia.
  - apply NoDup_fst_filter, NoDup_fst_map_to_list.
Qed.

Lemma count_le p q l : (∀ j, p j = true → q j = true) → count p l ≤ count q l.
Proof.
  intros Hpq. induction l as [|j l IH]; [done|]. cbn. specialize (Hpq j).
  destruct (p j), (q j); naive_solver lia.
Qed.

(** Rows split between one capability and the rest. *)
Lemma count_groups p caps rows : NoDup caps →
  foldr Z.add 0 ((λ c, count p (filter (λ j, row_is j c = true) rows)) <$> caps)
  = count p (filter (λ j, row_capability j ∈ caps) rows).
Proof.
  induction caps as [|c caps IH]; intros Hnd; cbn.
  { induction rows as [|j rows IHr]; [done|]. rewrite filter_cons. case_decide; [set_solver|done]. }
  apply NoDup_cons in Hnd as [Hc Hnd]. rewrite IH by done. clear IH.
  induction rows as [|j rows IHr]; [done|]. rewrite !filter_cons. pose proof (row_is_capability j c) as Hrow.
  destruct (decide (row_is j c = true)) as [Hr|Hr], (decide (row_capability j ∈ caps)) as [Hi|Hi],
    (decide (row_capability j ∈ c :: caps)) as [Hj|Hj]; cbn; rewrite <- ?IHr; try lia; exfalso;
    rewrite ?elem_of_cons in Hj; naive_solver.
Qed.

Lemma accumulate_groups st gs :
  ObservedAt (accumulate st gs) = ObservedAt st
  ∧ Total (accumulate st gs) = Total st + foldr Z.add 0 (s_Total <$> gs)
  ∧ Available (accumulate st gs) = Available st + foldr Z.add 0 (s_Available <$> gs)
  ∧ Processing (accumulate st gs) = Processing st + foldr Z.add 0 (s_Processing <$> gs)
  ∧ ByCapability (accumulate st gs) = ByCapability st ++ gs.
Proof.
  revert st. induction gs as [|g gs IH]; intros st; cbn [accumulate].
  { rewrite app_nil_r. cbn. split_and!; [done|lia..|done]. }
  destruct (IH {| ObservedAt := ObservedAt st; Total := Total st + s_Total g;
                  Available := Available st + s_Available g; Processing := Processing st + s_Processing g;
                  ByCapability := ByCapability st ++ [g] |}) as (-> & -> & -> & -> & ->).
  cbn. split_and!; [done|lia..|]. by rewrite <- app_assoc.
Qed.

(** Every row is in one group. *)
Lemma stats_totals p caps rows : caps ≡ₚ remove_dups (row_capability <$> rows) →
  foldr Z.add 0 ((λ c, count p (filter (λ j, row_is j c = true) rows)) <$> caps) = count p rows.
Proof.
  intros Hp. rewrite count_groups by (rewrite Hp; apply NoDup_remove_dups). f_equal.
  assert (∀ j, j ∈ rows → row_capability j ∈ caps) as Hall.
  { intros j Hj. rewrite Hp. apply elem_of_remove_dups, list_elem_of_fmap_2, Hj. }
  clear Hp. induction rows as [|j rows IH]; [done|]. rewrite filter_cons.
  case_decide; [|exfalso; set_solver]. f_equal. apply IH. set_solver.
Qed.
