(* ===== verification/Options.v ===== *)
(** * Service configuration and handler registration

    outbox/service_options.go, and the constructor and registration of
    outbox/service.go and outbox/capability.go.

    An interface value is the record of its operations; a type assertion to an
    optional interface is an option.  A handler's answers come from the
    environment: it is told the attempt's metadata and the payload and may
    return or panic. *)

From S2P Require Import Prelude GoTime Errors Models Retry Batch Sql Repo Stats.
Open Scope Z_scope.

(** [Job] with the optional [VersionedJob], and [BatchJob] with
    [VersionedBatchJob]. *)
Record Handler : Type := {
  h_Name : string;
  h_SchemaVersion : option SchemaVersion;
  h_ExecutionTimeout : Z;
  h_MaxAttempts : Z;
  h_Handle : nat → option JobMetadata → string → callback (option err)
}.

Record BatchHandler : Type := {
  bh_Name : string;
  bh_SchemaVersion : option SchemaVersion;
  bh_ExecutionTimeout : Z;
  bh_MaxAttempts : Z;
  bh_HandleBatch : nat → list BatchJobItem → callback (BatchResult * option err)
}.

Abbreviation JobsStatRepository := (Z → Op QueueStats).

(** A value of [JobsRepository] and the optional interfaces it implements. *)
Record Repository : Type := {
  rp_jobs : JobsRepository;
  rp_batch : option BatchJobsRepository;
  rp_unique : option UniqueJobsRepository;
  rp_unique_batch : option UniqueJobsRepository;
  rp_stats : option JobsStatRepository
}.

(** [SupportsAtomicDLQ()] of a transactor that implements
    [TransactionCapabilities]. *)
Record Transactor : Type := { tx_SupportsAtomicDLQ : option bool }.

Record Options : Type := mkOptions {
  workers : Z;
  idleTime : Z;
  reserveFor : Z;
  reservationBatchSize : Z;
  jobsRepo : option Repository;
  fanoutJobsRepo : option UniqueJobsRepository;
  uniqueJobsRepo : option UniqueJobsRepository;
  uniqueBatchJobsRepo : option UniqueJobsRepository;
  jobsStatRepo : option JobsStatRepository;
  jobsFailedRepo : option JobsFailedRepository;
  transactor : option Transactor;
  allowNonAtomicDLQ : bool;
  atomicDLQ : bool;
  retryPolicy : option RetryPolicy;
  observer : bool;
  logger : bool
}.

Definition WithWorkers (v : Z) (o : Options) : Options :=
  mkOptions v (idleTime o) (reserveFor o) (reservationBatchSize o) (jobsRepo o) (fanoutJobsRepo o)
    (uniqueJobsRepo o) (uniqueBatchJobsRepo o) (jobsStatRepo o) (jobsFailedRepo o) (transactor o)
    (allowNonAtomicDLQ o) (atomicDLQ o) (retryPolicy o) (observer o) (logger o).

Definition WithIdleTime (v : Z) (o : Options) : Options :=
  mkOptions (workers o) v (reserveFor o) (reservationBatchSize o) (jobsRepo o) (fanoutJobsRepo o)
    (uniqueJobsRepo o) (uniqueBatchJobsRepo o) (jobsStatRepo o) (jobsFailedRepo o) (transactor o)
    (allowNonAtomicDLQ o) (atomicDLQ o) (retryPolicy o) (observer o) (logger o).

Definition WithReserveFor (v : Z) (o : Options) : Options :=
  mkOptions (workers o) (idleTime o) v (reservationBatchSize o) (jobsRepo o) (fanoutJobsRepo o)
    (uniqueJobsRepo o) (uniqueBatchJobsRepo o) (jobsStatRepo o) (jobsFailedRepo o) (transactor o)
    (allowNonAtomicDLQ o) (atomicDLQ o) (retryPolicy o) (observer o) (logger o).

Definition WithReservationBatchSize (v : Z) (o : Options) : Options :=
  mkOptions (workers o) (idleTime o) (reserveFor o) v (jobsRepo o) (fanoutJobsRepo o)
    (uniqueJobsRepo o) (uniqueBatchJobsRepo o) (jobsStatRepo o) (jobsFailedRepo o) (transactor o)
    (allowNonAtomicDLQ o) (atomicDLQ o) (retryPolicy o) (observer o) (logger o).

Definition WithLogger (v : bool) (o : Options) : Options :=
  mkOptions (workers o) (idleTime o) (reserveFor o) (reservationBatchSize o) (jobsRepo o)
    (fanoutJobsRepo o) (uniqueJobsRepo o) (uniqueBatchJobsRepo o) (jobsStatRepo o) (jobsFailedRepo
    o) (transactor o) (allowNonAtomicDLQ o) (atomicDLQ o) (retryPolicy o) (observer o) v.

Definition WithTransactor (v : option Transactor) (o : Options) : Options :=
  mkOptions (workers o) (idleTime o) (reserveFor o) (reservationBatchSize o) (jobsRepo o)
    (fanoutJobsRepo o) (uniqueJobsRepo o) (uniqueBatchJobsRepo o) (jobsStatRepo o) (jobsFailedRepo
    o) v (allowNonAtomicDLQ o) (atomicDLQ o) (retryPolicy o) (observer o) (logger o).

Definition WithAllowNonAtomicDLQ (o : Options) : Options :=
  mkOptions (workers o) (idleTime o) (reserveFor o) (reservationBatchSize o) (jobsRepo o)
    (fanoutJobsRepo o) (uniqueJobsRepo o) (uniqueBatchJobsRepo o) (jobsStatRepo o) (jobsFailedRepo
    o) (transactor o) true (atomicDLQ o) (retryPolicy o) (observer o) (logger o).

Definition WithJobsRepo (v : option Repository) (o : Options) : Options :=
  mkOptions (workers o) (idleTime o) (reserveFor o) (reservationBatchSize o) v (fanoutJobsRepo o)
    (uniqueJobsRepo o) (uniqueBatchJobsRepo o) (jobsStatRepo o) (jobsFailedRepo o) (transactor o)
    (allowNonAtomicDLQ o) (atomicDLQ o) (retryPolicy o) (observer o) (logger o).

Definition WithFanoutJobsRepo (v : option UniqueJobsRepository) (o : Options) : Options :=
  mkOptions (workers o) (idleTime o) (reserveFor o) (reservationBatchSize o) (jobsRepo o) v
    (uniqueJobsRepo o) (uniqueBatchJobsRepo o) (jobsStatRepo o) (jobsFailedRepo o) (transactor o)
    (allowNonAtomicDLQ o) (atomicDLQ o) (retryPolicy o) (observer o) (logger o).

Definition WithUniqueJobsRepo (v : option UniqueJobsRepository) (o : Options) : Options :=
  mkOptions (workers o) (idleTime o) (reserveFor o) (reservationBatchSize o) (jobsRepo o)
    (fanoutJobsRepo o) v (uniqueBatchJobsRepo o) (jobsStatRepo o) (jobsFailedRepo o) (transactor o)
    (allowNonAtomicDLQ o) (atomicDLQ o) (retryPolicy o) (observer o) (logger o).

Definition WithUniqueBatchJobsRepo (v : option UniqueJobsRepository) (o : Options) : Options :=
  mkOptions (workers o) (idleTime o) (reserveFor o) (reservationBatchSize o) (jobsRepo o)
    (fanoutJobsRepo o) (uniqueJobsRepo o) v (jobsStatRepo o) (jobsFailedRepo o) (transactor o)
    (allowNonAtomicDLQ o) (atomicDLQ o) (retryPolicy o) (observer o) (logger o).

Definition WithJobsStatRepo (v : option JobsStatRepository) (o : Options) : Options :=
  mkOptions (workers o) (idleTime o) (reserveFor o) (reservationBatchSize o) (jobsRepo o)
    (fanoutJobsRepo o) (uniqueJobsRepo o) (uniqueBatchJobsRepo o) v (jobsFailedRepo o) (transactor
    o) (allowNonAtomicDLQ o) (atomicDLQ o) (retryPolicy o) (observer o) (logger o).

Definition WithJobsFailedRepo (v : option JobsFailedRepository) (o : Options) : Options :=
  mkOptions (workers o) (idleTime o) (reserveFor o) (reservationBatchSize o) (jobsRepo o)
    (fanoutJobsRepo o) (uniqueJobsRepo o) (uniqueBatchJobsRepo o) (jobsStatRepo o) v (transactor o)
    (allowNonAtomicDLQ o) (atomicDLQ o) (retryPolicy o) (observer o) (logger o).

Definition WithRetryPolicy (v : option RetryPolicy) (o : Options) : Options :=
  mkOptions (workers o) (idleTime o) (reserveFor o) (reservationBatchSize o) (jobsRepo o)
    (fanoutJobsRepo o) (uniqueJobsRepo o) (uniqueBatchJobsRepo o) (jobsStatRepo o) (jobsFailedRepo
    o) (transactor o) (allowNonAtomicDLQ o) (atomicDLQ o) v (observer o) (logger o).

Definition WithObserver (v : bool) (o : Options) : Options :=
  mkOptions (workers o) (idleTime o) (reserveFor o) (reservationBatchSize o) (jobsRepo o)
    (fanoutJobsRepo o) (uniqueJobsRepo o) (uniqueBatchJobsRepo o) (jobsStatRepo o) (jobsFailedRepo
    o) (transactor o) (allowNonAtomicDLQ o) (atomicDLQ o) (retryPolicy o) v (logger o).

Definition set_atomicDLQ (v : bool) (o : Options) : Options :=
  mkOptions (workers o) (idleTime o) (reserveFor o) (reservationBatchSize o) (jobsRepo o)
    (fanoutJobsRepo o) (uniqueJobsRepo o) (uniqueBatchJobsRepo o) (jobsStatRepo o) (jobsFailedRepo
    o) (transactor o) (allowNonAtomicDLQ o) v (retryPolicy o) (observer o) (logger o).


Definition default_options : Options :=
  mkOptions 1 Second (5 * Minute) 1 None None None None None None None false false None false true.

Definition or_detected {A} (configured detected : option A) : option A :=
  match configured with Some _ => configured | None => detected end.

Definition detectOptionalRepositories (o : Options) : Options :=
  let repo := jobsRepo o in
  let o := WithUniqueJobsRepo (or_detected (uniqueJobsRepo o) (repo ≫= rp_unique)) o in
  let o := WithUniqueBatchJobsRepo (or_detected (uniqueBatchJobsRepo o) (repo ≫= rp_unique_batch)) o in
  WithJobsStatRepo (or_detected (jobsStatRepo o) (repo ≫= rp_stats)) o.

Definition validateReservationBatch (o : Options) (repo : Repository) : result unit :=
  let size := reservationBatchSize o in
  let repositoryMax := MaxReservationBatchSizeOf (rp_jobs repo) in
  if (size <? 1) || (MaxReservationBatchSize <? size) then Err (EText "invalid reservation batch size")
  else if repositoryMax <? 1 then Err (EText "invalid repository reservation batch maximum")
  else if repositoryMax <? size
  then Err (wrapAs ErrReservationBatchSizeUnsupported "requested more than the repository maximum")
  else Ok tt.

(** [Validate] also records whether the transactor supports an atomic DLQ. *)
Definition Options_Validate (o : Options) : result Options :=
  match jobsRepo o, jobsFailedRepo o, transactor o with
  | None, _, _ => Err (EText "nil jobsRepo")
  | _, None, _ => Err (EText "nil jobsFailedRepo")
  | _, _, None => Err (EText "nil transactor")
  | Some repo, Some _, Some tc =>
      let supportsCapabilities := bool_decide (is_Some (tx_SupportsAtomicDLQ tc)) in
      let o := set_atomicDLQ (default false (tx_SupportsAtomicDLQ tc)) o in
      if negb supportsCapabilities && negb (allowNonAtomicDLQ o)
      then Err (ESentinel ErrTransactionCapabilitiesRequired)
      else if supportsCapabilities && negb (atomicDLQ o) && negb (allowNonAtomicDLQ o)
      then Err (ESentinel ErrNonAtomicDLQUnsupported)
      else if negb (logger o) then Err (EText "nil logger")
      else if workers o <? 1 then Err (EText "invalid number of workers")
      else if (idleTime o <? 100 * Millisecond) || (10 * Second <? idleTime o)
      then Err (EText "invalid idle time")
      else if (reserveFor o <? Second) || (10 * Minute <? reserveFor o)
      then Err (EText "invalid reserve for")
      else (_ ← validateReservationBatch o repo; Ok o)
  end.

Fixpoint apply_options (options : list (Options → Options)) (o : Options) : Options :=
  match options with [] => o | opt :: options => apply_options options (opt o) end.

Definition NewOptions (options : list (Options → Options)) : result Options :=
  res_map_err (λ e, EJoin [ESentinel ErrOption; e])
    (Options_Validate (detectOptionalRepositories (apply_options options default_options))).

(** ** The service and its handlers *)

(** [Service] as [New] builds it: the validated options, the registries and
    the [running] flag. *)
Record Service : Type := mkService {
  s_options : Options;
  s_repo : Repository;
  s_failed : JobsFailedRepository;
  s_jobs : gmap JobCapability Handler;
  s_batchJobs : gmap JobCapability (BatchHandler * BatchConfig);
  s_running : bool
}.

Definition set_handlers (jobs : gmap JobCapability Handler) (s : Service) : Service :=
  mkService (s_options s) (s_repo s) (s_failed s) jobs (s_batchJobs s) (s_running s).
Definition set_batch_handlers (jobs : gmap JobCapability (BatchHandler * BatchConfig)) (s : Service) : Service :=
  mkService (s_options s) (s_repo s) (s_failed s) (s_jobs s) jobs (s_running s).

Definition capabilityForJob (job : Handler) : result JobCapability :=
  capabilityFor (h_Name job) (h_SchemaVersion job).
Definition capabilityForBatchJob (job : BatchHandler) : result JobCapability :=
  capabilityFor (bh_Name job) (bh_SchemaVersion job).

(** The first loop of [RegisterJobs]: the capabilities of one registration. *)
Fixpoint collect_jobs (jobs : list (option Handler)) (capabilities : gmap JobCapability Handler) :
    result (gmap JobCapability Handler) :=
  match jobs with
  | [] => Ok capabilities
  | None :: _ => Err (EText "job is nil")
  | Some job :: jobs =>
      capability ← res_map_err (wrapf "job capability") (capabilityForJob job);
      if bool_decide (is_Some (capabilities !! capability))
      then Err (EText "job is duplicated in registration batch")
      else collect_jobs jobs (<[capability := job]> capabilities)
  end.

(** The second loop, in whatever order the map is iterated. *)
Fixpoint check_unregistered (capabilities : list JobCapability) (s : Service) : result unit :=
  match capabilities with
  | [] => Ok tt
  | capability :: capabilities =>
      if bool_decide (is_Some (s_jobs s !! capability)) then Err (EText "job already registered")
      else if bool_decide (is_Some (s_batchJobs s !! capability))
      then Err (EText "job already registered as a batch job")
      else check_unregistered capabilities s
  end.

Definition RegisterJobs (jobs : list (option Handler)) (s : Service) : result unit * Service :=
  match collect_jobs jobs ∅ with
  | Err e => (Err e, s)
  | Ok capabilities =>
      if s_running s then (Err (ESentinel ErrServiceRunning), s)
      else match check_unregistered (map_to_list capabilities).*1 s with
           | Err e => (Err e, s)
           | Ok _ => (Ok tt, set_handlers (capabilities ∪ s_jobs s) s)
           end
  end.

Definition RegisterJob (job : option Handler) (s : Service) : result unit * Service := RegisterJobs [job] s.

Definition RegisterBatchJob (job : option BatchHandler) (config : BatchConfig) (s : Service) :
    result unit * Service :=
  match job with
  | None => (Err (EText "batch job is nil"), s)
  | Some job =>
      match rp_batch (s_repo s) with
      | None => (Err (ESentinel ErrBatchRepositoryNotConfigured), s)
      | Some batchRepo =>
          match normalize config with
          | Err e => (Err (wrapf "batch config" e), s)
          | Ok normalized =>
              let repositoryMax := MaxExecutionBatchSize batchRepo in
              if (repositoryMax <? 1) || (repositoryMax <? MaxMessages normalized)
              then (Err (wrapAs ErrReservationBatchSizeUnsupported "requested more than the repository maximum"), s)
              else match capabilityForBatchJob job with
                   | Err e => (Err (wrapf "batch job capability" e), s)
                   | Ok capability =>
                       if s_running s then (Err (ESentinel ErrServiceRunning), s)
                       else if bool_decide (is_Some (s_jobs s !! capability))
                       then (Err (EText "job already registered as a single job"), s)
                       else if bool_decide (is_Some (s_batchJobs s !! capability))
                       then (Err (EText "batch job already registered"), s)
                       else (Ok tt, set_batch_handlers (<[capability := (job, normalized)]> (s_batchJobs s)) s)
                   end
          end
      end
  end.

(** The registrations that panic instead of returning an error. *)
Definition must_register (text : string) (r : result unit * Service) : callback unit * Service :=
  match r with
  | (Ok _, s) => (Returns tt, s)
  | (Err e, s) => (Panics (Error (wrapf text e)), s)
  end.
Definition MustRegisterJob (job : option Handler) (s : Service) : callback unit * Service :=
  must_register "register job" (RegisterJob job s).
Definition MustRegisterJobs (jobs : list (option Handler)) (s : Service) : callback unit * Service :=
  must_register "register jobs" (RegisterJobs jobs s).
Definition MustRegisterBatchJob (job : option BatchHandler) (config : BatchConfig) (s : Service) : callback unit * Service :=
  must_register "register batch job" (RegisterBatchJob job config s).

(** A handler that embeds [DefaultJob] of outbox/contract.go. *)
Definition defaultExecutionTimeout : Z := 30 * Second.
Definition defaultMaxAttempts : Z := 30.
Definition DefaultJob (name : string) (handle : nat → option JobMetadata → string → callback (option err)) : Handler :=
  {| h_Name := name; h_SchemaVersion := None; h_ExecutionTimeout := defaultExecutionTimeout;
     h_MaxAttempts := defaultMaxAttempts; h_Handle := handle |}.

(** The capability lists the workers are started with. *)
Definition registeredSingleCapabilities (s : Service) : list JobCapability :=
  sortCapabilities (map_to_list (s_jobs s)).*1.
Definition registeredBatchCapabilities (s : Service) : list JobCapability :=
  sortCapabilities (map_to_list (s_batchJobs s)).*1.

(** outbox/fanout.go, [fanoutDispatcher]. *)
Definition FanoutDispatcherJobName : string := "outbox.fanout.dispatch".
Definition FanoutDispatcherSchemaVersion : SchemaVersion := 1.
Definition fanoutDispatcher (handle : nat → option JobMetadata → string → callback (option err)) : Handler :=
  {| h_Name := FanoutDispatcherJobName; h_SchemaVersion := Some FanoutDispatcherSchemaVersion;
     h_ExecutionTimeout := 30 * Second; h_MaxAttempts := 10; h_Handle := handle |}.

Definition New (dispatch : nat → option JobMetadata → string → callback (option err))
    (options : list (Options → Options)) : result Service :=
  opts ← res_map_err (wrapf "validate options") (NewOptions options);
  match jobsRepo opts, jobsFailedRepo opts with
  | Some repo, Some failed =>
      let service := mkService opts repo failed ∅ ∅ false in
      match fanoutJobsRepo opts with
      | None => Ok service
      | Some _ =>
          let '(r, service) := RegisterJob (Some (fanoutDispatcher dispatch)) service in
          _ ← res_map_err (wrapf "register fan-out dispatcher") r; Ok service
      end
  | _, _ => Err (EText "nil jobsRepo")        (* excluded by [Validate] *)
  end.

(** ** Configuration *)

(** What a running service may rely on. *)
Record valid_options (o : Options) : Prop := {
  vo_repo : ∃ repo, jobsRepo o = Some repo
    ∧ 1 ≤ reservationBatchSize o ≤ MaxReservationBatchSize
    ∧ reservationBatchSize o ≤ MaxReservationBatchSizeOf (rp_jobs repo);
  vo_failed : is_Some (jobsFailedRepo o);
  (** a transactor that is not known to be atomic was accepted explicitly *)
  vo_transactor : ∃ tc, transactor o = Some tc
    ∧ (tx_SupportsAtomicDLQ tc = Some true ∨ allowNonAtomicDLQ o = true);
  vo_logger : logger o = true;
  vo_workers : 1 ≤ workers o;
  vo_idle : 100 * Millisecond ≤ idleTime o ≤ 10 * Second;
  vo_reserve : Second ≤ reserveFor o ≤ 10 * Minute
}.

Definition declares_atomic (o : Options) : bool :=
  match transactor o with Some tc => default false (tx_SupportsAtomicDLQ tc) | None => false end.

Lemma validateReservationBatch_ok o repo : validateReservationBatch o repo = Ok tt ↔
  1 ≤ reservationBatchSize o ≤ MaxReservationBatchSize
  ∧ reservationBatchSize o ≤ MaxReservationBatchSizeOf (rp_jobs repo).
Proof.
  unfold validateReservationBatch.
  destruct (Z.ltb_spec (reservationBatchSize o) 1); cbn; [split; [done|lia]|].
  destruct (Z.ltb_spec MaxReservationBatchSize (reservationBatchSize o)); cbn; [split; [done|lia]|].
  destruct (Z.ltb_spec (MaxReservationBatchSizeOf (rp_jobs repo)) 1); [split; [done|lia]|].
  destruct (Z.ltb_spec (MaxReservationBatchSizeOf (rp_jobs repo)) (reservationBatchSize o)); [split; [done|lia]|].
  split; [lia|done].
Qed.

Lemma options_validated o o' :
  Options_Validate o = Ok o' ↔ valid_options o ∧ o' = set_atomicDLQ (declares_atomic o) o.
Proof.
  unfold Options_Validate, declares_atomic.
  destruct (jobsRepo o) as [repo|] eqn:Hrepo;
    [|split; [done|intros [[(? & ? & _) _ _ _ _ _ _] _]; congruence]].
  destruct (jobsFailedRepo o) as [f|] eqn:Hf;
    [|split; [by destruct (transactor o)|intros [[_ [? ?] _ _ _ _ _] _]; congruence]].
  destruct (transactor o) as [tc|] eqn:Htc; [|split; [done|intros [[_ _ (? & ? & _) _ _ _ _] _]; congruence]].
  set (o1 := set_atomicDLQ _ o).
  assert (valid_options o ↔ (tx_SupportsAtomicDLQ tc = Some true ∨ allowNonAtomicDLQ o = true) ∧ logger o = true
    ∧ 1 ≤ workers o ∧ 100 * Millisecond ≤ idleTime o ≤ 10 * Second ∧ Second ≤ reserveFor o ≤ 10 * Minute
    ∧ validateReservationBatch o1 repo = Ok tt) as ->.
  { rewrite validateReservationBatch_ok. split.
    - intros [(? & E1 & ?) _ (? & E2 & ?) ? ? ? ?]. rewrite Hrepo in E1. rewrite Htc in E2.
      injection E1 as <-. injection E2 as <-. done.
    - intros (? & ? & ? & ? & ? & ?). split; try done; eauto. }
  assert ((tx_SupportsAtomicDLQ tc = Some true ∨ allowNonAtomicDLQ o = true) ↔
    negb (bool_decide (is_Some (tx_SupportsAtomicDLQ tc))) && negb (allowNonAtomicDLQ o1) = false
    ∧ bool_decide (is_Some (tx_SupportsAtomicDLQ tc)) && negb (atomicDLQ o1) && negb (allowNonAtomicDLQ o1) = false) as ->.
  { subst o1. cbn. destruct (tx_SupportsAtomicDLQ tc) as [[]|], (allowNonAtomicDLQ o); cbn; naive_solver. }
  change (logger o1) with (logger o). change (workers o1) with (workers o).
  change (idleTime o1) with (idleTime o). change (reserveFor o1) with (reserveFor o).
  destruct (negb _ && negb _); [split; [done|naive_solver]|].
  destruct (_ && _ && _); [split; [done|naive_solver]|].
  destruct (logger o); cbn; [|split; [done|naive_solver]].
  destruct (Z.ltb_spec (workers o) 1); [split; [done|lia]|].
  destruct (Z.ltb_spec (idleTime o) (100 * Millisecond)), (Z.ltb_spec (10 * Second) (idleTime o)); cbn;
    try (split; [done|lia]).
  destruct (Z.ltb_spec (reserveFor o) Second), (Z.ltb_spec (10 * Minute) (reserveFor o)); cbn; try (split; [done|lia]).
  destruct (validateReservationBatch o1 repo) as [[]|e]; cbn; [|split; [done|naive_solver]].
  split; [intros [= <-]; split_and!; done || lia|]. by intros [_ ->].
Qed.

(** Options are accepted exactly when they are in range: repositories and
    transactor present, worker count, idle time and reservation time within
    their bounds, a batch size the repository supports, and a non-atomic
    dead-letter path only with the explicit opt-in.  Acceptance changes
    nothing but the recorded [atomicDLQ], which is what the transactor
    declares. *)
Theorem Options_Validate_spec o o' :
  Options_Validate o = Ok o' ↔ valid_options o ∧ o' = set_atomicDLQ (declares_atomic o) o.
Proof. apply options_validated. Qed.

(** ** Registration *)

(** Every handler is filed under its own capability, no capability has both
    kinds of handler, and a batch handler's limits are ones the repository
    executes. *)
Record registered_ok (s : Service) : Prop := {
  ro_jobs : ∀ c h, s_jobs s !! c = Some h → capabilityForJob h = Ok c;
  ro_batch : ∀ c h cfg, s_batchJobs s !! c = Some (h, cfg) → capabilityForBatchJob h = Ok c
    ∧ 1 ≤ MaxMessages cfg ≤ MaxReservationBatchSize ∧ 1 ≤ MaxBytes cfg ∧ 1 ≤ MaxWait cfg
    ∧ ∃ B, rp_batch (s_repo s) = Some B ∧ MaxMessages cfg ≤ MaxExecutionBatchSize B;
  ro_disjoint : ∀ c, is_Some (s_jobs s !! c) → s_batchJobs s !! c = None
}.

Lemma collect_jobs_ok jobs m m' : collect_jobs jobs m = Ok m' →
  (∀ c h, m !! c = Some h → capabilityForJob h = Ok c) →
  (∀ c h, m' !! c = Some h → capabilityForJob h = Ok c)
  ∧ m ⊆ m' ∧ (∀ job, job ∈ jobs → ∃ h c, job = Some h ∧ capabilityForJob h = Ok c ∧ m' !! c = Some h)
  ∧ (∀ c h, m' !! c = Some h → m !! c = Some h ∨ Some h ∈ jobs).
Proof.
  revert m. induction jobs as [|[job|] jobs IH]; intros m; cbn; [intros [= <-] ?; set_solver| |done].
  destruct (capabilityForJob job) as [c|e] eqn:Hc; cbn; [|done].
  case_bool_decide as Hdup; [done|]. intros Hm' Hm.
  destruct (IH _ Hm') as (H1 & H2 & H3 & H4).
  { intros c' h. rewrite lookup_insert_Some. naive_solver. }
  split_and!; [done| | |].
  - etrans; [|exact H2]. apply insert_subseteq. by apply eq_None_not_Some.
  - intros j [->|Hj]%elem_of_cons; [|by apply H3]. exists job, c. split_and!; [done..|].
    eapply lookup_weaken; [|exact H2]. apply lookup_insert_eq.
  - intros c' h Hh. destruct (H4 _ _ Hh) as [Hi|Hi]; [|set_solver].
    apply lookup_insert_Some in Hi as [[_ <-]|[_ Hi]]; set_solver.
Qed.

Lemma check_unregistered_ok l s : check_unregistered l s = Ok tt ↔
  ∀ c, c ∈ l → s_jobs s !! c = None ∧ s_batchJobs s !! c = None.
Proof.
  induction l as [|c l IH]; cbn; [set_solver|].
  case_bool_decide as H1; [split; [done|]; intros Hall; destruct (Hall c) as [E _]; [set_solver|];
    rewrite E in H1; by destruct H1|].
  case_bool_decide as H2; [split; [done|]; intros Hall; destruct (Hall c) as [_ E]; [set_solver|];
    rewrite E in H2; by destruct H2|].
  rewrite IH. apply eq_None_not_Some in H1, H2. set_solver.
Qed.

(** A registration of single handlers is all or nothing.  It succeeds
    only on a stopped service, and then exactly the given handlers are added,
    each under its own capability, none of them over a handler of either kind
    that was there; otherwise nothing changes.  The registries stay
    well-formed. *)
Theorem RegisterJobs_atomic jobs s r s' :
  registered_ok s → RegisterJobs jobs s = (r, s') →
  registered_ok s' ∧ s_batchJobs s' = s_batchJobs s ∧ (r ≠ Ok tt → s' = s)
  ∧ (r = Ok tt → s_running s = false ∧
       (∀ c h, s_jobs s !! c = Some h → s_jobs s' !! c = Some h) ∧
       (∀ job, job ∈ jobs → ∃ h c, job = Some h ∧ capabilityForJob h = Ok c ∧ s_jobs s' !! c = Some h
          ∧ s_jobs s !! c = None ∧ s_batchJobs s !! c = None) ∧
       ∀ c h, s_jobs s' !! c = Some h → s_jobs s !! c = Some h ∨ Some h ∈ jobs).
Proof.
  intros Hok. unfold RegisterJobs.
  destruct (collect_jobs jobs ∅) as [m|e] eqn:Hc; [|by intros [= <- <-]].
  destruct (s_running s) eqn:Hrun; [by intros [= <- <-]|].
  destruct (check_unregistered _ s) as [[]|e] eqn:Hu; [|by intros [= <- <-]].
  intros [= <- <-]. apply collect_jobs_ok in Hc as (H1 & _ & H3 & H4); [|set_solver].
  rewrite check_unregistered_ok in Hu.
  assert (∀ c h, m !! c = Some h → s_jobs s !! c = None ∧ s_batchJobs s !! c = None) as Hnew.
  { intros c h Hh. apply Hu. apply list_elem_of_fmap. exists (c, h). by rewrite elem_of_map_to_list. }
  assert (∀ c h, (m ∪ s_jobs s) !! c = Some h ↔ m !! c = Some h ∨ s_jobs s !! c = Some h) as Hun.
  { intros c h. rewrite lookup_union_Some; [done|]. apply map_disjoint_spec. intros c' x y Hx Hy.
    destruct (Hnew _ _ Hx). congruence. }
  split_and!; [|done|done|intros _; split_and!; [done| | |]].
  - destruct Hok as [O1 O2 O3]. split; cbn; [|done|].
    + intros c h [Hh|Hh]%Hun; eauto.
    + intros c [h [Hh|Hh]%Hun]; [by destruct (Hnew _ _ Hh)|eauto].
  - cbn. intros c h Hh. apply Hun. by right.
  - cbn. intros job (h & c & -> & Hcap & Hm)%H3. exists h, c. destruct (Hnew _ _ Hm).
    split_and!; try done. apply Hun. by left.
  - cbn. intros c h [Hh|Hh]%Hun; [|by left]. destruct (H4 _ _ Hh) as [Hbad|]; [done|by right].
Qed.

(** A batch handler is registered only on a stopped service whose
    repository executes batches, with limits normalised into the supported
    bounds and not above the repository's maximum, and never next to another
    handler of the same capability; a refusal changes nothing. *)
Theorem RegisterBatchJob_sound job config s r s' :
  registered_ok s → RegisterBatchJob job config s = (r, s') →
  registered_ok s' ∧ s_jobs s' = s_jobs s ∧ (r ≠ Ok tt → s' = s)
  ∧ (r = Ok tt → ∃ h c cfg, job = Some h ∧ capabilityForBatchJob h = Ok c ∧ normalize config = Ok cfg
       ∧ s_running s = false ∧ s_jobs s !! c = None ∧ s_batchJobs s !! c = None
       ∧ s_batchJobs s' = <[c := (h, cfg)]> (s_batchJobs s)).
Proof.
  intros Hok. unfold RegisterBatchJob. destruct job as [h|]; [|by intros [= <- <-]].
  destruct (rp_batch (s_repo s)) as [B|] eqn:HB; [|by intros [= <- <-]].
  destruct (normalize config) as [cfg|e] eqn:Hn; [|by intros [= <- <-]].
  destruct (Z.ltb_spec (MaxExecutionBatchSize B) 1), (Z.ltb_spec (MaxExecutionBatchSize B) (MaxMessages cfg));
    cbn; try by intros [= <- <-].
  destruct (capabilityForBatchJob h) as [c|e] eqn:Hc; [|by intros [= <- <-]].
  destruct (s_running s) eqn:Hrun; [by intros [= <- <-]|].
  case_bool_decide as H1; [by intros [= <- <-]|]. case_bool_decide as H2; [by intros [= <- <-]|].
  apply eq_None_not_Some in H1, H2. intros [= <- <-]. split_and!; [|done|done|].
  - destruct Hok as [O1 O2 O3]. split; cbn; [done| |].
    + intros c' h' cfg'. rewrite lookup_insert_Some. intros [[<- [= <- <-]]|[_ Hl]]; [|by apply O2].
      destruct (normalize_range _ _ Hn) as (? & ? & ?). split_and!; try done; try lia. eauto.
    + intros c' Hs. rewrite lookup_insert_ne; [by apply O3|]. intros ->. rewrite H1 in Hs. by destruct Hs.
  - intros _. exists h, c, cfg. done.
Qed.
