(* ===== verification/PgJobs.v ===== *)
(** * PostgreSQL jobs repository

    backends/pgsql/repositories/jobsrepo/{api,unique,sql_tx}.go and
    backends/pgsql/storage/errors.go.  Each operation is one statement; the
    statements of a [WITH] query see the same snapshot.  [ts] is the rounding
    of a Go time to the microsecond resolution of [timestamptz]. *)

From S2P Require Import Prelude GoTime Errors Models Batch Sql Repo.
Open Scope Z_scope.

Module Pg.

(** ** backends/pgsql/storage/errors.go *)

Definition ErrorTransform (e : err) : err :=
  if errors_Is e SqlErrNoRows then wrapf "postgres error" (EJoin [ESentinel ErrNoRows; e])
  else if bool_decide (is_Some (String.index 0 "23505" (Error e)))
  then wrapf "postgres error" (EJoin [ESentinel ErrRowAlreadyExists; e])
  else e.

(** Run a statement, wrapping the error it reports. *)
Definition stmt {A} (op : string) (o : Op A) : Op A := λ d,
  match o d with
  | (Ok a, d') => (Ok a, d')
  | (Err e, d') => (Err (wrapf op (ErrorTransform e)), d')
  end.

(** A validation that fails is returned under the operation's name. *)
Definition checked {A} (op : string) (v : result unit) (o : Op A) : Op A :=
  guarded (res_map_err (wrapf op) v) o.

Definition validateBatchRequest (leaseToken : LeaseToken) (limit : Z) : result unit :=
  _ ← res_map_err (wrapf "invalid lease token") (LeaseTokenType.Validate leaseToken);
  fail_if ((limit <? 1) || (MaxReservationBatchSize <? limit))
          (EText "limit must be between 1 and 1000").

Definition validateBatchLeaseRequest (jobIDs : list JobID) (leaseToken : LeaseToken) : result unit :=
  _ ← res_map_err (wrapf "invalid lease token") (LeaseTokenType.Validate leaseToken);
  _ ← fail_if ((Z.of_nat (length jobIDs) <? 1) || (MaxReservationBatchSize <? Z.of_nat (length jobIDs)))
              (EText "job ID count must be between 1 and 1000");
  check_from (λ _ id, res_map_err (wrapf "invalid job ID") (JobIDType.Validate id)) 0 jobIDs.

Section ops.
Context (ts : Z → Z).

Definition Create (job : Job) : Op JobID := λ d,
  let job := mkJob (ID job) (Queue job) (Name job) (normalizeSchemaVersion (SchemaVersionOf job))
                   (Payload job) (Attempts job) (ReservedAt job) (LeaseTokenOf job)
                   (DeduplicationKey job) (ts (AvailableAt job)) (ts (CreatedAt job)) in
  match insert_job job d with
  | (Ok _, d') => (Ok (ID job), d')
  | (Err e, d') => (Err (wrapf "error creating" (ErrorTransform e)), d')
  end.

Definition CreateJobVersioned (newID : JobID) (now : Z) (name : string)
    (schemaVersion : SchemaVersion) (payload : string) (availableAt : Z) : Op JobID :=
  checked "validate capability"
    (Validate {| cap_Name := name; cap_SchemaVersion := schemaVersion |})
    (Create (mkJob newID "queue" name schemaVersion payload 0 None LeaseTokenNil None availableAt now)).

(** [attempts] is a smallint: counting past its range is an error of the
    statement. *)
Definition smallint_max : Z := 32767.
Definition attempts_overflow (rows : list Job) : bool := existsb (λ j, smallint_max <=? Attempts j) rows.

(** [update jobs ... from selected ... returning], then the rows in queue
    order; an empty answer is [ErrNoJobs]. *)
Definition reserve_selected (op : string) (until : Z) (leaseToken : LeaseToken)
    (candidates : list Job) : Op (list Job) := λ d,
  let selected := in_ids (ID <$> candidates) in
  if attempts_overflow candidates
  then (Err (wrapf op (wrapf "query context"
              (ErrorTransform (EText "smallint out of range (SQLSTATE 22003)")))), d)
  else
    let t' := (sql_update selected (reserve_row (ts until) leaseToken) (jobs_t d)).1 in
    match sort_slice queue_less (rows_where selected t') with
    | [] => (Err (ESentinel ErrNoJobs), d)
    | updated => (Ok updated, set_jobs t' d)
    end.

(** [requested join jobs]: a row appears once per requested capability it
    matches. *)
Definition join_requested (caps : list JobCapability) (rows : list Job) : list Job :=
  rows ≫= λ j, (λ _, j) <$> filter (λ c, row_is j c = true) caps.

Definition findAndReserveJobs (locked : gset JobID) (now until : Z) (leaseToken : LeaseToken)
    (capabilities : list JobCapability) (limit : Z) : Op (list Job) :=
  let op := "jobs.repo.FindAndReserveJobs" in
  checked op (validateBatchRequest leaseToken limit)
  (checked op (check_from (λ _ c, res_map_err (wrapf "invalid capability") (Validate c)) 0 capabilities)
  (λ d,
    let unlocked := rows_where (unlocked_ready locked (ts now)) (jobs_t d) in
    let candidates := top queue_less (Z.to_nat limit) (join_requested capabilities unlocked) in
    reserve_selected op until leaseToken candidates d)).

Definition FindAndReserveJobsForCapabilities (locked : gset JobID) (now until : Z)
    (leaseToken : LeaseToken) (capabilities : list JobCapability) (limit : Z) : Op (list Job) :=
  match capabilities with
  | [] => fail (ESentinel ErrNoJobs)
  | _ => findAndReserveJobs locked now until leaseToken capabilities limit
  end.

Definition FindAndReserveJobsForCapability (locked : gset JobID) (now until : Z)
    (leaseToken : LeaseToken) (capability : JobCapability) (limit : Z) : Op (list Job) :=
  FindAndReserveJobsForCapabilities locked now until leaseToken [capability] limit.

(** [row_number()] and [sum(payload_bytes)] over the candidates in order,
    then [where ordinal = 1 or cumulative_bytes <= MaxBytes]. *)
Fixpoint ranked (maxBytes : Z) (ordinal : nat) (cumulative : Z) (candidates : list Job) : list Job :=
  match candidates with
  | [] => []
  | j :: rest =>
      let cumulative := cumulative + payload_len j in
      let rest := ranked maxBytes (S ordinal) cumulative rest in
      if (ordinal =? 1)%nat || (cumulative <=? maxBytes) then j :: rest else rest
  end.

Definition FindAndReserveJobsForCapabilityBounded (locked : gset JobID) (now until : Z)
    (leaseToken : LeaseToken) (capability : JobCapability) (limits : BatchClaimLimits) : Op (list Job) :=
  let op := "jobs.repo.FindAndReserveJobsForCapabilityBounded" in
  checked op (validateBatchRequest leaseToken (lim_MaxMessages limits))
  (checked op (fail_if (lim_MaxBytes limits <? 1) (EText "max bytes must be positive"))
  (checked op (res_map_err (wrapf "invalid capability") (Validate capability))
  (λ d,
    let candidates := top queue_less (Z.to_nat (lim_MaxMessages limits))
      (rows_where (λ j, unlocked_ready locked (ts now) j && row_is j capability) (jobs_t d)) in
    reserve_selected op until leaseToken (ranked (lim_MaxBytes limits) 1 0 candidates) d))).

Definition ExtendJobLeases (jobIDs : list JobID) (leaseToken : LeaseToken) (now until : Z) : Op Z :=
  checked "jobs.repo.ExtendJobLeases" (validateBatchLeaseRequest jobIDs leaseToken)
    (exec_update (λ j, in_ids jobIDs j && live leaseToken (ts now) j) (extend_row (ts until))).

Definition ReleaseUnstartedJobsWithLease (jobIDs : list JobID) (leaseToken : LeaseToken) (now : Z) : Op Z :=
  checked "jobs.repo.ReleaseUnstartedJobsWithLease" (validateBatchLeaseRequest jobIDs leaseToken)
    (exec_update (λ j, in_ids jobIDs j && live leaseToken (ts now) j && (0 <? Attempts j)) release_row).

Definition validate_outcomes (leaseToken : LeaseToken) (outcomes : list BatchJobOutcome) : result unit :=
  _ ← res_map_err (wrapf "invalid lease token") (LeaseTokenType.Validate leaseToken);
  _ ← fail_if ((Z.of_nat (length outcomes) <? 1) || (MaxReservationBatchSize <? Z.of_nat (length outcomes)))
              (EText "outcome count must be between 1 and 1000");
  check_outcomes "duplicate JobID" outcomes ∅.

(** [input.available_at]: the outcome's time, or [now] for an outcome that
    has none. *)
Definition next_available_at (now : Z) (o : BatchJobOutcome) : Z :=
  ts (if IsZero (o_AvailableAt o) then now else o_AvailableAt o).

(** The rows of [owned] whose input has one of the kinds. *)
Definition owned_kind (leaseToken : LeaseToken) (now : Z) (outcomes : list BatchJobOutcome)
    (kinds : list BatchJobOutcomeKind) (j : Job) : bool :=
  match outcome_of outcomes (ID j) with
  | Some o => live leaseToken (ts now) j && kind_in kinds o
  | None => false
  end.

Definition outcome_update (now : Z) (outcomes : list BatchJobOutcome) (j : Job) : Job :=
  match outcome_of outcomes (ID j) with
  | Some o =>
      mkJob (ID j) (Queue j) (Name j) (SchemaVersionOf j) (Payload j)
            (if kind_in [BatchJobOutcomeDefer] o then Attempts j - 1 else Attempts j)
            None LeaseTokenNil (DeduplicationKey j) (next_available_at now o) (CreatedAt j)
  | None => j
  end.

(** One [with] statement: [deleted] and [updated] read the same snapshot
    [owned]; a count other than the input's rolls the transaction back. *)
Definition ApplyBatchJobOutcomes (leaseToken : LeaseToken) (now : Z)
    (outcomes : list BatchJobOutcome) : Op Z :=
  let op := "jobs.repo.ApplyBatchJobOutcomes" in
  checked op (validate_outcomes leaseToken outcomes) (λ d,
    let del := owned_kind leaseToken now outcomes [BatchJobOutcomeSuccess; BatchJobOutcomeDLQ] in
    let upd j := owned_kind leaseToken now outcomes [BatchJobOutcomeRetry; BatchJobOutcomeDefer] j
                 && (0 <? Attempts j) in
    let t' := omap (λ j, if del j then None
                         else if upd j then Some (outcome_update now outcomes j) else Some j) (jobs_t d) in
    let n := affected del (jobs_t d) + affected upd (jobs_t d) in
    let want := Z.of_nat (length outcomes) in
    if n =? want then (Ok n, set_jobs t' d)
    else (Err (wrapf op (wrapf "apply outcomes" (ErrorTransform finalized_partly))), d)).

Definition DeferJobWithLease (jobID : JobID) (leaseToken : LeaseToken) (now availableAt : Z) : Op Z :=
  ApplyBatchJobOutcomes leaseToken now
    [{| o_JobID := jobID; o_Kind := BatchJobOutcomeDefer; o_AvailableAt := availableAt; o_Reason := "" |}].

Definition validate_id_token (jobID : JobID) (leaseToken : LeaseToken) : result unit :=
  _ ← fail_if (JobIDType.IsZero jobID) (EText "invalid id");
  res_map_err (wrapf "invalid lease token") (LeaseTokenType.Validate leaseToken).

Definition DeleteJobWithLease (jobID : JobID) (leaseToken : LeaseToken) (now : Z) : Op Z :=
  checked "jobs.repo.DeleteJobWithLease" (validate_id_token jobID leaseToken)
    (exec_delete (λ j, N.eqb (ID j) jobID && live leaseToken (ts now) j)).

Definition RescheduleJobWithLease (jobID : JobID) (leaseToken : LeaseToken) (now availableAt : Z) : Op Z :=
  checked "jobs.repo.RescheduleJobWithLease" (validate_id_token jobID leaseToken)
    (exec_update (λ j, N.eqb (ID j) jobID && live leaseToken (ts now) j) (reschedule_row (ts availableAt))).
End ops.

(** ** The statements keep the contract *)

Lemma ErrorTransform_Is e s : errors_Is e s = true → errors_Is (ErrorTransform e) s = true.
Proof.
  intros Hs. unfold ErrorTransform. repeat case_match; [| |done].
  all: rewrite errors_Is_wrapf; apply errors_Is_preorder; rewrite preorder_join;
    apply elem_of_cons; right; apply preorder_all_elem; exists e; split;
    [set_solver|by apply errors_Is_preorder].
Qed.

Lemma validateBatchRequest_ok tok limit :
  validateBatchRequest tok limit = Ok tt ↔ tok ≠ LeaseTokenNil ∧ 1 ≤ limit ≤ MaxReservationBatchSize.
Proof.
  unfold validateBatchRequest.
  rewrite res_seq_ok, res_map_err_ok, lease_token_valid, fail_if_ok, orb_false_iff, !Z.ltb_ge. naive_solver lia.
Qed.

Lemma validateBatchLeaseRequest_ok ids tok :
  validateBatchLeaseRequest ids tok = Ok tt ↔
  tok ≠ LeaseTokenNil ∧ 1 ≤ Z.of_nat (length ids) ≤ MaxReservationBatchSize ∧ JobIDNil ∉ ids.
Proof.
  unfold validateBatchLeaseRequest.
  rewrite !res_seq_ok, res_map_err_ok, lease_token_valid, fail_if_ok, orb_false_iff, !Z.ltb_ge, check_from_ok.
  setoid_rewrite res_map_err_ok. setoid_rewrite job_id_valid.
  assert ((∀ k x, ids !! k = Some x → x ≠ JobIDNil) ↔ JobIDNil ∉ ids) as ->.
  { rewrite list_elem_of_lookup. naive_solver. }
  naive_solver lia.
Qed.

Lemma pg_id_token_ok id tok :
  validate_id_token id tok = Ok tt ↔ id ≠ JobIDNil ∧ tok ≠ LeaseTokenNil.
Proof.
  unfold validate_id_token, JobIDType.IsZero.
  by rewrite res_seq_ok, res_map_err_ok, lease_token_valid, fail_if_ok, N.eqb_neq.
Qed.

Lemma validate_outcomes_ok tok os :
  validate_outcomes tok os = Ok tt ↔ outcomes_ok MaxReservationBatchSize tok os.
Proof.
  unfold validate_outcomes, outcomes_ok.
  rewrite !res_seq_ok, res_map_err_ok, lease_token_valid, fail_if_ok, orb_false_iff, !Z.ltb_ge, check_outcomes_ok.
  naive_solver (lia || set_solver).
Qed.

Lemma checked_ok {A} op v (o : Op A) d a d' :
  checked op v o d = (Ok a, d') ↔ v = Ok tt ∧ o d = (Ok a, d').
Proof. unfold checked. by rewrite guarded_ok, res_map_err_ok. Qed.

Lemma checked_atomic {A} op v (o : Op A) : atomic o → atomic (checked op v o).
Proof. apply guarded_atomic. Qed.
#[local] Hint Resolve checked_atomic : outbox.

Lemma checked_pass {A} op v (o : Op A) d : v = Ok tt → checked op v o d = o d.
Proof. by intros ->. Qed.

Section laws.
Context (ts : Z → Z) `{!Rounding ts}.

Lemma reserve_selected_atomic op until tok c : atomic (reserve_selected ts op until tok c).
Proof. intros d e d'. unfold reserve_selected. repeat case_match; naive_solver. Qed.

(** A reservation that answers took a non-empty selection and returns it as
    stored, in queue order. *)
Lemma reserve_selected_ok op until tok c d js d' : keyed (jobs_t d) →
  (∀ j, j ∈ c → jobs_t d !! ID j = Some j) →
  reserve_selected ts op until tok c d = (Ok js, d') →
  c ≠ [] ∧ js ≡ₚ reserve_row (ts until) tok <$> remove_dups c
  ∧ (NoDup c → StronglySorted (not_after queue_less) c → js = reserve_row (ts until) tok <$> c)
  ∧ StronglySorted (not_after queue_less) js
  ∧ d' = set_jobs (sql_update (in_ids (ID <$> c)) (reserve_row (ts until) tok) (jobs_t d)).1 d.
Proof.
  intros Hk Hc. unfold reserve_selected. case_match; [done|].
  destruct (sort_slice queue_less _) as [|j0 l] eqn:E; [done|]. intros [= <- <-].
  pose proof (reserved_rows (ts until) tok _ c Hk Hc) as Hp. rewrite <- (sort_slice_perm queue_less), E in Hp.
  split_and!.
  - intros ->. apply Permutation_length in Hp. cbn in Hp. lia.
  - done.
  - intros Hnd Hs. rewrite <- E. by apply reserved_rows_sorted.
  - rewrite <- E. apply sort_slice_sorted. apply _.
  - done.
Qed.

Lemma join_requested_elem caps rows j :
  j ∈ join_requested caps rows ↔ j ∈ rows ∧ existsb (row_is j) caps = true.
Proof.
  unfold join_requested. rewrite list_elem_of_bind, existsb_exists. split.
  - intros (r & (c & -> & [Hm Hc]%list_elem_of_filter)%list_elem_of_fmap & Hr).
    split; [done|]. exists c. by rewrite <- list_elem_of_In.
  - intros (Hr & c & Hc%list_elem_of_In & Hm). exists j. split; [|done].
    apply list_elem_of_fmap. exists c. split; [done|]. by apply list_elem_of_filter.
Qed.

(** Distinct capabilities match a row at most once. *)
Lemma row_is_unique caps j : NoDup caps → (length (filter (λ c, row_is j c = true) caps) ≤ 1)%nat.
Proof.
  intros Hnd. apply (NoDup_filter (λ c, row_is j c = true)) in Hnd.
  assert (∀ c, c ∈ filter (λ c, row_is j c = true) caps →
            c = {| cap_Name := Name j; cap_SchemaVersion := SchemaVersionOf j |}) as Heq.
  { intros [n v] [[->%String.eqb_eq ->%Z.eqb_eq]%andb_true_iff _]%list_elem_of_filter. done. }
  destruct (filter _ caps) as [|a [|b l]]; cbn; [lia..|].
  apply NoDup_cons in Hnd as [Hn _]. rewrite (Heq a), (Heq b) in Hn; set_solver.
Qed.

Lemma join_requested_NoDup caps rows : NoDup caps → NoDup rows → NoDup (join_requested caps rows).
Proof.
  intros Hc. induction 1 as [|j rows Hj Hrows IH]; [constructor|].
  unfold join_requested in *. cbn. apply NoDup_app. split_and!; [|set_solver|done].
  - pose proof (row_is_unique caps j Hc). destruct (filter _ caps) as [|? [|]]; cbn in *; try lia;
      repeat constructor; set_solver.
Qed.

Lemma findAndReserveJobs_atomic locked now until tok caps limit :
  atomic (findAndReserveJobs ts locked now until tok caps limit).
Proof. repeat apply checked_atomic. intros d e d'. apply reserve_selected_atomic. Qed.

Lemma findAndReserveJobs_ok locked now until tok caps limit d js d' : keyed (jobs_t d) →
  findAndReserveJobs ts locked now until tok caps limit d = (Ok js, d') →
  claim_base ts locked now until tok caps limit d js d'
  ∧ claim_prefix ts locked now caps limit d js.
Proof.
  intros Hk. unfold findAndReserveJobs.
  intros [[Htok Hlim]%validateBatchRequest_ok [_ H]%checked_ok]%checked_ok.
  set (rows := join_requested _ _) in H.
  assert (∀ j, j ∈ rows ↔ jobs_t d !! ID j = Some j ∧ claimable (ts now) caps j = true ∧ ID j ∉ locked)
    as Hrows.
  { intros j. unfold rows, claimable.
    rewrite join_requested_elem, rows_where_elem, unlocked_ready_spec, andb_true_iff by done. tauto. }
  set (c := top _ _ rows) in H.
  assert (∀ j, j ∈ c → jobs_t d !! ID j = Some j ∧ claimable (ts now) caps j = true ∧ ID j ∉ locked) as Hc.
  { intros j Hj%top_elem. by apply Hrows. }
  apply reserve_selected_ok in H as (Hne & Hp & _ & Hs & ->); [|done|intros j Hj; by apply Hc].
  assert (Z.of_nat (length c) ≤ limit) by (unfold c; rewrite top_length; lia).
  split; [apply (claim_base_intro ts locked now until (ts until)); auto using ts_idem|].
  intros Hnd. eapply (claim_prefix_intro ts locked now (ts until) tok caps limit d c js Hp rows); [done| |lia|].
  - apply join_requested_NoDup; [done|]. by apply rows_where_distinct.
  - intros r H1 H2 H3. by apply Hrows.
Qed.

(** The window sums select the bounded prefix. *)
Lemma ranked_later maxBytes n used l : (2 ≤ n)%nat → maxBytes < used → ranked maxBytes n used l = [].
Proof.
  revert n used. induction l as [|j l IH]; intros n used Hn Hu; [done|]. cbn.
  pose proof (payload_len_nonneg j).
  rewrite (proj2 (Nat.eqb_neq n 1)), (proj2 (Z.leb_gt _ _)) by lia. cbn. apply IH; lia.
Qed.

Lemma ranked_select maxBytes n used l : (2 ≤ n)%nat →
  ranked maxBytes n used l = (selectBatchPayloadLimitWithUsed l maxBytes used).1.
Proof.
  revert n used. induction l as [|j l IH]; intros n used Hn; [done|]. cbn.
  rewrite (proj2 (Nat.eqb_neq n 1)) by lia. cbn.
  destruct (Z.leb_spec (used + payload_len j) maxBytes) as [Hle|Hgt].
  - rewrite (proj2 (Z.ltb_ge _ _)), IH by lia. by destruct (selectBatchPayloadLimitWithUsed _ _ _).
  - rewrite (proj2 (Z.ltb_lt _ _)) by lia. apply ranked_later; lia.
Qed.

Lemma ranked_bounded maxBytes l : ranked maxBytes 1 0 l = bounded_prefix maxBytes l.
Proof.
  destruct l as [|j l]; [done|]. cbn -[Z.add]. rewrite Z.add_0_l.
  destruct (Z.ltb_spec maxBytes (payload_len j)); [by rewrite ranked_later by lia|].
  by rewrite ranked_select by lia.
Qed.

Lemma bounded_ok_pg locked now until tok cap limits d js d' : keyed (jobs_t d) →
  FindAndReserveJobsForCapabilityBounded ts locked now until tok cap limits d = (Ok js, d') →
  claim_base ts locked now until tok [cap] (lim_MaxMessages limits) d js d'
  ∧ 1 ≤ lim_MaxBytes limits
  ∧ js = reserve_row (ts until) tok <$> bounded_claim ts locked now cap limits d.
Proof.
  intros Hk. unfold FindAndReserveJobsForCapabilityBounded.
  intros [[Htok Hlim]%validateBatchRequest_ok [Hbytes%fail_if_ok [_ H]%checked_ok]%checked_ok]%checked_ok.
  apply Z.ltb_ge in Hbytes. rewrite ranked_bounded in H. fold (bounded_claim ts locked now cap limits d) in H.
  pose proof (bounded_claim_elem ts locked now cap limits d Hk) as Hc.
  pose proof (bounded_claim_length ts locked now cap limits d) as Hlen.
  apply reserve_selected_ok in H as (Hne & Hp & Heq & Hs & ->); [|done|intros j Hj; by apply Hc].
  split; [apply (claim_base_intro ts locked now until (ts until)); auto using ts_idem; lia|].
  split; [lia|]. apply Heq; [by apply bounded_claim_NoDup|by apply bounded_claim_sorted].
Qed.

(** *** Outcomes *)

Let del tok now os := owned_kind ts tok now os [BatchJobOutcomeSuccess; BatchJobOutcomeDLQ].
Let upd tok now os j := owned_kind ts tok now os [BatchJobOutcomeRetry; BatchJobOutcomeDefer] j && (0 <? Attempts j).

Ltac decide_kinds :=
  repeat first [rewrite bool_decide_true by set_solver | rewrite bool_decide_false by set_solver].

(** What the two branches of the statement do to a row is what its outcome
    asks for. *)
Lemma del_upd_settles tok now os j : del tok now os j || upd tok now os j = settles tok (ts now) os j.
Proof.
  unfold del, upd, owned_kind, settles, settleable, kind_in. destruct (outcome_of os (ID j)) as [o|]; [|done].
  destruct (o_Kind o); cbn; by rewrite ?andb_true_r, ?andb_false_r, ?orb_false_r.
Qed.

Lemma del_upd_disjoint tok now os j : del tok now os j = true → upd tok now os j = false.
Proof.
  unfold del, upd, owned_kind, kind_in. destruct (outcome_of os (ID j)) as [o|]; [|done].
  destruct (o_Kind o); cbn; by rewrite ?andb_false_r.
Qed.

Lemma outcome_update_row now os o j : outcome_of os (ID j) = Some o → outcome_ok o = true →
  o_Kind o ∈ [BatchJobOutcomeRetry; BatchJobOutcomeDefer] →
  outcome_row ts o j = Some (outcome_update ts now os j).
Proof.
  intros Ho [_ Hok]%andb_true_iff Hkind. unfold outcome_update, outcome_row, next_available_at, kind_in.
  rewrite Ho. destruct (o_Kind o) eqn:E; try set_solver; apply negb_true_iff in Hok; by rewrite Hok.
Qed.

Lemma outcome_row_split tok now os o j : Forall (λ o, outcome_ok o = true) os →
  outcome_of os (ID j) = Some o → settleable tok (ts now) o j = true →
  outcome_row ts o j = if del tok now os j then None else Some (outcome_update ts now os j).
Proof.
  intros HF Ho [Hlive _]%andb_true_iff. pose proof (outcome_of_Some _ _ _ Ho) as [Hin _].
  rewrite Forall_forall in HF. pose proof (outcome_update_row now os o j Ho (HF _ Hin)) as Hrow.
  unfold del, owned_kind, kind_in. rewrite Ho, Hlive. unfold outcome_row in *.
  destruct (o_Kind o); decide_kinds; try done; apply Hrow; set_solver.
Qed.

Lemma apply_atomic_pg tok now os : atomic (ApplyBatchJobOutcomes ts tok now os).
Proof. apply checked_atomic. intros d e d'. cbn zeta. case_match; naive_solver. Qed.

Lemma apply_spec tok now os d : keyed (jobs_t d) →
  outcomes_ok MaxReservationBatchSize tok os →
  (all_settleable tok (ts now) os (jobs_t d) →
     ApplyBatchJobOutcomes ts tok now os d
     = (Ok (Z.of_nat (length os)), set_jobs (settle ts os (jobs_t d)) d))
  ∧ (¬ all_settleable tok (ts now) os (jobs_t d) →
     ∃ e, ApplyBatchJobOutcomes ts tok now os d = (Err e, d) ∧ errors_Is e ErrLeaseLost = true).
Proof.
  intros Hk Hok. pose proof Hok as (_ & _ & Hnd & HF). unfold ApplyBatchJobOutcomes.
  rewrite checked_pass by (by apply validate_outcomes_ok). cbn zeta.
  fold (del tok now os) (upd tok now os).
  pose proof (settling_count tok (ts now) os _ _ _ Hk Hnd (del_upd_settles tok now os)
                (del_upd_disjoint tok now os)) as Hcount.
  rewrite <- Hcount. split; intros Hn.
  - rewrite (proj2 (Z.eqb_eq _ _) Hn), Hn. do 2 f_equal. apply Hcount in Hn.
    apply (settling_simultaneous ts tok (ts now)); try done; [apply del_upd_settles|].
    intros. by apply outcome_row_split.
  - rewrite (proj2 (Z.eqb_neq _ _) Hn). eexists. split; [done|].
    rewrite !errors_Is_wrapf. by apply ErrorTransform_Is.
Qed.

Lemma Create_atomic j : atomic (Create ts j).
Proof.
  intros d e d'. unfold Create, insert_job. repeat case_match; naive_solver.
Qed.

Lemma create_ok_pg id now name v payload at_ d id' d' :
  CreateJobVersioned ts id now name v payload at_ d = (Ok id', d') →
  id' = id ∧ 0 < v ∧ jobs_t d !! id = None ∧
  ∃ q, d' = set_jobs (<[id := mkJob id q name v payload 0 None LeaseTokenNil None (ts at_) (ts now)]>
                        (jobs_t d)) d.
Proof.
  unfold CreateJobVersioned. intros [Hv%capability_valid H]%checked_ok. cbn in Hv.
  unfold Create, insert_job, normalizeSchemaVersion in H. cbn in H.
  rewrite !(proj2 (Z.leb_gt v 0)) in H by done. case_bool_decide as Hn; [done|]. cbn in H.
  simplify_eq. split_and!; [done..| |by exists "queue"].
  by apply eq_None_not_Some.
Qed.

Definition repository : Repo.JobsRepository := {|
  Repo.CreateJobVersioned := CreateJobVersioned ts;
  Repo.FindAndReserveJobsForCapabilities := FindAndReserveJobsForCapabilities ts;
  Repo.ExtendJobLeases := ExtendJobLeases ts;
  Repo.ReleaseUnstartedJobsWithLease := ReleaseUnstartedJobsWithLease ts;
  Repo.DeleteJobWithLease := DeleteJobWithLease ts;
  Repo.RescheduleJobWithLease := RescheduleJobWithLease ts;
  Repo.DeferJobWithLease := Some (DeferJobWithLease ts);
  Repo.MaxReservationBatchSizeOf := MaxReservationBatchSize;
  Repo.SkipLocked := true
|}.

Definition batch_repository : Repo.BatchJobsRepository := {|
  Repo.FindAndReserveJobsForCapability := FindAndReserveJobsForCapability ts;
  Repo.FindAndReserveJobsForCapabilityBounded := Some (FindAndReserveJobsForCapabilityBounded ts);
  Repo.ApplyBatchJobOutcomes := ApplyBatchJobOutcomes ts;
  Repo.MaxExecutionBatchSize := MaxReservationBatchSize;
  Repo.BatchSkipLocked := true
|}.

Lemma pg_max_ok : 1 ≤ MaxReservationBatchSizeOf repository.
Proof. cbn. unfold MaxReservationBatchSize. lia. Qed.
#[local] Hint Resolve pg_max_ok : outbox.

#[export] Instance pg_batch_repository : BatchRepository ts batch_repository.
Proof.
  split.
  - cbn. unfold MaxReservationBatchSize. lia.
  - intros. apply findAndReserveJobs_atomic.
  - intros *. apply findAndReserveJobs_ok.
  - intros * [= <-]. repeat apply checked_atomic. intros d e d'. apply reserve_selected_atomic.
  - intros * [= <-]. apply bounded_ok_pg.
  - intros. apply apply_atomic_pg.
  - intros * Hk H. pose proof H as [Hok%validate_outcomes_ok _]%checked_ok.
    destruct (apply_spec tok now os d Hk Hok) as [Hyes Hno].
    destruct (decide (affected (settles tok (ts now) os) (jobs_t d) = Z.of_nat (length os))) as [Hall|Hall];
      rewrite settles_count in Hall by (done || apply Hok).
    + cbn in H. rewrite (Hyes Hall) in H. naive_solver.
    + destruct (Hno Hall) as (e & Heq & _). cbn in H. by rewrite Heq in H.
  - intros * Hk Hok Hall. destruct (apply_spec tok now os d Hk Hok) as [Hyes _]. cbn. eauto.
  - intros * Hk Hok Hall. destruct (apply_spec tok now os d Hk Hok) as [_ Hno]. by apply Hno.
Qed.

Lemma defer_ok_pg id tok now at_ d n d' : keyed (jobs_t d) →
  DeferJobWithLease ts id tok now at_ d = (Ok n, d') →
  request_ok repository [id] tok ∧ updates (owned_counted [id] tok (ts now)) (defer_row (ts at_)) d n d'.
Proof.
  intros Hk H. destruct (apply_ok (B := batch_repository) _ _ _ _ _ _ Hk H) as (Hok & Hn & Hall & Hd).
  split; [|by eapply defer_as_outcome].
  apply (request_single _ _ _ pg_max_ok). by apply (outcomes_ok_single MaxReservationBatchSize _ _ Hok).
Qed.

#[export] Instance pg_lease_repository : LeaseRepository ts repository.
Proof.
  split; try (intros; repeat apply checked_atomic; auto with outbox; fail).
  - cbn. unfold MaxReservationBatchSize. lia.
  - intros. apply checked_atomic, Create_atomic.
  - intros *. apply create_ok_pg.
  - intros. cbn. unfold FindAndReserveJobsForCapabilities. case_match; [apply fail_atomic|].
    apply findAndReserveJobs_atomic.
  - intros * Hk. cbn. unfold FindAndReserveJobsForCapabilities. case_match; [done|].
    by apply findAndReserveJobs_ok.
  - intros * [Hv%validateBatchLeaseRequest_ok [= <- <-]]%checked_ok. split; [done|by apply updates_are_found].
  - intros * Hr%validateBatchLeaseRequest_ok. cbn. unfold ExtendJobLeases. rewrite checked_pass by done. eauto.
  - intros * [Hv%validateBatchLeaseRequest_ok [= <- <-]]%checked_ok. done.
  - intros * Hr%validateBatchLeaseRequest_ok. cbn. unfold ReleaseUnstartedJobsWithLease.
    rewrite checked_pass by done. eauto.
  - intros * [Hv%pg_id_token_ok [= <- <-]]%checked_ok. split; [by apply (request_single _ _ _ pg_max_ok)|].
    by apply (deletes_ext _ _ (owned_single id tok (ts now))).
  - intros * Hr%(request_single _ _ _ pg_max_ok)%pg_id_token_ok. cbn. unfold DeleteJobWithLease.
    rewrite checked_pass by done. eauto.
  - intros * [Hv%pg_id_token_ok [= <- <-]]%checked_ok. split; [by apply (request_single _ _ _ pg_max_ok)|].
    by apply (updates_ext _ _ (owned_single id tok (ts now))).
  - intros * Hr%(request_single _ _ _ pg_max_ok)%pg_id_token_ok. cbn. unfold RescheduleJobWithLease.
    rewrite checked_pass by done. eauto.
  - intros * [= <-]. apply apply_atomic_pg.
  - intros * [= <-]. apply defer_ok_pg.
Qed.
End laws.

End Pg.
