(* ===== verification/PgUnique.v ===== *)
(** * PostgreSQL: idempotent staging, pruning, reads and failed jobs

    backends/pgsql/repositories/jobsrepo/{unique,sql_tx,api}.go
    ([createUniqueJob], [CreateJobVersionedUniqueBatch],
    [PruneJobIdempotencyKeys], [GetByID], [All], [GetQueueStats]) and
    backends/pgsql/repositories/jobsfailedrepo/api.go. *)

From S2P Require Import Prelude GoTime Errors Models Batch Fingerprint Sql Repo Registry PgJobs.
Open Scope Z_scope.

Module PgUnique.
Import Pg.

Section ops.
Context (ts : Z → Z) (sha256hex : string → string).

(** [insert into outbox_job_idempotency_keys ... on conflict
    (deduplication_key) do update ... where fingerprint =
    excluded.fingerprint returning job_id]: no row is returned when the
    stored fingerprint differs. *)
Definition upsert_key (k : string) (r : IdemKey) (t : gmap string IdemKey) :
    result (option JobID * gmap string IdemKey) :=
  match t !! k with
  | Some stored =>
      Ok (if String.eqb (ik_fingerprint stored) (ik_fingerprint r) then Some (ik_job_id stored) else None, t)
  | None => t' ← insert_key k r t; Ok (Some (ik_job_id r), t')
  end.

(** The statement of [createUniqueJob]. *)
Definition unique_query (jobID : JobID) (createdAt : Z) (fingerprint key name : string)
    (v : SchemaVersion) (payload : string) (availableAt : Z) : Op JobID := λ d,
  match upsert_key key (mkIdemKey jobID fingerprint (ts createdAt)) (keys_t d) with
  | Err e => (Err e, d)
  | Ok (None, _) => (Err (ESentinel SqlErrNoRows), d)
  | Ok (Some id, t') =>
      if N.eqb id jobID then
        match insert_job (queued ts id createdAt key name v payload availableAt) (set_keys t' d) with
        | (Ok _, d') => (Ok id, d')
        | (Err e, _) => (Err e, d)
        end
      else (Ok id, set_keys t' d)
  end.

(** [scan] executes the statement, on the pool or in a caller's transaction. *)
Definition createUniqueJob (jobID : JobID) (createdAt : Z) (key name : string) (v : SchemaVersion)
    (payload : string) (availableAt : Z) (scan : Op JobID → Op JobID) : Op UniquePutResult :=
  let op := "jobs.repo.CreateJobVersionedUnique" in
  checked op (fail_if (String.eqb key "") (EText "empty deduplication key"))
  (checked op (res_map_err (wrapf "validate capability")
                 (Validate {| cap_Name := name; cap_SchemaVersion := v |}))
  (λ d,
    let fingerprint := jobFingerprint sha256hex name v payload availableAt in
    match scan (unique_query jobID createdAt fingerprint key name v payload availableAt) d with
    | (Ok storedJobID, d') => (Ok {| u_JobID := storedJobID; u_Created := N.eqb storedJobID jobID |}, d')
    | (Err e, d') =>
        (Err (if errors_Is e SqlErrNoRows then ESentinel ErrIdempotencyConflict
              else wrapf op (wrapf "create unique job" (ErrorTransform e))), d')
    end)).

Definition CreateJobVersionedUniqueResult (jobID : JobID) (createdAt : Z) (key name : string)
    (v : SchemaVersion) (payload : string) (availableAt : Z) : Op UniquePutResult :=
  createUniqueJob jobID createdAt key name v payload availableAt (λ q, q).

Definition CreateJobVersionedUnique (jobID : JobID) (createdAt : Z) (key name : string)
    (v : SchemaVersion) (payload : string) (availableAt : Z) : Op JobID := λ d,
  match CreateJobVersionedUniqueResult jobID createdAt key name v payload availableAt d with
  | (Ok r, d') => (Ok (u_JobID r), d')
  | (Err e, d') => (Err e, d')
  end.

(** sql_tx.go: a putter bound to a caller's transaction; [None] is the nil
    transaction, [Some open] tells whether it is still open. *)
Definition NewSQLTxPutter (tx : option bool) : result (option bool) :=
  match tx with
  | None => Err (EText "outbox PostgreSQL transaction is required")
  | Some _ => Ok tx
  end.

Definition PutVersionedUnique_tx (tx : option bool) (jobID : JobID) (createdAt : Z) (key name : string)
    (v : SchemaVersion) (payload : string) (availableAt : Z) : Op UniquePutResult := λ d,
  match tx with
  | None => (Err (EText "outbox PostgreSQL transaction is required"), d)
  | Some opened =>
      let scan (q : Op JobID) : Op JobID := if opened then q else fail (ESentinel SqlErrTxDone) in
      match createUniqueJob jobID createdAt key name v payload availableAt scan d with
      | (Ok r, d') => (Ok r, d')
      | (Err e, d') => (Err (wrapf "stage unique job in caller transaction" e), d')
      end
  end.

(** *** CreateJobVersionedUniqueBatch *)

Definition item_fingerprint (item : UniqueBatchPut) : string :=
  jobFingerprint sha256hex (p_Name item) (p_SchemaVersion item) (p_Payload item) (p_AvailableAt item).

(** [key_rows]: the registered job of every item, [None] where the stored
    fingerprint differs. *)
Fixpoint upsert_keys (newID : nat → JobID) (createdAt : Z) (index : nat) (items : list UniqueBatchPut)
    (t : gmap string IdemKey) : result (list (option JobID) * gmap string IdemKey) :=
  match items with
  | [] => Ok ([], t)
  | item :: rest =>
      '(row, t1) ← upsert_key (p_DeduplicationKey item)
                     (mkIdemKey (newID index) (item_fingerprint item) (ts createdAt)) t;
      '(rows, t2) ← upsert_keys newID createdAt (S index) rest t1;
      Ok (row :: rows, t2)
  end.

(** [inserted_jobs]: the items whose key was registered by this call. *)
Fixpoint insert_staged (newID : nat → JobID) (createdAt : Z) (index : nat) (items : list UniqueBatchPut)
    (rows : list (option JobID)) (d : Db) : result unit * Db :=
  match items, rows with
  | item :: items, row :: rows =>
      if bool_decide (row = Some (newID index)) then
        match insert_job (queued ts (newID index) createdAt (p_DeduplicationKey item) (p_Name item)
                            (p_SchemaVersion item) (p_Payload item) (p_AvailableAt item)) d with
        | (Ok _, d1) => insert_staged newID createdAt (S index) items rows d1
        | (Err e, d1) => (Err e, d1)
        end
      else insert_staged newID createdAt (S index) items rows d
  | _, _ => (Ok tt, d)
  end.

(** The rows of the final [select], in input order. *)
Fixpoint put_results (newID : nat → JobID) (index : nat) (rows : list (option JobID)) :
    list UniquePutResult :=
  match rows with
  | [] => []
  | Some id :: rows =>
      {| u_JobID := id; u_Created := N.eqb id (newID index) |} :: put_results newID (S index) rows
  | None :: rows => put_results newID (S index) rows
  end.

Definition CreateJobVersionedUniqueBatch (newID : nat → JobID) (createdAt : Z)
    (items : list UniqueBatchPut) : Op (list UniquePutResult) :=
  let op := "jobs.repo.CreateJobVersionedUniqueBatch" in
  checked op (fail_if ((Z.of_nat (length items) <? 1) || (MaxReservationBatchSize <? Z.of_nat (length items)))
                      (EText "item count must be between 1 and 1000"))
  (checked op (check_puts items ∅)
  (λ d,
    match upsert_keys newID createdAt 0 items (keys_t d) with
    | Err e => (Err (wrapf op (wrapf "stage unique batch" (ErrorTransform e))), d)
    | Ok (rows, t') =>
        match insert_staged newID createdAt 0 items rows (set_keys t' d) with
        | (Err e, _) => (Err (wrapf op (wrapf "stage unique batch" (ErrorTransform e))), d)
        | (Ok _, d') =>
            let results := put_results newID 0 rows in
            if (length results =? length items)%nat then (Ok results, d')
            else (Err (wrapf op (ESentinel ErrIdempotencyConflict)), d)
        end
    end)).

(** *** PruneJobIdempotencyKeys *)

Definition PruneJobIdempotencyKeys (locked : gset string) (before limit : Z) : Op Z :=
  let op := "jobs.repo.PruneJobIdempotencyKeys" in
  checked op (fail_if ((limit <? 1) || (10000 <? limit)) (EText "limit must be between 1 and 10000"))
    (prune_keys (ts before) limit locked).

Definition unique_repository : Repo.UniqueJobsRepository := {|
  Repo.CreateJobVersionedUniqueResult := CreateJobVersionedUniqueResult;
  Repo.CreateJobVersionedUniqueBatch := CreateJobVersionedUniqueBatch;
  Repo.PruneJobIdempotencyKeys := PruneJobIdempotencyKeys
|}.

(** ** The laws of idempotent staging *)

Let fp := jobFingerprint sha256hex.

Section single.
Context (id : JobID) (now : Z) (key name : string) (v : SchemaVersion) (payload : string) (at_ : Z) (d : Db).
Context (Hkey : key ≠ "") (Hv : 0 < v).

Lemma unique_unguarded :
  CreateJobVersionedUniqueResult id now key name v payload at_ d =
  match unique_query id now (fp name v payload at_) key name v payload at_ d with
  | (Ok stored, d') => (Ok {| u_JobID := stored; u_Created := N.eqb stored id |}, d')
  | (Err e, d') =>
      (Err (if errors_Is e SqlErrNoRows then ESentinel ErrIdempotencyConflict
            else wrapf "jobs.repo.CreateJobVersionedUnique" (wrapf "create unique job" (ErrorTransform e))), d')
  end.
Proof.
  unfold CreateJobVersionedUniqueResult, createUniqueJob.
  rewrite checked_pass by (by apply fail_if_ok, String.eqb_neq).
  by rewrite checked_pass by (by apply res_map_err_ok, capability_valid).
Qed.

Lemma unique_new_pg : registry_ok d → fresh_id id d → keys_t d !! key = None →
  CreateJobVersionedUniqueResult id now key name v payload at_ d
  = (Ok {| u_JobID := id; u_Created := true |},
     staged ts (fp name v payload at_) id now key name v payload at_ d).
Proof.
  intros Hreg (Hz & Hj & Hf) Hk. rewrite unique_unguarded. unfold unique_query, upsert_key, insert_key.
  rewrite Hk. cbn. rewrite Hf. cbn. rewrite N.eqb_refl.
  rewrite insert_staged_job; [|done|done|by apply (registry_unused d)]. by rewrite N.eqb_refl.
Qed.

Lemma unique_known_pg r : fresh_id id d → keys_t d !! key = Some r →
  ik_fingerprint r = fp name v payload at_ →
  CreateJobVersionedUniqueResult id now key name v payload at_ d
  = (Ok {| u_JobID := ik_job_id r; u_Created := false |}, d).
Proof.
  intros (_ & _ & Hf) Hk Hfp. rewrite registered_false in Hf. specialize (Hf _ _ Hk).
  rewrite unique_unguarded. unfold unique_query, upsert_key. rewrite Hk. cbn.
  rewrite Hfp, String.eqb_refl. rewrite (proj2 (N.eqb_neq _ _) Hf).
  rewrite (proj2 (N.eqb_neq _ _) Hf). by destruct d.
Qed.

Lemma unique_conflict_pg r : keys_t d !! key = Some r → ik_fingerprint r ≠ fp name v payload at_ →
  CreateJobVersionedUniqueResult id now key name v payload at_ d = (Err (ESentinel ErrIdempotencyConflict), d).
Proof.
  intros Hk Hfp. rewrite unique_unguarded. unfold unique_query, upsert_key. rewrite Hk. cbn.
  by rewrite (proj2 (String.eqb_neq _ _) Hfp).
Qed.
End single.

(** *** The batch statement *)

Lemma put_results_length newID i rows : (length (put_results newID i rows) ≤ length rows)%nat.
Proof. revert i. induction rows as [|[x|] rows IH]; intros i; cbn; [lia|specialize (IH (S i)); lia..]. Qed.

Section batch.
Context (newID : nat → JobID) (now : Z) (Hinj : ∀ i j, newID i = newID j → i = j).

Let put i item := CreateJobVersionedUniqueResult (newID i) now (p_DeduplicationKey item) (p_Name item)
                    (p_SchemaVersion item) (p_Payload item) (p_AvailableAt item).

(** One item of the batch against one put. *)
Lemma stage_step i item d : put_ok item → registry_ok d → (∀ k, (i ≤ k)%nat → fresh_id (newID k) d) →
  ∃ row t1, upsert_key (p_DeduplicationKey item)
              (mkIdemKey (newID i) (item_fingerprint item) (ts now)) (keys_t d) = Ok (row, t1)
  ∧ match row with
    | Some id => ∃ d1, put i item d = (Ok {| u_JobID := id; u_Created := N.eqb id (newID i) |}, d1)
                 ∧ keys_t d1 = t1 ∧ registry_ok d1 ∧ (∀ k, (S i ≤ k)%nat → fresh_id (newID k) d1)
                 ∧ (if bool_decide (row = Some (newID i))
                    then ∀ t2, insert_job (queued ts (newID i) now (p_DeduplicationKey item) (p_Name item)
                            (p_SchemaVersion item) (p_Payload item) (p_AvailableAt item)) (set_keys t2 d)
                          = (Ok tt, set_keys t2 d1)
                    else d1 = d)
    | None => t1 = keys_t d ∧ ∃ e, put i item d = (Err e, d)
    end.
Proof.
  intros [Hkey Hv] Hreg Hf. pose proof (Hf i ltac:(lia)) as Hfi. unfold put.
  destruct (keys_t d !! p_DeduplicationKey item) as [r|] eqn:Hk.
  - unfold upsert_key. rewrite Hk. cbn.
    destruct (String.eqb_spec (ik_fingerprint r) (item_fingerprint item)) as [Hfp|Hfp].
    + exists (Some (ik_job_id r)), (keys_t d). split; [done|]. exists d.
      pose proof Hfi as (_ & _ & Hr). rewrite registered_false in Hr. specialize (Hr _ _ Hk).
      rewrite (unique_known_pg _ _ _ _ _ _ _ _ Hkey Hv _ Hfi Hk Hfp), (proj2 (N.eqb_neq _ _) Hr).
      split_and!; try done; [intros; apply Hf; lia|]. by rewrite bool_decide_false by congruence.
    + exists None, (keys_t d). split_and!; [done..|]. eexists. by eapply unique_conflict_pg.
  - unfold upsert_key, insert_key. rewrite Hk. cbn. destruct Hfi as (Hz & Hj & Hr). rewrite Hr. cbn.
    exists (Some (newID i)), (<[p_DeduplicationKey item := mkIdemKey (newID i) (item_fingerprint item) (ts now)]> (keys_t d)).
    split; [done|]. eexists. rewrite unique_new_pg by done. split; [by rewrite N.eqb_refl|].
    rewrite bool_decide_true by done. split_and!; [done|by apply staged_registry_ok| |].
    + intros k Hle. apply staged_fresh; [apply Hf; lia|]. intros E%Hinj. lia.
    + intros t2. rewrite insert_staged_job; [done..|by apply (registry_unused d)].
Qed.

Lemma stage_all items : ∀ i d, Forall put_ok items → registry_ok d →
  (∀ k, (i ≤ k)%nat → fresh_id (newID k) d) →
  ∃ rows t', upsert_keys newID now i items (keys_t d) = Ok (rows, t') ∧ length rows = length items
  ∧ ∃ d1, insert_staged newID now i items rows (set_keys t' d) = (Ok tt, d1)
  ∧ match put_all unique_repository newID now i items d with
    | Some (rs, d') => put_results newID i rows = rs ∧ d1 = d' ∧ length rs = length items
    | None => (length (put_results newID i rows) < length items)%nat
    end.
Proof.
  induction items as [|item items IH]; intros i d HF Hreg Hf.
  { exists [], (keys_t d). split_and!; [done..|]. exists d. by destruct d. }
  apply Forall_cons in HF as [Hok HF].
  destruct (stage_step i item d Hok Hreg Hf) as (row & t1 & Hup & Hrow).
  cbn [upsert_keys insert_staged put_all put_results length Repo.CreateJobVersionedUniqueResult unique_repository].
  fold (put i item d). rewrite Hup. cbn [mbind res_bind].
  destruct row as [id|].
  - destruct Hrow as (d1 & Hput & <- & Hreg1 & Hf1 & Hins).
    destruct (IH (S i) d1 HF Hreg1 Hf1) as (rows & t' & Hups & Hlen & d2 & Hstage & Hall).
    rewrite Hups. exists (Some id :: rows), t'. cbn. split; [done|]. split; [by rewrite Hlen|].
    exists d2. split.
    { case_bool_decide; [by rewrite Hins|]. by subst d1. }
    rewrite Hput. destruct (put_all _ _ _ (S i) items d1) as [[rs d']|]; [|lia].
    destruct Hall as (-> & -> & Hl). cbn. by rewrite Hl.
  - destruct Hrow as [-> [e Hput]].
    destruct (IH (S i) d HF Hreg ltac:(intros; apply Hf; lia)) as (rows & t' & Hups & Hlen & d2 & Hstage & _).
    rewrite Hups. exists (None :: rows), t'. cbn. split; [done|]. split; [by rewrite Hlen|].
    exists d2. split; [done|]. rewrite Hput.
    pose proof (put_results_length newID (S i) rows). lia.
Qed.
End batch.

(** *** Pruning *)

Lemma prune_ok_pg locked before limit d n d' :
  PruneJobIdempotencyKeys locked before limit d = (Ok n, d') →
  ∃ doomed : gset string, d' = set_keys (filter (λ kr, kr.1 ∉ doomed) (keys_t d)) d
  ∧ n = Z.of_nat (size doomed) ∧ n ≤ limit
  ∧ ∀ k, k ∈ doomed → ∃ r, keys_t d !! k = Some r ∧ ik_created_at r < ts before
                            ∧ key_in_use k (jobs_t d) = false.
Proof. intros [[Hl%Z.ltb_ge _]%fail_if_ok%orb_false_iff Hop]%checked_ok. by eapply prune_keys_ok. Qed.

#[export] Instance pg_unique_repository : UniqueRepository ts fp unique_repository.
Proof.
  split.
  - intros. repeat apply checked_atomic. intros d e d'. unfold unique_query, insert_job.
    repeat case_match; naive_solver.
  - intros. by apply unique_new_pg.
  - intros. by apply unique_known_pg.
  - intros * Hkey Hv Hk Hne. exists (ESentinel ErrIdempotencyConflict). split; [|done].
    by eapply unique_conflict_pg.
  - intros * [->|Hv]; cbn; unfold CreateJobVersionedUniqueResult, createUniqueJob, checked, guarded; cbn; [eauto|].
    unfold Validate. cbn. rewrite (proj2 (Z.leb_le v 0)) by done. destruct (String.eqb key ""); cbn; eauto.
  - intros * (Hlen & HF & Hnd) Hreg Hinj Hf.
    destruct (stage_all newID now Hinj items 0 d HF Hreg) as (rows & t' & Hups & Hrows & d1 & Hst & Hall).
    { intros; apply Hf. }
    cbn [Repo.CreateJobVersionedUniqueBatch unique_repository]. unfold CreateJobVersionedUniqueBatch.
    rewrite checked_pass by (apply fail_if_ok, orb_false_iff; rewrite !Z.ltb_ge; lia).
    rewrite checked_pass by (apply check_puts_ok; set_solver). rewrite Hups, Hst.
    destruct (put_all _ _ _ _ _ _) as [[rs d']|].
    + destruct Hall as (-> & -> & ->). by rewrite Nat.eqb_refl.
    + rewrite (proj2 (Nat.eqb_neq _ _)) by lia. eexists. split; [done|]. by rewrite errors_Is_wrapf.
  - intros. apply checked_atomic. by intros d e d'.
  - apply prune_ok_pg.
Qed.
End ops.
End PgUnique.
