(* ===== verification/PgReads.v ===== *)
(** * PostgreSQL: reads, queue statistics and failed jobs

    backends/pgsql/repositories/jobsrepo/api.go ([GetByID], [All],
    [GetQueueStats]) and backends/pgsql/repositories/jobsfailedrepo/api.go.
    The aggregates are those of [Stats]. *)

From S2P Require Import Prelude GoTime Errors Models Batch Sql Repo Stats PgJobs.
Open Scope Z_scope.

Module PgReads.
Import Pg.

Section reads.
Context (ts : Z → Z).

(** [order by name, schema_version] under the database's collation of
    names. *)
Context (collate : JobCapability → JobCapability → bool).

Definition GetQueueStats (observedAt : Z) : Op QueueStats := λ d,
  let rows := all_rows (jobs_t d) in
  let groups := group_stats (ts observedAt) rows <$> sort_slice collate (remove_dups (row_capability <$> rows)) in
  (Ok (accumulate (no_stats observedAt) groups), d).

(** The aggregate counts every row in exactly one group. *)
#[export] Instance pg_stats_repository : StatsRepository ts GetQueueStats.
Proof.
  split; [by intros observedAt d r d' [= <- <-]|]. intros observedAt d st d' [= <- <-].
  eexists. split; [apply sort_slice_perm|done].
Qed.

Definition GetByID (id : JobID) : Op Job := λ d,
  if JobIDType.IsZero id then (Err (wrapf "jobs.repo.GetByID" (EText "invalid id")), d)
  else match jobs_t d !! id with
       | Some j => (Ok j, d)
       | None => (Err (EJoin [ESentinel SqlErrNoRows; ESentinel ErrNoJobs]), d)
       end.

(** [order by id desc limit 100]. *)
Definition id_desc (a b : Job) : bool := N.ltb (ID b) (ID a).
Definition All : Op (list Job) := λ d, (Ok (take 100 (sort_slice id_desc (all_rows (jobs_t d)))), d).

(** ** jobsfailedrepo *)

Definition CreateFailed (job : JobFailed) : Op JobID := λ d,
  let job := mkJobFailed (f_ID job) (f_JobID job) (f_Queue job) (f_Name job)
               (normalizeSchemaVersion (f_SchemaVersion job)) (f_Payload job) (f_Reason job)
               (ts (f_FailedAt job)) (ts (f_CreatedAt job)) (f_Connection job) (f_Exception job) in
  match insert_failed job d with
  | (Ok _, d') => (Ok (f_ID job), d')
  | (Err e, d') => (Err (wrapf "error creating" (ErrorTransform e)), d')
  end.

Definition CreateFailedJobVersioned (newID : JobID) (failedAt createdAt : Z) (jobID : JobID)
    (name : string) (schemaVersion : SchemaVersion) (payload reason : string) : Op JobID :=
  checked "validate capability"
    (Validate {| cap_Name := name; cap_SchemaVersion := schemaVersion |})
    (CreateFailed (mkJobFailed newID jobID "queue" name schemaVersion payload reason failedAt createdAt "" "")).

Definition GetFailedByID (id : JobID) : Op JobFailed := λ d,
  if JobIDType.IsZero id then (Err (wrapf "jobs_failed.repo.GetByID" (EText "invalid id")), d)
  else match failed_t d !! id with
       | Some f => (Ok f, d)
       | None => (Err (EJoin [ESentinel SqlErrNoRows; ESentinel ErrNoJobs]), d)
       end.

Definition failed_id_desc (a b : JobFailed) : bool := N.ltb (f_ID b) (f_ID a).
Definition AllFailed : Op (list JobFailed) := λ d,
  (Ok (take 100 (sort_slice failed_id_desc (map_to_list (failed_t d)).*2)), d).

Definition CountExact : Op Z := λ d, (Ok (Z.of_nat (size (failed_t d))), d).

(** backends/pgsql/repositories/helpers.go: [CountLight] reads the planner's
    row counts, a list of tables with a number that may be null. *)
Definition CountRows (catalog : result (list (string * option Z))) : result (list (string * option Z)) :=
  res_map_err (wrapf "CountRows failed db") catalog.
Fixpoint first_count (tableName : string) (tables : list (string * option Z)) : Z :=
  match tables with
  | [] => 0
  | (name, count) :: tables => if String.eqb name tableName then default 0 count else first_count tableName tables
  end.
Definition CountRowsForTable (catalog : result (list (string * option Z))) (tableName : string) : result Z :=
  tables ← CountRows catalog; Ok (first_count tableName tables).
Definition CountLight (catalog : result (list (string * option Z))) : result Z :=
  res_map_err (λ e, wrapf "jobs.repo.CountLight" (wrapf "CountRowsForTable" (ErrorTransform e))) (CountRowsForTable catalog "jobs").
Definition CountFailedLight (catalog : result (list (string * option Z))) : result Z :=
  res_map_err (λ e, wrapf "jobs_failed.repo.CountLight" (wrapf "CountRowsForTable" (ErrorTransform e)))
    (CountRowsForTable catalog "jobs_failed").

(** A record that a replay refers to is kept: the foreign key of
    outbox_job_replays restricts its deletion. *)
Definition replayed (id : JobID) (t : gmap MessageID ReplayRow) : bool :=
  bool_decide (map_Exists (λ _ r, rp_failed_job_id r = id) t).

Definition DeleteFailed (jobID : JobID) : Op Z :=
  checked "jobs_failed.repo.Delete" (fail_if (JobIDType.IsZero jobID) (EText "invalid id")) (λ d,
    if bool_decide (is_Some (failed_t d !! jobID)) then
      if replayed jobID (replays_t d)
      then (Err (wrapf "jobs_failed.repo.Delete" (wrapf "error deleted"
              (ErrorTransform (EText "violates foreign key constraint (SQLSTATE 23503)")))), d)
      else (Ok 1, set_failed (delete jobID (failed_t d)) d)
    else (Ok 0, d)).

Definition failed_repository : JobsFailedRepository :=
  {| Repo.CreateFailedJobVersioned := CreateFailedJobVersioned |}.

(** PostgreSQL keeps the failed-job contract. *)
#[export] Instance pg_failed_repository : FailedRepository ts failed_repository.
Proof.
  assert (∀ newID fa ca jobID name v payload reason d, 0 < v →
            CreateFailedJobVersioned newID fa ca jobID name v payload reason d
            = CreateFailed (mkJobFailed newID jobID "queue" name v payload reason fa ca "" "") d) as Heq.
  { intros. unfold CreateFailedJobVersioned. apply guarded_pass. unfold Validate. cbn.
    destruct (Z.leb_spec v 0); [lia|done]. }
  assert (∀ v, 0 < v → normalizeSchemaVersion v = v) as Hnorm.
  { intros v Hv. unfold normalizeSchemaVersion. destruct (Z.leb_spec v 0); [lia|done]. }
  split.
  - intros newID fa ca jobID name v payload reason d e d' Hop. cbn in Hop.
    destruct (Z.le_gt_cases v 0) as [Hv|Hv].
    { unfold CreateFailedJobVersioned, checked, guarded, Validate in Hop. cbn in Hop.
      destruct (Z.leb_spec v 0); [|lia]. cbn in Hop. by injection Hop as _ <-. }
    rewrite Heq in Hop by lia. unfold CreateFailed, insert_failed in Hop. cbn in Hop.
    repeat case_bool_decide; [by injection Hop as _ <-..|]. rewrite (Hnorm v) in Hop by lia.
    destruct (Z.leb_spec v 0); [lia|done].
  - intros newID fa ca jobID name v payload reason d id d' Hop. cbn in Hop.
    assert (0 < v) as Hv.
    { destruct (Z.lt_ge_cases 0 v) as [|Hv]; [done|].
      unfold CreateFailedJobVersioned, checked, guarded, Validate in Hop. cbn in Hop.
      destruct (Z.leb_spec v 0); [done|lia]. }
    rewrite Heq in Hop by lia. unfold CreateFailed, insert_failed in Hop. cbn in Hop.
    repeat case_bool_decide; try done. rewrite (Hnorm v) in Hop by lia.
    destruct (Z.leb_spec v 0); [lia|]. injection Hop as <- <-. split_and!; [done| | |by exists ca; auto].
    + by apply eq_None_not_Some.
    + intros i f Hf Hid. apply H0. by exists i, f.
  - intros newID fa ca jobID name v payload reason d Hv Hn Hj. cbn. rewrite Heq by lia.
    unfold CreateFailed, insert_failed. cbn. rewrite Hn.
    rewrite bool_decide_false by (by intros []). rewrite bool_decide_false.
    + rewrite (Hnorm v) by lia. destruct (Z.leb_spec v 0); [lia|]. eauto.
    + intros (i & f & Hf & Hid). by apply (Hj i f).
Qed.
End reads.
End PgReads.
