(* ===== verification/Replay.v ===== *)
(** * Replay of failed jobs

    backends/pgsql/replay/replay.go: staging a fresh queue job from a row of
    jobs_failed, once per request, under the admission of the host.  A replay
    runs in one transaction that locks the failed row; the driver may fail any
    statement of it ([query_err]) and its commit. *)

From S2P Require Import Prelude GoTime Errors Models Batch Fingerprint Sql Repo Registry Transactions Options PgJobs.
From S2P Require Import PgUnique Json GoStrings.
Open Scope Z_scope.

Record Request : Type := { rq_RequestID : MessageID; rq_FailedJobID : JobID }.

Record Source : Type := {
  so_FailedJobID : JobID;
  so_OriginalJobID : JobID;
  so_Capability : JobCapability;
  so_Payload : string;
  so_Queue : string;
  so_OriginalDeduplicationKey : string
}.

#[global] Instance Source_eq_dec : EqDecision Source.
Proof. solve_decision. Defined.

(** The host's decision may read the tables and changes nothing. *)
Definition Admission : Type := Source → Db → result string.

Record ReplayRecord : Type := {
  rec_RequestID : MessageID;
  rec_JobID : JobID;
  rec_Source : Source;
  rec_BusinessKey : string;
  rec_CreatedAt : Z
}.

Record ReplayResult : Type := { rr_Record : ReplayRecord; rr_Created : bool }.

Definition with_original_key (key : string) (s : Source) : Source :=
  {| so_FailedJobID := so_FailedJobID s; so_OriginalJobID := so_OriginalJobID s; so_Capability := so_Capability s;
     so_Payload := so_Payload s; so_Queue := so_Queue s; so_OriginalDeduplicationKey := key |}.

Definition validateSource (source : Source) : result unit :=
  _ ← fail_if (JobIDType.IsZero (so_OriginalJobID source)
               || match Validate (so_Capability source) with Ok _ => false | Err _ => true end)
              (ESentinel ErrInvalidSource);
  fail_if (String.eqb (cap_Name (so_Capability source)) FanoutDispatcherJobName
           || HasPrefix (cap_Name (so_Capability source)) "fanout.")
          (ESentinel ErrUnsupportedFanout).

(** The columns of a row as a record. *)
Definition record_of (id : MessageID) (r : ReplayRow) : ReplayRecord :=
  {| rec_RequestID := id; rec_JobID := rp_job_id r;
     rec_Source := {| so_FailedJobID := rp_failed_job_id r; so_OriginalJobID := rp_source_job_id r;
                      so_Capability := {| cap_Name := rp_name r; cap_SchemaVersion := rp_schema_version r |};
                      so_Payload := rp_payload r; so_Queue := rp_queue r;
                      so_OriginalDeduplicationKey := rp_original_deduplication_key r |};
     rec_BusinessKey := rp_business_key r; rec_CreatedAt := rp_created_at r |}.

Section replay.
Context (ts : Z → Z) (sha256hex : string → string) (uuid_text : N → string).

(** The order in which a statement without [order by] meets the rows. *)
Context (scan : gmap MessageID ReplayRow → list (MessageID * ReplayRow)).

(** The driver's failure of a statement. *)
Context (query_err : string → option err).

Definition query {A} (name : string) (wrap : err → err) (op : Op A) : Op A := λ d,
  match query_err name with
  | Some e => (Err (wrap e), d)
  | None => op d
  end.

(** [select ... from outbox_job_replays where <column> limit 1]. *)
Definition record (name : string) (p : MessageID * ReplayRow → bool) : Op ReplayRecord :=
  query name (wrapf "read replay provenance") (λ d,
    match find p (scan (replays_t d)) with
    | Some (id, r) => (Ok (record_of id r), d)
    | None => (Err (ESentinel ErrReplayNotFound), d)
    end).

Definition ByRequestID (id : MessageID) : Op ReplayRecord :=
  guarded (fail_if (MessageIDType.IsZero id) (ESentinel ErrInvalidRequest))
    (record "request_id" (λ kr, N.eqb kr.1 id)).
Definition ByJobID (id : JobID) : Op ReplayRecord :=
  guarded (fail_if (JobIDType.IsZero id) (ESentinel ErrInvalidRequest))
    (record "job_id" (λ kr, N.eqb (rp_job_id kr.2) id)).

(** The key hint of the retained tombstone; [job_id] is unique there. *)
Definition original_key (jobID : JobID) (t : gmap string IdemKey) : string :=
  match filter (λ kr, ik_job_id kr.2 = jobID) (map_to_list t) with
  | (k, _) :: _ => k
  | [] => ""
  end.

Definition source_of (f : JobFailed) (key : string) : Source :=
  {| so_FailedJobID := f_ID f; so_OriginalJobID := f_JobID f;
     so_Capability := {| cap_Name := f_Name f; cap_SchemaVersion := f_SchemaVersion f |};
     so_Payload := f_Payload f; so_Queue := f_Queue f; so_OriginalDeduplicationKey := key |}.

Definition lockSource (id : JobID) : Op Source :=
  query "replay.source" (wrapf "lock failed job") (λ d,
    match failed_t d !! id with
    | None => (Err (ESentinel ErrSourceNotFound), d)
    | Some f => (Ok (source_of f (original_key (f_JobID f) (keys_t d))), d)
    end).

(** [None] is the zero record of a source that was never replayed. *)
Definition sourceBaseline (source : Source) : Op (option ReplayRecord * Source) := λ d,
  match record "failed_job_id" (λ kr, N.eqb (rp_failed_job_id kr.2) (so_FailedJobID source)) d with
  | (Err e, _) => if errors_Is e ErrReplayNotFound then (Ok (None, source), d) else (Err e, d)
  | (Ok baseline, _) =>
      let source := with_original_key (so_OriginalDeduplicationKey (rec_Source baseline)) source in
      if bool_decide (source = rec_Source baseline) then (Ok (Some baseline, source), d)
      else (Err (ESentinel ErrRequestConflict), d)
  end.

(** [exists (select 1 from jobs where id = $1 or id in (...))]. *)
Definition source_active (source : Source) (d : Db) : bool :=
  bool_decide (is_Some (jobs_t d !! so_OriginalJobID source))
  || existsb (λ kr, N.eqb (rp_failed_job_id kr.2) (so_FailedJobID source)
                    && bool_decide (is_Some (jobs_t d !! rp_job_id kr.2))) (map_to_list (replays_t d)).

Definition replay_key (id : MessageID) : string := "outbox.replay." +:+ uuid_text id.

(** [update jobs set queue=$1 where id=$2]. *)
Definition queue_row (queue : string) (j : Job) : Job :=
  mkJob (ID j) queue (Name j) (SchemaVersionOf j) (Payload j) (Attempts j) (ReservedAt j) (LeaseTokenOf j)
        (DeduplicationKey j) (AvailableAt j) (CreatedAt j).

Definition replay_row (source : Source) (jobID : JobID) (key : string) (createdAt : Z) : ReplayRow :=
  {| rp_failed_job_id := so_FailedJobID source; rp_source_job_id := so_OriginalJobID source; rp_job_id := jobID;
     rp_business_key := key; rp_queue := so_Queue source; rp_name := cap_Name (so_Capability source);
     rp_schema_version := cap_SchemaVersion (so_Capability source); rp_payload := so_Payload source;
     rp_original_deduplication_key := so_OriginalDeduplicationKey source; rp_created_at := createdAt |}.

(** [insert into outbox_job_replays]: its primary key and the unique job id. *)
Definition insert_replay (id : MessageID) (r : ReplayRow) : Op unit := λ d,
  if bool_decide (is_Some (replays_t d !! id)) then (Err (unique_violation "outbox_job_replays_pkey"), d)
  else if existsb (λ kr, N.eqb (rp_job_id kr.2) (rp_job_id r)) (map_to_list (replays_t d))
  then (Err (unique_violation "outbox_job_replays_job_id_key"), d)
  else (Ok tt, set_replays (<[id := r]> (replays_t d)) d).

(** [newID] is the id [CreateJobVersionedUniqueResult] draws, [now] the clock,
    [txNow] the transaction's [now()]. *)
Definition stage (newID : JobID) (now txNow : Z) (requestID : MessageID) (source : Source) (key : string) : Op ReplayResult := λ d,
  match query "jobs.repo" (λ e, wrapf "jobs.repo.CreateJobVersionedUnique" (wrapf "create unique job" (Pg.ErrorTransform e)))
          (PgUnique.CreateJobVersionedUniqueResult ts sha256hex newID now (replay_key requestID)
             (cap_Name (so_Capability source)) (cap_SchemaVersion (so_Capability source)) (so_Payload source) now) d with
  | (Err e, d1) =>
      (Err (if errors_Is e ErrIdempotencyConflict then ESentinel ErrRequestConflict else wrapf "stage job" e), d1)
  | (Ok job, d1) =>
      if negb (u_Created job) then (Err (ESentinel ErrRequestConflict), d1)
      else
        match query "replay.queue" (wrapf "copy queue")
                (exec_update (λ j, N.eqb (ID j) (u_JobID job)) (queue_row (so_Queue source))) d1 with
        | (Err e, d2) => (Err e, d2)
        | (Ok affected, d2) =>
            if negb (affected =? 1) then (Err (ESentinel ErrRequestConflict), d2)
            else
              match query "replay.record" id
                      (insert_replay requestID (replay_row source (u_JobID job) key (ts txNow))) d2 with
              | (Err e, d3) =>
                  (Err (if String.eqb (Error e) (Error (unique_violation "outbox_job_replays_pkey"))
                        then EJoin [ESentinel ErrRequestConflict; e] else wrapf "retain replay provenance" e), d3)
              | (Ok _, d3) =>
                  (Ok {| rr_Record := {| rec_RequestID := requestID; rec_JobID := u_JobID job; rec_Source := source;
                                         rec_BusinessKey := key; rec_CreatedAt := ts txNow |};
                         rr_Created := true |}, d3)
              end
        end
  end.

(** The body of the transaction. *)
Definition replay (newID : JobID) (now txNow : Z) (request : Request) (admission : Admission) : Op ReplayResult := λ d,
  match lockSource (rq_FailedJobID request) d with
  | (Err e, _) => (Err e, d)
  | (Ok source, _) =>
      match validateSource source with
      | Err e => (Err e, d)
      | Ok _ =>
          match ByRequestID (rq_RequestID request) d with
          | (Ok prior, _) =>
              let source := with_original_key (so_OriginalDeduplicationKey (rec_Source prior)) source in
              if negb (bool_decide (source = rec_Source prior)) then (Err (ESentinel ErrRequestConflict), d)
              else match admission (rec_Source prior) d with
                   | Err e => (Err (wrapf "host admission" e), d)
                   | Ok key => if negb (String.eqb key (rec_BusinessKey prior))
                               then (Err (ESentinel ErrRequestConflict), d)
                               else (Ok {| rr_Record := prior; rr_Created := false |}, d)
                   end
          | (Err e, _) =>
              if negb (errors_Is e ErrReplayNotFound) then (Err e, d)
              else match sourceBaseline source d with
                   | (Err e, _) => (Err e, d)
                   | (Ok (baseline, source), _) =>
                       match admission source d with
                       | Err e => (Err (wrapf "host admission" e), d)
                       | Ok key =>
                           if blank key then (Err (ESentinel ErrNotAdmitted), d)
                           else if match baseline with
                                   | Some b => negb (MessageIDType.IsZero (rec_RequestID b))
                                               && negb (String.eqb key (rec_BusinessKey b))
                                   | None => false
                                   end then (Err (ESentinel ErrRequestConflict), d)
                           else match query_err "replay.active" with
                                | Some e => (Err (wrapf "check active source" e), d)
                                | None =>
                                    if source_active source d then (Err (ESentinel ErrSourceActive), d)
                                    else stage newID now txNow (rq_RequestID request) source key d
                                end
                       end
                   end
          end
      end
  end.

(** The transaction around it: [drv] begins and commits it.  The body returns;
    an admission that panics or exits its goroutine ends the transaction as
    [transaction_finalized] says. *)
Definition Replay (configured : bool) (ctxErr : option err) (drv : Driver) (newID : JobID) (now txNow : Z)
    (request : Request) (admission : option Admission) (s : Session) : result ReplayResult * Session :=
  if negb configured then (Err (ESentinel ErrNotConfigured), s)
  else if MessageIDType.IsZero (rq_RequestID request) || JobIDType.IsZero (rq_FailedJobID request)
  then (Err (ESentinel ErrInvalidRequest), s)
  else match admission with
  | None => (Err (ESentinel ErrAdmissionRequired), s)
  | Some admission =>
      match ctxErr with
      | Some e => (Err e, s)
      | None =>
          match open_tx s with
          | Some _ => (Err (ESentinel ErrNestedTransaction), s)
          | None =>
              let body := replay newID now txNow request admission in
              match ReadCommitted drv (op_callback body) s with
              | (Returned None, s') => ((body (stored s)).1, s')
              | (Returned (Some e), s') => (Err (wrapf "replay" e), s')
              | (_, s') => (Err (EText "the callback did not return"), s')
              end
          end
      end
  end.

(** ** The provenance table *)

(** Provenance: a replay refers to a failed row it copies, under a business key
    that is not blank and that all replays of the row share; no queue job
    serves two replays. *)
Record replays_ok (d : Db) : Prop := {
  ro_id : ∀ id r, replays_t d !! id = Some r → id ≠ MessageIDNil;
  ro_failed : ∀ id f, failed_t d !! id = Some f → f_ID f = id;
  ro_source : ∀ id r, replays_t d !! id = Some r → ∃ f, failed_t d !! rp_failed_job_id r = Some f
    ∧ rec_Source (record_of id r) = source_of f (rp_original_deduplication_key r);
  ro_key : ∀ id r, replays_t d !! id = Some r → blank (rp_business_key r) = false;
  ro_same : ∀ id1 r1 id2 r2, replays_t d !! id1 = Some r1 → replays_t d !! id2 = Some r2 →
    rp_failed_job_id r1 = rp_failed_job_id r2 →
    rp_business_key r1 = rp_business_key r2
    ∧ rp_original_deduplication_key r1 = rp_original_deduplication_key r2;
  ro_jobs : ∀ id1 r1 id2 r2, replays_t d !! id1 = Some r1 → replays_t d !! id2 = Some r2 →
    rp_job_id r1 = rp_job_id r2 → id1 = id2
}.

(** The queue ids a failed row was ever delivered under. *)
Definition delivers (d : Db) (failedID id : JobID) : Prop :=
  (∃ f, failed_t d !! failedID = Some f ∧ f_JobID f = id)
  ∨ ∃ rid r, replays_t d !! rid = Some r ∧ rp_failed_job_id r = failedID ∧ rp_job_id r = id.

(** At most one of them is queued. *)
Definition single_active (d : Db) : Prop := ∀ failedID id1 id2, delivers d failedID id1 → delivers d failedID id2 →
  is_Some (jobs_t d !! id1) → is_Some (jobs_t d !! id2) → id1 = id2.

(** A drawn id is new to every table. *)
Definition unused (id : JobID) (d : Db) : Prop := fresh_id id d ∧ ∀ failedID, ¬ delivers d failedID id.

#[local] Existing Instance PgUnique.pg_unique_repository.

Context (Hscan : ∀ t, scan t ≡ₚ map_to_list t).

(** A driver does not answer with the package's own errors. *)
Context (Hdriver : ∀ name e, query_err name = Some e → errors_Is e ErrReplayNotFound = false).

Lemma scan_elem t id r : (id, r) ∈ scan t ↔ t !! id = Some r.
Proof. rewrite Hscan. apply elem_of_map_to_list. Qed.

Lemma find_spec p t :
  match find p (scan t) with
  | Some (id, r) => t !! id = Some r ∧ p (id, r) = true
  | None => ∀ id r, t !! id = Some r → p (id, r) = false
  end.
Proof.
  destruct (find p (scan t)) as [[id r]|] eqn:Hf.
  - apply find_some in Hf as [Hin Hp]. by rewrite <- list_elem_of_In, scan_elem in Hin.
  - intros id r Hr. apply (find_none _ _ Hf). by rewrite <- list_elem_of_In, scan_elem.
Qed.

(** The lookup of a request reads its row. *)
Lemma ByRequestID_spec id d : id ≠ MessageIDNil →
  ByRequestID id d = match query_err "request_id" with
                     | Some e => (Err (wrapf "read replay provenance" e), d)
                     | None => match replays_t d !! id with
                               | Some r => (Ok (record_of id r), d)
                               | None => (Err (ESentinel ErrReplayNotFound), d)
                               end
                     end.
Proof.
  intros Hid. unfold ByRequestID, record, query.
  rewrite guarded_pass by (by apply fail_if_ok, N.eqb_neq). destruct (query_err "request_id"); [done|].
  pose proof (find_spec (λ kr, N.eqb kr.1 id) (replays_t d)) as Hf. destruct (find _ _) as [[i r]|].
  - destruct Hf as [Hr Hi]. cbn in Hi. apply N.eqb_eq in Hi as ->. by rewrite Hr.
  - destruct (replays_t d !! id) as [r|] eqn:Hr; [|done]. specialize (Hf _ _ Hr). cbn in Hf. by rewrite N.eqb_refl in Hf.
Qed.

(** What the baseline check admits: every earlier replay of the source has the
    operation, and the key handed back is theirs. *)
Lemma sourceBaseline_spec source d b source' d' : replays_ok d → sourceBaseline source d = (Ok (b, source'), d') →
  with_original_key (so_OriginalDeduplicationKey source') source = source'
  ∧ ∀ id r, replays_t d !! id = Some r → rp_failed_job_id r = so_FailedJobID source →
      rec_Source (record_of id r) = source' ∧ ∃ rec, b = Some rec ∧ rec_RequestID rec ≠ MessageIDNil
        ∧ rec_BusinessKey rec = rp_business_key r.
Proof.
  intros Hok. unfold sourceBaseline, record, query. destruct (query_err "failed_job_id") as [e|] eqn:He.
  { rewrite errors_Is_wrapf, (Hdriver _ _ He). done. }
  pose proof (find_spec (λ kr, N.eqb (rp_failed_job_id kr.2) (so_FailedJobID source)) (replays_t d)) as Hf.
  destruct (find _ _) as [[i r0]|].
  - destruct Hf as [Hr0 Hi]. cbn in Hi. apply N.eqb_eq in Hi. case_bool_decide as Heq; [|done].
    intros [= <- <- <-]. split; [done|]. intros id r Hr Hrf.
    destruct (ro_same _ Hok id r i r0 Hr Hr0 ltac:(congruence)) as [Hk Ho].
    destruct (ro_source _ Hok _ _ Hr) as (f & Hf & Hs), (ro_source _ Hok _ _ Hr0) as (f0 & Hf0 & Hs0).
    rewrite Hrf in Hf. rewrite Hi in Hf0.
    split; [|eexists; split; [done|]; split; [exact (ro_id _ Hok _ _ Hr0)|done]].
    etrans; [|symmetry; exact Heq]. rewrite Hs, Hs0, Ho. congruence.
  - cbn. intros [= <- <- <-]. split; [by destruct source|]. intros id r Hr Hrf. specialize (Hf _ _ Hr). cbn in Hf.
    by rewrite Hrf, N.eqb_refl in Hf.
Qed.

(** The state a replay leaves: the failed row's operation in a fresh queue row
    under the replay's own key, and its provenance. *)
Definition replayed_job (id : JobID) (now : Z) (requestID : MessageID) (source : Source) : Job :=
  mkJob id (so_Queue source) (cap_Name (so_Capability source)) (cap_SchemaVersion (so_Capability source))
    (so_Payload source) 0 None LeaseTokenNil (Some (replay_key requestID)) (ts now) (ts now).

Definition replayed (id : JobID) (now txNow : Z) (requestID : MessageID) (source : Source) (key : string) (d : Db) : Db :=
  mkDb (<[id := replayed_job id now requestID source]> (jobs_t d))
    (<[replay_key requestID := mkIdemKey id (jobFingerprint sha256hex (cap_Name (so_Capability source))
        (cap_SchemaVersion (so_Capability source)) (so_Payload source) now) (ts now)]> (keys_t d))
    (failed_t d) (<[requestID := replay_row source id key (ts txNow)]> (replays_t d)).

Lemma update_new id j f t : keyed t → t !! id = None → ID j = id →
  (sql_update (λ j, N.eqb (ID j) id) f (<[id := j]> t)).1 = <[id := f j]> t.
Proof.
  intros Hk Hn Hj. apply map_eq. intros i. rewrite sql_update_lookup. destruct (decide (i = id)) as [->|Hne].
  - rewrite !lookup_insert_eq. cbn. by rewrite Hj, N.eqb_refl.
  - rewrite !lookup_insert_ne by done. destruct (t !! i) as [x|] eqn:Hx; [|done]. cbn.
    by rewrite (Hk _ _ Hx), (proj2 (N.eqb_neq _ _) Hne).
Qed.

Lemma stage_ok newID now txNow requestID source key d res d' :
  registry_ok d → keyed (jobs_t d) → unused newID d →
  stage newID now txNow requestID source key d = (Ok res, d') →
  keys_t d !! replay_key requestID = None
  ∧ res = {| rr_Record := record_of requestID (replay_row source newID key (ts txNow)); rr_Created := true |}
  ∧ d' = replayed newID now txNow requestID source key d.
Proof.
  intros Hreg Hk [Hfresh Hnew]. unfold stage, query.
  destruct (query_err "jobs.repo") as [e|]; [done|].
  destruct (PgUnique.CreateJobVersionedUniqueResult _ _ _ _ _ _ _ _ _ d) as [r0 d1] eqn:Hput.
  apply (put_answers ts (jobFingerprint sha256hex) (PgUnique.unique_repository ts sha256hex)) in Hput; [|done..].
  destruct Hput as [Hkey Hpos Hnone|row Hrow|e]; [|done|done]. cbn [u_Created u_JobID negb].
  destruct (query_err "replay.queue"); [done|]. unfold exec_update.
  unfold staged. cbn [jobs_t set_jobs set_keys keys_t failed_t replays_t]. destruct Hfresh as (_ & Hnj & _).
  rewrite update_new by done. destruct (negb _); [done|]. destruct (query_err "replay.record"); [done|].
  unfold insert_replay. cbn [replays_t set_jobs]. case_bool_decide as Hdup; [done|].
  destruct (existsb _ _); [done|]. intros [= <- <-]. split_and!; [done|by destruct source as [? ? [] ? ? ?]|done].
Qed.

(** ** The transaction body *)

(** What a replay that succeeds on the tables [d] answers. *)
Inductive replay_answer (newID : JobID) (now txNow : Z) (request : Request) (admission : Admission) (d : Db) :
    result ReplayResult → Db → Prop :=
| replay_known r f : replays_t d !! rq_RequestID request = Some r →
    failed_t d !! rq_FailedJobID request = Some f →
    rec_Source (record_of (rq_RequestID request) r) = source_of f (rp_original_deduplication_key r) →
    validateSource (source_of f (rp_original_deduplication_key r)) = Ok tt →
    admission (source_of f (rp_original_deduplication_key r)) d = Ok (rp_business_key r) →
    replay_answer newID now txNow request admission d
      (Ok {| rr_Record := record_of (rq_RequestID request) r; rr_Created := false |}) d
| replay_staged f hint key : rq_RequestID request ≠ MessageIDNil → replays_t d !! rq_RequestID request = None →
    keys_t d !! replay_key (rq_RequestID request) = None →
    failed_t d !! rq_FailedJobID request = Some f →
    validateSource (source_of f hint) = Ok tt →
    admission (source_of f hint) d = Ok key → blank key = false →
    (∀ id, delivers d (rq_FailedJobID request) id → jobs_t d !! id = None) →
    (∀ rid r, replays_t d !! rid = Some r → rp_failed_job_id r = rq_FailedJobID request →
      rp_business_key r = key ∧ rp_original_deduplication_key r = hint) →
    replay_answer newID now txNow request admission d
      (Ok {| rr_Record := record_of (rq_RequestID request) (replay_row (source_of f hint) newID key (ts txNow));
             rr_Created := true |})
      (replayed newID now txNow (rq_RequestID request) (source_of f hint) key d).

Ltac refused := intros [= <- <-]; right; by eexists.

Lemma replay_body newID now txNow request admission d r d' : replays_ok d → registry_ok d → keyed (jobs_t d) →
  unused newID d → rq_RequestID request ≠ MessageIDNil →
  replay newID now txNow request admission d = (r, d') →
  replay_answer newID now txNow request admission d r d' ∨ (∃ e, r = Err e).
Proof.
  intros Hok Hreg Hk Hnew Hid. unfold replay, lockSource, query.
  destruct (query_err "replay.source"); [refused|].
  destruct (failed_t d !! rq_FailedJobID request) as [f|] eqn:Hf; [|refused].
  set (source := source_of f _).
  destruct (validateSource source) as [[]|e] eqn:Hv; [|refused].
  rewrite ByRequestID_spec by done. destruct (query_err "request_id") as [e|] eqn:He.
  { rewrite errors_Is_wrapf, (Hdriver _ _ He). cbn. refused. }
  destruct (replays_t d !! rq_RequestID request) as [row|] eqn:Hrow.
  - case_bool_decide as Hsame; cbn [negb]; [|refused]. destruct (admission _ d) as [key|e] eqn:Ha; [|refused].
    destruct (String.eqb_spec key (rec_BusinessKey (record_of (rq_RequestID request) row))) as [->|]; [|refused].
    intros [= <- <-]. left.
    apply (replay_known _ _ _ _ _ _ _ f); [done|done|by symmetry|exact Hv|]. etrans; [|exact Ha]. by f_equal.
  - cbn [errors_Is]. rewrite bool_decide_true by done. cbn [negb].
    destruct (sourceBaseline source d) as [[[b source']|e] dx] eqn:Hb; [|refused].
    destruct (sourceBaseline_spec _ _ _ _ _ Hok Hb) as [Hsource Hprior].
    set (hint := so_OriginalDeduplicationKey source') in Hsource. change (source_of f hint = source') in Hsource.
    clearbody hint. subst source'.
    destruct (admission _ d) as [key|e] eqn:Ha; [|refused]. destruct (blank key) eqn:Hblank; [refused|].
    match goal with |- context [if ?c then _ else _] => destruct c eqn:Hkeep; [refused|] end.
    destruct (query_err "replay.active"); [refused|]. destruct (source_active _ _) eqn:Hactive; [refused|].
    destruct (stage _ _ _ _ _ _ _) as [[res|e] d1] eqn:Hst; [|refused].
    destruct (stage_ok _ _ _ _ _ _ _ _ _ Hreg Hk Hnew Hst) as (Hfree & -> & ->). intros [= <- <-]. left.
    assert (f_ID f = rq_FailedJobID request) as Hfid by (by apply (ro_failed _ Hok)).
    apply replay_staged; [done|done|done|done|exact Hv|done|done| |].
    + intros id Hd. apply eq_None_not_Some. intros Hin. apply not_true_iff_false in Hactive. apply Hactive.
      unfold source_active. rewrite orb_true_iff. destruct Hd as [(f' & Hf' & <-)|(rid & row & Hr & Hrf & <-)].
      * rewrite Hf in Hf'. injection Hf' as <-. left. by apply bool_decide_eq_true.
      * right. apply existsb_exists. exists (rid, row). rewrite <- list_elem_of_In, elem_of_map_to_list.
        split; [done|]. cbn. rewrite Hrf, Hfid, N.eqb_refl. by apply bool_decide_eq_true.
    + intros rid row Hr Hrf. destruct (Hprior rid row Hr ltac:(cbn; congruence)) as [Hs (rec & -> & Hnz & Hbk)].
      rewrite (proj2 (N.eqb_neq _ _) Hnz : MessageIDType.IsZero _ = false) in Hkeep. cbn [negb andb] in Hkeep.
      apply negb_false_iff, String.eqb_eq in Hkeep. split; [congruence|].
      by apply (f_equal so_OriginalDeduplicationKey) in Hs.
Qed.

(** ** The call *)

Section call.
Context (configured : bool) (ctxErr : option err) (drv : Driver) (newID : JobID) (now txNow : Z).
Context (request : Request) (admission : Admission).

Let call := Replay configured ctxErr drv newID now txNow request (Some admission).
Let answers := replay_answer newID now txNow request admission.

Lemma Replay_spec s r s' : replays_ok (stored s) → registry_ok (stored s) → keyed (jobs_t (stored s)) →
  unused newID (stored s) → call s = (r, s') →
  match r with
  | Ok res => answers (stored s) (Ok res) (stored s')
  | Err _ => stored s' = stored s ∨ ∃ res, answers (stored s) (Ok res) (stored s')
  end ∧ open_tx s' = open_tx s.
Proof.
  intros Hok Hreg Hk Hnew. unfold call, Replay. destruct (negb configured); [by intros [= <- <-]; auto|].
  destruct (MessageIDType.IsZero _ || _) eqn:Hz; [by intros [= <- <-]; auto|].
  apply orb_false_iff in Hz as [Hz _]. apply N.eqb_neq in Hz.
  destruct ctxErr; [by intros [= <- <-]; auto|]. destruct (open_tx s) eqn:Hs; [by intros [= <- <-]; auto|].
  set (body := replay newID now txNow request admission).
  assert (∀ r d', body (stored s) = (r, d') → answers (stored s) r d' ∨ ∃ e, r = Err e) as Hbody
    by (intros; by apply replay_body).
  pose proof (pg_finalized drv (op_callback body) s (op_callback_inside body) Hs) as Hfin.
  unfold ReadCommitted. destruct (pg_runTransaction drv (op_callback body) s) as [x s1]. cbn in Hfin.
  assert (∀ y d, op_callback body (BeginTx s) = (y, mkSession (stored s) (Some d) (commits s) (rollbacks s)) →
            y = Returned None → ∃ res, body (stored s) = (Ok res, d) ∧ answers (stored s) (Ok res) d) as Hret.
  { intros y d Hcb ->. unfold op_callback, BeginTx in Hcb. cbn in Hcb.
    destruct (body (stored s)) as [[res|e] d1]; [|done]. injection Hcb as <-.
    destruct (Hbody _ _ eq_refl) as [?|[e ?]]; [eauto|done]. }
  destruct Hfin as [e|d Hcb|d f e n Hcb _|y d e Hcb _ _|d Hcb].
  - intros [= <- <-]. auto.
  - intros [= <- <-]. destruct (Hret _ _ Hcb eq_refl) as (res & -> & Ha). cbn. auto.
  - intros [= <- <-]. cbn. split; [|done]. destruct (fault_applied f); [|auto].
    destruct (Hret _ _ Hcb eq_refl) as (res & _ & Ha). eauto.
  - intros [= <- <-]. auto.
  - intros [= <- <-]. auto.
Qed.

(** Provenance, registry and queue after a staged replay. *)
Section staged.
Context (d : Db) (Hok : replays_ok d) (Hnew : unused newID d) (f : JobFailed) (hint key : string).
Context (Hnone : replays_t d !! rq_RequestID request = None).
Context (Hfree : keys_t d !! replay_key (rq_RequestID request) = None).
Context (Hf : failed_t d !! rq_FailedJobID request = Some f).
Context (Hidle : ∀ id, delivers d (rq_FailedJobID request) id → jobs_t d !! id = None).

Let d' := replayed newID now txNow (rq_RequestID request) (source_of f hint) key d.

Lemma replayed_delivers failedID id : delivers d' failedID id →
  delivers d failedID id ∨ failedID = rq_FailedJobID request ∧ id = newID.
Proof.
  intros [?|(rid & r & Hr & <- & <-)]; [by left; left|]. cbn in Hr.
  apply lookup_insert_Some in Hr as [[<- <-]|[Hne Hr]]; [|left; right; eauto].
  right. split; [|done]. by apply (ro_failed _ Hok).
Qed.

Lemma replayed_ok : rq_RequestID request ≠ MessageIDNil → blank key = false →
  (∀ rid r, replays_t d !! rid = Some r → rp_failed_job_id r = rq_FailedJobID request →
    rp_business_key r = key ∧ rp_original_deduplication_key r = hint) → replays_ok d'.
Proof.
  intros Hrid Hkey Hsame. assert (f_ID f = rq_FailedJobID request) as Hfid by (by apply (ro_failed _ Hok)).
  split; cbn.
  - intros id r [[<- <-]|[Hne Hr]]%lookup_insert_Some; [done|exact (ro_id _ Hok id r Hr)].
  - apply (ro_failed _ Hok).
  - intros id r [[<- <-]|[Hne Hr]]%lookup_insert_Some; [|exact (ro_source _ Hok id r Hr)].
    exists f. split; [cbn; by rewrite Hfid|done].
  - intros id r [[<- <-]|[Hne Hr]]%lookup_insert_Some; [done|exact (ro_key _ Hok id r Hr)].
  - intros id1 r1 id2 r2 [[<- <-]|[Hn1 Hr1]]%lookup_insert_Some [[<- <-]|[Hn2 Hr2]]%lookup_insert_Some Heqf;
      cbn in *; [done| | |exact (ro_same _ Hok _ _ _ _ Hr1 Hr2 Heqf)].
    + destruct (Hsame _ _ Hr2 ltac:(congruence)); auto.
    + destruct (Hsame _ _ Hr1 ltac:(congruence)); auto.
  - intros id1 r1 id2 r2 [[<- <-]|[Hn1 Hr1]]%lookup_insert_Some [[<- <-]|[Hn2 Hr2]]%lookup_insert_Some Heqj;
      cbn in *; [done| | |exact (ro_jobs _ Hok _ _ _ _ Hr1 Hr2 Heqj)].
    + destruct (proj2 Hnew (rp_failed_job_id r2)). right. eauto.
    + destruct (proj2 Hnew (rp_failed_job_id r1)). right. eauto.
Qed.

Lemma replayed_single_active : single_active d → single_active d'.
Proof.
  intros Hone failedID id1 id2 Hd1 Hd2 Hj1 Hj2. cbn in Hj1, Hj2.
  assert (∀ x, delivers d failedID x → x ≠ newID) as Hne by (intros x Hx ->; by apply (proj2 Hnew failedID)).
  apply replayed_delivers in Hd1, Hd2.
  destruct Hd1 as [Hd1|[-> ->]], Hd2 as [Hd2|[Hfid ->]]; [| | |done].
  - rewrite lookup_insert_ne in Hj1, Hj2 by (by apply not_eq_sym, Hne). by eapply (Hone failedID).
  - rewrite lookup_insert_ne in Hj1 by (by apply not_eq_sym, Hne). subst failedID.
    rewrite (Hidle _ Hd1) in Hj1. by destruct Hj1.
  - rewrite lookup_insert_ne in Hj2 by (by apply not_eq_sym, Hne).
    rewrite (Hidle _ Hd2) in Hj2. by destruct Hj2.
Qed.

Lemma replayed_registry : registry_ok d → registry_ok d'.
Proof.
  intros Hreg.
  destruct (staged_registry_ok ts (jobFingerprint sha256hex (f_Name f) (f_SchemaVersion f) (f_Payload f) now) newID now
    (replay_key (rq_RequestID request)) (f_Name f) (f_SchemaVersion f) (f_Payload f) now d Hreg (proj1 Hnew) Hfree)
    as [Hact Hinj]. split; [|exact Hinj].
  intros id j k Hj Hd. cbn in Hj. apply lookup_insert_Some in Hj as [[<- <-]|[Hne Hj]].
  - eapply (Hact newID); [apply lookup_insert_eq|done].
  - eapply (Hact id j); [cbn; by rewrite lookup_insert_ne|done].
Qed.
End staged.

(** What every replay maintains. *)
Definition provenance (d : Db) : Prop := replays_ok d ∧ single_active d ∧ registry_ok d ∧ keyed (jobs_t d).

Lemma answer_keeps d res d' : provenance d → unused newID d → answers d (Ok res) d' → provenance d'.
Proof.
  intros (Hok & Hone & Hreg & Hk) Hnew Ha.
  inversion Ha as [r f _ _ _ _ _ Heq|f hint key Hrid Hnone Hfree Hf Hv _ Hkey Hidle Hsame Heq]; subst; [done|]. split_and!.
  - by apply replayed_ok.
  - by apply replayed_single_active.
  - by apply replayed_registry.
  - intros id j. cbn. intros [[<- <-]|[_ Hj]]%lookup_insert_Some; [done|by apply Hk].
Qed.

(** A confirmed delivery is retained. *)
Lemma answer_retained d res d' : replays_ok d → answers d (Ok res) d' →
  ∃ row f, replays_t d' !! rq_RequestID request = Some row ∧ rr_Record res = record_of (rq_RequestID request) row
    ∧ failed_t d' !! rq_FailedJobID request = Some f
    ∧ rec_Source (rr_Record res) = source_of f (rp_original_deduplication_key row)
    ∧ validateSource (source_of f (rp_original_deduplication_key row)) = Ok tt.
Proof.
  intros Hok Ha. inversion Ha as [r f Hr Hf Hs Hv _ Heq|f hint key Hrid Hnone Hfree Hf Hv _ Hkey Hidle Hsame Heq]; subst.
  - by exists r, f.
  - eexists _, f. cbn. rewrite lookup_insert_eq. split_and!; [done|done|done|done|exact Hv].
Qed.
End call.

(** A request with a retained record, made again with nothing failing. *)
Lemma replay_again newID now txNow request admission d row f key :
  rq_RequestID request ≠ MessageIDNil → rq_FailedJobID request ≠ JobIDNil → (∀ name, query_err name = None) →
  replays_t d !! rq_RequestID request = Some row → failed_t d !! rq_FailedJobID request = Some f →
  rec_Source (record_of (rq_RequestID request) row) = source_of f (rp_original_deduplication_key row) →
  validateSource (source_of f (rp_original_deduplication_key row)) = Ok tt →
  admission (source_of f (rp_original_deduplication_key row)) d = Ok key →
  replay newID now txNow request admission d =
    (if String.eqb key (rp_business_key row)
     then Ok {| rr_Record := record_of (rq_RequestID request) row; rr_Created := false |}
     else Err (ESentinel ErrRequestConflict), d).
Proof.
  intros Hid Hfid Hq Hrow Hf Hs Hv Ha. unfold replay, lockSource, query. rewrite Hq, Hf.
  change (validateSource (source_of f (original_key (f_JobID f) (keys_t d)))) with
    (validateSource (source_of f (rp_original_deduplication_key row))).
  rewrite Hv, ByRequestID_spec, Hq, Hrow by done.
  change (with_original_key _ _) with (source_of f (rp_original_deduplication_key row)).
  rewrite bool_decide_true by done. cbn [negb]. rewrite Hs, Ha. cbn. by destruct (String.eqb key _).
Qed.
End replay.

(** ** The promises of replay *)

(** C23: what a replay confirms.  On tables with sound provenance, a replay that
    reports a created delivery found the request unused, the source valid, idle
    under its original id and under every earlier replay, and admitted under a
    key that is not blank and is that of every earlier replay of the row; it
    staged one queue row with the failed row's capability, payload and queue,
    unleased and with no attempts, registered its key and retained its
    provenance, and touched no other row.  A replay that reports an existing
    delivery answers the retained record, under an admission that gave its
    business key again, and changes nothing.  A replay that reports an error
    changed nothing, unless its commit took effect behind the error: then the
    tables are those of one of the two answers.  The caller's transaction is
    never touched. *)
Theorem replay_confirmed ts sha256hex uuid_text scan query_err configured ctxErr drv newID now txNow request admission s r s' :
  (∀ t, scan t ≡ₚ map_to_list t) →
  (∀ name e, query_err name = Some e → errors_Is e ErrReplayNotFound = false) →
  provenance (stored s) → unused newID (stored s) →
  Replay ts sha256hex uuid_text scan query_err configured ctxErr drv newID now txNow request (Some admission) s = (r, s') →
  match r with
  | Ok res => replay_answer ts sha256hex uuid_text newID now txNow request admission (stored s) (Ok res) (stored s')
  | Err _ => stored s' = stored s
      ∨ ∃ res, replay_answer ts sha256hex uuid_text newID now txNow request admission (stored s) (Ok res) (stored s')
  end ∧ open_tx s' = open_tx s.
Proof. intros Hscan Hdriver (Hok & _ & Hreg & Hk) Hnew Hop. by eapply Replay_spec. Qed.

(** Replays keep the provenance sound, whatever the host admits and the
    driver fails: every record refers to the failed row it copied, under the
    business key of all replays of that row; no queue job serves two replays;
    at most one delivery of a failed row is queued, counting the original and
    every replay. *)
Theorem replay_keeps_provenance ts sha256hex uuid_text scan query_err configured ctxErr drv newID now txNow request admission
    s r s' :
  (∀ t, scan t ≡ₚ map_to_list t) →
  (∀ name e, query_err name = Some e → errors_Is e ErrReplayNotFound = false) →
  provenance (stored s) → unused newID (stored s) →
  Replay ts sha256hex uuid_text scan query_err configured ctxErr drv newID now txNow request admission s = (r, s') →
  provenance (stored s').
Proof.
  intros Hscan Hdriver Hp Hnew Hop. destruct admission as [admission|].
  - pose proof Hp as (Hok & _ & Hreg & Hk).
    destruct (Replay_spec _ _ _ _ _ Hscan Hdriver _ _ _ _ _ _ _ _ _ _ _ Hok Hreg Hk Hnew Hop) as [Ha _].
    destruct r as [res|e]; [by eapply answer_keeps|]. destruct Ha as [->|[res Ha]]; [done|by eapply answer_keeps].
  - unfold Replay in Hop. repeat case_match; naive_solver.
Qed.

(** C24: a request stages one delivery, for good.  After a call that confirmed a
    delivery, the same request made again, however much later and whatever
    became of the queue row and of the deduplication keys in between, with the
    provenance and the failed rows kept and nothing failing, answers the same
    record as an existing delivery and changes nothing when the host gives the
    same business key, and is refused when it gives another. *)
Theorem replay_request_once ts sha256hex uuid_text scan query_err configured ctxErr drv newID now txNow request admission s res s'
    newID2 now2 txNow2 admit2 d key :
  (∀ t, scan t ≡ₚ map_to_list t) →
  (∀ name e, query_err name = Some e → errors_Is e ErrReplayNotFound = false) →
  provenance (stored s) → unused newID (stored s) →
  Replay ts sha256hex uuid_text scan query_err configured ctxErr drv newID now txNow request (Some admission) s = (Ok res, s') →
  replays_t (stored s') ⊆ replays_t d → failed_t (stored s') ⊆ failed_t d →
  admit2 (rec_Source (rr_Record res)) d = Ok key →
  ∃ e, Replay ts sha256hex uuid_text scan (λ _, None) true None {| begin_err := None; commit_err := None; rollback_err := None |}
    newID2 now2 txNow2 request (Some admit2) (mkSession d None 0 0)
  = (if String.eqb key (rec_BusinessKey (rr_Record res))
     then Ok {| rr_Record := rr_Record res; rr_Created := false |} else Err (wrapf "replay" e),
     if String.eqb key (rec_BusinessKey (rr_Record res)) then mkSession d None 1 0 else mkSession d None 0 1)
  ∧ (String.eqb key (rec_BusinessKey (rr_Record res)) = false → errors_Is e ErrRequestConflict = true).
Proof.
  intros Hscan Hdriver (Hok & _ & Hreg & Hk) Hnew Hop Hrows Hfailed Hadmit.
  destruct (Replay_spec _ _ _ _ _ Hscan Hdriver _ _ _ _ _ _ _ _ _ _ _ Hok Hreg Hk Hnew Hop) as [Ha _].
  destruct (answer_retained _ _ _ _ _ _ _ _ _ _ _ Hok Ha) as (row & f & Hrow & Hres & Hf & Hs & Hv).
  eapply lookup_weaken in Hrow, Hf; [|done..].
  assert (rq_RequestID request ≠ MessageIDNil ∧ rq_FailedJobID request ≠ JobIDNil) as [Hid Hfid].
  { unfold Replay in Hop. destruct (negb configured); [done|]. destruct (_ || _) eqn:Hz; [done|].
    by apply orb_false_iff in Hz as [?%N.eqb_neq ?%N.eqb_neq]. }
  rewrite Hs in Hadmit. rewrite Hres in Hs |- *. exists (ESentinel ErrRequestConflict). split; [|done].
  unfold Replay. cbn [negb].
  rewrite (proj2 (N.eqb_neq _ _) Hid : MessageIDType.IsZero _ = false),
    (proj2 (N.eqb_neq _ _) Hfid : JobIDType.IsZero _ = false). cbn [orb open_tx stored].
  unfold ReadCommitted, pg_runTransaction, op_callback, BeginTx. cbn [open_tx begin_err stored default].
  pose proof (replay_again ts sha256hex uuid_text scan (λ _, None) Hscan newID2 now2 txNow2 request admit2 d row f key
    Hid Hfid (λ _, eq_refl) Hrow Hf Hs Hv Hadmit) as Hbody.
  rewrite Hbody. cbn [rec_BusinessKey record_of]. destruct (String.eqb key (rp_business_key row)); cbn; by rewrite ?Hbody.
Qed.
