(* ===== verification/Pages.v ===== *)
(** * Keyset pagination

    [ListPage] of the SQLite and MySQL repositories (jobsrepo/pagination.go
    and jobsfailedrepo/pagination.go of both backends): rows in descending
    order of creation time and id, a page starting after the cursor.  The
    listing is the same for queue rows and failed rows, so it is stated over
    any row type with the two columns. *)

From S2P Require Import Prelude GoTime Errors Models.
Open Scope Z_scope.

Definition DefaultPageSize : Z := 10.
Definition MaxPageSize : Z := 1000.

Record PageCursor : Type := { pc_CreatedAt : Z; pc_ID : JobID }.

(** Descending orders. *)
Definition Z_desc (a b : Z) : bool := Z.ltb b a.
Definition N_desc (a b : N) : bool := N.ltb b a.
#[global] Instance Z_desc_linear : LinearKey Z.eqb Z_desc.
Proof. split; unfold Z_desc; intros *; rewrite ?Z.eqb_eq, ?Z.ltb_lt, ?Z.ltb_ge; lia. Qed.
#[global] Instance N_desc_linear : LinearKey N.eqb N_desc.
Proof. split; unfold N_desc; intros *; rewrite ?N.eqb_eq, ?N.ltb_lt, ?N.ltb_ge; lia. Qed.

Section pages.
Context {Row : Type} (created : Row → Z) (rowID : Row → JobID) (ts : Z → Z).

(** [ORDER BY created_at DESC, LOWER(id) DESC]. *)
Definition page_less : Row → Row → bool :=
  lex_by Z.eqb Z_desc created (by_key N_desc rowID).

(** [created_at < ? OR (created_at = ? AND LOWER(id) < ?)]. *)
Definition after_cursor (before : option PageCursor) (r : Row) : bool :=
  match before with
  | None => true
  | Some c => (created r <? ts (pc_CreatedAt c)) || (created r =? ts (pc_CreatedAt c)) && (rowID r <? pc_ID c)%N
  end.

Definition ListPage (limit : Z) (before : option PageCursor) (rows : list Row) : result (list Row) :=
  let limit := if limit <=? 0 then DefaultPageSize else limit in
  if MaxPageSize <? limit then Err (EText "page limit must not exceed 1000")
  else Ok (take (Z.to_nat limit) (sort_slice page_less (filter (λ r, after_cursor before r = true) rows))).

(** The traversal its comment prescribes: the first page without a cursor,
    then after the last row of each page, until a page is empty. *)
Fixpoint traverse (fuel : nat) (limit : Z) (before : option PageCursor) (rows : list Row) : option (list Row) :=
  match fuel with
  | O => None
  | S fuel =>
      match ListPage limit before rows with
      | Err _ => None
      | Ok page =>
          match last page with
          | None => Some []
          | Some r =>
              rest ← traverse fuel limit (Some {| pc_CreatedAt := created r; pc_ID := rowID r |}) rows;
              Some (page ++ rest)
          end
      end
  end.

#[global] Instance page_less_strict : StrictOrderB page_less.
Proof. apply _. Qed.

Lemma page_less_cursor x y : ts (created x) = created x →
  after_cursor (Some {| pc_CreatedAt := created x; pc_ID := rowID x |}) y = page_less x y.
Proof.
  intros Hx. cbn. rewrite Hx. unfold page_less, lex_by, lex, by_key, Z_desc, N_desc. rewrite (Z.eqb_sym (created x)).
  destruct (Z.eqb_spec (created y) (created x)) as [Heq|Hne].
  - rewrite (proj2 (Z.ltb_ge _ _)) by lia. done.
  - rewrite andb_false_l. by rewrite orb_false_r.
Qed.

Lemma page_less_spec x y : page_less x y = true ↔
  created y < created x ∨ created y = created x ∧ (rowID y < rowID x)%N.
Proof.
  unfold page_less, lex_by, lex, by_key, Z_desc, N_desc. destruct (Z.eqb_spec (created x) (created y)) as [Heq|Hne].
  - rewrite N.ltb_lt. lia.
  - rewrite Z.ltb_lt. lia.
Qed.

(** A table: rows with distinct ids and times at the resolution of the column. *)
Context (rows : list Row) (Hids : NoDup (rowID <$> rows)) (Hts : ∀ r, r ∈ rows → ts (created r) = created r).

Lemma page_tie x y : x ∈ rows → y ∈ rows → page_less x y = false → page_less y x = false → x = y.
Proof.
  intros [i Hi]%list_elem_of_lookup [j Hj]%list_elem_of_lookup. rewrite <- !not_true_iff_false, !page_less_spec.
  intros H1 H2. assert (rowID x = rowID y) as Heq by lia. assert (i = j) as ->; [|congruence].
  by eapply (NoDup_lookup _ i j (rowID x) Hids); rewrite list_lookup_fmap, ?Hi, ?Hj; cbn; rewrite ?Heq.
Qed.

Definition remaining (before : option PageCursor) : list Row :=
  sort_slice page_less (filter (λ r, after_cursor before r = true) rows).

Lemma remaining_elem before r : r ∈ remaining before ↔ after_cursor before r = true ∧ r ∈ rows.
Proof. unfold remaining. by rewrite sort_slice_elem, list_elem_of_filter. Qed.

Lemma rows_NoDup : NoDup rows.
Proof. by apply (NoDup_fmap_1 rowID). Qed.

Lemma remaining_NoDup before : NoDup (remaining before).
Proof. unfold remaining. rewrite sort_slice_perm. apply NoDup_filter, rows_NoDup. Qed.

(** What is left after the last row of a page is the rest of the order. *)
Lemma remaining_after before page x rest : remaining before = page ++ rest → last page = Some x →
  remaining (Some {| pc_CreatedAt := created x; pc_ID := rowID x |}) = rest.
Proof.
  intros Hrem Hlast.
  pose proof (last_Some_elem_of _ _ Hlast) as Hx.
  pose proof (sort_slice_sorted page_less (filter (λ r, after_cursor before r = true) rows)) as Hs.
  fold (remaining before) in Hs. rewrite Hrem in Hs.
  pose proof (remaining_NoDup before) as Hnd. rewrite Hrem in Hnd. apply NoDup_app in Hnd as (Hndp & Hdis & Hndr).
  assert (∀ r, r ∈ page ++ rest → after_cursor before r = true ∧ r ∈ rows) as Hin
    by (intros r; by rewrite <- Hrem, remaining_elem).
  destruct (Hin x ltac:(set_solver)) as [Hxa Hxr].
  symmetry. apply (sort_slice_unique page_less).
  - intros a b [_ Ha]%list_elem_of_filter [_ Hb]%list_elem_of_filter. by apply page_tie.
  - apply NoDup_Permutation; [done|apply NoDup_filter, rows_NoDup|]. intros y.
    rewrite list_elem_of_filter, page_less_cursor by (by apply Hts). split.
    + intros Hy. destruct (Hin y ltac:(set_solver)) as [_ Hyr]. split; [|done].
      pose proof (StronglySorted_app_1_elem_of _ _ _ _ _ Hs Hx Hy) as Hna.
      destruct (page_less x y) eqn:Hxy; [done|]. exfalso.
      assert (x = y) as -> by (by apply page_tie). by apply (Hdis y).
    + intros [Hxy Hyr].
      assert (y ∈ remaining before) as Hy.
      { apply remaining_elem. split; [|done]. destruct before as [c|]; [|done]. cbn in Hxa |- *.
        apply page_less_spec in Hxy. rewrite orb_true_iff, andb_true_iff, Z.ltb_lt, Z.eqb_eq, N.ltb_lt in *. lia. }
      rewrite Hrem in Hy. apply elem_of_app in Hy as [Hy|]; [|done]. exfalso.
      apply last_Some in Hlast as [l' ->]. apply elem_of_app in Hy as [Hy|Hy%list_elem_of_singleton].
      * rewrite <- app_assoc in Hs.
        pose proof (StronglySorted_app_1_elem_of _ l' ([x] ++ rest) y x Hs Hy ltac:(set_solver)) as Hna.
        unfold not_after in Hna. congruence.
      * subst y. pose proof (less_asym page_less x x Hxy). congruence.
  - by apply StronglySorted_app_1_r in Hs.
Qed.

Lemma traverse_remaining limit fuel before : limit ≤ MaxPageSize → (length (remaining before) < fuel)%nat →
  traverse fuel limit before rows = Some (remaining before).
Proof.
  intros Hlim. revert before. induction fuel as [|fuel IH]; intros before Hfuel; [lia|]. cbn [traverse].
  set (n := Z.to_nat (if limit <=? 0 then DefaultPageSize else limit)).
  assert (ListPage limit before rows = Ok (take n (remaining before)) ∧ (0 < n)%nat) as [-> Hn].
  { unfold ListPage, n, remaining, DefaultPageSize, MaxPageSize in *. destruct (Z.leb_spec limit 0).
    - split; [done|lia].
    - rewrite (proj2 (Z.ltb_ge _ _)) by lia. split; [done|lia]. }
  clearbody n. destruct (last (take n (remaining before))) as [x|] eqn:Hlast.
  - pose proof (remaining_after before (take n (remaining before)) x (drop n (remaining before))
      (eq_sym (take_drop _ _)) Hlast) as Hrest.
    assert (remaining before ≠ []) as Hne by (intros Hnil; rewrite Hnil, take_nil in Hlast; done).
    rewrite IH; rewrite Hrest.
    + cbn. by rewrite take_drop.
    + rewrite length_drop. destruct (remaining before); [done|]. cbn in *. lia.
  - apply last_None in Hlast. destruct (remaining before) as [|r l]; [done|]. destruct n; [lia|done].
Qed.

End pages.

(** A traversal with [ListPage] is complete and ends.  On a table whose
    rows have distinct ids and times at the column's resolution, for every page
    size up to the maximum (a non-positive one meaning the default), following
    the cursors lists every row exactly once, newest first and by descending
    id among equals, however many rows share a creation time; one call more
    than there are rows is enough to reach the empty page. *)
Theorem pages_complete {Row} (created : Row → Z) (rowID : Row → JobID) (ts : Z → Z) (rows : list Row) (limit : Z)
    (fuel : nat) : NoDup (rowID <$> rows) → (∀ r, r ∈ rows → ts (created r) = created r) → limit ≤ MaxPageSize →
  (length rows < fuel)%nat →
  ∃ l, traverse created rowID ts fuel limit None rows = Some l ∧ l ≡ₚ rows
    ∧ StronglySorted (λ a b, page_less created rowID a b = true) l.
Proof.
  intros Hids Hts Hlim Hfuel.
  assert (remaining created rowID ts rows None ≡ₚ rows) as Hperm.
  { unfold remaining. rewrite sort_slice_perm. clear. induction rows as [|r rows IH]; [done|].
    rewrite filter_cons_True by done. by f_equiv. }
  exists (remaining created rowID ts rows None). split_and!.
  - apply traverse_remaining; [done..|]. by rewrite Hperm.
  - done.
  - apply sorted_strict; [apply sort_slice_sorted, _|rewrite Hperm; by apply (NoDup_fmap_1 rowID)|].
    intros a b. rewrite Hperm. by apply page_tie.
Qed.
