(* ===== verification/Listings.v ===== *)
(** * Listings by creation time

    [All] and the deprecated [ListPaged] of the SQLite, MySQL and Picodata
    repositories (jobsrepo/api.go and jobsfailedrepo/api.go of each): rows
    ordered by [created_at DESC] alone.  SQL leaves the order of rows with
    equal times to the database, so the answer to the [ORDER BY] is a
    parameter that promises a sorted permutation and nothing else. *)

From S2P Require Import Prelude GoTime Errors Models Pages.
Open Scope Z_scope.

(** What a database promises of [ORDER BY] under a comparison. *)
Class Orders {Row : Type} (less : Row → Row → bool) (order : list Row → list Row) : Prop := {
  orders_perm l : order l ≡ₚ l;
  orders_sorted l : StronglySorted (not_after less) (order l)
}.

(** [ORDER BY created_at DESC]. *)
Definition newest_first {Row} (created : Row → Z) : Row → Row → bool := by_key Z_desc created.

Lemma newest_first_spec {Row} (created : Row → Z) x y :
  not_after (newest_first created) x y ↔ created y ≤ created x.
Proof. unfold not_after, newest_first, by_key, Z_desc. rewrite Z.ltb_ge. lia. Qed.

Section listings.
Context {Row : Type} (created : Row → Z) (order : list Row → list Row).

(** [ORDER BY created_at DESC LIMIT 100]. *)
Definition All (rows : list Row) : list Row := take 100 (order rows).

(** [WHERE created_at < ? ORDER BY created_at DESC LIMIT limit]. *)
Definition ListPaged (ts : Z → Z) (limit before : Z) (rows : list Row) : list Row :=
  let limit := if limit <=? 0 then 10 else limit in
  take (Z.to_nat limit) (order (filter (λ r, created r < ts before) rows)).

(** The traversal: each page before the creation time of the last row of the
    page before it, until a page is empty. *)
Fixpoint traverse_paged (ts : Z → Z) (fuel : nat) (limit before : Z) (rows : list Row) : option (list Row) :=
  match fuel with
  | O => None
  | S fuel =>
      let page := ListPaged ts limit before rows in
      match last page with
      | None => Some []
      | Some r => rest ← traverse_paged ts fuel limit (created r) rows; Some (page ++ rest)
      end
  end.

Context `{!Orders (newest_first created) order}.

(** A prefix of the answer holds the newest rows. *)
Lemma prefix_newest n l x y : x ∈ take n (order l) → y ∈ drop n (order l) → created y ≤ created x.
Proof.
  intros Hx Hy. pose proof (orders_sorted (less := newest_first created) l) as Hs. rewrite <- (take_drop n (order l)) in Hs.
  apply newest_first_spec. by eapply StronglySorted_app_1_elem_of.
Qed.

Lemma last_oldest n l x y : last (take n (order l)) = Some x → y ∈ take n (order l) → created x ≤ created y.
Proof.
  intros [l' Hl]%last_Some Hy. pose proof (orders_sorted (less := newest_first created) l) as Hs.
  rewrite <- (take_drop n (order l)) in Hs. apply StronglySorted_app_1_l in Hs. rewrite Hl in *.
  apply elem_of_app in Hy as [Hy|Hy%list_elem_of_singleton]; [|by subst].
  apply newest_first_spec. eapply StronglySorted_app_1_elem_of; [done..|set_solver].
Qed.

Lemma sorted_take n l : StronglySorted (not_after (newest_first created)) (take n (order l)).
Proof.
  pose proof (orders_sorted (less := newest_first created) l) as Hs.
  rewrite <- (take_drop n (order l)) in Hs. by apply StronglySorted_app_1_l in Hs.
Qed.

(** [All] lists up to a hundred rows, each once, and no row newer than those. *)
Lemma All_newest rows : NoDup rows → NoDup (All rows) ∧ length (All rows) = Nat.min 100 (length rows)
  ∧ ∀ y, y ∈ rows → y ∈ All rows ∨ ∀ x, x ∈ All rows → created y ≤ created x.
Proof.
  intros Hnd. unfold All. split_and!.
  - apply NoDup_take. by rewrite orders_perm.
  - by rewrite length_take, orders_perm.
  - intros y Hy. rewrite <- (orders_perm rows), <- (take_drop 100 (order rows)), elem_of_app in Hy.
    destruct Hy as [Hy|Hy]; [by left|right]. intros x Hx. by eapply prefix_newest.
Qed.

Section traversal.
Context (ts : Z → Z) (rows : list Row) (Hnd : NoDup rows) (Hts : ∀ r, r ∈ rows → ts (created r) = created r).

(** What a traversal lists of the rows before a time. *)
Record lists (before : Z) (l : list Row) : Prop := {
  lists_sound r : r ∈ l → r ∈ rows ∧ created r < before;
  lists_once : NoDup l;
  lists_sorted : StronglySorted (not_after (newest_first created)) l;
  lists_ties r : r ∈ rows → created r < before → r ∈ l ∨ ∃ x, x ∈ l ∧ created x = created r
}.

(** One page and what the traversal lists before its last row. *)
Lemma lists_page n before x rest : last (take n (order (filter (λ r, created r < before) rows))) = Some x →
  lists (created x) rest → lists before (take n (order (filter (λ r, created r < before) rows)) ++ rest).
Proof.
  intros Hlast [Hs Ho Hso Ht]. set (l := filter _ rows) in *.
  assert (∀ r, r ∈ take n (order l) → r ∈ rows ∧ created r < before) as Hpage.
  { intros r Hr. assert (r ∈ order l) as Hin by (rewrite <- (take_drop n (order l)); set_solver).
    rewrite orders_perm in Hin. apply list_elem_of_filter in Hin. tauto. }
  assert (created x < before) as Hx by (apply Hpage, last_Some_elem_of, Hlast).
  split.
  - intros r [Hr|Hr]%elem_of_app; [by apply Hpage|]. destruct (Hs r Hr). split; [done|lia].
  - apply NoDup_app. split_and!; [|intros r Hr Hr'|done].
    + apply NoDup_take. rewrite orders_perm. by apply NoDup_filter.
    + pose proof (last_oldest n l x r Hlast Hr). destruct (Hs r Hr'). lia.
  - apply StronglySorted_app. split_and!; [|apply sorted_take|done]. intros a b Ha Hb. apply newest_first_spec.
    pose proof (last_oldest n l x a Hlast Ha). destruct (Hs b Hb). lia.
  - intros r Hr Hbefore. destruct (decide (created r < created x)) as [Hlt|Hge].
    { destruct (Ht r Hr Hlt) as [?|(y & Hy & ?)]; [left; set_solver|right; exists y; set_solver]. }
    assert (r ∈ order l) as Hin by (rewrite orders_perm; by apply list_elem_of_filter).
    rewrite <- (take_drop n (order l)) in Hin. apply elem_of_app in Hin as [Hin|Hin]; [left; set_solver|].
    right. exists x. pose proof (last_Some_elem_of _ _ Hlast) as Hxp. pose proof (prefix_newest n l x r Hxp Hin).
    split; [set_solver|lia].
Qed.

Lemma traverse_paged_lists limit fuel before :
  ts before = before → (length (filter (λ r, (created r < before)%Z) rows) < fuel)%nat →
  ∃ l, traverse_paged ts fuel limit before rows = Some l ∧ lists before l.
Proof.
  revert before. induction fuel as [|fuel IH]; intros before Hb Hfuel; [lia|]. cbn [traverse_paged]. unfold ListPaged.
  rewrite Hb. set (n := Z.to_nat _). assert (0 < n)%nat as Hn by (unfold n; destruct (Z.leb_spec limit 0); lia).
  clearbody n. destruct (last _) as [x|] eqn:Hlast.
  - assert (x ∈ rows ∧ created x < before) as [Hx Hlt].
    { pose proof (last_Some_elem_of _ _ Hlast) as Hin. 
      assert (x ∈ order (filter (λ r, created r < before) rows)) as Hin'.
      { rewrite <- (take_drop n (order _)). apply elem_of_app. by left. }
      rewrite orders_perm in Hin'. apply list_elem_of_filter in Hin'. tauto. }
    destruct (IH (created x)) as (rest & Hrest & Hl); [by apply Hts| |].
    { eapply Nat.lt_le_trans; [|apply Nat.lt_succ_r, Hfuel]. clear -Hx Hlt.
      induction rows as [|r rs IHr]; [set_solver|]. rewrite !filter_cons.
      assert (length (filter (λ r, (created r < created x)%Z) rs) ≤ length (filter (λ r, (created r < before)%Z) rs))%nat as Hle.
      { clear -Hlt. induction rs as [|r rs IH]; [done|]. rewrite !filter_cons. repeat case_decide; cbn; lia. }
      apply elem_of_cons in Hx as [<-|Hx]; repeat case_decide; cbn; try lia; specialize (IHr Hx); lia. }
    rewrite Hrest. cbn. eexists. split; [done|]. by apply (lists_page n before x).
  - eexists. split; [done|]. apply last_None in Hlast.
    assert (filter (λ r, created r < before) rows = []) as Hnil.
    { destruct (order _) as [|a k] eqn:Ho; [|destruct n; [lia|done]]. apply Permutation_nil.
      pose proof (orders_perm (filter (λ r, created r < before) rows)) as Hp. by rewrite Ho in Hp. }
    split; [set_solver|constructor|constructor|]. intros r Hr Hlt.
    assert (r ∈ filter (λ r, created r < before) rows) as Hin by (by apply list_elem_of_filter).
    rewrite Hnil in Hin. set_solver.
Qed.
End traversal.
End listings.

(** A traversal with the deprecated [ListPaged] ends, lists no row twice
    and newest first, and what it skips is exactly bounded: every row before
    the starting time is listed or shares its creation time with a listed row.
    So it is complete when creation times are distinct, however the database
    orders equal times; one call more than there are rows is enough. *)
Theorem paged_skips_only_ties {Row} (created : Row → Z) (order : list Row → list Row) (ts : Z → Z) (rows : list Row)
    (limit start : Z) (fuel : nat) : Orders (newest_first created) order → NoDup rows →
  (∀ r, r ∈ rows → ts (created r) = created r) → ts start = start → (length rows < fuel)%nat →
  ∃ l, traverse_paged created order ts fuel limit start rows = Some l ∧ NoDup l
    ∧ StronglySorted (λ a b, created b ≤ created a) l
    ∧ (∀ r, r ∈ l → r ∈ rows ∧ created r < start)
    ∧ (∀ r, r ∈ rows → created r < start → r ∈ l ∨ ∃ x, x ∈ l ∧ created x = created r)
    ∧ (NoDup (created <$> rows) → l ≡ₚ filter (λ r, created r < start) rows).
Proof.
  intros Ho Hnd Hts Hstart Hfuel.
  destruct (traverse_paged_lists created order ts rows Hnd Hts limit fuel start Hstart) as (l & Hl & [Hs Hone Hso Ht]).
  { eapply Nat.le_lt_trans; [|exact Hfuel]. apply length_filter. }
  exists l. split_and!; [done|done| |done|done|].
  - clear -Hso. induction Hso as [|a l _ IH Hall]; constructor; [done|]. eapply Forall_impl; [exact Hall|].
    intros b. apply newest_first_spec.
  - intros Hd. apply NoDup_Permutation; [done|by apply NoDup_filter|]. intros r. rewrite list_elem_of_filter. split.
    + intros Hr. destruct (Hs r Hr). done.
    + intros [Hlt Hr]. destruct (Ht r Hr Hlt) as [?|(x & Hx & He)]; [done|].
      destruct (Hs x Hx) as [Hxr _]. assert (x = r) as <-; [|done].
      apply list_elem_of_lookup in Hr as [i Hi], Hxr as [j Hj]. assert (i = j) as ->; [|congruence].
      by eapply (NoDup_lookup _ i j (created r) Hd); rewrite list_lookup_fmap, ?Hi, ?Hj; cbn; rewrite ?He.
Qed.
