(* ===== verification/DbSql.v ===== *)
(** * What the SQLite and the MySQL jobs repositories share

    backends/sqlite/repositories/jobsrepo/api.go and
    backends/mysql/repositories/jobsrepo/api.go are written alike over
    database/sql; this file holds the operations whose text is the same up to
    the spelling of a statement.  [ts] is the resolution of the timestamp
    columns and [found] what the driver reports for an [UPDATE]: the rows it
    found (SQLite) or the rows it changed (MySQL without clientFoundRows). *)

From S2P Require Import Prelude GoTime Errors Models Batch Fingerprint Sql Repo.
Open Scope Z_scope.

Module DbSql.
Section dbsql.
Context (ts : Z → Z) `{!Rounding ts} (found : bool).

(** [ExecContext] of an [UPDATE] and its [RowsAffected]. *)
Definition rows_updated (p : Job → bool) (f : Job → Job) : Op Z := λ d,
  (Ok (affected (λ j, p j && (found || bool_decide (f j ≠ j))) (jobs_t d)),
   set_jobs (sql_update p f (jobs_t d)).1 d).

Definition CreateJobVersioned (id : JobID) (now : Z) (name : string) (schemaVersion : SchemaVersion)
    (payload : string) (availableAt : Z) : Op JobID :=
  guarded (res_map_err (wrapf "validate capability")
             (Validate {| cap_Name := name; cap_SchemaVersion := schemaVersion |}))
  (λ d, match insert_job (mkJob id "queue" name schemaVersion payload 0 None LeaseTokenNil None
                            (ts availableAt) (ts now)) d with
        | (Ok _, d') => (Ok id, d')
        | (Err e, d') => (Err e, d')
        end).

Definition validateBatchClaim (leaseToken : LeaseToken) (limit : Z) : result unit :=
  _ ← res_map_err (wrapf "invalid lease token") (LeaseTokenType.Validate leaseToken);
  fail_if ((limit <? 1) || (MaxReservationBatchSize <? limit)) (EText "limit must be between 1 and 1000").

Definition validateBatchLease (jobIDs : list JobID) (leaseToken : LeaseToken) : result unit :=
  _ ← fail_if ((length jobIDs =? 0)%nat || (MaxReservationBatchSize <? Z.of_nat (length jobIDs)))
              (EText "job ID count must be between 1 and 1000");
  _ ← check_from (λ _ jobID, fail_if (JobIDType.IsZero jobID) (EText "invalid job id")) 0 jobIDs;
  res_map_err (wrapf "invalid lease token") (LeaseTokenType.Validate leaseToken).

(** The loop over the candidates of a bounded claim. *)
Fixpoint bounded_ids (maxBytes : Z) (rows : list Job) (jobIDs : list JobID) (usedBytes : Z)
    (limitReached : bool) : list JobID :=
  match rows with
  | [] => jobIDs
  | j :: rows =>
      if limitReached then bounded_ids maxBytes rows jobIDs usedBytes limitReached
      else if (length jobIDs =? 0)%nat || (usedBytes + payload_len j <=? maxBytes) then
        let usedBytes := usedBytes + payload_len j in
        bounded_ids maxBytes rows (jobIDs ++ [ID j]) usedBytes (maxBytes <? usedBytes)
      else bounded_ids maxBytes rows jobIDs usedBytes true
  end.

Definition ExtendJobLeases (jobIDs : list JobID) (leaseToken : LeaseToken) (now until : Z) : Op Z :=
  guarded (validateBatchLease jobIDs leaseToken)
    (rows_updated (λ j, in_ids jobIDs j && live leaseToken (ts now) j) (extend_row (ts until))).

Definition ReleaseUnstartedJobsWithLease (jobIDs : list JobID) (leaseToken : LeaseToken) (now : Z) : Op Z :=
  guarded (validateBatchLease jobIDs leaseToken)
    (rows_updated (λ j, in_ids jobIDs j && live leaseToken (ts now) j && (0 <? Attempts j)) release_row).

Definition validateBatchOutcomes (leaseToken : LeaseToken) (outcomes : list BatchJobOutcome) : result unit :=
  _ ← res_map_err (wrapf "invalid lease token") (LeaseTokenType.Validate leaseToken);
  _ ← fail_if ((Z.of_nat (length outcomes) <? 1) || (MaxReservationBatchSize <? Z.of_nat (length outcomes)))
              (EText "outcome count must be between 1 and 1000");
  check_outcomes "duplicate outcome JobID" outcomes ∅.

(** [id IN (SELECT job_id FROM input WHERE kind IN kinds)]. *)
Definition input_kind (outcomes : list BatchJobOutcome) (kinds : list BatchJobOutcomeKind) (j : Job) : bool :=
  existsb (λ o, N.eqb (o_JobID o) (ID j) && kind_in kinds o) outcomes.

Definition terminal_rows (leaseToken : LeaseToken) (now : Z) (outcomes : list BatchJobOutcome) (j : Job) : bool :=
  input_kind outcomes [BatchJobOutcomeSuccess; BatchJobOutcomeDLQ] j && live leaseToken (ts now) j.

Definition retry_rows (leaseToken : LeaseToken) (now : Z) (outcomes : list BatchJobOutcome) (j : Job) : bool :=
  input_kind outcomes [BatchJobOutcomeRetry; BatchJobOutcomeDefer] j && live leaseToken (ts now) j
  && (0 <? Attempts j).

Definition deleteBatchTerminalOutcomes (leaseToken : LeaseToken) (now : Z) (outcomes : list BatchJobOutcome) : Op Z :=
  exec_delete (terminal_rows leaseToken now outcomes).

(** The scalar subqueries [SELECT kind] and [SELECT available_at FROM input
    WHERE input.job_id = jobs.id]. *)
Definition retry_update (outcomes : list BatchJobOutcome) (j : Job) : Job :=
  match outcome_of outcomes (ID j) with
  | Some o => mkJob (ID j) (Queue j) (Name j) (SchemaVersionOf j) (Payload j)
                (if kind_in [BatchJobOutcomeDefer] o then Attempts j - 1 else Attempts j)
                None LeaseTokenNil (DeduplicationKey j) (ts (o_AvailableAt o)) (CreatedAt j)
  | None => j
  end.

Definition updateBatchRetryOutcomes (leaseToken : LeaseToken) (now : Z) (outcomes : list BatchJobOutcome) : Op Z :=
  rows_updated (retry_rows leaseToken now outcomes) (retry_update outcomes).

(** [RunInTx]: an error of the callback rolls both statements back. *)
Definition ApplyBatchJobOutcomes (leaseToken : LeaseToken) (now : Z) (outcomes : list BatchJobOutcome) : Op Z :=
  guarded (validateBatchOutcomes leaseToken outcomes) (λ d,
    match deleteBatchTerminalOutcomes leaseToken now outcomes d with
    | (Err e, _) => (Err (wrapf "apply batch job outcomes" e), d)
    | (Ok deleted, d1) =>
        match updateBatchRetryOutcomes leaseToken now outcomes d1 with
        | (Err e, _) => (Err (wrapf "apply batch job outcomes" e), d)
        | (Ok updated, d2) =>
            if deleted + updated =? Z.of_nat (length outcomes) then (Ok (deleted + updated), d2)
            else (Err (wrapf "apply batch job outcomes" finalized_partly), d)
        end
    end).

Definition DeferJobWithLease (jobID : JobID) (leaseToken : LeaseToken) (now availableAt : Z) : Op Z :=
  ApplyBatchJobOutcomes leaseToken now
    [{| o_JobID := jobID; o_Kind := BatchJobOutcomeDefer; o_AvailableAt := availableAt; o_Reason := "" |}].

Definition validate_id_token (jobID : JobID) (leaseToken : LeaseToken) : result unit :=
  _ ← fail_if (JobIDType.IsZero jobID) (EText "invalid job id");
  res_map_err (wrapf "invalid lease token") (LeaseTokenType.Validate leaseToken).

Definition DeleteJobWithLease (jobID : JobID) (leaseToken : LeaseToken) (now : Z) : Op Z :=
  guarded (validate_id_token jobID leaseToken)
    (exec_delete (λ j, N.eqb (ID j) jobID && live leaseToken (ts now) j)).

Definition RescheduleJobWithLease (jobID : JobID) (leaseToken : LeaseToken) (now availableAt : Z) : Op Z :=
  guarded (validate_id_token jobID leaseToken)
    (rows_updated (λ j, N.eqb (ID j) jobID && live leaseToken (ts now) j) (reschedule_row (ts availableAt))).

(** ** The operations keep the contract *)

Lemma rows_updated_atomic p f : atomic (rows_updated p f).
Proof. by intros d e d'. Qed.

Lemma rows_updated_found p f d n d' : rows_updated p f d = (Ok n, d') → updates_found p f d n d'.
Proof.
  intros [= <- <-]. split; [done|].
  split; apply affected_mono; intros j; rewrite !andb_true_iff, ?orb_true_iff; naive_solver.
Qed.

(** Both conventions agree on statements that change every row they find. *)
Lemma rows_updated_all p f d : (∀ j, p j = true → f j ≠ j) → rows_updated p f d = exec_update p f d.
Proof.
  intros Hf. unfold rows_updated, exec_update. do 2 f_equal. apply affected_ext. intros j.
  destruct (p j) eqn:Hp; [|done]. cbn. rewrite bool_decide_true by auto. by rewrite orb_true_r.
Qed.

Lemma cleared_differs j j' : (∃ r, ReservedAt j = Some r) → ReservedAt j' = None → j' ≠ j.
Proof. intros [r Hr] Hn ->. congruence. Qed.

Lemma live_reserved tok now j : live tok now j = true → ∃ r, ReservedAt j = Some r.
Proof. intros (_ & r & Hr & _)%live_spec. by exists r. Qed.

Lemma validateBatchClaim_ok tok limit :
  validateBatchClaim tok limit = Ok tt ↔ tok ≠ LeaseTokenNil ∧ 1 ≤ limit ≤ MaxReservationBatchSize.
Proof.
  unfold validateBatchClaim.
  rewrite res_seq_ok, res_map_err_ok, lease_token_valid, fail_if_ok, orb_false_iff, !Z.ltb_ge. naive_solver lia.
Qed.

Lemma validateBatchLease_ok ids tok :
  validateBatchLease ids tok = Ok tt ↔
  tok ≠ LeaseTokenNil ∧ 1 ≤ Z.of_nat (length ids) ≤ MaxReservationBatchSize ∧ JobIDNil ∉ ids.
Proof.
  unfold validateBatchLease, JobIDType.IsZero.
  rewrite !res_seq_ok, res_map_err_ok, lease_token_valid, fail_if_ok, orb_false_iff, Z.ltb_ge,
    Nat.eqb_neq, check_from_ok.
  setoid_rewrite fail_if_ok. setoid_rewrite N.eqb_neq.
  assert ((∀ k x, ids !! k = Some x → x ≠ JobIDNil) ↔ JobIDNil ∉ ids) as ->.
  { rewrite list_elem_of_lookup. naive_solver. }
  naive_solver lia.
Qed.

Lemma id_token_ok id tok :
  validate_id_token id tok = Ok tt ↔ id ≠ JobIDNil ∧ tok ≠ LeaseTokenNil.
Proof.
  unfold validate_id_token, JobIDType.IsZero.
  by rewrite res_seq_ok, res_map_err_ok, lease_token_valid, fail_if_ok, N.eqb_neq.
Qed.

Lemma validateBatchOutcomes_ok tok os :
  validateBatchOutcomes tok os = Ok tt ↔ outcomes_ok MaxReservationBatchSize tok os.
Proof.
  unfold validateBatchOutcomes, outcomes_ok.
  rewrite !res_seq_ok, res_map_err_ok, lease_token_valid, fail_if_ok, orb_false_iff, !Z.ltb_ge, check_outcomes_ok.
  naive_solver (lia || set_solver).
Qed.

Lemma create_job_atomic id now name v payload at_ : atomic (CreateJobVersioned id now name v payload at_).
Proof. apply guarded_atomic. intros d e d'. unfold insert_job. repeat case_match; naive_solver. Qed.

Lemma create_job_ok id now name v payload at_ d id' d' :
  CreateJobVersioned id now name v payload at_ d = (Ok id', d') →
  id' = id ∧ 0 < v ∧ jobs_t d !! id = None ∧
  ∃ q, d' = set_jobs (<[id := mkJob id q name v payload 0 None LeaseTokenNil None (ts at_) (ts now)]>
                        (jobs_t d)) d.
Proof.
  intros [Hv%res_map_err_ok%capability_valid H]%guarded_ok. cbn in Hv. unfold insert_job in H. cbn in H.
  case_bool_decide as Hn; [done|]. rewrite (proj2 (Z.leb_gt v 0)) in H by done.
  simplify_eq. split_and!; [done..| |by exists "queue"]. by apply eq_None_not_Some.
Qed.

Lemma affected_in_ids t c : keyed t → NoDup c → (∀ j, j ∈ c → t !! ID j = Some j) →
  affected (in_ids (ID <$> c)) t = Z.of_nat (length c).
Proof.
  intros Hk Hnd Hc. rewrite <- (length_fmap ID c). apply affected_all_iff; [done| | |].
  - apply NoDup_fmap_2_strong; [|done]. intros a b Ha%Hc Hb%Hc Heq. rewrite Heq in Ha. naive_solver.
  - intros j. apply in_ids_spec.
  - intros id (j & -> & Hj)%list_elem_of_fmap. exists j. split; [by apply Hc|].
    by apply in_ids_spec, list_elem_of_fmap_2.
Qed.

(** The candidate loop selects the bounded prefix. *)
Lemma bounded_ids_reached maxBytes rows ids used : bounded_ids maxBytes rows ids used true = ids.
Proof. by induction rows. Qed.

Lemma bounded_ids_later maxBytes rows : ∀ ids used, ids ≠ [] → used ≤ maxBytes →
  bounded_ids maxBytes rows ids used false
  = ids ++ (ID <$> (selectBatchPayloadLimitWithUsed rows maxBytes used).1).
Proof.
  induction rows as [|j rows IH]; intros ids used Hne Hu; cbn; [by rewrite app_nil_r|].
  destruct ids as [|i ids]; [done|]. cbn [length Nat.eqb orb].
  destruct (Z.leb_spec (used + payload_len j) maxBytes) as [Hle|Hgt].
  - rewrite (proj2 (Z.ltb_ge _ _)), IH by (done || lia).
    destruct (selectBatchPayloadLimitWithUsed _ _ _). cbn. by rewrite <- app_assoc.
  - rewrite (proj2 (Z.ltb_lt _ _)), bounded_ids_reached by lia. by rewrite app_nil_r.
Qed.

Lemma bounded_ids_prefix maxBytes rows :
  bounded_ids maxBytes rows [] 0 false = ID <$> bounded_prefix maxBytes rows.
Proof.
  destruct rows as [|j rows]; [done|]. cbn -[Z.add]. rewrite Z.add_0_l.
  destruct (Z.ltb_spec maxBytes (payload_len j)); [by rewrite bounded_ids_reached|].
  by rewrite bounded_ids_later.
Qed.

Lemma bounded_claim_unlocked now cap limits d :
  bounded_claim ts ∅ now cap limits d
  = bounded_prefix (lim_MaxBytes limits)
      (sql_select (λ j, ready (ts now) j && row_is j cap) queue_less (Z.to_nat (lim_MaxMessages limits)) (jobs_t d)).
Proof.
  unfold bounded_claim. rewrite sql_select_top. do 2 f_equal. apply rows_where_ext.
  intros j. by rewrite unlocked_ready_none.
Qed.

(** The rows read back by id and token are the rows just reserved. *)
Lemma claimed_rows tok until c t : keyed t → (∀ j, j ∈ c → t !! ID j = Some j) →
  rows_where (λ j, in_ids (ID <$> c) j && N.eqb (LeaseTokenOf j) tok)
    (sql_update (in_ids (ID <$> c)) (reserve_row until tok) t).1
  = rows_where (in_ids (ID <$> c)) (sql_update (in_ids (ID <$> c)) (reserve_row until tok) t).1.
Proof.
  intros Hk Hc. set (t' := (sql_update _ _ _).1). unfold rows_where.
  apply filter_agree. intros j ([id r] & -> & Hin)%list_elem_of_fmap. cbn.
  apply elem_of_map_to_list in Hin. unfold t' in Hin. rewrite sql_update_lookup, fmap_Some in Hin.
  destruct Hin as (r0 & _ & ->). rewrite andb_true_iff. split; [by intros []|]. intros Hi. split; [done|].
  destruct (in_ids (ID <$> c) r0) eqn:E; [by apply N.eqb_refl|]. by rewrite E in Hi.
Qed.

(** *** Outcomes *)

Ltac decide_kinds :=
  repeat first [rewrite bool_decide_true by set_solver | rewrite bool_decide_false by set_solver].

Lemma input_kind_outcome os kinds j : NoDup (o_JobID <$> os) →
  input_kind os kinds j = match outcome_of os (ID j) with Some o => kind_in kinds o | None => false end.
Proof.
  intros Hnd. unfold input_kind, outcome_of. induction os as [|o os IH]; [done|].
  apply NoDup_cons in Hnd as [Hn Hnd]. cbn. specialize (IH Hnd).
  destruct (N.eqb_spec (o_JobID o) (ID j)) as [E|E]; cbn; [|done].
  rewrite IH. destruct (find _ os) as [x|] eqn:F; [|by rewrite orb_false_r].
  apply outcome_of_Some in F as [Hin Hx]. exfalso.
  apply Hn. rewrite E, <- Hx. by apply list_elem_of_fmap_2.
Qed.

Lemma rows_settle tok now os j : NoDup (o_JobID <$> os) →
  terminal_rows tok now os j || retry_rows tok now os j = settles tok (ts now) os j.
Proof.
  intros Hnd. unfold terminal_rows, retry_rows, settles, settleable. rewrite !input_kind_outcome by done.
  destruct (outcome_of os (ID j)) as [o|]; [|done]. unfold kind_in.
  destruct (o_Kind o); decide_kinds; cbn; by rewrite ?andb_true_r, ?orb_false_r.
Qed.

Lemma rows_disjoint tok now os j : NoDup (o_JobID <$> os) →
  terminal_rows tok now os j = true → retry_rows tok now os j = false.
Proof.
  intros Hnd. unfold terminal_rows, retry_rows. rewrite !input_kind_outcome by done.
  destruct (outcome_of os (ID j)) as [o|]; [|done]. unfold kind_in.
  destruct (o_Kind o); decide_kinds; done.
Qed.

Lemma retry_update_row tok now os o j : NoDup (o_JobID <$> os) →
  outcome_of os (ID j) = Some o → settleable tok (ts now) o j = true →
  outcome_row ts o j = if terminal_rows tok now os j then None else Some (retry_update os j).
Proof.
  intros Hnd Ho [Hlive _]%andb_true_iff. unfold terminal_rows, retry_update, outcome_row.
  rewrite input_kind_outcome, Ho, Hlive by done. unfold kind_in.
  destruct (o_Kind o); by decide_kinds.
Qed.

Lemma retry_changes tok now os j : NoDup (o_JobID <$> os) → retry_rows tok now os j = true → retry_update os j ≠ j.
Proof.
  intros Hnd [[Hk Hl%live_reserved]%andb_true_iff _]%andb_true_iff. rewrite input_kind_outcome in Hk by done.
  unfold retry_update. destruct (outcome_of os (ID j)) as [o|]; [|done]. by apply cleared_differs.
Qed.

Lemma apply_outcomes_atomic tok now os : atomic (ApplyBatchJobOutcomes tok now os).
Proof.
  apply guarded_atomic. intros d e d'. unfold deleteBatchTerminalOutcomes, updateBatchRetryOutcomes,
    exec_delete, rows_updated. case_match; naive_solver.
Qed.

Lemma apply_outcomes_spec tok now os d : keyed (jobs_t d) →
  outcomes_ok MaxReservationBatchSize tok os →
  (all_settleable tok (ts now) os (jobs_t d) →
     ApplyBatchJobOutcomes tok now os d
     = (Ok (Z.of_nat (length os)), set_jobs (settle ts os (jobs_t d)) d))
  ∧ (¬ all_settleable tok (ts now) os (jobs_t d) →
     ∃ e, ApplyBatchJobOutcomes tok now os d = (Err e, d) ∧ errors_Is e ErrLeaseLost = true).
Proof.
  intros Hk Hok. pose proof Hok as (_ & _ & Hnd & HF). unfold ApplyBatchJobOutcomes.
  rewrite guarded_pass by (by apply validateBatchOutcomes_ok).
  unfold deleteBatchTerminalOutcomes, updateBatchRetryOutcomes. unfold exec_delete. cbn [jobs_t set_jobs].
  rewrite rows_updated_all by (intros j; by apply retry_changes). unfold exec_update. cbn [jobs_t set_jobs].
  rewrite affected_after_delete by (intros j; by apply rows_disjoint).
  pose proof (settling_count tok (ts now) os _ _ _ Hk Hnd
    (λ j, rows_settle tok now os j Hnd) (λ j, rows_disjoint tok now os j Hnd)) as Hcount.
  rewrite <- Hcount. split; intros Hn.
  - rewrite (proj2 (Z.eqb_eq _ _) Hn), Hn. apply Hcount in Hn. f_equal. unfold set_jobs. cbn. f_equal.
    apply (settling_sequential ts tok (ts now)); try done; [intros j; by apply rows_settle|].
    intros. by apply retry_update_row.
  - rewrite (proj2 (Z.eqb_neq _ _) Hn). eexists. split; [done|]. by rewrite errors_Is_wrapf.
Qed.


(** *** The contracts, from those of the claims *)

Section contract.
Context (claims : gset JobID → Z → Z → LeaseToken → list JobCapability → Z → Op (list Job)).
Context (bounded : gset JobID → Z → Z → LeaseToken → JobCapability → BatchClaimLimits → Op (list Job)).
Context (capability_claims : gset JobID → Z → Z → LeaseToken → JobCapability → Z → Op (list Job)).

Definition repository : Repo.JobsRepository := {|
  Repo.CreateJobVersioned := CreateJobVersioned;
  Repo.FindAndReserveJobsForCapabilities := claims;
  Repo.ExtendJobLeases := ExtendJobLeases;
  Repo.ReleaseUnstartedJobsWithLease := ReleaseUnstartedJobsWithLease;
  Repo.DeleteJobWithLease := DeleteJobWithLease;
  Repo.RescheduleJobWithLease := RescheduleJobWithLease;
  Repo.DeferJobWithLease := Some DeferJobWithLease;
  Repo.MaxReservationBatchSizeOf := MaxReservationBatchSize;
  Repo.SkipLocked := false
|}.

Definition batch_repository : Repo.BatchJobsRepository := {|
  Repo.FindAndReserveJobsForCapability := capability_claims;
  Repo.FindAndReserveJobsForCapabilityBounded := Some bounded;
  Repo.ApplyBatchJobOutcomes := ApplyBatchJobOutcomes;
  Repo.MaxExecutionBatchSize := MaxReservationBatchSize;
  Repo.BatchSkipLocked := false
|}.

Lemma max_ok : 1 ≤ MaxReservationBatchSizeOf repository.
Proof. cbn. unfold MaxReservationBatchSize. lia. Qed.

Lemma apply_outcomes_ok tok now os d n d' : keyed (jobs_t d) → ApplyBatchJobOutcomes tok now os d = (Ok n, d') →
  outcomes_ok MaxReservationBatchSize tok os ∧ n = Z.of_nat (length os)
  ∧ all_settleable tok (ts now) os (jobs_t d) ∧ d' = set_jobs (settle ts os (jobs_t d)) d.
Proof.
  intros Hk Hop. pose proof Hop as [Hok%validateBatchOutcomes_ok _]%guarded_ok.
  destruct (apply_outcomes_spec tok now os d Hk Hok) as [Hyes Hno].
  destruct (decide (affected (settles tok (ts now) os) (jobs_t d) = Z.of_nat (length os))) as [Hall|Hall];
    rewrite settles_count in Hall by (done || apply Hok).
  - rewrite (Hyes Hall) in Hop. naive_solver.
  - destruct (Hno Hall) as (e & Heq & _). by rewrite Heq in Hop.
Qed.

Lemma batch_contract :
  (∀ locked now until tok cap limit, atomic (capability_claims locked now until tok cap limit)) →
  (∀ locked now until tok cap limit d js d', keyed (jobs_t d) →
     capability_claims locked now until tok cap limit d = (Ok js, d') →
     claim_base ts ∅ now until tok [cap] limit d js d' ∧ claim_prefix ts ∅ now [cap] limit d js) →
  (∀ locked now until tok cap limits, atomic (bounded locked now until tok cap limits)) →
  (∀ locked now until tok cap limits d js d', keyed (jobs_t d) →
     bounded locked now until tok cap limits d = (Ok js, d') →
     claim_base ts ∅ now until tok [cap] (lim_MaxMessages limits) d js d'
     ∧ 1 ≤ lim_MaxBytes limits ∧ js = reserve_row (ts until) tok <$> bounded_claim ts ∅ now cap limits d) →
  BatchRepository ts batch_repository.
Proof.
  intros Hca Hco Hba Hbo. split.
  - cbn. unfold MaxReservationBatchSize. lia.
  - intros. apply Hca.
  - intros *. apply Hco.
  - intros * [= <-]. apply Hba.
  - intros * [= <-]. apply Hbo.
  - intros. apply apply_outcomes_atomic.
  - intros *. apply apply_outcomes_ok.
  - intros * Hk Hok Hall. destruct (apply_outcomes_spec tok now os d Hk Hok) as [Hyes _]. cbn. eauto.
  - intros * Hk Hok Hall. destruct (apply_outcomes_spec tok now os d Hk Hok) as [_ Hno]. by apply Hno.
Qed.

Lemma defer_job_ok id tok now at_ d n d' : keyed (jobs_t d) →
  DeferJobWithLease id tok now at_ d = (Ok n, d') →
  request_ok repository [id] tok ∧ updates (owned_counted [id] tok (ts now)) (defer_row (ts at_)) d n d'.
Proof.
  intros Hk Hop. destruct (apply_outcomes_ok _ _ _ _ _ _ Hk Hop) as (Hok & Hn & Hall & Hd).
  split; [|by eapply defer_as_outcome].
  apply (request_single _ _ _ max_ok). by apply (outcomes_ok_single MaxReservationBatchSize _ _ Hok).
Qed.

(** The statements that clear a lease report what they found. *)
Lemma cleared_updates p f d n d' : (∀ j, p j = true → ∃ r, ReservedAt j = Some r) → (∀ j, ReservedAt (f j) = None) →
  rows_updated p f d = (Ok n, d') → updates p f d n d'.
Proof.
  intros Hp Hf. rewrite rows_updated_all by (intros j Hj; by apply cleared_differs; auto). by intros [= <- <-].
Qed.

Lemma lease_contract :
  (∀ locked now until tok caps limit, atomic (claims locked now until tok caps limit)) →
  (∀ locked now until tok caps limit d js d', keyed (jobs_t d) →
     claims locked now until tok caps limit d = (Ok js, d') →
     claim_base ts ∅ now until tok caps limit d js d' ∧ claim_prefix ts ∅ now caps limit d js) →
  LeaseRepository ts repository.
Proof.
  intros Hca Hco. split; try (intros; repeat apply guarded_atomic; auto with outbox; apply rows_updated_atomic; fail).
  - cbn. unfold MaxReservationBatchSize. lia.
  - intros. apply create_job_atomic.
  - intros *. apply create_job_ok.
  - intros *. apply Hco.
  - intros * [Hv%validateBatchLease_ok Hop]%guarded_ok. split; [done|by apply rows_updated_found].
  - intros * Hr%validateBatchLease_ok. cbn. unfold ExtendJobLeases. rewrite guarded_pass by done. unfold rows_updated. eauto.
  - intros * [Hv%validateBatchLease_ok Hop]%guarded_ok. split; [done|]. revert Hop. apply cleared_updates; [|done].
    intros j [[_ Hj]%andb_true_iff _]%andb_true_iff. by eapply live_reserved.
  - intros * Hr%validateBatchLease_ok. cbn. unfold ReleaseUnstartedJobsWithLease.
    rewrite guarded_pass by done. unfold rows_updated. eauto.
  - intros * [Hv%id_token_ok [= <- <-]]%guarded_ok. split; [by apply (request_single _ _ _ max_ok)|].
    by apply (deletes_ext _ _ (owned_single id tok (ts now))).
  - intros * Hr%(request_single _ _ _ max_ok)%id_token_ok. cbn. unfold DeleteJobWithLease.
    rewrite guarded_pass by done. eauto.
  - intros * [Hv%id_token_ok Hop]%guarded_ok. split; [by apply (request_single _ _ _ max_ok)|].
    apply (updates_ext _ _ (owned_single id tok (ts now))). revert Hop. apply cleared_updates; [|done].
    intros j [_ Hj]%andb_true_iff. by eapply live_reserved.
  - intros * Hr%(request_single _ _ _ max_ok)%id_token_ok. cbn. unfold RescheduleJobWithLease.
    rewrite guarded_pass by done. unfold rows_updated. eauto.
  - intros * [= <-]. apply apply_outcomes_atomic.
  - intros * [= <-]. apply defer_job_ok.
Qed.
End contract.
End dbsql.
End DbSql.
