(* ===== verification/DbUnique.v ===== *)
(** * Deduplicated puts of the SQLite and MySQL repositories

    [createJobVersionedUnique], [CreateJobVersionedUniqueBatch] with
    [registerUniqueBatchKeys] and [insertUniqueBatchJobs], and
    [PruneJobIdempotencyKeys] of the two repositories.  [anyKey] tells which
    duplicates the registration of a key passes over: those of the key itself
    (SQLite's [ON CONFLICT(deduplication_key) DO NOTHING]) or those of any
    unique index (MySQL's [ON DUPLICATE KEY UPDATE]). *)

From S2P Require Import Prelude GoTime Errors Models Batch Fingerprint Sql Repo Registry DbSql.
Open Scope Z_scope.

Module DbUnique.
Section dbunique.
Context (ts : Z → Z) (sha256hex : string → string) (anyKey : bool).

(** The registration of one key, with the rows it inserted. *)
Definition register_key (k : string) (r : IdemKey) (t : gmap string IdemKey) : result (gmap string IdemKey * Z) :=
  match t !! k with
  | Some _ => Ok (t, 0)
  | None =>
      if registered (ik_job_id r) t
      then if anyKey then Ok (t, 0) else Err (unique_violation "outbox_job_idempotency_keys.job_id")
      else Ok (<[k := r]> t, 1)
  end.

(** The row of a put and its insertion. *)
Definition insert_put (jobID : JobID) (createdAt : Z) (item : UniqueBatchPut) (d : Db) : result unit * Db :=
  insert_job (queued ts jobID createdAt (p_DeduplicationKey item) (p_Name item) (p_SchemaVersion item)
                (p_Payload item) (p_AvailableAt item)) d.

Definition item_fingerprint (item : UniqueBatchPut) : string :=
  jobFingerprint sha256hex (p_Name item) (p_SchemaVersion item) (p_Payload item) (p_AvailableAt item).

(** [createJobVersionedUnique]; [created inserted stored] is the test that the
    key was registered by this call. *)
Definition createJobVersionedUnique (created : Z → JobID → bool) (jobID : JobID) (createdAt : Z)
    (item : UniqueBatchPut) : Op UniquePutResult := λ d,
  let fingerprint := item_fingerprint item in
  match register_key (p_DeduplicationKey item) (mkIdemKey jobID fingerprint (ts createdAt)) (keys_t d) with
  | Err e => (Err (wrapf "register idempotency key" e), d)
  | Ok (t', inserted) =>
      match t' !! p_DeduplicationKey item with
      | None => (Err (wrapf "read idempotency key" (ESentinel SqlErrNoRows)), d)
      | Some stored =>
          if negb (String.eqb (ik_fingerprint stored) fingerprint) then (Err (ESentinel ErrIdempotencyConflict), d)
          else if negb (created inserted (ik_job_id stored))
          then (Ok {| u_JobID := ik_job_id stored; u_Created := false |}, set_keys t' d)
          else match insert_put (ik_job_id stored) createdAt item (set_keys t' d) with
               | (Err e, _) => (Err (wrapf "create idempotent job" e), d)
               | (Ok _, d') => (Ok {| u_JobID := ik_job_id stored; u_Created := true |}, d')
               end
      end
  end.

(** The validations in front of it; the transaction rolls back on an error. *)
Definition CreateJobVersionedUniqueResult (created : JobID → Z → JobID → bool) (jobID : JobID) (createdAt : Z)
    (key name : string) (v : SchemaVersion) (payload : string) (availableAt : Z) : Op UniquePutResult :=
  guarded (fail_if (String.eqb key "") (EText "empty deduplication key"))
  (guarded (res_map_err (wrapf "validate capability") (Validate {| cap_Name := name; cap_SchemaVersion := v |}))
  (createJobVersionedUnique (created jobID) jobID createdAt
     {| p_DeduplicationKey := key; p_Name := name; p_SchemaVersion := v; p_Payload := payload;
        p_AvailableAt := availableAt |})).

Definition CreateJobVersionedUnique (created : JobID → Z → JobID → bool) (jobID : JobID) (createdAt : Z)
    (key name : string) (v : SchemaVersion) (payload : string) (availableAt : Z) : Op JobID := λ d,
  let '(r, d') := CreateJobVersionedUniqueResult created jobID createdAt key name v payload availableAt d in
  (match r with Ok result => Ok (u_JobID result) | Err e => Err e end, d').

(** [registerUniqueBatchKeys]: one [INSERT] of all rows; what it loads are the
    rows of the resulting table. *)
Fixpoint registerUniqueBatchKeys (newID : nat → JobID) (createdAt : Z) (index : nat) (items : list UniqueBatchPut)
    (t : gmap string IdemKey) : result (gmap string IdemKey) :=
  match items with
  | [] => Ok t
  | item :: rest =>
      '(t1, _) ← register_key (p_DeduplicationKey item)
                   (mkIdemKey (newID index) (item_fingerprint item) (ts createdAt)) t;
      registerUniqueBatchKeys newID createdAt (S index) rest t1
  end.

(** The loop over the prepared items: the results, and the items whose key
    this call registered. *)
Fixpoint collect_results (newID : nat → JobID) (index : nat) (items : list UniqueBatchPut)
    (stored : gmap string IdemKey) : result (list UniquePutResult * list (JobID * UniqueBatchPut)) :=
  match items with
  | [] => Ok ([], [])
  | item :: rest =>
      match stored !! p_DeduplicationKey item with
      | None => Err (ESentinel ErrIdempotencyConflict)
      | Some key =>
          if negb (String.eqb (ik_fingerprint key) (item_fingerprint item)) then Err (ESentinel ErrIdempotencyConflict)
          else
            let isCreated := N.eqb (ik_job_id key) (newID index) in
            '(results, created) ← collect_results newID (S index) rest stored;
            Ok ({| u_JobID := ik_job_id key; u_Created := isCreated |} :: results,
                if isCreated then (newID index, item) :: created else created)
      end
  end.

Fixpoint insertUniqueBatchJobs (createdAt : Z) (created : list (JobID * UniqueBatchPut)) (d : Db) : result unit * Db :=
  match created with
  | [] => (Ok tt, d)
  | (jobID, item) :: created =>
      match insert_put jobID createdAt item d with
      | (Ok _, d1) => insertUniqueBatchJobs createdAt created d1
      | (Err e, d1) => (Err e, d1)
      end
  end.

Definition CreateJobVersionedUniqueBatch (newID : nat → JobID) (createdAt : Z) (items : list UniqueBatchPut) :
    Op (list UniquePutResult) :=
  guarded (fail_if ((Z.of_nat (length items) <? 1) || (MaxReservationBatchSize <? Z.of_nat (length items)))
                   (EText "item count must be between 1 and 1000"))
  (guarded (check_puts items ∅) (λ d,
    let failed e : result (list UniquePutResult) * Db := (Err (wrapf "create unique versioned job batch" e), d) in
    match registerUniqueBatchKeys newID createdAt 0 items (keys_t d) with
    | Err e => failed (wrapf "register batch idempotency keys" e)
    | Ok t' =>
        match collect_results newID 0 items t' with
        | Err e => failed e
        | Ok (results, created) =>
            match insertUniqueBatchJobs createdAt created (set_keys t' d) with
            | (Err e, _) => failed (wrapf "insert unique job batch" e)
            | (Ok _, d') => (Ok results, d')
            end
        end
    end)).

Definition PruneJobIdempotencyKeys (before limit : Z) : Op Z :=
  guarded (fail_if ((limit <? 1) || (10000 <? limit)) (EText "limit must be between 1 and 10000"))
    (prune_keys (ts before) limit ∅).

Definition unique_repository (created : JobID → Z → JobID → bool) : Repo.UniqueJobsRepository := {|
  Repo.CreateJobVersionedUniqueResult := CreateJobVersionedUniqueResult created;
  Repo.CreateJobVersionedUniqueBatch := CreateJobVersionedUniqueBatch;
  Repo.PruneJobIdempotencyKeys := λ _, PruneJobIdempotencyKeys
|}.

(** ** The laws of idempotent staging *)

Context (created : JobID → Z → JobID → bool).
Context (Hnew : ∀ id, created id 1 id = true) (Hknown : ∀ id stored, stored ≠ id → created id 0 stored = false).

Let fp := jobFingerprint sha256hex.
Let put id now item := createJobVersionedUnique (created id) id now item.

Lemma put_unguarded id now key name v payload at_ d : key ≠ "" → 0 < v →
  CreateJobVersionedUniqueResult created id now key name v payload at_ d
  = put id now {| p_DeduplicationKey := key; p_Name := name; p_SchemaVersion := v; p_Payload := payload;
                  p_AvailableAt := at_ |} d.
Proof.
  intros Hk Hv. unfold CreateJobVersionedUniqueResult.
  rewrite guarded_pass by (by apply fail_if_ok, String.eqb_neq).
  by rewrite guarded_pass by (by apply res_map_err_ok, capability_valid).
Qed.

Lemma register_fresh id now item d : fresh_id id d → keys_t d !! p_DeduplicationKey item = None →
  register_key (p_DeduplicationKey item) (mkIdemKey id (item_fingerprint item) (ts now)) (keys_t d)
  = Ok (<[p_DeduplicationKey item := mkIdemKey id (item_fingerprint item) (ts now)]> (keys_t d), 1).
Proof. intros (_ & _ & Hr) Hk. unfold register_key. rewrite Hk. cbn [ik_job_id]. by rewrite Hr. Qed.

Lemma insert_fresh id now item t d : put_ok item → registry_ok d → fresh_id id d →
  keys_t d !! p_DeduplicationKey item = None →
  insert_put id now item (set_keys t d)
  = (Ok tt, set_keys t (staged ts (item_fingerprint item) id now (p_DeduplicationKey item) (p_Name item)
                          (p_SchemaVersion item) (p_Payload item) (p_AvailableAt item) d)).
Proof.
  intros [Hkey Hv] Hreg (_ & Hj & _) Hk. unfold insert_put.
  rewrite insert_staged_job; [done..|by apply (registry_unused d)].
Qed.

Lemma put_new id now item d : put_ok item → registry_ok d → fresh_id id d →
  keys_t d !! p_DeduplicationKey item = None →
  put id now item d = (Ok {| u_JobID := id; u_Created := true |},
    staged ts (item_fingerprint item) id now (p_DeduplicationKey item) (p_Name item) (p_SchemaVersion item)
      (p_Payload item) (p_AvailableAt item) d).
Proof.
  intros Hok Hreg Hf Hk. unfold put, createJobVersionedUnique. rewrite (register_fresh id now item d Hf Hk).
  rewrite lookup_insert_eq. cbn [ik_fingerprint ik_job_id]. rewrite String.eqb_refl, Hnew. cbn [negb].
  by rewrite (insert_fresh id now item _ d Hok Hreg Hf Hk).
Qed.

Lemma put_known id now item d r : fresh_id id d → keys_t d !! p_DeduplicationKey item = Some r →
  ik_fingerprint r = item_fingerprint item →
  put id now item d = (Ok {| u_JobID := ik_job_id r; u_Created := false |}, d).
Proof.
  intros (_ & _ & Hr) Hk Hfp. rewrite registered_false in Hr. unfold put, createJobVersionedUnique, register_key.
  rewrite Hk, Hk, Hfp, String.eqb_refl, Hknown by (by eapply Hr). by destruct d.
Qed.

Lemma put_conflict id now item d r : keys_t d !! p_DeduplicationKey item = Some r →
  ik_fingerprint r ≠ item_fingerprint item → put id now item d = (Err (ESentinel ErrIdempotencyConflict), d).
Proof.
  intros Hk Hfp. unfold put, createJobVersionedUnique, register_key.
  by rewrite Hk, Hk, (proj2 (String.eqb_neq _ _) Hfp).
Qed.

Lemma put_atomic id now item : atomic (put id now item).
Proof.
  intros d e d'. unfold put, createJobVersionedUnique. destruct (register_key _ _ _) as [[t' n]|]; [|by intros [= _ <-]].
  repeat case_match; naive_solver.
Qed.

(** *** The batch *)

Section batch.
Context (newID : nat → JobID) (now : Z) (Hinj : ∀ i j, newID i = newID j → i = j).

Lemma batch_stages items : ∀ i d, Forall put_ok items → NoDup (p_DeduplicationKey <$> items) → registry_ok d →
  (∀ k, (i ≤ k)%nat → fresh_id (newID k) d) →
  ∃ t', registerUniqueBatchKeys newID now i items (keys_t d) = Ok t'
  ∧ (∀ k, k ∉ p_DeduplicationKey <$> items → t' !! k = keys_t d !! k)
  ∧ match put_all (unique_repository created) newID now i items d with
    | Some (rs, d') => ∃ c, collect_results newID i items t' = Ok (rs, c)
                            ∧ insertUniqueBatchJobs now c (set_keys t' d) = (Ok tt, d')
    | None => collect_results newID i items t' = Err (ESentinel ErrIdempotencyConflict)
    end.
Proof.
  induction items as [|item items IH]; intros i d HF Hnd Hreg Hf.
  { exists (keys_t d). split_and!; [done..|]. exists []. by destruct d. }
  apply Forall_cons in HF as [Hok HF]. rewrite fmap_cons in Hnd. apply NoDup_cons in Hnd as [Hn Hnd].
  pose proof (Hf i ltac:(lia)) as Hfi.
  cbn [registerUniqueBatchKeys put_all collect_results Repo.CreateJobVersionedUniqueResult unique_repository].
  rewrite put_unguarded by apply Hok.
  assert ({| p_DeduplicationKey := p_DeduplicationKey item; p_Name := p_Name item;
             p_SchemaVersion := p_SchemaVersion item; p_Payload := p_Payload item;
             p_AvailableAt := p_AvailableAt item |} = item) as -> by (by destruct item).
  destruct (keys_t d !! p_DeduplicationKey item) as [r|] eqn:Hk.
  - assert (register_key (p_DeduplicationKey item) (mkIdemKey (newID i) (item_fingerprint item) (ts now)) (keys_t d)
            = Ok (keys_t d, 0)) as -> by (unfold register_key; by rewrite Hk).
    destruct (IH (S i) d HF Hnd Hreg ltac:(intros; apply Hf; lia)) as (t' & Hrest & Hsame & Hall).
    exists t'. cbn [mbind res_bind]. split; [done|]. split; [intros k Hin; apply Hsame; set_solver|].
    rewrite (Hsame _ Hn), Hk.
    destruct (String.eqb_spec (ik_fingerprint r) (item_fingerprint item)) as [Hfp|Hfp].
    + rewrite (put_known _ _ _ _ _ Hfi Hk Hfp). destruct (put_all _ _ _ (S i) items d) as [[rs d']|].
      * destruct Hall as (c & Hc & Hins). rewrite Hc. cbn.
        pose proof Hfi as (_ & _ & Hr). rewrite registered_false in Hr.
        rewrite (proj2 (N.eqb_neq _ _) (Hr _ _ Hk)). eauto.
      * by rewrite Hall.
    + by rewrite (put_conflict _ _ _ _ _ Hk Hfp).
  - rewrite (register_fresh _ now item d Hfi Hk). cbn [mbind res_bind].
    rewrite (put_new _ now item d Hok Hreg Hfi Hk). set (d1 := staged _ _ _ _ _ _ _ _ _ _).
    assert (registry_ok d1) as Hreg1 by (by apply staged_registry_ok).
    assert (∀ k, (S i ≤ k)%nat → fresh_id (newID k) d1) as Hf1.
    { intros k Hle. apply staged_fresh; [apply Hf; lia|]. intros Heq%Hinj. lia. }
    destruct (IH (S i) d1 HF Hnd Hreg1 Hf1) as (t' & Hrest & Hsame & Hall). exists t'.
    split; [exact Hrest|]. split.
    { intros k Hin. rewrite Hsame by set_solver. cbn. rewrite lookup_insert_ne by set_solver. done. }
    rewrite (Hsame _ Hn). cbn [d1 staged keys_t set_keys set_jobs]. rewrite lookup_insert_eq.
    cbn [ik_fingerprint ik_job_id]. rewrite String.eqb_refl, N.eqb_refl. cbn [negb].
    destruct (put_all _ _ _ (S i) items d1) as [[rs d']|].
    + destruct Hall as (c & Hc & Hins). rewrite Hc. cbn [mbind res_bind]. exists ((newID i, item) :: c).
      split; [done|]. cbn [insertUniqueBatchJobs].
      by rewrite (insert_fresh _ now item t' d Hok Hreg Hfi Hk).
    + by rewrite Hall.
Qed.
End batch.

Lemma unique_contract : UniqueRepository ts fp (unique_repository created).
Proof.
  split.
  - intros. repeat apply guarded_atomic. apply put_atomic.
  - intros * Hkey Hv Hreg Hf Hk. cbn. rewrite put_unguarded by done. by apply put_new.
  - intros * Hkey Hv Hf Hk Hfp. cbn. rewrite put_unguarded by done. by apply put_known.
  - intros * Hkey Hv Hk Hne. exists (ESentinel ErrIdempotencyConflict). split; [|done]. cbn.
    rewrite put_unguarded by done. by eapply put_conflict.
  - intros * [->|Hv]; cbn; unfold CreateJobVersionedUniqueResult, guarded; cbn; [eauto|].
    unfold Validate. cbn. rewrite (proj2 (Z.leb_le v 0)) by done. destruct (String.eqb key ""); cbn; eauto.
  - intros * (Hlen & HF & Hnd) Hreg Hinj Hf.
    destruct (batch_stages newID now Hinj items 0 d HF Hnd Hreg) as (t' & Hregd & _ & Hall); [intros; apply Hf|].
    cbn [Repo.CreateJobVersionedUniqueBatch unique_repository]. unfold CreateJobVersionedUniqueBatch.
    rewrite guarded_pass by (apply fail_if_ok, orb_false_iff; rewrite !Z.ltb_ge; lia).
    rewrite guarded_pass by (apply check_puts_ok; set_solver). cbv zeta. rewrite Hregd.
    destruct (put_all _ _ _ _ _ _) as [[rs d']|].
    + destruct Hall as (c & -> & ->). done.
    + rewrite Hall. eexists. split; [done|]. by rewrite errors_Is_wrapf.
  - intros. apply guarded_atomic. by intros d e d'.
  - intros * [[Hl%Z.ltb_ge _]%fail_if_ok%orb_false_iff Hop]%guarded_ok. by eapply prune_keys_ok.
Qed.
End dbunique.
End DbUnique.
