(* ===== verification/DbReads.v ===== *)
(** * Reads and failed jobs of the SQLite and MySQL repositories

    [GetByID], [GetQueueStats] and [ListPage] of jobsrepo, and jobsfailedrepo,
    of the two backends; [ts] is the resolution of their timestamp columns. *)

From S2P Require Import Prelude GoTime Errors Models Batch Sql Repo Stats Pages Listings.
Open Scope Z_scope.

Module DbReads.
Section reads.
Context (ts : Z → Z).

Definition GetByID (id : JobID) : Op Job := λ d,
  if JobIDType.IsZero id then (Err (EText "invalid job id"), d)
  else match jobs_t d !! id with
       | Some j => (Ok j, d)
       | None => (Err (ESentinel ErrNoJobs), d)
       end.

(** [GROUP BY name, schema_version ORDER BY name, schema_version]; the columns
    have a binary collation. *)
Definition GetQueueStats (observedAt : Z) : Op QueueStats := λ d,
  let rows := all_rows (jobs_t d) in
  let groups := group_stats (ts observedAt) rows
                  <$> sort_slice capability_less (remove_dups (row_capability <$> rows)) in
  (Ok (accumulate (no_stats observedAt) groups), d).

Definition ListPage (limit : Z) (before : option PageCursor) : Op (list Job) := λ d,
  (Pages.ListPage CreatedAt ID ts limit before (all_rows (jobs_t d)), d).

(** [order] is the database's answer to [ORDER BY created_at DESC]. *)
Definition All (order : list Job → list Job) : Op (list Job) := λ d,
  (Ok (Listings.All order (all_rows (jobs_t d))), d).
Definition ListPaged (order : list Job → list Job) (limit before : Z) : Op (list Job) := λ d,
  (Ok (Listings.ListPaged CreatedAt order ts limit before (all_rows (jobs_t d))), d).

Lemma stats_contract : StatsRepository ts GetQueueStats.
Proof.
  split; [by intros observedAt d r d' [= <- <-]|]. intros observedAt d st d' [= <- <-].
  eexists. split; [apply sort_slice_perm|done].
Qed.

(** ** jobsfailedrepo *)

(** [exec.ExecContext(insert, id, model...)]. *)
Definition insert_record (newID : JobID) (f : JobFailed) : Op JobID := λ d,
  match insert_failed (mkJobFailed newID (f_JobID f) (f_Queue f) (f_Name f) (f_SchemaVersion f) (f_Payload f)
                         (f_Reason f) (ts (f_FailedAt f)) (ts (f_CreatedAt f)) (f_Connection f) (f_Exception f)) d with
  | (Ok _, d') => (Ok newID, d')
  | (Err e, d') => (Err e, d')
  end.

(** One reading of the clock dates both columns. *)
Definition CreateFailedJobVersioned (newID : JobID) (now : Z) (jobID : JobID) (name : string) (v : SchemaVersion)
    (payload reason : string) : Op JobID :=
  guarded (res_map_err (wrapf "validate capability") (Validate {| cap_Name := name; cap_SchemaVersion := v |}))
    (insert_record newID (mkJobFailed newID jobID "queue" name v payload reason now now "" "")).

Definition CreateFailed (newID : JobID) (model : JobFailed) : Op JobID :=
  insert_record newID
    (mkJobFailed (f_ID model) (f_JobID model) (f_Queue model) (f_Name model)
       (normalizeSchemaVersion (f_SchemaVersion model)) (f_Payload model) (f_Reason model) (f_FailedAt model)
       (f_CreatedAt model) (f_Connection model) (f_Exception model)).

Definition GetFailedByID (id : JobID) : Op JobFailed := λ d,
  if JobIDType.IsZero id then (Err (wrapf "jobs_failed.repo.GetByID" (EText "invalid id")), d)
  else match failed_t d !! id with
       | Some f => (Ok f, d)
       | None => (Err (ESentinel ErrNoJobs), d)
       end.

(** [WHERE job_id = ? ORDER BY failed_at DESC LIMIT 1]; [job_id] is unique. *)
Definition FindByJobID (jobID : JobID) : Op JobFailed := λ d,
  if JobIDType.IsZero jobID then (Err (wrapf "jobs_failed.repo.FindByJobID" (EText "invalid id")), d)
  else match sort_slice (by_key Z_desc f_FailedAt) (filter (λ f, f_JobID f = jobID) (map_to_list (failed_t d)).*2) with
       | f :: _ => (Ok f, d)
       | [] => (Err (ESentinel ErrNoJobs), d)
       end.

Definition DeleteFailed (id : JobID) : Op Z := λ d,
  (Ok (if bool_decide (is_Some (failed_t d !! id)) then 1 else 0), set_failed (delete id (failed_t d)) d).

Definition CountExact : Op Z := λ d, (Ok (Z.of_nat (size (failed_t d))), d).
Definition Count : Op Z := CountExact.
Definition CountLight : Op Z := CountExact.

Definition ListFailedPage (limit : Z) (before : option PageCursor) : Op (list JobFailed) := λ d,
  (Pages.ListPage f_CreatedAt f_ID ts limit before (map_to_list (failed_t d)).*2, d).

Definition AllFailed (order : list JobFailed → list JobFailed) : Op (list JobFailed) := λ d,
  (Ok (Listings.All order (map_to_list (failed_t d)).*2), d).
Definition ListFailedPaged (order : list JobFailed → list JobFailed) (limit before : Z) : Op (list JobFailed) := λ d,
  (Ok (Listings.ListPaged f_CreatedAt order ts limit before (map_to_list (failed_t d)).*2), d).

Definition failed_repository : JobsFailedRepository :=
  {| Repo.CreateFailedJobVersioned := λ newID failedAt _, CreateFailedJobVersioned newID failedAt |}.

Lemma insert_record_ok newID f d id d' : insert_record newID f d = (Ok id, d') →
  id = newID ∧ failed_t d !! newID = None ∧ (∀ i g, failed_t d !! i = Some g → f_JobID g ≠ f_JobID f)
  ∧ d' = set_failed (<[newID := mkJobFailed newID (f_JobID f) (f_Queue f) (f_Name f) (f_SchemaVersion f) (f_Payload f)
       (f_Reason f) (ts (f_FailedAt f)) (ts (f_CreatedAt f)) (f_Connection f) (f_Exception f)]> (failed_t d)) d.
Proof.
  unfold insert_record, insert_failed. cbn. case_bool_decide as H1; [done|]. case_bool_decide as H2; [done|].
  destruct (f_SchemaVersion f <=? 0); [done|]. intros [= <- <-]. split_and!; [done|by apply eq_None_not_Some| |done].
  intros i g Hg Hid. apply H2. by exists i, g.
Qed.

Lemma failed_contract : FailedRepository ts failed_repository.
Proof.
  split.
  - intros. apply guarded_atomic. intros d e d'. unfold insert_record, insert_failed. repeat case_match; naive_solver.
  - intros * [_ (-> & Hn & Hj & ->)%insert_record_ok]%guarded_ok. split_and!; [done..|]. exists failedAt. auto.
  - intros * Hv Hn Hj. cbn. unfold CreateFailedJobVersioned.
    rewrite guarded_pass by (by apply res_map_err_ok, capability_valid). unfold insert_record, insert_failed. cbn.
    rewrite Hn, bool_decide_false by (by intros []). rewrite bool_decide_false by (intros (i & f & Hf & Hid); by apply (Hj i f)).
    rewrite (proj2 (Z.leb_gt v 0)) by done. eauto.
Qed.

(** A record put in is read back by its id and by its job, until deleted. *)
Lemma failed_lookup newID now jobID name v payload reason d id d' :
  newID ≠ JobIDNil → jobID ≠ JobIDNil → CreateFailedJobVersioned newID now jobID name v payload reason d = (Ok id, d') →
  let f := mkJobFailed newID jobID "queue" name v payload reason (ts now) (ts now) "" "" in
  GetFailedByID newID d' = (Ok f, d') ∧ FindByJobID jobID d' = (Ok f, d')
  ∧ (∃ d'', DeleteFailed newID d' = (Ok 1, d'') ∧ failed_t d'' = failed_t d).
Proof.
  intros Hz Hj [_ (-> & Hn & Hjobs & ->)%insert_record_ok]%guarded_ok. cbv zeta.
  unfold GetFailedByID, FindByJobID, DeleteFailed, JobIDType.IsZero. cbn [failed_t set_failed].
  rewrite !(proj2 (N.eqb_neq _ _)) by done. rewrite lookup_insert_eq. split; [done|]. cbn [f_JobID f_Queue f_Name] in *. split.
  - set (f := mkJobFailed _ _ _ _ _ _ _ _ _ _ _).
    assert (sort_slice (by_key Z_desc f_FailedAt)
              (filter (λ g, f_JobID g = jobID) (map_to_list (<[newID := f]> (failed_t d))).*2) = [f]) as ->; [|done].
    apply Permutation_singleton_r. rewrite sort_slice_perm, map_to_list_insert by done. rewrite fmap_cons.
    rewrite filter_cons_True by done. f_equiv.
    assert (filter (λ g, f_JobID g = jobID) (map_to_list (failed_t d)).*2 = []) as ->; [|done].
    destruct (filter _ _) as [|g l] eqn:Hl; [done|]. exfalso.
    assert (g ∈ filter (λ g, f_JobID g = jobID) (map_to_list (failed_t d)).*2) as Hg by (rewrite Hl; by left).
    apply list_elem_of_filter in Hg as [Hg ([i g'] & -> & Hin%elem_of_map_to_list)%list_elem_of_fmap].
    by apply (Hjobs i g').
  - rewrite bool_decide_true by done. eexists. split; [done|]. cbn. by rewrite delete_insert_id.
Qed.
End reads.
End DbReads.
