(* ===== verification/SqliteJobs.v ===== *)
(** * SQLite jobs repository

    backends/sqlite/repositories/jobsrepo/{api,immediate_transaction}.go.
    Timestamps are stored as milliseconds of the Unix epoch.  A claim and a
    unique put run under [BEGIN IMMEDIATE]: one writer at a time, so a
    candidate read in the transaction is still there for its update.  The
    operations the MySQL repository has in common are those of [DbSql],
    [DbUnique] and [DbReads], with [RowsAffected] counting the rows found. *)

From S2P Require Import Prelude GoTime Errors Models Batch Fingerprint Sql Repo Stats Pages DbSql DbUnique DbReads.
Open Scope Z_scope.

Module Sqlite.
Import DbSql.

(** What a time is when it is read back: [time.UnixMilli(t.UnixMilli())]. *)
Definition ts (t : Z) : Z := FromUnixMilli (UnixMilli t).

#[export] Instance ts_rounding : Rounding ts.
Proof.
  split.
  - intros a b Hab%UnixMilli_mono. unfold ts, FromUnixMilli, Millisecond. lia.
  - intros a. unfold ts. by rewrite UnixMilli_FromUnixMilli.
  - intros a. unfold ts. rewrite FromUnixMilli_UnixMilli.
    pose proof (Truncate_le a Millisecond ltac:(done)). pose proof (Truncate_gt a Millisecond ltac:(done)).
    unfold Millisecond in *. lia.
Qed.

(** The body of the claim transaction: the head of the ready rows is read,
    updated by id, and returned with the reservation filled in. *)
Definition findAndReserveBatchWithExecutor (now until : Z) (leaseToken : LeaseToken)
    (capabilities : list JobCapability) (limit : Z) : Op (list Job) := λ d,
  let jobs := sql_select (λ j, ready (ts now) j && existsb (row_is j) capabilities)
                         queue_less (Z.to_nat limit) (jobs_t d) in
  match jobs with
  | [] => (Err (ESentinel ErrNoJobs), d)
  | _ =>
      let '(t', affected) := sql_update (in_ids (ID <$> jobs)) (reserve_row (ts until) leaseToken) (jobs_t d) in
      if affected =? Z.of_nat (length jobs)
      then (Ok (reserve_row until leaseToken <$> jobs), set_jobs t' d)
      else (Err (ESentinel ErrNoJobs), d)
  end.

Definition findAndReserveBatch (now until : Z) (leaseToken : LeaseToken)
    (capabilities : list JobCapability) (limit : Z) : Op (list Job) :=
  guarded (validateBatchClaim leaseToken limit)
    (findAndReserveBatchWithExecutor now until leaseToken capabilities limit).

Definition FindAndReserveJobsForCapabilities (now until : Z) (leaseToken : LeaseToken)
    (capabilities : list JobCapability) (limit : Z) : Op (list Job) :=
  match capabilities with
  | [] => fail (ESentinel ErrNoJobs)
  | _ => guarded (check_from (λ _ c, res_map_err (wrapf "invalid capability") (Validate c)) 0 capabilities)
           (findAndReserveBatch now until leaseToken capabilities limit)
  end.

Definition FindAndReserveJobsForCapability (now until : Z) (leaseToken : LeaseToken)
    (capability : JobCapability) (limit : Z) : Op (list Job) :=
  FindAndReserveJobsForCapabilities now until leaseToken [capability] limit.

Definition findAndReserveBatchBoundedWithExecutor (now until : Z) (leaseToken : LeaseToken)
    (capability : JobCapability) (limits : BatchClaimLimits) : Op (list Job) := λ d,
  let rows := sql_select (λ j, ready (ts now) j && row_is j capability)
                         queue_less (Z.to_nat (lim_MaxMessages limits)) (jobs_t d) in
  let jobIDs := bounded_ids (lim_MaxBytes limits) rows [] 0 false in
  match jobIDs with
  | [] => (Err (ESentinel ErrNoJobs), d)
  | _ =>
      let '(t', affected) := sql_update (in_ids jobIDs) (reserve_row (ts until) leaseToken) (jobs_t d) in
      if negb (affected =? Z.of_nat (length jobIDs)) then (Err (ESentinel ErrNoJobs), d)
      else
        let claimed := sort_slice queue_less
          (rows_where (λ j, in_ids jobIDs j && N.eqb (LeaseTokenOf j) leaseToken) t') in
        if negb (length claimed =? length jobIDs)%nat then (Err (ESentinel ErrNoJobs), d)
        else (Ok claimed, set_jobs t' d)
  end.

Definition FindAndReserveJobsForCapabilityBounded (now until : Z) (leaseToken : LeaseToken)
    (capability : JobCapability) (limits : BatchClaimLimits) : Op (list Job) :=
  guarded (validateBatchClaim leaseToken (lim_MaxMessages limits))
  (guarded (fail_if (lim_MaxBytes limits <? 1) (EText "max bytes must be positive"))
  (guarded (res_map_err (wrapf "invalid capability") (Validate capability))
  (findAndReserveBatchBoundedWithExecutor now until leaseToken capability limits))).

Definition repository : Repo.JobsRepository := DbSql.repository ts true (λ _, FindAndReserveJobsForCapabilities).

Definition batch_repository : Repo.BatchJobsRepository :=
  DbSql.batch_repository ts true (λ _, FindAndReserveJobsForCapabilityBounded) (λ _, FindAndReserveJobsForCapability).

(** ** The claims keep the contract *)

Lemma claim_body_atomic now until tok caps limit : atomic (findAndReserveBatchWithExecutor now until tok caps limit).
Proof. intros d e d'. unfold findAndReserveBatchWithExecutor. repeat case_match; naive_solver. Qed.

Lemma claim_ok_sqlite now until tok caps limit d js d' : keyed (jobs_t d) →
  findAndReserveBatch now until tok caps limit d = (Ok js, d') →
  claim_base ts ∅ now until tok caps limit d js d' ∧ claim_prefix ts ∅ now caps limit d js.
Proof.
  intros Hk [[Htok Hlim]%validateBatchClaim_ok H]%guarded_ok.
  unfold findAndReserveBatchWithExecutor in H. rewrite sql_select_top in H.
  set (rows := rows_where _ _) in H. set (c := top _ _ rows) in H.
  assert (∀ j, j ∈ rows ↔ jobs_t d !! ID j = Some j ∧ claimable (ts now) caps j = true) as Hrows
    by (intros j; by apply rows_where_elem).
  assert (∀ j, j ∈ c → jobs_t d !! ID j = Some j ∧ claimable (ts now) caps j = true ∧ ID j ∉ (∅ : gset JobID)) as Hc
    by (intros j Hj%top_elem%Hrows; set_solver).
  assert (NoDup c) as Hnd by (by apply top_NoDup, rows_where_distinct).
  assert (js = reserve_row until tok <$> c ∧ c ≠ [] ∧
          d' = set_jobs (sql_update (in_ids (ID <$> c)) (reserve_row (ts until) tok) (jobs_t d)).1 d) as (-> & Hne & ->).
  { unfold sql_update in *. destruct c; [done|]. case_match; naive_solver. }
  assert (reserve_row until tok <$> c ≡ₚ reserve_row until tok <$> remove_dups c) as Hp
    by (by rewrite remove_dups_NoDup).
  assert (Z.of_nat (length c) ≤ limit) by (unfold c; rewrite top_length; lia).
  split.
  - eapply (claim_base_intro ts ∅ now until until); [done|done|exact Hc|done|done|done|lia|].
    apply StronglySorted_reserve, top_sorted, _.
  - intros _. apply (claim_prefix_intro ts ∅ now until tok caps limit d c _ Hp rows); [done| |lia|].
    + by apply rows_where_distinct.
    + intros r ? ? _. by apply Hrows.
Qed.

Lemma bounded_body_atomic now until tok cap limits :
  atomic (findAndReserveBatchBoundedWithExecutor now until tok cap limits).
Proof. intros d e d'. unfold findAndReserveBatchBoundedWithExecutor. repeat case_match; naive_solver. Qed.

Lemma bounded_ok_sqlite now until tok cap limits d js d' : keyed (jobs_t d) →
  FindAndReserveJobsForCapabilityBounded now until tok cap limits d = (Ok js, d') →
  claim_base ts ∅ now until tok [cap] (lim_MaxMessages limits) d js d'
  ∧ 1 ≤ lim_MaxBytes limits
  ∧ js = reserve_row (ts until) tok <$> bounded_claim ts ∅ now cap limits d.
Proof.
  intros Hk.
  intros [[Htok Hlim]%validateBatchClaim_ok [Hbytes%fail_if_ok [_ H]%guarded_ok]%guarded_ok]%guarded_ok.
  apply Z.ltb_ge in Hbytes. unfold findAndReserveBatchBoundedWithExecutor in H.
  rewrite bounded_ids_prefix, <- bounded_claim_unlocked in H.
  pose proof (bounded_claim_elem ts ∅ now cap limits d Hk) as Hc.
  pose proof (bounded_claim_length ts ∅ now cap limits d) as Hlen.
  pose proof (bounded_claim_NoDup ts ∅ now cap limits d Hk) as Hnd.
  pose proof (bounded_claim_sorted ts ∅ now cap limits d) as Hs.
  set (c := bounded_claim _ _ _ _ _ _) in *.
  assert (∀ j, j ∈ c → jobs_t d !! ID j = Some j) as Hc' by (intros j Hj; by apply Hc).
  assert (c ≠ []) as Hne by (by intros E; rewrite E in H).
  unfold sql_update in H at 1. cbn zeta in H.
  change ((λ j, if in_ids (ID <$> c) j then reserve_row (ts until) tok j else j) <$> jobs_t d)
    with (sql_update (in_ids (ID <$> c)) (reserve_row (ts until) tok) (jobs_t d)).1 in H.
  rewrite claimed_rows, reserved_rows_sorted, affected_in_ids, !length_fmap, Z.eqb_refl, Nat.eqb_refl in H by done.
  destruct (ID <$> c) eqn:E; [by apply fmap_nil_inv in E|]. rewrite <- E in H. injection H as <- <-.
  split; [|split; [lia|done]].
  eapply (claim_base_intro ts ∅ now until (ts until)); [done|apply ts_idem|exact Hc| |done|done|lia|].
  - by rewrite remove_dups_NoDup.
  - by apply StronglySorted_reserve.
Qed.

#[export] Instance sqlite_batch_repository : BatchRepository ts batch_repository.
Proof.
  apply (batch_contract ts).
  - intros. repeat apply guarded_atomic. apply claim_body_atomic.
  - intros _ * Hk [_ Hop]%guarded_ok. by apply claim_ok_sqlite.
  - intros. repeat apply guarded_atomic. apply bounded_body_atomic.
  - intros _ *. apply bounded_ok_sqlite.
Qed.

#[export] Instance sqlite_lease_repository : LeaseRepository ts repository.
Proof.
  apply (lease_contract ts).
  - intros. unfold FindAndReserveJobsForCapabilities. case_match; [apply fail_atomic|].
    repeat apply guarded_atomic. apply claim_body_atomic.
  - intros _ * Hk. unfold FindAndReserveJobsForCapabilities. destruct caps; [done|].
    intros [_ Hc]%guarded_ok. by apply claim_ok_sqlite.
Qed.

(** ** Deduplicated puts, failed jobs and statistics *)

(** A key is this call's when its registration inserted a row. *)
Definition created_here (_ : JobID) (inserted : Z) (_ : JobID) : bool := negb (inserted =? 0).

Definition unique_repository (sha256hex : string → string) : Repo.UniqueJobsRepository :=
  DbUnique.unique_repository ts sha256hex false created_here.
Definition failed_repository : Repo.JobsFailedRepository := DbReads.failed_repository ts.
Definition GetQueueStats (observedAt : Z) : Op QueueStats := DbReads.GetQueueStats ts observedAt.
Definition ListPage (limit : Z) (before : option PageCursor) : Op (list Job) := DbReads.ListPage ts limit before.

#[export] Instance sqlite_unique_repository sha256hex :
  UniqueRepository ts (jobFingerprint sha256hex) (unique_repository sha256hex).
Proof. by apply DbUnique.unique_contract. Qed.

#[export] Instance sqlite_failed_repository : FailedRepository ts failed_repository.
Proof. apply DbReads.failed_contract. Qed.

#[export] Instance sqlite_stats_repository : StatsRepository ts GetQueueStats.
Proof. apply DbReads.stats_contract. Qed.
End Sqlite.
