(* ===== verification/MysqlJobs.v ===== *)
(** * MySQL jobs repository

    backends/mysql/repositories/jobsrepo/api.go.  Timestamps are DATETIME(6)
    columns; an [UPDATE] reports the rows it changed.  A claim is not one
    transaction: it reads candidate ids, then reserves those of them that are
    still ready in a transaction of its own, and starts over when it got none.
    [claim_rounds] is that loop with the other clients acting between its
    statements; the repository of the contracts runs it undisturbed.  The
    operations the SQLite repository has in common are those of [DbSql],
    [DbUnique] and [DbReads]. *)

From S2P Require Import Prelude GoTime Errors Models Batch Fingerprint Sql Repo Registry Stats Pages Listings DbSql DbUnique.
From S2P Require Import DbReads.
Open Scope Z_scope.

Module Mysql.
Section mysql.
Context (ts : Z → Z) `{!Rounding ts} (sha256hex : string → string).

(** ** Operations *)

Definition CreateJobVersioned (id : JobID) (now : Z) (name : string) (schemaVersion : SchemaVersion)
    (payload : string) (availableAt : Z) : Op JobID :=
  DbSql.CreateJobVersioned ts id now name schemaVersion payload availableAt.

Definition validateBatchClaim (leaseToken : LeaseToken) (limit : Z) : result unit :=
  DbSql.validateBatchClaim leaseToken limit.

Definition validateBatchLease (jobIDs : list JobID) (leaseToken : LeaseToken) : result unit :=
  DbSql.validateBatchLease jobIDs leaseToken.

(** The loop that drops repeated capabilities. *)
Fixpoint unique_capabilities (capabilities : list JobCapability) (seen : gset JobCapability) : list JobCapability :=
  match capabilities with
  | [] => []
  | c :: rest =>
      if bool_decide (c ∈ seen) then unique_capabilities rest seen
      else c :: unique_capabilities rest ({[c]} ∪ seen)
  end.

(** [SELECT ... WHERE name = ? AND schema_version = ? AND <ready> ORDER BY ...
    LIMIT ?] for one capability. *)
Definition capability_head (now : Z) (limit : Z) (t : gmap JobID Job) (c : JobCapability) : list Job :=
  sql_select (λ j, ready (ts now) j && row_is j c) queue_less (Z.to_nat limit) t.

(** [buildBatchCandidateQuery] executed by [findBatchCandidateIDs]: the heads
    of the capabilities, joined by [UNION ALL], ordered and limited again. *)
Definition candidates (now : Z) (capabilities : list JobCapability) (limit : Z) (t : gmap JobID Job) : list Job :=
  top queue_less (Z.to_nat limit) (unique_capabilities capabilities ∅ ≫= capability_head now limit t).

Definition findBatchCandidateIDs (now : Z) (capabilities : list JobCapability) (limit : Z) : Op (list JobID) := λ d,
  (Ok (ID <$> candidates now capabilities limit (jobs_t d)), d).

Definition findBoundedBatchCandidateIDs (now : Z) (capability : JobCapability) (limits : BatchClaimLimits) :
    Op (list JobID) := λ d,
  (Ok (DbSql.bounded_ids (lim_MaxBytes limits) (capability_head now (lim_MaxMessages limits) (jobs_t d) capability)
         [] 0 false), d).

(** [attempts] is an INT: counting past its range is an error of the
    statement. *)
Definition still_ready (now : Z) (jobIDs : list JobID) (j : Job) : bool := in_ids jobIDs j && ready (ts now) j.
Definition attempts_overflow (rows : list Job) : bool := existsb (λ j, max_int32 <=? Attempts j) rows.

(** The reserving transaction; [None] when no candidate was left. *)
Definition reserveBatchCandidates (now until : Z) (leaseToken : LeaseToken) (jobIDs : list JobID) :
    Op (option (list Job)) := λ d,
  if attempts_overflow (rows_where (still_ready now jobIDs) (jobs_t d))
  then (Err (wrapf "reserve batch claim candidates" (EText "Error 1264: out of range value for column attempts")), d)
  else match DbSql.rows_updated false (still_ready now jobIDs) (reserve_row (ts until) leaseToken) d with
       | (Err e, _) => (Err (wrapf "reserve batch claim candidates" e), d)
       | (Ok updated, d1) =>
           if updated =? 0 then (Ok None, d)
           else if Z.of_nat (length jobIDs) <? updated
           then (Err (EText "batch claim invariant: updated more jobs than candidates"), d)
           else
             let jobs := sort_slice queue_less
               (rows_where (λ j, in_ids jobIDs j && N.eqb (LeaseTokenOf j) leaseToken) (jobs_t d1)) in
             if negb (Z.of_nat (length jobs) =? updated)
             then (Err (EText "batch claim invariant: loaded some of the updated jobs"), d)
             else (Ok (Some jobs), d1)
       end.

(** The loop of a claim: [moves] is what other clients do before each of its
    statements, [cancelled] the context's error before each round.  Out of
    fuel is [None]. *)
Fixpoint claim_rounds (moves : nat → Db → Db) (cancelled : nat → option err) (fuel k : nat) (find : Op (list JobID))
    (now until : Z) (leaseToken : LeaseToken) (d : Db) : option (result (list Job)) * Db :=
  match fuel with
  | O => (None, d)
  | S fuel =>
      match cancelled k with
      | Some e => (Some (Err e), d)
      | None =>
          let d1 := moves (2 * k)%nat d in
          match find d1 with
          | (Err e, _) => (Some (Err e), d1)
          | (Ok [], _) => (Some (Err (ESentinel ErrNoJobs)), d1)
          | (Ok jobIDs, _) =>
              let d2 := moves (2 * k + 1)%nat d1 in
              match reserveBatchCandidates now until leaseToken jobIDs d2 with
              | (Err e, d3) => (Some (Err e), d3)
              | (Ok (Some jobs), d3) => (Some (Ok jobs), d3)
              | (Ok None, d3) => claim_rounds moves cancelled fuel (S k) find now until leaseToken d3
              end
          end
      end
  end.

(** A claim nobody interferes with: one round decides it. *)
Definition undisturbed (find : Op (list JobID)) (now until : Z) (leaseToken : LeaseToken) : Op (list Job) := λ d,
  match claim_rounds (λ _ d, d) (λ _, None) 1 0 find now until leaseToken d with
  | (Some r, d') => (r, d')
  | (None, d') => (Err (EText "claim round repeated"), d')
  end.

Definition findAndReserveBatch (now until : Z) (leaseToken : LeaseToken) (capabilities : list JobCapability)
    (limit : Z) : Op (list Job) :=
  guarded (validateBatchClaim leaseToken limit)
    (undisturbed (findBatchCandidateIDs now capabilities limit) now until leaseToken).

Definition FindAndReserveJobsForCapabilities (now until : Z) (leaseToken : LeaseToken)
    (capabilities : list JobCapability) (limit : Z) : Op (list Job) :=
  match capabilities with
  | [] => fail (ESentinel ErrNoJobs)
  | _ => guarded (check_from (λ _ c, res_map_err (wrapf "invalid capability") (Validate c)) 0 capabilities)
           (findAndReserveBatch now until leaseToken capabilities limit)
  end.

Definition FindAndReserveJobsForCapability (now until : Z) (leaseToken : LeaseToken)
    (capability : JobCapability) (limit : Z) : Op (list Job) :=
  FindAndReserveJobsForCapabilities now until leaseToken [capability] limit.

Definition FindAndReserveJobsForCapabilityBounded (now until : Z) (leaseToken : LeaseToken)
    (capability : JobCapability) (limits : BatchClaimLimits) : Op (list Job) :=
  guarded (validateBatchClaim leaseToken (lim_MaxMessages limits))
  (guarded (fail_if (lim_MaxBytes limits <? 1) (EText "max bytes must be positive"))
  (guarded (res_map_err (wrapf "invalid capability") (Validate capability))
  (undisturbed (findBoundedBatchCandidateIDs now capability limits) now until leaseToken))).

Definition ExtendJobLeases (jobIDs : list JobID) (leaseToken : LeaseToken) (now until : Z) : Op Z :=
  DbSql.ExtendJobLeases ts false jobIDs leaseToken now until.
Definition ReleaseUnstartedJobsWithLease (jobIDs : list JobID) (leaseToken : LeaseToken) (now : Z) : Op Z :=
  DbSql.ReleaseUnstartedJobsWithLease ts false jobIDs leaseToken now.
Definition validateBatchOutcomes (leaseToken : LeaseToken) (outcomes : list BatchJobOutcome) : result unit :=
  DbSql.validateBatchOutcomes leaseToken outcomes.
Definition deleteBatchTerminalOutcomes (leaseToken : LeaseToken) (now : Z) (outcomes : list BatchJobOutcome) : Op Z :=
  DbSql.deleteBatchTerminalOutcomes ts leaseToken now outcomes.
Definition updateBatchRetryOutcomes (leaseToken : LeaseToken) (now : Z) (outcomes : list BatchJobOutcome) : Op Z :=
  DbSql.updateBatchRetryOutcomes ts false leaseToken now outcomes.
Definition ApplyBatchJobOutcomes (leaseToken : LeaseToken) (now : Z) (outcomes : list BatchJobOutcome) : Op Z :=
  DbSql.ApplyBatchJobOutcomes ts false leaseToken now outcomes.
Definition DeferJobWithLease (jobID : JobID) (leaseToken : LeaseToken) (now availableAt : Z) : Op Z :=
  DbSql.DeferJobWithLease ts false jobID leaseToken now availableAt.
Definition DeleteJobWithLease (jobID : JobID) (leaseToken : LeaseToken) (now : Z) : Op Z :=
  DbSql.DeleteJobWithLease ts jobID leaseToken now.
Definition RescheduleJobWithLease (jobID : JobID) (leaseToken : LeaseToken) (now availableAt : Z) : Op Z :=
  DbSql.RescheduleJobWithLease ts false jobID leaseToken now availableAt.

(** A key is this call's when the stored job id is the drawn one. *)
Definition created_here (jobID : JobID) (_ : Z) (stored : JobID) : bool := N.eqb stored jobID.

Definition createJobVersionedUnique (jobID : JobID) (createdAt : Z) (item : UniqueBatchPut) : Op UniquePutResult :=
  DbUnique.createJobVersionedUnique ts sha256hex true (created_here jobID) jobID createdAt item.
Definition CreateJobVersionedUniqueResult (jobID : JobID) (createdAt : Z) (key name : string) (v : SchemaVersion)
    (payload : string) (availableAt : Z) : Op UniquePutResult :=
  DbUnique.CreateJobVersionedUniqueResult ts sha256hex true created_here jobID createdAt key name v payload availableAt.
Definition CreateJobVersionedUnique (jobID : JobID) (createdAt : Z) (key name : string) (v : SchemaVersion)
    (payload : string) (availableAt : Z) : Op JobID :=
  DbUnique.CreateJobVersionedUnique ts sha256hex true created_here jobID createdAt key name v payload availableAt.
Definition registerUniqueBatchKeys (newID : nat → JobID) (createdAt : Z) (items : list UniqueBatchPut)
    (t : gmap string IdemKey) : result (gmap string IdemKey) :=
  DbUnique.registerUniqueBatchKeys ts sha256hex true newID createdAt 0 items t.
Definition insertUniqueBatchJobs (createdAt : Z) (created : list (JobID * UniqueBatchPut)) (d : Db) : result unit * Db :=
  DbUnique.insertUniqueBatchJobs ts createdAt created d.
Definition CreateJobVersionedUniqueBatch (newID : nat → JobID) (createdAt : Z) (items : list UniqueBatchPut) :
    Op (list UniquePutResult) :=
  DbUnique.CreateJobVersionedUniqueBatch ts sha256hex true newID createdAt items.
Definition PruneJobIdempotencyKeys (before limit : Z) : Op Z := DbUnique.PruneJobIdempotencyKeys ts before limit.

Definition GetByID (id : JobID) : Op Job := DbReads.GetByID id.
Definition GetQueueStats (observedAt : Z) : Op QueueStats := DbReads.GetQueueStats ts observedAt.
Definition ListPage (limit : Z) (before : option PageCursor) : Op (list Job) := DbReads.ListPage ts limit before.
Definition All (order : list Job → list Job) : Op (list Job) := DbReads.All order.
Definition ListPaged (order : list Job → list Job) (limit before : Z) : Op (list Job) :=
  DbReads.ListPaged ts order limit before.

(** jobsfailedrepo/{api,pagination}.go. *)
Definition CreateFailedJobVersioned (newID : JobID) (now : Z) (jobID : JobID) (name : string) (v : SchemaVersion)
    (payload reason : string) : Op JobID :=
  DbReads.CreateFailedJobVersioned ts newID now jobID name v payload reason.
Definition CreateFailed (newID : JobID) (model : JobFailed) : Op JobID := DbReads.CreateFailed ts newID model.
Definition GetFailedByID (id : JobID) : Op JobFailed := DbReads.GetFailedByID id.
Definition FindByJobID (jobID : JobID) : Op JobFailed := DbReads.FindByJobID jobID.
Definition DeleteFailed (id : JobID) : Op Z := DbReads.DeleteFailed id.
Definition CountExact : Op Z := DbReads.CountExact.
Definition Count : Op Z := CountExact.
Definition CountLight : Op Z := CountExact.
Definition ListFailedPage (limit : Z) (before : option PageCursor) : Op (list JobFailed) :=
  DbReads.ListFailedPage ts limit before.
Definition AllFailed (order : list JobFailed → list JobFailed) : Op (list JobFailed) := DbReads.AllFailed order.
Definition ListFailedPaged (order : list JobFailed → list JobFailed) (limit before : Z) : Op (list JobFailed) :=
  DbReads.ListFailedPaged ts order limit before.

Definition repository : Repo.JobsRepository :=
  DbSql.repository ts false (λ _, FindAndReserveJobsForCapabilities).
Definition batch_repository : Repo.BatchJobsRepository :=
  DbSql.batch_repository ts false (λ _, FindAndReserveJobsForCapabilityBounded) (λ _, FindAndReserveJobsForCapability).
Definition unique_repository : Repo.UniqueJobsRepository :=
  DbUnique.unique_repository ts sha256hex true created_here.
Definition failed_repository : Repo.JobsFailedRepository := DbReads.failed_repository ts.

(** ** The reserving transaction *)

(** Updating by a predicate is updating the selected rows by their ids. *)
Lemma update_selected p f t : keyed t →
  (sql_update (in_ids (ID <$> rows_where p t)) f t).1 = (sql_update p f t).1.
Proof.
  intros Hk. apply map_eq. intros id. rewrite !sql_update_lookup. destruct (t !! id) as [j|] eqn:Hj; [|done]. cbn.
  assert (in_ids (ID <$> rows_where p t) j = p j) as ->; [|done].
  apply eq_true_iff_eq. rewrite in_ids_spec, list_elem_of_fmap. pose proof (Hk _ _ Hj) as Hid. split.
  - intros (r & Hr & [Hl Hp]%rows_where_elem); [|done]. rewrite <- Hid, Hr in Hj. congruence.
  - intros Hp. exists j. split; [done|]. apply rows_where_elem; [done|]. by rewrite Hid.
Qed.

Lemma reserve_changes until tok j : reserve_row until tok j ≠ j.
Proof. intros Heq%(f_equal Attempts). cbn in Heq. lia. Qed.

(** What a reserving transaction that got rows did: it reserved exactly the
    candidates still ready and answers them in queue order. *)
Lemma reserve_spec now until tok ids d jobs d' : keyed (jobs_t d) →
  reserveBatchCandidates now until tok ids d = (Ok (Some jobs), d') →
  let c := rows_where (still_ready now ids) (jobs_t d) in
  c ≠ [] ∧ jobs ≡ₚ reserve_row (ts until) tok <$> c ∧ StronglySorted (not_after queue_less) jobs
  ∧ d' = set_jobs (sql_update (in_ids (ID <$> c)) (reserve_row (ts until) tok) (jobs_t d)).1 d.
Proof.
  intros Hk Hop c. unfold reserveBatchCandidates in Hop. destruct (attempts_overflow _); [done|].
  rewrite DbSql.rows_updated_all in Hop by (intros; apply reserve_changes). unfold exec_update in Hop.
  assert ((sql_update (in_ids (ID <$> c)) (reserve_row (ts until) tok) (jobs_t d)).1
          = (sql_update (still_ready now ids) (reserve_row (ts until) tok) (jobs_t d)).1) as -> by (by apply update_selected).
  rewrite affected_rows in Hop by done. fold c in Hop.
  set (t' := (sql_update _ _ _).1) in *. set (L := rows_where _ (jobs_t (set_jobs t' d))) in Hop. cbn in L.
  destruct (Z.eqb_spec (Z.of_nat (length c)) 0) as [|Hne]; [done|].
  destruct (Z.ltb_spec (Z.of_nat (length ids)) (Z.of_nat (length c))); [done|].
  destruct (Z.eqb_spec (Z.of_nat (length (sort_slice queue_less L))) (Z.of_nat (length c))) as [Hlen|]; [|done].
  rewrite sort_slice_length in Hlen. injection Hop as <- <-.
  assert (reserve_row (ts until) tok <$> c ≡ₚ L) as Hperm.
  { apply submseteq_length_Permutation; [|rewrite length_fmap; lia].
    assert (keyed t') as Hk' by (by apply keyed_update).
    apply NoDup_submseteq.
    - apply (NoDup_fmap_1 ID). rewrite <- list_fmap_compose. by apply rows_where_NoDup.
    - intros j (r & -> & [Hl Hr]%rows_where_elem)%list_elem_of_fmap; [|done].
      apply rows_where_elem; [done|]. cbn. unfold t'. rewrite sql_update_lookup, Hl. cbn. rewrite Hr.
      split; [done|]. apply andb_true_iff in Hr as [Hi _]. apply andb_true_iff. split; [done|apply N.eqb_refl]. }
  split_and!.
  - intros Hnil. rewrite Hnil in Hne. done.
  - etrans; [apply sort_slice_perm|]. by rewrite Hperm.
  - apply sort_slice_sorted, _.
  - done.
Qed.

Lemma reserve_claims caps limit now until tok ids d jobs d' : keyed (jobs_t d) → tok ≠ LeaseTokenNil →
  Z.of_nat (length ids) ≤ limit → (∀ j, jobs_t d !! ID j = Some j → ID j ∈ ids → existsb (row_is j) caps = true) →
  reserveBatchCandidates now until tok ids d = (Ok (Some jobs), d') →
  claim_base ts ∅ now until tok caps limit d jobs d'.
Proof.
  intros Hk Htok Hlim Hcaps Hop. destruct (reserve_spec _ _ _ _ _ _ _ Hk Hop) as (Hne & Hperm & Hs & ->).
  set (c := rows_where _ _) in *. assert (NoDup c) as Hnd by (by apply rows_where_distinct).
  eapply (claim_base_intro ts ∅ now until (ts until)); [done|apply ts_idem| | |done|done| |done].
  - intros j [Hj [Hi Hr]%andb_true_iff]%rows_where_elem; [|done]. apply in_ids_spec in Hi.
    split_and!; [done| |set_solver]. unfold claimable. rewrite Hr. by apply Hcaps.
  - by rewrite remove_dups_NoDup.
  - etrans; [|exact Hlim]. apply inj_le. rewrite <- (length_fmap ID c).
    apply submseteq_length, NoDup_submseteq; [by apply rows_where_NoDup|].
    intros id (j & -> & [_ [Hi _]%andb_true_iff]%rows_where_elem)%list_elem_of_fmap; [|done]. by apply in_ids_spec.
Qed.

Lemma reserve_atomic now until tok ids d r d' :
  reserveBatchCandidates now until tok ids d = (r, d') → (∀ jobs, r ≠ Ok (Some jobs)) → d' = d.
Proof.
  unfold reserveBatchCandidates, DbSql.rows_updated. destruct (attempts_overflow _); [by intros [= <- <-]|].
  repeat case_match; intros [= <- <-] Hn; try done. by destruct (Hn _ eq_refl).
Qed.

(** ** Claims between other clients *)

Lemma row_is_content j j' c : Name j' = Name j → SchemaVersionOf j' = SchemaVersionOf j → row_is j' c = row_is j c.
Proof. unfold row_is. by intros -> ->. Qed.

Section interleaved.
Context (moves : nat → Db → Db) (cancelled : nat → option err).

(** The others keep rows filed under their ids and never change what a job
    is. *)
Context (Hkeyed : ∀ k d, keyed (jobs_t d) → keyed (jobs_t (moves k d))).
Context (Hcontent : ∀ k d id j j', jobs_t d !! id = Some j → jobs_t (moves k d) !! id = Some j' →
  Name j' = Name j ∧ SchemaVersionOf j' = SchemaVersionOf j).

(** The candidates of a query are rows of the capabilities asked for. *)
Definition finds (caps : list JobCapability) (limit : Z) (find : Op (list JobID)) : Prop :=
  ∀ d r d', keyed (jobs_t d) → find d = (r, d') → ∀ ids, r = Ok ids →
    Z.of_nat (length ids) ≤ limit
    ∧ ∀ id, id ∈ ids → ∃ j, jobs_t d !! id = Some j ∧ existsb (row_is j) caps = true.

Lemma claim_rounds_spec caps limit find now until tok fuel k d r d' : finds caps limit find → tok ≠ LeaseTokenNil →
  keyed (jobs_t d) → claim_rounds moves cancelled fuel k find now until tok d = (r, d') →
  match r with
  | Some (Ok js) => ∃ d2, others_only moves d d2 ∧ claim_base ts ∅ now until tok caps limit d2 js d'
  | _ => others_only moves d d'
  end.
Proof.
  intros Hfind Htok. revert k d. induction fuel as [|fuel IH]; intros k d Hk; cbn [claim_rounds].
  { by intros [= <- <-]. }
  destruct (cancelled k); [by intros [= <- <-]|]. set (d1 := moves (2 * k)%nat d).
  assert (others_only moves d d1) as Hq1 by apply others_step. pose proof (others_keyed moves _ _ Hkeyed Hq1 Hk) as Hk1.
  destruct (find d1) as [[ids|e] x] eqn:Hf; [|by intros [= <- <-]].
  destruct (Hfind _ _ _ Hk1 Hf _ eq_refl) as [Hlim Hrows].
  destruct ids as [|id0 ids0]; [by intros [= <- <-]|]. set (ids := id0 :: ids0) in *. clearbody ids.
  set (d2 := moves (2 * k + 1)%nat d1).
  assert (others_only moves d d2) as Hq2 by (etrans; [exact Hq1|apply others_step]). pose proof (others_keyed moves _ _ Hkeyed Hq2 Hk) as Hk2.
  assert (∀ r0 d3, reserveBatchCandidates now until tok ids d2 = (r0, d3) →
            match r0 with
            | Ok (Some js) => claim_base ts ∅ now until tok caps limit d2 js d3
            | _ => d3 = d2
            end) as Hres.
  { intros r0 d3 Hop. destruct r0 as [[js|]|e]; [|by eapply reserve_atomic..].
    eapply (reserve_claims caps limit); [done|done|done| |exact Hop]. intros j Hj Hin.
    destruct (Hrows _ Hin) as (j1 & Hj1 & Hc). destruct (Hcontent _ _ _ _ _ Hj1 Hj) as [Hn Hv].
    rewrite <- Hc. clear -Hn Hv. induction caps as [|c caps IH]; [done|]. cbn. by rewrite IH, (row_is_content j1). }
  clearbody d2. destruct (reserveBatchCandidates now until tok ids d2) as [[[js|]|e] d3] eqn:Hop;
    specialize (Hres _ _ eq_refl); cbn in Hres.
  - intros [= <- <-]. eauto.
  - subst d3. intros Hrun. specialize (IH _ _ Hk2 Hrun). destruct r as [[js|e]|].
    + destruct IH as (dx & Hq & Hc). exists dx. split; [by etrans|done].
    + by etrans.
    + by etrans.
  - subst d3. by intros [= <- <-].
Qed.
End interleaved.

(** ** The candidate queries *)

Lemma unique_capabilities_elem caps seen c : c ∈ unique_capabilities caps seen ↔ c ∈ caps ∧ c ∉ seen.
Proof.
  revert seen. induction caps as [|c' caps IH]; intros seen; cbn; [set_solver|].
  case_bool_decide; rewrite ?elem_of_cons, IH; [|destruct (decide (c = c'))]; set_solver.
Qed.

Lemma unique_capabilities_NoDup caps seen : NoDup (unique_capabilities caps seen).
Proof.
  revert seen. induction caps as [|c caps IH]; intros seen; cbn; [constructor|]. case_bool_decide; [done|].
  constructor; [|done]. rewrite unique_capabilities_elem. set_solver.
Qed.

Section candidates.
Context (now : Z) (caps : list JobCapability) (limit : Z) (t : gmap JobID Job) (Hk : keyed t).

Let heads := unique_capabilities caps ∅ ≫= capability_head now limit t.
Let group c := rows_where (λ j, ready (ts now) j && row_is j c) t.

Lemma head_elem c j : j ∈ capability_head now limit t c → t !! ID j = Some j ∧ ready (ts now) j = true ∧ row_is j c = true.
Proof. intros [Hj [Hr Hc]%andb_true_iff]%top_elem%rows_where_elem; done. Qed.

Lemma heads_NoDup : NoDup heads.
Proof.
  apply NoDup_bind.
  - intros c1 c2 j _ _ (_ & _ & H1%row_is_capability)%head_elem (_ & _ & H2%row_is_capability)%head_elem. congruence.
  - intros c _. by apply top_NoDup, rows_where_distinct.
  - apply unique_capabilities_NoDup.
Qed.

Lemma candidates_elem j : j ∈ candidates now caps limit t →
  t !! ID j = Some j ∧ claimable (ts now) caps j = true.
Proof.
  intros Hj%top_elem. apply list_elem_of_bind in Hj as (c & (Hj & Hr & Hc)%head_elem & [Hin _]%unique_capabilities_elem).
  split; [done|]. unfold claimable. rewrite Hr. apply existsb_exists. exists c. by rewrite <- list_elem_of_In.
Qed.

Lemma candidates_NoDup : NoDup (candidates now caps limit t).
Proof. apply top_NoDup, heads_NoDup. Qed.

(** The head of the heads is the head of all ready rows. *)
Lemma candidates_prefix r : t !! ID r = Some r → claimable (ts now) caps r = true → r ∉ candidates now caps limit t →
  length (candidates now caps limit t) = Z.to_nat limit
  ∧ ∀ j, j ∈ candidates now caps limit t → not_after queue_less j r.
Proof.
  intros Hr [Hready (c & Hin & Hc)%existsb_exists]%andb_true_iff Hn. apply list_elem_of_In in Hin.
  assert (c ∈ unique_capabilities caps ∅) as Hu by (apply unique_capabilities_elem; set_solver).
  assert (r ∈ group c) as Hg by (apply rows_where_elem; [done|]; by rewrite Hready, Hc).
  set (head := capability_head now limit t c).
  assert (head = top queue_less (Z.to_nat limit) (group c)) as Hhead by done.
  assert (∀ j, j ∈ head → j ∈ heads) as Hsub by (intros j Hj; apply list_elem_of_bind; eauto).
  assert (NoDup head) as Hnd by (by apply top_NoDup, rows_where_distinct). clearbody head.
  destruct (decide (r ∈ head)) as [Hh|Hh]; [by apply (top_rest queue_less _ heads); auto|].
  rewrite Hhead in Hh. destruct (top_rest queue_less _ (group c) r Hg Hh) as [Hlen Hord]. rewrite <- Hhead in *.
  assert (length (candidates now caps limit t) = Z.to_nat limit) as Hfull.
  { unfold candidates. fold heads. rewrite top_length.
    assert (length head ≤ length heads)%nat as Hle; [|lia].
    by apply submseteq_length, NoDup_submseteq. }
  split; [done|]. intros j Hj.
  destruct (decide (j ∈ head)) as [Hjh|Hjh]; [by apply Hord|].
  assert (∃ y, y ∈ head ∧ y ∉ candidates now caps limit t) as (y & Hyh & Hyn).
  { destruct (decide (Forall (λ y, y ∈ candidates now caps limit t) head)) as [Hall|Hex].
    - exfalso. rewrite Forall_forall in Hall.
      assert (length (j :: head) ≤ length (candidates now caps limit t))%nat as Hle.
      { apply submseteq_length, NoDup_submseteq; [by constructor|].
        intros x [->|Hx]%elem_of_cons; auto. }
      cbn in Hle. lia.
    - apply not_Forall_Exists in Hex; [|apply _]. apply Exists_exists in Hex as (y & Hy & Hyn). eauto. }
  destruct (top_rest queue_less _ heads y (Hsub _ Hyh) Hyn) as [_ Hjy].
  exact (not_after_trans queue_less _ _ _ (Hjy _ Hj) (Hord _ Hyh)).
Qed.
End candidates.

(** ** Undisturbed claims keep the contracts *)

Lemma still_ready_rows now t c : keyed t → NoDup c → (∀ j, j ∈ c → t !! ID j = Some j ∧ ready (ts now) j = true) →
  rows_where (still_ready now (ID <$> c)) t ≡ₚ c.
Proof.
  intros Hk Hnd Hc. apply NoDup_Permutation; [by apply rows_where_distinct|done|]. intros j.
  rewrite rows_where_elem by done. unfold still_ready. rewrite andb_true_iff, in_ids_spec, list_elem_of_fmap. split.
  - intros (Hj & (x & Hx & Hin) & _). destruct (Hc _ Hin) as [Hl _]. rewrite Hx, Hl in Hj. congruence.
  - intros Hin. destruct (Hc _ Hin) as [Hj Hr]. eauto.
Qed.

Lemma undisturbed_ok find now until tok d js d' ids : find d = (Ok ids, d) →
  undisturbed find now until tok d = (Ok js, d') → reserveBatchCandidates now until tok ids d = (Ok (Some js), d').
Proof.
  intros Hf. unfold undisturbed. cbn. rewrite Hf. destruct ids as [|id ids]; [done|].
  by destruct (reserveBatchCandidates _ _ _ _ _) as [[[js0|]|e] d3]; try done; intros [= <- <-].
Qed.

Lemma undisturbed_atomic find now until tok : (∀ d r d', find d = (r, d') → d' = d) → atomic (undisturbed find now until tok).
Proof.
  intros Hf d e d'. unfold undisturbed. cbn. destruct (find d) as [[ids|e'] d1] eqn:Hfd; [|by intros [= _ <-]].
  destruct ids as [|id ids]; [by intros [= _ <-]|].
  destruct (reserveBatchCandidates _ _ _ _ _) as [[[js0|]|e'] d3] eqn:Hop; try done;
    intros [= _ <-]; by eapply reserve_atomic.
Qed.

(** The rows a claim answers, given the candidates it was made on. *)
Lemma reserve_candidates now until tok c d js d' : keyed (jobs_t d) → NoDup c →
  (∀ j, j ∈ c → jobs_t d !! ID j = Some j ∧ ready (ts now) j = true) →
  reserveBatchCandidates now until tok (ID <$> c) d = (Ok (Some js), d') → js ≡ₚ reserve_row (ts until) tok <$> c.
Proof.
  intros Hk Hnd Hc Hop. destruct (reserve_spec _ _ _ _ _ _ _ Hk Hop) as (_ & Hjs & _).
  etrans; [exact Hjs|]. by rewrite still_ready_rows.
Qed.

Lemma claim_ok_mysql now until tok caps limit d js d' : keyed (jobs_t d) →
  findAndReserveBatch now until tok caps limit d = (Ok js, d') →
  claim_base ts ∅ now until tok caps limit d js d' ∧ claim_prefix ts ∅ now caps limit d js.
Proof.
  intros Hk [[Htok Hlim]%DbSql.validateBatchClaim_ok Hop%(undisturbed_ok _ _ _ _ _ _ _ (ID <$> _) eq_refl)]%guarded_ok.
  set (c := candidates now caps limit (jobs_t d)) in Hop.
  assert (∀ j, j ∈ c → jobs_t d !! ID j = Some j ∧ claimable (ts now) caps j = true) as Hc
    by (intros j; by apply candidates_elem).
  assert (NoDup c) as Hnd by (by apply candidates_NoDup).
  assert (js ≡ₚ reserve_row (ts until) tok <$> c) as Hjs.
  { eapply reserve_candidates; [done|done| |exact Hop]. intros j [Hj [Hr _]%andb_true_iff]%Hc. done. }
  split.
  - eapply (reserve_claims caps limit); [done|done| | |exact Hop].
    + rewrite length_fmap. unfold c, candidates. rewrite top_length. lia.
    + intros j Hj (x & Hx & [Hl [_ Hcap]%andb_true_iff]%Hc)%list_elem_of_fmap. rewrite <- Hx, Hj in Hl. by injection Hl as ->.
  - intros _ r Hr Hcl _ Hn.
    assert (r ∉ c) as Hrc.
    { intros Hin. apply Hn. rewrite Hjs, <- list_fmap_compose. by apply (list_elem_of_fmap_2 (ID ∘ reserve_row (ts until) tok)). }
    destruct (candidates_prefix now caps limit (jobs_t d) Hk r Hr Hcl Hrc) as [Hlen Hord]. split.
    + rewrite Hjs, length_fmap. fold c in Hlen. lia.
    + intros j. rewrite Hjs. intros (x & -> & Hx)%list_elem_of_fmap. exact (Hord _ Hx).
Qed.

Lemma bounded_ok_mysql now until tok cap limits d js d' : keyed (jobs_t d) →
  FindAndReserveJobsForCapabilityBounded now until tok cap limits d = (Ok js, d') →
  claim_base ts ∅ now until tok [cap] (lim_MaxMessages limits) d js d'
  ∧ 1 ≤ lim_MaxBytes limits ∧ js = reserve_row (ts until) tok <$> bounded_claim ts ∅ now cap limits d.
Proof.
  intros Hk.
  intros [[Htok Hlim]%DbSql.validateBatchClaim_ok [Hbytes%fail_if_ok [_ Hop]%guarded_ok]%guarded_ok]%guarded_ok.
  apply Z.ltb_ge in Hbytes. eapply undisturbed_ok in Hop; [|done]. rewrite DbSql.bounded_ids_prefix in Hop.
  change (bounded_prefix (lim_MaxBytes limits) (capability_head now (lim_MaxMessages limits) (jobs_t d) cap))
    with (bounded_prefix (lim_MaxBytes limits) (sql_select (λ j, ready (ts now) j && row_is j cap) queue_less
           (Z.to_nat (lim_MaxMessages limits)) (jobs_t d))) in Hop.
  rewrite <- DbSql.bounded_claim_unlocked in Hop.
  pose proof (bounded_claim_elem ts ∅ now cap limits d Hk) as Hc.
  pose proof (bounded_claim_length ts ∅ now cap limits d) as Hlen.
  pose proof (bounded_claim_NoDup ts ∅ now cap limits d Hk) as Hnd.
  pose proof (bounded_claim_sorted ts ∅ now cap limits d) as Hs.
  set (c := bounded_claim _ _ _ _ _ _) in *.
  assert (∀ j, j ∈ c → jobs_t d !! ID j = Some j ∧ ready (ts now) j = true) as Hready.
  { intros j Hj. destruct (Hc j Hj) as (Hl & Hr & _). split; [done|]. by apply andb_true_iff in Hr as [Hr _]. }
  pose proof (reserve_candidates _ _ _ _ _ _ _ Hk Hnd Hready Hop) as Hjs.
  destruct (reserve_spec _ _ _ _ _ _ _ Hk Hop) as (_ & _ & Hsorted & _).
  split; [|split; [lia|]].
  - eapply (reserve_claims [cap]); [done|done| | |exact Hop].
    + rewrite length_fmap. lia.
    + intros j Hj (x & Hx & Hin)%list_elem_of_fmap. destruct (Hc x Hin) as (Hl & Hr & _).
      rewrite <- Hx, Hj in Hl. injection Hl as ->. by apply andb_true_iff in Hr as [_ Hr].
  - apply (StronglySorted_unique_strong (not_after queue_less)); [|done|by apply StronglySorted_reserve|done].
    intros a b Ha Hb H1 H2. rewrite Hjs in Ha.
    apply list_elem_of_fmap in Ha as (x & -> & Hx), Hb as (y & -> & Hy). f_equal.
    assert (ID x = ID y) as Hid by (by apply (queue_less_tie x y)).
    destruct (Hready x Hx) as [Hlx _], (Hready y Hy) as [Hly _]. rewrite Hid, Hly in Hlx. congruence.
Qed.

#[export] Instance mysql_batch_repository : BatchRepository ts batch_repository.
Proof.
  apply (DbSql.batch_contract ts).
  - intros. repeat apply guarded_atomic. apply undisturbed_atomic. by intros d r d' [= <- <-].
  - intros _ * Hk [_ Hop]%guarded_ok. by apply claim_ok_mysql.
  - intros. repeat apply guarded_atomic. apply undisturbed_atomic. by intros d r d' [= <- <-].
  - intros _ *. apply bounded_ok_mysql.
Qed.

#[export] Instance mysql_lease_repository : LeaseRepository ts repository.
Proof.
  apply (DbSql.lease_contract ts).
  - intros. unfold FindAndReserveJobsForCapabilities. case_match; [apply fail_atomic|].
    repeat apply guarded_atomic. apply undisturbed_atomic. by intros d r d' [= <- <-].
  - intros _ * Hk. unfold FindAndReserveJobsForCapabilities. destruct caps; [done|].
    intros [_ Hc]%guarded_ok. by apply claim_ok_mysql.
Qed.

#[export] Instance mysql_unique_repository : UniqueRepository ts (jobFingerprint sha256hex) unique_repository.
Proof.
  apply DbUnique.unique_contract; unfold created_here.
  - intros id. apply N.eqb_refl.
  - intros id stored Hne. by apply N.eqb_neq.
Qed.

#[export] Instance mysql_failed_repository : FailedRepository ts failed_repository.
Proof. apply DbReads.failed_contract. Qed.

#[export] Instance mysql_stats_repository : StatsRepository ts (GetQueueStats).
Proof. apply DbReads.stats_contract. Qed.
(** ** The claims of the service, between other clients *)

(** The two candidate queries of the repository. *)
Definition claim_query (now : Z) (caps : list JobCapability) (limit : Z) (find : Op (list JobID)) : Prop :=
  find = findBatchCandidateIDs now caps limit
  ∨ ∃ cap limits, find = findBoundedBatchCandidateIDs now cap limits ∧ caps = [cap] ∧ limit = lim_MaxMessages limits.

(** A query changes nothing and answers rows ready for the capabilities. *)
Lemma claim_query_rows now caps limit find d : claim_query now caps limit find → keyed (jobs_t d) → 0 ≤ limit →
  ∃ c, find d = (Ok (ID <$> c), d) ∧ Z.of_nat (length c) ≤ limit
    ∧ ∀ j, j ∈ c → jobs_t d !! ID j = Some j ∧ claimable (ts now) caps j = true.
Proof.
  intros [->|(cap & limits & -> & -> & ->)] Hk Hlim.
  - exists (candidates now caps limit (jobs_t d)). split; [done|]. split; [|intros j; by apply candidates_elem].
    unfold candidates. rewrite top_length. lia.
  - exists (bounded_prefix (lim_MaxBytes limits) (capability_head now (lim_MaxMessages limits) (jobs_t d) cap)).
    unfold findBoundedBatchCandidateIDs. rewrite DbSql.bounded_ids_prefix. split; [done|].
    set (h := capability_head _ _ _ _). pose proof (bounded_prefix_prefix (lim_MaxBytes limits) h) as Hle.
    split.
    + etrans; [apply inj_le, prefix_length, Hle|]. unfold h, capability_head. rewrite sql_select_top, top_length. lia.
    + intros j Hj. apply (elem_of_prefix _ h) in Hj; [|done]. destruct (head_elem _ _ _ Hk _ _ Hj) as (Hl & Hr & Hc). split; [done|].
      unfold claimable. rewrite Hr. cbn. by rewrite Hc.
Qed.

Lemma claim_query_finds now caps limit find : claim_query now caps limit find → 0 ≤ limit → finds caps limit find.
Proof.
  intros Hq Hlim d r d' Hk Hf ids ->. destruct (claim_query_rows _ _ _ _ d Hq Hk Hlim) as (c & Hf' & Hlen & Hc).
  rewrite Hf' in Hf. injection Hf as <- <-. rewrite length_fmap. split; [done|].
  intros id (j & -> & Hj)%list_elem_of_fmap. destruct (Hc j Hj) as [Hl [_ Hcap]%andb_true_iff]. eauto.
Qed.

(** A reserving transaction right after the query gets rows or fails. *)
Lemma reserve_undisturbed now until tok caps limit find d id ids r d' : claim_query now caps limit find →
  keyed (jobs_t d) → 0 ≤ limit → find d = (Ok (id :: ids), d) →
  reserveBatchCandidates now until tok (id :: ids) d = (r, d') → r ≠ Ok None.
Proof.
  intros Hq Hk Hlim Hf. destruct (claim_query_rows _ _ _ _ d Hq Hk Hlim) as (c & Hf' & _ & Hc).
  rewrite Hf' in Hf. injection Hf as Hids. destruct c as [|j c]; [done|]. cbn in Hids.
  destruct (Hc j) as [Hl [Hr _]%andb_true_iff]; [set_solver|].
  assert (j ∈ rows_where (still_ready now (id :: ids)) (jobs_t d)) as Hj.
  { apply rows_where_elem; [done|]. split; [done|]. unfold still_ready. rewrite Hr, andb_true_r. apply in_ids_spec.
    injection Hids as <- _. set_solver. }
  unfold reserveBatchCandidates. destruct (attempts_overflow _); [by intros [= <- _]|].
  rewrite DbSql.rows_updated_all by (intros; apply reserve_changes). unfold exec_update.
  rewrite affected_rows by done. destruct (rows_where _ _) as [|j' rows]; [set_solver|].
  destruct (Z.eqb_spec (Z.of_nat (length (j' :: rows))) 0) as [H0|_]; [by cbn in H0; lia|].
  repeat case_match; intros [= <- _]; done.
Qed.

(** Rounds up to the first that is cancelled or undisturbed. *)
Lemma claim_rounds_ends moves cancelled (Hkeyed : ∀ k d, keyed (jobs_t d) → keyed (jobs_t (moves k d)))
    n find now until tok caps limit : claim_query now caps limit find → 0 ≤ limit →
  cancelled n ≠ None ∨ (∀ d, moves (2 * n + 1)%nat d = d) →
  ∀ fuel k d, keyed (jobs_t d) → (k ≤ n)%nat → (n < k + fuel)%nat →
  (claim_rounds moves cancelled fuel k find now until tok d).1 ≠ None.
Proof.
  intros Hq Hlim Hn. induction fuel as [|fuel IH]; intros k d Hk Hle Hfuel; [lia|]. cbn [claim_rounds].
  destruct (cancelled k) eqn:Hck; [done|].
  pose proof (Hkeyed (2 * k)%nat d Hk) as Hk1. set (d1 := moves (2 * k)%nat d) in *.
  destruct (claim_query_rows _ _ _ _ d1 Hq Hk1 Hlim) as (c & Hf & _). rewrite Hf.
  destruct (ID <$> c) as [|id ids]; [done|]. pose proof (Hkeyed (2 * k + 1)%nat d1 Hk1) as Hk2.
  destruct (reserveBatchCandidates _ _ _ _ _) as [[[js|]|e] d3] eqn:Hop; [done| |done].
  pose proof (reserve_atomic _ _ _ _ _ _ _ Hop ltac:(done)) as ->.
  destruct (decide (k = n)) as [->|Hne].
  - destruct Hn as [Hc|Hid]; [by rewrite Hck in Hc|]. rewrite Hid in Hop.
    by destruct (reserve_undisturbed _ _ _ _ _ _ _ _ _ _ _ Hq Hk1 Hlim Hf Hop).
  - apply IH; [done|lia..].
Qed.
End mysql.

(** C18: a MySQL claim between other clients.  A claim reads candidate ids and
    reserves them later, in a transaction of its own, and starts over when they
    were taken meanwhile.  Whatever other clients do before each of these
    statements (as long as rows stay filed under their ids and a job keeps its
    name and version), however many rounds it takes and however the context is
    cancelled: a claim that answers jobs is a sound claim of the table it met,
    one reached by the others' moves alone; it reserved only rows ready at that
    moment, within the limit, and answers them in queue order.  A claim that
    ends any other way has written nothing. *)
Theorem mysql_claim_interleaved (ts : Z → Z) (Hts : Rounding ts) (moves : nat → Db → Db) (cancelled : nat → option err)
    (fuel : nat) (find : Op (list JobID)) (now until : Z) (tok : LeaseToken) (caps : list JobCapability) (limit : Z)
    (d : Db) (r : option (result (list Job))) (d' : Db) :
  (∀ k d, keyed (jobs_t d) → keyed (jobs_t (moves k d))) →
  (∀ k d id j j', jobs_t d !! id = Some j → jobs_t (moves k d) !! id = Some j' →
    Name j' = Name j ∧ SchemaVersionOf j' = SchemaVersionOf j) →
  claim_query ts now caps limit find → validateBatchClaim tok limit = Ok tt → keyed (jobs_t d) →
  claim_rounds ts moves cancelled fuel 0 find now until tok d = (r, d') →
  match r with
  | Some (Ok js) => ∃ d2, others_only moves d d2 ∧ claim_base ts ∅ now until tok caps limit d2 js d'
  | _ => others_only moves d d'
  end.
Proof.
  intros Hkeyed Hcontent Hq [Htok Hlim]%DbSql.validateBatchClaim_ok Hk.
  apply (claim_rounds_spec ts moves cancelled Hkeyed Hcontent caps limit find); [|done..].
  apply (claim_query_finds ts now); [done|lia].
Qed.

(** A MySQL claim ends.  The loop goes around only when others took every
    candidate between the query and the reserving transaction: once a round [n]
    finds its context cancelled, or runs undisturbed between its two
    statements, the claim has returned. *)
Theorem mysql_claim_ends (ts : Z → Z) (Hts : Rounding ts) (moves : nat → Db → Db) (cancelled : nat → option err)
    (fuel n : nat) (find : Op (list JobID)) (now until : Z) (tok : LeaseToken) (caps : list JobCapability) (limit : Z)
    (d : Db) :
  (∀ k d, keyed (jobs_t d) → keyed (jobs_t (moves k d))) →
  claim_query ts now caps limit find → validateBatchClaim tok limit = Ok tt → keyed (jobs_t d) →
  cancelled n ≠ None ∨ (∀ d, moves (2 * n + 1)%nat d = d) → (n < fuel)%nat →
  (claim_rounds ts moves cancelled fuel 0 find now until tok d).1 ≠ None.
Proof.
  intros Hkeyed Hq [_ Hlim]%DbSql.validateBatchClaim_ok Hk Hn Hfuel.
  apply (claim_rounds_ends ts moves cancelled Hkeyed n find now until tok caps limit); [done|lia|done|done|lia|lia].
Qed.
End Mysql.
