(* ===== verification/PicodataJobs.v ===== *)
(** * Picodata jobs repository

    backends/picodata/repositories/jobsrepo/api.go.  There are no transactions:
    a claim reads up to ten candidates and reserves the first it can with a
    compare-and-set on the attempt counter, one job per call.  [moves] is what
    other clients do before each statement of a claim.  Columns added by a later
    migration are taken with their [COALESCE]d defaults; a statement reports
    the rows it found. *)

From S2P Require Import Prelude GoTime Errors Models Batch Sql Repo Pages Listings DbSql DbReads.
Open Scope Z_scope.

Module Picodata.
Section picodata.
Context (ts : Z → Z) `{!Rounding ts}.

(** ** Operations *)

Definition CreateJobVersioned (id : JobID) (now : Z) (name : string) (schemaVersion : SchemaVersion)
    (payload : string) (availableAt : Z) : Op JobID :=
  guarded (res_map_err (wrapf "validate capability") (Validate {| cap_Name := name; cap_SchemaVersion := schemaVersion |}))
    (λ d, match insert_job (mkJob id "default" name schemaVersion payload 0 None LeaseTokenNil None
                              (ts availableAt) (ts now)) d with
          | (Ok _, d') => (Ok id, d')
          | (Err e, d') => (Err e, d')
          end).

(** [WHERE id = $1 AND attempts = $2 AND (reserved_at IS NULL OR reserved_at <= $5)]:
    the availability is not read again. *)
Definition unleased (now : Z) (j : Job) : bool := match ReservedAt j with Some r => r <=? now | None => true end.
Definition cas_matches (now : Z) (job j : Job) : bool :=
  N.eqb (ID j) (ID job) && (Attempts j =? Attempts job) && unleased (ts now) j.

(** The loop over the candidates. *)
Fixpoint try_candidates (moves : nat → Db → Db) (k : nat) (now until : Z) (leaseToken : LeaseToken)
    (candidates : list Job) (d : Db) : result Job * Db :=
  match candidates with
  | [] => (Err (ESentinel ErrNoJobs), d)
  | job :: candidates =>
      let d1 := moves k d in
      let '(t', affected) := sql_update (cas_matches now job) (reserve_row (ts until) leaseToken) (jobs_t d1) in
      if affected =? 0 then try_candidates moves (S k) now until leaseToken candidates d1
      else (Ok (reserve_row until leaseToken job), set_jobs t' d1)
  end.

Definition candidates (now : Z) (capabilities : list JobCapability) (t : gmap JobID Job) : list Job :=
  sql_select (λ j, ready (ts now) j && existsb (row_is j) capabilities) queue_less 10 t.

Definition findAndReserveForCapabilities (moves : nat → Db → Db) (now until : Z) (leaseToken : LeaseToken)
    (capabilities : list JobCapability) (d : Db) : result Job * Db :=
  let d1 := moves 0%nat d in
  try_candidates moves 1 now until leaseToken (candidates now capabilities (jobs_t d1)) d1.

Definition FindAndReserveJobsForCapabilities (moves : nat → Db → Db) (now until : Z) (leaseToken : LeaseToken)
    (capabilities : list JobCapability) (limit : Z) : Op (list Job) :=
  guarded (fail_if (negb (limit =? 1))
             (wrapAs ErrReservationBatchSizeUnsupported "Picodata supports reservation batch size 1"))
  (guarded (res_map_err (wrapf "invalid lease token") (LeaseTokenType.Validate leaseToken))
  (guarded (fail_if (length capabilities =? 0)%nat (ESentinel ErrNoJobs))
  (guarded (check_from (λ _ c, res_map_err (wrapf "invalid capability") (Validate c)) 0 capabilities)
  (λ d, match findAndReserveForCapabilities moves now until leaseToken capabilities d with
        | (Ok job, d') => (Ok [job], d')
        | (Err e, d') => (Err e, d')
        end)))).

Definition validateSingleLeaseRequest (jobIDs : list JobID) (leaseToken : LeaseToken) : result JobID :=
  match jobIDs with
  | [jobID] =>
      if JobIDType.IsZero jobID then Err (EText "invalid job id")
      else _ ← res_map_err (wrapf "invalid lease token") (LeaseTokenType.Validate leaseToken); Ok jobID
  | _ => Err (wrapAs ErrReservationBatchSizeUnsupported "Picodata supports exactly one leased job")
  end.

Definition single (jobIDs : list JobID) (leaseToken : LeaseToken) (op : JobID → Op Z) : Op Z := λ d,
  match validateSingleLeaseRequest jobIDs leaseToken with
  | Err e => (Err e, d)
  | Ok jobID => op jobID d
  end.

Definition ExtendJobLeases (jobIDs : list JobID) (leaseToken : LeaseToken) (now until : Z) : Op Z :=
  single jobIDs leaseToken (λ jobID,
    exec_update (λ j, N.eqb (ID j) jobID && live leaseToken (ts now) j) (extend_row (ts until))).

Definition ReleaseUnstartedJobsWithLease (jobIDs : list JobID) (leaseToken : LeaseToken) (now : Z) : Op Z :=
  single jobIDs leaseToken (λ jobID,
    exec_update (λ j, N.eqb (ID j) jobID && live leaseToken (ts now) j && (0 <? Attempts j)) release_row).

Definition DeleteJobWithLease (jobID : JobID) (leaseToken : LeaseToken) (now : Z) : Op Z :=
  DbSql.DeleteJobWithLease ts jobID leaseToken now.

Definition RescheduleJobWithLease (jobID : JobID) (leaseToken : LeaseToken) (now availableAt : Z) : Op Z :=
  DbSql.RescheduleJobWithLease ts true jobID leaseToken now availableAt.

Definition DeferJobWithLease (jobID : JobID) (leaseToken : LeaseToken) (now availableAt : Z) : Op Z :=
  guarded (res_map_err (wrapf "invalid lease token") (LeaseTokenType.Validate leaseToken))
  (guarded (JobIDType.Validate jobID)
  (guarded (fail_if (IsZero availableAt) (EText "defer availability time is empty"))
  (exec_update (λ j, N.eqb (ID j) jobID && live leaseToken (ts now) j && (0 <? Attempts j))
     (defer_row (ts availableAt))))).

Definition GetByID (id : JobID) : Op Job := DbReads.GetByID id.

Definition ListPage (limit : Z) (before : option PageCursor) : Op (list Job) := DbReads.ListPage ts limit before.
Definition All (order : list Job → list Job) : Op (list Job) := DbReads.All order.
Definition ListPaged (order : list Job → list Job) (limit before : Z) : Op (list Job) :=
  DbReads.ListPaged ts order limit before.

(** jobsfailedrepo/{api,pagination}.go: the table has no unique index on
    [job_id]. *)
Definition insert_record (newID : JobID) (f : JobFailed) : Op JobID := λ d,
  if bool_decide (is_Some (failed_t d !! newID)) then (Err (EText "duplicate key in unique index"), d)
  else (Ok newID,
        set_failed (<[newID := mkJobFailed newID (f_JobID f) (f_Queue f) (f_Name f) (f_SchemaVersion f) (f_Payload f)
          (f_Reason f) (ts (f_FailedAt f)) (ts (f_CreatedAt f)) (f_Connection f) (f_Exception f)]> (failed_t d)) d).

Definition CreateFailedJobVersioned (newID : JobID) (now : Z) (jobID : JobID) (name : string) (v : SchemaVersion)
    (payload reason : string) : Op JobID :=
  guarded (res_map_err (wrapf "validate capability") (Validate {| cap_Name := name; cap_SchemaVersion := v |}))
    (insert_record newID (mkJobFailed newID jobID "default" name v payload reason now now "" "")).
Definition CreateFailed (newID : JobID) (model : JobFailed) : Op JobID :=
  insert_record newID
    (mkJobFailed (f_ID model) (f_JobID model) (f_Queue model) (f_Name model)
       (normalizeSchemaVersion (f_SchemaVersion model)) (f_Payload model) (f_Reason model) (f_FailedAt model)
       (f_CreatedAt model) (f_Connection model) (f_Exception model)).
Definition DeleteFailed (id : JobID) : Op Z := DbReads.DeleteFailed id.
Definition CountExact : Op Z := DbReads.CountExact.
Definition Count : Op Z := CountExact.
Definition CountLight : Op Z := CountExact.
Definition ListFailedPage (limit : Z) (before : option PageCursor) : Op (list JobFailed) :=
  DbReads.ListFailedPage ts limit before.
Definition AllFailed (order : list JobFailed → list JobFailed) : Op (list JobFailed) := DbReads.AllFailed order.
Definition ListFailedPaged (order : list JobFailed → list JobFailed) (limit before : Z) : Op (list JobFailed) :=
  DbReads.ListFailedPaged ts order limit before.
Definition GetFailedByID (id : JobID) : Op JobFailed := DbReads.GetFailedByID id.

(** [WHERE job_id = $1 ORDER BY failed_at DESC LIMIT 1]: a job can have more
    than one record here, and [order] is the database's. *)
Definition FindByJobID (order : list JobFailed → list JobFailed) (jobID : JobID) : Op JobFailed := λ d,
  if JobIDType.IsZero jobID then (Err (wrapf "jobs_failed.repo.FindByJobID" (EText "invalid id")), d)
  else match order (filter (λ f, f_JobID f = jobID) (map_to_list (failed_t d)).*2) with
       | f :: _ => (Ok f, d)
       | [] => (Err (ESentinel ErrNoJobs), d)
       end.

(** Claims that nobody interferes with. *)
Definition repository : Repo.JobsRepository := {|
  Repo.CreateJobVersioned := CreateJobVersioned;
  Repo.FindAndReserveJobsForCapabilities := λ _, FindAndReserveJobsForCapabilities (λ _ d, d);
  Repo.ExtendJobLeases := ExtendJobLeases;
  Repo.ReleaseUnstartedJobsWithLease := ReleaseUnstartedJobsWithLease;
  Repo.DeleteJobWithLease := DeleteJobWithLease;
  Repo.RescheduleJobWithLease := RescheduleJobWithLease;
  Repo.DeferJobWithLease := Some DeferJobWithLease;
  Repo.MaxReservationBatchSizeOf := 1;
  Repo.SkipLocked := false
|}.

(** The record [FindByJobID] answers is the job's, and none failed later. *)
Lemma FindByJobID_latest order jobID d f d' : Orders (newest_first f_FailedAt) order →
  FindByJobID order jobID d = (Ok f, d') →
  d' = d ∧ f_JobID f = jobID ∧ (∃ id, failed_t d !! id = Some f)
  ∧ ∀ id g, failed_t d !! id = Some g → f_JobID g = jobID → f_FailedAt g ≤ f_FailedAt f.
Proof.
  intros Ho. unfold FindByJobID. destruct (JobIDType.IsZero jobID); [done|].
  set (l := filter _ _). destruct (order l) as [|x rest] eqn:Hl; [done|]. intros [= -> <-].
  pose proof (orders_perm (less := newest_first f_FailedAt) (order := order) l) as Hp. rewrite Hl in Hp.
  pose proof (orders_sorted (less := newest_first f_FailedAt) (order := order) l) as Hs. rewrite Hl in Hs.
  assert (f ∈ l) as Hf by (rewrite <- Hp; by left).
  apply list_elem_of_filter in Hf as [Hf ([i f'] & -> & Hi%elem_of_map_to_list)%list_elem_of_fmap].
  split_and!; [done|done|eauto|]. intros i' g Hg Hj.
  assert (g ∈ l) as Hin.
  { apply list_elem_of_filter. split; [done|]. apply list_elem_of_fmap. exists (i', g).
    split; [done|by apply elem_of_map_to_list]. }
  rewrite <- Hp in Hin. apply elem_of_cons in Hin as [->|Hin]; [done|].
  apply StronglySorted_inv in Hs as [_ Hs]. rewrite Forall_forall in Hs. by apply newest_first_spec, Hs.
Qed.

(** ** A claim between other clients *)

Section interleaved.
Context (moves : nat → Db → Db).
Context (Hkeyed : ∀ k d, keyed (jobs_t d) → keyed (jobs_t (moves k d))).

(** The compare-and-set touches the one row it names. *)
Lemma cas_row now until tok job t : keyed t →
  (sql_update (cas_matches now job) (reserve_row (ts until) tok) t).1
  = match t !! ID job with
    | Some r => if (Attempts r =? Attempts job) && unleased (ts now) r
                then <[ID job := reserve_row (ts until) tok r]> t else t
    | None => t
    end.
Proof.
  intros Hk. apply map_eq. intros i. rewrite sql_update_lookup. unfold cas_matches.
  destruct (t !! i) as [j|] eqn:Hj.
  - cbn. rewrite (Hk _ _ Hj). destruct (N.eqb_spec i (ID job)) as [->|Hne]; cbn.
    + rewrite Hj. destruct (_ && _); [by rewrite lookup_insert_eq|by rewrite Hj].
    + destruct (t !! ID job) as [r|]; [|by rewrite Hj].
      destruct (_ && _); [rewrite lookup_insert_ne by done|]; by rewrite Hj.
  - destruct (t !! ID job) as [r|] eqn:Hr; [|by rewrite Hj].
    destruct (_ && _); [rewrite lookup_insert_ne by congruence|]; by rewrite Hj.
Qed.

Lemma cas_affected now job t : keyed t →
  affected (cas_matches now job) t
  = match t !! ID job with
    | Some r => if (Attempts r =? Attempts job) && unleased (ts now) r then 1 else 0
    | None => 0
    end.
Proof.
  intros Hk. rewrite (affected_singleton _ (ID job)); [|done|].
  - destruct (t !! ID job) as [r|] eqn:Hr; [|done]. unfold cas_matches. by rewrite (Hk _ _ Hr), N.eqb_refl.
  - intros j Hj. unfold cas_matches in Hj. rewrite !andb_true_iff, N.eqb_eq in Hj. naive_solver.
Qed.

Lemma try_candidates_spec now until tok cands : ∀ k d r d', keyed (jobs_t d) →
  try_candidates moves k now until tok cands d = (r, d') →
  match r with
  | Ok j => ∃ job d2 row, job ∈ cands ∧ others_only moves d d2 ∧ j = reserve_row until tok job
      ∧ jobs_t d2 !! ID job = Some row ∧ Attempts row = Attempts job ∧ unleased (ts now) row = true
      ∧ d' = set_jobs (<[ID job := reserve_row (ts until) tok row]> (jobs_t d2)) d2
  | Err _ => others_only moves d d'
  end.
Proof.
  induction cands as [|job cands IH]; intros k d r d' Hk; cbn [try_candidates].
  { by intros [= <- <-]. }
  set (d1 := moves k d). assert (others_only moves d d1) as Hq by apply others_step.
  pose proof (others_keyed moves _ _ Hkeyed Hq Hk) as Hk1.
  destruct (sql_update _ _ (jobs_t d1)) as [t' n] eqn:Hu.
  assert (t' = (sql_update (cas_matches now job) (reserve_row (ts until) tok) (jobs_t d1)).1) as Ht by (by rewrite Hu).
  assert (n = affected (cas_matches now job) (jobs_t d1)) as Hn by (unfold sql_update in Hu; congruence).
  rewrite cas_row in Ht by done. rewrite cas_affected in Hn by done. clear Hu.
  assert (n = 0 ∨ ∃ row, jobs_t d1 !! ID job = Some row ∧ Attempts row = Attempts job ∧ unleased (ts now) row = true
            ∧ n = 1 ∧ t' = <[ID job := reserve_row (ts until) tok row]> (jobs_t d1)) as [->|(row & Hrow & Ha & Hl & -> & ->)].
  { destruct (jobs_t d1 !! ID job) as [row|]; [|by left].
    destruct ((Attempts row =? Attempts job) && unleased (ts now) row) eqn:Hc; [|by left].
    apply andb_true_iff in Hc as [?%Z.eqb_eq ?]. right. by exists row. }
  - intros Hrun. specialize (IH _ _ _ _ Hk1 Hrun). destruct r as [j|e]; [|by etrans].
    destruct IH as (job' & d2 & row & Hin & Hq2 & Hrest). exists job', d2, row.
    split; [set_solver|]. split; [by etrans|done].
  - intros [= <- <-]. exists job, d1, row. split_and!; try done. set_solver.
Qed.
End interleaved.

(** ** Undisturbed calls keep the contract *)

Lemma update_one f t row : keyed t → t !! ID row = Some row →
  (sql_update (in_ids [ID row]) f t).1 = <[ID row := f row]> t.
Proof.
  intros Hk Hrow. apply map_eq. intros i. rewrite sql_update_lookup. destruct (decide (i = ID row)) as [->|Hne].
  - rewrite Hrow, lookup_insert_eq. cbn. by rewrite in_ids_single, N.eqb_refl.
  - rewrite lookup_insert_ne by done. destruct (t !! i) as [j|] eqn:Hj; [|done]. cbn.
    by rewrite in_ids_single, (Hk _ _ Hj), (proj2 (N.eqb_neq _ _) Hne).
Qed.

Lemma claim_head now until tok caps d job cands : keyed (jobs_t d) →
  candidates now caps (jobs_t d) = job :: cands →
  findAndReserveForCapabilities (λ _ d, d) now until tok caps d
  = (Ok (reserve_row until tok job),
     set_jobs (sql_update (in_ids [ID job]) (reserve_row (ts until) tok) (jobs_t d)).1 d).
Proof.
  intros Hk Hc. unfold findAndReserveForCapabilities. rewrite Hc. cbn [try_candidates].
  assert (job ∈ candidates now caps (jobs_t d)) as Hin by (rewrite Hc; set_solver).
  apply top_elem, rows_where_elem in Hin as [Hj [Hr _]%andb_true_iff]; [|done].
  assert (unleased (ts now) job = true) as Hl by (by apply andb_true_iff in Hr as [_ Hr]).
  destruct (sql_update _ _ _) as [t' n] eqn:Hu.
  assert (t' = (sql_update (cas_matches now job) (reserve_row (ts until) tok) (jobs_t d)).1) as -> by (by rewrite Hu).
  assert (n = affected (cas_matches now job) (jobs_t d)) as -> by (unfold sql_update in Hu; congruence).
  by rewrite cas_row, cas_affected, Hj, Z.eqb_refl, Hl, update_one.
Qed.

Lemma claim_ok_picodata now until tok caps limit d js d' : keyed (jobs_t d) →
  FindAndReserveJobsForCapabilities (λ _ d, d) now until tok caps limit d = (Ok js, d') →
  claim_base ts ∅ now until tok caps limit d js d' ∧ claim_prefix ts ∅ now caps limit d js.
Proof.
  intros Hk [Hl%fail_if_ok [Htok%res_map_err_ok%lease_token_valid [_ [_ Hop]%guarded_ok]%guarded_ok]%guarded_ok]%guarded_ok.
  apply negb_false_iff, Z.eqb_eq in Hl as ->.
  destruct (candidates now caps (jobs_t d)) as [|job cands] eqn:Hc.
  { unfold findAndReserveForCapabilities in Hop. by rewrite Hc in Hop. }
  rewrite (claim_head _ _ _ _ _ _ _ Hk Hc) in Hop. injection Hop as <- <-.
  set (rows := rows_where (λ j, ready (ts now) j && existsb (row_is j) caps) (jobs_t d)).
  assert ([job] = top queue_less 1 rows) as Htop.
  { unfold candidates in Hc. rewrite sql_select_top in Hc. fold rows in Hc. unfold top in *.
    by destruct (sort_slice queue_less rows); [done|]; injection Hc as -> _. }
  assert (∀ j, j ∈ rows ↔ jobs_t d !! ID j = Some j ∧ claimable (ts now) caps j = true) as Hrows
    by (intros j; by apply rows_where_elem).
  assert (∀ j, j ∈ [job] → jobs_t d !! ID j = Some j ∧ claimable (ts now) caps j = true ∧ ID j ∉ (∅ : gset JobID)) as Hin.
  { intros j. rewrite Htop. intros [? ?]%top_elem%Hrows. set_solver. }
  assert ([reserve_row until tok job] ≡ₚ reserve_row until tok <$> remove_dups [job]) as Hp
    by (by rewrite remove_dups_NoDup by apply NoDup_singleton).
  split.
  - apply (claim_base_intro ts ∅ now until until tok caps 1 d [job] _ Hk eq_refl Hin Hp); [done|done|cbn; lia|].
    apply SSorted_cons; constructor.
  - intros _. apply (claim_prefix_intro ts ∅ now until tok caps 1 d [job] _ Hp rows); [done| |lia|].
    + by apply rows_where_distinct.
    + intros r ? ? _. by apply Hrows.
Qed.

Lemma try_candidates_atomic now until tok cands k d e d' :
  try_candidates (λ _ d, d) k now until tok cands d = (Err e, d') → d' = d.
Proof.
  revert k. induction cands as [|job cands IH]; intros k; cbn [try_candidates]; [by intros [= _ <-]|].
  destruct (sql_update _ _ _) as [t' n]. destruct (n =? 0); [apply IH|done].
Qed.

Lemma single_ok ids tok op d n d' : single ids tok op d = (Ok n, d') →
  ∃ id, ids = [id] ∧ request_ok repository [id] tok ∧ op id d = (Ok n, d').
Proof.
  unfold single, validateSingleLeaseRequest. destruct ids as [|id [|]]; [done| |done].
  destruct (JobIDType.IsZero id) eqn:Hz; [done|]. destruct (LeaseTokenType.Validate tok) as [[]|] eqn:Ht; [|done]. cbn.
  intros Hop. exists id. split_and!; [done| |done]. apply request_single; [done|].
  split; [by apply N.eqb_neq|by apply lease_token_valid].
Qed.

Lemma single_pass ids tok op d : request_ok repository ids tok → ∃ id, ids = [id] ∧ single ids tok op d = op id d.
Proof.
  intros (Ht & Hl & Hz). destruct ids as [|id [|]]; cbn in Hl; [lia| |lia]. exists id. split; [done|].
  unfold single, validateSingleLeaseRequest.
  assert (id ≠ JobIDNil) as Hid by set_solver.
  rewrite (proj2 (N.eqb_neq _ _) Hid : JobIDType.IsZero id = false).
  apply lease_token_valid in Ht. by rewrite Ht.
Qed.

Lemma single_atomic ids tok op : (∀ id, atomic (op id)) → atomic (single ids tok op).
Proof.
  intros Hop d e d'. unfold single. destruct (validateSingleLeaseRequest ids tok); [apply Hop|by intros [= _ <-]].
Qed.

(** The statements shared with the SQL backends, whatever claims them. *)
Lemma shared_lease : LeaseRepository ts (DbSql.repository ts true (λ _ _ _ _ _ _, fail (ESentinel ErrNoJobs))).
Proof. apply (DbSql.lease_contract ts); [intros; apply fail_atomic|done]. Qed.

Lemma request_shared id tok :
  request_ok (DbSql.repository ts true (λ _ _ _ _ _ _, fail (ESentinel ErrNoJobs))) [id] tok ↔ request_ok repository [id] tok.
Proof. by rewrite <- !request_single. Qed.

Lemma counted_single id tok now j :
  N.eqb (ID j) id && live tok now j && (0 <? Attempts j) = owned_counted [id] tok now j.
Proof. unfold owned_counted. by rewrite owned_single. Qed.

#[export] Instance picodata_lease_repository : LeaseRepository ts repository.
Proof.
  pose proof shared_lease as Hsql. split.
  - apply _.
  - cbn. unfold MaxReservationBatchSize. lia.
  - intros. apply guarded_atomic. intros d e d'. unfold insert_job. repeat case_match; naive_solver.
  - intros * [Hv%res_map_err_ok%capability_valid Hop]%guarded_ok. cbn in Hv. unfold insert_job in Hop. cbn in Hop.
    case_bool_decide as Hn; [done|]. rewrite (proj2 (Z.leb_gt v 0)) in Hop by done.
    simplify_eq. split_and!; [done..| |by exists "default"]. by apply eq_None_not_Some.
  - intros. repeat apply guarded_atomic. intros d e d'. unfold findAndReserveForCapabilities.
    destruct (try_candidates _ _ _ _ _ _ _) as [[j|e'] d1] eqn:Hop; [done|]. intros [= _ <-].
    by eapply try_candidates_atomic.
  - intros *. apply claim_ok_picodata.
  - intros. apply single_atomic. intros. apply exec_update_atomic.
  - intros * (id & -> & Hr & [= <- <-])%single_ok. split; [done|]. apply updates_are_found.
    by apply (updates_ext _ _ (owned_single id tok (ts now))).
  - intros * Hr. cbn. destruct (single_pass ids tok (λ jobID, exec_update (λ j, N.eqb (ID j) jobID && live tok (ts now) j)
      (extend_row (ts until))) d Hr) as (id & -> & Heq). unfold ExtendJobLeases. rewrite Heq. unfold exec_update. eauto.
  - intros. apply single_atomic. intros. apply exec_update_atomic.
  - intros * (id & -> & Hr & [= <- <-])%single_ok. split; [done|].
    by apply (updates_ext _ _ (counted_single id tok (ts now))).
  - intros * Hr. cbn. destruct (single_pass ids tok (λ jobID, exec_update (λ j, N.eqb (ID j) jobID && live tok (ts now) j
      && (0 <? Attempts j)) release_row) d Hr) as (id & -> & Heq). unfold ReleaseUnstartedJobsWithLease.
    rewrite Heq. unfold exec_update. eauto.
  - apply Hsql.
  - intros * [Hr Hd]%(delete_ok (LeaseRepository:=Hsql)). by rewrite <- request_shared.
  - intros * Hr%request_shared. by apply (delete_total (LeaseRepository:=Hsql)).
  - apply Hsql.
  - intros * [Hr Hd]%(reschedule_ok (LeaseRepository:=Hsql)). by rewrite <- request_shared.
  - intros * Hr%request_shared. by apply (reschedule_total (LeaseRepository:=Hsql)).
  - intros * [= <-]. repeat apply guarded_atomic. apply exec_update_atomic.
  - intros * [= <-] Hk
      [Ht%res_map_err_ok%lease_token_valid [Hi%job_id_valid [_ [= <- <-]]%guarded_ok]%guarded_ok]%guarded_ok.
    split; [by apply request_single|]. by apply (updates_ext _ _ (counted_single id tok (ts now))).
Qed.
End picodata.

(** C20: a Picodata claim between other clients.  Nothing protects a claim
    between reading its candidates and the compare-and-set on one of them.
    Whatever other clients do there, as long as rows stay filed under their ids
    and an id keeps its name and version: a claim that answers a job read it
    ready, of a requested capability, and reserved it while no lease on it was
    live and its attempt counter was the one read, so it counts exactly one
    attempt and never takes over a running job; it wrote that row and no other.
    Were its availability still reached at that moment, the row was claimable.
    A claim that ends any other way has written nothing. *)
Theorem picodata_claim_interleaved (ts : Z → Z) (Hts : Rounding ts) (moves : nat → Db → Db) (now until : Z) (tok : LeaseToken)
    (caps : list JobCapability) (limit : Z) (d : Db) (r : result (list Job)) (d' : Db) :
  (∀ k d, keyed (jobs_t d) → keyed (jobs_t (moves k d))) →
  (∀ d1 d2 id j j', others_only moves d1 d2 → jobs_t d1 !! id = Some j → jobs_t d2 !! id = Some j' →
    Name j' = Name j ∧ SchemaVersionOf j' = SchemaVersionOf j) →
  keyed (jobs_t d) → FindAndReserveJobsForCapabilities ts moves now until tok caps limit d = (r, d') →
  match r with
  | Ok js => ∃ d1 d2 seen row, js = [reserve_row until tok seen] ∧ limit = 1 ∧ tok ≠ LeaseTokenNil
      ∧ others_only moves d d1 ∧ others_only moves d1 d2
      ∧ jobs_t d1 !! ID seen = Some seen ∧ claimable (ts now) caps seen = true
      ∧ jobs_t d2 !! ID seen = Some row ∧ Attempts row = Attempts seen
      ∧ (∀ tok', live tok' (ts now) row = false)
      ∧ (AvailableAt row ≤ ts now → claimable (ts now) caps row = true)
      ∧ d' = set_jobs (<[ID seen := reserve_row (ts until) tok row]> (jobs_t d2)) d2
  | Err _ => others_only moves d d'
  end.
Proof.
  intros Hkeyed Hcontent Hk. unfold FindAndReserveJobsForCapabilities, guarded.
  destruct (fail_if _ _) as [[]|e] eqn:Hl; [|by intros [= <- <-]]. apply fail_if_ok, negb_false_iff, Z.eqb_eq in Hl as ->.
  destruct (res_map_err _ _) as [[]|e] eqn:Ht; [|by intros [= <- <-]]. apply res_map_err_ok, lease_token_valid in Ht.
  destruct (fail_if _ _); [|by intros [= <- <-]]. destruct (check_from _ _ _); [|by intros [= <- <-]].
  unfold findAndReserveForCapabilities. set (d1 := moves 0%nat d).
  assert (others_only moves d d1) as Hq by apply others_step.
  pose proof (others_keyed moves _ _ Hkeyed Hq Hk) as Hk1. clearbody d1.
  destruct (try_candidates ts moves 1 now until tok (candidates ts now caps (jobs_t d1)) d1) as [x d3] eqn:Hrun.
  apply (try_candidates_spec ts moves Hkeyed) in Hrun; [|exact Hk1].
  destruct x as [j|e].
  2: { intros Heq. injection Heq as Hr Hd. subst r d'. exact (transitivity Hq Hrun). }
  intros Heq. injection Heq as Hr Hd. subst r d'. rename Hrun into Hspec.
  destruct Hspec as (seen & d2 & row & Hin & Hq2 & -> & Hrow & Ha & Hl & ->).
  apply top_elem, rows_where_elem in Hin as [Hseen Hc]; [|done].
  exists d1, d2, seen, row.
  split; [done|]. split; [done|]. split; [done|]. split; [exact Hq|]. split; [exact Hq2|]. split; [exact Hseen|].
  split; [exact Hc|]. split; [exact Hrow|]. split; [exact Ha|]. split; [|split; [|done]].
  - intros tok'. unfold live. unfold unleased in Hl. destruct (ReservedAt row); [|by rewrite andb_false_r].
    apply andb_false_iff. right. apply Z.ltb_ge. by apply Z.leb_le.
  - intros Hav. unfold claimable. apply andb_true_iff in Hc as [_ Hc]. apply andb_true_iff. split.
    + unfold ready. apply andb_true_iff. split; [by apply Z.leb_le|done].
    + destruct (Hcontent _ _ _ _ _ Hq2 Hseen Hrow) as [Hn Hv]. rewrite <- Hc. clear -Hn Hv.
      induction caps as [|c caps IH]; [done|]. cbn. rewrite IH. unfold row_is. by rewrite Hn, Hv.
Qed.
End Picodata.
