(* ===== verification/PicodataStats.v ===== *)
(** * Queue statistics of the Picodata repository

    [GetQueueStats] of backends/picodata/repositories/jobsrepo/api.go.  The
    query groups by the stored columns and takes the least availability over
    its text, which the caller parses; the loop normalises versions and merges
    the groups of a capability in a map before sorting them.  How the database
    writes a timestamp is a parameter; the code relies on the text being in
    RFC 3339 and on its order being the order of the times. *)

From S2P Require Import Prelude GoTime Errors Models Sql Repo Stats.
Open Scope Z_scope.

(** What the code relies on of [CAST(available_at AS TEXT)] and [time.Parse],
    for the times of a table. *)
Class TextTime (stored : Z → Prop) (as_text : Z → string) (Parse : string → option Z) : Prop := {
  text_parse t : stored t → Parse (as_text t) = Some t;
  text_order a b : stored a → stored b → String.ltb (as_text a) (as_text b) = (a <? b)
}.

Module PicodataStats.
Section stats.
Context (as_text : Z → string) (Parse : string → option Z).

(** [MIN(CASE WHEN p THEN CAST(available_at AS TEXT) ELSE NULL END)]. *)
Fixpoint min_text (p : Job → bool) (rows : list Job) : option string :=
  match rows with
  | [] => None
  | j :: rows =>
      if p j
      then Some (match min_text p rows with
                 | Some m => if String.ltb m (as_text (AvailableAt j)) then m else as_text (AvailableAt j)
                 | None => as_text (AvailableAt j)
                 end)
      else min_text p rows
  end.

(** One row of the answer: the grouped columns and the aggregates. *)
Definition scan_group (now : Z) (rows : list Job) (c : JobCapability) : result CapabilityQueueStats :=
  let group := filter (λ j, row_is j c = true) rows in
  let stats oldest :=
    {| s_Name := cap_Name c;
       s_SchemaVersion := if 0 <? cap_SchemaVersion c then cap_SchemaVersion c else DefaultSchemaVersion;
       s_Total := count (λ _, true) group;
       s_Available := count (ready now) group;
       s_Processing := count (processing now) group;
       s_OldestAvailableAt := oldest |} in
  match min_text (ready now) group with
  | None => Ok (stats zeroTime)
  | Some text =>
      match Parse text with
      | Some t => Ok (stats t)
      | None => Err (EText "parse oldest available time")
      end
  end.

Definition zero_group : CapabilityQueueStats :=
  {| s_Name := ""; s_SchemaVersion := 0; s_Total := 0; s_Available := 0; s_Processing := 0;
     s_OldestAvailableAt := zeroTime |}.

(** [merged := groups[capability]; merged.Total += group.Total; ...]. *)
Definition merge_group (merged group : CapabilityQueueStats) : CapabilityQueueStats :=
  {| s_Name := s_Name group; s_SchemaVersion := s_SchemaVersion group;
     s_Total := s_Total merged + s_Total group;
     s_Available := s_Available merged + s_Available group;
     s_Processing := s_Processing merged + s_Processing group;
     s_OldestAvailableAt :=
       if negb (IsZero (s_OldestAvailableAt group))
          && (IsZero (s_OldestAvailableAt merged) || (s_OldestAvailableAt group <? s_OldestAvailableAt merged))
       then s_OldestAvailableAt group else s_OldestAvailableAt merged |}.

Definition group_capability (g : CapabilityQueueStats) : JobCapability :=
  {| cap_Name := s_Name g; cap_SchemaVersion := s_SchemaVersion g |}.

(** The loop over the rows: the running totals and the groups by capability. *)
Fixpoint collect (scan : JobCapability → result CapabilityQueueStats) (stats : QueueStats)
    (groups : gmap JobCapability CapabilityQueueStats) (cs : list JobCapability) :
    result (QueueStats * gmap JobCapability CapabilityQueueStats) :=
  match cs with
  | [] => Ok (stats, groups)
  | c :: cs =>
      group ← scan c;
      collect scan
        {| ObservedAt := ObservedAt stats; Total := Total stats + s_Total group;
           Available := Available stats + s_Available group; Processing := Processing stats + s_Processing group;
           ByCapability := ByCapability stats |}
        (<[group_capability group := merge_group (default zero_group (groups !! group_capability group)) group]> groups) cs
  end.

Definition GetQueueStats (ts : Z → Z) (observedAt : Z) : Op QueueStats := λ d,
  let rows := all_rows (jobs_t d) in
  let keys := sort_slice capability_less (remove_dups (row_capability <$> rows)) in
  match collect (scan_group (ts observedAt) rows) (no_stats observedAt) ∅ keys with
  | Err e => (Err e, d)
  | Ok (stats, groups) =>
      (Ok {| ObservedAt := ObservedAt stats; Total := Total stats; Available := Available stats;
             Processing := Processing stats;
             ByCapability := sort_slice stats_less (map_to_list groups).*2 |}, d)
  end.

(** ** Lemmas *)

Lemma merge_zero g : merge_group zero_group g = g.
Proof.
  unfold merge_group. destruct g as [n v t a p o]. cbn. f_equal; try lia.
  unfold IsZero, zeroTime. destruct (Z.eqb_spec o 0); by subst.
Qed.

Lemma group_stats_capability now rows c : group_capability (group_stats now rows c) = c.
Proof. by destruct c. Qed.

Context (stored : Z → Prop) `{!TextTime stored as_text Parse}.

Lemma min_available_stored p rows m : (∀ j, j ∈ rows → stored (AvailableAt j)) →
  min_available p rows = Some m → stored m.
Proof.
  revert m. induction rows as [|j rows IH]; intros m Hrows; [done|]. cbn.
  assert (∀ m, min_available p rows = Some m → stored m) as IH' by (intros; apply IH; [set_solver|done]).
  destruct (p j); [|by apply IH']. intros [= <-]. destruct (min_available p rows) as [m|]; [|apply Hrows; by left].
  destruct (Z.min_spec (AvailableAt j) m) as [[_ ->]|[_ ->]]; [apply Hrows; by left|by apply IH'].
Qed.

Lemma min_text_available p rows : (∀ j, j ∈ rows → stored (AvailableAt j)) →
  min_text p rows = as_text <$> min_available p rows.
Proof.
  induction rows as [|j rows IH]; intros Hrows; [done|]. cbn. destruct (p j); [|apply IH; set_solver].
  rewrite IH by set_solver. destruct (min_available p rows) as [m|] eqn:Hm; [|done]. cbn.
  assert (stored m) as Hst by (eapply min_available_stored; [|done]; set_solver).
  rewrite text_order by (try done; apply Hrows; by left). f_equal.
  destruct (Z.ltb_spec m (AvailableAt j)); f_equal; lia.
Qed.

Lemma scan_group_stats now rows c : (∀ j, j ∈ rows → stored (AvailableAt j)) → 0 < cap_SchemaVersion c →
  scan_group now rows c = Ok (group_stats now rows c).
Proof.
  intros Hrows Hv. unfold scan_group, group_stats. set (group := filter _ rows).
  assert (∀ j, j ∈ group → stored (AvailableAt j)) as Hg by (intros j [_ Hj]%list_elem_of_filter; auto).
  rewrite min_text_available, (proj2 (Z.ltb_lt _ _)) by done.
  destruct (min_available _ _) as [m|] eqn:Hm; [|done]. cbn. rewrite text_parse; [done|].
  by eapply min_available_stored.
Qed.

(** With one row per capability the map holds the groups of the rows. *)
Lemma collect_spec scan (g : JobCapability → CapabilityQueueStats) stats groups cs :
  (∀ c, c ∈ cs → scan c = Ok (g c) ∧ group_capability (g c) = c ∧ groups !! c = None) → NoDup cs →
  ∃ st m, collect scan stats groups cs = Ok (st, m)
    ∧ ObservedAt st = ObservedAt stats
    ∧ Total st = Total stats + foldr Z.add 0 (s_Total <$> (g <$> cs))
    ∧ Available st = Available stats + foldr Z.add 0 (s_Available <$> (g <$> cs))
    ∧ Processing st = Processing stats + foldr Z.add 0 (s_Processing <$> (g <$> cs))
    ∧ (map_to_list m).*2 ≡ₚ (g <$> cs) ++ (map_to_list groups).*2.
Proof.
  revert stats groups. induction cs as [|c cs IH]; intros stats groups Hcs Hnd; cbn [collect].
  { exists stats, groups. cbn. split_and!; [done|done|lia..|done]. }
  apply NoDup_cons in Hnd as [Hc Hnd]. destruct (Hcs c ltac:(by left)) as (-> & Hg & Hn). cbn. rewrite Hg, Hn. cbn.
  rewrite merge_zero. set (next := {| ObservedAt := ObservedAt stats |}).
  destruct (IH next (<[c := g c]> groups)) as (st & m & -> & Hst); [|done|].
  { intros c' Hc'. destruct (Hcs c' ltac:(by right)) as (? & ? & ?). split_and!; [done..|].
    rewrite lookup_insert_ne; [done|]. by intros ->. }
  exists st, m. destruct Hst as (-> & -> & -> & -> & Hp). split_and!; [done|done|cbn; lia..|].
  rewrite Hp, map_to_list_insert by done. rewrite fmap_cons. cbn. by rewrite Permutation_middle.
Qed.

Lemma sum_perm (l l' : list Z) : l ≡ₚ l' → foldr Z.add 0 l = foldr Z.add 0 l'.
Proof. induction 1; cbn; lia. Qed.
End stats.

(** The statistics of the Picodata repository are those of its table.
    When the text of the stored availability times parses back and sorts as
    they do, and stored versions are positive, the query never fails, changes nothing, and
    answers the groups of the rows in name and version order with totals that
    are their sums, as the statistics contract asks of every backend. *)
Theorem picodata_stats (ts : Z → Z) as_text Parse observedAt d :
  TextTime (λ t, ∃ id j, jobs_t d !! id = Some j ∧ AvailableAt j = t) as_text Parse →
  map_Forall (λ _ j, 0 < SchemaVersionOf j) (jobs_t d) →
  ∃ st caps, GetQueueStats as_text Parse ts observedAt d = (Ok st, d)
    ∧ caps ≡ₚ remove_dups (row_capability <$> all_rows (jobs_t d))
    ∧ st = accumulate (no_stats observedAt) (group_stats (ts observedAt) (all_rows (jobs_t d)) <$> caps)
    ∧ StronglySorted (not_after stats_less) (ByCapability st).
Proof.
  intros Htext Hv. unfold GetQueueStats. set (rows := all_rows (jobs_t d)).
  set (keys := sort_slice capability_less (remove_dups (row_capability <$> rows))).
  set (g := group_stats (ts observedAt) rows).
  assert (keys ≡ₚ remove_dups (row_capability <$> rows)) as Hkeys by apply sort_slice_perm.
  assert (NoDup keys) as Hnd by (rewrite Hkeys; apply NoDup_remove_dups).
  destruct (collect_spec (scan_group as_text Parse (ts observedAt) rows) g (no_stats observedAt) ∅ keys)
    as (st & m & -> & Hst); [|done|].
  { intros c Hc. split_and!; [|apply group_stats_capability|done]. eapply scan_group_stats; [exact Htext| |].
    { intros j ([i j'] & -> & Hj%elem_of_map_to_list)%list_elem_of_fmap. eauto. }
    rewrite Hkeys, elem_of_remove_dups in Hc. apply list_elem_of_fmap in Hc as (j & -> & Hj).
    apply list_elem_of_fmap in Hj as ([i j'] & -> & Hj%elem_of_map_to_list). by apply (Hv i j'). }
  destruct Hst as (Ho & Ht & Ha & Hp & Hm). rewrite map_to_list_empty, app_nil_r in Hm.
  set (sorted := sort_slice stats_less (map_to_list m).*2).
  assert (sorted ≡ₚ g <$> keys) as Hs by (unfold sorted; by rewrite sort_slice_perm).
  assert (sorted = g <$> (group_capability <$> sorted)) as Heq.
  { assert (∀ x, x ∈ sorted → g (group_capability x) = x) as Hx.
    { intros x. rewrite Hs. intros (c & -> & _)%list_elem_of_fmap. unfold g at 2. by rewrite group_stats_capability. }
    clear -Hx. induction sorted as [|x l IH]; [done|]. cbn. rewrite Hx by (by left). f_equal. apply IH. set_solver. }
  exists {| ObservedAt := ObservedAt st; Total := Total st; Available := Available st; Processing := Processing st;
            ByCapability := sorted |}, (group_capability <$> sorted).
  split_and!; [done| | |].
  - rewrite <- Hkeys, Hs, <- list_fmap_compose. erewrite list_fmap_ext; [by rewrite list_fmap_id|].
    intros i c _. cbn. apply group_stats_capability.
  - fold g. rewrite <- Heq. pose proof (accumulate_groups (no_stats observedAt) sorted) as (E1 & E2 & E3 & E4 & E5).
    destruct (accumulate _ _) as [o t a p b]. cbn in *.
    rewrite E1, E2, E3, E4, E5, Ho, Ht, Ha, Hp. cbn. f_equal; apply sum_perm; by rewrite Hs.
  - apply sort_slice_sorted, _.
Qed.
End PicodataStats.
