(* ===== verification/Rows.v ===== *)
(** * Rows as columns

    The other files speak of rows as [Job] and [JobFailed] values.  Here are
    the column lists, the value lists and the arguments of the statements that
    store them, and the scans that read them back
    (backends/{sqlite,mysql,picodata}/repositories/{jobsrepo,jobsfailedrepo}/
    api.go), position by position: a column in the wrong place, or a scan
    destination out of order, would make the two views disagree. *)

From S2P Require Import Prelude GoTime Errors Models Batch Sql Repo Statements DbSql DbReads SqliteJobs MysqlJobs PicodataJobs.
Open Scope Z_scope.

(** ** Statements *)

Inductive Cell : Type :=
| CNull
| CInt (z : Z)
| CText (s : string)
| CUuid (n : N)
| CTime (t : Z).

(** The values of an [INSERT]: the next argument, the [n]-th one, a literal. *)
Inductive SqlValue : Type := Mark | Dollar (n : nat) | Lit (c : Cell).

Fixpoint bind_values (args rest : list Cell) (vs : list SqlValue) : option (list Cell) :=
  match vs with
  | [] => match rest with [] => Some [] | _ => None end
  | Mark :: vs => match rest with c :: rest => cons c <$> bind_values args rest vs | [] => None end
  | Dollar n :: vs => c ← args !! (n - 1)%nat; cons c <$> bind_values args rest vs
  | Lit c :: vs => cons c <$> bind_values args rest vs
  end.

(** Question marks take the arguments in order, all of them; numbered
    placeholders name theirs. *)
Definition numbered (vs : list SqlValue) : bool := existsb (λ v, match v with Dollar _ => true | _ => false end) vs.

Definition sql_insert (store : Cell → Cell) (columns : list string) (vs : list SqlValue) (args : list Cell) :
    option (list (string * Cell)) :=
  values ← bind_values args (if numbered vs then [] else args) vs;
  if (length values =? length columns)%nat then Some (zip columns (store <$> values)) else None.

(** A selected expression: a column, or a column with a default. *)
Inductive SelectExpr : Type := Col (name : string) | Coalesce (name : string) (c : Cell).

Fixpoint column (name : string) (row : list (string * Cell)) : option Cell :=
  match row with
  | [] => None
  | (n, c) :: row => if String.eqb n name then Some c else column name row
  end.

Definition select_one (row : list (string * Cell)) (e : SelectExpr) : option Cell :=
  match e with
  | Col name => column name row
  | Coalesce name d => (λ c, match c with CNull => d | _ => c end) <$> column name row
  end.
Definition sql_select (row : list (string * Cell)) (es : list SelectExpr) : option (list Cell) := mapM (select_one row) es.

(** ** Destinations of a scan *)

Definition to_uuid (c : Cell) : option N := match c with CUuid n => Some n | _ => None end.
Definition to_text (c : Cell) : option string := match c with CText s => Some s | _ => None end.
Definition to_int (c : Cell) : option Z := match c with CInt z => Some z | _ => None end.
Definition to_time (c : Cell) : option Z := match c with CTime t => Some t | _ => None end.
Definition or_null {A} (f : Cell → option A) (c : Cell) : option (option A) :=
  match c with CNull => Some None | _ => Some <$> f c end.

(** Times kept by the server at the resolution of their column. *)
Definition rounded (ts : Z → Z) (c : Cell) : Cell := match c with CTime t => CTime (ts t) | _ => c end.
Definition as_is (c : Cell) : Cell := c.

(** ** Jobs *)

Definition insert_columns : list string :=
  ["id"; "queue"; "name"; "schema_version"; "payload"; "attempts"; "reserved_at"; "lease_token";
   "deduplication_key"; "available_at"; "created_at"].
Definition insert_values : list SqlValue :=
  [Mark; Mark; Mark; Mark; Mark; Lit (CInt 0); Lit CNull; Mark; Lit CNull; Mark; Mark].

Definition sqlite_insert_job (id : JobID) (now : Z) (name : string) (schemaVersion : SchemaVersion) (payload : string)
    (availableAt : Z) : option (list (string * Cell)) :=
  sql_insert as_is insert_columns insert_values
    [CUuid id; CText "queue"; CText name; CInt schemaVersion; CText payload; CUuid LeaseTokenNil;
     CInt (UnixMilli availableAt); CInt (UnixMilli now)].

Definition sqlite_scanJob (row : list Cell) : option Job :=
  match row with
  | [c1; c2; c3; c4; c5; c6; c7; c8; c9; c10; c11] =>
      id ← to_uuid c1; queue ← to_text c2; name ← to_text c3; version ← to_int c4; payload ← to_text c5;
      attempts ← to_int c6; reservedAt ← or_null to_int c7; token ← to_uuid c8; key ← or_null to_text c9;
      availableMS ← to_int c10; createdMS ← to_int c11;
      Some (mkJob id queue name version payload attempts (FromUnixMilli <$> reservedAt) token key
              (FromUnixMilli availableMS) (FromUnixMilli createdMS))
  | _ => None
  end.

Definition mysql_insert_job (ts : Z → Z) (id : JobID) (now : Z) (name : string) (schemaVersion : SchemaVersion)
    (payload : string) (availableAt : Z) : option (list (string * Cell)) :=
  sql_insert (rounded ts) insert_columns insert_values
    [CUuid id; CText "queue"; CText name; CInt schemaVersion; CText payload; CUuid LeaseTokenNil;
     CTime availableAt; CTime now].

Definition mysql_scanJob (row : list Cell) : option Job :=
  match row with
  | [c1; c2; c3; c4; c5; c6; c7; c8; c9; c10; c11] =>
      id ← to_uuid c1; queue ← to_text c2; name ← to_text c3; version ← to_int c4; payload ← to_text c5;
      attempts ← to_int c6; reservedAt ← or_null to_time c7; token ← to_uuid c8; key ← or_null to_text c9;
      availableAt ← to_time c10; createdAt ← to_time c11;
      Some (mkJob id queue name version payload attempts reservedAt token key availableAt createdAt)
  | _ => None
  end.

(** Picodata has no column for the key, and rows older than the columns for
    versions and tokens read as defaults. *)
Definition picodata_insert_job (ts : Z → Z) (id : JobID) (now : Z) (name : string) (schemaVersion : SchemaVersion)
    (payload : string) (availableAt : Z) : option (list (string * Cell)) :=
  sql_insert (rounded ts)
    ["id"; "queue"; "name"; "schema_version"; "payload"; "attempts"; "reserved_at"; "lease_token"; "available_at"; "created_at"]
    [Dollar 1; Dollar 2; Dollar 3; Dollar 4; Dollar 5; Lit (CInt 0); Lit CNull; Dollar 6; Dollar 7; Dollar 8]
    [CUuid id; CText "default"; CText name; CInt schemaVersion; CText payload; CUuid LeaseTokenNil; CTime availableAt; CTime now].

Definition picodata_select_job : list SelectExpr :=
  [Col "id"; Col "queue"; Col "name"; Coalesce "schema_version" (CInt 1); Col "payload"; Col "attempts"; Col "reserved_at";
   Coalesce "lease_token" (CUuid LeaseTokenNil); Col "available_at"; Col "created_at"].

Definition picodata_scanJob (row : list Cell) : option Job :=
  match row with
  | [c1; c2; c3; c4; c5; c6; c7; c8; c9; c10] =>
      id ← to_uuid c1; queue ← to_text c2; name ← to_text c3; version ← to_int c4; payload ← to_text c5;
      attempts ← to_int c6; reservedAt ← or_null to_time c7; token ← to_uuid c8;
      availableAt ← to_time c9; createdAt ← to_time c10;
      Some (mkJob id queue name version payload attempts reservedAt token None availableAt createdAt)
  | _ => None
  end.

(** ** Failed jobs *)

Definition failed_columns : list string :=
  ["id"; "job_id"; "queue"; "name"; "schema_version"; "payload"; "reason"; "failed_at"; "created_at"; "connection"; "exception"].
Definition failed_values : list SqlValue := [Mark; Mark; Mark; Mark; Mark; Mark; Mark; Mark; Mark; Mark; Mark].

Definition sqlite_insert_failed (newID : JobID) (now : Z) (jobID : JobID) (name : string) (v : SchemaVersion)
    (payload reason : string) : option (list (string * Cell)) :=
  let nowMS := UnixMilli now in
  sql_insert as_is failed_columns failed_values
    [CUuid newID; CUuid jobID; CText "queue"; CText name; CInt v; CText payload; CText reason; CInt nowMS; CInt nowMS;
     CText ""; CText ""].
Definition mysql_insert_failed (ts : Z → Z) (newID : JobID) (now : Z) (jobID : JobID) (name : string) (v : SchemaVersion)
    (payload reason : string) : option (list (string * Cell)) :=
  sql_insert (rounded ts) failed_columns failed_values
    [CUuid newID; CUuid jobID; CText "queue"; CText name; CInt v; CText payload; CText reason; CTime now; CTime now;
     CText ""; CText ""].
(** The clock reading is used for two columns. *)
Definition picodata_insert_failed (ts : Z → Z) (newID : JobID) (now : Z) (jobID : JobID) (name : string) (v : SchemaVersion)
    (payload reason : string) : option (list (string * Cell)) :=
  sql_insert (rounded ts) failed_columns
    [Dollar 1; Dollar 2; Dollar 3; Dollar 4; Dollar 5; Dollar 6; Dollar 7; Dollar 8; Dollar 8; Dollar 9; Dollar 10]
    [CUuid newID; CUuid jobID; CText "default"; CText name; CInt v; CText payload; CText reason; CTime now; CText ""; CText ""].

Definition picodata_select_failed : list SelectExpr :=
  [Col "id"; Col "job_id"; Col "queue"; Col "name"; Coalesce "schema_version" (CInt 1); Col "payload"; Col "reason";
   Col "failed_at"; Col "created_at"; Col "connection"; Col "exception"].

Definition sqlite_scanJobFailed (row : list Cell) : option JobFailed :=
  match row with
  | [c1; c2; c3; c4; c5; c6; c7; c8; c9; c10; c11] =>
      id ← to_uuid c1; jobID ← to_uuid c2; queue ← to_text c3; name ← to_text c4; version ← to_int c5; payload ← to_text c6;
      reason ← to_text c7; failedMS ← to_int c8; createdMS ← to_int c9; connection ← to_text c10; exception ← to_text c11;
      Some (mkJobFailed id jobID queue name version payload reason (FromUnixMilli failedMS) (FromUnixMilli createdMS)
              connection exception)
  | _ => None
  end.
Definition scan_failed (row : list Cell) : option JobFailed :=
  match row with
  | [c1; c2; c3; c4; c5; c6; c7; c8; c9; c10; c11] =>
      id ← to_uuid c1; jobID ← to_uuid c2; queue ← to_text c3; name ← to_text c4; version ← to_int c5; payload ← to_text c6;
      reason ← to_text c7; failedAt ← to_time c8; createdAt ← to_time c9; connection ← to_text c10; exception ← to_text c11;
      Some (mkJobFailed id jobID queue name version payload reason failedAt createdAt connection exception)
  | _ => None
  end.
Definition mysql_scanJobFailed : list Cell → option JobFailed := scan_failed.
Definition picodata_scanJobFailed : list Cell → option JobFailed := scan_failed.

(** ** Reading back *)

(** The row an insert stored, selected and scanned. *)
Definition reads_back {A} (stored : option (list (string * Cell))) (es : list SelectExpr) (scan : list Cell → option A) : option A :=
  row ← stored; cells ← sql_select row es; scan cells.

Lemma inserted j d (id' : JobID) d' :
  (match insert_job j d with (Ok _, d') => (Ok (ID j), d') | (Err e, d') => (Err e, d') end) = (Ok id', d') → jobs_t d' !! ID j = Some j.
Proof. unfold insert_job. repeat case_match; intros; simplify_eq; cbn; apply lookup_insert_eq. Qed.

Lemma recorded f d (id' : JobID) d' :
  (match insert_failed f d with (Ok _, d') => (Ok (f_ID f), d') | (Err e, d') => (Err e, d') end) = (Ok id', d') → failed_t d' !! f_ID f = Some f.
Proof. unfold insert_failed. repeat case_match; intros; simplify_eq; cbn; apply lookup_insert_eq. Qed.

(** C39: what is stored is what is read.  For each of SQLite, MySQL and
    Picodata, the row a put or a dead letter leaves in its table is the row
    that results from binding the statement's arguments to its column list,
    selecting the repository's columns and scanning them: every field is read
    from the column it was written to, times at the resolution of their
    columns. *)
Theorem rows_read_back ts id now name v payload reason at_ jobID id' d d' :
  (DbSql.CreateJobVersioned Sqlite.ts id now name v payload at_ d = (Ok id', d') →
     is_Some (jobs_t d' !! id)
     ∧ reads_back (sqlite_insert_job id now name v payload at_) (Col <$> Statements.jobColumns) sqlite_scanJob = jobs_t d' !! id)
  ∧ (Mysql.CreateJobVersioned ts id now name v payload at_ d = (Ok id', d') →
     is_Some (jobs_t d' !! id)
     ∧ reads_back (mysql_insert_job ts id now name v payload at_) (Col <$> Statements.jobColumns) mysql_scanJob = jobs_t d' !! id)
  ∧ (Picodata.CreateJobVersioned ts id now name v payload at_ d = (Ok id', d') →
     is_Some (jobs_t d' !! id)
     ∧ reads_back (picodata_insert_job ts id now name v payload at_) picodata_select_job picodata_scanJob = jobs_t d' !! id)
  ∧ (DbReads.CreateFailedJobVersioned Sqlite.ts id now jobID name v payload reason d = (Ok id', d') →
     is_Some (failed_t d' !! id)
     ∧ reads_back (sqlite_insert_failed id now jobID name v payload reason) (Col <$> failed_columns) sqlite_scanJobFailed
       = failed_t d' !! id)
  ∧ (Mysql.CreateFailedJobVersioned ts id now jobID name v payload reason d = (Ok id', d') →
     is_Some (failed_t d' !! id)
     ∧ reads_back (mysql_insert_failed ts id now jobID name v payload reason) (Col <$> failed_columns) mysql_scanJobFailed
       = failed_t d' !! id)
  ∧ (Picodata.CreateFailedJobVersioned ts id now jobID name v payload reason d = (Ok id', d') →
     is_Some (failed_t d' !! id)
     ∧ reads_back (picodata_insert_failed ts id now jobID name v payload reason) picodata_select_failed picodata_scanJobFailed
       = failed_t d' !! id).
Proof.
  split_and!.
  - intros [_ Hop]%guarded_ok. apply inserted in Hop. cbn in Hop. rewrite Hop. split; [by eexists|reflexivity].
  - intros [_ Hop]%guarded_ok. apply inserted in Hop. cbn in Hop. rewrite Hop. split; [by eexists|reflexivity].
  - intros [_ Hop]%guarded_ok. apply inserted in Hop. cbn in Hop. rewrite Hop. split; [by eexists|reflexivity].
  - intros [_ Hop]%guarded_ok. apply recorded in Hop. cbn in Hop. rewrite Hop. split; [by eexists|reflexivity].
  - intros [_ Hop]%guarded_ok. apply recorded in Hop. cbn in Hop. rewrite Hop. split; [by eexists|reflexivity].
  - intros [_ Hop]%guarded_ok. unfold Picodata.insert_record in Hop. case_bool_decide; [done|]. injection Hop as <- <-. cbn.
    rewrite lookup_insert_eq. split; [by eexists|reflexivity].
Qed.

(** A row written before the version and token columns existed. *)
Example old_row : reads_back (Some [("id", CUuid 7); ("queue", CText "default"); ("name", CText "mail"); ("schema_version", CNull);
    ("payload", CText "x"); ("attempts", CInt 2); ("reserved_at", CTime 5); ("lease_token", CNull); ("available_at", CTime 1);
    ("created_at", CTime 1)]) picodata_select_job picodata_scanJob
  = Some (mkJob 7 "default" "mail" 1 "x" 2 (Some 5) LeaseTokenNil None 1 1).
Proof. reflexivity. Qed.

Definition one_row : Db := (DbSql.CreateJobVersioned Sqlite.ts 1 5 "mail" 1 "x" 5 empty_db).2.

Lemma rows_read_back_witness :
  reads_back (sqlite_insert_job 2 5 "mail" 1 "y" 7) (Col <$> Statements.jobColumns) sqlite_scanJob
  = jobs_t (DbSql.CreateJobVersioned Sqlite.ts 2 5 "mail" 1 "y" 7 one_row).2 !! 2%N.
Proof.
  refine (proj2 (proj1 (rows_read_back Sqlite.ts 2 5 "mail" 1 "y" "" 7 1 2 one_row _) _)).
  vm_compute. reflexivity.
Defined.
