(* ===== verification/PicodataMigrator.v ===== *)
(** * The Picodata migrator

    backends/picodata/migrator/migrator.go: reading migration files, splitting
    them into statements, and applying or rolling them back with the versions
    recorded in a table.  There are no transactions: a migration is its
    statements one after the other and then its record.

    The database is modelled by what the migrator sees of it: the table of
    versions, and a log of the statements of migration files with the answer of
    each attempt.  Every call may fail, before or after it took effect
    ([Fault]).  Statements of migration files leave the table of versions
    alone, and nobody else writes it during a run. *)

From S2P Require Import Prelude GoTime Errors Transactions Json GoStrings.
Open Scope Z_scope.

Module Migrator.

Definition upMarker : string := "-- pico.UP".
Definition downMarker : string := "-- pico.DOWN".
Definition defaultMigrationsTableName : string := "picodata_db_version".
Definition ddlRetryAttempts : nat := 5.
Definition ddlRetryInitialDelay : Z := 100 * Millisecond.

Record Options : Type := mkOptions {
  command : string;
  directory : string;
  tableName : string;
  steps : Z;
  args : list string;
  databaseTableReplacesList : list (string * string)   (* in the order the map is iterated *)
}.

Definition newDefaultOptions (directory : string) : Options :=
  mkOptions "status" directory defaultMigrationsTableName 1 [] [].

Definition WithCommand (c : string) (o : Options) : Options :=
  mkOptions c (directory o) (tableName o) (steps o) (args o) (databaseTableReplacesList o).
Definition WithDirectory (d : string) (o : Options) : Options :=
  mkOptions (command o) d (tableName o) (steps o) (args o) (databaseTableReplacesList o).
Definition WithTableName (t : string) (o : Options) : Options :=
  mkOptions (command o) (directory o) t (steps o) (args o) (databaseTableReplacesList o).
Definition WithArgs (a : list string) (o : Options) : Options :=
  mkOptions (command o) (directory o) (tableName o) (steps o) a (databaseTableReplacesList o).
Definition WithSteps (n : Z) (o : Options) : Options :=
  mkOptions (command o) (directory o) (tableName o) n (args o) (databaseTableReplacesList o).
Definition WithDatabaseTableReplacesList (l : list (string * string)) (o : Options) : Options :=
  mkOptions (command o) (directory o) (tableName o) (steps o) (args o) l.

Record migrationFile : Type := { m_name : string; m_version : Z; m_up : string; m_down : string }.

Record appliedMigration : Type := mkApplied { a_name : string; a_applied : bool; a_appliedAt : Z }.

(** ** Files *)

(** An entry of the migrations directory. *)
Record Entry : Type := { e_name : string; e_dir : bool; e_content : result string }.

Definition parseMigrationVersion (name : string) : result Z :=
  match ParseInt (before_underscore (without_ext name)) with
  | Some version => Ok version
  | None => Err (EText "parse version")
  end.

(** [None] is a panic: the up section would end before it starts. *)
Definition parseMigration (name : string) (version : Z) (content : string) : option (result migrationFile) :=
  match Index content upMarker with
  | None => Some (Err (EText "missing '-- pico.UP' marker"))
  | Some upIdx =>
      let from := (upIdx + String.length upMarker)%nat in
      let finish upSQL downSQL :=
        Some (if String.eqb upSQL "" then Err (EText "empty up migration section")
              else Ok {| m_name := name; m_version := version; m_up := upSQL; m_down := downSQL |}) in
      match Index content downMarker with
      | None => finish (TrimSpace (slice_from from content)) ""
      | Some downIdx =>
          if (downIdx <? from)%nat then None
          else finish (TrimSpace (slice from downIdx content))
                      (TrimSpace (slice_from (downIdx + String.length downMarker) content))
      end
  end.

Definition migration_less : migrationFile → migrationFile → bool :=
  lex_by Z.eqb Z.ltb m_version (by_key String.ltb m_name).

(** [for currTable, newTable := range databaseTableReplaces]. *)
Definition replace_tables (replaces : list (string * string)) (content : string) : string :=
  fold_left (λ s p, ReplaceAll s p.1 p.2) replaces content.

(** The loop over the entries, skipping what is not a migration. *)
Fixpoint read_entries (replaces : list (string * string)) (entries : list Entry) : option (result (list migrationFile)) :=
  match entries with
  | [] => Some (Ok [])
  | e :: entries =>
      if e_dir e || negb (HasSuffix (e_name e) ".sql") then read_entries replaces entries
      else match parseMigrationVersion (e_name e) with
           | Err x => Some (Err (wrapf "parse migration name" x))
           | Ok version =>
               match e_content e with
               | Err x => Some (Err (wrapf "read file" x))
               | Ok content =>
                   match parseMigration (e_name e) version (replace_tables replaces content) with
                   | None => None
                   | Some (Err x) => Some (Err (wrapf "parse migration" x))
                   | Some (Ok mig) =>
                       match read_entries replaces entries with
                       | Some (Ok migs) => Some (Ok (mig :: migs))
                       | other => other
                       end
                   end
               end
           end
  end.

Definition readMigrationsFromFS (fsys : string → result (list Entry)) (directory : string)
    (replaces : list (string * string)) : option (result (list migrationFile)) :=
  let dir := if String.eqb (TrimSpace directory) "" then "." else TrimSpace directory in
  match fsys dir with
  | Err e => Some (Err (wrapf "read dir" e))
  | Ok entries =>
      match read_entries replaces entries with
      | Some (Ok migs) => Some (Ok (sort_slice migration_less migs))
      | other => other
      end
  end.

(** [os.DirFS(filepath.Clean(directory))] is a parameter. *)
Definition readMigrations (DirFS : string → string → result (list Entry)) (directory : string)
    (replaces : list (string * string)) : option (result (list migrationFile)) :=
  readMigrationsFromFS (DirFS directory) "." replaces.

(** The bytes of a name: a byte outside ASCII belongs to a rune that is not
    allowed.  [first] is whether it is the first one. *)
Fixpoint table_name_ok (first : bool) (s : string) : bool :=
  match s with
  | EmptyString => true
  | String a rest =>
      (Ascii.eqb a (byte 95) || is_lower a || is_upper a || is_digit a && negb first) && table_name_ok false rest
  end.

Definition sanitizeTableName (tableName : string) : result string :=
  let name := TrimSpace tableName in
  let name := if String.eqb name "" then defaultMigrationsTableName else name in
  if table_name_ok true name then Ok name else Err (EText "invalid table name").

(** Lines are collected until one ends in a semicolon. *)
Fixpoint split_from (builder : string) (lines : list string) : list string :=
  match lines with
  | [] => if String.eqb (TrimSpace builder) "" then [] else [TrimSpace builder]
  | line :: lines =>
      let builder := builder +:+ line +:+ String newline "" in
      if HasSuffix (TrimSpace line) ";"
      then (if String.eqb (TrimSpace builder) "" then [] else [TrimSpace builder]) ++ split_from "" lines
      else split_from builder lines
  end.

Definition splitStatements (sql : string) : result (list string) :=
  lines ← scan_lines sql; Ok (split_from "" lines).

(** ** The database *)

Record Pool : Type := mkPool {
  tick : nat;                                    (* calls made *)
  versions : option (gmap Z appliedMigration);   (* the table of versions, once created *)
  attempts : list (string * option err);         (* statements of migration files and their answers *)
  waited : Z                                     (* time spent between attempts *)
}.

Record DbEnv : Type := {
  fault : nat → option Fault;     (* failures of the driver, by call *)
  done : nat → option err;        (* the wait before a call found the context done *)
  clock : nat → Z
}.

Section migrator.
Context (E : DbEnv).

Definition next (w : Pool) : Pool := mkPool (S (tick w)) (versions w) (attempts w) (waited w).
Definition set_versions (t : option (gmap Z appliedMigration)) (w : Pool) : Pool :=
  mkPool (tick w) t (attempts w) (waited w).

(** [picoPool.Pool().Exec] of a statement on the table of versions, [Err] when
    the statement itself is refused. *)
Definition exec_on_versions (f : option (gmap Z appliedMigration) → result (gmap Z appliedMigration)) (w : Pool) :
    option err * Pool :=
  match fault E (tick w), f (versions w) with
  | Some x, Ok t => (Some (fault_err x), next (if fault_applied x then set_versions (Some t) w else w))
  | Some x, Err _ => (Some (fault_err x), next w)
  | None, Ok t => (None, next (set_versions (Some t) w))
  | None, Err e => (Some e, next w)
  end.

(** [Exec] of a statement of a migration file. *)
Definition exec_statement (stmt : string) (w : Pool) : option err * Pool :=
  let answer := option_map fault_err (fault E (tick w)) in
  (answer, mkPool (S (tick w)) (versions w) (attempts w ++ [(stmt, answer)]) (waited w)).

Definition isRetryableIdempotentDDL (statement : string) (e : err) : bool :=
  Contains (Error e) "RaftLogCompacted"
  && (let normalized := ToUpper (TrimSpace statement) in
      HasPrefix normalized "CREATE TABLE IF NOT EXISTS" || HasPrefix normalized "DROP TABLE IF EXISTS").

(** [for attempt := 1; ; attempt++]: [more] attempts may follow this one. *)
Fixpoint retry_exec (statement : string) (exec : Pool → option err * Pool) (more : nat) (delay : Z) (w : Pool) :
    option err * Pool :=
  match exec w with
  | (None, w') => (None, w')
  | (Some e, w') =>
      match more with
      | O => (Some e, w')
      | S more =>
          if isRetryableIdempotentDDL statement e
          then match done E (tick w') with
               | Some cancelled => (Some cancelled, w')
               | None => retry_exec statement exec more (delay * 2)
                           (mkPool (tick w') (versions w') (attempts w') (waited w' + delay))
               end
          else (Some e, w')
      end
  end.

Definition execMigrationStatement (statement : string) (exec : Pool → option err * Pool) : Pool → option err * Pool :=
  retry_exec statement exec (ddlRetryAttempts - 1) ddlRetryInitialDelay.

(** [CREATE TABLE IF NOT EXISTS]. *)
Definition ensureMigrationsTable (w : Pool) : option err * Pool :=
  match execMigrationStatement "CREATE TABLE IF NOT EXISTS" (exec_on_versions (λ t, Ok (default ∅ t))) w with
  | (Some e, w') => (Some (wrapf "create migrations table" e), w')
  | (None, w') => (None, w')
  end.

Definition loadAppliedMigrations (w : Pool) : result (gmap Z appliedMigration) * Pool :=
  match fault E (tick w), versions w with
  | Some x, _ => (Err (wrapf "query applied migrations" (fault_err x)), next w)
  | None, None => (Err (wrapf "query applied migrations" (EText "table does not exist")), next w)
  | None, Some t => (Ok t, next w)
  end.

Definition recordMigrationState (migration : migrationFile) (applied : bool) (w : Pool) : result Z * Pool :=
  let appliedAt := clock E (tick w) in
  if applied
  then match exec_on_versions (λ t, match t with
                | None => Err (EText "table does not exist")
                | Some t => match t !! m_version migration with
                            | Some _ => Err (EText "duplicate key in unique index")
                            | None => Ok (<[m_version migration := mkApplied (m_name migration) true appliedAt]> t)
                            end
                end) w with
       | (Some e, w') => (Err (wrapf "store migration state" e), w')
       | (None, w') => (Ok appliedAt, w')
       end
  else match exec_on_versions (λ t, match t with
                | None => Err (EText "table does not exist")
                | Some t => Ok (delete (m_version migration) t)
                end) w with
       | (Some e, w') => (Err (wrapf "delete migration state" e), w')
       | (None, w') => (Ok appliedAt, w')
       end.

(** ** Planning *)

Definition findMaxAppliedVersion (applied : gmap Z appliedMigration) : Z :=
  map_fold (λ version m maxVersion, if a_applied m && (maxVersion <? version) then version else maxVersion) (-1) applied.

Definition is_applied (applied : gmap Z appliedMigration) (version : Z) : bool :=
  match applied !! version with Some s => a_applied s | None => false end.

Definition assumed (maxAppliedVersion : Z) (m : migrationFile) : bool :=
  (0 <=? maxAppliedVersion) && (m_version m <=? maxAppliedVersion).

Fixpoint countAppliedWithAssumptions (migrations : list migrationFile) (applied : gmap Z appliedMigration)
    (maxAppliedVersion : Z) : Z :=
  match migrations with
  | [] => 0
  | m :: migrations =>
      (match applied !! m_version m with
       | Some s => if a_applied s then 1 else 0
       | None => if assumed maxAppliedVersion m then 1 else 0
       end) + countAppliedWithAssumptions migrations applied maxAppliedVersion
  end.

Definition alreadyAppliedByName (applied : gmap Z appliedMigration) (name : string) : bool :=
  bool_decide (map_Exists (λ _ s, a_applied s = true ∧ a_name s = name) applied).

(** ** Status *)

Inductive State : Type := pending_state | applied_state | rolled_back | assumed_applied.

(** What is logged of a migration, and of a version without a file. *)
Definition printMigrationsStatus (migrations : list migrationFile) (applied : gmap Z appliedMigration)
    (maxAppliedVersion : Z) : list (string * Z * State * bool * Z) * gmap Z appliedMigration :=
  ((λ m, (m_name m, m_version m,
          match applied !! m_version m with
          | Some s => if a_applied s then applied_state else rolled_back
          | None => if m_version m <=? maxAppliedVersion then assumed_applied else pending_state
          end,
          negb (String.eqb (TrimSpace (m_down m)) ""),
          match applied !! m_version m with Some s => a_appliedAt s | None => zeroTime end)) <$> migrations,
   filter (λ p, p.1 ∉ m_version <$> migrations) applied).

(** ** Commands *)

Fixpoint exec_all (stmts : list string) (w : Pool) : option err * Pool :=
  match stmts with
  | [] => (None, w)
  | stmt :: stmts =>
      match execMigrationStatement stmt (exec_statement stmt) w with
      | (None, w') => exec_all stmts w'
      | failed => failed
      end
  end.

Fixpoint applyMigrations (migrations : list migrationFile) (applied : gmap Z appliedMigration)
    (maxAppliedVersion : Z) (w : Pool) : option err * Pool :=
  match migrations with
  | [] => (None, w)
  | m :: migrations =>
      if is_applied applied (m_version m) || alreadyAppliedByName applied (m_name m) || assumed maxAppliedVersion m
      then applyMigrations migrations applied maxAppliedVersion w
      else match splitStatements (m_up m) with
           | Err e => (Some (wrapf "split statements" e), w)
           | Ok [] => applyMigrations migrations applied maxAppliedVersion w
           | Ok stmts =>
               match exec_all stmts w with
               | (Some e, w') => (Some (wrapf "exec statement" e), w')
               | (None, w') =>
                   match recordMigrationState m true w' with
                   | (Err e, w'') => (Some e, w'')
                   | (Ok appliedAt, w'') =>
                       applyMigrations migrations (<[m_version m := mkApplied (m_name m) true appliedAt]> applied)
                         maxAppliedVersion w''
                   end
               end
           end
  end.

(** The loop of [rollbackMigrations] over the migrations, last one first. *)
Fixpoint rollback_from (migrations : list migrationFile) (applied : gmap Z appliedMigration)
    (maxAppliedVersion steps : Z) (w : Pool) : option err * Pool :=
  match migrations with
  | [] => (None, w)
  | m :: migrations =>
      if steps <=? 0 then (None, w)
      else
        let shouldRollback :=
          match applied !! m_version m with Some s => a_applied s | None => assumed maxAppliedVersion m end in
        if negb shouldRollback || String.eqb (TrimSpace (m_down m)) ""
        then rollback_from migrations applied maxAppliedVersion steps w
        else match splitStatements (m_down m) with
             | Err e => (Some (wrapf "split down statements" e), w)
             | Ok [] => rollback_from migrations applied maxAppliedVersion steps w
             | Ok stmts =>
                 match exec_all stmts w with
                 | (Some e, w') => (Some (wrapf "exec rollback statement" e), w')
                 | (None, w') =>
                     match recordMigrationState m false w' with
                     | (Err e, w'') => (Some e, w'')
                     | (Ok _, w'') =>
                         rollback_from migrations (delete (m_version m) applied) maxAppliedVersion (steps - 1) w''
                     end
                 end
             end
  end.

Definition rollbackMigrations (migrations : list migrationFile) (applied : gmap Z appliedMigration)
    (maxAppliedVersion steps : Z) (w : Pool) : option err * Pool :=
  rollback_from (rev migrations) applied maxAppliedVersion steps w.

(** [Run] and [RunEmbedded] after the files were read; [None] is a panic. *)
Definition run_migrations (loading : string) (read : option (result (list migrationFile))) (o : Options) (w : Pool) :
    option (option err * Pool) :=
  match read with
  | None => None
  | Some (Err e) => Some (Some (wrapf loading e), w)
  | Some (Ok migrations) =>
      Some (match sanitizeTableName (tableName o) with
            | Err e => (Some (wrapf "table name" e), w)
            | Ok _ =>
                match ensureMigrationsTable w with
                | (Some e, w) => (Some (wrapf "ensure migrations table" e), w)
                | (None, w) =>
                    match loadAppliedMigrations w with
                    | (Err e, w) => (Some (wrapf "load applied migrations" e), w)
                    | (Ok applied, w) =>
                        let maxAppliedVersion := findMaxAppliedVersion applied in
                        let cmd := ToLower (command o) in
                        if String.eqb cmd "status" then (None, w)
                        else if String.eqb cmd "up" then applyMigrations migrations applied maxAppliedVersion w
                        else if String.eqb cmd "down"
                        then rollbackMigrations migrations applied maxAppliedVersion (steps o) w
                        else if String.eqb cmd "reset"
                        then rollbackMigrations migrations applied maxAppliedVersion
                               (countAppliedWithAssumptions migrations applied maxAppliedVersion) w
                        else (Some (EText "unsupported command"), w)
                    end
                end
            end)
  end.

Definition Run (DirFS : string → string → result (list Entry)) (opts : list (Options → Options)) :
    Pool → option (option err * Pool) :=
  let options := fold_left (λ o f, f o) opts (newDefaultOptions "migrations") in
  run_migrations "load migrations" (readMigrations DirFS (directory options) (databaseTableReplacesList options)) options.

(** The embedded files are a parameter. *)
Definition RunEmbedded (FS : string → result (list Entry)) (opts : list (Options → Options)) :
    Pool → option (option err * Pool) :=
  let options := fold_left (λ o f, f o) opts (newDefaultOptions ".") in
  run_migrations "load embedded migrations"
    (readMigrationsFromFS FS (directory options) (databaseTableReplacesList options)) options.
End migrator.

(** ** Reading files *)

(** The only files that make the migrator panic: the down marker comes before
    the end of the up marker. *)
Lemma parseMigration_panics name version content : parseMigration name version content = None ↔
  ∃ upIdx downIdx, Index content upMarker = Some upIdx ∧ Index content downMarker = Some downIdx
    ∧ (downIdx < upIdx + 10)%nat.
Proof.
  unfold parseMigration. destruct (Index content upMarker) as [u|]; [|naive_solver].
  destruct (Index content downMarker) as [dn|]; [|naive_solver]. change (String.length upMarker) with 10%nat.
  destruct (Nat.ltb_spec dn (u + 10)); naive_solver lia.
Qed.

(** Migrations come in order of version, and of name within a version. *)
Lemma readMigrations_sorted fsys dir replaces ms : readMigrationsFromFS fsys dir replaces = Some (Ok ms) →
  StronglySorted (not_after migration_less) ms.
Proof.
  unfold readMigrationsFromFS. destruct (fsys _); [|done]. destruct (read_entries _ _) as [[|]|]; try done.
  intros [= <-]. apply sort_slice_sorted. unfold migration_less. apply _.
Qed.

(** ** One statement *)

Section statements.
Context (E : DbEnv).

(** The statements of a migration file that were executed, in order. *)
Definition succeeded (w : Pool) : list string := (filter (λ p, p.2 = None) (attempts w)).*1.

Lemma succeeded_exec stmt w r w' : exec_statement E stmt w = (r, w') →
  versions w' = versions w ∧ succeeded w' = succeeded w ++ (if r then [] else [stmt]).
Proof.
  intros [= <- <-]. split; [done|]. unfold succeeded. cbn. rewrite filter_app, fmap_app. f_equal.
  by destruct (fault E (tick w)).
Qed.

(** What the retries of a statement do, with [more] of them allowed. *)
Lemma retry_exec_spec stmt more delay w r w' : 0 ≤ delay →
  retry_exec E stmt (exec_statement E stmt) more delay w = (r, w') →
  ∃ errs final,
    attempts w' = attempts w ++ ((λ e, (stmt, Some e)) <$> errs) ++ [(stmt, final)]
    ∧ (length errs ≤ more)%nat ∧ Forall (λ e, isRetryableIdempotentDDL stmt e = true) errs
    ∧ (r = None ↔ final = None) ∧ versions w' = versions w
    ∧ waited w ≤ waited w' ≤ waited w + delay * (2 ^ Z.of_nat more - 1).
Proof.
  revert delay w. induction more as [|more IH]; intros delay w Hd; cbn [retry_exec].
  - unfold exec_statement. destruct (fault E (tick w)) as [x|]; intros [= <- <-]; exists [];
      eexists; cbn; split_and!; try done; lia.
  - rewrite Nat2Z.inj_succ, Z.pow_succ_r by lia. pose proof (Z.pow_pos_nonneg 2 (Z.of_nat more)) as Hpow.
    unfold exec_statement at 1. destruct (fault E (tick w)) as [x|]; cbn.
    2: { intros [= <- <-]. exists [], None. cbn. split_and!; try done; [lia|nia]. }
    destruct (isRetryableIdempotentDDL stmt (fault_err x)) eqn:Hretry.
    2: { intros [= <- <-]. exists [], (Some (fault_err x)). cbn. split_and!; try done; [lia|nia]. }
    destruct (done E _) as [c|].
    { intros [= <- <-]. exists [], (Some (fault_err x)). cbn. split_and!; try done; [lia|nia]. }
    intros (errs & final & Ha & Hlen & Hall & Hr & Hv & Hw)%IH; [|lia]. cbn in Ha, Hv, Hw.
    exists (fault_err x :: errs), final. rewrite Ha, Hv. cbn. split_and!; try done; [|lia|by constructor|nia|nia].
    by rewrite <- app_assoc.
Qed.

Lemma exec_retried stmt w r w' : execMigrationStatement E stmt (exec_statement E stmt) w = (r, w') →
  versions w' = versions w ∧ succeeded w' = succeeded w ++ (if r then [] else [stmt]).
Proof.
  intros (errs & final & Ha & _ & _ & Hr & Hv & _)%retry_exec_spec; [|done]. split; [done|].
  unfold succeeded. rewrite Ha, filter_app, fmap_app. f_equal. rewrite filter_app, fmap_app.
  assert (filter (λ p : string * option err, p.2 = None) ((λ e, (stmt, Some e)) <$> errs) = []) as ->
    by (clear; induction errs; [done|by rewrite fmap_cons, filter_cons_False]).
  destruct r as [e|], final as [e'|]; cbn; naive_solver.
Qed.

Lemma exec_all_spec stmts w r w' : exec_all E stmts w = (r, w') →
  versions w' = versions w ∧ ∃ l, l `prefix_of` stmts ∧ succeeded w' = succeeded w ++ l ∧ (r = None → l = stmts).
Proof.
  revert w. induction stmts as [|s stmts IH]; intros w; cbn [exec_all].
  { intros [= <- <-]. split; [done|]. exists []. by rewrite app_nil_r. }
  destruct (execMigrationStatement _ _ _ _) as [[e|] w1] eqn:Hs; apply exec_retried in Hs as [Hv Hs].
  - intros [= <- <-]. split; [done|]. exists []. split_and!; [apply prefix_nil|done|done].
  - intros [Hv' (l & Hl & Hs' & Hr)]%IH. split; [congruence|]. exists (s :: l). split_and!.
    + by apply prefix_cons.
    + by rewrite Hs', Hs, <- app_assoc.
    + intros ?. by rewrite Hr.
Qed.
End statements.

(** ** Applying *)

Definition statements (sql : string) : list string :=
  match splitStatements sql with Ok l => l | Err _ => [] end.

(** Neither recorded, nor recorded under another version, nor assumed. *)
Definition pending (applied : gmap Z appliedMigration) (maxAppliedVersion : Z) (m : migrationFile) : bool :=
  negb (is_applied applied (m_version m) || alreadyAppliedByName applied (m_name m) || assumed maxAppliedVersion m).

(** The migrations an up command has work for. *)
Definition to_apply (applied : gmap Z appliedMigration) (maxAppliedVersion : Z) (ms : list migrationFile) :
    list migrationFile :=
  filter (λ m, pending applied maxAppliedVersion m = true ∧ statements (m_up m) ≠ []) ms.

(** [t'] is [t] with a record for each of the migrations, none of which had a
    row before. *)
Inductive recorded : gmap Z appliedMigration → list migrationFile → gmap Z appliedMigration → Prop :=
| recorded_nil t : recorded t [] t
| recorded_cons t m at_ ms t' : t !! m_version m = None →
    recorded (<[m_version m := mkApplied (m_name m) true at_]> t) ms t' → recorded t (m :: ms) t'.

Lemma recorded_keeps t ms t' : recorded t ms t' → t ⊆ t'.
Proof.
  induction 1 as [|t m at_ ms t' Hn Hr IH]; [done|]. etrans; [|exact IH]. by apply insert_subseteq.
Qed.

Lemma recorded_row t ms t' m : recorded t ms t' → m ∈ ms → ∃ at_, t' !! m_version m = Some (mkApplied (m_name m) true at_).
Proof.
  induction 1 as [|t x at_ ms t' Hn Hr IH]; [set_solver|]. intros [->|Hm]%elem_of_cons; [|by apply IH].
  exists at_. eapply lookup_weaken; [|by eapply recorded_keeps]. by rewrite lookup_insert_eq.
Qed.

(** A record of another migration does not matter. *)
Lemma pending_insert applied mx m x at_ : applied !! m_version x = None → m_version m ≠ m_version x →
  m_name m ≠ m_name x → pending (<[m_version x := mkApplied (m_name x) true at_]> applied) mx m = pending applied mx m.
Proof.
  intros Hn Hv Hname. unfold pending, is_applied, alreadyAppliedByName. rewrite lookup_insert_ne by done. do 3 f_equal.
  apply bool_decide_ext. rewrite map_Exists_insert by done. cbn. naive_solver.
Qed.

Lemma to_apply_insert applied mx ms x at_ : applied !! m_version x = None → m_version x ∉ m_version <$> ms →
  m_name x ∉ m_name <$> ms →
  to_apply (<[m_version x := mkApplied (m_name x) true at_]> applied) mx ms = to_apply applied mx ms.
Proof.
  intros Hn Hv Hname. unfold to_apply. apply filter_agree. intros m Hm.
  rewrite pending_insert; [done|done|..]; intros Heq; [apply Hv|apply Hname]; rewrite <- Heq; by apply list_elem_of_fmap_2.
Qed.

Section apply.
Context (E : DbEnv).

(** The record of an applied migration: on the next call it is there, or the
    error was reported; when the driver failed it may be there or not. *)
Lemma record_applied m w t r w' : versions w = Some t → recordMigrationState E m true w = (r, w') →
  succeeded w' = succeeded w
  ∧ match r with
    | Ok at_ => t !! m_version m = None ∧ versions w' = Some (<[m_version m := mkApplied (m_name m) true at_]> t)
    | Err _ => versions w' = Some t
               ∨ t !! m_version m = None ∧ ∃ at_, versions w' = Some (<[m_version m := mkApplied (m_name m) true at_]> t)
    end.
Proof.
  intros Hw. unfold recordMigrationState, exec_on_versions. rewrite Hw. destruct (fault E (tick w)) as [x|].
  - destruct (t !! m_version m) eqn:Ht; [intros [= <- <-]; by auto|].
    intros [= <- <-]. destruct (fault_applied x); split; eauto.
  - destruct (t !! m_version m) eqn:Ht; intros [= <- <-]; by auto.
Qed.

(** What an interrupted run left of the first migration it did not record. *)
Definition started (todo : list migrationFile) (l : list string) : Prop :=
  match todo with [] => l = [] | m :: _ => l `prefix_of` statements (m_up m) end.

Lemma up_loop_spec ms applied mx w r w' : versions w = Some applied →
  NoDup (m_version <$> ms) → NoDup (m_name <$> ms) → applyMigrations E ms applied mx w = (r, w') →
  ∃ finished todo l t', to_apply applied mx ms = finished ++ todo ∧ versions w' = Some t' ∧ recorded applied finished t'
    ∧ succeeded w' = succeeded w ++ flat_map (λ m, statements (m_up m)) finished ++ l ∧ started todo l
    ∧ (r = None → todo = [] ∧ ∀ m, m ∈ ms → pending applied mx m = true → is_Ok (splitStatements (m_up m)) = true).
Proof.
  revert applied w. induction ms as [|m ms IH]; intros applied w Hw Hv Hn; cbn [applyMigrations].
  { intros [= <- <-]. exists [], [], [], applied. cbn. rewrite app_nil_r. split_and!; [done|done|apply recorded_nil|done|done|].
    intros _. split; [done|]. set_solver. }
  apply NoDup_cons in Hv as [Hmv Hv], Hn as [Hmn Hn].
  destruct (pending applied mx m) eqn:Hp; unfold pending in Hp;
    [apply negb_true_iff in Hp|apply negb_false_iff in Hp]; rewrite Hp.
  2: { intros (fin & todo & l & t' & Ht & H1 & H2 & H3 & H4 & H5)%IH; [|done..]. exists fin, todo, l, t'.
       split_and!; [|done..|].
       - unfold to_apply. rewrite filter_cons_False; [exact Ht|]. intros [Hx _]. unfold pending in Hx. by rewrite Hp in Hx.
       - intros Hr. destruct (H5 Hr) as [? Hok]. split; [done|]. intros x [->|Hx]%elem_of_cons; [|by apply Hok].
         unfold pending. by rewrite Hp. }
  assert (pending applied mx m = true) as Hpend by (unfold pending; by rewrite Hp).
  destruct (splitStatements (m_up m)) as [[|s stmts]|e] eqn:Hsplit.
  - intros (fin & todo & l & t' & Ht & H1 & H2 & H3 & H4 & H5)%IH; [|done..]. exists fin, todo, l, t'.
    split_and!; [|done..|].
    + unfold to_apply. rewrite filter_cons_False; [exact Ht|]. unfold statements. rewrite Hsplit. naive_solver.
    + intros Hr. destruct (H5 Hr) as [? Hok]. split; [done|]. intros x [->|Hx]%elem_of_cons; [|by apply Hok].
      by rewrite Hsplit.
  - set (stmts' := s :: stmts) in *.
    assert (to_apply applied mx (m :: ms) = m :: to_apply applied mx ms) as Hto.
    { unfold to_apply. rewrite filter_cons_True; [done|]. unfold statements. by rewrite Hsplit. }
    assert (statements (m_up m) = stmts') as Hst by (unfold statements; by rewrite Hsplit). rewrite Hto.
    destruct (exec_all E stmts' w) as [[e|] w1] eqn:Hexec; apply exec_all_spec in Hexec as [Hv1 (l & Hl & Hs & Hfull)].
    { intros [= <- <-]. exists [], (m :: to_apply applied mx ms), l, applied. cbn. rewrite Hst.
      split_and!; [done|congruence|apply recorded_nil|done|done|done]. }
    rewrite (Hfull eq_refl) in Hs. clear l Hl Hfull.
    assert (versions w1 = Some applied) as Hw1 by congruence.
    destruct (recordMigrationState E m true w1) as [[at_|e] w2] eqn:Hrec;
      apply (record_applied m w1 applied _ _ Hw1) in Hrec as [Hs2 Hrec].
    + destruct Hrec as [Hnone Hv2]. intros (fin & todo & l & t' & Ht & H1 & H2 & H3 & H4 & H5)%IH; [|done..].
      rewrite to_apply_insert in Ht by done. exists (m :: fin), todo, l, t'. split_and!; [by rewrite Ht|done| | |done|].
      * by econstructor.
      * rewrite H3, Hs2, Hs. cbn. by rewrite Hst, <- !app_assoc.
      * intros Hr. destruct (H5 Hr) as [? Hok]. split; [done|]. intros x [->|Hx]%elem_of_cons; [by rewrite Hsplit|].
        intros Hpx. apply Hok; [done|]. rewrite pending_insert; [done|done|..]; intros Heq; [apply Hmv|apply Hmn];
          rewrite <- Heq; by apply list_elem_of_fmap_2.
    + intros [= <- <-]. destruct Hrec as [Hv2|(Hnone & at_ & Hv2)].
      * exists [], (m :: to_apply applied mx ms), stmts', applied. cbn. rewrite Hst, Hs2, Hs.
        split_and!; [done|done|apply recorded_nil|done|done|done].
      * exists [m], (to_apply applied mx ms), [], (<[m_version m := mkApplied (m_name m) true at_]> applied).
        cbn. rewrite Hst, Hs2, Hs, !app_nil_r. split_and!; [done|done|by repeat econstructor|done| |done].
        destruct (to_apply applied mx ms); [done|apply prefix_nil].
  - intros [= <- <-]. exists [], (to_apply applied mx (m :: ms)), [], applied.
    split_and!; [done|done|apply recorded_nil|cbn; by rewrite app_nil_r| |done].
    destruct (to_apply applied mx (m :: ms)); [done|apply prefix_nil].
Qed.
(** With nothing pending that has statements, an up command does nothing. *)
Lemma apply_nothing ms applied mx w :
  (∀ m, m ∈ ms → pending applied mx m = true → splitStatements (m_up m) = Ok []) →
  applyMigrations E ms applied mx w = (None, w).
Proof.
  induction ms as [|m ms IH]; intros Hms; [done|]. cbn [applyMigrations].
  assert (applyMigrations E ms applied mx w = (None, w)) as Hrest by (apply IH; intros x Hx; apply Hms; by right).
  destruct (pending applied mx m) eqn:Hp.
  - rewrite (Hms m) by (done || by left). unfold pending in Hp. apply negb_true_iff in Hp. by rewrite Hp.
  - unfold pending in Hp. apply negb_false_iff in Hp. by rewrite Hp.
Qed.
End apply.

(** The newest applied version. *)
Lemma findMax_spec applied :
  (∀ v s, applied !! v = Some s → a_applied s = true → v ≤ findMaxAppliedVersion applied)
  ∧ (0 ≤ findMaxAppliedVersion applied → is_applied applied (findMaxAppliedVersion applied) = true).
Proof.
  unfold findMaxAppliedVersion, is_applied.
  apply (map_fold_weak_ind (λ mx t, (∀ v s, t !! v = Some s → a_applied s = true → v ≤ mx)
    ∧ (0 ≤ mx → match t !! mx with Some s => a_applied s | None => false end = true))).
  - split; [by intros v s|lia].
  - intros v s t mx Hn [Hle Hmx]. destruct (a_applied s && (mx <? v)) eqn:Hc.
    + apply andb_true_iff in Hc as [Ha Hlt%Z.ltb_lt]. split; [|by rewrite lookup_insert_eq].
      intros v' s' [[<- <-]|[_ Hl]]%lookup_insert_Some Ha'; [lia|]. specialize (Hle v' s' Hl Ha'). lia.
    + split.
      * intros v' s' [[<- <-]|[_ Hl]]%lookup_insert_Some Ha'; [|by eapply Hle].
        rewrite Ha' in Hc. by apply Z.ltb_ge in Hc.
      * intros Hge. specialize (Hmx Hge). rewrite lookup_insert_ne; [done|]. intros ->. by rewrite Hn in Hmx.
Qed.

(** What is pending after more was recorded was pending before. *)
Lemma pending_anti t t' m : t ⊆ t' → pending t' (findMaxAppliedVersion t') m = true →
  pending t (findMaxAppliedVersion t) m = true.
Proof.
  intros Hsub. unfold pending. rewrite !negb_true_iff, !orb_false_iff. intros [[Ha Hn] Has].
  assert (∀ v, is_applied t v = true → is_applied t' v = true) as Hmono.
  { intros v. unfold is_applied. destruct (t !! v) as [s|] eqn:Hs; [|done]. by rewrite (lookup_weaken _ _ _ _ Hs Hsub). }
  split_and!.
  - apply not_true_iff_false. intros Hx%Hmono. congruence.
  - unfold alreadyAppliedByName in *. apply bool_decide_eq_false in Hn. apply bool_decide_eq_false.
    intros (v & s & Hs & Hx). apply Hn. exists v, s. split; [by eapply lookup_weaken|done].
  - unfold assumed in *. apply andb_false_iff in Has as [Has|Has]; apply andb_false_iff.
    + left. apply Z.leb_gt in Has. apply Z.leb_gt. apply Z.lt_nge. intros Hge.
      pose proof (Hmono _ (proj2 (findMax_spec t) Hge)) as Hx. unfold is_applied in Hx.
      destruct (t' !! findMaxAppliedVersion t) as [s|] eqn:Hs; [|done].
      pose proof (proj1 (findMax_spec t') _ _ Hs Hx). lia.
    + apply Z.leb_gt in Has. destruct (Z.leb_spec 0 (findMaxAppliedVersion t)) as [Hge|]; [right|by left].
      apply Z.leb_gt. pose proof (Hmono _ (proj2 (findMax_spec t) Hge)) as Hx. unfold is_applied in Hx.
      destruct (t' !! findMaxAppliedVersion t) as [s|] eqn:Hs; [|done].
      pose proof (proj1 (findMax_spec t') _ _ Hs Hx). lia.
Qed.

(** After a complete up command nothing is left to do. *)
Lemma apply_complete t ms finished t' m : recorded t finished t' → to_apply t (findMaxAppliedVersion t) ms = finished →
  m ∈ ms → pending t' (findMaxAppliedVersion t') m = true → statements (m_up m) = [].
Proof.
  intros Hrec Hto Hm Hp. pose proof (recorded_keeps _ _ _ Hrec) as Hsub.
  destruct (decide (statements (m_up m) = [])) as [|Hne]; [done|]. exfalso.
  assert (m ∈ finished) as Hin.
  { rewrite <- Hto. apply list_elem_of_filter. split; [|done]. split; [by eapply pending_anti|done]. }
  destruct (recorded_row _ _ _ _ Hrec Hin) as [at_ Hrow]. unfold pending, is_applied in Hp. by rewrite Hrow in Hp.
Qed.


(** ** Rolling back *)

Definition rolls_back (applied : gmap Z appliedMigration) (mx : Z) (m : migrationFile) : bool :=
  match applied !! m_version m with Some s => a_applied s | None => assumed mx m end.

(** The migrations of a list a rollback has work for. *)
Definition to_roll_back (applied : gmap Z appliedMigration) (mx : Z) (ms : list migrationFile) : list migrationFile :=
  filter (λ m, rolls_back applied mx m = true ∧ TrimSpace (m_down m) ≠ "" ∧ statements (m_down m) ≠ []) ms.

Definition forget_versions (ms : list migrationFile) (t : gmap Z appliedMigration) : gmap Z appliedMigration :=
  fold_left (λ t m, delete (m_version m) t) ms t.

Definition started_down (todo : list migrationFile) (l : list string) : Prop :=
  match todo with [] => l = [] | m :: _ => l `prefix_of` statements (m_down m) end.

Lemma started_down_nil todo : started_down todo [].
Proof. destruct todo; [done|apply prefix_nil]. Qed.

Lemma to_roll_back_delete applied mx ms v : v ∉ m_version <$> ms →
  to_roll_back (delete v applied) mx ms = to_roll_back applied mx ms.
Proof.
  intros Hv. apply filter_agree. intros m Hm. unfold rolls_back. rewrite lookup_delete_ne; [done|].
  intros ->. apply Hv. by apply list_elem_of_fmap_2.
Qed.

Section rollback.
Context (E : DbEnv).

Lemma record_rolled_back m w t r w' : versions w = Some t → recordMigrationState E m false w = (r, w') →
  succeeded w' = succeeded w
  ∧ match r with
    | Ok _ => versions w' = Some (delete (m_version m) t)
    | Err _ => versions w' = Some t ∨ versions w' = Some (delete (m_version m) t)
    end.
Proof.
  intros Hw. unfold recordMigrationState, exec_on_versions. rewrite Hw. destruct (fault E (tick w)) as [x|].
  - intros [= <- <-]. destruct (fault_applied x); split; auto.
  - intros [= <- <-]. by auto.
Qed.

Lemma rollback_spec ms applied mx n w r w' : versions w = Some applied → NoDup (m_version <$> ms) →
  rollback_from E ms applied mx n w = (r, w') →
  ∃ finished todo l, take (Z.to_nat n) (to_roll_back applied mx ms) = finished ++ todo
    ∧ versions w' = Some (forget_versions finished applied)
    ∧ succeeded w' = succeeded w ++ flat_map (λ m, statements (m_down m)) finished ++ l ∧ started_down todo l
    ∧ (r = None → todo = []).
Proof.
  revert applied n w. induction ms as [|m ms IH]; intros applied n w Hw Hnd; cbn [rollback_from].
  { intros [= <- <-]. exists [], [], []. cbn. rewrite take_nil, app_nil_r. done. }
  apply NoDup_cons in Hnd as [Hm Hnd].
  destruct (Z.leb_spec n 0) as [Hn|Hn].
  { intros [= <- <-]. exists [], [], []. rewrite Z2Nat.nonpos by done. cbn. by rewrite app_nil_r. }
  fold (rolls_back applied mx m).
  destruct (decide (rolls_back applied mx m = true ∧ TrimSpace (m_down m) ≠ "" ∧ statements (m_down m) ≠ [])) as [Hdo|Hdo].
  2: { (* skipped, or its down section cannot be split *)
       assert (to_roll_back applied mx (m :: ms) = to_roll_back applied mx ms) as Hto
         by (unfold to_roll_back; by rewrite filter_cons_False).
       rewrite Hto. destruct (negb (rolls_back applied mx m) || String.eqb (TrimSpace (m_down m)) "") eqn:Hskip.
       { by apply IH. }
       apply orb_false_iff in Hskip as [Hr%negb_false_iff Hb%String.eqb_neq].
       destruct (splitStatements (m_down m)) as [[|s stmts]|e] eqn:Hsplit.
       - by apply IH.
       - exfalso. apply Hdo. split_and!; [done|done|]. unfold statements. by rewrite Hsplit.
       - intros [= <- <-]. exists [], (take (Z.to_nat n) (to_roll_back applied mx ms)), [].
         split_and!; [done|done|cbn; by rewrite app_nil_r|apply started_down_nil|done]. }
  destruct Hdo as (Hr & Hb & Hst).
  assert (take (Z.to_nat n) (to_roll_back applied mx (m :: ms))
          = m :: take (Z.to_nat (n - 1)) (to_roll_back applied mx ms)) as ->.
  { unfold to_roll_back. rewrite filter_cons_True by done.
    replace (Z.to_nat n) with (S (Z.to_nat (n - 1))) by lia. done. }
  rewrite Hr, (proj2 (String.eqb_neq _ _) Hb). cbn [negb orb].
  unfold statements in Hst. destruct (splitStatements (m_down m)) as [[|s stmts]|e] eqn:Hsplit; [done| |done]. clear Hst.
  assert (statements (m_down m) = s :: stmts) as Hst by (unfold statements; by rewrite Hsplit).
  destruct (exec_all E (s :: stmts) w) as [[e|] w1] eqn:Hexec; apply exec_all_spec in Hexec as [Hv1 (l & Hl & Hs & Hfull)].
  { intros [= <- <-]. exists [], (m :: take (Z.to_nat (n - 1)) (to_roll_back applied mx ms)), l. cbn. rewrite Hst.
    split_and!; [done|congruence|done|done|done]. }
  rewrite (Hfull eq_refl) in Hs. clear l Hl Hfull. assert (versions w1 = Some applied) as Hw1 by congruence.
  destruct (recordMigrationState E m false w1) as [[at_|e] w2] eqn:Hrec;
    apply (record_rolled_back m w1 applied _ _ Hw1) in Hrec as [Hs2 Hrec].
  - intros (fin & todo & l & Ht & H1 & H2 & H3 & H4)%IH; [|done..]. rewrite to_roll_back_delete in Ht by done.
    exists (m :: fin), todo, l. split_and!; [by rewrite Ht|done| |done|done].
    rewrite H2, Hs2, Hs. cbn. by rewrite Hst, <- !app_assoc.
  - intros [= <- <-]. set (rest := take _ _). destruct Hrec as [Hv2|Hv2].
    + exists [], (m :: rest), (s :: stmts). cbn. rewrite Hst, Hs2, Hs. done.
    + exists [m], rest, []. cbn [flat_map]. rewrite Hst, Hs2, Hs, !app_nil_r.
      split_and!; [done|done|done|apply started_down_nil|done].
Qed.
End rollback.

(** ** Commands *)

Lemma retry_ensure E stmt more delay w r w' :
  retry_exec E stmt (exec_on_versions E (λ t, Ok (default ∅ t))) more delay w = (r, w') →
  succeeded w' = succeeded w ∧ default ∅ (versions w') = default ∅ (versions w) ∧ (r = None → is_Some (versions w'))
  ∧ (is_Some (versions w) → versions w' = versions w).
Proof.
  revert delay w. induction more as [|more IH]; intros delay w; cbn [retry_exec]; unfold exec_on_versions at 1;
    destruct (fault E (tick w)) as [x|].
  - intros [= <- <-]. destruct (fault_applied x); cbn; split_and!; try done. by intros [? ->].
  - intros [= <- <-]. cbn. split_and!; try done. by intros [? ->].
  - assert (∀ t, default ∅ (Some (default (∅ : gmap Z appliedMigration) t)) = default ∅ t) as Hd by done.
    destruct (isRetryableIdempotentDDL _ _).
    2: { intros [= <- <-]. destruct (fault_applied x); cbn; split_and!; try done. by intros [? ->]. }
    destruct (done E _).
    { intros [= <- <-]. destruct (fault_applied x); cbn; split_and!; try done. by intros [? ->]. }
    intros (Hs & Hv & Hr & Hk)%IH. unfold succeeded in *. destruct (fault_applied x); cbn in *; split_and!; try done.
    intros [t Ht]. rewrite Hk, Ht by done. done.
  - intros [= <- <-]. cbn. split_and!; try done. by intros [? ->].
Qed.

(** What happens before the command: the table of versions is there. *)
Lemma run_prepared E loading ms o w r w' : run_migrations E loading (Some (Ok ms)) o w = Some (r, w') →
  (succeeded w' = succeeded w ∧ default ∅ (versions w') = default ∅ (versions w) ∧ r ≠ None
   ∧ (is_Some (versions w) → versions w' = versions w))
  ∨ ∃ w1, succeeded w1 = succeeded w ∧ versions w1 = Some (default ∅ (versions w))
      ∧ (is_Some (versions w) → versions w1 = versions w)
      ∧ let t := default ∅ (versions w) in let mx := findMaxAppliedVersion t in
        (r, w') = if String.eqb (ToLower (command o)) "status" then (None, w1)
                  else if String.eqb (ToLower (command o)) "up" then applyMigrations E ms t mx w1
                  else if String.eqb (ToLower (command o)) "down" then rollbackMigrations E ms t mx (steps o) w1
                  else if String.eqb (ToLower (command o)) "reset"
                  then rollbackMigrations E ms t mx (countAppliedWithAssumptions ms t mx) w1
                  else (Some (EText "unsupported command"), w1).
Proof.
  unfold run_migrations. intros [= Hrun]. destruct (sanitizeTableName _) as [?|?]; [|injection Hrun as <- <-; by left].
  unfold ensureMigrationsTable in Hrun. destruct (execMigrationStatement _ _ _ _) as [[e|] w1] eqn:He;
    apply retry_ensure in He as (Hs & Hv & Hr & Hk).
  { injection Hrun as <- <-. by left. }
  destruct (Hr eq_refl) as [t Ht]. rewrite Ht in Hv. cbn in Hv. subst t. unfold loadAppliedMigrations in Hrun.
  rewrite Ht in Hrun. destruct (fault E (tick w1)) as [x|].
  { injection Hrun as <- <-. left. split_and!; [done|cbn; by rewrite Ht|done|done]. }
  right. exists (next w1). split_and!; [done|done|done|]. cbv zeta. by rewrite <- Hrun.
Qed.

(** C38: what an up command of the Picodata migrator does, however the database
    answers.  With distinct versions and names, the migrations it records are a
    prefix of the pending ones in file order, each after all its statements
    succeeded in order; nothing recorded is lost, and of the first migration it
    did not record at most a prefix was executed.  When the command reports
    success every pending migration is recorded, and running the command again,
    whatever the database then answers, executes no statement and leaves the
    records as they are. *)
Theorem up_applies_pending E loading ms o w r w' : ToLower (command o) = "up" →
  NoDup (m_version <$> ms) → NoDup (m_name <$> ms) →
  run_migrations E loading (Some (Ok ms)) o w = Some (r, w') →
  ∃ finished todo l, to_apply (default ∅ (versions w)) (findMaxAppliedVersion (default ∅ (versions w))) ms = finished ++ todo
    ∧ recorded (default ∅ (versions w)) finished (default ∅ (versions w'))
    ∧ succeeded w' = succeeded w ++ flat_map (λ m, statements (m_up m)) finished ++ l ∧ started todo l
    ∧ (r = None → todo = [] ∧ is_Some (versions w')
       ∧ ∀ E' w2 r2 w3, versions w2 = versions w' → run_migrations E' loading (Some (Ok ms)) o w2 = Some (r2, w3) →
           succeeded w3 = succeeded w2 ∧ versions w3 = versions w2).
Proof.
  intros Hcmd Hv Hn Hrun. apply run_prepared in Hrun as [(Hs & Hd & Hr & _)|(w1 & Hs & Hw1 & _ & Heq)].
  { exists [], (to_apply (default ∅ (versions w)) (findMaxAppliedVersion (default ∅ (versions w))) ms), [].
    rewrite Hd, Hs. split_and!; [done|apply recorded_nil|cbn; by rewrite app_nil_r| |done].
    destruct (to_apply _ _ _); [done|apply prefix_nil]. }
  rewrite Hcmd in Heq. cbn in Heq. symmetry in Heq. destruct (up_loop_spec E _ _ _ _ _ _ Hw1 Hv Hn Heq)
    as (fin & todo & l & t' & Hto & Hw' & Hrec & Hsucc & Hl & Hok).
  exists fin, todo, l. rewrite Hw', Hsucc, Hs. split_and!; [done..|]. intros Hr.
  destruct (Hok Hr) as [-> Hsplit]. rewrite app_nil_r in Hto. split_and!; [done|done|].
  intros E' w2 r2 w3 Hw2 Hrun. assert (is_Some (versions w2)) as Hsome by (rewrite Hw2; eauto).
  apply run_prepared in Hrun as [(Hs3 & _ & _ & Hk3)|(w4 & Hs4 & Hw4 & Hk4 & Heq4)].
  { split; [done|by apply Hk3]. }
  rewrite Hcmd, Hw2 in Heq4. cbn in Heq4. rewrite apply_nothing in Heq4.
  - injection Heq4 as -> ->. split; [done|by apply Hk4].
  - intros m Hm Hp. pose proof (apply_complete _ _ _ _ _ Hrec Hto Hm Hp) as Hnil.
    pose proof (Hsplit m Hm (pending_anti _ _ _ (recorded_keeps _ _ _ Hrec) Hp)) as Hokm.
    unfold statements in Hnil. destruct (splitStatements (m_up m)); [by rewrite Hnil|done].
Qed.

(** *** Up and reset *)

Lemma elem_of_rev {A} (x : A) l : x ∈ rev l ↔ x ∈ l.
Proof. rewrite !list_elem_of_In. symmetry. apply in_rev. Qed.

Lemma recorded_dom t ms t' v s : recorded t ms t' → t' !! v = Some s → t !! v = Some s ∨ v ∈ m_version <$> ms.
Proof.
  induction 1 as [|t m at_ ms t' Hn Hr IH]; [by left|]. intros [Hl|Hl]%IH; [|right; by right].
  apply lookup_insert_Some in Hl as [[<- _]|[_ Hl]]; [right; by left|by left].
Qed.

Lemma forget_versions_lookup ms t v : forget_versions ms t !! v = if bool_decide (v ∈ m_version <$> ms) then None else t !! v.
Proof.
  revert t. induction ms as [|m ms IH]; intros t; [done|]. change (forget_versions (m :: ms) t) with (forget_versions ms (delete (m_version m) t)).
  rewrite IH. rewrite fmap_cons. destruct (decide (v ∈ m_version <$> ms)) as [Hin|Hin].
  { rewrite !bool_decide_true by set_solver. done. }
  rewrite (bool_decide_false _ Hin). destruct (decide (v = m_version m)) as [->|Hne].
  - rewrite lookup_delete_eq, bool_decide_true by set_solver. done.
  - rewrite lookup_delete_ne, bool_decide_false by set_solver. done.
Qed.

Lemma recorded_forget ms t' : recorded ∅ ms t' → forget_versions (rev ms) t' = ∅.
Proof.
  intros Hrec. apply map_empty. intros v. rewrite forget_versions_lookup. case_bool_decide as Hin; [done|].
  destruct (t' !! v) as [s|] eqn:Hs; [|done]. exfalso. destruct (recorded_dom _ _ _ _ _ Hrec Hs) as [?|Hv]; [done|].
  apply Hin. apply list_elem_of_fmap in Hv as (m & -> & Hm). apply list_elem_of_fmap_2.
  by apply elem_of_rev.
Qed.

Lemma rev_perm {A} (l : list A) : rev l ≡ₚ l.
Proof. symmetry. apply Permutation_rev. Qed.

(** Every migration applied: all of them count and all can be rolled back. *)
Lemma all_applied ms t mx : (∀ m, m ∈ ms → is_applied t (m_version m) = true) →
  countAppliedWithAssumptions ms t mx = Z.of_nat (length ms) ∧ ∀ m, m ∈ ms → rolls_back t mx m = true.
Proof.
  intros Hall. split.
  - induction ms as [|m ms IH]; [done|]. cbn [countAppliedWithAssumptions length].
    rewrite IH by (intros x Hx; apply Hall; by right). pose proof (Hall m ltac:(by left)) as Hm. unfold is_applied in Hm.
    destruct (t !! m_version m) as [s|]; [|done]. rewrite Hm. lia.
  - intros m Hm. specialize (Hall m Hm). unfold is_applied in Hall. unfold rolls_back. by destruct (t !! m_version m).
Qed.

Lemma filter_all {A} (P : A → Prop) `{!∀ x, Decision (P x)} (l : list A) : (∀ x, x ∈ l → P x) → filter P l = l.
Proof.
  induction l as [|x l IH]; intros Hl; [done|]. rewrite filter_cons_True by (apply Hl; by left). f_equal.
  apply IH. intros y Hy. apply Hl. by right.
Qed.

(** Reset undoes up.  When every migration has an up and a down section
    with statements, an up command on a database without records followed by a
    reset, each reporting success, leaves no record, and the statements that
    were executed are the up sections in file order and then the down sections
    in reverse order, each exactly once. *)
Theorem reset_undoes_up E E' loading ms o o' w w1 w2 : ToLower (command o) = "up" → ToLower (command o') = "reset" →
  NoDup (m_version <$> ms) → NoDup (m_name <$> ms) →
  (∀ m, m ∈ ms → statements (m_up m) ≠ [] ∧ TrimSpace (m_down m) ≠ "" ∧ statements (m_down m) ≠ []) →
  default ∅ (versions w) = ∅ → run_migrations E loading (Some (Ok ms)) o w = Some (None, w1) →
  run_migrations E' loading (Some (Ok ms)) o' w1 = Some (None, w2) →
  versions w2 = Some ∅
  ∧ succeeded w2 = succeeded w ++ flat_map (λ m, statements (m_up m)) ms ++ flat_map (λ m, statements (m_down m)) (rev ms).
Proof.
  intros Hup Hreset Hv Hn Hms He Hrun1 Hrun2.
  apply run_prepared in Hrun1 as [(_ & _ & Hr & _)|(wa & Hsa & Hwa & _ & Heq)]; [done|].
  rewrite Hup, He in Heq. cbn in Heq. symmetry in Heq. rewrite He in Hwa.
  destruct (up_loop_spec E _ _ _ _ _ _ Hwa Hv Hn Heq) as (fin & todo & l & t' & Hto & Hw' & Hrec & Hsucc & Hl & Hok).
  destruct (Hok eq_refl) as [-> _]. cbn in Hl. subst l. rewrite !app_nil_r in *.
  assert (to_apply ∅ (-1) ms = ms) as Hall by (apply filter_all; intros m Hm; split; [done|by apply Hms]).
  change (findMaxAppliedVersion ∅) with (-1) in Hto. rewrite Hall in Hto. subst fin.
  assert (∀ m, m ∈ ms → is_applied t' (m_version m) = true) as Happ.
  { intros m Hm. unfold is_applied. by destruct (recorded_row _ _ _ _ Hrec Hm) as [at_ ->]. }
  apply run_prepared in Hrun2 as [(_ & _ & Hr & _)|(wb & Hsb & Hwb & _ & Heq2)]; [done|].
  rewrite Hreset, Hw' in Heq2. rewrite Hw' in Hwb. cbn in Heq2, Hwb. symmetry in Heq2.
  destruct (all_applied ms t' (findMaxAppliedVersion t') Happ) as [Hcount Hroll]. rewrite Hcount in Heq2.
  unfold rollbackMigrations in Heq2. apply (rollback_spec E' _ _ _ _ _ _ _ Hwb) in Heq2
    as (fin & todo & l & Htake & Hw2 & Hs2 & Hl & Htodo); [|by rewrite (map_rev m_version), rev_perm].
  rewrite (Htodo eq_refl) in *. cbn in Hl. subst l.
  assert (to_roll_back t' (findMaxAppliedVersion t') (rev ms) = rev ms) as Hback.
  { apply filter_all. intros m Hm. rewrite elem_of_rev in Hm.
    split; [exact (Hroll m Hm)|by apply Hms]. }
  rewrite Hback, Nat2Z.id, <- length_rev, firstn_all, app_nil_r in Htake. subst fin.
  rewrite Hw2, Hs2, Hsb, Hsucc, Hsa, app_nil_r, <- app_assoc. split; [|done]. f_equal. by apply recorded_forget.
Qed.

End Migrator.
