(* ===== verification/Handles.v ===== *)
(** * Handles

    What a process holds open while it builds a client: connection pools and,
    for SQLite, physical connections that no pool owns yet.  The database
    libraries (database/sql, pgx, picodata-go and their drivers) are outside
    the program: each call of them consumes one answer of the environment, an
    error or none.  A pool that is closed, or whose [Close] reports an error,
    is gone. *)

From S2P Require Import Prelude GoTime Errors.
Open Scope Z_scope.

(** The limits set on a pool. *)
Record PoolLimits : Type := mkLimits {
  l_maxOpenConns : Z;
  l_maxIdleConns : Z;
  l_connMaxLifetime : Z;
  l_connMaxIdleTime : Z
}.
Definition no_limits : PoolLimits := mkLimits 0 0 0 0.

Record Handles : Type := mkHandles {
  hs_step : nat;                    (* library calls made so far *)
  hs_pools : gmap nat PoolLimits;   (* the open pools *)
  hs_raw : gset nat;                (* open connections no pool owns *)
  hs_once : bool                    (* a package-level [sync.Once] has fired *)
}.

Definition bump_step (h : Handles) : Handles := mkHandles (S (hs_step h)) (hs_pools h) (hs_raw h) (hs_once h).
Definition set_pools (p : gmap nat PoolLimits) (h : Handles) : Handles := mkHandles (hs_step h) p (hs_raw h) (hs_once h).
Definition set_raw (r : gset nat) (h : Handles) : Handles := mkHandles (hs_step h) (hs_pools h) r (hs_once h).
Definition fire_once (h : Handles) : Handles := mkHandles (hs_step h) (hs_pools h) (hs_raw h) true.

(** The state monad of the constructors. *)
Definition H (A : Type) : Type := Handles → A * Handles.
#[global] Instance H_ret : MRet H := λ A a h, (a, h).
#[global] Instance H_bind : MBind H := λ A B f m h, let '(a, h') := m h in f a h'.

(** Return the error, or go on. *)
Definition h_try {A B} (m : H (result A)) (k : A → H (result B)) : H (result B) := λ h,
  match m h with
  | (Ok a, h') => k a h'
  | (Err e, h') => (Err e, h')
  end.
Notation "x ←! m ; k" := (h_try m (λ x, k)) (at level 20, m at level 100, k at level 200, only parsing).

Definition lift_result {A} (r : result A) : H (result A) := mret r.
Definition fail_with {A} (e : err) : H (result A) := mret (Err e).

Section library.
Context (answer : nat → option err).

(** A call that may fail and holds nothing. *)
Definition ask : H (option err) := λ h, (answer (hs_step h), bump_step h).

(** A call that opens a pool. *)
Definition open_pool : H (result nat) := λ h,
  match answer (hs_step h) with
  | Some e => (Err e, bump_step h)
  | None => let id := fresh (dom (hs_pools h)) in
            (Ok id, set_pools (<[id := no_limits]> (hs_pools h)) (bump_step h))
  end.

(** [sql.OpenDB], which cannot fail. *)
Definition open_db : H nat := λ h,
  let id := fresh (dom (hs_pools h)) in
  (id, set_pools (<[id := no_limits]> (hs_pools h)) (bump_step h)).

Definition close_pool (id : nat) : H (option err) := λ h,
  (answer (hs_step h), set_pools (delete id (hs_pools h)) (bump_step h)).

(** [Close] of a pgx or Picodata pool, which answers nothing. *)
Definition close_quietly (id : nat) : H unit := λ h,
  (tt, set_pools (delete id (hs_pools h)) (bump_step h)).

Definition set_limits (id : nat) (l : PoolLimits) : H unit := λ h,
  (tt, set_pools (alter (λ _, l) id (hs_pools h)) h).

(** A physical connection: opened, closed, or handed to a pool. *)
Definition open_raw : H (result nat) := λ h,
  match answer (hs_step h) with
  | Some e => (Err e, bump_step h)
  | None => let id := fresh (hs_raw h) in (Ok id, set_raw ({[id]} ∪ hs_raw h) (bump_step h))
  end.
Definition close_raw (id : nat) : H (option err) := λ h,
  (answer (hs_step h), set_raw (hs_raw h ∖ {[id]}) (bump_step h)).
Definition adopt_raw (id : nat) : H unit := λ h, (tt, set_raw (hs_raw h ∖ {[id]}) h).
End library.

(** ** Ownership *)

(** The handles are the same, whatever the calls in between. *)
Definition same_handles (h h' : Handles) : Prop := hs_pools h' = hs_pools h ∧ hs_raw h' = hs_raw h.

(** One pool more, under its limits. *)
Definition one_more (id : nat) (l : PoolLimits) (h h' : Handles) : Prop :=
  hs_pools h !! id = None ∧ hs_pools h' = <[id := l]> (hs_pools h) ∧ hs_raw h' = hs_raw h.

Lemma same_handles_refl h : same_handles h h.
Proof. done. Qed.
Lemma same_handles_bump h h' : same_handles h h' → same_handles h (bump_step h').
Proof. done. Qed.
Lemma same_handles_trans h1 h2 h3 : same_handles h1 h2 → same_handles h2 h3 → same_handles h1 h3.
Proof. intros [] []. split; congruence. Qed.
Lemma one_more_same_l id l h1 h2 h3 : same_handles h1 h2 → one_more id l h2 h3 → one_more id l h1 h3.
Proof. intros [E1 E2] (? & ? & ?). rewrite E1, E2 in *. done. Qed.
Lemma one_more_same_r id l h1 h2 h3 : one_more id l h1 h2 → same_handles h2 h3 → one_more id l h1 h3.
Proof. intros (? & E1 & E2) [E3 E4]. split_and!; congruence. Qed.

Create HintDb handles discriminated.
#[export] Hint Resolve same_handles_refl same_handles_bump one_more_same_l one_more_same_r : handles.

(** Postconditions. *)
Definition hwp {A} (m : H A) (Q : A → Handles → Prop) (h : Handles) : Prop := Q (m h).1 (m h).2.

Lemma hwp_bind {A B} (m : H A) (f : A → H B) Q h : hwp (m ≫= f) Q h = hwp m (λ a, hwp (f a) Q) h.
Proof. unfold hwp, mbind, H_bind. by destruct (m h). Qed.
Lemma hwp_try {A B} (m : H (result A)) (f : A → H (result B)) Q h :
  hwp (h_try m f) Q h = hwp m (λ r h', match r with Ok a => hwp (f a) Q h' | Err e => Q (Err e) h' end) h.
Proof. unfold hwp, h_try. by destruct (m h) as [[]]. Qed.
Lemma hwp_ret {A} (a : A) Q h : hwp (mret a) Q h = Q a h.
Proof. done. Qed.
Lemma hwp_mono {A} (m : H A) (Q Q' : A → Handles → Prop) h : hwp m Q h → (∀ a h', Q a h' → Q' a h') → hwp m Q' h.
Proof. unfold hwp. auto. Qed.
Lemma hwp_run {A} (m : H A) Q h a h' : hwp m Q h → m h = (a, h') → Q a h'.
Proof. unfold hwp. intros HQ Hm. by rewrite Hm in HQ. Qed.

(** Computations that hold nothing of their own. *)
Definition keeps {A} (m : H A) : Prop := ∀ h, same_handles h (m h).2.

Lemma keeps_ret {A} (a : A) : keeps (mret a : H A).
Proof. done. Qed.
Lemma keeps_bind {A B} (m : H A) (f : A → H B) : keeps m → (∀ a, keeps (f a)) → keeps (m ≫= f).
Proof.
  intros Hm Hf h. unfold mbind, H_bind. specialize (Hm h). destruct (m h) as [a h1].
  eapply same_handles_trans; [exact Hm|apply Hf].
Qed.
Lemma keeps_step {A} (f : nat → A) : keeps (λ h, (f (hs_step h), bump_step h)).
Proof. done. Qed.
Lemma hwp_keeps {A} (m : H A) Q h0 h : keeps m → same_handles h0 h → (∀ a h', same_handles h0 h' → Q a h') → hwp m Q h.
Proof. intros Hm Hs HQ. apply HQ. eapply same_handles_trans; [exact Hs|apply Hm]. Qed.
#[export] Hint Resolve keeps_ret keeps_step : handles.

Ltac keeps_auto := repeat first [apply keeps_bind; [|intros] | by eauto with handles | case_match].

Ltac hwp_simpl := repeat first [rewrite hwp_bind | rewrite hwp_try | rewrite hwp_ret].

Section rules.
Context (answer : nat → option err).

Lemma hwp_ask Q h : (∀ o, Q o (bump_step h)) → hwp (ask answer) Q h.
Proof. intros HQ. apply HQ. Qed.

Lemma hwp_open_pool Q h0 h : same_handles h0 h →
  (∀ e h', same_handles h0 h' → Q (Err e) h') → (∀ id h', one_more id no_limits h0 h' → Q (Ok id) h') →
  hwp (open_pool answer) Q h.
Proof.
  intros [Hp Hr] He Ho. unfold hwp, open_pool. destruct (answer (hs_step h)); cbn; [by apply He|].
  apply Ho. split_and!; cbn; [|by rewrite Hp|done]. rewrite <- Hp. apply not_elem_of_dom, is_fresh.
Qed.

Lemma hwp_open_db Q h0 h : same_handles h0 h →
  (∀ id h', one_more id no_limits h0 h' → Q id h') → hwp open_db Q h.
Proof.
  intros [Hp Hr] Ho. unfold hwp, open_db. cbn.
  apply Ho. split_and!; cbn; [|by rewrite Hp|done]. rewrite <- Hp. apply not_elem_of_dom, is_fresh.
Qed.

Lemma hwp_close_pool Q h0 id l h : one_more id l h0 h →
  (∀ o h', same_handles h0 h' → Q o h') → hwp (close_pool answer id) Q h.
Proof.
  intros (Hn & Hp & Hr) HQ. apply HQ. split; cbn; [|done]. rewrite Hp. by rewrite delete_insert_id.
Qed.

Lemma hwp_close_quietly Q h0 id l h : one_more id l h0 h →
  (∀ h', same_handles h0 h' → Q tt h') → hwp (close_quietly id) Q h.
Proof. intros (Hn & Hp & Hr) HQ. apply HQ. split; cbn; [|done]. rewrite Hp. by rewrite delete_insert_id. Qed.

Lemma hwp_set_limits Q h0 id l l' h : one_more id l h0 h →
  (∀ h', one_more id l' h0 h' → Q tt h') → hwp (set_limits id l') Q h.
Proof. intros (Hn & Hp & Hr) HQ. apply HQ. split_and!; cbn; [done| |done]. by rewrite Hp, alter_insert_eq. Qed.
End rules.
