(* ===== verification/SqliteConnector.v ===== *)
(** * SQLite connections

    backends/sqlite/storage/connector.go: every physical connection the pool
    asks for is configured before it is handed out, and closed when that
    fails.  The driver (modernc.org/sqlite) is a parameter: a connection is a
    value of the type [C] that its statements change, and [rows] are what a
    query returns, as [fmt.Sprint] prints them, with how the iteration ends and
    what [Close] answers. *)

From S2P Require Import Prelude GoTime Errors Handles.
Open Scope Z_scope.

Record Rows : Type := mkRows {
  rows_values : list (list string);
  rows_end : err;                    (* [rows.Next] after the last row *)
  rows_eof : bool;                   (* that is [io.EOF] *)
  rows_close : option err
}.

Record SqliteDriver (C : Type) : Type := {
  drv_fresh : nat → C;                                        (* a connection opened by call [n] *)
  drv_context_aware : C → bool;                               (* it implements [pragmaConnection] *)
  drv_Exec : nat → string → C → option err * C;
  drv_Query : nat → string → C → result Rows * C
}.
#[global] Arguments drv_fresh {C} _.
#[global] Arguments drv_context_aware {C} _.
#[global] Arguments drv_Exec {C} _.
#[global] Arguments drv_Query {C} _.

(** [type SynchronousMode string]. *)
Definition SynchronousMode : Type := string.
Definition SynchronousNormal : SynchronousMode := "NORMAL".
Definition SynchronousFull : SynchronousMode := "FULL".

Section connector.
Context {C : Type} (drv : SqliteDriver C) (answer ctx_error : nat → option err).

(** [ctx.Err()]. *)
Definition ctx_Err : H (option err) := λ h, (ctx_error (hs_step h), bump_step h).

(** Statements on a connection, as pure functions of the call number. *)
Definition ExecContext (query : string) (c : C) : H (option err * C) := λ h,
  (drv_Exec drv (hs_step h) query c, bump_step h).
Definition QueryContext (query : string) (c : C) : H (result Rows * C) := λ h,
  (drv_Query drv (hs_step h) query c, bump_step h).

(** The deferred [errors.Join(resultErr, rows.Close())]. *)
Definition join_close {A} (r : result A) (close : option err) : result A :=
  match errors_Join [match r with Ok _ => None | Err e => Some e end; close] with
  | None => r
  | Some e => Err e
  end.

Definition readJournalMode (c : C) : H (result string * C) :=
  '(r, c) ← QueryContext "PRAGMA journal_mode=WAL;" c;
  mret (match r with
        | Err e => (Err (wrapf "SQLite journal mode" e), c)
        | Ok rows =>
            (join_close (match rows_values rows with
                         | (value :: _) :: _ => Ok value
                         | [] :: _ => Ok "<nil>"
                         | [] => Err (wrapf "read SQLite journal mode" (rows_end rows))
                         end) (rows_close rows), c)
        end).

(** The loop over [PRAGMA database_list] up to the main database. *)
Fixpoint main_location (values : list (list string)) (rows : Rows) : result bool :=
  match values with
  | [] => if rows_eof rows then Err (EText "SQLite main database location is missing")
          else Err (wrapf "read SQLite database location" (rows_end rows))
  | row :: values =>
      if String.eqb (default "<nil>" (row !! 1%nat)) "main"
      then Ok (String.eqb (default "<nil>" (row !! 2%nat)) "")
      else main_location values rows
  end.

Definition hasNoMainDatabaseFile (c : C) : H (result bool * C) :=
  '(r, c) ← QueryContext "PRAGMA database_list;" c;
  mret (match r with
        | Err e => (Err (wrapf "read SQLite database location" e), c)
        | Ok rows => (join_close (main_location (rows_values rows) rows) (rows_close rows), c)
        end).

Definition configureJournal (c : C) : H (option err * C) :=
  '(r, c) ← readJournalMode c;
  match r with
  | Err e => mret (Some e, c)
  | Ok mode =>
      let refused := EText ("SQLite requested WAL but effective journal mode is " +:+ mode) in
      if String.eqb mode "wal" then mret (None, c)
      else if String.eqb mode "memory" || String.eqb mode "off" then
        '(m, c) ← hasNoMainDatabaseFile c;
        match m with
        | Err e => mret (Some e, c)
        | Ok memory => mret (if (memory : bool) then None else Some refused, c)
        end
      else mret (Some refused, c)
  end.

Fixpoint exec_all (queries : list string) (c : C) : H (option err * C) :=
  match queries with
  | [] => mret (None, c)
  | query :: queries =>
      '(e, c) ← ExecContext query c;
      match e with
      | Some e => mret (Some (wrapf ("SQLite configuration " +:+ query) e), c)
      | None => exec_all queries c
      end
  end.

Definition configureSQLite (c : C) (mode : SynchronousMode) : H (option err * C) :=
  if negb (drv_context_aware drv c) then mret (Some (EText "SQLite driver does not support context-aware configuration"), c)
  else
    '(e, c) ← ExecContext "PRAGMA busy_timeout=5000;" c;
    match e with
    | Some e => mret (Some (wrapf "SQLite busy timeout" e), c)
    | None =>
        '(e, c) ← configureJournal c;
        match e with
        | Some e => mret (Some e, c)
        | None =>
            '(e, c) ← exec_all ["PRAGMA foreign_keys=ON;"; "PRAGMA synchronous=" +:+ (mode : string) +:+ ";"] c;
            match e with
            | Some e => mret (Some e, c)
            | None => e ← ctx_Err; mret (e, c)
            end
        end
    end.

(** A connection and its handle. *)
Definition Connect (mode : SynchronousMode) : H (result (nat * C)) :=
  e ← ctx_Err;
  match e with
  | Some e => fail_with e
  | None =>
      n ← (λ h, (hs_step h, h) : nat * Handles);
      conn ←! open_raw answer;
      '(e, c) ← configureSQLite (drv_fresh drv n) mode;
      match e with
      | Some e =>
          ce ← close_raw answer conn;
          fail_with (default e (errors_Join [Some e; ce]))
      | None => mret (Ok (conn, c))
      end
  end.

(** ** Configuring holds no handle *)

Lemma keeps_Exec query c : keeps (ExecContext query c).
Proof. apply (keeps_step (λ n, drv_Exec drv n query c)). Qed.
Lemma keeps_Query query c : keeps (QueryContext query c).
Proof. apply (keeps_step (λ n, drv_Query drv n query c)). Qed.
#[local] Hint Resolve keeps_Exec keeps_Query : handles.

Lemma keeps_exec_all queries c : keeps (exec_all queries c).
Proof. revert c. induction queries; intros; cbn [exec_all]; keeps_auto. Qed.
#[local] Hint Resolve keeps_exec_all : handles.

Lemma keeps_configureSQLite c mode : keeps (configureSQLite c mode).
Proof.
  unfold configureSQLite, configureJournal, readJournalMode, hasNoMainDatabaseFile. keeps_auto.
  all: apply (keeps_step ctx_error).
Qed.

(** [Connect] adds the connection it returns and nothing else. *)
Lemma Connect_handles mode h0 h : same_handles h0 h →
  hwp (Connect mode) (λ r h', match r with
    | Ok (id, _) => id ∉ hs_raw h0 ∧ hs_raw h' = {[id]} ∪ hs_raw h0 ∧ hs_pools h' = hs_pools h0
    | Err _ => same_handles h0 h' end) h.
Proof.
  intros [Hp0 Hr0]. unfold Connect, fail_with. hwp_simpl. unfold hwp at 1. cbn [fst snd ctx_Err].
  destruct (ctx_error (hs_step h)); [by hwp_simpl|]. hwp_simpl. unfold hwp at 1. cbn [fst snd]. hwp_simpl.
  unfold hwp at 1, open_raw. destruct (answer (hs_step (bump_step h))); [done|]. cbn [fst snd]. hwp_simpl.
  eapply hwp_keeps; [apply keeps_configureSQLite|apply same_handles_refl|]. intros [[e|] c] h2 [Hp Hr]; cbn in Hp, Hr.
  - hwp_simpl. unfold hwp at 1, close_raw. hwp_simpl. split; cbn; [congruence|]. rewrite Hr, Hr0.
    pose proof (is_fresh (hs_raw h)) as Hf. rewrite Hr0 in Hf. set_solver.
  - hwp_simpl. rewrite Hr, Hp, <- Hr0, <- Hp0. split_and!; [apply is_fresh|done|done].
Qed.

(** ** What a connection is when it is handed out *)

(** The settings of a connection and what SQLite documents of the pragmas: a
    statement that succeeds has set its own setting and left the others; the
    journal query answers the mode in effect; the list of databases names the
    file of the main one. *)
Record Settings : Type := {
  busy_timeout : C → Z;
  foreign_keys : C → bool;
  synchronous : C → string;
  journal_mode : C → string;
  main_file : C → string
}.

Class Pragmas (G : Settings) : Prop := {
  pragma_busy n c c' : drv_Exec drv n "PRAGMA busy_timeout=5000;" c = (None, c') → busy_timeout G c' = 5000;
  pragma_journal n c r c' : drv_Query drv n "PRAGMA journal_mode=WAL;" c = (Ok r, c') →
    busy_timeout G c' = busy_timeout G c ∧ ∀ value row rest, rows_values r = (value :: row) :: rest → value = journal_mode G c';
  pragma_list n c r c' : drv_Query drv n "PRAGMA database_list;" c = (Ok r, c') →
    busy_timeout G c' = busy_timeout G c ∧ journal_mode G c' = journal_mode G c
    ∧ ∀ row, row ∈ rows_values r → row !! 1%nat = Some "main" → row !! 2%nat = Some (main_file G c');
  pragma_foreign n c c' : drv_Exec drv n "PRAGMA foreign_keys=ON;" c = (None, c') →
    foreign_keys G c' = true ∧ busy_timeout G c' = busy_timeout G c ∧ journal_mode G c' = journal_mode G c
    ∧ main_file G c' = main_file G c;
  pragma_sync n mode c c' : drv_Exec drv n ("PRAGMA synchronous=" +:+ mode +:+ ";") c = (None, c') →
    synchronous G c' = mode ∧ foreign_keys G c' = foreign_keys G c ∧ busy_timeout G c' = busy_timeout G c
    ∧ journal_mode G c' = journal_mode G c ∧ main_file G c' = main_file G c
}.

Context (G : Settings) `{!Pragmas G}.

(** Write-ahead logging, or a database without a file that cannot have it. *)
Definition durable (c : C) : Prop :=
  journal_mode G c = "wal" ∨ ((journal_mode G c = "memory" ∨ journal_mode G c = "off") ∧ main_file G c = "").

Definition configured (mode : SynchronousMode) (c : C) : Prop :=
  busy_timeout G c = 5000 ∧ foreign_keys G c = true ∧ synchronous G c = mode ∧ durable c.

Lemma join_close_ok {A} (r : result A) close a : join_close r close = Ok a → r = Ok a.
Proof. unfold join_close. destruct r, close; cbn; naive_solver. Qed.

Lemma main_location_ok values rows b : main_location values rows = Ok b →
  ∃ row, row ∈ values ∧ row !! 1%nat = Some "main" ∧ (b = true → row !! 2%nat = Some "").
Proof.
  induction values as [|row values IH]; cbn; [by destruct (rows_eof rows)|].
  destruct (String.eqb_spec (default "<nil>" (row !! 1%nat)) "main") as [Hm|_].
  - intros [= <-]. exists row. split; [set_solver|]. destruct (row !! 1%nat) as [m|]; cbn in Hm; [subst|done].
    split; [done|]. intros He%String.eqb_eq. by destruct (row !! 2%nat); cbn in He; subst.
  - intros (row' & ? & ? & ?)%IH. exists row'. set_solver.
Qed.

Lemma configureJournal_spec c h :
  hwp (configureJournal c) (λ r h', same_handles h h' ∧
    (r.1 = None → busy_timeout G r.2 = busy_timeout G c ∧ durable r.2)) h.
Proof.
  unfold configureJournal, readJournalMode, QueryContext. hwp_simpl. unfold hwp at 1. cbn [fst snd].
  destruct (drv_Query drv _ _ c) as [[r|e] c1] eqn:Hq; hwp_simpl; [|done].
  apply pragma_journal in Hq as [Hb Hmode].
  destruct (join_close _ _) as [mode|e] eqn:Hj; [|done]. apply join_close_ok in Hj.
  assert (mode = journal_mode G c1 ∨ mode = "<nil>") as Heff
    by (destruct (rows_values r) as [|[|value row] rest]; naive_solver).
  destruct (String.eqb_spec mode "wal") as [->|_].
  { hwp_simpl. split; [done|]. intros _. split; [done|]. left. by destruct Heff. }
  destruct (String.eqb mode "memory" || String.eqb mode "off") eqn:Hmem; [|by hwp_simpl].
  unfold hasNoMainDatabaseFile, QueryContext. hwp_simpl. unfold hwp at 1. cbn [fst snd].
  destruct (drv_Query drv _ _ c1) as [[r2|e] c2] eqn:Hq; hwp_simpl; [|done].
  apply pragma_list in Hq as (Hb2 & Hj2 & Hfile).
  destruct (join_close (main_location _ _) _) as [m|e] eqn:Hm; [|done]. apply join_close_ok, main_location_ok in Hm.
  hwp_simpl. split; [done|]. destruct m; [|done]. intros _. cbn [fst snd]. split; [congruence|]. right.
  destruct Hm as (row & Hin & Hmain & Hempty). specialize (Hempty eq_refl). rewrite (Hfile row Hin Hmain) in Hempty.
  split; [|by injection Hempty]. rewrite Hj2.
  apply orb_true_iff in Hmem as [->%String.eqb_eq| ->%String.eqb_eq]; destruct Heff as [<-|]; auto; done.
Qed.

Lemma configureSQLite_spec c mode h :
  hwp (configureSQLite c mode) (λ r h', same_handles h h' ∧ (r.1 = None → configured mode r.2)) h.
Proof.
  unfold configureSQLite. destruct (negb _); [by hwp_simpl|]. unfold ExecContext. hwp_simpl. unfold hwp at 1. cbn [fst snd].
  destruct (drv_Exec drv _ _ c) as [[e|] c1] eqn:Hx; [by hwp_simpl|]. apply pragma_busy in Hx. rename Hx into Hb.
  hwp_simpl. eapply hwp_mono; [apply configureJournal_spec|]. intros [[e|] c2] h2 [Hs Hj]; [by hwp_simpl|].
  destruct (Hj eq_refl) as [Hb2 Hd]. cbn [fst snd] in *. cbn [exec_all]. unfold ExecContext. hwp_simpl. unfold hwp at 1. cbn [fst snd].
  destruct (drv_Exec drv _ _ c2) as [[e|] c3] eqn:Hx; [by hwp_simpl|]. apply pragma_foreign in Hx as (Hf & Hb3 & Hj3 & Hm3).
  hwp_simpl. unfold hwp at 1. cbn [fst snd].
  destruct (drv_Exec drv _ _ c3) as [[e|] c4] eqn:Hx; [by hwp_simpl|]. apply pragma_sync in Hx as (Hs4 & Hf4 & Hb4 & Hj4 & Hm4).
  hwp_simpl. unfold hwp at 1. cbn [fst snd ctx_Err]. hwp_simpl. cbn [fst snd]. split; [done|]. intros _.
  split_and!; [congruence|congruence|done|]. unfold durable in *. by rewrite Hj4, Hm4, Hj3, Hm3.
Qed.

(** C34: every SQLite connection the pool is given is configured.  With the
    pragmas as SQLite documents them, whatever fails on the way, [Connect]
    either returns a connection that waits five seconds for locks, enforces
    foreign keys, synchronizes as asked and uses write-ahead logging (or has no
    database file), or returns an error with the connection it opened closed
    again. *)
Theorem connection_configured mode h r h' : Connect mode h = (r, h') →
  match r with
  | Ok (id, c) => configured mode c ∧ id ∉ hs_raw h ∧ hs_raw h' = {[id]} ∪ hs_raw h ∧ hs_pools h' = hs_pools h
  | Err _ => same_handles h h'
  end.
Proof.
  intros Hrun. refine (hwp_run _ (λ r h', match r with
    | Ok (id, c) => configured mode c ∧ id ∉ hs_raw h ∧ hs_raw h' = {[id]} ∪ hs_raw h ∧ hs_pools h' = hs_pools h
    | Err _ => same_handles h h' end) h r h' _ Hrun). clear Hrun r h'.
  unfold Connect, fail_with. hwp_simpl. unfold hwp at 1. cbn [fst snd ctx_Err].
  destruct (ctx_error (hs_step h)); [by hwp_simpl|]. hwp_simpl. unfold hwp at 1. cbn [fst snd]. hwp_simpl.
  unfold hwp at 1, open_raw. destruct (answer (hs_step (bump_step h))); [done|]. cbn [fst snd]. hwp_simpl.
  eapply hwp_mono; [apply configureSQLite_spec|]. intros [[e|] c] h2 [[Hp Hr] Hc]; cbn in Hp, Hr.
  - hwp_simpl. unfold hwp at 1, close_raw. hwp_simpl. split; cbn; [done|]. rewrite Hr.
    pose proof (is_fresh (hs_raw h)). set_solver.
  - hwp_simpl. split_and!; [by apply Hc|apply is_fresh|done|done].
Qed.
End connector.
