(* ===== verification/Clients.v ===== *)
(** * Storage clients

    backends/sqlite/storage/init.go, backends/mysql/storage/init.go,
    backends/picodata/storage/{init,picodata}.go,
    backends/pgsql/storage/pgsqlclient/{client,client_options}.go and
    backends/pgsql/storage/pgsqlinit/build.go: the options of the clients and
    the constructors that open their pools.  What parses connection strings,
    certificates and URLs is a parameter. *)

From S2P Require Import Prelude GoTime Errors GoStrings TableNames Handles SqliteConnector.
Open Scope Z_scope.

(** ** SQLite *)

Module SqliteClient.
Record Options : Type := mkOptions {
  dsn : string;
  maxOpenConns : Z;
  maxIdleConns : Z;
  connMaxLifetime : Z;
  connMaxIdleTime : Z;
  checkPing : bool;
  log : bool;                           (* a logger is set *)
  synchronous : SynchronousMode
}.

Definition WithDSN (v : string) (o : Options) : Options :=
  mkOptions v (maxOpenConns o) (maxIdleConns o) (connMaxLifetime o) (connMaxIdleTime o) (checkPing o) (log o) (synchronous o).
Definition WithCheckPing (v : bool) (o : Options) : Options :=
  mkOptions (dsn o) (maxOpenConns o) (maxIdleConns o) (connMaxLifetime o) (connMaxIdleTime o) v (log o) (synchronous o).
Definition WithLogger (v : bool) (o : Options) : Options :=
  mkOptions (dsn o) (maxOpenConns o) (maxIdleConns o) (connMaxLifetime o) (connMaxIdleTime o) (checkPing o) v (synchronous o).
Definition WithMaxOpenConns (v : Z) (o : Options) : Options :=
  mkOptions (dsn o) v (maxIdleConns o) (connMaxLifetime o) (connMaxIdleTime o) (checkPing o) (log o) (synchronous o).
Definition WithMaxIdleConns (v : Z) (o : Options) : Options :=
  mkOptions (dsn o) (maxOpenConns o) v (connMaxLifetime o) (connMaxIdleTime o) (checkPing o) (log o) (synchronous o).
Definition WithConnMaxLifetime (v : Z) (o : Options) : Options :=
  mkOptions (dsn o) (maxOpenConns o) (maxIdleConns o) v (connMaxIdleTime o) (checkPing o) (log o) (synchronous o).
Definition WithConnMaxIdleTime (v : Z) (o : Options) : Options :=
  mkOptions (dsn o) (maxOpenConns o) (maxIdleConns o) (connMaxLifetime o) v (checkPing o) (log o) (synchronous o).
Definition WithSynchronousMode (v : SynchronousMode) (o : Options) : Options :=
  mkOptions (dsn o) (maxOpenConns o) (maxIdleConns o) (connMaxLifetime o) (connMaxIdleTime o) (checkPing o) (log o) v.

(** The options with the default mode filled in. *)
Definition Validate (o : Options) : result Options :=
  if String.eqb (dsn o) "" then Err (EText "nil dsn")
  else if negb (log o) then Err (EText "nil logger")
  else if maxOpenConns o <? 1 then Err (EText "max open conns must be >= 1")
  else if maxIdleConns o <? 0 then Err (EText "max idle conns must be >= 0")
  else
    let o := if String.eqb (synchronous o) "" then WithSynchronousMode SynchronousNormal o else o in
    if negb (String.eqb (synchronous o) SynchronousNormal) && negb (String.eqb (synchronous o) SynchronousFull)
    then Err (EText "SQLite synchronous mode must be NORMAL or FULL")
    else Ok o.

Section create.
Context {C : Type} (drv : SqliteDriver C) (answer ctx_error : nat → option err) (bad_conn : err → bool).

(** [db.Conn(ctx)] of database/sql: the pool asks its connector, again while
    the driver reports a bad connection ([maxBadConnRetries] is 2), and owns
    the connection it gets. *)
Fixpoint db_Conn (retries : nat) (mode : SynchronousMode) : H (result unit) :=
  r ← Connect drv answer ctx_error mode;
  match r with
  | Ok (id, _) => _ ← adopt_raw id; mret (Ok tt)
  | Err e => match retries with
             | S retries => if bad_conn e then db_Conn retries mode else fail_with e
             | O => fail_with e
             end
  end.

(** [_ = db.Close(); return nil, err]. *)
Definition close_and_fail {A} (db : nat) (e : err) : H (result A) := _ ← close_pool answer db; fail_with e.

Definition Create (dsn : string) (opts : list (Options → Options)) : H (result nat) :=
  let options := foldl (λ o opt, opt o) (mkOptions dsn 10 10 0 0 true true "") opts in
  match Validate options with
  | Err e => fail_with (wrapf "validate options" e)
  | Ok options =>
      r ← open_pool answer;
      match r with
      | Err e => fail_with (wrapf "open sqlite" e)
      | Ok handle =>
          e ← close_pool answer handle;
          match e with
          | Some e => fail_with (wrapf "close SQLite driver handle" e)
          | None =>
              db ← open_db;
              _ ← set_limits db (mkLimits (maxOpenConns options) (maxIdleConns options)
                                          (connMaxLifetime options) (connMaxIdleTime options));
              conn ← db_Conn 2 (synchronous options);
              match conn with
              | Err e => close_and_fail db e
              | Ok _ =>
                  e ← ask answer;                                     (* conn.Close() *)
                  match e with
                  | Some e => close_and_fail db (wrapf "close initial SQLite connection" e)
                  | None =>
                      if checkPing options then
                        e ← ask answer;                               (* db.PingContext(ctx) *)
                        match e with
                        | Some e => close_and_fail db (wrapf "ping sqlite" e)
                        | None => mret (Ok db)
                        end
                      else mret (Ok db)
                  end
              end
          end
      end
  end.

(** [Close] of a client that may be nil. *)
Definition Close (c : option nat) : H (option err) :=
  match c with None => mret None | Some db => close_pool answer db end.
End create.
End SqliteClient.

(** ** MySQL *)

Module MysqlClient.
Record Options : Type := mkOptions {
  dsn : string;
  maxOpenConns : Z;
  maxIdleConns : Z;
  connMaxLifetime : Z;
  connMaxIdleTime : Z;
  checkPing : bool;
  log : bool
}.

Definition WithDSN (v : string) (o : Options) : Options :=
  mkOptions v (maxOpenConns o) (maxIdleConns o) (connMaxLifetime o) (connMaxIdleTime o) (checkPing o) (log o).
Definition WithCheckPing (v : bool) (o : Options) : Options :=
  mkOptions (dsn o) (maxOpenConns o) (maxIdleConns o) (connMaxLifetime o) (connMaxIdleTime o) v (log o).
Definition WithLogger (v : bool) (o : Options) : Options :=
  mkOptions (dsn o) (maxOpenConns o) (maxIdleConns o) (connMaxLifetime o) (connMaxIdleTime o) (checkPing o) v.
Definition WithMaxOpenConns (v : Z) (o : Options) : Options :=
  mkOptions (dsn o) v (maxIdleConns o) (connMaxLifetime o) (connMaxIdleTime o) (checkPing o) (log o).
Definition WithMaxIdleConns (v : Z) (o : Options) : Options :=
  mkOptions (dsn o) (maxOpenConns o) v (connMaxLifetime o) (connMaxIdleTime o) (checkPing o) (log o).
Definition WithConnMaxLifetime (v : Z) (o : Options) : Options :=
  mkOptions (dsn o) (maxOpenConns o) (maxIdleConns o) v (connMaxIdleTime o) (checkPing o) (log o).
Definition WithConnMaxIdleTime (v : Z) (o : Options) : Options :=
  mkOptions (dsn o) (maxOpenConns o) (maxIdleConns o) (connMaxLifetime o) v (checkPing o) (log o).

Definition Validate (o : Options) : result unit :=
  if String.eqb (dsn o) "" then Err (EText "nil dsn")
  else if negb (log o) then Err (EText "nil logger")
  else if maxOpenConns o <? 1 then Err (EText "max open conns must be >= 1")
  else if maxIdleConns o <? 0 then Err (EText "max idle conns must be >= 0")
  else Ok tt.

Section create.
Context (answer : nat → option err).

Definition Create (dsn : string) (opts : list (Options → Options)) : H (result nat) :=
  let options := foldl (λ o opt, opt o) (mkOptions dsn 10 5 (60 * Minute) (5 * Minute) true true) opts in
  match Validate options with
  | Err e => fail_with (wrapf "validate options" e)
  | Ok _ =>
      r ← open_pool answer;
      match r with
      | Err e => fail_with (wrapf "open mysql" e)
      | Ok db =>
          _ ← set_limits db (mkLimits (maxOpenConns options) (maxIdleConns options)
                                      (connMaxLifetime options) (connMaxIdleTime options));
          if checkPing options then
            e ← ask answer;
            match e with
            | Some e => _ ← close_pool answer db; fail_with (wrapf "ping mysql" e)
            | None => mret (Ok db)
            end
          else mret (Ok db)
      end
  end.

Definition Close (c : option nat) : H (option err) :=
  match c with None => mret None | Some db => close_pool answer db end.
End create.
End MysqlClient.

(** ** Picodata *)

Module PicodataClient.
Record Options : Type := mkOptions { dsn : string; checkPing : bool; log : bool; strategy : bool }.

Definition WithDSN (v : string) (o : Options) : Options := mkOptions v (checkPing o) (log o) (strategy o).
Definition WithCheckPing (v : bool) (o : Options) : Options := mkOptions (dsn o) v (log o) (strategy o).
Definition WithLogger (v : bool) (o : Options) : Options := mkOptions (dsn o) (checkPing o) v (strategy o).
Definition WithBalanceStrategy (v : bool) (o : Options) : Options := mkOptions (dsn o) (checkPing o) (log o) v.

Definition Validate (o : Options) : result unit :=
  if negb (log o) then Err (EText "nil logger")
  else if negb (strategy o) then Err (EText "nil balance strategy")
  else if String.eqb (dsn o) "" then Err (EText "nil dsn")
  else Ok tt.

Section create.
Context (answer : nat → option err).

(** [logInitOnce.Do]: the first caller sets the library's logger and sees an
    error of it. *)
Definition init_log : H (option err) := λ h,
  if hs_once h then (None, h)
  else match ask answer (fire_once h) with
       | (Some e, h') => (Some (wrapf "picodata: set log level" e), h')
       | (None, h') => (None, h')
       end.

Definition checkPool (pool : nat) (enabled : bool) : H (result unit) :=
  if negb enabled then mret (Ok tt)
  else
    e ← ask answer;
    match e with
    | Some e => _ ← close_quietly pool; fail_with (wrapf "picodata: unable to ping database" e)
    | None => mret (Ok tt)
    end.

Definition Create (dsn : string) (opts : list (Options → Options)) : H (result nat) :=
  let options := foldl (λ o opt, opt o) (mkOptions dsn true true true) opts in
  match Validate options with
  | Err e => fail_with (wrapf "validate options" e)
  | Ok _ =>
      e ← ask answer;                                     (* pgxpool.ParseConfig *)
      match e with
      | Some e => fail_with e
      | None =>
          e ← init_log;
          match e with
          | Some e => fail_with e
          | None =>
              r ← open_pool answer;
              match r with
              | Err e => fail_with (wrapf "picodata: unable to connect to database" e)
              | Ok pool => _ ←! checkPool pool (checkPing options); mret (Ok pool)
              end
          end
      end
  end.

Definition Close (c : option nat) : H (option err) :=
  match c with None => mret None | Some pool => _ ← close_quietly pool; mret None end.
End create.
End PicodataClient.

(** ** PostgreSQL *)

Module PgClient.
Record TlsConfig : Type := mkTls { tls_MinVersion : Z; tls_ServerName : string; tls_Certificate : string }.
Definition VersionTLS12 : Z := 771.

Record PoolOptions : Type := mkPoolOptions {
  address : string;
  username : string;
  password : string;
  database : string;
  sslMode : string;
  debug : bool;
  maxConnIdleTime : Z;
  maxConnLifeTime : Z;
  minConnectionsCount : Z;
  maxConnectionsCount : Z;
  environment : string;
  tlsCert : string;
  tlsKey : string;
  tlsConfig : option TlsConfig;
  check : bool;
  logger : bool;
  runtimeParams : gmap string string
}.

Definition WithTLSConfig (v : option TlsConfig) (o : PoolOptions) : PoolOptions :=
  mkPoolOptions (address o) (username o) (password o) (database o) (sslMode o) (debug o) (maxConnIdleTime o)
    (maxConnLifeTime o) (minConnectionsCount o) (maxConnectionsCount o) (environment o) (tlsCert o) (tlsKey o) v
    (check o) (logger o) (runtimeParams o).

Definition WithTLSPath (cert key : string) (o : PoolOptions) : PoolOptions :=
  mkPoolOptions (address o) (username o) (password o) (database o) (sslMode o) (debug o) (maxConnIdleTime o)
    (maxConnLifeTime o) (minConnectionsCount o) (maxConnectionsCount o) (environment o) cert key (tlsConfig o)
    (check o) (logger o) (runtimeParams o).

Definition WithLogger (v : bool) (o : PoolOptions) : PoolOptions :=
  mkPoolOptions (address o) (username o) (password o) (database o) (sslMode o) (debug o) (maxConnIdleTime o)
    (maxConnLifeTime o) (minConnectionsCount o) (maxConnectionsCount o) (environment o) (tlsCert o) (tlsKey o)
    (tlsConfig o) (check o) v (runtimeParams o).

Definition WithDebug (v : bool) (o : PoolOptions) : PoolOptions :=
  mkPoolOptions (address o) (username o) (password o) (database o) (sslMode o) v (maxConnIdleTime o)
    (maxConnLifeTime o) (minConnectionsCount o) (maxConnectionsCount o) (environment o) (tlsCert o) (tlsKey o)
    (tlsConfig o) (check o) (logger o) (runtimeParams o).

Definition WithCheck (v : bool) (o : PoolOptions) : PoolOptions :=
  mkPoolOptions (address o) (username o) (password o) (database o) (sslMode o) (debug o) (maxConnIdleTime o)
    (maxConnLifeTime o) (minConnectionsCount o) (maxConnectionsCount o) (environment o) (tlsCert o) (tlsKey o)
    (tlsConfig o) v (logger o) (runtimeParams o).

Definition WithEnvironment (v : string) (o : PoolOptions) : PoolOptions :=
  mkPoolOptions (address o) (username o) (password o) (database o) (sslMode o) (debug o) (maxConnIdleTime o)
    (maxConnLifeTime o) (minConnectionsCount o) (maxConnectionsCount o) v (tlsCert o) (tlsKey o) (tlsConfig o)
    (check o) (logger o) (runtimeParams o).

Definition WithMaxConnIdleTime (v : Z) (o : PoolOptions) : PoolOptions :=
  mkPoolOptions (address o) (username o) (password o) (database o) (sslMode o) (debug o) v (maxConnLifeTime o)
    (minConnectionsCount o) (maxConnectionsCount o) (environment o) (tlsCert o) (tlsKey o) (tlsConfig o) (check o)
    (logger o) (runtimeParams o).

Definition WithMaxConnLifeTime (v : Z) (o : PoolOptions) : PoolOptions :=
  mkPoolOptions (address o) (username o) (password o) (database o) (sslMode o) (debug o) (maxConnIdleTime o) v
    (minConnectionsCount o) (maxConnectionsCount o) (environment o) (tlsCert o) (tlsKey o) (tlsConfig o) (check o)
    (logger o) (runtimeParams o).

Definition WithMaxConnectionsCount (v : Z) (o : PoolOptions) : PoolOptions :=
  mkPoolOptions (address o) (username o) (password o) (database o) (sslMode o) (debug o) (maxConnIdleTime o)
    (maxConnLifeTime o) (minConnectionsCount o) v (environment o) (tlsCert o) (tlsKey o) (tlsConfig o) (check o)
    (logger o) (runtimeParams o).

Definition WithMinConnectionsCount (v : Z) (o : PoolOptions) : PoolOptions :=
  mkPoolOptions (address o) (username o) (password o) (database o) (sslMode o) (debug o) (maxConnIdleTime o)
    (maxConnLifeTime o) v (maxConnectionsCount o) (environment o) (tlsCert o) (tlsKey o) (tlsConfig o) (check o)
    (logger o) (runtimeParams o).

Definition WithSSLMode (v : string) (o : PoolOptions) : PoolOptions :=
  mkPoolOptions (address o) (username o) (password o) (database o) v (debug o) (maxConnIdleTime o)
    (maxConnLifeTime o) (minConnectionsCount o) (maxConnectionsCount o) (environment o) (tlsCert o) (tlsKey o)
    (tlsConfig o) (check o) (logger o) (runtimeParams o).

Definition WithRuntimeParams (v : gmap string string) (o : PoolOptions) : PoolOptions :=
  mkPoolOptions (address o) (username o) (password o) (database o) (sslMode o) (debug o) (maxConnIdleTime o)
    (maxConnLifeTime o) (minConnectionsCount o) (maxConnectionsCount o) (environment o) (tlsCert o) (tlsKey o)
    (tlsConfig o) (check o) (logger o) v.

Definition NewOptions (address username password database : string) (options : list (PoolOptions → PoolOptions)) : PoolOptions :=
  foldl (λ o opt, opt o)
    (mkPoolOptions address username password database "disable" false (5 * Minute) (60 * Minute) 5 10 "prod" "" "" None
       true true ∅) options.

Definition Validate (o : PoolOptions) : result unit :=
  if negb (logger o) then Err (EText "nil logger")
  else if maxConnectionsCount o <? 1 then Err (EText "max connections count must be greater than zero")
  else if minConnectionsCount o <? 1 then Err (EText "min connections count must be greater than zero")
  else if maxConnectionsCount o <? minConnectionsCount o
  then Err (EText "min connections count must not exceed max connections count")
  else Ok tt.

(** What the program reads and sets of [pgxpool.Config]. *)
Record PgxConfig : Type := mkPgxConfig {
  cf_Host : string;
  cf_Port : Z;
  cf_User : string;
  cf_Password : string;
  cf_Database : string;
  cf_RuntimeParams : gmap string string;
  cf_MaxConnIdleTime : Z;
  cf_MaxConnLifetime : Z;
  cf_MinConns : Z;
  cf_MaxConns : Z;
  cf_TLSConfig : option TlsConfig
}.

Record Client : Type := mkClient { cl_pool : nat; cl_config : PgxConfig; cl_environment : string }.

Section create.
Context (answer : nat → option err)
        (ParseConfig : string → result PgxConfig)
        (LoadX509KeyPair : string → string → result string)
        (url_String : string → string → string → string → string → string)  (* user, password, host, path, query *)
        (url_sslmode : string → option string)           (* [u.Query().Get("sslmode")] of a URL that parses *)
        (Itoa : Z → string).

Definition CreateDSN (opts : PoolOptions) : result (option TlsConfig * string) :=
  let dsn rawQuerySSL := url_String (username opts) (password opts) (address opts) (database opts) rawQuerySSL in
  match tlsConfig opts with
  | Some cfg => Ok (Some cfg, dsn "")
  | None =>
      if negb (String.eqb (tlsCert opts) "") && negb (String.eqb (tlsKey opts) "") then
        cert ← res_map_err (wrapf "failed to load x509") (LoadX509KeyPair (tlsCert opts) (tlsKey opts));
        Ok (Some (mkTls VersionTLS12 (address opts) cert), dsn "")
      else Ok (None, dsn ("sslmode=" +:+ sslMode opts))
  end.

Definition pool_config (opts : PoolOptions) (tls : option TlsConfig) (c : PgxConfig) : PgxConfig :=
  mkPgxConfig (cf_Host c) (cf_Port c) (cf_User c) (cf_Password c) (cf_Database c)
    (runtimeParams opts ∪ cf_RuntimeParams c) (maxConnIdleTime opts) (maxConnLifeTime opts)
    (minConnectionsCount opts) (maxConnectionsCount opts) tls.

Definition NewPool (opts : PoolOptions) : H (result Client) :=
  match Validate opts with
  | Err e => fail_with (wrapf "invalid options" (EJoin [ESentinel ErrOption; e]))
  | Ok _ =>
      match CreateDSN opts with
      | Err e => fail_with (wrapf "creating dsn" e)
      | Ok (tls, dsn) =>
          match ParseConfig dsn with
          | Err e => fail_with (wrapf "can't parse connection string to config" e)
          | Ok connConfig =>
              r ← open_pool answer;
              match r with
              | Err e => fail_with (wrapf "can't connect to database" e)
              | Ok p =>
                  let client := mkClient p (pool_config opts tls connConfig) (environment opts) in
                  if check opts then
                    e ← ask answer;                                   (* p.Ping(ctx) *)
                    match e with
                    | Some e => fail_with (wrapf "ping database error" e)
                    | None => mret (Ok client)
                    end
                  else mret (Ok client)
              end
          end
      end
  end.

(** The closers of a client: its engine's pool. *)
Definition Close (c : Client) : H (option err) := _ ← close_quietly (cl_pool c); mret None.

(** backends/pgsql/storage/pgsqlinit/build.go *)

(** [net.JoinHostPort]. *)
Definition JoinHostPort (host port : string) : string :=
  if Contains host ":" then "[" +:+ host +:+ "]:" +:+ port else host +:+ ":" +:+ port.

Definition parseSSLMode (dsn : string) : string :=
  match url_sslmode dsn with
  | None => "disable"
  | Some v => if String.eqb (TrimSpace v) "" then "disable" else TrimSpace v
  end.

Definition pg_Create (dsn : string) (options : list (PoolOptions → PoolOptions)) : H (result Client) :=
  match ParseConfig dsn with
  | Err e => fail_with (wrapf "can't parse connection string to config" e)
  | Ok connConfig =>
      let host := cf_Host connConfig in
      let address := if (0 <? cf_Port connConfig) && negb (String.eqb host "") && negb (Contains host "/")
                     then JoinHostPort host (Itoa (cf_Port connConfig)) else host in
      let opts := [WithSSLMode (parseSSLMode dsn); WithRuntimeParams (cf_RuntimeParams connConfig)] ++ options in
      r ← NewPool (NewOptions address (cf_User connConfig) (cf_Password connConfig) (cf_Database connConfig) opts);
      mret (res_map_err (wrapf "failed to connect to database") r)
  end.

Record PSQLConfig : Type := mkPSQLConfig {
  pc_Address : string; pc_Username : string; pc_Password : string; pc_Database : string; pc_SSLMode : string;
  pc_DebugMode : bool; pc_MinConnectionsCount : Z; pc_MaxConnectionsCount : Z; pc_TLSCert : string; pc_TLSKey : string;
  pc_MaxConnIdleTime : Z; pc_MaxConnLifeTime : Z
}.

Definition CreateWithConfig (c : PSQLConfig) (options : list (PoolOptions → PoolOptions)) : H (result Client) :=
  let opts := [WithMinConnectionsCount (pc_MinConnectionsCount c); WithMaxConnectionsCount (pc_MaxConnectionsCount c);
               WithMaxConnIdleTime (pc_MaxConnIdleTime c); WithMaxConnLifeTime (pc_MaxConnLifeTime c);
               WithSSLMode (pc_SSLMode c); WithDebug (pc_DebugMode c); WithTLSPath (pc_TLSCert c) (pc_TLSKey c)]
              ++ options in
  r ← NewPool (NewOptions (pc_Address c) (pc_Username c) (pc_Password c) (pc_Database c) opts);
  mret (res_map_err (wrapf "failed to connect to database") r).
End create.
End PgClient.

(** ** Ownership *)

(** A constructor owns what it opened until it returns it: an error leaves
    the handles as they were, a client is one pool more. *)
Definition owned_result {A} (pool : A → nat) (limits : A → PoolLimits → Prop) (r : result A) (h h' : Handles) : Prop :=
  match r with
  | Ok c => ∃ l, limits c l ∧ one_more (pool c) l h h'
  | Err _ => same_handles h h'
  end.

Lemma keeps_ask answer : keeps (ask answer).
Proof. apply (keeps_step answer). Qed.
#[export] Hint Resolve keeps_ask : handles.

(** A call that holds nothing leaves the one pool more. *)
Lemma hwp_keeps_more {A} (m : H A) Q id l h0 h : keeps m → one_more id l h0 h →
  (∀ a h', one_more id l h0 h' → Q a h') → hwp m Q h.
Proof. intros Hm Ho HQ. apply HQ. eapply one_more_same_r; [exact Ho|apply Hm]. Qed.

Lemma sqlite_Validate_ok o o' : SqliteClient.Validate o = Ok o' →
  1 ≤ SqliteClient.maxOpenConns o' ∧ 0 ≤ SqliteClient.maxIdleConns o'
  ∧ (SqliteClient.synchronous o' = SynchronousNormal ∨ SqliteClient.synchronous o' = SynchronousFull).
Proof.
  unfold SqliteClient.Validate. destruct (String.eqb (SqliteClient.dsn o) ""); [done|]. destruct (negb (SqliteClient.log o)); [done|].
  destruct (Z.ltb_spec (SqliteClient.maxOpenConns o) 1), (Z.ltb_spec (SqliteClient.maxIdleConns o) 0); try done.
  set (o1 := if String.eqb _ "" then _ else _).
  assert (SqliteClient.maxOpenConns o1 = SqliteClient.maxOpenConns o ∧ SqliteClient.maxIdleConns o1 = SqliteClient.maxIdleConns o)
    as [E1 E2] by (unfold o1; by destruct (String.eqb _ "")).
  destruct (String.eqb_spec (SqliteClient.synchronous o1) SynchronousNormal) as [Hn|_];
    [|destruct (String.eqb_spec (SqliteClient.synchronous o1) SynchronousFull) as [Hf|_]; [|done]];
    cbn; intros [= <-]; rewrite E1, E2; auto.
Qed.

Section ownership.
Context {C : Type} (drv : SqliteDriver C) (answer ctx_error : nat → option err) (bad_conn : err → bool).

Lemma keeps_db_Conn retries mode : keeps (SqliteClient.db_Conn drv answer ctx_error bad_conn retries mode).
Proof.
  induction retries as [|n IH]; intros h; cbn [SqliteClient.db_Conn];
    match goal with |- same_handles h (?m h).2 => change (hwp m (λ _, same_handles h) h) end; hwp_simpl;
    (eapply hwp_mono; [apply (Connect_handles _ _ _ mode h h), same_handles_refl|]); intros [[id c]|e] h1 Hc.
  1,3: hwp_simpl; unfold hwp, adopt_raw; destruct Hc as (Hn & Hr & Hp); split; [done|]; cbn; rewrite Hr; set_solver.
  - done.
  - destruct (bad_conn e); [|done]. eapply same_handles_trans; [exact Hc|apply IH].
Qed.

Lemma sqlite_Create_owns dsn opts h :
  hwp (SqliteClient.Create drv answer ctx_error bad_conn dsn opts)
      (λ r h', owned_result (λ id, id) (λ _ l, 1 ≤ l_maxOpenConns l ∧ 0 ≤ l_maxIdleConns l) r h h') h.
Proof.
  unfold SqliteClient.Create, SqliteClient.close_and_fail, fail_with.
  destruct (SqliteClient.Validate _) as [o|e] eqn:Hv; [|by hwp_simpl]. hwp_simpl.
  eapply hwp_open_pool; [apply same_handles_refl|done|]. intros id h1 H1. hwp_simpl.
  eapply hwp_close_pool; [done|]. intros [e|] h2 H2; [by hwp_simpl|]. hwp_simpl.
  eapply hwp_open_db; [done|]. intros db h3 H3. hwp_simpl. eapply hwp_set_limits; [done|]. clear h1 H1 h2 H2 h3 H3.
  intros h1 H1. hwp_simpl. eapply hwp_keeps_more; [apply keeps_db_Conn|done|]. clear h1 H1. intros [[]|e] h1 H1.
  2: { hwp_simpl. eapply hwp_close_pool; [done|]. intros. by hwp_simpl. }
  hwp_simpl. eapply hwp_keeps_more; [apply keeps_ask|done|]. clear h1 H1. intros [e|] h1 H1.
  { hwp_simpl. eapply hwp_close_pool; [done|]. intros. by hwp_simpl. }
  assert (1 ≤ SqliteClient.maxOpenConns o ∧ 0 ≤ SqliteClient.maxIdleConns o) as Hl.
  { by apply sqlite_Validate_ok in Hv as (? & ? & _). }
  destruct (SqliteClient.checkPing o); hwp_simpl; [|eexists; split; [|exact H1]; done].
  eapply hwp_keeps_more; [apply keeps_ask|done|]. clear h1 H1. intros [e|] h1 H1; hwp_simpl; [|eexists; split; [|exact H1]; done].
  eapply hwp_close_pool; [done|]. intros. by hwp_simpl.
Qed.

Lemma mysql_Create_owns dsn opts h :
  hwp (MysqlClient.Create answer dsn opts)
      (λ r h', owned_result (λ id, id) (λ _ l, 1 ≤ l_maxOpenConns l ∧ 0 ≤ l_maxIdleConns l) r h h') h.
Proof.
  unfold MysqlClient.Create, fail_with. destruct (MysqlClient.Validate _) as [[]|e] eqn:Hv; [|by hwp_simpl]. hwp_simpl.
  set (o := foldl _ _ opts) in *.
  assert (1 ≤ MysqlClient.maxOpenConns o ∧ 0 ≤ MysqlClient.maxIdleConns o) as Hl.
  { unfold MysqlClient.Validate in Hv. destruct (String.eqb _ _); [done|]. destruct (negb (MysqlClient.log o)); [done|].
    destruct (Z.ltb_spec (MysqlClient.maxOpenConns o) 1); [done|].
    by destruct (Z.ltb_spec (MysqlClient.maxIdleConns o) 0). }
  eapply hwp_open_pool; [apply same_handles_refl|done|]. intros id h1 H1. hwp_simpl.
  eapply hwp_set_limits; [done|]. clear h1 H1. intros h1 H1. hwp_simpl.
  destruct (MysqlClient.checkPing o); hwp_simpl; [|eexists; split; [|exact H1]; done].
  eapply hwp_keeps_more; [apply keeps_ask|done|]. clear h1 H1. intros [e|] h1 H1; hwp_simpl; [|eexists; split; [|exact H1]; done].
  eapply hwp_close_pool; [done|]. intros. by hwp_simpl.
Qed.

Lemma picodata_Create_owns dsn opts h :
  hwp (PicodataClient.Create answer dsn opts) (λ r h', owned_result (λ id, id) (λ _ _, True) r h h') h.
Proof.
  unfold PicodataClient.Create, fail_with. destruct (PicodataClient.Validate _) as [[]|e]; [|by hwp_simpl]. hwp_simpl.
  eapply hwp_keeps; [apply keeps_ask|apply same_handles_refl|]. intros [e|] h1 H1; hwp_simpl; [done|].
  assert (keeps (PicodataClient.init_log answer)) as Hlog.
  { intros h0. unfold PicodataClient.init_log. destruct (hs_once h0); [done|]. unfold ask. by destruct (answer _). }
  eapply hwp_keeps; [exact Hlog|done|]. clear h1 H1. intros [e|] h1 H1; hwp_simpl; [done|].
  eapply hwp_open_pool; [done|done|]. clear h1 H1. intros id h1 H1. hwp_simpl. unfold PicodataClient.checkPool.
  destruct (negb _); hwp_simpl; [eexists; split; [|exact H1]; done|].
  eapply hwp_keeps_more; [apply keeps_ask|done|]. clear h1 H1. intros [e|] h1 H1; hwp_simpl; [|eexists; split; [|exact H1]; done].
  eapply hwp_close_quietly; [done|]. intros. by hwp_simpl.
Qed.
End ownership.
