(* ===== verification/Runtimes.v ===== *)
(** * Runtime facades

    backends/{sqlite,mysql,pgsql}/runtime/runtime.go: a client, the
    repositories over it, the transactor and the service, built in order and
    taken down again when a step fails. *)

From Stdlib Require Import Ascii.
From S2P Require Import Prelude GoTime Errors Models Retry Batch Sql Repo Stats GoStrings TableNames Options.
From S2P Require Import Registry PgJobs PgUnique PgReads SqliteJobs MysqlJobs Handles SqliteConnector Clients.
Open Scope Z_scope.

Record Config : Type := mkConfig {
  cfg_DSN : string;
  cfg_Workers : Z;
  cfg_IdleTime : Z;
  cfg_ReserveFor : Z;
  cfg_ReservationBatchSize : Z
}.

(** What is built: the pool of the client and the service. *)
Record Runtime : Type := mkRuntime { rt_pool : nat; rt_service : Service }.

Section runtimes.
Context (answer : nat → option err) (sha256hex : string → string)
        (dispatch : nat → option JobMetadata → string → callback (option err)).

(** A setting left zero keeps the service's default; a logger left nil is
    replaced by the default one before it is used. *)
Definition unless_zero (v : Z) (opt : Z → Options → Options) : list (Options → Options) :=
  if v =? 0 then [] else [opt v].

Definition runtime_options (repo : Repository) (failed : JobsFailedRepository) (c : Config) : list (Options → Options) :=
  [WithJobsRepo (Some repo); WithFanoutJobsRepo (rp_unique repo); WithJobsFailedRepo (Some failed);
   WithTransactor (Some {| tx_SupportsAtomicDLQ := Some true |}); WithLogger true]
  ++ unless_zero (cfg_Workers c) WithWorkers ++ unless_zero (cfg_IdleTime c) WithIdleTime
  ++ unless_zero (cfg_ReserveFor c) WithReserveFor ++ unless_zero (cfg_ReservationBatchSize c) WithReservationBatchSize.

(** [_ = client.Close(); return nil, err]. *)
Definition abandon (close : H (option err)) (e : err) : H (result Runtime) := _ ← close; fail_with e.

Definition build (close : H (option err)) (client : nat) (repo : Repository) (failed : JobsFailedRepository) (c : Config) :
    H (result Runtime) :=
  match New dispatch (runtime_options repo failed c) with
  | Err e => abandon close (wrapf "create outbox service" e)
  | Ok service => mret (Ok (mkRuntime client service))
  end.

(** ** SQLite *)

Definition sqlite_repository : Repository :=
  {| rp_jobs := Sqlite.repository; rp_batch := Some Sqlite.batch_repository;
     rp_unique := Some (Sqlite.unique_repository sha256hex); rp_unique_batch := Some (Sqlite.unique_repository sha256hex);
     rp_stats := Some Sqlite.GetQueueStats |}.

Definition sqlite_Open {C} (drv : SqliteDriver C) (ctx_error : nat → option err) (bad_conn : err → bool)
    (config : Config) (mode : SynchronousMode) : H (result Runtime) :=
  let dsn := TrimSpace (cfg_DSN config) in
  if String.eqb dsn "" then fail_with (EText "outbox SQLite DSN is required")
  else
    r ← SqliteClient.Create drv answer ctx_error bad_conn dsn
          [SqliteClient.WithLogger true; SqliteClient.WithMaxOpenConns 1; SqliteClient.WithMaxIdleConns 1;
           SqliteClient.WithSynchronousMode mode];
    match r with
    | Err e => fail_with (wrapf "open outbox SQLite client" e)
    | Ok client =>
        let close := SqliteClient.Close answer (Some client) in
        match sqlite_jobs_New (Some client) [] with
        | Err e => abandon close (wrapf "create outbox jobs repository" e)
        | Ok _ =>
            match sqlite_failed_New (Some client) [] with
            | Err e => abandon close (wrapf "create outbox failed jobs repository" e)
            | Ok _ => build close client sqlite_repository Sqlite.failed_repository config
            end
        end
    end.

(** ** MySQL *)

Definition mysql_repository (ts : Z → Z) : Repository :=
  {| rp_jobs := Mysql.repository ts; rp_batch := Some (Mysql.batch_repository ts);
     rp_unique := Some (Mysql.unique_repository ts sha256hex); rp_unique_batch := Some (Mysql.unique_repository ts sha256hex);
     rp_stats := Some (Mysql.GetQueueStats ts) |}.

Definition mysql_Open (ts : Z → Z) (config : Config) : H (result Runtime) :=
  let dsn := TrimSpace (cfg_DSN config) in
  if String.eqb dsn "" then fail_with (EText "outbox MySQL DSN is required")
  else
    r ← MysqlClient.Create answer dsn [MysqlClient.WithLogger true];
    match r with
    | Err e => fail_with (wrapf "open outbox MySQL client" e)
    | Ok client =>
        let close := MysqlClient.Close answer (Some client) in
        match mysql_jobs_New (Some client) [] with
        | Err e => abandon close (wrapf "create outbox jobs repository" e)
        | Ok _ =>
            match mysql_failed_New (Some client) [] with
            | Err e => abandon close (wrapf "create outbox failed jobs repository" e)
            | Ok _ => build close client (mysql_repository ts) (Mysql.failed_repository ts) config
            end
        end
    end.

(** ** PostgreSQL *)

Definition runtimePoolOptions (minConnectionsCount maxConnectionsCount : Z) :
    result (list (PgClient.PoolOptions → PgClient.PoolOptions)) :=
  if (minConnectionsCount =? 0) && (maxConnectionsCount =? 0) then Ok []
  else if (minConnectionsCount <=? 0) || (maxConnectionsCount <=? 0)
  then Err (EText "outbox PostgreSQL min and max connection counts must both be positive or both be zero")
  else if maxConnectionsCount <? minConnectionsCount
  then Err (EText "outbox PostgreSQL min connections count must not exceed max connections count")
  else Ok [PgClient.WithMinConnectionsCount minConnectionsCount; PgClient.WithMaxConnectionsCount maxConnectionsCount].

Definition pg_repository (ts : Z → Z) (less : JobCapability → JobCapability → bool) : Repository :=
  {| rp_jobs := Pg.repository ts; rp_batch := Some (Pg.batch_repository ts);
     rp_unique := Some (PgUnique.unique_repository ts sha256hex); rp_unique_batch := Some (PgUnique.unique_repository ts sha256hex);
     rp_stats := Some (PgReads.GetQueueStats ts less) |}.

Definition pg_Open (ParseConfig : string → result PgClient.PgxConfig) (LoadX509KeyPair : string → string → result string)
    (url_String : string → string → string → string → string → string) (url_sslmode : string → option string)
    (Itoa : Z → string) (ts : Z → Z) (less : JobCapability → JobCapability → bool)
    (config : Config) (minConnectionsCount maxConnectionsCount : Z) : H (result Runtime) :=
  let dsn := TrimSpace (cfg_DSN config) in
  if String.eqb dsn "" then fail_with (EText "outbox PostgreSQL DSN is required")
  else
    match runtimePoolOptions minConnectionsCount maxConnectionsCount with
    | Err e => fail_with e
    | Ok poolOptions =>
        r ← PgClient.pg_Create answer ParseConfig LoadX509KeyPair url_String url_sslmode Itoa dsn
              (poolOptions ++ [PgClient.WithLogger true]);
        match r with
        | Err e => fail_with (wrapf "open outbox PostgreSQL client" e)
        | Ok client =>
            let close := PgClient.Close client in
            match pg_New (Some client) with
            | Err e => abandon close (wrapf "create outbox jobs repository" e)
            | Ok _ =>
                match pg_New (Some client) with
                | Err e => abandon close (wrapf "create outbox failed jobs repository" e)
                | Ok _ => build close (PgClient.cl_pool client) (pg_repository ts less) (PgReads.failed_repository ts) config
                end
            end
        end
    end.

(** ** The methods of a runtime *)

Definition DatabaseReadiness (backend : string) (r : option Runtime) : H (option err) :=
  match r with
  | None => mret (Some (EText ("outbox " +:+ backend +:+ " runtime is not initialized")))
  | Some _ => ask answer
  end.

Definition Readiness (backend : string) (service_readiness : Service → option err) (r : option Runtime) : H (option err) :=
  e ← DatabaseReadiness backend r;
  match e with
  | Some e => mret (Some e)
  | None => mret (r ≫= λ r, service_readiness (rt_service r))
  end.

Definition Close (r : option Runtime) : H (option err) :=
  match r with None => mret None | Some r => close_pool answer (rt_pool r) end.
Definition pg_Close (r : option Runtime) : H (option err) :=
  match r with None => mret None | Some r => _ ← close_quietly (rt_pool r); mret None end.

Definition sqlite_DatabaseReadiness := DatabaseReadiness "SQLite".
Definition mysql_DatabaseReadiness := DatabaseReadiness "MySQL".
Definition pg_DatabaseReadiness := DatabaseReadiness "PostgreSQL".
Definition sqlite_Readiness := Readiness "SQLite".
Definition mysql_Readiness := Readiness "MySQL".
Definition pg_Readiness := Readiness "PostgreSQL".
Definition sqlite_Close := Close.
Definition mysql_Close := Close.

(** [Run] and [BeginDrain] are the service's; a runtime that was never opened
    ignores a drain. *)
Definition Run {W B : Type} (service_Run : Service → W → B * W) (r : Runtime) : W → B * W := service_Run (rt_service r).
Definition BeginDrain {W : Type} (service_BeginDrain : Service → W → W) (r : option Runtime) : W → W :=
  match r with None => λ w, w | Some r => service_BeginDrain (rt_service r) end.
Definition sqlite_Run {W B : Type} := Run (W := W) (B := B).
Definition mysql_Run {W B : Type} := Run (W := W) (B := B).
Definition pg_Run {W B : Type} := Run (W := W) (B := B).
Definition sqlite_BeginDrain {W : Type} := BeginDrain (W := W).
Definition mysql_BeginDrain {W : Type} := BeginDrain (W := W).
Definition pg_BeginDrain {W : Type} := BeginDrain (W := W).

(** ** What [Open] returns *)

(** The service of a runtime: its options are in range and are those of the
    configuration, dead letters are atomic, the fan-out dispatcher is the one
    handler, and it is not running. *)
Record serves (repo : Repository) (failed : JobsFailedRepository) (c : Config) (s : Service) : Prop := {
  sv_valid : valid_options (s_options s);
  sv_atomic : atomicDLQ (s_options s) = true;
  sv_workers : workers (s_options s) = or_default (cfg_Workers c) 1;
  sv_reserveFor : reserveFor (s_options s) = or_default (cfg_ReserveFor c) (5 * Minute);
  sv_batch : reservationBatchSize (s_options s) = or_default (cfg_ReservationBatchSize c) 1;
  sv_repo : s_repo s = repo ∧ s_failed s = failed;
  sv_jobs : s_jobs s = {[ {| cap_Name := FanoutDispatcherJobName; cap_SchemaVersion := FanoutDispatcherSchemaVersion |}
                          := fanoutDispatcher dispatch ]};
  sv_idle : s_running s = false
}.

Lemma register_dispatcher o repo failed :
  RegisterJob (Some (fanoutDispatcher dispatch)) (mkService o repo failed ∅ ∅ false)
  = (Ok tt, mkService o repo failed {[ {| cap_Name := FanoutDispatcherJobName;
        cap_SchemaVersion := FanoutDispatcherSchemaVersion |} := fanoutDispatcher dispatch ]} ∅ false).
Proof.
  unfold RegisterJob, RegisterJobs. cbn [collect_jobs].
  change (capabilityForJob (fanoutDispatcher dispatch))
    with (Ok (E := err) {| cap_Name := FanoutDispatcherJobName; cap_SchemaVersion := FanoutDispatcherSchemaVersion |}).
  cbn [res_map_err mbind res_bind]. rewrite lookup_empty. rewrite bool_decide_eq_false_2 by (by intros []).
  cbn [s_running]. rewrite insert_empty, map_to_list_singleton. cbn [fmap list_fmap fst check_unregistered s_jobs s_batchJobs].
  rewrite !lookup_empty, !bool_decide_eq_false_2 by (by intros []).
  unfold set_handlers. cbn. by rewrite (right_id_L ∅ (∪)).
Qed.

Lemma New_serves repo failed c s : is_Some (rp_unique repo) →
  New dispatch (runtime_options repo failed c) = Ok s → serves repo failed c s.
Proof.
  intros [u Hu]. unfold New, NewOptions. set (o := detectOptionalRepositories _).
  assert (jobsRepo o = Some repo ∧ jobsFailedRepo o = Some failed ∧ fanoutJobsRepo o = Some u
    ∧ transactor o = Some {| tx_SupportsAtomicDLQ := Some true |}
    ∧ workers o = or_default (cfg_Workers c) 1 ∧ reserveFor o = or_default (cfg_ReserveFor c) (5 * Minute)
    ∧ reservationBatchSize o = or_default (cfg_ReservationBatchSize c) 1) as (Hr & Hf & Hfan & Ht & Hw & Hrf & Hb).
  { unfold o, runtime_options, unless_zero, or_default, detectOptionalRepositories.
    destruct (cfg_Workers c =? 0), (cfg_IdleTime c =? 0), (cfg_ReserveFor c =? 0), (cfg_ReservationBatchSize c =? 0);
      cbn; rewrite Hu; done. }
  clearbody o. destruct (Options_Validate o) as [o'|e] eqn:Hv; cbn [res_map_err mbind res_bind]; [|done].
  apply options_validated in Hv as [Hvalid ->].
  assert (declares_atomic o = true) as Hat by (unfold declares_atomic; by rewrite Ht). rewrite Hat.
  assert (valid_options (set_atomicDLQ true o)) as Hvalid' by (destruct Hvalid; by split).
  change (jobsRepo (set_atomicDLQ true o)) with (jobsRepo o). change (jobsFailedRepo (set_atomicDLQ true o)) with (jobsFailedRepo o).
  change (fanoutJobsRepo (set_atomicDLQ true o)) with (fanoutJobsRepo o). rewrite Hr, Hf, Hfan, register_dispatcher. cbn.
  intros [= <-]. by split.
Qed.

(** A build takes the client over, or closes it. *)
Lemma build_owns close client repo failed c l h0 h : is_Some (rp_unique repo) → one_more client l h0 h →
  (∀ h', one_more client l h0 h' → hwp close (λ _, same_handles h0) h') →
  hwp (build close client repo failed c) (λ r h', match r with
    | Ok rt => serves repo failed c (rt_service rt) ∧ one_more (rt_pool rt) l h0 h'
    | Err _ => same_handles h0 h' end) h.
Proof.
  intros Hu Ho Hclose. unfold build, abandon, fail_with. destruct (New dispatch _) as [s|e] eqn:Hn.
  - hwp_simpl. split; [by apply New_serves|done].
  - hwp_simpl. eapply hwp_mono; [by apply Hclose|]. intros. by hwp_simpl.
Qed.

Lemma close_pool_owns client l h0 h : one_more client l h0 h → hwp (close_pool answer client) (λ _, same_handles h0) h.
Proof. intros Ho. by eapply hwp_close_pool. Qed.

Lemma pg_close_owns client l h0 h : one_more (PgClient.cl_pool client) l h0 h →
  hwp (PgClient.Close client) (λ _, same_handles h0) h.
Proof. intros Ho. unfold PgClient.Close. hwp_simpl. eapply hwp_close_quietly; [done|]. intros. by hwp_simpl. Qed.

(** The runtimes over database/sql. *)
Inductive opens : H (result Runtime) → Repository → JobsFailedRepository → Config → Prop :=
| opens_sqlite C (drv : SqliteDriver C) ctx_error bad_conn config mode :
    opens (sqlite_Open drv ctx_error bad_conn config mode) sqlite_repository Sqlite.failed_repository config
| opens_mysql ts config : opens (mysql_Open ts config) (mysql_repository ts) (Mysql.failed_repository ts) config.


(** ** PostgreSQL's pool *)

Section postgres.
Context (ParseConfig : string → result PgClient.PgxConfig) (LoadX509KeyPair : string → string → result string)
        (url_String : string → string → string → string → string → string) (url_sslmode : string → option string)
        (Itoa : Z → string).

(** The error of a ping that failed after the pool was opened. *)
Definition ping_failed (e : err) : Prop := ∃ pe, e = wrapf "ping database error" pe.

Lemma not_ping pre e : String.prefix "p" pre = false → pre ≠ "" → ¬ ping_failed (wrapf pre e).
Proof.
  intros Hp Hne [pe Heq]. destruct pre as [|a pre]; [done|].
  assert (a = "p"%char) as -> by (unfold wrapf in Heq; by inversion Heq). by destruct pre.
Qed.

Lemma NewPool_pool opts h :
  hwp (PgClient.NewPool answer ParseConfig LoadX509KeyPair url_String opts) (λ r h', match r with
    | Ok client => one_more (PgClient.cl_pool client) no_limits h h'
        ∧ 1 ≤ PgClient.cf_MinConns (PgClient.cl_config client) ≤ PgClient.cf_MaxConns (PgClient.cl_config client)
    | Err e => (¬ ping_failed e ∧ same_handles h h')
               ∨ (ping_failed e ∧ PgClient.check opts = true ∧ ∃ id, one_more id no_limits h h')
    end) h.
Proof.
  unfold PgClient.NewPool, fail_with.
  destruct (PgClient.Validate opts) as [[]|e] eqn:Hv; [|hwp_simpl; left; split; [by apply not_ping|done]].
  destruct (PgClient.CreateDSN _ _ opts) as [[tls dsn]|e]; [|hwp_simpl; left; split; [by apply not_ping|done]].
  destruct (ParseConfig dsn) as [cfg|e]; [|hwp_simpl; left; split; [by apply not_ping|done]]. hwp_simpl.
  assert (1 ≤ PgClient.minConnectionsCount opts ≤ PgClient.maxConnectionsCount opts) as Hrange.
  { unfold PgClient.Validate in Hv. destruct (negb _); [done|].
    destruct (Z.ltb_spec (PgClient.maxConnectionsCount opts) 1); [done|].
    destruct (Z.ltb_spec (PgClient.minConnectionsCount opts) 1); [done|].
    by destruct (Z.ltb_spec (PgClient.maxConnectionsCount opts) (PgClient.minConnectionsCount opts)). }
  eapply hwp_open_pool; [apply same_handles_refl| |].
  { intros e h1 H1. hwp_simpl. left. split; [by apply not_ping|done]. }
  intros id h1 H1. destruct (PgClient.check opts) eqn:Hcheck; hwp_simpl; [|by split].
  eapply hwp_keeps_more; [apply keeps_ask|done|]. clear h1 H1. intros [e|] h1 H1; hwp_simpl; [|by split].
  right. split_and!; [by eexists|done|by exists id].
Qed.

(** The PostgreSQL pool.  A pool that is returned has limits in range and
    is the one handle the call holds.  An error of the options, of the
    certificate, of the connection string or of the connection leaves nothing
    open; but when the pool was opened and the ping that checks it fails, the
    pool stays open and the caller has no client to close it with. *)
Theorem NewPool_leaks_on_ping opts h r h' :
  PgClient.NewPool answer ParseConfig LoadX509KeyPair url_String opts h = (r, h') →
  match r with
  | Ok client => one_more (PgClient.cl_pool client) no_limits h h'
      ∧ 1 ≤ PgClient.cf_MinConns (PgClient.cl_config client) ≤ PgClient.cf_MaxConns (PgClient.cl_config client)
  | Err e => (¬ ping_failed e ∧ same_handles h h')
             ∨ (ping_failed e ∧ PgClient.check opts = true ∧ ∃ id, one_more id no_limits h h')
  end.
Proof. apply (hwp_run _ _ _ _ _ (NewPool_pool opts h)). Qed.
End postgres.
End runtimes.
