(* ===== verification/Engine.v ===== *)
(** * The PostgreSQL engine

    backends/pgsql/storage/pgsqlclient/pg.go over backends/pgsql/storage/
    {context,spans}.go, and the options of
    backends/pgsql/storage/transaction/transaction_manager.go: which
    connection a statement is sent to.  A context is the chain of its values,
    innermost first; what pgx and scany answer is a parameter. *)

From S2P Require Import Prelude GoTime Errors.
Open Scope Z_scope.

(** ** Contexts *)

Inductive CtxKey : Type := txKey | sqliteTxKey | mysqlTxKey | picodataTxKey | KeyIsolateMode | KeyAccessMode | spanKey | otherKey (name : string).
#[global] Instance CtxKey_eq_dec : EqDecision CtxKey.
Proof. solve_decision. Defined.

Inductive TxIsoLevel : Type := ReadCommittedLevel | RepeatableReadLevel | SerializableLevel | OtherLevel (s : string).
Inductive TxAccessMode : Type := ReadWrite | ReadOnly | OtherMode (s : string).

Inductive CtxValue : Type :=
| VTx (tx : nat)                      (* a [pgx.Tx] *)
| VIso (l : TxIsoLevel)
| VAccess (m : TxAccessMode)
| VOther.

Abbreviation Context := (list (CtxKey * CtxValue)).

Definition ctx_WithValue (ctx : Context) (k : CtxKey) (v : CtxValue) : Context := (k, v) :: ctx.

Fixpoint Value (ctx : Context) (k : CtxKey) : option CtxValue :=
  match ctx with
  | [] => None
  | (k', v) :: ctx => if decide (k' = k) then Some v else Value ctx k
  end.

Definition WithTx (ctx : Context) (tx : nat) : Context := ctx_WithValue ctx txKey (VTx tx).
Definition GetTx (ctx : Context) : option nat :=
  match Value ctx txKey with Some (VTx tx) => Some tx | _ => None end.

(** [opentracing.StartSpanFromContext] puts the span into the context. *)
Definition CreateSpan (ctx : Context) : Context := ctx_WithValue ctx spanKey VOther.

(** [WithValue] of the transaction manager: a nil parent is the background. *)
Definition WithValue (parent : option Context) (k : CtxKey) (v : CtxValue) : Context :=
  ctx_WithValue (default [] parent) k v.

(** The [pgx.TxOptions] of [RunInTx] and of its variants. *)
Definition RunInTx_options (ctx : Context) : TxIsoLevel * TxAccessMode :=
  (match Value ctx KeyIsolateMode with Some (VIso l) => l | _ => ReadCommittedLevel end,
   match Value ctx KeyAccessMode with Some (VAccess m) => m | _ => ReadWrite end).
Definition ReadCommitted_options (accessMode : TxAccessMode) : TxIsoLevel * TxAccessMode := (ReadCommittedLevel, accessMode).
Definition RepeatableRead_options (accessMode : TxAccessMode) : TxIsoLevel * TxAccessMode := (RepeatableReadLevel, accessMode).
Definition Serializable_options (accessMode : TxAccessMode) : TxIsoLevel * TxAccessMode := (SerializableLevel, accessMode).

(** ** The other backends

    backends/{sqlite,mysql,picodata}/storage/transaction/context.go and
    [executor] of their repositories: each package has a key of its own. *)

Inductive Executor : Type := OnTx (tx : nat) | OnPool.

Definition with_tx (k : CtxKey) (ctx : Context) (tx : nat) : Context := ctx_WithValue ctx k (VTx tx).
Definition get_tx (k : CtxKey) (ctx : Context) : option nat :=
  match Value ctx k with Some (VTx tx) => Some tx | _ => None end.
Definition executor (k : CtxKey) (ctx : Context) : Executor :=
  match get_tx k ctx with Some tx => OnTx tx | None => OnPool end.

Definition sqlite_WithTx := with_tx sqliteTxKey.
Definition sqlite_GetTx := get_tx sqliteTxKey.
Definition sqlite_jobs_executor := executor sqliteTxKey.
Definition sqlite_failed_executor := executor sqliteTxKey.
Definition mysql_WithTx := with_tx mysqlTxKey.
Definition mysql_GetTx := get_tx mysqlTxKey.
Definition mysql_jobs_executor := executor mysqlTxKey.
Definition mysql_failed_executor := executor mysqlTxKey.
Definition picodata_WithTx := with_tx picodataTxKey.
Definition picodata_GetTx := get_tx picodataTxKey.
Definition picodata_jobs_executor := executor picodataTxKey.
Definition picodata_failed_executor := executor picodataTxKey.

(** ** The engine *)

(** The calls on an executor. *)
Inductive Call : Type :=
| CQuery (sql : string) (args : list string)
| CExec (sql : string) (args : list string)
| CQueryRow (sql : string) (args : list string)
| CGet (sql : string) (args : list string)
| CSelect (sql : string) (args : list string)
| CBegin (options : TxIsoLevel * TxAccessMode)
| CSendBatch (statements : list string)
| CCopyFrom (table : string) (columns : list string)
| CPing
| CCommit
| CRollback.

(** The calls that carry statements. *)
Definition carries (c : Call) : bool :=
  match c with CBegin _ | CPing | CCommit | CRollback => false | _ => true end.

(** What a builder renders. *)
Definition Sqlizer : Type := result (string * list string).

Section engine.
Context {A : Type} (reply : nat → Executor → Call → result A) (scanOne scanAll : A → result A).

(** The calls made so far, newest last. *)
Definition T (B : Type) : Type := list (Executor * Call) → B * list (Executor * Call).
#[local] Instance T_ret : MRet T := λ B b l, (b, l).
#[local] Instance T_bind : MBind T := λ B C f m l, let '(b, l') := m l in f b l'.

Definition issue (x : Executor) (c : Call) : T (result A) := λ l, (reply (length l) x c, l ++ [(x, c)]).

(** [if tx := GetTx(ctx); tx != nil { tx.f } ; pool.f]. *)
Definition route (ctx : Context) (c : Call) : T (result A) :=
  match GetTx ctx with
  | Some tx => issue (OnTx tx) c
  | None => issue OnPool c
  end.

Definition Query (ctx : Context) (sql : string) (args : list string) : T (result A) :=
  let ctx := CreateSpan ctx in route ctx (CQuery sql args).
Definition Exec (ctx : Context) (sql : string) (args : list string) : T (result A) :=
  let ctx := CreateSpan ctx in route ctx (CExec sql args).
Definition QueryRow (ctx : Context) (sql : string) (args : list string) : T (result A) :=
  let ctx := CreateSpan ctx in route ctx (CQueryRow sql args).

Definition to_sql (e : err) : err := wrapf "postgres: to sql" e.

Definition ScanOne (ctx : Context) (sql : string) (args : list string) : T (result A) :=
  let ctx := CreateSpan ctx in
  r ← Query ctx sql args;
  mret (match r with Err e => Err (to_sql e) | Ok rows => scanOne rows end).
Definition ScanAll (ctx : Context) (sql : string) (args : list string) : T (result A) :=
  let ctx := CreateSpan ctx in
  r ← Query ctx sql args;
  mret (match r with Err e => Err (to_sql e) | Ok rows => scanAll rows end).

Definition ScanOnex (ctx : Context) (sqlizer : Sqlizer) : T (result A) :=
  match sqlizer with
  | Err e => mret (Err (to_sql e))
  | Ok (sql, args) =>
      let ctx := CreateSpan ctx in
      r ← Query ctx sql args;
      mret (match r with Err e => Err (to_sql e) | Ok rows => scanOne rows end)
  end.
Definition ScanAllx (ctx : Context) (sqlizer : Sqlizer) : T (result A) :=
  match sqlizer with
  | Err e => mret (Err (to_sql e))
  | Ok (sql, args) =>
      let ctx := CreateSpan ctx in
      r ← Query ctx sql args;
      mret (match r with Err e => Err (to_sql e) | Ok rows => scanAll rows end)
  end.

Definition Getx (ctx : Context) (sqlizer : Sqlizer) : T (result A) :=
  match sqlizer with
  | Err e => mret (Err (to_sql e))
  | Ok (query, args) => let ctx := CreateSpan ctx in route ctx (CGet query args)
  end.
Definition Selectx (ctx : Context) (sqlizer : Sqlizer) : T (result A) :=
  match sqlizer with
  | Err e => mret (Err (to_sql e))
  | Ok (query, args) => let ctx := CreateSpan ctx in route ctx (CSelect query args)
  end.
Definition Execx (ctx : Context) (sqlizer : Sqlizer) : T (result A) :=
  match sqlizer with
  | Err e => mret (Err (to_sql e))
  | Ok (query, args) => let ctx := CreateSpan ctx in route ctx (CExec query args)
  end.

(** A transaction is always begun on the pool. *)
Definition BeginTx (ctx : Context) (options : TxIsoLevel * TxAccessMode) : T (result A) := issue OnPool (CBegin options).

Definition SendBatch (ctx : Context) (b : list string) : T (result A) :=
  let ctx := CreateSpan ctx in route ctx (CSendBatch b).
Definition CopyFrom (ctx : Context) (table : string) (columns : list string) : T (result A) :=
  let ctx := CreateSpan ctx in route ctx (CCopyFrom table columns).
Definition Ping (ctx : Context) : T (result A) := issue OnPool CPing.

(** ** Routing *)

(** The operations that carry statements. *)
Inductive statement : (Context → T (result A)) → Prop :=
| st_Query sql args : statement (λ ctx, Query ctx sql args)
| st_Exec sql args : statement (λ ctx, Exec ctx sql args)
| st_QueryRow sql args : statement (λ ctx, QueryRow ctx sql args)
| st_ScanOne sql args : statement (λ ctx, ScanOne ctx sql args)
| st_ScanAll sql args : statement (λ ctx, ScanAll ctx sql args)
| st_ScanOnex q : statement (λ ctx, ScanOnex ctx q)
| st_ScanAllx q : statement (λ ctx, ScanAllx ctx q)
| st_Getx q : statement (λ ctx, Getx ctx q)
| st_Selectx q : statement (λ ctx, Selectx ctx q)
| st_Execx q : statement (λ ctx, Execx ctx q)
| st_SendBatch b : statement (λ ctx, SendBatch ctx b)
| st_CopyFrom table columns : statement (λ ctx, CopyFrom ctx table columns).

Definition executor_of (ctx : Context) : Executor := match GetTx ctx with Some tx => OnTx tx | None => OnPool end.

Lemma Value_other ctx k v k' : k ≠ k' → Value (ctx_WithValue ctx k v) k' = Value ctx k'.
Proof. intros Hk. cbn. by rewrite decide_False. Qed.

Lemma GetTx_other ctx k v : k ≠ txKey → GetTx (ctx_WithValue ctx k v) = GetTx ctx.
Proof. intros Hk. unfold GetTx. by rewrite Value_other. Qed.

(** A repository joins the transaction of its own backend, and of no other. *)
Lemma executor_own k k' ctx tx : executor k (with_tx k' ctx tx) = if decide (k' = k) then OnTx tx else executor k ctx.
Proof. unfold executor, get_tx, with_tx, ctx_WithValue. cbn. by destruct (decide (k' = k)). Qed.

Lemma executor_span ctx : executor_of (CreateSpan ctx) = executor_of ctx.
Proof. unfold executor_of, CreateSpan. by rewrite GetTx_other. Qed.

Lemma route_executor ctx c l : route ctx c l = (reply (length l) (executor_of ctx) c, l ++ [(executor_of ctx, c)]).
Proof. unfold route, executor_of. by destruct (GetTx ctx). Qed.

(** One call at most, a statement on the executor of the context. *)
Definition sent_to (x : Executor) (c : Executor * Call) : Prop := c.1 = x ∧ carries c.2 = true.

Lemma statement_calls op ctx l : statement op →
  ∃ calls, (op ctx l).2 = l ++ calls ∧ (length calls ≤ 1)%nat ∧ Forall (sent_to (executor_of ctx)) calls.
Proof.
  assert (∀ (m : T (result A)) c, (m l).2 = l ++ [(executor_of ctx, c)] → carries c = true →
    ∃ calls, (m l).2 = l ++ calls ∧ (length calls ≤ 1)%nat ∧ Forall (sent_to (executor_of ctx)) calls) as Hone.
  { intros m c -> Hc. eexists. split; [done|]. split; [cbn; lia|]. by constructor. }
  assert (∀ (m : T (result A)), (m l).2 = l →
    ∃ calls, (m l).2 = l ++ calls ∧ (length calls ≤ 1)%nat ∧ Forall (sent_to (executor_of ctx)) calls) as Hnone.
  { intros m ->. exists []. rewrite app_nil_r. split; [done|]. split; [cbn; lia|constructor]. }
  destruct 1; try (destruct q as [[sql args]|e]; [|by apply Hnone]);
    (eapply Hone; [
      unfold Query, Exec, QueryRow, ScanOne, ScanAll, ScanOnex, ScanAllx, Getx, Selectx, Execx, SendBatch, CopyFrom, Query, mbind, T_bind;
      cbv zeta; rewrite route_executor, ?executor_span; reflexivity|reflexivity]).
Qed.

(** The contexts a callback of a transaction may use: that of the transaction
    with further values and spans. *)
Inductive derived (tx : nat) : Context → Prop :=
| derived_tx ctx : derived tx (WithTx ctx tx)
| derived_value ctx k v : derived tx ctx → k ≠ txKey → derived tx (ctx_WithValue ctx k v).

Lemma derived_executor tx ctx : derived tx ctx → executor_of ctx = OnTx tx.
Proof.
  intros Hd. assert (GetTx ctx = Some tx) as Htx; [|unfold executor_of; by rewrite Htx].
  induction Hd as [ctx|ctx k v _ IH Hk]; [done|]. by rewrite GetTx_other.
Qed.

(** Statements in sequence. *)
Fixpoint run_all (ops : list (Context * (Context → T (result A)))) : T unit :=
  match ops with
  | [] => mret tt
  | (ctx, op) :: ops => _ ← op ctx; run_all ops
  end.

(** Statements join the transaction of their context.  Whatever a callback
    issues through the engine, by any of its methods and in whatever order,
    with the context it was given or one with further values and tracing spans,
    goes to its transaction, each operation at most once, and nothing of it to
    the pool; a query that cannot be built issues nothing. *)
Theorem statements_join_transaction tx ops l : Forall (λ o, derived tx o.1 ∧ statement o.2) ops →
  ∃ calls, (run_all ops l).2 = l ++ calls ∧ (length calls ≤ length ops)%nat ∧ Forall (sent_to (OnTx tx)) calls.
Proof.
  intros HF. revert l. induction HF as [|[ctx op] ops [Hd Hst] _ IH]; intros l; cbn.
  { exists []. rewrite app_nil_r. split; [done|]. split; [cbn; lia|constructor]. }
  destruct (statement_calls op ctx l Hst) as (calls & Hc & Hn & Hx). rewrite (derived_executor tx ctx Hd) in Hx.
  unfold mbind, T_bind. destruct (op ctx l) as [r l1]. cbn in Hc. subst l1.
  destruct (IH (l ++ calls)) as (calls' & -> & Hn' & Hx'). exists (calls ++ calls'). rewrite (assoc (++)).
  split; [done|]. rewrite length_app. split; [cbn; lia|]. by apply Forall_app.
Qed.

(** Outside a transaction they go to the pool, and a transaction is begun
    there with the options its context asks for. *)
Lemma statements_use_pool op ctx l : GetTx ctx = None → statement op →
  ∃ calls, (op ctx l).2 = l ++ calls ∧ Forall (sent_to OnPool) calls.
Proof.
  intros Hc Hst. destruct (statement_calls op ctx l Hst) as (calls & ? & _ & Hx).
  unfold executor_of in Hx. rewrite Hc in Hx. eauto.
Qed.
End engine.
