(* ===== verification/Scopes.v ===== *)
(** * Transaction scopes

    The transaction manager of PostgreSQL
    (backends/pgsql/storage/transaction/transaction_manager.go) over the engine
    of [Engine]: which calls a scope makes on which connection, and in which
    order.  [Transactions] says what they do to the tables.  A transaction is
    named by the position of the call that began it. *)

From S2P Require Import Prelude GoTime Errors Transactions Engine.
Open Scope Z_scope.

Section scopes.
Context {A : Type} (reply : nat → Executor → Call → result A) (scanOne scanAll : A → result A).
#[local] Existing Instance T_ret.
#[local] Existing Instance T_bind.

Definition FnCallback : Type := Context → T Exit.

(** The position the next call will have. *)
Definition position : T nat := λ l, (length l, l).

Definition failure {B} (r : result B) : option err := match r with Ok _ => None | Err e => Some e end.

(** The deferred function: it commits what returned nil, and rolls back what
    did not, or could not be committed. *)
Definition finalize_tx (tx : nat) (x : Exit) : T Exit :=
  e1 ← (if callbackReturned x && is_nil (callback_error x)
        then r ← issue reply (OnTx tx) CCommit; mret (wrapf "commit failed" <$> failure r)
        else mret (callback_error x));
  if negb (callbackReturned x) || negb (is_nil e1) then
    r ← issue reply (OnTx tx) CRollback;
    mret (finished x (match failure r with
                      | None => e1
                      | Some rb => errors_Join [e1; Some (wrapf "rollback failed" rb)]
                      end))
  else mret (finished x e1).

Definition runTransaction (ctx : Context) (txOpts : TxIsoLevel * TxAccessMode) (fn : FnCallback) : T Exit :=
  match GetTx ctx with
  | Some _ => fn ctx
  | None =>
      tx ← position;
      r ← BeginTx reply ctx txOpts;
      match r with
      | Err e => mret (Returned (Some (wrapf "can't begin transaction" e)))
      | Ok _ => x ← fn (WithTx ctx tx); finalize_tx tx x
      end
  end.

Definition RunInTx (ctx : Context) (f : FnCallback) : T Exit := runTransaction ctx (RunInTx_options ctx) f.
Definition ReadCommitted (ctx : Context) (accessMode : TxAccessMode) (f : FnCallback) : T Exit :=
  runTransaction ctx (ReadCommitted_options accessMode) f.
Definition RepeatableRead (ctx : Context) (accessMode : TxAccessMode) (f : FnCallback) : T Exit :=
  runTransaction ctx (RepeatableRead_options accessMode) f.
Definition Serializable (ctx : Context) (accessMode : TxAccessMode) (f : FnCallback) : T Exit :=
  runTransaction ctx (Serializable_options accessMode) f.

(** ** Callbacks

    What a callback can be made of when it uses the context it is given, or
    one derived from it: statements of the engine, context values, and scopes
    of its own around further callbacks, each continuing as its answer says. *)
Inductive scoped : FnCallback → Prop :=
| sc_exit x : scoped (λ _, mret x)
| sc_statement op k : statement reply scanOne scanAll op → (∀ r, scoped (k r)) →
    scoped (λ ctx, r ← op ctx; k r ctx)
| sc_value key v fn : key ≠ txKey → scoped fn → scoped (λ ctx, fn (ctx_WithValue ctx key v))
| sc_scope opts fn k : scoped fn → (∀ e, scoped (k e)) →
    scoped (λ ctx, x ← runTransaction ctx (opts ctx) fn;
                   match x with Returned e => k e ctx | _ => mret x end).

(** In a transaction, a callback only sends statements to it. *)
Lemma scoped_joins fn : scoped fn → ∀ ctx tx l, GetTx ctx = Some tx →
  ∃ calls, (fn ctx l).2 = l ++ calls ∧ Forall (sent_to (OnTx tx)) calls.
Proof.
  induction 1 as [x|op k Hop _ IH|key v fn Hkey _ IH|opts fn k _ IH1 _ IH2]; intros ctx tx l Htx.
  - exists []. by rewrite app_nil_r.
  - destruct (statement_calls reply scanOne scanAll op ctx l Hop) as (c1 & Hc1 & _ & Hf1).
    unfold executor_of in Hf1. rewrite Htx in Hf1. unfold mbind, T_bind.
    destruct (op ctx l) as [r l1]. cbn in Hc1. subst l1. destruct (IH r ctx tx (l ++ c1) Htx) as (c2 & -> & Hf2).
    exists (c1 ++ c2). rewrite (assoc (++)). split; [done|by apply Forall_app].
  - apply IH. by rewrite GetTx_other.
  - unfold runTransaction. rewrite Htx. destruct (IH1 ctx tx l Htx) as (c1 & Hc1 & Hf1). unfold mbind, T_bind.
    destruct (fn ctx l) as [x l1]. cbn in Hc1. subst l1. destruct x as [e|v|]; [|by exists c1..].
    destruct (IH2 e ctx tx (l ++ c1) Htx) as (c2 & -> & Hf2).
    exists (c1 ++ c2). rewrite (assoc (++)). split; [done|by apply Forall_app].
Qed.

(** How a scope ends: the last calls on its transaction and what the caller
    sees, by the exit of the callback. *)
Inductive ends (tx : nat) : Exit → list (Executor * Call) → Exit → Prop :=
| end_committed : ends tx (Returned None) [(OnTx tx, CCommit)] (Returned None)
| end_uncommitted e : ends tx (Returned None) [(OnTx tx, CCommit); (OnTx tx, CRollback)] (Returned (Some e))
| end_failed e e' : ends tx (Returned (Some e)) [(OnTx tx, CRollback)] (Returned (Some e'))
| end_panicked v e : ends tx (Panicked v) [(OnTx tx, CRollback)] (Returned (Some e))
| end_exited : ends tx Goexited [(OnTx tx, CRollback)] Goexited.

Lemma finalize_ends tx x l : ∃ last y, finalize_tx tx x l = (y, l ++ last) ∧ ends tx x last y.
Proof.
  unfold finalize_tx, issue, mbind, T_bind, mret, T_ret.
  destruct x as [[e|]|v|]; cbn; repeat (destruct (failure _); cbn); rewrite <- ?app_assoc;
    (eexists _, _; split; [reflexivity|cbn; econstructor]).
Qed.

(** C35: a scope is one transaction.  A scope opened outside a transaction
    begins exactly one, on the pool, with the options of its context; if that
    fails the callback does not run.  Otherwise everything the callback issues,
    by whichever methods of the engine, with contexts derived from its own and
    through nested scopes, are statements on that transaction, none on the pool
    and no nested begin, commit or rollback; then the transaction is committed
    exactly if the callback returned nil, and rolled back if it did not or the
    commit failed, which the caller sees as an error. *)
Theorem scope_is_one_transaction ctx fn l y l' : scoped fn → GetTx ctx = None → RunInTx ctx fn l = (y, l') →
  let tx := length l in
  let begin := (OnPool, CBegin (RunInTx_options ctx)) in
  match reply tx OnPool (CBegin (RunInTx_options ctx)) with
  | Err e => l' = l ++ [begin] ∧ y = Returned (Some (wrapf "can't begin transaction" e))
  | Ok _ => ∃ x calls last, fn (WithTx ctx tx) (l ++ [begin]) = (x, l ++ [begin] ++ calls)
      ∧ Forall (sent_to (OnTx tx)) calls ∧ ends tx x last y ∧ l' = l ++ [begin] ++ calls ++ last
  end.
Proof.
  intros Hfn Hctx. unfold RunInTx, runTransaction. rewrite Hctx. unfold position, BeginTx, issue, mbind, T_bind, mret, T_ret.
  cbn. destruct (reply _ _ _) as [a|e]; [|by intros [= <- <-]].
  destruct (scoped_joins fn Hfn (WithTx ctx (length l)) (length l) (l ++ [(OnPool, CBegin (RunInTx_options ctx))]) eq_refl)
    as (calls & Hc & Hf). destruct (fn _ _) as [x l1]. cbn in Hc. subst l1.
  destruct (finalize_ends (length l) x ((l ++ [(OnPool, CBegin (RunInTx_options ctx))]) ++ calls)) as (last & y' & -> & Hend).
  intros [= <- <-]. exists x, calls, last. by rewrite <- !(assoc (++)).
Qed.
End scopes.
