(* ===== verification/Migrators.v ===== *)
(** * Goose migrators

    backends/{pgsql,mysql,sqlite}/migrator/migrator.go.  Goose keeps the file
    system it reads from and its dialect in package variables that the three
    migrators share; what a command does to the database is a parameter. *)

From S2P Require Import Prelude GoTime Errors.
Open Scope Z_scope.

Module Goose.

Inductive Backend : Type := PgsqlMigrations | MysqlMigrations | SqliteMigrations.
#[global] Instance Backend_eq_dec : EqDecision Backend.
Proof. solve_decision. Defined.

Definition dialect_of (b : Backend) : string :=
  match b with PgsqlMigrations => "postgres" | MysqlMigrations => "mysql" | SqliteMigrations => "sqlite3" end.

Record Options : Type := mkOptions { command : string; directory : string; args : list string }.
Definition WithCommand (v : string) (o : Options) : Options := mkOptions v (directory o) (args o).
Definition WithDirectory (v : string) (o : Options) : Options := mkOptions (command o) v (args o).
Definition WithArgs (v : list string) (o : Options) : Options := mkOptions (command o) (directory o) v.

Section migrators.
Context {D : Type}.

(** Goose: the base file system ([None] is the disk), the dialect, and the
    database. *)
Record State : Type := mkState { baseFS : option Backend; dialect : string; database : D }.

Context (supported : string → bool)
        (run : option Backend → string → Options → D → option err * D)
        (noMigrationFiles : err → bool).                  (* [errors.Is(err, goose.ErrNoMigrationFiles)] *)

Definition SetBaseFS (fs : option Backend) (s : State) : State := mkState fs (dialect s) (database s).

Definition SetDialect (d : string) (s : State) : option err * State :=
  if supported d then (None, mkState (baseFS s) d (database s))
  else (Some (EText ("unknown dialect " +:+ d)), s).

Definition RunWithOptionsContext (o : Options) (s : State) : option err * State :=
  let '(e, d) := run (baseFS s) (dialect s) o (database s) in (e, mkState (baseFS s) (dialect s) d).

(** What follows the options in both functions. *)
Definition migrate (b : Backend) (failed : string) (options : Options) (s : State) : option err * State :=
  match SetDialect (dialect_of b) s with
  | (Some e, s) => (Some (wrapf "failed to set goose dialect" e), s)
  | (None, s) =>
      match RunWithOptionsContext options s with
      | (None, s) => (None, s)
      | (Some e, s) => if noMigrationFiles e then (None, s) else (Some (wrapf failed e), s)
      end
  end.

Definition failed_text (b : Backend) : string :=
  match b with PgsqlMigrations => "failed to run database" | _ => "failed to run database migrations" end.

Definition Run (b : Backend) (opts : list (Options → Options)) (s : State) : option err * State :=
  let s := SetBaseFS None s in
  let options := foldl (λ o opt, opt o) (mkOptions "status" "migrations" []) opts in
  migrate b (failed_text b) options s.

(** The deferred [SetBaseFS(nil)] runs on every way out. *)
Definition RunEmbedded (b : Backend) (opts : list (Options → Options)) (s : State) : option err * State :=
  let s := SetBaseFS (Some b) s in
  let options := foldl (λ o opt, opt o) (mkOptions "status" "." []) opts in
  let '(e, s) := migrate b (failed_text b) options s in
  (e, SetBaseFS None s).

(** The functions of the three packages. *)
Definition pgsql_Run := Run PgsqlMigrations.
Definition pgsql_RunEmbedded := RunEmbedded PgsqlMigrations.
Definition mysql_Run := Run MysqlMigrations.
Definition mysql_RunEmbedded := RunEmbedded MysqlMigrations.
Definition sqlite_Run := Run SqliteMigrations.
Definition sqlite_RunEmbedded := RunEmbedded SqliteMigrations.

(** ** Calls in sequence *)

Inductive MigratorCall : Type :=
| CallRun (b : Backend) (opts : list (Options → Options))
| CallEmbedded (b : Backend) (opts : list (Options → Options)).

Definition call (c : MigratorCall) (s : State) : option err * State :=
  match c with CallRun b opts => Run b opts s | CallEmbedded b opts => RunEmbedded b opts s end.

(** What a call means on the database alone. *)
Definition means (c : MigratorCall) (d : D) : option err * D :=
  let '(fs, b, options) :=
    match c with
    | CallRun b opts => (None, b, foldl (λ o opt, opt o) (mkOptions "status" "migrations" []) opts)
    | CallEmbedded b opts => (Some b, b, foldl (λ o opt, opt o) (mkOptions "status" "." []) opts)
    end in
  run fs (dialect_of b) options d.

Fixpoint run_calls (calls : list MigratorCall) (s : State) : list (option err) * State :=
  match calls with
  | [] => ([], s)
  | c :: calls => let '(e, s) := call c s in let '(es, s) := run_calls calls s in (e :: es, s)
  end.
Fixpoint mean_calls (calls : list MigratorCall) (d : D) : list (option err) * D :=
  match calls with
  | [] => ([], d)
  | c :: calls => let '(e, d) := means c d in let '(es, d) := mean_calls calls d in (e :: es, d)
  end.

(** What is reported of goose's answer: missing files are no error. *)
Definition reports (e e' : option err) : Prop :=
  match e with
  | None => e' = None
  | Some e => if noMigrationFiles e then e' = None else ∃ text, e' = Some (wrapf text e)
  end.

Context (Hdialects : ∀ b, supported (dialect_of b) = true).

Lemma migrate_spec b failed options s :
  let '(e, d) := run (baseFS s) (dialect_of b) options (database s) in
  reports e (migrate b failed options s).1 ∧ (migrate b failed options s).2 = mkState (baseFS s) (dialect_of b) d.
Proof.
  unfold migrate, SetDialect, RunWithOptionsContext. rewrite Hdialects. cbn.
  destruct (run _ _ _ _) as [[e|] d]; cbn; [|done]. destruct (noMigrationFiles e); cbn; [done|]. split; [eauto|done].
Qed.

Lemma call_spec c s : baseFS (call c s).2 = None ∧ database (call c s).2 = (means c (database s)).2
  ∧ reports (means c (database s)).1 (call c s).1.
Proof.
  destruct c as [b opts|b opts]; cbn [call means]; [unfold Run|unfold RunEmbedded]; cbv zeta;
    set (o := foldl _ _ opts); set (s1 := SetBaseFS _ s).
  - pose proof (migrate_spec b (failed_text b) o s1) as Hm. cbn [baseFS database s1 SetBaseFS] in Hm.
    destruct (run None _ o _) as [e d]. destruct Hm as [Hr ->]. done.
  - pose proof (migrate_spec b (failed_text b) o s1) as Hm. cbn [baseFS database s1 SetBaseFS] in Hm.
    destruct (run (Some b) _ o _) as [e d]. destruct (migrate _ _ _ _) as [e' s']. cbn in Hm. by destruct Hm as [Hr ->].
Qed.

(** Migrations do not see each other's files.  In any sequence of [Run] and
    [RunEmbedded] calls of the three backends, whatever file system and dialect
    an earlier caller left behind and whichever calls fail, every call runs
    goose with its own dialect on its own files, [Run] on the disk and
    [RunEmbedded] on the ones bundled with its backend; an error is reported
    unless it is that there are no files; and afterwards goose reads the disk
    again. *)
Theorem migrations_isolated calls s :
  let '(es, s') := run_calls calls s in
  let '(es0, d0) := mean_calls calls (database s) in
  database s' = d0 ∧ Forall2 reports es0 es ∧ (calls ≠ [] → baseFS s' = None).
Proof.
  revert s. induction calls as [|c calls IH]; intros s; cbn; [by split_and!|].
  destruct (call_spec c s) as (Hfs & Hdb & Hr). destruct (call c s) as [e s1], (means c (database s)) as [e0 d1].
  cbn in *. specialize (IH s1). rewrite Hdb in IH. destruct (run_calls calls s1) as [es s2] eqn:Hrun, (mean_calls calls d1) as [es0 d2].
  destruct IH as (Hd & HF & Hn). split_and!; [done|by constructor|]. intros _.
  destruct calls as [|c' calls]; [|by apply Hn]. cbn in Hrun. by injection Hrun as _ <-.
Qed.
End migrators.
End Goose.
