(* ===== verification/Tools.v ===== *)
(** * Sizes and identifiers

    shared/tools/size_parser.go with the validator of shared/validator that
    uses it, and the text form of the identifiers (shared/types/types.go,
    outbox/jobs/payload/simpleid/payload.go).  An [int] has 64 bits and wraps
    around. *)

From Stdlib Require Import Ascii.
From S2P Require Import Prelude GoTime Errors Retry GoStrings TableNames.
Open Scope Z_scope.

(** ** Sizes *)

Definition digit_value (c : ascii) : Z := Z.of_N (Ascii.N_of_ascii c) - 48.

(** The loop over the digits: the number and the text after it. *)
Fixpoint scan_size (size : Z) (text : string) : Z * string :=
  match text with
  | String c rest => if is_digit c then scan_size (wrap64 (wrap64 (size * 10) + digit_value c)) rest else (size, text)
  | EmptyString => (size, "")
  end.

Definition is_unit (parameter : string) (units : list string) : bool := existsb (String.eqb parameter) units.

Definition ParseSize (text : string) : result Z :=
  match text with
  | EmptyString => Err (EText "incorrect size")
  | String c _ =>
      if negb (is_digit c) then Err (EText "incorrect size")
      else
        let '(size, parameter) := scan_size 0 text in
        if is_unit parameter ["GB"; "Gb"; "gb"] then Ok (wrap64 (Z.shiftl size 30))
        else if is_unit parameter ["MB"; "Mb"; "mb"] then Ok (wrap64 (Z.shiftl size 20))
        else if is_unit parameter ["KB"; "Kb"; "kb"] then Ok (wrap64 (Z.shiftl size 10))
        else if is_unit parameter ["B"; "b"; ""] then Ok size
        else Err (EText "incorrect size")
  end.

Definition validateParseSize (field : string) : bool :=
  match ParseSize field with
  | Ok count => negb (count <=? 0)
  | Err _ => false
  end.

(** The number a text of digits stands for, and the shift of a unit. *)
Fixpoint decimal (acc : Z) (ds : string) : Z :=
  match ds with EmptyString => acc | String c ds => decimal (10 * acc + digit_value c) ds end.

Definition unit_shift (u : string) : option Z :=
  if is_unit u ["GB"; "Gb"; "gb"] then Some 30
  else if is_unit u ["MB"; "Mb"; "mb"] then Some 20
  else if is_unit u ["KB"; "Kb"; "kb"] then Some 10
  else if is_unit u ["B"; "b"; ""] then Some 0 else None.

Example sizes_work :
  ParseSize "20" = Ok 20 ∧ ParseSize "20Kb" = Ok (20 * 1024) ∧ ParseSize "20GB" = Ok (20 * 1024 * 1024 * 1024)
  ∧ is_Ok (ParseSize "-20") = false ∧ is_Ok (ParseSize "20   ") = false ∧ is_Ok (ParseSize "abc") = false.
Proof. split_and!; vm_compute; reflexivity. Qed.

(** ** Arithmetic modulo 2^64 *)

Lemma wrap64_mod a b : a `mod` two64 = b `mod` two64 → wrap64 a = wrap64 b.
Proof. intros Hab. unfold wrap64. rewrite <- (Z.add_mod_idemp_l a), <- (Z.add_mod_idemp_l b), Hab by done. done. Qed.

Lemma wrap64_mod_id a : wrap64 a `mod` two64 = a `mod` two64.
Proof.
  unfold wrap64. rewrite Zminus_mod_idemp_l. f_equal. lia.
Qed.

Lemma wrap64_mul a b : wrap64 (wrap64 a * b) = wrap64 (a * b).
Proof. apply wrap64_mod. rewrite <- Z.mul_mod_idemp_l, wrap64_mod_id, Z.mul_mod_idemp_l by done. done. Qed.

Lemma wrap64_add a b : wrap64 (wrap64 a + b) = wrap64 (a + b).
Proof. apply wrap64_mod. rewrite <- Z.add_mod_idemp_l, wrap64_mod_id, Z.add_mod_idemp_l by done. done. Qed.

Lemma digit_range c : is_digit c = true → 0 ≤ digit_value c ≤ 9.
Proof. unfold is_digit, ascii_between, digit_value. rewrite andb_true_iff, !N.leb_le. lia. Qed.

(** The loop computes the number modulo 2^64. *)
Lemma scan_size_spec ds u acc : all_bytes is_digit ds = true → (∀ c r, u = String c r → is_digit c = false) →
  scan_size (wrap64 acc) (ds +:+ u) = (wrap64 (decimal acc ds), u).
Proof.
  intros Hds Hu. revert acc. induction ds as [|c ds IH]; intros acc.
  - change ("" +:+ u) with u. cbn [decimal]. destruct u as [|c r]; [done|]. cbn. by rewrite (Hu c r).
  - cbn in Hds. apply andb_true_iff in Hds as [Hc Hds]. change (String c ds +:+ u) with (String c (ds +:+ u)).
    cbn [scan_size decimal]. rewrite Hc, wrap64_mul, wrap64_add, IH by done. do 3 f_equal. lia.
Qed.

(** Every text is digits and a rest that does not start with one. *)
Lemma digits_prefix text : ∃ ds u, text = ds +:+ u ∧ all_bytes is_digit ds = true
  ∧ ∀ c r, u = String c r → is_digit c = false.
Proof.
  induction text as [|c text (ds & u & -> & Hds & Hu)]; [by exists "", ""|].
  destruct (is_digit c) eqn:Hc.
  - exists (String c ds), u. split_and!; [done|cbn; by rewrite Hc|done].
  - exists "", (String c (ds +:+ u)). split_and!; [done|done|]. by intros c' r [= <- _].
Qed.

Lemma unit_shift_spec u k : unit_shift u = Some k → 0 ≤ k ≤ 30 ∧ ∀ c r, u = String c r → is_digit c = false.
Proof.
  assert (∀ l, is_unit u l = true → u ∈ l) as Hin.
  { intros l (x & Hx & ->%String.eqb_eq)%existsb_exists. by apply list_elem_of_In. }
  unfold unit_shift.
  destruct (is_unit u ["GB"; "Gb"; "gb"]) eqn:H1; [|destruct (is_unit u ["MB"; "Mb"; "mb"]) eqn:H2;
    [|destruct (is_unit u ["KB"; "Kb"; "kb"]) eqn:H3; [|destruct (is_unit u ["B"; "b"; ""]) eqn:H4; [|done]]]];
    intros [= <-]; (split; [lia|]); intros c r ->.
  - apply Hin in H1. set_solver.
  - apply Hin in H2. set_solver.
  - apply Hin in H3. set_solver.
  - apply Hin in H4. set_solver.
Qed.

Lemma ParseSize_split ds u : ds ≠ "" → all_bytes is_digit ds = true → (∀ c r, u = String c r → is_digit c = false) →
  ParseSize (ds +:+ u) = match unit_shift u with
                         | Some k => Ok (wrap64 (decimal 0 ds * 2 ^ k))
                         | None => Err (EText "incorrect size")
                         end.
Proof.
  intros Hne Hds Hu. pose proof (scan_size_spec ds u 0 Hds Hu) as Hs. change (wrap64 0) with 0 in Hs.
  unfold ParseSize. rewrite Hs. destruct ds as [|c ds]; [done|].
  change (String c ds +:+ u) with (String c (ds +:+ u)). cbn in Hds. apply andb_true_iff in Hds as [-> _]. cbn [negb].
  unfold unit_shift.
  destruct (is_unit u ["GB"; "Gb"; "gb"]); [by rewrite Z.shiftl_mul_pow2, wrap64_mul|].
  destruct (is_unit u ["MB"; "Mb"; "mb"]); [by rewrite Z.shiftl_mul_pow2, wrap64_mul|].
  destruct (is_unit u ["KB"; "Kb"; "kb"]); [by rewrite Z.shiftl_mul_pow2, wrap64_mul|].
  destruct (is_unit u ["B"; "b"; ""]); [|done]. by rewrite Z.pow_0_r, Z.mul_1_r.
Qed.

Lemma decimal_nonneg ds acc : 0 ≤ acc → all_bytes is_digit ds = true → 0 ≤ decimal acc ds.
Proof.
  revert acc. induction ds as [|c ds IH]; intros acc Hacc Hds; [done|]. cbn in Hds |- *.
  apply andb_true_iff in Hds as [Hc Hds]. apply digit_range in Hc. apply IH; [lia|done].
Qed.

(** A size is its number times its unit, modulo 2^64.  Exactly the texts of
    one or more digits followed by GB, MB, KB or B in the accepted spellings,
    or by nothing, are sizes.  The result is the size in bytes when that fits
    an [int]; a larger one is not refused but wrapped around. *)
Theorem ParseSize_modular :
  (∀ ds u k, ds ≠ "" → all_bytes is_digit ds = true → unit_shift u = Some k →
     ParseSize (ds +:+ u) = Ok (wrap64 (decimal 0 ds * 2 ^ k))
     ∧ (decimal 0 ds * 2 ^ k < two63 → ParseSize (ds +:+ u) = Ok (decimal 0 ds * 2 ^ k)))
  ∧ (∀ text n, ParseSize text = Ok n →
       ∃ ds u k, text = ds +:+ u ∧ ds ≠ "" ∧ all_bytes is_digit ds = true ∧ unit_shift u = Some k).
Proof.
  split.
  - intros ds u k Hne Hds Hk. destruct (unit_shift_spec u k Hk) as [Hrange Hu].
    rewrite (ParseSize_split ds u Hne Hds Hu), Hk. split; [done|]. intros Hfits. f_equal. apply wrap64_id.
    pose proof (decimal_nonneg ds 0 ltac:(done) Hds). pose proof (Z.pow_nonneg 2 k ltac:(done)).
    split; [|done]. rewrite two63_val. nia.
  - intros text n Hn. destruct (digits_prefix text) as (ds & u & -> & Hds & Hu). destruct (decide (ds = "")) as [->|Hne].
    + exfalso. change ("" +:+ u) with u in Hn. unfold ParseSize in Hn. destruct u as [|c r]; [done|].
      by rewrite (Hu c r eq_refl) in Hn.
    + rewrite (ParseSize_split ds u Hne Hds Hu) in Hn. destruct (unit_shift u) as [k|] eqn:Hk; [|done]. eauto 10.
Qed.

(** A size that passes validation although it is 2^64 + 2^30 bytes. *)
Example oversized_passes : validateParseSize "17179869185GB" = true ∧ ParseSize "17179869185GB" = ParseSize "1GB".
Proof. split; vm_compute; reflexivity. Qed.

(** ** Identifiers as text *)

Section identifiers.
(** [uuid.UUID.String] and [uuid.Parse] of google/uuid on 128-bit values. *)
Context (uuid_String : N → string) (uuid_Parse : string → result N).

Definition types_Parse (s : string) : result N := uuid_Parse s.
Definition types_MustParse (s : string) : callback N :=
  match uuid_Parse s with Ok v => Returns v | Err e => Panics ("uuid: Parse(" +:+ s +:+ "): " +:+ Error e) end.

Definition Value (id : N) : result string := Ok (uuid_String id).
Definition Matches (id : N) (x : option N) : bool := match x with Some v => N.eqb id v | None => false end.

Definition Marshal (id : N) : result string :=
  if N.eqb id 0 then Err (EText "zero identifier") else Ok (uuid_String id).
Definition MustMarshal (id : N) : callback string :=
  match Marshal id with Ok v => Returns v | Err e => Panics (Error e) end.
Definition Unmarshal (data : string) : result N := types_Parse data.

(** The text of a UUID is read back. *)
Context (Huuid : ∀ id, uuid_Parse (uuid_String id) = Ok id).

(** A payload that was marshalled is the identifier again; the zero
    identifier is not marshalled. *)
Lemma simpleid_roundtrip id s : Marshal id = Ok s ↔ id ≠ 0%N ∧ s = uuid_String id ∧ Unmarshal s = Ok id.
Proof.
  unfold Marshal, Unmarshal, types_Parse. destruct (N.eqb_spec id 0) as [->|Hne]; [naive_solver|].
  split; [intros [= <-]; by rewrite Huuid|]. by intros (_ & -> & _).
Qed.
End identifiers.
