(* ===== verification/Deploy.v ===== *)
(** * Picodata connection settings

    backends/picodata/deployenv/config.go: the connection of an application
    from its environment, as one connection string or as separate variables.
    The parser and the printer of net/url and the escaping of query values are
    parameters; [Hostname] and [Port] of a URL and [net.JoinHostPort] are
    written out. *)

From Stdlib Require Import Ascii.
From S2P Require Import Prelude GoTime Errors Json GoStrings TableNames Tools Clients.
Open Scope Z_scope.

Module DeployEnv.

(** ** [strconv.Itoa] of a number with at most [fuel] digits *)

Definition digit_char (n : Z) : ascii := Ascii.ascii_of_N (Z.to_N (n + 48)).

Fixpoint itoa_digits (fuel : nat) (n : Z) : string :=
  match fuel with
  | O => ""
  | S fuel => if n <? 10 then String (digit_char n) ""
              else itoa_digits fuel (n / 10) +:+ String (digit_char (n mod 10)) ""
  end.
(** Twenty digits are enough for an [int] that is not negative. *)
Definition Itoa (n : Z) : string := itoa_digits 20 n.

(** ** [splitHostPort] of net/url *)

Definition colon : ascii := ":"%char.

Fixpoint split_last_colon (s : string) : option (string * string) :=
  match s with
  | EmptyString => None
  | String a rest =>
      match split_last_colon rest with
      | Some (h, p) => Some (String a h, p)
      | None => if Ascii.eqb a colon then Some ("", rest) else None
      end
  end.

Definition bracketed (host : string) : bool := HasPrefix host "[" && HasSuffix host "]".

Definition splitHostPort (hostPort : string) : string * string :=
  let '(host, port) :=
    match split_last_colon hostPort with
    | Some (h, p) => if all_bytes is_digit p then (h, p) else (hostPort, "")
    | None => (hostPort, "")
    end in
  (if bracketed host then slice 1 (String.length host - 1) host else host, port).

(** ** The settings *)

Definition defaultHost : string := "127.0.0.1".
Definition defaultPort : Z := 5049.
Definition defaultUser : string := "admin".
Definition defaultPassword : string := "passWord!123".
Definition defaultSSLMode : string := "disable".

Record AppConnConfig : Type := mkAppConn {
  DSN : string; Host : string; Port : Z; User : string; Password : string; SSLMode : string
}.

(** The parts of [url.URL] that are read or set; [u_rest] is everything else. *)
Record URL : Type := mkURL {
  u_Scheme : string;
  u_User : option (string * option string);
  u_Host : string;
  u_RawQuery : string;
  u_rest : string
}.
Definition set_Host (h : string) (u : URL) : URL := mkURL (u_Scheme u) (u_User u) h (u_RawQuery u) (u_rest u).
Definition set_RawQuery (q : string) (u : URL) : URL := mkURL (u_Scheme u) (u_User u) (u_Host u) q (u_rest u).
Definition Hostname (u : URL) : string := (splitHostPort (u_Host u)).1.
Definition url_Port (u : URL) : string := (splitHostPort (u_Host u)).2.

(** [strings.EqualFold(s, t)] for a lower-case ASCII text [t] without k: the
    letters in either case, and U+017F, which folds to s. *)
Fixpoint EqualFold (s t : string) : bool :=
  match t with
  | EmptyString => String.eqb s ""
  | String p t =>
      match s with
      | EmptyString => false
      | String c s =>
          if Ascii.eqb c p || is_upper c && Ascii.eqb (Ascii.ascii_of_N (Ascii.N_of_ascii c + 32)) p then EqualFold s t
          else match s with
               | String d s => Ascii.eqb p "s"%char && (Ascii.N_of_ascii c =? 197)%N && (Ascii.N_of_ascii d =? 191)%N
                               && EqualFold s t
               | EmptyString => false
               end
      end
  end.

Definition normalizeHost (host : string) : string :=
  let host := TrimSpace host in
  if EqualFold host "localhost" then defaultHost else host.

Definition validateClientHost (host : string) : option err :=
  if String.eqb (normalizeHost host) "0.0.0.0" then Some (EText "picodata client host must not be 0.0.0.0") else None.

Definition parsePort (raw : string) : result Z :=
  match ParseInt (TrimSpace raw) with
  | None => Err (EText ("strconv.Atoi: parsing " +:+ TrimSpace raw))
  | Some value => if (value <=? 0) || (65535 <? value) then Err (EText "port must be between 1 and 65535") else Ok value
  end.

Fixpoint firstNonEmpty (values : list string) : string :=
  match values with
  | [] => ""
  | value :: values =>
      let value := TrimSpace value in
      if negb (String.eqb value "") then value else firstNonEmpty values
  end.

Definition makeLookup (lookup : option (string → string)) : string → string :=
  match lookup with
  | None => λ _, ""
  | Some lookup => λ key, TrimSpace (lookup key)
  end.

Definition ValidateRuntimeEnv (lookup : option (string → string)) : option err :=
  let get := makeLookup lookup in
  let set key := negb (String.eqb (get key) "") in
  if set "PICODATA_LISTEN" && set "PICODATA_IPROTO_LISTEN"
  then Some (EText "picodata runtime env conflict: PICODATA_LISTEN and PICODATA_IPROTO_LISTEN are mutually exclusive; remove PICODATA_LISTEN and keep PICODATA_IPROTO_LISTEN")
  else if set "PICODATA_PG_ADVERTISE" && set "PICODATA_IPROTO_ADVERTISE"
  then Some (EText "picodata runtime env conflict: PICODATA_PG_ADVERTISE and PICODATA_IPROTO_ADVERTISE are mutually exclusive; remove PICODATA_PG_ADVERTISE and keep PICODATA_IPROTO_ADVERTISE")
  else None.

Section urls.
Context (url_Parse : string → result URL) (url_String : URL → string)
        (query_Get : string → string → string)                 (* [u.Query().Get(key)] of a raw query *)
        (query_Set : string → string → string → string)        (* [Set(key, value)], then [Encode()] *)
        (QueryEscape : string → string).

Definition connection_url (host : string) (port : Z) (user password sslMode : string) : URL :=
  mkURL "postgres" (Some (user, Some password)) (PgClient.JoinHostPort host (Itoa port)) ("sslmode=" +:+ QueryEscape sslMode) "".

Definition ConnectionURL (c : AppConnConfig) : string :=
  if negb (String.eqb (TrimSpace (DSN c)) "") then TrimSpace (DSN c)
  else
    let host := normalizeHost (firstNonEmpty [Host c; defaultHost]) in
    let port := if Port c =? 0 then defaultPort else Port c in
    let user := firstNonEmpty [User c; defaultUser] in
    let password := firstNonEmpty [Password c; defaultPassword] in
    let sslMode := firstNonEmpty [SSLMode c; defaultSSLMode] in
    url_String (connection_url host port user password sslMode).

Definition parseDSN (rawDSN : string) : result AppConnConfig :=
  dsnURL ← res_map_err (wrapf "parse dsn") (url_Parse (TrimSpace rawDSN));
  if String.eqb (u_Scheme dsnURL) "" then Err (EText "dsn must include scheme, for example postgres://")
  else
    let host := normalizeHost (Hostname dsnURL) in
    if String.eqb host "" then Err (EText "dsn host is empty")
    else match validateClientHost host with
    | Some e => Err e
    | None =>
        let portText := if String.eqb (url_Port dsnURL) "" then Itoa defaultPort else url_Port dsnURL in
        port ← res_map_err (wrapf "invalid dsn port") (parsePort portText);
        let dsnURL := set_Host (PgClient.JoinHostPort host (Itoa port)) dsnURL in
        let given := TrimSpace (query_Get (u_RawQuery dsnURL) "sslmode") in
        let '(sslMode, dsnURL) :=
          if String.eqb given ""
          then (defaultSSLMode, set_RawQuery (query_Set (u_RawQuery dsnURL) "sslmode" defaultSSLMode) dsnURL)
          else (given, dsnURL) in
        Ok (mkAppConn (url_String dsnURL) host port
              (match u_User dsnURL with Some (name, _) => TrimSpace name | None => "" end)
              (match u_User dsnURL with Some (_, Some password) => password | _ => "" end) sslMode)
    end.

Definition LoadAppConnFromEnv (lookup : option (string → string)) : result AppConnConfig :=
  let get := makeLookup lookup in
  let dsn := firstNonEmpty [get "OUTBOX_PICODATA_DSN"; get "TEST_OUTBOXLIB_PICODATA_DSN"] in
  if negb (String.eqb dsn "") then res_map_err (wrapf "load picodata dsn") (parseDSN dsn)
  else
    let host := normalizeHost (firstNonEmpty [get "OUTBOX_PICODATA_HOST"; defaultHost]) in
    match validateClientHost host with
    | Some e => Err e
    | None =>
        port ← res_map_err (wrapf "invalid OUTBOX_PICODATA_PORT")
                 (parsePort (firstNonEmpty [get "OUTBOX_PICODATA_PORT"; Itoa defaultPort]));
        let cfg := mkAppConn "" host port (firstNonEmpty [get "OUTBOX_PICODATA_USER"; defaultUser])
                     (firstNonEmpty [get "OUTBOX_PICODATA_PASSWORD"; defaultPassword])
                     (firstNonEmpty [get "OUTBOX_PICODATA_SSLMODE"; defaultSSLMode]) in
        Ok (mkAppConn (ConnectionURL cfg) host port (User cfg) (Password cfg) (SSLMode cfg))
    end.

(** ** Text *)

Lemma decimal_app acc s t : decimal acc (s +:+ t) = decimal (decimal acc s) t.
Proof. revert acc. induction s as [|a s IH]; intros acc; [done|]. change (String a s +:+ t) with (String a (s +:+ t)). cbn. apply IH. Qed.

Lemma digit_char_spec n : 0 ≤ n ≤ 9 → is_digit (digit_char n) = true ∧ digit_value (digit_char n) = n.
Proof.
  intros Hn. assert (n = 0 ∨ n = 1 ∨ n = 2 ∨ n = 3 ∨ n = 4 ∨ n = 5 ∨ n = 6 ∨ n = 7 ∨ n = 8 ∨ n = 9) as Hc by lia.
  repeat destruct Hc as [->|Hc]; [..|subst n]; by vm_compute.
Qed.

Lemma itoa_spec fuel n : 0 ≤ n < 10 ^ Z.of_nat fuel → (0 < fuel)%nat →
  all_bytes is_digit (itoa_digits fuel n) = true ∧ decimal 0 (itoa_digits fuel n) = n ∧ itoa_digits fuel n ≠ "".
Proof.
  revert n. induction fuel as [|fuel IH]; intros n Hn Hf; [lia|]. cbn [itoa_digits].
  destruct (Z.ltb_spec n 10) as [Hlt|Hge].
  - destruct (digit_char_spec n) as [Hd Hv]; [lia|]. cbn. by rewrite Hd, Hv.
  - pose proof (Z.mod_pos_bound n 10 ltac:(lia)) as Hm. destruct (digit_char_spec (n mod 10)) as [Hd Hv]; [lia|].
    rewrite Nat2Z.inj_succ, Z.pow_succ_r in Hn by lia.
    destruct (IH (n / 10)) as (Ha & Hdec & Hne).
    { split; [apply Z.div_pos; lia|apply Z.div_lt_upper_bound; lia]. }
    { destruct fuel; [|lia]. cbn in Hn. lia. }
    rewrite all_bytes_app, decimal_app, Ha, Hdec. cbn. rewrite Hd, Hv. split_and!; [done| |by destruct (itoa_digits fuel (n / 10))].
    pose proof (Z.div_mod n 10 ltac:(lia)). lia.
Qed.

Lemma parse_digits_decimal acc s : all_bytes is_digit s = true → parse_digits acc s = Some (decimal acc s).
Proof.
  revert acc. induction s as [|a s IH]; intros acc Hs; [done|]. cbn in Hs |- *. apply andb_true_iff in Hs as [-> Hs]. by apply IH.
Qed.

Lemma digits_plain s : all_bytes is_digit s = true → all_bytes plain s = true.
Proof. apply all_bytes_mono. intros c Hc. unfold plain, word. by rewrite Hc, !orb_true_r. Qed.

(** A port is read back from its text. *)
Lemma parsePort_Itoa n : 1 ≤ n ≤ 65535 → parsePort (Itoa n) = Ok n ∧ all_bytes is_digit (Itoa n) = true ∧ Itoa n ≠ "".
Proof.
  intros Hn. destruct (itoa_spec 20 n) as (Ha & Hd & Hne); [split; [lia|]; change (10 ^ Z.of_nat 20) with 100000000000000000000; lia|lia|].
  fold (Itoa n) in *. split; [|done]. unfold parsePort. rewrite TrimSpace_plain by (by apply digits_plain).
  assert (ParseInt (Itoa n) = Some n) as ->.
  { unfold ParseInt. destruct (Itoa n) as [|a rest] eqn:Hi; [done|]. pose proof Ha as Ha0. cbn in Ha0. apply andb_true_iff in Ha0 as [Hda _].
    destruct (Ascii.eqb_spec a "+"%char) as [->|_]; [done|]. destruct (Ascii.eqb_spec a "-"%char) as [->|_]; [done|].
    unfold parse_uint. rewrite parse_digits_decimal, Hd by done. cbn.
    assert ((- two63 <=? n) && (n <? two63) = true) as ->; [|done].
    apply andb_true_iff. rewrite Z.leb_le, Z.ltb_lt, two63_val. lia. }
  destruct (Z.leb_spec n 0); [lia|]. by destruct (Z.ltb_spec 65535 n); [lia|].
Qed.

Lemma parsePort_range raw n : parsePort raw = Ok n → 1 ≤ n ≤ 65535.
Proof.
  unfold parsePort. destruct (ParseInt _) as [v|]; [|done]. destruct (Z.leb_spec v 0), (Z.ltb_spec 65535 v); cbn; try done.
  intros [= <-]. lia.
Qed.

(** ** Hosts *)

Lemma normalizeHost_idem host : normalizeHost (normalizeHost host) = normalizeHost host.
Proof.
  unfold normalizeHost. destruct (EqualFold (TrimSpace host) "localhost") eqn:Hf; [reflexivity|].
  by rewrite TrimSpace_idem, Hf.
Qed.

Lemma split_last_colon_none p : all_bytes is_digit p = true → split_last_colon p = None.
Proof.
  induction p as [|a p IH]; [done|]. intros [Ha Hp]%andb_true_iff. cbn [split_last_colon]. rewrite IH by done.
  by destruct (Ascii.eqb_spec a colon) as [->|_].
Qed.

Lemma split_last_colon_app h p : all_bytes is_digit p = true → split_last_colon (h +:+ String colon p) = Some (h, p).
Proof.
  intros Hp. induction h as [|a h IH].
  - change ("" +:+ String colon p) with (String colon p). cbn [split_last_colon]. by rewrite split_last_colon_none.
  - change (String a h +:+ String colon p) with (String a (h +:+ String colon p)). cbn [split_last_colon]. by rewrite IH.
Qed.

Lemma HasSuffix_app s t : HasSuffix (s +:+ t) t = true.
Proof.
  induction s as [|a s IH].
  - change ("" +:+ t) with t. destruct t; cbn [HasSuffix]; by rewrite String.eqb_refl.
  - change (String a s +:+ t) with (String a (s +:+ t)). cbn [HasSuffix]. by rewrite IH, orb_true_r.
Qed.

Lemma length_app_string s t : String.length (s +:+ t) = (String.length s + String.length t)%nat.
Proof. induction s as [|a s IH]; [done|]. change (String a s +:+ t) with (String a (s +:+ t)). cbn. by rewrite IH. Qed.

Lemma substring_app s t : String.substring 0 (String.length s) (s +:+ t) = s.
Proof. induction s as [|a s IH]; [by destruct t|]. change (String a s +:+ t) with (String a (s +:+ t)). cbn. by rewrite IH. Qed.

(** Joining and splitting; a host that is itself in brackets is read without
    them. *)
Lemma splitHostPort_join host port : bracketed host = false → all_bytes is_digit port = true →
  splitHostPort (PgClient.JoinHostPort host port) = (host, port).
Proof.
  intros Hb Hp. unfold splitHostPort, PgClient.JoinHostPort. destruct (Contains host ":").
  - replace ("[" +:+ host +:+ "]:" +:+ port) with ((String "["%char (host +:+ "]")) +:+ String colon port).
    2: { change ("[" +:+ host +:+ "]:" +:+ port) with (String "["%char (host +:+ ("]" +:+ String colon port))).
         change (String "["%char (host +:+ "]") +:+ String colon port) with (String "["%char ((host +:+ "]") +:+ String colon port)).
         by rewrite append_assoc. }
    rewrite split_last_colon_app, Hp by done.
    assert (bracketed (String "["%char (host +:+ "]")) = true) as ->.
    { unfold bracketed. change (String "["%char (host +:+ "]")) with (("[" +:+ host) +:+ "]"). rewrite HasSuffix_app.
      change (HasPrefix (("[" +:+ host) +:+ "]") "[") with (String.prefix "" (host +:+ "]")). by destruct (host +:+ "]"). }
    f_equal. unfold slice. cbn [String.length]. rewrite length_app_string. cbn [String.length].
    replace (S (String.length host + 1) - 1 - 1)%nat with (String.length host) by lia.
    cbn [String.substring]. apply substring_app.
  - replace (host +:+ ":" +:+ port) with (host +:+ String colon port) by done.
    by rewrite split_last_colon_app, Hp, Hb by done.
Qed.

Lemma firstNonEmpty_trimmed l : TrimSpace (firstNonEmpty l) = firstNonEmpty l.
Proof. induction l as [|v l IH]; [reflexivity|]. cbn. destruct (negb _); [apply TrimSpace_idem|done]. Qed.

Lemma firstNonEmpty_default v d : TrimSpace d = d → d ≠ "" → firstNonEmpty [v; d] ≠ "".
Proof.
  intros Hd Hne. cbn. destruct (String.eqb_spec (TrimSpace v) "") as [_|Hv]; cbn; [|done].
  rewrite Hd. by destruct (String.eqb_spec d "").
Qed.

Lemma firstNonEmpty_first v d : TrimSpace v = v → v ≠ "" → firstNonEmpty [v; d] = v.
Proof. intros Hv Hne. cbn. rewrite Hv. by destruct (String.eqb_spec v ""). Qed.

Lemma normalizeHost_nonempty h : TrimSpace h = h → h ≠ "" → normalizeHost h ≠ "".
Proof. intros Hh Hne. unfold normalizeHost. rewrite Hh. by destruct (EqualFold h "localhost"). Qed.

(** ** Loaded settings *)

(** What net/url documents of query values. *)
Context (Hset : ∀ q key value, query_Get (query_Set q key value) key = value)
        (Hescape : ∀ value, query_Get ("sslmode=" +:+ QueryEscape value) "sslmode" = value).

(** A host to connect to, a port in range, a mode. *)
Record sound (c : AppConnConfig) : Prop := {
  so_host : Host c ≠ "" ∧ Host c ≠ "0.0.0.0" ∧ normalizeHost (Host c) = Host c;
  so_port : 1 ≤ Port c ≤ 65535;
  so_mode : SSLMode c ≠ "" ∧ TrimSpace (SSLMode c) = SSLMode c
}.

(** The URL that the settings are those of. *)
Record describes (u : URL) (c : AppConnConfig) : Prop := {
  de_dsn : DSN c = url_String u;
  de_scheme : u_Scheme u ≠ "";
  de_host : u_Host u = PgClient.JoinHostPort (Host c) (Itoa (Port c));
  de_mode : TrimSpace (query_Get (u_RawQuery u) "sslmode") = SSLMode c;
  de_user : User c = match u_User u with Some (name, _) => TrimSpace name | None => "" end;
  de_password : Password c = match u_User u with Some (_, Some password) => password | _ => "" end
}.

Lemma validate_ok host : validateClientHost host = None → normalizeHost host ≠ "0.0.0.0".
Proof. unfold validateClientHost. by destruct (String.eqb_spec (normalizeHost host) "0.0.0.0"). Qed.
Lemma validate_none host : normalizeHost host ≠ "0.0.0.0" → validateClientHost host = None.
Proof. intros Hh. unfold validateClientHost. by rewrite (proj2 (String.eqb_neq _ _)). Qed.

Lemma parseDSN_ok raw c : parseDSN raw = Ok c → sound c ∧ ∃ u, describes u c.
Proof.
  unfold parseDSN. intros (u & _ & Hk)%res_bind_ok.
  destruct (String.eqb_spec (u_Scheme u) "") as [|Hs]; [done|].
  destruct (String.eqb_spec (normalizeHost (Hostname u)) "") as [|Hne]; [done|].
  destruct (validateClientHost _) eqn:Hv; [done|]. apply validate_ok in Hv. rewrite normalizeHost_idem in Hv.
  apply res_bind_ok in Hk as (port & Hport & Hk).
  assert (1 ≤ port ≤ 65535) as Hr by (destruct (parsePort _) eqn:Hp; [injection Hport as ->; by eapply parsePort_range|done]).
  cbn [set_Host u_RawQuery] in Hk.
  destruct (String.eqb_spec (TrimSpace (query_Get (u_RawQuery u) "sslmode")) "") as [_|Hm]; injection Hk as <-.
  - split; [by split; cbn; rewrite ?normalizeHost_idem|]. eexists. split; [reflexivity|..]; cbn; try done. by rewrite Hset.
  - split.
    + split; cbn [Host Port SSLMode]; [by rewrite normalizeHost_idem|done|]. split; [done|apply TrimSpace_idem].
    + eexists. split; [reflexivity|..]; done.
Qed.

Lemma load_ok lookup c : LoadAppConnFromEnv lookup = Ok c →
  sound c ∧ ∃ u, describes u c.
Proof.
  unfold LoadAppConnFromEnv. set (get := makeLookup lookup). destruct (negb _).
  { destruct (parseDSN _) as [c'|] eqn:Hp; [|done]. cbn. intros [= <-]. by eapply parseDSN_ok. }
  set (host := normalizeHost _). destruct (validateClientHost host) eqn:Hv; [done|]. apply validate_ok in Hv.
  intros (port & Hport & Hk)%res_bind_ok.
  assert (1 ≤ port ≤ 65535) as Hr by (destruct (parsePort _) eqn:Hp; [injection Hport as ->; by eapply parsePort_range|done]).
  assert (normalizeHost host = host ∧ host ≠ "") as [Hn Hne].
  { split; [apply normalizeHost_idem|]. apply normalizeHost_nonempty; [apply firstNonEmpty_trimmed|by apply firstNonEmpty_default]. }
  assert (TrimSpace host = host) as Htrim.
  { rewrite <- Hn. unfold normalizeHost. destruct (EqualFold _ _); [reflexivity|apply TrimSpace_idem]. }
  assert (∀ v d, TrimSpace d = d → d ≠ "" →
    let x := firstNonEmpty [v; d] in x ≠ "" ∧ TrimSpace x = x ∧ firstNonEmpty [x; d] = x) as Hff.
  { intros v d Hd Hne'. pose proof (firstNonEmpty_default v d Hd Hne'). pose proof (firstNonEmpty_trimmed [v; d]).
    cbv zeta. split_and!; [done..|by apply firstNonEmpty_first]. }
  pose proof (Hff (get "OUTBOX_PICODATA_USER") defaultUser eq_refl ltac:(done)) as (Hu1 & Hu2 & Hu3).
  pose proof (Hff (get "OUTBOX_PICODATA_PASSWORD") defaultPassword eq_refl ltac:(done)) as (Hp1 & Hp2 & Hp3).
  pose proof (Hff (get "OUTBOX_PICODATA_SSLMODE") defaultSSLMode eq_refl ltac:(done)) as (Hm1 & Hm2 & Hm3).
  set (user := firstNonEmpty [_; defaultUser]) in *. set (password := firstNonEmpty [_; defaultPassword]) in *.
  set (mode := firstNonEmpty [_; defaultSSLMode]) in *. clearbody user password mode.
  pose proof (firstNonEmpty_first host defaultHost Htrim Hne) as Hh. clearbody host. rewrite Hn in Hv.
  unfold ConnectionURL in Hk. cbn [DSN Host Port User Password SSLMode] in Hk.
  change (negb (String.eqb (TrimSpace "") "")) with false in Hk. cbv iota in Hk. rewrite Hh, Hn, Hu3, Hp3, Hm3 in Hk.
  destruct (Z.eqb_spec port 0); [lia|]. injection Hk as <-. split; [by split|].
  eexists. split; [reflexivity|done..| |done|done]; cbn [u_RawQuery connection_url SSLMode]; by rewrite Hescape.
Qed.

(** Connection settings are safe to use and stable.  Whatever the
    environment holds, settings that are loaded have a host, which is not the
    wildcard address and is trimmed with localhost resolved, a port between 1
    and 65535 and an SSL mode; and their connection string, when net/url reads
    back what it printed, loads as the same settings again (for a host that is
    not itself in brackets). *)
Theorem connection_settings_stable lookup c :
  LoadAppConnFromEnv lookup = Ok c →
  sound c ∧ ∃ u, describes u c
    ∧ (url_Parse (TrimSpace (DSN c)) = Ok u → bracketed (Host c) = false →
       parseDSN (DSN c) = Ok c).
Proof.
  intros (Hs & u & Hd)%load_ok. split; [done|]. exists u. split; [done|]. intros Hparse Hb.
  destruct Hs as [(Hne & Hw & Hn) Hport [Hm Hmt]], Hd as [Hdsn Hsch Hhost Hmode Huser Hpw].
  destruct (parsePort_Itoa (Port c) Hport) as (Hp & Hdig & Hpne).
  unfold parseDSN. rewrite Hparse. cbn [res_map_err mbind res_bind]. rewrite (proj2 (String.eqb_neq (u_Scheme u) "")) by done.
  unfold Hostname, url_Port. rewrite Hhost, splitHostPort_join by done. cbn [fst snd].
  rewrite Hn, (proj2 (String.eqb_neq (Host c) "")) by done. rewrite validate_none by (by rewrite Hn).
  rewrite (proj2 (String.eqb_neq (Itoa (Port c)) "")), Hp by done. cbn [res_map_err mbind res_bind].
  change (u_RawQuery (set_Host (PgClient.JoinHostPort (Host c) (Itoa (Port c))) u)) with (u_RawQuery u).
  rewrite Hmode, (proj2 (String.eqb_neq (SSLMode c) "")) by done.
  change (u_User (set_Host (PgClient.JoinHostPort (Host c) (Itoa (Port c))) u)) with (u_User u).
  rewrite <- Huser, <- Hpw.
  assert (set_Host (PgClient.JoinHostPort (Host c) (Itoa (Port c))) u = u) as -> by (rewrite <- Hhost; by destruct u).
  rewrite <- Hdsn. by destruct c.
Qed.
End urls.
End DeployEnv.
