(* ===== verification/Pretty.v ===== *)
(** * The debug text of a query

    backends/pgsql/storage/prettier/query_prettier.go: the arguments of a
    statement written into its placeholders, for the logs of a local
    environment.  [fmt]'s [%q] and [%v] are parameters. *)

From Stdlib Require Import Ascii.
From S2P Require Import Prelude GoTime Errors Json GoStrings TableNames Tools Clients Deploy.
Import DeployEnv.
Open Scope Z_scope.

Section pretty.
Context {V : Type} (Quote : string → string) (Sprint : V → string).

Inductive Arg : Type := ArgString (s : string) | ArgBytes (b : string) | ArgOther (v : V).

Definition arg_value (param : Arg) : string :=
  match param with
  | ArgString v => Quote v
  | ArgBytes v => Quote v
  | ArgOther v => Sprint v
  end.

(** The loop [for i := len(args) - 1; i >= 0; i--], with [i + 1] rounds to go. *)
Fixpoint fill (placeholder : string) (args : list Arg) (rounds : nat) (sql : string) : string :=
  match rounds with
  | O => sql
  | S i => fill placeholder args i
             (match args !! i with
              | Some param => ReplaceAll sql (placeholder +:+ Itoa (Z.of_nat i + 1)) (arg_value param)
              | None => sql
              end)
  end.

Definition tab : string := String (Ascii.ascii_of_N 9) "".
Definition newline_text : string := String (Ascii.ascii_of_N 10) "".

Definition pretty (sql placeholder : string) (args : list Arg) : string :=
  let sql := fill placeholder args (length args) sql in
  let sql := ReplaceAll sql tab "" in
  let sql := ReplaceAll sql newline_text " " in
  TrimSpace sql.

Definition PlaceholderDollar : string := "$".

(** What is logged: the message and its attributes. *)
Definition LogQuery (log : bool) (env sql operationName : string) (args : list Arg) : option (string * list (string * string)) :=
  if negb log then None
  else if negb (String.eqb env "local") && negb (String.eqb env "dev") then None
  else Some ("sql query", [("sql", operationName); ("query", pretty sql PlaceholderDollar args)]).

(** ** Statements as text and placeholders *)

Inductive piece : Type := Text (s : string) | Param (i : nat).

Definition dollar : ascii := "$"%char.
Definition undollared (s : string) : bool := all_bytes (λ c, negb (Ascii.eqb c dollar)) s.
Definition starts_plain (s : string) : bool := match s with String c _ => negb (is_digit c) | EmptyString => false end.

(** A placeholder counts from 1 and is followed by the end or by text that does
    not go on with a digit; the text has no dollar sign of its own. *)
Fixpoint statement_ok (n : nat) (ps : list piece) : bool :=
  match ps with
  | [] => true
  | Text s :: ps => undollared s && statement_ok n ps
  | Param i :: ps =>
      (1 <=? i)%nat && (i <=? n)%nat
      && match ps with [] => true | Text s :: _ => starts_plain s | Param _ :: _ => false end
      && statement_ok n ps
  end.

(** The text of a statement whose placeholders above [k] have been substituted. *)
Definition piece_text (args : list Arg) (k : nat) (p : piece) : string :=
  match p with
  | Text s => s
  | Param i => if (k <? i)%nat then default "" (arg_value <$> args !! (i - 1)%nat) else "$" +:+ Itoa (Z.of_nat i)
  end.
Fixpoint substituted (args : list Arg) (k : nat) (ps : list piece) : string :=
  match ps with [] => "" | p :: ps => piece_text args k p +:+ substituted args k ps end.

(** The statement as written, and with every placeholder replaced at once. *)
Definition written (ps : list piece) : string :=
  foldr (λ p s, match p with Text t => t | Param i => "$" +:+ Itoa (Z.of_nat i) end +:+ s) "" ps.
Definition with_values (args : list Arg) (ps : list piece) : string :=
  foldr (λ p s, match p with Text t => t | Param i => default "" (arg_value <$> args !! (i - 1)%nat) end +:+ s) "" ps.

(** ** Replacement *)

Lemma string_cons_app a s t : String a s +:+ t = String a (s +:+ t).
Proof. done. Qed.
Lemma replace_skip old new s t : replace_from old new (String.length s) (s +:+ t) = replace_from old new 0 t.
Proof. induction s as [|a s IH]; [by destruct t|]. rewrite string_cons_app. cbn. apply IH. Qed.

Lemma prefix_app old t : String.prefix old (old +:+ t) = true.
Proof. induction old as [|a old IH]; [by destruct t|]. rewrite string_cons_app. cbn. by destruct (ascii_dec a a). Qed.

Lemma prefix_spec old s : String.prefix old s = true → ∃ t, s = old +:+ t.
Proof.
  revert s. induction old as [|a old IH]; intros s; [by exists s|]. destruct s as [|b s]; cbn; [done|].
  destruct (ascii_dec a b) as [->|]; [|done]. intros (t & ->)%IH. by exists t.
Qed.

Lemma replace_found a old new t :
  replace_from (String a old) new 0 (String a old +:+ t) = new +:+ replace_from (String a old) new 0 t.
Proof.
  pose proof (prefix_app (String a old) t) as Hp. rewrite string_cons_app in *. cbn [replace_from]. rewrite Hp.
  cbn [String.length]. by rewrite Nat.sub_succ, Nat.sub_0_r, replace_skip.
Qed.

Lemma replace_none old new s t : undollared s = true →
  replace_from (String dollar old) new 0 (s +:+ t) = s +:+ replace_from (String dollar old) new 0 t.
Proof.
  induction s as [|a s IH]; intros Hs; [done|]. apply andb_true_iff in Hs as [Ha Hs]. rewrite !string_cons_app.
  cbn [replace_from String.prefix]. destruct (ascii_dec dollar a) as [<-|Hne]; [done|]. by rewrite IH.
Qed.

(** ** Placeholders

    A number that continues with further digits is larger. *)
Lemma decimal_grows acc s : 1 ≤ acc → all_bytes is_digit s = true → s ≠ "" → acc < decimal acc s.
Proof.
  revert acc. induction s as [|c s IH]; intros acc Hacc Hs Hne; [done|]. cbn in Hs |- *.
  apply andb_true_iff in Hs as [Hc Hs]. pose proof (digit_range c Hc) as Hv.
  destruct s as [|d s]; [cbn; lia|]. specialize (IH (10 * acc + digit_value c) ltac:(lia) Hs ltac:(done)). lia.
Qed.

Lemma digits_split s t u : all_bytes is_digit s = true → all_bytes is_digit t = true →
  (∀ c r, u = String c r → is_digit c = false) → (∃ v, t +:+ u = s +:+ v) → ∃ w, t = s +:+ w ∧ all_bytes is_digit w = true.
Proof.
  revert t. induction s as [|a s IH]; intros t Hs Ht Hu (v & Heq); [by exists t|].
  apply andb_true_iff in Hs as [Ha Hs]. destruct t as [|b t].
  - rewrite string_cons_app in Heq. cbn in Heq. by rewrite (Hu a (s +:+ v) Heq) in Ha.
  - rewrite !string_cons_app in Heq. injection Heq as -> Heq. apply andb_true_iff in Ht as [_ Ht].
    destruct (IH t Hs Ht Hu) as (w & -> & Hw); [by exists v|]. by exists w.
Qed.

Definition countable_params (n : nat) : Prop := Z.of_nat n < 10 ^ 20.

Lemma placeholder_first i k rest n : (1 ≤ k)%nat → (i ≤ k)%nat → (k ≤ n)%nat → countable_params n →
  (∀ c r, rest = String c r → is_digit c = false) →
  String.prefix ("$" +:+ Itoa (Z.of_nat k)) (("$" +:+ Itoa (Z.of_nat i)) +:+ rest) = true → i = k.
Proof.
  intros Hk Hik Hkn Hn Hrest Hp. apply prefix_spec in Hp as (t & Heq). unfold countable_params in Hn.
  destruct (itoa_spec 20 (Z.of_nat k)) as (Hdk & Hvk & _); [change (Z.of_nat 20) with 20; lia|lia|].
  destruct (itoa_spec 20 (Z.of_nat i)) as (Hdi & Hvi & _); [change (Z.of_nat 20) with 20; lia|lia|].
  fold (Itoa (Z.of_nat k)) in *. fold (Itoa (Z.of_nat i)) in *.
  assert (Itoa (Z.of_nat i) +:+ rest = Itoa (Z.of_nat k) +:+ t) as Heq' by (by injection Heq).
  destruct (digits_split _ _ _ Hdk Hdi Hrest (ex_intro _ t Heq')) as (w & Hw & Hdw).
  rewrite Hw, decimal_app, Hvk in Hvi. destruct (decide (w = "")) as [->|Hne]; [cbn in Hvi; lia|].
  pose proof (decimal_grows (Z.of_nat k) w ltac:(lia) Hdw Hne). lia.
Qed.

Lemma statement_follows n i ps : statement_ok n (Param i :: ps) = true →
  (1 ≤ i ≤ n)%nat ∧ statement_ok n ps = true
  ∧ ∀ args k c r, substituted args k ps = String c r → is_digit c = false.
Proof.
  cbn [statement_ok]. rewrite !andb_true_iff, !Nat.leb_le. intros [[[H1 H2] Hnext] Hok]. split_and!; [done..|].
  intros args k c r Heq. destruct ps as [|[[|d s]|j] ps]; [done|done| |done]. cbn in Hnext, Heq. injection Heq as -> _.
  by apply negb_true_iff in Hnext.
Qed.

(** One round fills the placeholders of its number. *)
Lemma fill_round args k ps v : (1 ≤ k ≤ length args)%nat → countable_params (length args) →
  Forall (λ a, undollared (arg_value a) = true) args → statement_ok (length args) ps = true →
  args !! (k - 1)%nat = Some v →
  ReplaceAll (substituted args k ps) ("$" +:+ Itoa (Z.of_nat k)) (arg_value v) = substituted args (k - 1) ps.
Proof.
  intros Hk Hn Hargs Hps Hv. change (replace_from (String dollar (Itoa (Z.of_nat k))) (arg_value v) 0 (substituted args k ps) = substituted args (k - 1) ps).
  induction ps as [|[s|i] ps IH]; [done|cbn [substituted piece_text]|].
  - cbn in Hps. apply andb_true_iff in Hps as [Hs Hps]. rewrite replace_none by done. by rewrite IH.
  - apply statement_follows in Hps as (Hi & Hps & Hnext). cbn [substituted piece_text].
    destruct (Nat.ltb_spec k i) as [Hki|Hik].
    + rewrite (proj2 (Nat.ltb_lt _ _)) by lia. rewrite replace_none; [by rewrite IH|].
      destruct (args !! (i - 1)%nat) as [a|] eqn:Ha; [|done]. cbn.
      rewrite Forall_forall in Hargs. by eapply Hargs, list_elem_of_lookup_2.
    + destruct (decide (i = k)) as [->|Hne].
      * rewrite (proj2 (Nat.ltb_lt _ _)) by lia. rewrite Hv. cbn [fmap option_fmap option_map default].
        change ("$" +:+ Itoa (Z.of_nat k)) with (String dollar (Itoa (Z.of_nat k))). by rewrite replace_found, IH.
      * rewrite (proj2 (Nat.ltb_ge _ _)) by lia.
        assert (String.prefix (String dollar (Itoa (Z.of_nat k))) (("$" +:+ Itoa (Z.of_nat i)) +:+ substituted args k ps) = false) as Hp.
        { apply not_true_iff_false. intros Hp. apply Hne. eapply (placeholder_first i k _ (length args)); try done; try lia.
          intros c r Heq. by eapply Hnext. }
        change (("$" +:+ Itoa (Z.of_nat i)) +:+ substituted args k ps) with (String dollar (Itoa (Z.of_nat i) +:+ substituted args k ps)) in *.
        cbn [replace_from]. rewrite Hp, replace_none.
        { by rewrite IH. }
        destruct (itoa_spec 20 (Z.of_nat i)) as (Hd & _); [unfold countable_params in Hn; change (Z.of_nat 20) with 20; lia|lia|].
        fold (Itoa (Z.of_nat i)) in Hd. revert Hd. apply all_bytes_mono. intros c Hc.
        destruct (Ascii.eqb_spec c dollar) as [->|]; [done|done].
Qed.

Lemma fill_filled args ps rounds : countable_params (length args) → (rounds ≤ length args)%nat →
  Forall (λ a, undollared (arg_value a) = true) args → statement_ok (length args) ps = true →
  fill "$" args rounds (substituted args rounds ps) = substituted args 0 ps.
Proof.
  intros Hn Hr Hargs Hps. induction rounds as [|k IH]; [done|]. cbn [fill].
  destruct (lookup_lt_is_Some_2 args k) as [v Hv]; [lia|]. rewrite Hv.
  replace (Z.of_nat k + 1) with (Z.of_nat (S k)) by lia.
  rewrite (fill_round args (S k) ps v); [|lia|done..|by rewrite Nat.sub_succ, Nat.sub_0_r].
  rewrite Nat.sub_succ, Nat.sub_0_r. apply IH. lia.
Qed.

Lemma filled_written args ps : statement_ok (length args) ps = true → substituted args (length args) ps = written ps.
Proof.
  induction ps as [|[s|i] ps IH]; intros Hps; [done| |]; cbn [substituted written foldr piece_text].
  - cbn in Hps. apply andb_true_iff in Hps as [_ Hps]. by rewrite IH.
  - apply statement_follows in Hps as (Hi & Hps & _). rewrite (proj2 (Nat.ltb_ge _ _)) by lia. by rewrite IH.
Qed.

Lemma filled_values args n ps : statement_ok n ps = true → substituted args 0 ps = with_values args ps.
Proof.
  induction ps as [|[s|i] ps IH]; intros Hps; [done| |]; cbn [substituted with_values foldr piece_text].
  - cbn in Hps. apply andb_true_iff in Hps as [_ Hps]. by rewrite IH.
  - apply statement_follows in Hps as (Hi & Hps & _). rewrite (proj2 (Nat.ltb_lt _ _)) by lia. by rewrite IH.
Qed.

(** C40: the rounds of replacements, from the last argument to the first, are
    one simultaneous substitution.  For a statement whose placeholders are in
    range and do not run into further digits, and values without a dollar sign,
    the debug text is the statement with each placeholder replaced by its own
    argument: [$1] never takes the front of [$10], however many arguments there
    are; then tabs are dropped, newlines become spaces and the ends are
    trimmed. *)
Theorem pretty_substitutes ps args : countable_params (length args) →
  Forall (λ a, undollared (arg_value a) = true) args → statement_ok (length args) ps = true →
  pretty (written ps) PlaceholderDollar args
  = TrimSpace (ReplaceAll (ReplaceAll (with_values args ps) tab "") newline_text " ").
Proof.
  intros Hn Hargs Hps. unfold pretty. do 3 f_equal. rewrite <- (filled_written args ps Hps).
  rewrite fill_filled by done. by eapply filled_values.
Qed.
End pretty.

(** Twelve arguments: two-digit placeholders are not cut. *)
Definition in_quotes (s : string) : string := "'" +:+ s +:+ "'".
Definition twelve : list (Arg (V := Z)) := ArgString "a" :: ArgBytes "b" :: (ArgOther <$> seqZ 3 10).
Definition twelve_pieces : list piece :=
  [Text "update t set a = "; Param 1; Text ", b = "; Param 12; Text (newline_text +:+ "where c in ("); Param 11; Text ", ";
   Param 2; Text ")"].

Example twelve_filled :
  pretty in_quotes Itoa (written twelve_pieces) PlaceholderDollar twelve = "update t set a = 'a', b = 12 where c in (11, 'b')".
Proof. vm_compute. reflexivity. Qed.

(** A value that contains a placeholder is itself replaced by a later round. *)
Example value_replaced :
  pretty (V := Z) in_quotes Itoa "select $1, $2" PlaceholderDollar [ArgString "x"; ArgString "$1"] = "select 'x', ''x''".
Proof. vm_compute. reflexivity. Qed.

Lemma pretty_substitutes_witness :
  pretty in_quotes Itoa (written twelve_pieces) PlaceholderDollar twelve
  = TrimSpace (ReplaceAll (ReplaceAll (with_values in_quotes Itoa twelve twelve_pieces) tab "") newline_text " ").
Proof.
  apply (pretty_substitutes in_quotes Itoa twelve_pieces twelve).
  - vm_compute. reflexivity.
  - repeat (apply Forall_cons_2; [reflexivity|]). apply Forall_nil_2.
  - reflexivity.
Defined.
