(* ===== verification/Logging.v ===== *)
(** * Loggers

    outbox/logger/adapter_slog.go and
    backends/picodata/storage/adapter_logger.go.  A [slog.Handler] is whatever
    the application supplies: it takes attributes and records.  The levels of
    picodata-go's logger and their names are parameters. *)

From S2P Require Import Prelude GoTime Errors.
Open Scope Z_scope.

(** ** The slog adapter *)

Inductive Level : Type := LevelDebug | LevelInfo | LevelWarn | LevelError.
#[global] Instance Level_eq_dec : EqDecision Level.
Proof. solve_decision. Defined.

Record Attr : Type := mkAttr { a_Key : string; a_Value : string }.

(** What a logger writes: the attributes of its handler, the level and the
    message. *)
Record LogLine : Type := mkLine { ln_Attrs : list Attr; ln_Level : Level; ln_Message : string; ln_Args : list Attr }.

Record SlogHandler (H : Type) : Type := {
  WithAttrs : H → list Attr → H;
  Handle : H → Level → string → list Attr → list LogLine
}.
Arguments WithAttrs {H}.
Arguments Handle {H}.

Section adapter.
Context {H : Type} (lib : SlogHandler H) (stdout discard : H).

(** [slog.Logger]: its handler; [With] without arguments is the logger. *)
Definition slog_With (log : H) (args : list Attr) : H :=
  match args with [] => log | _ => WithAttrs lib log args end.

Record SlogAdapter : Type := NewLogger { log : H }.

Definition Named (name : string) (l : SlogAdapter) : SlogAdapter :=
  if String.eqb name "" then l else NewLogger (slog_With (log l) [mkAttr "logger" name]).

Definition With (attrs : list Attr) (l : SlogAdapter) : SlogAdapter :=
  match attrs with [] => l | _ => NewLogger (slog_With (log l) attrs) end.

(** [wrap]: a logger over the handler of any other. *)
Definition wrap (handler : H) : SlogAdapter := NewLogger handler.

Definition WrapNamed (handler : H) (names : list string) : SlogAdapter :=
  let l := wrap handler in
  let name := match names with [] => "" | n :: _ => n end in
  if String.eqb name "" then l else Named name l.

Definition WrapWithAttrs (handler : H) (attrs : list Attr) : SlogAdapter := With attrs (wrap handler).

Definition DefaultJSONWithWriter (writer : H) : SlogAdapter := NewLogger writer.
Definition Default : SlogAdapter := DefaultJSONWithWriter stdout.
Definition Discard : SlogAdapter := DefaultJSONWithWriter discard.

Definition DebugContext (l : SlogAdapter) (msg : string) (args : list Attr) : list LogLine := Handle lib (log l) LevelDebug msg args.
Definition InfoContext (l : SlogAdapter) (msg : string) (args : list Attr) : list LogLine := Handle lib (log l) LevelInfo msg args.
Definition WarnContext (l : SlogAdapter) (msg : string) (args : list Attr) : list LogLine := Handle lib (log l) LevelWarn msg args.
Definition ErrorContext (l : SlogAdapter) (msg : string) (args : list Attr) : list LogLine := Handle lib (log l) LevelError msg args.
End adapter.
Arguments SlogAdapter : clear implicits.
Arguments NewLogger {H} log.
Arguments log {H}.

(** A handler as documented: attributes accumulate, and a record it writes
    carries them all, at the level it was given. *)
Class HandlerLaws {H : Type} (lib : SlogHandler H) (attrs : H → list Attr) : Prop := {
  with_attrs h l : attrs (WithAttrs lib h l) = attrs h ++ l;
  handle_writes h lvl msg args x : x ∈ Handle lib h lvl msg args → x = mkLine (attrs h) lvl msg args
}.

(** Names and attributes given one after another all reach the handler, in
    their order, and empty ones leave the logger alone. *)
Lemma wrapped_attrs {H} (lib : SlogHandler H) attrs `{!HandlerLaws lib attrs} h names l :
  attrs (log (WrapWithAttrs lib (log (WrapNamed lib h names)) l))
  = attrs h ++ (match names with n :: _ => if String.eqb n "" then [] else [mkAttr "logger" n] | [] => [] end) ++ l.
Proof.
  assert (∀ h' l', attrs (log (WrapWithAttrs lib h' l')) = attrs h' ++ l') as Hw.
  { intros h' [|a l']; cbn; [by rewrite app_nil_r|apply with_attrs]. }
  rewrite Hw, (assoc (++)). f_equal. destruct names as [|n names]; unfold WrapNamed, Named; cbn; [by rewrite app_nil_r|].
  destruct (String.eqb n "") eqn:Hn; cbn; [by rewrite app_nil_r|]. apply with_attrs.
Qed.

(** ** The adapter of the Picodata client *)

Section picodata.
Context {H : Type} (lib : SlogHandler H) (default_logger : SlogAdapter H).
Context (picoNone picoError picoWarn picoInfo picoDebug : Z) (level_String : Z → result string).
Context (Sprintf : string → list string → string).

Record AdapterLog : Type := mkAdapterLog { al_log : SlogAdapter H; al_level : Z }.

Definition NewAdapterLog (l : option (SlogAdapter H)) : AdapterLog :=
  mkAdapterLog (match l with None => default_logger | Some l => l end) picoWarn.

Definition Log (a : AdapterLog) (level : Z) (msg : string) (fields : list string) : list LogLine :=
  if al_level a <? level then []
  else if level =? picoDebug then DebugContext lib (al_log a) (Sprintf msg fields) []
  else if level =? picoInfo then InfoContext lib (al_log a) (Sprintf msg fields) []
  else if level =? picoWarn then WarnContext lib (al_log a) (Sprintf msg fields) []
  else if level =? picoError then ErrorContext lib (al_log a) (Sprintf msg fields) []
  else [].

(** The receiver of [SetLevel] is a value: the assignment is to the method's
    copy, [copied], which is dropped when it returns. *)
Definition SetLevel (a : AdapterLog) (level : Z) : option err * AdapterLog :=
  let copied := a in
  match level_String level with
  | Err e => (Some e, a)
  | Ok _ => let copied := mkAdapterLog (al_log copied) level in (None, a)
  end.

Fixpoint set_levels (a : AdapterLog) (levels : list Z) : AdapterLog :=
  match levels with [] => a | l :: ls => set_levels (SetLevel a l).2 ls end.

(** The order of the levels, as the driver documents it. *)
Context (Horder : picoNone < picoError < picoWarn ∧ picoWarn < picoInfo < picoDebug).
Context (attrs : H → list Attr) `{!HandlerLaws lib attrs}.

(** The driver's messages reach the application's logger at their own level,
    warnings and errors only: raising the level afterwards is reported as done
    and changes nothing. *)
Lemma adapter_filters l levels level msg fields x :
  x ∈ Log (set_levels (NewAdapterLog (Some l)) levels) level msg fields →
  ln_Message x = Sprintf msg fields ∧ ln_Attrs x = attrs (log l)
  ∧ (level = picoWarn ∧ ln_Level x = LevelWarn ∨ level = picoError ∧ ln_Level x = LevelError).
Proof.
  assert (set_levels (NewAdapterLog (Some l)) levels = NewAdapterLog (Some l)) as ->.
  { induction levels as [|lv levels IH]; [done|]. cbn [set_levels]. unfold SetLevel at 1. by destruct (level_String lv). }
  unfold Log. cbn [NewAdapterLog al_level al_log]. destruct (Z.ltb_spec picoWarn level); [set_solver|].
  destruct (Z.eqb_spec level picoDebug); [lia|]. destruct (Z.eqb_spec level picoInfo); [lia|].
  destruct (Z.eqb_spec level picoWarn) as [->|]; [|destruct (Z.eqb_spec level picoError) as [->|]; [|set_solver]];
    intros Hx%(handle_writes (lib := lib)); subst x; cbn; auto.
Qed.
End picodata.
