(* ===== verification/Files.v ===== *)
(** * Finding files

    shared/tools/file.go and shared/loadenv/config.go: the nearest ancestor
    directory that holds a file, and the .env files loaded from there.  The
    paths are those of path/filepath on Unix: [Clean] as documented, on the
    segments of a path; the file system, the environment and godotenv are
    parameters. *)

From Stdlib Require Import Ascii.
From S2P Require Import Prelude GoTime Errors Json GoStrings TableNames.
Open Scope Z_scope.

(** ** path/filepath *)

Definition slash : ascii := "/"%char.
Definition rooted (path : string) : bool := match path with String c _ => Ascii.eqb c slash | EmptyString => false end.

(** The segments kept so far, the last one first. *)
Definition clean_step (root : bool) (stack : list string) (seg : string) : list string :=
  if String.eqb seg "" || String.eqb seg "." then stack
  else if String.eqb seg ".." then
    match stack with
    | [] => if root then [] else [".."]
    | top :: rest => if String.eqb top ".." then ".." :: stack else rest
    end
  else seg :: stack.

Definition clean_stack (root : bool) (path : string) : list string := foldl (clean_step root) [] (Split path slash).

Definition render_path (root : bool) (stack : list string) : string :=
  if root then String slash (Join (reverse stack) "/")
  else match stack with [] => "." | _ => Join (reverse stack) "/" end.

Definition Clean (path : string) : string := render_path (rooted path) (clean_stack (rooted path) path).

(** The path up to its last slash. *)
Fixpoint up_to_slash (path : string) : string :=
  match path with
  | EmptyString => ""
  | String c rest =>
      match up_to_slash rest with
      | EmptyString => if Ascii.eqb c slash then String c "" else ""
      | prefix => String c prefix
      end
  end.

Definition Dir (path : string) : string := Clean (up_to_slash path).

Definition join_path (dir file : string) : string :=
  if negb (String.eqb dir "") then Clean (dir +:+ "/" +:+ file)
  else if negb (String.eqb file "") then Clean file else "".

(** ** shared/tools/file.go *)

Section find.
Context (missing : string → bool) (GOPATH : string).

(** [None] is a loop that has not ended. *)
Fixpoint find_loop (fuel : nat) (filePath gopath : string) (visited : list string) (dir : string) : option string :=
  match fuel with
  | O => None
  | S fuel =>
      if String.eqb dir gopath then Some ""
      else if existsb (String.eqb dir) visited then Some ""
      else
        let path := join_path dir filePath in
        if missing path then find_loop fuel filePath gopath (dir :: visited) (Dir dir)
        else Some path
  end.

Definition FindFileDir (fuel : nat) (filePath callerFile : string) : option string :=
  find_loop fuel filePath (Clean GOPATH) [] (Dir callerFile).
End find.

(** The files of the stack from [runtime.Caller(0)] outwards; past its end the
    file is empty, so that a stack without files is searched for ever. *)
Fixpoint caller_loop (currentFile : string) (frames : list string) : option string :=
  match frames with
  | [] => if String.eqb currentFile "" then None else Some ""
  | file :: frames => if String.eqb file currentFile then caller_loop currentFile frames else Some file
  end.

Definition CallerCurrentFile (frames : list string) : option string :=
  caller_loop (default "" (head frames)) (tail frames).

Lemma CallerCurrentFile_spec own frames file rest : own ≠ file →
  CallerCurrentFile (own :: replicate frames own ++ file :: rest) = Some file.
Proof.
  intros Hne. unfold CallerCurrentFile. cbn [head default tail]. induction frames as [|n IH]; cbn.
  - destruct (String.eqb_spec file own); [congruence|done].
  - by rewrite String.eqb_refl.
Qed.

(** ** shared/loadenv/config.go *)

Section load.
Context (frames : list string) (missing : string → bool) (GOPATH ENV_OVERRIDE : string) (godotenv_Load godotenv_Overload : string → option err).

(** The files loaded, in order, with the error that ended it. *)
Definition loadEnvironment (fuel : nat) (files : list string) : option (list string * option err) :=
  ownFile ← CallerCurrentFile frames;
  let callerFile := default ownFile (head files) in
  filePath ← FindFileDir missing GOPATH fuel ".env" callerFile;
  match godotenv_Load filePath with
  | Some e => Some ([filePath], Some (wrapf "error loading .env file" e))
  | None =>
      if String.eqb ENV_OVERRIDE "1" then
        overridePath ← FindFileDir missing GOPATH fuel ".env.override" callerFile;
        Some ([filePath; overridePath], wrapf "error loading .env.override file" <$> godotenv_Overload overridePath)
      else Some ([filePath], None)
  end.

(** The files loaded and the warning logged, if any. *)
Definition Load (fuel : nat) (files : list string) : option (list string * option string) :=
  '(loaded, e) ← loadEnvironment fuel files;
  Some (loaded, match e with Some _ => Some "not found .env file" | None => None end).
End load.

(** ** Directories as stacks *)

Definition plain_segment (s : string) : bool :=
  all_bytes (λ c, negb (Ascii.eqb c slash)) s && negb (String.eqb s "") && negb (String.eqb s ".").

(** A stack [Clean] may leave: dots lead only a relative path. *)
Fixpoint plain_stack (root : bool) (stack : list string) : bool :=
  match stack with
  | [] => true
  | s :: rest =>
      plain_segment s && plain_stack root rest
      && (negb (String.eqb s "..") || negb root && forallb (String.eqb "..") rest)
  end.

Example paths_work :
  Clean "/a//b/./c/../d" = "/a/b/d" ∧ Clean "../../x" = "../../x" ∧ Clean "/.." = "/" ∧ Clean "" = "."
  ∧ Dir "/a/b/c.go" = "/a/b" ∧ Dir "/a" = "/" ∧ Dir "c.go" = "." ∧ Dir "../.." = ".." ∧ join_path "/a/b" ".env" = "/a/b/.env".
Proof. repeat split. Qed.

Definition unslashed (s : string) : bool := all_bytes (λ c, negb (Ascii.eqb c slash)) s.

Lemma split_unslashed part s : unslashed part = true → Forall (λ x, unslashed x = true) (split_byte slash part s).
Proof.
  revert part. induction s as [|a s IH]; intros part Hp; cbn; [by repeat constructor|].
  destruct (Ascii.eqb a slash) eqn:Ha; [constructor; [done|by apply IH]|].
  apply IH. unfold unslashed in *. rewrite all_bytes_app, Hp. cbn. by rewrite Ha.
Qed.

Lemma clean_step_canonical root st seg : unslashed seg = true → plain_stack root st = true → plain_stack root (clean_step root st seg) = true.
Proof.
  intros Hseg Hst. unfold clean_step. destruct (String.eqb seg "") eqn:He; [done|]. destruct (String.eqb seg ".") eqn:Hd; [done|]. cbn [orb].
  destruct (String.eqb_spec seg "..") as [->|Hne].
  - destruct st as [|top rest]; [by destruct root|]. destruct (String.eqb_spec top "..") as [->|].
    + pose proof Hst as Hst'. cbn [plain_stack] in Hst. rewrite !andb_true_iff in Hst. destruct Hst as [_ Hdots].
      change (plain_stack root (".." :: ".." :: rest)) with (plain_stack root (".." :: rest) && (negb root && forallb (String.eqb "..") rest)).
      change (negb root && forallb (String.eqb "..") rest = true) in Hdots. by rewrite Hst', Hdots.
    + cbn in Hst. rewrite !andb_true_iff in Hst. apply Hst.
  - cbn. unfold plain_segment. fold (unslashed seg). rewrite Hseg, He, Hd, Hst. cbn. by destruct (String.eqb_spec seg "..").
Qed.

Lemma clean_canonical root path : plain_stack root (clean_stack root path) = true.
Proof.
  unfold clean_stack. assert (plain_stack root [] = true) as H0 by done. revert H0. generalize (@nil string).
  assert (Forall (λ x, unslashed x = true) (Split path slash)) as HF by (by apply split_unslashed). revert HF.
  generalize (Split path slash). intros l HF. induction HF as [|x l Hx HF IH]; intros st Hst; [done|]. cbn. apply IH.
  by apply clean_step_canonical.
Qed.

Lemma clean_reverse root st : plain_stack root st = true → foldl (clean_step root) [] (reverse st) = st.
Proof.
  induction st as [|s rest IH]; [done|]. cbn [plain_stack]. rewrite !andb_true_iff. intros [[Hs Hc] Hdots].
  rewrite reverse_cons, foldl_app, IH by done. cbn. unfold plain_segment in Hs. rewrite !andb_true_iff, !negb_true_iff in Hs.
  destruct Hs as [[_ He] Hd]. unfold clean_step. rewrite He, Hd. cbn [orb].
  destruct (String.eqb_spec s "..") as [->|]; [|done].
  change (negb root && forallb (String.eqb "..") rest = true) in Hdots. apply andb_true_iff in Hdots as [Hr%negb_true_iff Hall].
  destruct rest as [|t rest]; [by subst root|]. cbn [forallb] in Hall. apply andb_true_iff in Hall as [Ht _]. by rewrite String.eqb_sym, Ht.
Qed.

Lemma canonical_unslashed root st : plain_stack root st = true → Forall (λ x, all_bytes (λ c, negb (Ascii.eqb c slash)) x = true) st.
Proof.
  induction st as [|s rest IH]; cbn; [constructor|]. unfold plain_segment. rewrite !andb_true_iff.
  intros [[[[Hs _] _] Hc] _]. constructor; [done|by apply IH].
Qed.

(** ** Rendered paths *)

Lemma join_snoc l s sep : l ≠ [] → Join (l ++ [s]) sep = Join l sep +:+ sep +:+ s.
Proof.
  induction l as [|x l IH]; [done|]. intros _. destruct l as [|y l]; [done|].
  change ((x :: y :: l) ++ [s]) with (x :: y :: (l ++ [s])). change (Join (x :: y :: l ++ [s]) sep) with (x +:+ sep +:+ Join ((y :: l) ++ [s]) sep).
  rewrite IH by done. change (Join (x :: y :: l) sep) with (x +:+ sep +:+ Join (y :: l) sep). by rewrite <- !append_assoc.
Qed.

Lemma rooted_app s t : s ≠ "" → rooted (s +:+ t) = rooted s.
Proof. by destruct s. Qed.

Lemma rooted_join l : l ≠ [] → Forall (λ x, plain_segment x = true) l → rooted (Join l "/") = false.
Proof.
  intros Hne HF. destruct HF as [|x l Hx _]; [done|]. unfold plain_segment in Hx. rewrite !andb_true_iff in Hx.
  destruct Hx as [[Hs He] _]. destruct x as [|c x]; [done|]. cbn in Hs. apply andb_true_iff in Hs as [Hc _].
  destruct l; cbn; by apply negb_true_iff in Hc.
Qed.

Lemma canonical_plain root st : plain_stack root st = true → Forall (λ x, plain_segment x = true) st.
Proof.
  induction st as [|s rest IH]; cbn [plain_stack]; [constructor|]. rewrite !andb_true_iff. intros [[Hs Hc] _]. constructor; [done|by apply IH].
Qed.

Lemma rooted_render root st : plain_stack root st = true → rooted (render_path root st) = root.
Proof.
  intros Hc. destruct root; [done|]. cbn. destruct st as [|s rest] eqn:Hst; [done|]. rewrite <- Hst in *.
  apply rooted_join; [intros Hn; apply (f_equal reverse) in Hn; rewrite reverse_involutive in Hn; by subst st|].
  apply Forall_reverse. by eapply canonical_plain.
Qed.

Lemma clean_stack_render root st : plain_stack root st = true → clean_stack root (render_path root st) = st.
Proof.
  intros Hc. unfold clean_stack. pose proof (canonical_unslashed root st Hc) as HF.
  assert (st ≠ [] → Split (Join (reverse st) "/") slash = reverse st) as Hsplit.
  { intros Hne. apply (Split_Join_byte slash); [|by apply Forall_reverse].
    intros Hn. apply Hne. apply (f_equal reverse) in Hn. by rewrite reverse_involutive in Hn. }
  destruct root; cbn [render_path].
  - change (Split (String slash (Join (reverse st) "/")) slash) with ("" :: Split (Join (reverse st) "/") slash). cbn [foldl].
    change (clean_step true [] "") with (@nil string). destruct st as [|s rest] eqn:Hst; [done|]. rewrite <- Hst in *.
    rewrite Hsplit by (by rewrite Hst). by apply clean_reverse.
  - destruct st as [|s rest] eqn:Hst; [done|]. rewrite <- Hst in *. rewrite Hsplit by (by rewrite Hst). by apply clean_reverse.
Qed.

Lemma render_inj root st st' : plain_stack root st = true → plain_stack root st' = true →
  render_path root st = render_path root st' → st = st'.
Proof. intros H1 H2 Heq. rewrite <- (clean_stack_render root st), <- (clean_stack_render root st') by done. by rewrite Heq. Qed.

(** ** [Dir] drops the last segment *)

Lemma up_to_slash_none s : unslashed s = true → up_to_slash s = "".
Proof.
  induction s as [|a s IH]; [done|]. cbn. rewrite andb_true_iff. intros [Ha%negb_true_iff Hs]. by rewrite IH, Ha.
Qed.

Lemma up_to_slash_app p s : unslashed s = true → up_to_slash (p +:+ String slash s) = p +:+ "/".
Proof.
  intros Hs. induction p as [|a p IH].
  - change (up_to_slash (String slash s) = "/"). cbn [up_to_slash]. by rewrite (up_to_slash_none s Hs).
  - change (String a p +:+ String slash s) with (String a (p +:+ String slash s)). cbn [up_to_slash]. rewrite IH. by destruct p.
Qed.

Lemma split_snoc part p : split_byte slash part (p +:+ "/") = split_byte slash part p ++ [""].
Proof.
  revert part. induction p as [|a p IH]; intros part; [done|]. change (String a p +:+ "/") with (String a (p +:+ "/")). cbn.
  destruct (Ascii.eqb a slash); by rewrite IH.
Qed.

Lemma clean_stack_snoc root p : clean_stack root (p +:+ "/") = clean_stack root p.
Proof. unfold clean_stack, Split. rewrite split_snoc, foldl_app. done. Qed.

Lemma render_cons root s rest : rest ≠ [] → render_path root (s :: rest) = render_path root rest +:+ String slash s.
Proof.
  intros Hne. assert (reverse rest ≠ []) as Hr by (intros Hn; apply Hne; apply (f_equal reverse) in Hn; by rewrite reverse_involutive in Hn).
  unfold render_path. rewrite reverse_cons, join_snoc by done. destruct root; [done|]. by destruct rest.
Qed.

Lemma Dir_render root s rest : plain_stack root (s :: rest) = true → Dir (render_path root (s :: rest)) = render_path root rest.
Proof.
  intros Hc. pose proof Hc as Hc'. cbn [plain_stack] in Hc'. rewrite !andb_true_iff in Hc'. destruct Hc' as [[Hs Hrest] _].
  unfold plain_segment in Hs. rewrite !andb_true_iff in Hs. destruct Hs as [[Hs _] _]. fold (unslashed s) in Hs.
  unfold Dir. destruct (decide (rest = [])) as [->|Hne].
  - destruct root.
    + change (Clean (up_to_slash ("" +:+ String slash s)) = "/"). by rewrite up_to_slash_app.
    + change (Clean (up_to_slash s) = "."). by rewrite up_to_slash_none.
  - rewrite render_cons, up_to_slash_app by done. unfold Clean.
    assert (rooted (render_path root rest +:+ "/") = root) as ->.
    { rewrite rooted_app; [by apply rooted_render|]. intros Hn. apply (f_equal (clean_stack root)) in Hn.
      rewrite clean_stack_render in Hn by done. by rewrite Hn in Hne. }
    by rewrite clean_stack_snoc, clean_stack_render.
Qed.

Lemma Dir_top root : Dir (render_path root []) = render_path root [].
Proof. by destruct root. Qed.

(** ** The search *)

(** A directory and those above it. *)
Fixpoint ancestors (root : bool) (stack : list string) : list string :=
  render_path root stack :: match stack with [] => [] | _ :: rest => ancestors root rest end.

(** The first of them that holds the file, looked for below GOPATH. *)
Fixpoint nearest (missing : string → bool) (gopath filePath : string) (dirs : list string) : string :=
  match dirs with
  | [] => ""
  | dir :: dirs =>
      if String.eqb dir gopath then ""
      else if missing (join_path dir filePath) then nearest missing gopath filePath dirs
      else join_path dir filePath
  end.

Definition ancestors_of (file : string) : list string :=
  let dir := up_to_slash file in ancestors (rooted dir) (clean_stack (rooted dir) dir).

Section search.
Context (missing : string → bool) (gopath filePath : string).

Lemma find_nearest root st : ∀ fuel visited, plain_stack root st = true →
  (∀ v, v ∈ visited → ∃ st', plain_stack root st' = true ∧ v = render_path root st' ∧ (length st < length st')%nat) →
  (length st + 2 ≤ fuel)%nat →
  find_loop missing fuel filePath gopath visited (render_path root st) = Some (nearest missing gopath filePath (ancestors root st)).
Proof.
  assert (∀ st visited, plain_stack root st = true →
    (∀ v, v ∈ visited → ∃ st', plain_stack root st' = true ∧ v = render_path root st' ∧ (length st < length st')%nat) →
    existsb (String.eqb (render_path root st)) visited = false) as Hnew.
  { intros st0 visited Hc Hv. apply not_true_iff_false. intros (v & Hin & Heq%String.eqb_eq)%existsb_exists.
    rewrite <- list_elem_of_In in Hin. destruct (Hv v Hin) as (st' & Hc' & -> & Hlt).
    apply render_inj in Heq; [subst st'; lia|done..]. }
  induction st as [|s rest IH]; intros fuel visited Hc Hv Hf; (destruct fuel as [|fuel]; [lia|]); cbn [find_loop ancestors nearest];
    (destruct (String.eqb (render_path root _) gopath) eqn:Hg; [done|]); rewrite Hnew by done;
    (destruct (missing _); [|done]).
  - rewrite Dir_top. destruct fuel as [|fuel]; [cbn in Hf; lia|]. cbn [find_loop]. rewrite Hg. cbn [existsb]. by rewrite String.eqb_refl.
  - rewrite Dir_render by done. apply IH.
    + cbn [plain_stack] in Hc. rewrite !andb_true_iff in Hc. apply Hc.
    + intros v [->|Hin]%elem_of_cons; [exists (s :: rest); split_and!; [done..|cbn; lia]|].
      destruct (Hv v Hin) as (st' & ? & ? & ?). exists st'. split_and!; [done..|cbn in *; lia].
    + cbn in Hf. lia.
Qed.
End search.

Lemma clean_stack_length root path : (length (clean_stack root path) ≤ String.length path + 1)%nat.
Proof.
  assert (∀ l st, (length (foldl (clean_step root) st l) ≤ length st + length l)%nat) as Hfold.
  { intros l. induction l as [|x l IH]; intros st; cbn; [lia|]. etrans; [apply IH|].
    assert (length (clean_step root st x) ≤ length st + 1)%nat; [|lia].
    unfold clean_step. repeat case_match; subst; cbn in *; lia. }
  assert (∀ s part, (length (split_byte slash part s) ≤ String.length s + 1)%nat) as Hsplit.
  { intros s. induction s as [|a s IH]; intros part; cbn; [lia|]. destruct (Ascii.eqb a slash); cbn; [specialize (IH "")|specialize (IH (part +:+ String a ""))]; lia. }
  unfold clean_stack, Split. etrans; [apply Hfold|]. cbn. apply Hsplit.
Qed.

Lemma up_to_slash_length p : (String.length (up_to_slash p) ≤ String.length p)%nat.
Proof. induction p as [|a p IH]; cbn; [lia|]. destruct (up_to_slash p); cbn in *; [destruct (Ascii.eqb a slash); cbn; lia|lia]. Qed.

Lemma FindFileDir_ends missing GOPATH fuel filePath callerFile : (String.length callerFile + 3 ≤ fuel)%nat →
  FindFileDir missing GOPATH fuel filePath callerFile
  = Some (nearest missing (Clean GOPATH) filePath (ancestors_of callerFile)).
Proof.
  intros Hf. unfold FindFileDir, Dir, Clean, ancestors_of.
  pose proof (clean_stack_length (rooted (up_to_slash callerFile)) (up_to_slash callerFile)).
  pose proof (up_to_slash_length callerFile).
  apply find_nearest; [apply clean_canonical|set_solver|lia].
Qed.

(** The search for a file ends, on every path.  With as many rounds as the
    path has characters, and three more, it returns the file in the nearest
    directory at or above the caller's that has it, without looking at GOPATH
    or above, and nothing when there is none: [Dir] drops one segment at a
    time and the set of visited directories only ever stops it at the top.
    [Load] therefore ends too: it loads that .env, then the nearest
    .env.override when ENV_OVERRIDE was 1 and the first file loaded, and warns
    exactly when a file did not load. *)
Theorem FindFileDir_nearest frames own missing GOPATH ENV_OVERRIDE load overload fuel filePath callerFile others :
  (String.length callerFile + 3 ≤ fuel)%nat → CallerCurrentFile frames = Some own →
  let found := λ file, nearest missing (Clean GOPATH) file (ancestors_of callerFile) in
  let again := bool_decide (ENV_OVERRIDE = "1" ∧ load (found ".env") = None) in
  FindFileDir missing GOPATH fuel filePath callerFile = Some (found filePath)
  ∧ ∃ warned, Load frames missing GOPATH ENV_OVERRIDE load overload fuel (callerFile :: others)
      = Some (found ".env" :: (if again then [found ".env.override"] else []), warned)
    ∧ (warned = None ↔ load (found ".env") = None ∧ (again = true → overload (found ".env.override") = None)).
Proof.
  intros Hf Hown found again. split; [by apply FindFileDir_ends|].
  unfold Load, loadEnvironment. rewrite Hown. cbn [mbind option_bind default head from_option id]. rewrite !FindFileDir_ends by done.
  cbn [mbind option_bind]. fold (found ".env") (found ".env.override"). unfold again. clearbody found. clear again.
  destruct (load (found ".env")) as [e|]; [rewrite bool_decide_false by naive_solver; eexists; split; [done|]; naive_solver|].
  destruct (String.eqb_spec ENV_OVERRIDE "1") as [->|Hne]; cbn [mbind option_bind].
  - rewrite bool_decide_true by done. destruct (overload (found ".env.override")); eexists; split; try done; naive_solver.
  - rewrite bool_decide_false by naive_solver. eexists; split; [done|]; naive_solver.
Qed.

(** A project with a file two levels up. *)
Definition only_project (path : string) : bool := negb (String.eqb path "/home/u/go/src/p/.env").

Example file_found : FindFileDir only_project "/home/u/go" 60 ".env" "/home/u/go/src/p/shared/tests/config.go" = Some "/home/u/go/src/p/.env"
  ∧ FindFileDir only_project "/home/u/go" 60 ".env" "/srv/main.go" = Some "" ∧ FindFileDir (λ _, true) "" 5 ".env" "main.go" = Some "".
Proof. vm_compute. done. Qed.

Lemma FindFileDir_nearest_witness :
  let file := "/home/u/go/src/p/shared/tests/config.go" in
  FindFileDir only_project "/home/u/go" 60 ".env" file
  = Some (nearest only_project (Clean "/home/u/go") ".env" (ancestors_of file))
  ∧ ∃ warned, Load ["/lib/file.go"; "/lib/file.go"; "/lib/config.go"] only_project "/home/u/go" "1" (λ _, None) (λ _, None) 60 [file]
      = Some (["/home/u/go/src/p/.env"; ""], warned)
    ∧ (warned = None ↔ True ∧ (true = true → True)).
Proof.
  intros file.
  destruct (FindFileDir_nearest ["/lib/file.go"; "/lib/file.go"; "/lib/config.go"] "/lib/config.go" only_project "/home/u/go" "1"
    (λ _, None) (λ _, None) 60 ".env" file []) as [Hfind (w & Hload & Hw)]; [vm_compute; lia|reflexivity|].
  split; [exact Hfind|]. exists w. split; [exact Hload|]. clear Hload Hfind. naive_solver.
Defined.
