(* ===== verification/Backends.v ===== *)
(** * The backends keep the contracts

    The contracts of [Repo] are what every theorem about the service and about
    interleavings assumes; here they are concluded for the four backends from
    the instances of their files. *)

From S2P Require Import Prelude GoTime Errors Models Batch Fingerprint Sql Repo PgJobs PgUnique PgReads.
From S2P Require Import Stats SqliteJobs MysqlJobs PicodataJobs.
Open Scope Z_scope.

(** C7: the PostgreSQL repositories keep the contracts of the queue, of batch
    execution, of deduplicated puts and of failed jobs, for any rounding of the
    timestamp columns below a millisecond and any digest: every call is atomic;
    claims take ready rows in queue order and nothing that is not ready;
    extensions, releases, deletions, reschedules, defers and batch outcomes
    change exactly the rows that are live under the caller's token; a
    deduplication key stages one job and answers it again; a failed-job record
    is written once. *)
Theorem pg_keeps_contracts (ts : Z → Z) (sha256hex : string → string) : Rounding ts →
  LeaseRepository ts (Pg.repository ts) ∧ BatchRepository ts (Pg.batch_repository ts)
  ∧ UniqueRepository ts (jobFingerprint sha256hex) (PgUnique.unique_repository ts sha256hex)
  ∧ FailedRepository ts (PgReads.failed_repository ts).
Proof.
  intros Hts. exact (conj (Pg.pg_lease_repository ts) (conj (Pg.pg_batch_repository ts)
    (conj (PgUnique.pg_unique_repository ts sha256hex) (PgReads.pg_failed_repository ts)))).
Qed.

(** C8: the SQLite repositories keep the contracts of the queue, of batch
    execution, of deduplicated puts, of failed jobs and of queue statistics at
    the millisecond resolution of their columns, batch outcomes being two
    statements in one transaction. *)
Theorem sqlite_keeps_contracts (sha256hex : string → string) :
  LeaseRepository Sqlite.ts Sqlite.repository ∧ BatchRepository Sqlite.ts Sqlite.batch_repository
  ∧ UniqueRepository Sqlite.ts (jobFingerprint sha256hex) (Sqlite.unique_repository sha256hex)
  ∧ FailedRepository Sqlite.ts Sqlite.failed_repository ∧ StatsRepository Sqlite.ts Sqlite.GetQueueStats.
Proof.
  exact (conj Sqlite.sqlite_lease_repository (conj Sqlite.sqlite_batch_repository
    (conj (Sqlite.sqlite_unique_repository sha256hex)
      (conj Sqlite.sqlite_failed_repository Sqlite.sqlite_stats_repository)))).
Qed.

(** C17: the MySQL repositories keep the same contracts, for any rounding of the
    timestamp columns below a millisecond and any digest, with claims that read
    candidates and reserve them in a second transaction and with updates that
    report the rows they changed instead of the rows they found. *)
Theorem mysql_keeps_contracts (ts : Z → Z) (sha256hex : string → string) : Rounding ts →
  LeaseRepository ts (Mysql.repository ts) ∧ BatchRepository ts (Mysql.batch_repository ts)
  ∧ UniqueRepository ts (jobFingerprint sha256hex) (Mysql.unique_repository ts sha256hex)
  ∧ FailedRepository ts (Mysql.failed_repository ts) ∧ StatsRepository ts (Mysql.GetQueueStats ts).
Proof.
  intros Hts. exact (conj (Mysql.mysql_lease_repository ts) (conj (Mysql.mysql_batch_repository ts)
    (conj (Mysql.mysql_unique_repository ts sha256hex)
      (conj (Mysql.mysql_failed_repository ts) (Mysql.mysql_stats_repository ts))))).
Qed.

(** The Picodata repository, which claims one job at a time and keeps no
    batches, keys or transactions, keeps the contract of the queue while nobody
    interferes with a claim. *)
Theorem picodata_keeps_contract (ts : Z → Z) : Rounding ts → LeaseRepository ts (Picodata.repository ts).
Proof. intros Hts. exact (Picodata.picodata_lease_repository ts). Qed.
