(* ===== verification/Fencing.v ===== *)
(** * Lease fencing under arbitrary interleavings

    Any number of workers call the repository with their own tokens, clock
    readings and arguments, in any order: a run is a sequence of repository
    calls on the shared tables.  Proved from the contract of [Repo] alone, so
    for every backend that satisfies it.  Nothing is assumed of the callers:
    tokens may be reused and clocks may disagree.  A step is labelled with the
    token of the claim it makes, if any. *)

From S2P Require Import Prelude GoTime Errors Models Batch Sql Repo.
Open Scope Z_scope.

(** ** What a fenced statement may do to one row *)

Inductive row_change (tok : LeaseToken) (now : Z) (j : Job) : option Job → Prop :=
| row_kept : row_change tok now j (Some j)
| row_extended u : live tok now j = true → row_change tok now j (Some (extend_row u j))
| row_released : live tok now j = true → 0 < Attempts j → row_change tok now j (Some (release_row j))
| row_rescheduled u : live tok now j = true → row_change tok now j (Some (reschedule_row u j))
| row_deferred u : live tok now j = true → 0 < Attempts j → row_change tok now j (Some (defer_row u j))
| row_deleted : live tok now j = true → row_change tok now j None.

Definition fenced (tok : LeaseToken) (now : Z) (t t' : gmap JobID Job) : Prop :=
  ∀ id, match t !! id with
        | None => t' !! id = None
        | Some j => row_change tok now j (t' !! id)
        end.

(** The rows a call settled for its token, as log entries. *)
Definition settled (tok : LeaseToken) (p : Job → bool) (t : gmap JobID Job) : list (LeaseToken * JobID) :=
  (λ j, (tok, ID j)) <$> rows_where p t.

Lemma updates_fenced tok now p f d n d' :
  (∀ j, p j = true → row_change tok now j (Some (f j))) →
  updates p f d n d' → fenced tok now (jobs_t d) (jobs_t d').
Proof.
  intros Hp [-> _] id. cbn [jobs_t set_jobs]. rewrite sql_update_lookup.
  destruct (jobs_t d !! id) as [j|]; cbn; [|done]. destruct (p j) eqn:E; [by apply Hp|constructor].
Qed.

Lemma deletes_fenced tok now p d n d' :
  (∀ j, p j = true → live tok now j = true) →
  deletes p d n d' → fenced tok now (jobs_t d) (jobs_t d').
Proof.
  intros Hp [-> _] id. cbn [jobs_t set_jobs]. rewrite sql_delete_lookup.
  destruct (jobs_t d !! id) as [j|]; [|done]. destruct (p j) eqn:E; [|constructor].
  apply row_deleted. by apply Hp.
Qed.

Lemma settle_fenced ts tok now os d :
  all_settleable tok now os (jobs_t d) → keyed (jobs_t d) →
  fenced tok now (jobs_t d) (settle ts os (jobs_t d)).
Proof.
  intros Hall Hk id. rewrite settle_lookup. destruct (jobs_t d !! id) as [j|] eqn:Hl; [|done]. cbn.
  destruct (outcome_of os id) as [o|] eqn:Ho; [|constructor].
  apply outcome_of_Some in Ho as [Hin Hid]. destruct (Hall o Hin) as (j' & Hl' & Hs).
  rewrite Hid, Hl in Hl'. injection Hl' as <-. unfold settleable in Hs.
  apply andb_true_iff in Hs as [Hlive Hatt]. unfold outcome_row.
  destruct (o_Kind o); try (by apply row_deleted); apply Z.ltb_lt in Hatt.
  - by apply row_rescheduled.
  - by apply row_deferred.
Qed.

(** ** The shared state and its steps *)

Record Sys : Type := mkSys {
  sys_db : Db;
  sys_used : gset LeaseToken;               (* the tokens claims have drawn *)
  sys_log : list (LeaseToken * JobID)       (* the leases settled, newest last *)
}.

Section system.
Context (ts : Z → Z) (R : JobsRepository) (B : BatchJobsRepository) (U : UniqueJobsRepository)
        (fp : string → SchemaVersion → string → Z → string).
Context `{!LeaseRepository ts R, !BatchRepository ts B, !UniqueRepository ts fp U}.

Definition log_ok (r : result Z) (l : list (LeaseToken * JobID)) : list (LeaseToken * JobID) :=
  match r with Ok _ => l | Err _ => [] end.

(** One call by some worker. *)
Inductive step : option LeaseToken → Sys → Sys → Prop :=
| step_create s id now name v payload at_ r d' :
    CreateJobVersioned R id now name v payload at_ (sys_db s) = (r, d') →
    step None s (mkSys d' (sys_used s) (sys_log s))
| step_unique s id now key name v payload at_ r d' :
    fresh_id id (sys_db s) →
    CreateJobVersionedUniqueResult U id now key name v payload at_ (sys_db s) = (r, d') →
    step None s (mkSys d' (sys_used s) (sys_log s))
| step_claim s locked now until tok caps limit r d' :
    FindAndReserveJobsForCapabilities R locked now until tok caps limit (sys_db s) = (r, d') →
    step (Some tok) s (mkSys d' ({[tok]} ∪ sys_used s) (sys_log s))
| step_claim_batch s locked now until tok cap limit r d' :
    FindAndReserveJobsForCapability B locked now until tok cap limit (sys_db s) = (r, d') →
    step (Some tok) s (mkSys d' ({[tok]} ∪ sys_used s) (sys_log s))
| step_claim_bounded s f locked now until tok cap limits r d' :
    FindAndReserveJobsForCapabilityBounded B = Some f →
    f locked now until tok cap limits (sys_db s) = (r, d') →
    step (Some tok) s (mkSys d' ({[tok]} ∪ sys_used s) (sys_log s))
| step_extend s ids tok now until r d' :
    ExtendJobLeases R ids tok now until (sys_db s) = (r, d') →
    step None s (mkSys d' (sys_used s) (sys_log s))
| step_release s ids tok now r d' :
    ReleaseUnstartedJobsWithLease R ids tok now (sys_db s) = (r, d') →
    step None s (mkSys d' (sys_used s)
              (sys_log s ++ log_ok r (settled tok (owned_counted ids tok (ts now)) (jobs_t (sys_db s)))))
| step_delete s id tok now r d' :
    DeleteJobWithLease R id tok now (sys_db s) = (r, d') →
    step None s (mkSys d' (sys_used s)
              (sys_log s ++ log_ok r (settled tok (owned [id] tok (ts now)) (jobs_t (sys_db s)))))
| step_reschedule s id tok now at_ r d' :
    RescheduleJobWithLease R id tok now at_ (sys_db s) = (r, d') →
    step None s (mkSys d' (sys_used s)
              (sys_log s ++ log_ok r (settled tok (owned [id] tok (ts now)) (jobs_t (sys_db s)))))
| step_defer s dj id tok now at_ r d' :
    DeferJobWithLease R = Some dj → dj id tok now at_ (sys_db s) = (r, d') →
    step None s (mkSys d' (sys_used s)
              (sys_log s ++ log_ok r (settled tok (owned_counted [id] tok (ts now)) (jobs_t (sys_db s)))))
| step_apply s tok now os r d' :
    ApplyBatchJobOutcomes B tok now os (sys_db s) = (r, d') →
    step None s (mkSys d' (sys_used s)
              (sys_log s ++ log_ok r (settled tok (settles tok (ts now) os) (jobs_t (sys_db s)))))
| step_prune s locked before limit r d' :
    PruneJobIdempotencyKeys U locked before limit (sys_db s) = (r, d') →
    step None s (mkSys d' (sys_used s) (sys_log s))
| step_elsewhere s d' :                    (* failed jobs, replay records *)
    jobs_t d' = jobs_t (sys_db s) → keys_t d' = keys_t (sys_db s) →
    step None s (mkSys d' (sys_used s) (sys_log s)).

(** Any calls at all, and calls that are no claim under [tok]. *)
Definition reachable : Sys → Sys → Prop := rtc (λ s s', ∃ l, step l s s').
Definition quiet (tok : LeaseToken) : Sys → Sys → Prop := rtc (λ s s', ∃ l, l ≠ Some tok ∧ step l s s').

(** ** The invariant *)

(** A queue row is idle, or leased under a drawn token with a counted
    attempt. *)
Definition row_ok (used : gset LeaseToken) (j : Job) : Prop :=
  0 ≤ Attempts j ∧ 0 < SchemaVersionOf j ∧
  ((LeaseTokenOf j = LeaseTokenNil ∧ ReservedAt j = None)
   ∨ (LeaseTokenOf j ≠ LeaseTokenNil ∧ is_Some (ReservedAt j) ∧ LeaseTokenOf j ∈ used ∧ 1 ≤ Attempts j)).

Record Inv (s : Sys) : Prop := {
  inv_keyed : keyed (jobs_t (sys_db s));
  inv_rows : ∀ id j, jobs_t (sys_db s) !! id = Some j → row_ok (sys_used s) j;
  inv_registry : registry_ok (sys_db s)
}.

Lemma row_ok_mono used used' j : used ⊆ used' → row_ok used j → row_ok used' j.
Proof. unfold row_ok. set_solver. Qed.

Lemma row_change_id tok now j j' : row_change tok now j (Some j') → ID j' = ID j.
Proof. by inversion 1. Qed.

Lemma row_change_key tok now j j' :
  row_change tok now j (Some j') → DeduplicationKey j' = DeduplicationKey j.
Proof. by inversion 1. Qed.

(** A change keeps the row's token or clears it. *)
Lemma row_change_token tok now j j' : row_change tok now j (Some j') →
  LeaseTokenOf j' = LeaseTokenOf j ∨ LeaseTokenOf j' = LeaseTokenNil.
Proof. inversion 1; auto. Qed.

Lemma row_change_ok used tok now j j' :
  row_ok used j → row_change tok now j (Some j') → row_ok used j'.
Proof.
  intros (Ha & Hv & Hl) Hc. inversion Hc; subst; try done; unfold row_ok; cbn; split_and!; try done; try lia.
  - destruct Hl as [[Ht Hr]|(? & ? & ? & ?)]; [|right; eauto].
    apply live_spec in H0 as (_ & r & Hr' & _). by rewrite Hr in Hr'.
  - by left.
  - by left.
  - by left.
Qed.

(** A fenced call keeps the invariant. *)
Lemma fenced_inv s tok now d' l : Inv s →
  fenced tok now (jobs_t (sys_db s)) (jobs_t d') → keys_t d' = keys_t (sys_db s) →
  Inv (mkSys d' (sys_used s) l).
Proof.
  intros [Hk Hrows [Hact Hinj]] Hf Hkeys.
  assert (∀ id j', jobs_t d' !! id = Some j' →
            ∃ j, jobs_t (sys_db s) !! id = Some j ∧ row_change tok now j (Some j')) as Hback.
  { intros id j' Hj'. specialize (Hf id). rewrite Hj' in Hf.
    destruct (jobs_t (sys_db s) !! id) as [j|]; [|done]. eauto. }
  split; cbn.
  - intros id j' (j & Hj & Hc)%Hback. rewrite (row_change_id _ _ _ _ Hc). by apply Hk.
  - intros id j' (j & Hj & Hc)%Hback. eapply row_change_ok; eauto.
  - split; [|by rewrite Hkeys]. intros id j' k (j & Hj & Hc)%Hback Hd. rewrite Hkeys.
    apply (Hact id j k Hj). by rewrite <- (row_change_key _ _ _ _ Hc).
Qed.

Lemma settled_elem tok p t e : keyed t → e ∈ settled tok p t →
  e.1 = tok ∧ ∃ j, t !! e.2 = Some j ∧ p j = true.
Proof.
  intros Hk (j & -> & [Hj Hp]%rows_where_elem)%list_elem_of_fmap; [|done]. cbn. eauto.
Qed.

(** What a claim leaves at an id. *)
Lemma claim_lookup locked now until tok caps limit d js d' id : keyed (jobs_t d) →
  claim_base ts locked now until tok caps limit d js d' →
  jobs_t d' !! id = jobs_t d !! id
  ∨ (∃ r, jobs_t d !! id = Some r ∧ claimable (ts now) caps r = true
          ∧ jobs_t d' !! id = Some (reserve_row (ts until) tok r)).
Proof.
  intros Hk Hc. rewrite (cp_db _ _ _ _ _ _ _ _ _ _ Hc). cbn [jobs_t set_jobs]. rewrite sql_update_lookup.
  destruct (jobs_t d !! id) as [r|] eqn:Hr; [|by left]. cbn.
  destruct (in_ids (ID <$> js) r) eqn:E; [|by left]. right. exists r.
  apply in_ids_spec, list_elem_of_fmap in E as (j & Hid & Hj).
  destruct (cp_rows _ _ _ _ _ _ _ _ _ _ Hc j Hj) as (r' & u & Hr' & Hcl & _ & _ & _).
  rewrite <- Hid, (Hk _ _ Hr), Hr in Hr'. injection Hr' as <-. done.
Qed.

Lemma claim_inv s locked now until tok caps limit js d' : Inv s →
  claim_base ts locked now until tok caps limit (sys_db s) js d' →
  Inv (mkSys d' ({[tok]} ∪ sys_used s) (sys_log s)).
Proof.
  intros [Hk Hrows [Hact Hinj]] Hc.
  pose proof (cp_token _ _ _ _ _ _ _ _ _ _ Hc) as Htok.
  pose proof (λ id, claim_lookup _ _ _ _ _ _ _ _ _ id Hk Hc) as Hlk.
  assert (keys_t d' = keys_t (sys_db s)) as Hkeys by (by rewrite (cp_db _ _ _ _ _ _ _ _ _ _ Hc)).
  split; cbn.
  - intros id j Hj. destruct (Hlk id) as [E|(r & Hr & _ & E)]; rewrite E in Hj; [by apply Hk|].
    injection Hj as <-. exact (Hk _ _ Hr).
  - intros id j Hj. destruct (Hlk id) as [E|(r & Hr & _ & E)]; rewrite E in Hj.
    + eapply row_ok_mono; [|by eapply Hrows]. set_solver.
    + injection Hj as <-. destruct (Hrows _ _ Hr) as (Ha & Hv & _). unfold row_ok. cbn.
      split_and!; [lia|done|]. right. split_and!; [done|eauto|set_solver|lia].
  - split; [|by rewrite Hkeys]. intros id j k Hj Hd. rewrite Hkeys.
    destruct (Hlk id) as [E|(r & Hr & _ & E)]; rewrite E in Hj; [by eapply Hact|].
    injection Hj as <-. exact (Hact _ _ _ Hr Hd).
Qed.

(** A row that appears is idle. *)
Lemma insert_inv s id j keys' : Inv s → jobs_t (sys_db s) !! id = None → ID j = id →
  Attempts j = 0 → 0 < SchemaVersionOf j → LeaseTokenOf j = LeaseTokenNil → ReservedAt j = None →
  registry_ok (set_keys keys' (set_jobs (<[id := j]> (jobs_t (sys_db s))) (sys_db s))) →
  Inv (mkSys (set_keys keys' (set_jobs (<[id := j]> (jobs_t (sys_db s))) (sys_db s))) (sys_used s) (sys_log s)).
Proof.
  intros [Hk Hrows _] Hnone Hid Ha Hv Ht Hr Hreg.
  assert (∀ i x, <[id := j]> (jobs_t (sys_db s)) !! i = Some x →
            (i = id ∧ x = j) ∨ jobs_t (sys_db s) !! i = Some x) as Hlk.
  { intros i x. rewrite lookup_insert_Some. naive_solver. }
  split; cbn; [| |done].
  - intros i x [[-> ->]|Hx]%Hlk; [done|by apply Hk].
  - intros i x [[-> ->]|Hx]%Hlk; [|by eapply Hrows]. unfold row_ok. split_and!; [lia|done|by left].
Qed.

Lemma same_db_inv s used l : Inv s → sys_used s ⊆ used → Inv (mkSys (sys_db s) used l).
Proof.
  intros [Hk Hrows Hreg] Hu. split; cbn; try done.
  intros id j Hj. eapply row_ok_mono; [done|by eapply Hrows].
Qed.

(** Whatever fails changes nothing. *)
Lemma failed_inv {A} s (op : Op A) e d' used l : Inv s → atomic op → op (sys_db s) = (Err e, d') →
  sys_used s ⊆ used → Inv (mkSys d' used l).
Proof. intros HI Hat Hop Hu. rewrite (Hat _ _ _ Hop). by apply same_db_inv. Qed.

(** A unique put changes nothing, or stages its one job. *)
Lemma unique_rows s id now key name v payload at_ r d' : Inv s → fresh_id id (sys_db s) →
  CreateJobVersionedUniqueResult U id now key name v payload at_ (sys_db s) = (r, d') →
  d' = sys_db s
  ∨ jobs_t (sys_db s) !! id = None ∧
    d' = staged ts (fp name v payload at_) id now key name v payload at_ (sys_db s)
    ∧ keys_t (sys_db s) !! key = None ∧ 0 < v.
Proof.
  intros HI Hfresh Hop. apply (put_answers ts fp U) in Hop; [|apply HI|done].
  destruct Hop as [Hkey Hv Hk|k Hk Hfp|e He]; [|by left..]. right. by destruct Hfresh as (_ & ? & _).
Qed.

Lemma unique_inv s id now key name v payload at_ r d' : Inv s → fresh_id id (sys_db s) →
  CreateJobVersionedUniqueResult U id now key name v payload at_ (sys_db s) = (r, d') →
  Inv (mkSys d' (sys_used s) (sys_log s)).
Proof.
  intros HI Hfresh Hop.
  destruct (unique_rows _ _ _ _ _ _ _ _ _ _ HI Hfresh Hop) as [->|(Hn & -> & Hk & Hv)]; [by apply same_db_inv|].
  apply insert_inv; try done. by apply staged_registry_ok; [apply inv_registry|..].
Qed.

Lemma prune_inv s (doomed : gset string) : Inv s →
  (∀ k, k ∈ doomed → key_in_use k (jobs_t (sys_db s)) = false) →
  Inv (mkSys (set_keys (filter (λ kr, kr.1 ∉ doomed) (keys_t (sys_db s))) (sys_db s)) (sys_used s) (sys_log s)).
Proof.
  intros [Hk Hrows [Hact Hinj]] Hdoom. split; cbn; try done. split; cbn.
  - intros id j k Hj Hd. destruct (Hact _ _ _ Hj Hd) as (r & Hr & Hid). exists r. split; [|done].
    apply map_lookup_filter_Some. split; [done|]. cbn. intros Hin%Hdoom.
    rewrite key_in_use_false in Hin. by apply (Hin id j).
  - intros k1 k2 r1 r2 [H1 _]%map_lookup_filter_Some [H2 _]%map_lookup_filter_Some. by apply Hinj.
Qed.

Ltac step_cases Hstep :=
  destruct Hstep as
    [s id now name v payload at_ r d' Hop|s id now key name v payload at_ r d' Hf Hop
    |s locked now until tok caps limit r d' Hop|s locked now until tok cap limit r d' Hop
    |s f locked now until tok cap limits r d' HB Hop|s ids tok now until r d' Hop|s ids tok now r d' Hop
    |s id tok now r d' Hop|s id tok now at_ r d' Hop|s dj id tok now at_ r d' HD Hop|s tok now os r d' Hop
    |s locked before limit r d' Hop|s d' Hjobs Hkeys].

Lemma step_inv l s s' : Inv s → step l s s' → Inv s'.
Proof.
  intros HI Hstep. pose proof (inv_keyed _ HI) as Hk. step_cases Hstep.
  - destruct r as [id'|e]; [|eapply failed_inv; [done|apply create_atomic|done|done]].
    apply create_ok in Hop as (-> & Hv & Hn & q & ->).
    rewrite <- (set_keys_id (set_jobs _ _)). apply insert_inv; try done.
    rewrite set_keys_id. destruct (inv_registry _ HI) as [Hact Hinj]. split; [|done]. cbn.
    intros i j k. rewrite lookup_insert_Some. intros [[<- <-]|[_ Hj]]; [done|by apply Hact].
  - by eapply unique_inv.
  - destruct r as [js|e]; [|eapply failed_inv; [done|apply claim_atomic|done|set_solver]].
    apply claim_ok in Hop as [Hc _]; [|done]. by eapply claim_inv.
  - destruct r as [js|e]; [|eapply failed_inv; [done|apply capability_atomic|done|set_solver]].
    apply capability_ok in Hop as [Hc _]; [|done]. by eapply claim_inv.
  - destruct r as [js|e]; [|eapply failed_inv; [done|by eapply bounded_atomic|done|set_solver]].
    eapply bounded_ok in Hop as [Hc _]; [|done..]. by eapply claim_inv.
  - destruct r as [n|e]; [|eapply failed_inv; [done|apply extend_atomic|done|done]].
    apply extend_ok in Hop as [_ Hup%updates_written]. eapply (fenced_inv s tok (ts now)); [done| |by destruct Hup as [-> _]].
    eapply updates_fenced; [|done]. intros j Hj. apply row_extended. by eapply owned_live.
  - destruct r as [n|e]; [|eapply failed_inv; [done|apply release_atomic|done|done]].
    apply release_ok in Hop as [_ Hup]. eapply (fenced_inv s tok (ts now)); [done| |by destruct Hup as [-> _]].
    eapply updates_fenced; [|done]. intros j [Hj%owned_live Ha%Z.ltb_lt]%andb_true_iff. by apply row_released.
  - destruct r as [n|e]; [|eapply failed_inv; [done|apply delete_atomic|done|done]].
    apply delete_ok in Hop as [_ Hdel]. eapply (fenced_inv s tok (ts now)); [done| |by destruct Hdel as [-> _]].
    eapply deletes_fenced; [|done]. intros j. apply owned_live.
  - destruct r as [n|e]; [|eapply failed_inv; [done|apply reschedule_atomic|done|done]].
    apply reschedule_ok in Hop as [_ Hup]. eapply (fenced_inv s tok (ts now)); [done| |by destruct Hup as [-> _]].
    eapply updates_fenced; [|done]. intros j Hj%owned_live. by apply row_rescheduled.
  - destruct r as [n|e]; [|eapply failed_inv; [done|by eapply defer_atomic|done|done]].
    eapply defer_ok in Hop as [_ Hup]; [|done..].
    eapply (fenced_inv s tok (ts now)); [done| |by destruct Hup as [-> _]].
    eapply updates_fenced; [|done]. intros j [Hj%owned_live Ha%Z.ltb_lt]%andb_true_iff. by apply row_deferred.
  - destruct r as [n|e]; [|eapply failed_inv; [done|apply apply_atomic|done|done]].
    apply apply_ok in Hop as (_ & _ & Hall & ->); [|done].
    eapply (fenced_inv s tok (ts now)); [done|by apply settle_fenced|done].
  - destruct r as [n|e]; [|eapply failed_inv; [done|apply prune_atomic|done|done]].
    apply prune_ok in Hop as (doomed & -> & _ & _ & Hd). apply prune_inv; [done|].
    intros k (? & _ & _ & ?)%Hd. done.
  - destruct HI as [Hk' Hrows [Hact Hinj]]. split; cbn; rewrite ?Hjobs; [done..|].
    split; cbn; rewrite ?Hjobs, ?Hkeys; done.
Qed.

(** ** The three ways a step touches the queue *)

Inductive effect (label : option LeaseToken) (s s' : Sys) : Prop :=
| effect_fenced tok now l :
    fenced tok now (jobs_t (sys_db s)) (jobs_t (sys_db s')) →
    sys_log s' = sys_log s ++ l →
    (∀ id j, jobs_t (sys_db s) !! id = Some j → jobs_t (sys_db s') !! id = None → (tok, id) ∈ l) →
    (∀ e, e ∈ l → e.1 = tok ∧ ∃ j, jobs_t (sys_db s) !! e.2 = Some j ∧ live tok now j = true
       ∧ ∀ j', jobs_t (sys_db s') !! e.2 = Some j' → LeaseTokenOf j' = LeaseTokenNil) →
    tok ≠ LeaseTokenNil → effect label s s'
| effect_claim tok now :
    label = Some tok → sys_log s' = sys_log s →
    (∀ id, jobs_t (sys_db s') !! id = jobs_t (sys_db s) !! id
      ∨ ∃ r u, jobs_t (sys_db s) !! id = Some r ∧ ready (ts now) r = true
               ∧ jobs_t (sys_db s') !! id = Some (reserve_row u tok r)) →
    effect label s s'
| effect_insert :
    sys_log s' = sys_log s →
    (∀ id, jobs_t (sys_db s') !! id = jobs_t (sys_db s) !! id
      ∨ jobs_t (sys_db s) !! id = None
        ∧ ∃ j, jobs_t (sys_db s') !! id = Some j ∧ LeaseTokenOf j = LeaseTokenNil) →
    effect label s s'.

Lemma effect_same l s s' : sys_db s' = sys_db s → sys_log s' = sys_log s → effect l s s'.
Proof. intros E El. apply effect_insert; [done|]. rewrite E. by left. Qed.

Lemma effect_atomic {A} l s s' (op : Op A) e :
  atomic op → op (sys_db s) = (Err e, sys_db s') → sys_log s' = sys_log s → effect l s s'.
Proof. intros Hat Hop Hl. apply effect_same; [by eapply Hat|done]. Qed.

Lemma effect_claimed s locked now until tok caps limit js d' : keyed (jobs_t (sys_db s)) →
  claim_base ts locked now until tok caps limit (sys_db s) js d' →
  effect (Some tok) s (mkSys d' ({[tok]} ∪ sys_used s) (sys_log s)).
Proof.
  intros Hk Hc. eapply (effect_claim _ _ _ tok now); [done|done|]. intros id. cbn.
  destruct (claim_lookup _ _ _ _ _ _ _ _ _ id Hk Hc) as [E|(r & Hr & Hcl & E)]; [by left|right].
  apply andb_true_iff in Hcl as [Hready _]. eauto.
Qed.

Lemma settled_in tok p t id j : keyed t → t !! id = Some j → p j = true → (tok, id) ∈ settled tok p t.
Proof.
  intros Hk Hj Hp. apply list_elem_of_fmap. pose proof (Hk _ _ Hj) as <-. exists j. split; [done|].
  by apply rows_where_elem.
Qed.

(** An update under a token, with the rows it settles. *)
Lemma effect_updated l s tok now p f n d' : keyed (jobs_t (sys_db s)) → tok ≠ LeaseTokenNil →
  (∀ j, p j = true → live tok now j = true ∧ row_change tok now j (Some (f j))
                     ∧ LeaseTokenOf (f j) = LeaseTokenNil) →
  updates p f (sys_db s) n d' →
  effect l s (mkSys d' (sys_used s) (sys_log s ++ settled tok p (jobs_t (sys_db s)))).
Proof.
  intros Hk Htok Hp Hup. eapply (effect_fenced _ _ _ tok now); [|done| | |done].
  - eapply updates_fenced; [|done]. intros j Hj. by apply Hp.
  - destruct Hup as [-> _]. intros id j Hj. cbn [sys_db jobs_t set_jobs]. by rewrite sql_update_lookup, Hj.
  - intros e (Ht & j & Hj & Hpj)%settled_elem; [|done]. split; [done|]. exists j.
    destruct (Hp _ Hpj) as (Hlive & _ & Hnil). split_and!; [done..|].
    destruct Hup as [-> _]. cbn [sys_db jobs_t set_jobs]. rewrite sql_update_lookup, Hj. cbn.
    rewrite Hpj. naive_solver.
Qed.

Lemma effect_deleted l s tok now p n d' : keyed (jobs_t (sys_db s)) → tok ≠ LeaseTokenNil →
  (∀ j, p j = true → live tok now j = true) → deletes p (sys_db s) n d' →
  effect l s (mkSys d' (sys_used s) (sys_log s ++ settled tok p (jobs_t (sys_db s)))).
Proof.
  intros Hk Htok Hp Hdel. eapply (effect_fenced _ _ _ tok now); [|done| | |done].
  - by eapply deletes_fenced.
  - destruct Hdel as [-> _]. intros id j Hj. cbn [sys_db jobs_t set_jobs]. rewrite sql_delete_lookup, Hj.
    destruct (p j) eqn:Ho; [|done]. intros _. by eapply settled_in.
  - intros e (Ht & j & Hj & Hpj)%settled_elem; [|done]. split; [done|]. exists j.
    split_and!; [done|by apply Hp|]. destruct Hdel as [-> _]. cbn [sys_db jobs_t set_jobs].
    rewrite sql_delete_lookup, Hj, Hpj. done.
Qed.

Lemma effect_settled l s tok now os : keyed (jobs_t (sys_db s)) → tok ≠ LeaseTokenNil →
  all_settleable tok now os (jobs_t (sys_db s)) →
  effect l s (mkSys (set_jobs (settle ts os (jobs_t (sys_db s))) (sys_db s)) (sys_used s)
                (sys_log s ++ settled tok (settles tok now os) (jobs_t (sys_db s)))).
Proof.
  intros Hk Htok Hall. eapply (effect_fenced _ _ _ tok now); [|done| | |done].
  - by apply settle_fenced.
  - intros i j Hj. cbn [sys_db jobs_t set_jobs]. rewrite settle_lookup, Hj. cbn.
    destruct (outcome_of os i) as [o|] eqn:Ho; [|done]. intros _.
    eapply settled_in; [done..|]. unfold settles. rewrite (Hk _ _ Hj), Ho.
    apply outcome_of_Some in Ho as [Hin Hid]. destruct (Hall o Hin) as (j' & Hj' & Hs).
    rewrite Hid, Hj in Hj'. by injection Hj' as <-.
  - intros e (Ht & j & Hj & Hpj)%settled_elem; [|done]. split; [done|]. exists j. unfold settles in Hpj.
    rewrite (Hk _ _ Hj) in Hpj. destruct (outcome_of os e.2) as [o|] eqn:Ho; [|done].
    apply andb_true_iff in Hpj as [Hlive _]. split_and!; [done..|].
    cbn [sys_db jobs_t set_jobs]. rewrite settle_lookup, Hj. cbn. rewrite Ho. unfold outcome_row.
    destruct (o_Kind o); naive_solver.
Qed.

Lemma step_effect l s s' : Inv s → step l s s' → effect l s s'.
Proof.
  intros HI Hstep. pose proof (inv_keyed _ HI) as Hk. step_cases Hstep.
  - destruct r as [id'|e]; [|eapply effect_atomic; [apply create_atomic|done|done]].
    apply create_ok in Hop as (-> & Hv & Hn & q & ->). apply effect_insert; [done|]. intros i. cbn.
    destruct (decide (id = i)) as [<-|Hne]; [rewrite lookup_insert_eq; eauto|rewrite lookup_insert_ne; auto].
  - apply effect_insert; [done|]. intros i. cbn.
    destruct (unique_rows _ _ _ _ _ _ _ _ _ _ HI Hf Hop) as [->|(Hn & -> & _)]; [by left|]. cbn.
    destruct (decide (id = i)) as [<-|Hne]; [rewrite lookup_insert_eq; eauto|rewrite lookup_insert_ne; auto].
  - destruct r as [js|e]; [|eapply effect_atomic; [apply claim_atomic|done|done]].
    apply claim_ok in Hop as [Hc _]; [|done]. by eapply effect_claimed.
  - destruct r as [js|e]; [|eapply effect_atomic; [apply capability_atomic|done|done]].
    apply capability_ok in Hop as [Hc _]; [|done]. by eapply effect_claimed.
  - destruct r as [js|e]; [|eapply effect_atomic; [by eapply bounded_atomic|done|done]].
    eapply bounded_ok in Hop as [Hc _]; [|done..]. by eapply effect_claimed.
  - destruct r as [n|e]; [|eapply effect_atomic; [apply extend_atomic|done|done]].
    apply extend_ok in Hop as [(Htok & _) Hup%updates_written].
    eapply (effect_fenced _ _ _ tok (ts now) []); [|by rewrite app_nil_r| |set_solver|done].
    { eapply updates_fenced; [|done]. intros j Hj. apply row_extended. by eapply owned_live. }
    destruct Hup as [-> _]. intros i j Hj. cbn [sys_db jobs_t set_jobs]. by rewrite sql_update_lookup, Hj.
  - destruct r as [n|e]; [|eapply effect_atomic; [apply release_atomic|done|apply app_nil_r]].
    apply release_ok in Hop as [(Htok & _) Hup]. eapply (effect_updated _ s tok (ts now)); [done|done| |done].
    intros j [Hj%owned_live Ha%Z.ltb_lt]%andb_true_iff. split_and!; [done|by apply row_released|done].
  - destruct r as [n|e]; [|eapply effect_atomic; [apply delete_atomic|done|apply app_nil_r]].
    apply delete_ok in Hop as [(Htok & _) Hdel]. eapply (effect_deleted _ s tok (ts now)); [done|done| |done].
    intros j. apply owned_live.
  - destruct r as [n|e]; [|eapply effect_atomic; [apply reschedule_atomic|done|apply app_nil_r]].
    apply reschedule_ok in Hop as [(Htok & _) Hup]. eapply (effect_updated _ s tok (ts now)); [done|done| |done].
    intros j Hj%owned_live. split_and!; [done|by apply row_rescheduled|done].
  - destruct r as [n|e]; [|eapply effect_atomic; [by eapply defer_atomic|done|apply app_nil_r]].
    eapply defer_ok in Hop as [(Htok & _) Hup]; [|done..].
    eapply (effect_updated _ s tok (ts now)); [done|done| |done].
    intros j [Hj%owned_live Ha%Z.ltb_lt]%andb_true_iff. split_and!; [done|by apply row_deferred|done].
  - destruct r as [n|e]; [|eapply effect_atomic; [apply apply_atomic|done|apply app_nil_r]].
    apply apply_ok in Hop as ((Htok & _) & _ & Hall & ->); [|done]. by apply effect_settled.
  - destruct r as [n|e]; [|eapply effect_atomic; [apply prune_atomic|done|done]].
    apply prune_ok in Hop as (doomed & -> & _). apply effect_insert; [done|]. by left.
  - apply effect_insert; [done|]. cbn. rewrite Hjobs. by left.
Qed.

Lemma reachable_inv s s' : Inv s → reachable s s' → Inv s'.
Proof. intros HI Hr. induction Hr as [|s s1 s' [l Hs] _ IH]; [done|]. eauto using step_inv. Qed.

(** The token of a row is kept, cleared or set by a claim. *)
Lemma effect_token l s s' id j' : effect l s s' → jobs_t (sys_db s') !! id = Some j' →
  LeaseTokenOf j' = LeaseTokenNil ∨ l = Some (LeaseTokenOf j')
  ∨ ∃ j, jobs_t (sys_db s) !! id = Some j ∧ LeaseTokenOf j' = LeaseTokenOf j.
Proof.
  intros [tok now l' Hf _ _ _ _|tok now Hlab _ Hlk|_ Hlk] Hj'.
  - specialize (Hf id). rewrite Hj' in Hf. destruct (jobs_t (sys_db s) !! id) as [j|]; [|done].
    destruct (row_change_token _ _ _ _ Hf) as [E|E]; eauto.
  - destruct (Hlk id) as [E|(r & u & Hr & _ & E)]; rewrite E in Hj'; [eauto|].
    injection Hj' as <-. cbn. auto.
  - destruct (Hlk id) as [E|(Hn & j & E & Ht)]; rewrite E in Hj'; [eauto|].
    injection Hj' as <-. auto.
Qed.

(** ** Theorems *)

Definition initial : Sys := mkSys empty_db ∅ [].

Lemma initial_inv : Inv initial.
Proof. split; cbn; done. Qed.

Lemma quiet_inv tok s s' : Inv s → quiet tok s s' → Inv s'.
Proof. intros HI Hr. induction Hr as [|s s1 s' (l & _ & Hs) _ IH]; [done|]. eauto using step_inv. Qed.

(** A row without the token does not get it while nobody claims with it. *)
Lemma token_gone s s' tok id : Inv s → quiet tok s s' → tok ≠ LeaseTokenNil →
  (∀ j, jobs_t (sys_db s) !! id = Some j → LeaseTokenOf j ≠ tok) →
  ∀ j, jobs_t (sys_db s') !! id = Some j → LeaseTokenOf j ≠ tok.
Proof.
  intros HI Hr. induction Hr as [s|s s1 s' (l & Hl & Hstep) Hr IH]; [done|]. intros Hn Hne.
  refine (IH _ Hn _); [by eapply step_inv|]. intros j1 Hj1 Heq.
  destruct (effect_token _ _ _ _ _ (step_effect _ _ _ HI Hstep) Hj1) as [E|[E|(j & Hj & E)]].
  - congruence.
  - by rewrite Heq in E.
  - apply (Hne j Hj). congruence.
Qed.

(** A lease logged by a step was live before it and is cleared after it. *)
Lemma effect_log l s s' tok id : effect l s s' → (tok, id) ∈ sys_log s' → (tok, id) ∉ sys_log s →
  tok ≠ LeaseTokenNil ∧ (∃ j now, jobs_t (sys_db s) !! id = Some j ∧ live tok now j = true)
  ∧ ∀ j', jobs_t (sys_db s') !! id = Some j' → LeaseTokenOf j' ≠ tok.
Proof.
  intros [tok' now l' Hf Hlog _ Hl Htok|tok' now _ Hlog _|Hlog _] Hin Hout; [|by rewrite Hlog in Hin..].
  rewrite Hlog in Hin. apply elem_of_app in Hin as [|Hin]; [done|].
  destruct (Hl _ Hin) as (E & j & Hj & Hlive & Hnew). cbn in *. subst tok'.
  split_and!; [done|by exists j, now|]. intros j' Hj'. rewrite (Hnew _ Hj'). congruence.
Qed.

(** C6: from empty tables, whatever the workers call and in whatever order,
    every stored job is filed under its id; it is either idle or leased under
    a token some claim used, with its deadline set and at least one attempt
    counted; attempts are never negative; and live deduplication keys are
    registered to their jobs. *)
Theorem interleaving_invariant s : reachable initial s → Inv s.
Proof. apply reachable_inv, initial_inv. Qed.

(** C2: a lease that lost its row is fenced.  Once a row does not carry a
    token, no call by anyone other than a new claim under that very token
    makes it carry the token again, so no fenced statement under it selects
    the row at any clock reading. *)
Theorem stale_lease_fenced s s' tok id :
  reachable initial s → quiet tok s s' → tok ≠ LeaseTokenNil →
  (∀ j, jobs_t (sys_db s) !! id = Some j → LeaseTokenOf j ≠ tok) →
  ∀ j ids now, jobs_t (sys_db s') !! id = Some j →
    LeaseTokenOf j ≠ tok ∧ owned ids tok now j = false.
Proof.
  intros Hi Hr Hn Hne j ids now Hj.
  assert (LeaseTokenOf j ≠ tok) as Htok
    by (eapply token_gone; [by eapply reachable_inv, Hi; apply initial_inv|done..]).
  split; [done|]. apply not_true_is_false. intros [<- _]%owned_live%live_spec. done.
Qed.

(** C3: a lease is settled at most once.  After a call deleted, rescheduled,
    deferred or released a row under a token, no further call settles that
    row under that token unless the token claims again. *)
Theorem lease_settled_once l s s1 s2 l' s3 tok id :
  reachable initial s → step l s s1 → (tok, id) ∉ sys_log s → (tok, id) ∈ sys_log s1 →
  quiet tok s1 s2 → step l' s2 s3 →
  ∀ more, sys_log s3 = sys_log s2 ++ more → (tok, id) ∉ more.
Proof.
  intros Hi Hs Hout Hin Hq Hs3 more Hmore Hagain.
  assert (Inv s) as HI by (eapply reachable_inv, Hi; apply initial_inv).
  destruct (effect_log _ _ _ _ _ (step_effect _ _ _ HI Hs) Hin Hout) as (Htok & _ & Hgone).
  assert (Inv s1) as HI1 by (by eapply step_inv). assert (Inv s2) as HI2 by (by eapply quiet_inv).
  pose proof (token_gone _ _ _ _ HI1 Hq Htok Hgone) as Hgone2.
  assert (sys_log s3 = sys_log s2 → False) as Hno.
  { intros Hlog. rewrite Hmore in Hlog. rewrite <- (app_nil_r (sys_log s2)) in Hlog at 2.
    apply app_inv_head in Hlog. subst more. by apply not_elem_of_nil in Hagain. }
  destruct (step_effect _ _ _ HI2 Hs3) as [tok' now l2 _ Hlog _ Hl _|tok2 now2 _ Hlog _|Hlog _]; [|by apply Hno..].
  rewrite Hmore in Hlog.
  apply app_inv_head in Hlog as ->. destruct (Hl _ Hagain) as (E & j & Hj & [Hlive _]%live_spec & _).
  cbn in *. subst tok'. by apply (Hgone2 j).
Qed.



(** C16: what a claim hands to the worker is well typed.  From empty tables and
    after any calls, every job a claim returns has a valid capability, the one
    it was stored with (reading it back normalizes nothing) and one of those
    requested; it passes the worker's lease check until its lease runs out; and
    the handler's context yields its id and its attempt. *)
Theorem claimed_jobs_typed s locked now until tok caps limit js d' :
  reachable initial s → jobs_t (sys_db s) !! JobIDNil = None →
  Forall (λ c, Validate c = Ok tt) caps →
  FindAndReserveJobsForCapabilities R locked now until tok caps limit (sys_db s) = (Ok js, d') →
  ∀ j, j ∈ js →
    Validate (job_capability j) = Ok tt ∧ cap_SchemaVersion (job_capability j) = SchemaVersionOf j
    ∧ job_capability j ∈ caps
    ∧ (∀ t, t + 2 * Millisecond ≤ until → validateClaimedJobLease j tok t = Ok tt)
    ∧ JobMetadataFromContext (withJobMetadata j) = Some {| meta_ID := ID j; meta_Attempt := Attempts j |}
    ∧ JobIDFromContext (withJobMetadata j) = ID j.
Proof.
  intros Hi Hnil Hcaps Hop j Hj. assert (Inv s) as HI by (eapply reachable_inv, Hi; apply initial_inv).
  apply claim_ok in Hop as [Hb _]; [|apply HI].
  destruct (cp_rows _ _ _ _ _ _ _ _ _ _ Hb j Hj) as (r & u & Hr & Hcl & _ & Hu & Hjr).
  destruct (inv_rows _ HI _ _ Hr) as (Ha & Hv & _).
  assert (job_capability j = {| cap_Name := Name r; cap_SchemaVersion := SchemaVersionOf r |}) as Hcap.
  { subst j. unfold job_capability, normalizeSchemaVersion. cbn. by rewrite (proj2 (Z.leb_gt _ _)) by lia. }
  assert (JobMetadataFromContext (withJobMetadata j) = Some {| meta_ID := ID j; meta_Attempt := Attempts j |}) as Hmeta.
  { cbn. assert (ID j ≠ JobIDNil) as Hid%N.eqb_neq by congruence. rewrite Hid.
    subst j. cbn. by rewrite (proj2 (Z.leb_gt _ _)) by lia. }
  split_and!; [by rewrite Hcap; apply capability_valid|by rewrite Hcap; subst j| | |done|by unfold JobIDFromContext; rewrite Hmeta].
  - rewrite Hcap. apply andb_true_iff in Hcl as [_ (c & Hin & [Hn%String.eqb_eq Hsv%Z.eqb_eq]%andb_true_iff)%existsb_exists].
    rewrite Hn, Hsv. destruct c. by apply list_elem_of_In.
  - intros t Ht. apply validateClaimedJobLease_ok. subst j. cbn. split; [done|]. exists u. split; [done|].
    pose proof (ts_close u). pose proof (ts_close until). lia.
Qed.
End system.
