(* ===== verification/Lifecycle.v ===== *)
(** * Lifecycle: Run, drain and readiness

    outbox/service.go ([Run], [BeginDrain], [IsDraining], [Readiness]) and the
    claim boundary of outbox/service_claim.go as a transition system: any number
    of calls of [Run], [BeginDrain] and [Readiness] and the workers of each
    [Run] as threads over the service's shared state, one atomic operation, lock
    operation or channel operation per step, in every interleaving.

    [claimMu] is a Go [RWMutex]: a writer announces itself, after which no new
    reader enters, and waits for the readers inside.  A worker may stop at its
    loop head or before a claim for any reason (cancellation, an error, a
    goroutine that exits), and after a claim it goes back to its loop head or
    directly to another claim (a fill window, single work after batch work);
    what it does between claims is one step. *)

From S2P Require Import Prelude Errors.

Module Lifecycle.

(** ** State *)

Record Shared : Type := mkShared {
  running : bool;
  ready : bool;
  draining : bool;              (* [drain] is closed *)
  readers : gset nat;           (* workers inside [claimMu.RLock] *)
  wlock : option nat            (* the [BeginDrain] that announced [claimMu.Lock] *)
}.

Inductive RunPhase : Type := RunCAS | RunChecking | RunReadying | RunWaiting | RunUnready | RunStopping
| RunReturned (e : option sentinel).
Inductive WorkerPhase : Type := AtHead | Entering | Locked | Claiming | Unlocking | Exited.
Inductive DrainPhase : Type := DrainUnready | DrainLocking | DrainWaiting | DrainClosing | DrainUnlocking | DrainReturned.
Inductive ProbePhase : Type := ProbeRunning | ProbeDraining | ProbeReady | ProbeReturned (e : option sentinel).

#[export] Instance WorkerPhase_eq_dec : EqDecision WorkerPhase.
Proof. solve_decision. Defined.

(** A worker belongs to the [Run] that started it; a probe remembers whether
    the service was draining when it was called. *)
Inductive Thread : Type :=
| Runner (p : RunPhase)
| Worker (run : nat) (p : WorkerPhase)
| Drainer (p : DrainPhase)
| Probe (late : bool) (p : ProbePhase).

Record Sys : Type := mkSys { sh : Shared; threads : gmap nat Thread }.

Definition initial : Sys := mkSys (mkShared false false false ∅ None) ∅.

Definition set_running (b : bool) (s : Shared) : Shared := mkShared b (ready s) (draining s) (readers s) (wlock s).
Definition set_ready (b : bool) (s : Shared) : Shared := mkShared (running s) b (draining s) (readers s) (wlock s).
Definition close_drain (s : Shared) : Shared := mkShared (running s) (ready s) true (readers s) (wlock s).
Definition set_readers (r : gset nat) (s : Shared) : Shared := mkShared (running s) (ready s) (draining s) r (wlock s).
Definition set_wlock (w : option nat) (s : Shared) : Shared := mkShared (running s) (ready s) (draining s) (readers s) w.

(** ** Steps of one thread *)

(** [Run] past the compare-and-swap; starting its workers and waiting for them
    are steps of the system. *)
Inductive run_step : Shared → RunPhase → Shared → RunPhase → Prop :=
| run_refused s : running s = true → run_step s RunCAS s (RunReturned (Some ErrServiceRunning))
| run_drained s : draining s = true → run_step s RunChecking s RunWaiting
| run_checked s : draining s = false → run_step s RunChecking s RunReadying
| run_ready s : run_step s RunReadying (set_ready true s) RunWaiting
| run_unready s : run_step s RunUnready (set_ready false s) RunStopping
| run_stop s e : run_step s RunStopping (set_running false s) (RunReturned e).

Inductive worker_step (i : nat) : Shared → WorkerPhase → Shared → WorkerPhase → Prop :=
| worker_drained s : draining s = true → worker_step i s AtHead s Exited
| worker_try s : draining s = false → worker_step i s AtHead s Entering
| worker_stop s p : p = AtHead ∨ p = Entering → worker_step i s p s Exited
| worker_rlock s : wlock s = None → worker_step i s Entering (set_readers ({[i]} ∪ readers s) s) Locked
| worker_refused s : draining s = true → worker_step i s Locked s Unlocking
| worker_claim s : draining s = false → worker_step i s Locked s Claiming
| worker_claimed s : worker_step i s Claiming s Unlocking
| worker_runlock s p : p = AtHead ∨ p = Entering → worker_step i s Unlocking (set_readers (readers s ∖ {[i]}) s) p.

Inductive drain_step (i : nat) : Shared → DrainPhase → Shared → DrainPhase → Prop :=
| drain_unready s : drain_step i s DrainUnready (set_ready false s) DrainLocking
| drain_announce s : wlock s = None → drain_step i s DrainLocking (set_wlock (Some i) s) DrainWaiting
| drain_lock s : readers s = ∅ → drain_step i s DrainWaiting s DrainClosing
| drain_close s : drain_step i s DrainClosing (close_drain s) DrainUnlocking
| drain_unlock s : drain_step i s DrainUnlocking (set_wlock None s) DrainReturned.

Inductive probe_step : Shared → ProbePhase → ProbePhase → Prop :=
| probe_idle s : running s = false → probe_step s ProbeRunning (ProbeReturned (Some ErrServiceNotRunning))
| probe_running s : running s = true → probe_step s ProbeRunning ProbeDraining
| probe_draining s : draining s = true → probe_step s ProbeDraining (ProbeReturned (Some ErrServiceDraining))
| probe_open s : draining s = false → probe_step s ProbeDraining ProbeReady
| probe_ready s : ready s = true → probe_step s ProbeReady (ProbeReturned None)
| probe_unready s : ready s = false → probe_step s ProbeReady (ProbeReturned (Some ErrServiceNotRunning)).

(** ** Steps of the system *)

Definition stopped (run : nat) (t : Thread) : Prop :=
  match t with Worker r p => r = run → p = Exited | _ => True end.

Inductive step : Sys → Sys → Prop :=
| call_run s m i : m !! i = None → step (mkSys s m) (mkSys s (<[i := Runner RunCAS]> m))
| call_drain s m i : m !! i = None → step (mkSys s m) (mkSys s (<[i := Drainer DrainUnready]> m))
| call_probe s m i : m !! i = None → step (mkSys s m) (mkSys s (<[i := Probe (draining s) ProbeRunning]> m))
| run_start s m m' i (ws : gset nat) : m !! i = Some (Runner RunCAS) → running s = false →
    (* its workers are new threads *)
    (∀ j, j ∈ ws → m !! j = None) →
    (∀ j, m' !! j = if decide (j = i) then Some (Runner RunChecking)
                    else if decide (j ∈ ws) then Some (Worker i AtHead) else m !! j) →
    step (mkSys s m) (mkSys (set_running true s) m')
| run_moves s m i p s' p' : m !! i = Some (Runner p) → run_step s p s' p' →
    step (mkSys s m) (mkSys s' (<[i := Runner p']> m))
| run_joins s m i : m !! i = Some (Runner RunWaiting) → map_Forall (λ _ t, stopped i t) m →
    step (mkSys s m) (mkSys s (<[i := Runner RunUnready]> m))
| worker_moves s m i r p s' p' : m !! i = Some (Worker r p) → worker_step i s p s' p' →
    step (mkSys s m) (mkSys s' (<[i := Worker r p']> m))
| drain_moves s m i p s' p' : m !! i = Some (Drainer p) → drain_step i s p s' p' →
    step (mkSys s m) (mkSys s' (<[i := Drainer p']> m))
| probe_moves s m i late p p' : m !! i = Some (Probe late p) → probe_step s p p' →
    step (mkSys s m) (mkSys s (<[i := Probe late p']> m)).

Definition reachable : Sys → Prop := rtc step initial.

(** ** The invariant *)

Definition inside (t : Thread) : Prop :=
  match t with Worker _ (Locked | Claiming | Unlocking) => True | _ => False end.
Definition holding (t : Thread) : Prop :=
  match t with Drainer (DrainWaiting | DrainClosing | DrainUnlocking) => True | _ => False end.
(** A [Run] that won the compare-and-swap and has not given it back. *)
Definition active (t : Thread) : Prop :=
  match t with Runner (RunChecking | RunReadying | RunWaiting | RunUnready | RunStopping) => True | _ => False end.
Definition serving (t : Thread) : Prop := match t with Runner (RunWaiting | RunUnready) => True | _ => False end.

(** What holds of one thread. *)
Definition thread_ok (s : Shared) (m : gmap nat Thread) (t : Thread) : Prop :=
  match t with
  | Worker r p => (p = Claiming → draining s = false) ∧ (p = Exited ∨ ∃ q, m !! r = Some (Runner q)
                   ∧ (q = RunChecking ∨ q = RunReadying ∨ q = RunWaiting))
  | Drainer p => (p = DrainClosing ∨ p = DrainUnlocking → readers s = ∅)
                 ∧ (p = DrainUnlocking ∨ p = DrainReturned → draining s = true)
  | Probe late p => (late = true → draining s = true)
                    ∧ (p = ProbeReady ∨ p = ProbeReturned None → late = false)
  | Runner _ => True
  end.

Record Inv (x : Sys) : Prop := {
  inv_threads : ∀ i t, threads x !! i = Some t → thread_ok (sh x) (threads x) t;
  inv_readers : ∀ i, i ∈ readers (sh x) ↔ ∃ t, threads x !! i = Some t ∧ inside t;
  inv_wlock : ∀ i, wlock (sh x) = Some i ↔ ∃ t, threads x !! i = Some t ∧ holding t;
  inv_one_run : ∀ i j t u, threads x !! i = Some t → threads x !! j = Some u → active t → active u → i = j;
  inv_running : running (sh x) = true ↔ ∃ i t, threads x !! i = Some t ∧ active t;
  inv_ready : ready (sh x) = true → ∃ i t, threads x !! i = Some t ∧ serving t
}.

Lemma lifecycle_initial_inv : Inv initial.
Proof. split; cbn; naive_solver set_solver. Qed.

Section move.
Context (s s' : Shared) (m : gmap nat Thread) (i : nat) (t' : Thread).
Let m' := <[i := t']> m.

(** One thread goes from [m !! i] to [t'] and the shared state to [s']. *)
Lemma inv_move (old : option Thread) : Inv (mkSys s m) → m !! i = old →
  thread_ok s' m' t' → (∀ j u, j ≠ i → m !! j = Some u → thread_ok s m u → thread_ok s' m' u) →
  (∀ j, j ∈ readers s' ↔ if decide (j = i) then inside t' else j ∈ readers s) →
  (∀ j, wlock s' = Some j ↔ if decide (j = i) then holding t' else wlock s = Some j) →
  (active t' → running s = true → from_option active False old) →
  (running s' = true ↔ active t' ∨ running s = true ∧ ¬ from_option active False old) →
  (ready s' = true → serving t' ∨ ready s = true ∧ ¬ from_option serving False old) →
  Inv (mkSys s' m').
Proof.
  intros [Ht Hr Hw Hone Hrun Hready] Hold Hok Hothers Hr' Hw' Hact Hrun' Hready'. cbn in *. unfold m' in *.
  split; cbn.
  - intros j u [[<- <-]|[Hne Hu]]%lookup_insert_Some; [done|]. eauto.
  - intros j. rewrite Hr'. case_decide as Hj; [subst j|].
    + rewrite lookup_insert_eq. naive_solver.
    + rewrite lookup_insert_ne by done. apply Hr.
  - intros j. rewrite Hw'. case_decide as Hj; [subst j|].
    + rewrite lookup_insert_eq. naive_solver.
    + rewrite lookup_insert_ne by done. apply Hw.
  - assert (∀ k u, k ≠ i → m !! k = Some u → active u → active t' → False) as Hclash.
    { intros k u Hk Hu Hau Hat. assert (running s = true) as Hrs by (apply Hrun; eauto).
      specialize (Hact Hat Hrs). destruct old as [t|]; [|done]. by apply Hk, (Hone k i u t). }
    intros j k u v [[<- <-]|[Hj Hu]]%lookup_insert_Some [[<- <-]|[Hk Hv]]%lookup_insert_Some Hau Hav;
      [done| | |by eapply Hone].
    + by destruct (Hclash k v).
    + by destruct (Hclash j u).
  - rewrite Hrun'. split.
    + intros [Hat|[Hrs Hn]]; [exists i, t'; by rewrite lookup_insert_eq|].
      apply Hrun in Hrs as (k & u & Hu & Hau). exists k, u. split; [|done].
      rewrite lookup_insert_ne; [done|]. intros <-. rewrite Hold in Hu. apply Hn. by rewrite Hu.
    + intros (k & u & [[<- <-]|[Hk Hu]]%lookup_insert_Some & Hau); [by left|]. right.
      assert (running s = true) as Hrs by (apply Hrun; eauto). split; [done|]. intros Hn.
      destruct old as [t|]; [|done]. by apply Hk, (Hone i k t u).
  - intros Hrs. destruct (Hready' Hrs) as [Hst|[Hrs0 Hn]]; [exists i, t'; by rewrite lookup_insert_eq|].
    apply Hready in Hrs0 as (k & u & Hu & Hau). exists k, u. split; [|done].
    rewrite lookup_insert_ne; [done|]. intros <-. rewrite Hold in Hu. apply Hn. by rewrite Hu.
Qed.
End move.

Definition early (q : RunPhase) : Prop := q = RunChecking ∨ q = RunReadying ∨ q = RunWaiting.

(** What a thread relies on. *)
Lemma thread_ok_frame s s' m m' u : draining s' = draining s → (readers s = ∅ → readers s' = ∅) →
  (∀ r p q, u = Worker r p → p ≠ Exited → m !! r = Some (Runner q) → early q → ∃ q', m' !! r = Some (Runner q') ∧ early q') →
  thread_ok s m u → thread_ok s' m' u.
Proof.
  intros Hd Hr Hrun. destruct u as [p|r p|p|late p]; cbn; rewrite ?Hd; [done| |naive_solver|done].
  intros [Hc Hq]. split; [done|]. destruct Hq as [->|(q & Hq & He)]; [by left|].
  destruct (decide (p = Exited)) as [->|Hne]; [by left|]. right. by eapply Hrun.
Qed.

(** A step of a thread that is not a [Run] leaves the [Run]s alone. *)
Lemma keeps_runs (m : gmap nat Thread) (i : nat) t' (r : nat) q : (∀ p, m !! i ≠ Some (Runner p)) → m !! r = Some (Runner q) → early q →
  ∃ q', <[i := t']> m !! r = Some (Runner q') ∧ early q'.
Proof. intros Hi Hr He. exists q. rewrite lookup_insert_ne; [done|]. intros ->. by eapply Hi. Qed.

(** A thread that neither holds a lock nor runs the service. *)
Definition inert (t : Thread) : Prop := ¬ inside t ∧ ¬ holding t ∧ ¬ active t ∧ ¬ serving t.

Lemma not_reader s m i : Inv (mkSys s m) → (∀ t, m !! i = Some t → ¬ inside t) → i ∉ readers s.
Proof. intros HI Hi (t & Ht & Hin)%(inv_readers _ HI). by eapply Hi. Qed.

Lemma not_writer s m i : Inv (mkSys s m) → (∀ t, m !! i = Some t → ¬ holding t) → wlock s ≠ Some i.
Proof. intros HI Hi (t & Ht & Hin)%(inv_wlock _ HI). by eapply Hi. Qed.

(** An inert thread becomes another and touches nothing. *)
Lemma inert_inv s m i t' : Inv (mkSys s m) → (∀ t, m !! i = Some t → inert t ∧ ∀ p, t ≠ Runner p) →
  inert t' → thread_ok s (<[i := t']> m) t' → Inv (mkSys s (<[i := t']> m)).
Proof.
  intros HI Hold (H1 & H2 & H3 & H4) Hok.
  apply (inv_move s s m i t' (m !! i)); try done.
  - intros j u Hj Hu. apply thread_ok_frame; [done|done|]. intros r p q _ _. apply keeps_runs.
    intros x Hx. by apply (proj2 (Hold _ Hx) x).
  - intros j. case_decide; [subst j|done]. split; [|done]. intros Hin. exfalso. revert Hin.
    apply (not_reader s m i HI). intros t Ht. apply (Hold t Ht).
  - intros j. case_decide; [subst j|done]. split; [|done]. intros Hin. exfalso. revert Hin.
    apply (not_writer s m i HI). intros t Ht. apply (Hold t Ht).
  - split; [|naive_solver]. intros Hrs. right. split; [done|]. destruct (m !! i) as [t|]; [|by intros []].
    apply (Hold t eq_refl).
  - intros Hrs. right. split; [done|]. destruct (m !! i) as [t|]; [|by intros []]. apply (Hold t eq_refl).
Qed.

Lemma probe_inv s m i late p p' : Inv (mkSys s m) → m !! i = Some (Probe late p) → probe_step s p p' →
  Inv (mkSys s (<[i := Probe late p']> m)).
Proof.
  intros HI Hi Hp. pose proof (inv_threads _ HI _ _ Hi) as [Hl Hr]. cbn in Hl, Hr.
  apply inert_inv; [done| |unfold inert; cbn; naive_solver|].
  - intros t Ht. rewrite Hi in Ht. injection Ht as <-. unfold inert. cbn. naive_solver.
  - split; [done|]. inversion Hp; subst; try (intros [?|?]; done).
    + intros _. destruct late; [|done]. by rewrite Hl in *.
    + intros _. by apply Hr; left.
Qed.

(** The moved thread has no part in [running] and [ready]. *)
Lemma no_role s s' m i t t' : Inv (mkSys s m) → m !! i = Some t → ¬ active t → ¬ serving t → ¬ active t' →
  running s' = running s → (ready s' = true → ready s = true) →
  thread_ok s' (<[i := t']> m) t' →
  (∀ j u, j ≠ i → m !! j = Some u → thread_ok s m u → thread_ok s' (<[i := t']> m) u) →
  (∀ j, j ∈ readers s' ↔ if decide (j = i) then inside t' else j ∈ readers s) →
  (∀ j, wlock s' = Some j ↔ if decide (j = i) then holding t' else wlock s = Some j) →
  Inv (mkSys s' (<[i := t']> m)).
Proof.
  intros HI Hi Ha Hs Ha' Hrun Hready Hok Hothers Hr Hw.
  apply (inv_move s s' m i t' (Some t)); try done; cbn; rewrite ?Hrun; naive_solver.
Qed.

Lemma drain_inv s m i p s' p' : Inv (mkSys s m) → m !! i = Some (Drainer p) → drain_step i s p s' p' →
  Inv (mkSys s' (<[i := Drainer p']> m)).
Proof.
  intros HI Hi Hp. pose proof (inv_threads _ HI _ _ Hi) as [Hl Hr]. cbn in Hl, Hr.
  assert (i ∉ readers s) as Hni by (apply (not_reader s m i HI); rewrite Hi; by intros ? [= <-] ?).
  assert (∀ r q, m !! r = Some (Runner q) → early q → ∃ q', <[i := Drainer p']> m !! r = Some (Runner q') ∧ early q') as Hruns.
  { intros r q. apply keeps_runs. by rewrite Hi. }
  assert (holding (Drainer p) → wlock s = Some i) as Hmine by (intros Hh; apply (inv_wlock _ HI); eauto).
  apply (no_role s s' m i (Drainer p)); [done|done|by intros []..| | | | | |].
  - by inversion Hp.
  - inversion Hp; subst; cbn; done.
  - inversion Hp; subst; cbn; naive_solver.
  - intros j u Hj Hu. assert (draining s' = draining s ∨ readers s = ∅ ∧ s' = close_drain s) as [Hd|[He ->]].
    { inversion Hp; subst; auto. }
    + apply thread_ok_frame; [done|by inversion Hp|]. intros r x q _ _. apply Hruns.
    + destruct u as [x|r x|x|late x]; cbn; [done| |naive_solver|naive_solver]. intros [_ Hq]. split.
      * intros ->. assert (j ∈ readers s) as Hin by (apply (inv_readers _ HI); by eexists). rewrite He in Hin. set_solver.
      * destruct Hq as [?|(q & Hq & Hearly)]; [by left|]. right. by apply Hruns with q.
  - intros j. assert (readers s' = readers s) as -> by (by inversion Hp). case_decide; [subst j; naive_solver|done].
  - assert (¬ holding (Drainer p) → wlock s ≠ Some i) as Hnot.
    { intros Hn. apply (not_writer s m i HI). rewrite Hi. by intros ? [= <-]. }
    intros j. destruct (decide (j = i)) as [->|Hj]; inversion Hp; subst; cbn in *; split; intros Hx; try congruence;
      try done; try (by apply Hmine); try (by apply Hnot); try (by destruct Hnot; auto).
    all: by injection (eq_trans (eq_sym Hx) (Hmine I)) as ->.
Qed.

Lemma worker_inv s m i r p s' p' : Inv (mkSys s m) → m !! i = Some (Worker r p) → worker_step i s p s' p' →
  Inv (mkSys s' (<[i := Worker r p']> m)).
Proof.
  intros HI Hi Hp. pose proof (inv_threads _ HI _ _ Hi) as [Hc Hq]. cbn in Hc, Hq.
  assert (∀ r0 q, m !! r0 = Some (Runner q) → early q → ∃ q', <[i := Worker r p']> m !! r0 = Some (Runner q') ∧ early q') as Hruns.
  { intros r0 q. apply keeps_runs. by rewrite Hi. }
  assert (i ∈ readers s ↔ inside (Worker r p)) as Hmine.
  { rewrite (inv_readers _ HI). cbn. rewrite Hi. naive_solver. }
  assert (wlock s ≠ Some i) as Hnw by (apply (not_writer s m i HI); rewrite Hi; by intros ? [= <-] ?).
  assert (draining s' = draining s ∧ running s' = running s ∧ ready s' = ready s ∧ wlock s' = wlock s)
    as (Hd & Hrun & Hready & Hw) by (by inversion Hp).
  apply (no_role s s' m i (Worker r p)); [done|done|by intros []..|done|by rewrite Hready| | | |].
  - split.
    + intros ->. inversion Hp; naive_solver congruence.
    + destruct (decide (p' = Exited)) as [|Hne]; [by left|]. right. destruct Hq as [->|(q & Hrq & He)].
      * inversion Hp; subst; naive_solver.
      * by apply Hruns with q.
  - intros j u Hj Hu Hok. destruct (decide (readers s = ∅ ∧ readers s' ≠ ∅)) as [[He Hne]|Hre].
    + assert (wlock s = None) as Hwn by (inversion Hp; subst; set_solver).
      destruct u as [x|r0 x|x|late x]; cbn in *; rewrite ?Hd; [done| | |done].
      * destruct Hok as [Hcl [?|(q & Hrq & Hearly)]]; split; auto. right. by apply Hruns with q.
      * split; [|naive_solver]. intros Hx. exfalso.
        assert (wlock s = Some j) as Hj' by (apply (inv_wlock _ HI); eexists; split; [done|]; by destruct Hx as [->| ->]).
        congruence.
    + revert Hok. apply thread_ok_frame; [done| |].
      * intros He. destruct (decide (readers s' = ∅)); [done|]. by destruct Hre.
      * intros r0 x q _ _. apply Hruns.
  - intros j. inversion Hp; subst; cbn in *; case_decide; subst; set_solver.
  - intros j. rewrite Hw. case_decide; [subst j; naive_solver|done].
Qed.

(** A [Run] moves; it holds no lock. *)
Lemma runner_inv s m i p s' p' : Inv (mkSys s m) → m !! i = Some (Runner p) →
  draining s' = draining s → readers s' = readers s → wlock s' = wlock s →
  (∀ j r x, m !! j = Some (Worker r x) → x ≠ Exited → r = i → early p → early p') →
  (active (Runner p') → running s = true → active (Runner p)) →
  (running s' = true ↔ active (Runner p') ∨ running s = true ∧ ¬ active (Runner p)) →
  (ready s' = true → serving (Runner p') ∨ ready s = true ∧ ¬ serving (Runner p)) →
  Inv (mkSys s' (<[i := Runner p']> m)).
Proof.
  intros HI Hi Hd Hr Hw Hkeep Hact Hrun Hready.
  apply (inv_move s s' m i (Runner p') (Some (Runner p))); try done.
  - intros j u Hj Hu. apply thread_ok_frame; [done|by rewrite Hr|]. intros r x q -> Hx Hrq He.
    destruct (decide (r = i)) as [->|Hne]; [|exists q; by rewrite lookup_insert_ne].
    rewrite Hi in Hrq. injection Hrq as ->. exists p'. rewrite lookup_insert_eq. split; [done|]. by eapply Hkeep.
  - intros j. rewrite Hr. case_decide; [subst j|done]. split; [|by intros []]. intros Hin. exfalso. revert Hin.
    apply (not_reader s m i HI). rewrite Hi. by intros ? [= <-] ?.
  - intros j. rewrite Hw. case_decide; [subst j|done]. split; [|by intros []]. intros Hin. exfalso. revert Hin.
    apply (not_writer s m i HI). rewrite Hi. by intros ? [= <-] ?.
Qed.

Lemma run_inv s m i p s' p' : Inv (mkSys s m) → m !! i = Some (Runner p) → run_step s p s' p' →
  Inv (mkSys s' (<[i := Runner p']> m)).
Proof.
  intros HI Hi Hp.
  assert (active (Runner p) → running s = true) as Hmine by (intros Ha; apply (inv_running _ HI); eauto).
  apply (runner_inv s m i p); [done|done|by inversion Hp..| | | |].
  - intros j r x _ _ _. inversion Hp; subst; unfold early; intuition congruence.
  - inversion Hp; subst; cbn in *; tauto.
  - inversion Hp; subst; cbn in *; intuition congruence.
  - inversion Hp; subst; cbn in *; intuition congruence.
Qed.

Lemma join_inv s m i : Inv (mkSys s m) → m !! i = Some (Runner RunWaiting) → map_Forall (λ _ t, stopped i t) m →
  Inv (mkSys s (<[i := Runner RunUnready]> m)).
Proof.
  intros HI Hi Hall.
  assert (running s = true) as Hmine by (apply (inv_running _ HI); by exists i, (Runner RunWaiting)).
  apply (runner_inv s m i RunWaiting); try done; cbn.
  - intros j r x Hj Hx -> _. destruct Hx. by apply (Hall _ _ Hj).
  - naive_solver.
  - naive_solver.
Qed.

(** A [Run] wins the compare-and-swap and starts its workers. *)
Lemma start_inv s m m' i (ws : gset nat) : Inv (mkSys s m) → m !! i = Some (Runner RunCAS) → running s = false →
  (∀ j, j ∈ ws → m !! j = None) →
  (∀ j, m' !! j = if decide (j = i) then Some (Runner RunChecking)
                  else if decide (j ∈ ws) then Some (Worker i AtHead) else m !! j) →
  Inv (mkSys (set_running true s) m').
Proof.
  intros HI Hi Hrun Hws Hm.
  assert (∀ i t, m !! i = Some t → ¬ active t) as Hidle.
  { intros k t Ht Ha. assert (running s = true) as Hr by (apply (inv_running _ HI); eauto). congruence. }
  assert (m' !! i = Some (Runner RunChecking)) as Hi' by (rewrite Hm; by rewrite decide_True).
  assert (∀ j t, m' !! j = Some t → t = Runner RunChecking ∧ j = i ∨ t = Worker i AtHead ∧ m !! j = None ∨ m !! j = Some t) as Hcases.
  { intros j t. rewrite Hm. repeat case_decide; naive_solver. }
  assert (∀ j t, m !! j = Some t → j = i ∨ m' !! j = Some t) as Hkept.
  { intros j t Hj. rewrite Hm. repeat case_decide; [by left| |by right]. rewrite Hws in Hj by done. done. }
  split; cbn.
  - intros j t Ht. destruct (Hcases j t Ht) as [[-> _]|[[-> _]|Hj]]; [done|split; [done|right]|].
    + exists RunChecking. auto.
    + revert Hj. intros Hj. generalize (inv_threads _ HI _ _ Hj). apply thread_ok_frame; [done|done|].
      intros r p q -> Hp Hq He. exfalso. apply (Hidle _ _ Hq). by destruct He as [->|[->| ->]].
  - intros j. rewrite (inv_readers _ HI). cbn. split; intros (t & Ht & Hin).
    + destruct (Hkept j t Ht) as [->|Hj]; [|eauto]. rewrite Hi in Ht. by injection Ht as <-.
    + destruct (Hcases j t Ht) as [[-> _]|[[-> _]|Hj]]; [done|done|eauto].
  - intros j. rewrite (inv_wlock _ HI). cbn. split; intros (t & Ht & Hin).
    + destruct (Hkept j t Ht) as [->|Hj]; [|eauto]. rewrite Hi in Ht. by injection Ht as <-.
    + destruct (Hcases j t Ht) as [[-> _]|[[-> _]|Hj]]; [done|done|eauto].
  - assert (∀ j t, m' !! j = Some t → active t → j = i) as Honly.
    { intros j t Ht Ha. destruct (Hcases j t Ht) as [[_ ->]|[[-> _]|Hj]]; [done|done|]. by destruct (Hidle _ _ Hj). }
    intros j k t u Hj Hk Ht Hu. by rewrite (Honly j t), (Honly k u).
  - split; [|done]. intros _. by exists i, (Runner RunChecking).
  - intros Hr. apply (inv_ready _ HI) in Hr as (k & t & Ht & Hs). exfalso. apply (Hidle _ _ Ht).
    by destruct t as [[]| | |].
Qed.

Lemma lifecycle_step_inv x y : step x y → Inv x → Inv y.
Proof.
  assert (∀ s m i t', Inv (mkSys s m) → m !! i = None → inert t' → thread_ok s (<[i := t']> m) t' →
            Inv (mkSys s (<[i := t']> m))) as Hcall.
  { intros s m i t' HI Hi. apply inert_inv; [done|]. by rewrite Hi. }
  destruct 1; intros HI; eauto using start_inv, run_inv, join_inv, worker_inv, drain_inv, probe_inv.
  - apply Hcall; [done|done|unfold inert; cbn; naive_solver|done].
  - apply Hcall; [done|done|unfold inert; cbn; naive_solver|cbn; naive_solver].
  - apply Hcall; [done|done|unfold inert; cbn; naive_solver|cbn; naive_solver].
Qed.

Lemma lifecycle_reachable_inv x : reachable x → Inv x.
Proof.
  unfold reachable. intros Hr. assert (∀ a b, rtc step a b → Inv a → Inv b) as Hall.
  { induction 1; eauto using lifecycle_step_inv. }
  eapply Hall; [done|apply lifecycle_initial_inv].
Qed.

(** ** Draining is for good *)

Lemma step_draining x y : step x y → draining (sh x) = true → draining (sh y) = true.
Proof. by destruct 1 as [| | | |????? ? ? Hp| |?????? ? ? Hp|????? ? ? Hp|]; try inversion Hp; subst. Qed.

(** A step leaves a thread alone, moves it within its kind, or starts it; a
    probe remembers the state it was called in. *)
Lemma step_probe x y j late p : step x y → threads y !! j = Some (Probe late p) →
  (∃ p0, threads x !! j = Some (Probe late p0)) ∨ threads x !! j = None ∧ late = draining (sh x).
Proof.
  destruct 1; cbn; rewrite ?lookup_insert_Some; [naive_solver..| |naive_solver|naive_solver|naive_solver|naive_solver|naive_solver].
  match goal with H : ∀ j, _ !! j = _ |- _ => rewrite H end. repeat case_decide; naive_solver.
Qed.

Lemma steps_draining x y : rtc step x y → draining (sh x) = true → draining (sh y) = true.
Proof. induction 1; eauto using step_draining. Qed.

Lemma later_probe x y j late p : rtc step x y → draining (sh x) = true → threads x !! j = None →
  threads y !! j = Some (Probe late p) → late = true.
Proof.
  intros Hxy Hd Hj. revert late p. pattern y. eapply rtc_ind_r; [| |exact Hxy]; cbn.
  - intros late p. by rewrite Hj.
  - intros w z Hxw Hwz IH late p Hz. destruct (step_probe _ _ _ _ _ Hwz Hz) as [(p0 & Hw)|[_ ->]]; [by eapply IH|].
    by eapply steps_draining.
Qed.

(** C19: once [BeginDrain] has returned, no worker is in a repository claim and
    none will ever start one, whatever else is called in whatever interleaving,
    including further [Run]s; and no [Readiness] called from then on reports the
    service ready. *)
Theorem drain_is_final x y i : reachable x → threads x !! i = Some (Drainer DrainReturned) → rtc step x y →
  (∀ j r, threads y !! j ≠ Some (Worker r Claiming))
  ∧ ∀ j late, threads x !! j = None → threads y !! j ≠ Some (Probe late (ProbeReturned None)).
Proof.
  intros Hx Hi Hxy. pose proof (lifecycle_reachable_inv _ Hx) as HIx.
  assert (reachable y) as Hy by (by unfold reachable; etrans). pose proof (lifecycle_reachable_inv _ Hy) as HIy.
  destruct (inv_threads _ HIx _ _ Hi) as [_ Hd]. specialize (Hd (or_intror eq_refl)).
  pose proof (steps_draining _ _ Hxy Hd) as Hdy. split.
  - intros j r Hj. destruct (inv_threads _ HIy _ _ Hj) as [Hc _]. by rewrite Hc in Hdy.
  - intros j late Hnew Hj. destruct (inv_threads _ HIy _ _ Hj) as [_ Hl].
    specialize (Hl (or_intror eq_refl)). by rewrite (later_probe x y j late _ Hxy Hd Hnew Hj) in Hl.
Qed.

(** One [Run] at a time, and it outlives its workers.  In every
    interleaving at most one call of [Run] is past its compare-and-swap; the
    service is marked running exactly while there is one, and marked ready only
    while that call waits for its workers; a worker that has not stopped belongs
    to a [Run] that has not returned; while a worker is in a repository claim
    the service is not draining. *)
Theorem one_run_at_a_time x : reachable x →
  (∀ i j t u, threads x !! i = Some t → threads x !! j = Some u → active t → active u → i = j)
  ∧ (running (sh x) = true ↔ ∃ i t, threads x !! i = Some t ∧ active t)
  ∧ (ready (sh x) = true → ∃ i t, threads x !! i = Some t ∧ serving t)
  ∧ (∀ j r p, threads x !! j = Some (Worker r p) → p ≠ Exited → ∃ t, threads x !! r = Some t ∧ active t)
  ∧ (∀ j r, threads x !! j = Some (Worker r Claiming) → draining (sh x) = false).
Proof.
  intros HI%lifecycle_reachable_inv.
  split; [apply HI|]. split; [apply HI|]. split; [apply HI|]. split.
  - intros j r p Hj Hp. destruct (inv_threads _ HI _ _ Hj) as [_ [?|(q & Hq & He)]]; [done|].
    exists (Runner q). split; [done|]. by destruct He as [->|[->| ->]].
  - intros j r Hj. destruct (inv_threads _ HI _ _ Hj) as [Hc _]. by apply Hc.
Qed.

(** ** Draining ends *)

(** A run in which no drain moves. *)
Definition leads (x y : Sys) : Prop :=
  rtc step x y ∧ ∀ k p, threads x !! k = Some (Drainer p) → threads y !! k = Some (Drainer p).

Lemma leads_trans x y z : leads x y → leads y z → leads x z.
Proof. intros [Hxy Hkxy] [Hyz Hkyz]. split; [by etrans|eauto]. Qed.

Lemma worker_leads s m j r p s' p' : m !! j = Some (Worker r p) → worker_step j s p s' p' →
  leads (mkSys s m) (mkSys s' (<[j := Worker r p']> m)).
Proof.
  intros Hj Hp. split; [apply rtc_once; by eapply worker_moves|]. cbn. intros k q Hk.
  rewrite lookup_insert_ne; [done|]. intros <-. congruence.
Qed.

(** A worker inside the claim lock can leave it. *)
Lemma reader_leaves x j : Inv x → j ∈ readers (sh x) →
  ∃ y, leads x y ∧ readers (sh y) = readers (sh x) ∖ {[j]} ∧ wlock (sh y) = wlock (sh x).
Proof.
  destruct x as [s m]. intros HI (t & Ht & Hin)%(inv_readers _ HI). cbn in *.
  assert (∀ r m0, m0 !! j = Some (Worker r Unlocking) →
    ∃ y, leads (mkSys s m0) y ∧ readers (sh y) = readers s ∖ {[j]} ∧ wlock (sh y) = wlock s) as Hunlock.
  { intros r m0 Hj. eexists. split; [eapply worker_leads; [done|apply (worker_runlock _ _ AtHead); by left]|done]. }
  assert (∀ r p m0, m0 !! j = Some (Worker r p) → worker_step j s p s Unlocking →
    ∃ y, leads (mkSys s m0) y ∧ readers (sh y) = readers s ∖ {[j]} ∧ wlock (sh y) = wlock s) as Hdone.
  { intros r p m0 Hj Hp. destruct (Hunlock r (<[j := Worker r Unlocking]> m0)) as (y & Hy & Hr); [apply lookup_insert_eq|].
    exists y. split; [|done]. eapply leads_trans; [by eapply worker_leads|done]. }
  destruct t as [|r []| |]; try done.
  - destruct (draining s) eqn:Hd; [by eapply Hdone, worker_refused|].
    destruct (Hdone r Claiming (<[j := Worker r Claiming]> m)) as (y & Hy & Hr); [apply lookup_insert_eq|constructor|].
    exists y. split; [|done]. eapply leads_trans; [|done]. by eapply worker_leads, worker_claim.
  - eapply Hdone; [done|constructor].
  - by eapply Hunlock.
Qed.

Lemma leads_inv x y : leads x y → Inv x → Inv y.
Proof. intros [Hxy _]. induction Hxy; eauto using lifecycle_step_inv. Qed.

(** All of them can leave it. *)
Lemma readers_leave x : Inv x → ∃ y, leads x y ∧ readers (sh y) = ∅ ∧ wlock (sh y) = wlock (sh x).
Proof.
  remember (size (readers (sh x))) as n eqn:Hn. revert x Hn.
  induction n as [|n IH]; intros x Hn HI.
  - exists x. split; [by split|]. split; [|done]. apply size_empty_iff in Hn || (symmetry in Hn; apply size_empty_inv in Hn);
      by apply leibniz_equiv.
  - destruct (set_choose_L (readers (sh x))) as [j Hj]; [intros He; rewrite He, size_empty in Hn; done|].
    destruct (reader_leaves x j HI Hj) as (y & Hxy & Hr & Hw).
    destruct (IH y) as (z & Hyz & Hrz & Hwz).
    + rewrite Hr. rewrite size_difference by set_solver. rewrite size_singleton. lia.
    + by eapply leads_inv.
    + exists z. split; [by eapply leads_trans|]. split; [done|congruence].
Qed.

(** A run in which of the drains only [k] moves. *)
Definition leads_but (k : nat) (x y : Sys) : Prop :=
  rtc step x y ∧ ∀ j p, j ≠ k → threads x !! j = Some (Drainer p) → threads y !! j = Some (Drainer p).

Lemma leads_but_trans k x y z : leads_but k x y → leads_but k y z → leads_but k x z.
Proof. intros [Hxy Hkxy] [Hyz Hkyz]. split; [by etrans|eauto]. Qed.

Lemma drain_leads s m k p s' p' : m !! k = Some (Drainer p) → drain_step k s p s' p' →
  leads_but k (mkSys s m) (mkSys s' (<[k := Drainer p']> m)).
Proof.
  intros Hk Hp. split; [apply rtc_once; by eapply drain_moves|]. cbn. intros j q Hj Hq. by rewrite lookup_insert_ne.
Qed.

Lemma leads_but_inv k x y : leads_but k x y → Inv x → Inv y.
Proof. intros [Hxy _]. induction Hxy; eauto using lifecycle_step_inv. Qed.

(** An announced drain can return, and gives the lock back. *)
Definition can_return (k : nat) (x : Sys) : Prop :=
  ∃ y, leads_but k x y ∧ threads y !! k = Some (Drainer DrainReturned) ∧ wlock (sh y) = None.

Lemma can_return_step k s m p s' p' : m !! k = Some (Drainer p) → drain_step k s p s' p' →
  can_return k (mkSys s' (<[k := Drainer p']> m)) → can_return k (mkSys s m).
Proof.
  intros Hk Hp (y & Hy & Hr). exists y. split; [|done]. eapply leads_but_trans; [by eapply drain_leads|done].
Qed.

Lemma holder_returns x k p : Inv x → threads x !! k = Some (Drainer p) → holding (Drainer p) → can_return k x.
Proof.
  assert (∀ s m, m !! k = Some (Drainer DrainUnlocking) → can_return k (mkSys s m)) as Hunlock.
  { intros s m Hk. eexists. split; [by eapply drain_leads, drain_unlock|]. cbn. by rewrite lookup_insert_eq. }
  assert (∀ s m, m !! k = Some (Drainer DrainClosing) → can_return k (mkSys s m)) as Hclose.
  { intros s m Hk. eapply can_return_step; [done|apply drain_close|]. apply Hunlock, lookup_insert_eq. }
  intros HI Hk Hh. destruct x as [s m], p; try done; cbn in *; auto.
  destruct (readers_leave (mkSys s m) HI) as ([s1 m1] & [Hxy Hkept] & Hr & _). cbn in *.
  destruct (Hclose s1 (<[k := Drainer DrainClosing]> m1)) as (y & Hy & Hret); [apply lookup_insert_eq|].
  exists y. split; [|done]. apply (leads_but_trans _ _ (mkSys s1 m1)); [by split; eauto|].
  eapply leads_but_trans; [|done]. by eapply drain_leads, drain_lock; auto.
Qed.

(** [BeginDrain] does not deadlock.  From every reachable state, whatever
    [Run]s, workers, other drains and probes are under way, a call of
    [BeginDrain] can be completed by the workers inside a claim finishing it and
    the drains that announced themselves before it returning. *)
Theorem drain_can_finish x i p : reachable x → threads x !! i = Some (Drainer p) →
  ∃ y, rtc step x y ∧ threads y !! i = Some (Drainer DrainReturned).
Proof.
  intros HI%lifecycle_reachable_inv Hi.
  assert (∀ s m, Inv (mkSys s m) → wlock s = None → m !! i = Some (Drainer DrainLocking) →
            ∃ y, rtc step (mkSys s m) y ∧ threads y !! i = Some (Drainer DrainReturned)) as Hfree.
  { intros s m HIs Hw Hs. assert (drain_step i s DrainLocking (set_wlock (Some i) s) DrainWaiting) as Hstep by (by constructor).
    destruct (holder_returns (mkSys (set_wlock (Some i) s) (<[i := Drainer DrainWaiting]> m)) i DrainWaiting)
      as (y & [Hy _] & Hret & _); [by eapply drain_inv|apply lookup_insert_eq|done|].
    exists y. split; [|done]. eapply rtc_l; [by eapply drain_moves|done]. }
  assert (∀ s m, Inv (mkSys s m) → m !! i = Some (Drainer DrainLocking) →
            ∃ y, rtc step (mkSys s m) y ∧ threads y !! i = Some (Drainer DrainReturned)) as Hlocking.
  { intros s m HIs Hs. destruct (wlock s) as [k|] eqn:Hw; [|by apply Hfree].
    destruct (proj1 (inv_wlock _ HIs k) Hw) as (t & Ht & Hh). destruct t as [| |q|]; try done.
    destruct (holder_returns (mkSys s m) k q HIs Ht Hh) as ([s1 m1] & Hy & Hret & Hw1). cbn in *.
    assert (i ≠ k) as Hne by (intros ->; rewrite Ht in Hs; injection Hs as ->; done).
    destruct (Hfree s1 m1) as (z & Hz & Hrz); [by eapply leads_but_inv|done|by apply Hy|].
    exists z. split; [|done]. etrans; [apply Hy|done]. }
  destruct x as [s m]. cbn in Hi.
  destruct p; try (by destruct (holder_returns _ _ _ HI Hi I) as (y & [Hy _] & Hret & _); eauto).
  - destruct (Hlocking (set_ready false s) (<[i := Drainer DrainLocking]> m)) as (y & Hy & Hret).
    + eapply drain_inv; [done|done|constructor].
    + apply lookup_insert_eq.
    + exists y. split; [|done]. eapply rtc_l; [by eapply drain_moves, drain_unready|done].
  - by apply Hlocking.
  - by exists (mkSys s m).
Qed.
End Lifecycle.
