(* ===== verification/Runtime.v ===== *)
(** * The runtime the service executes in

    A worker of outbox.Service as a state transformer: the shared tables, the
    lease manager of the batch in progress, the pause and retry-streak maps
    and the record of handler calls and observer events are the state; the
    clock, the drawn identifiers, the other workers, driver failures,
    cancellation, draining, the heartbeat's schedule and the handlers are
    answers of an environment, one per step.  Every proof quantifies over the
    environment.

    Between two repository calls the others may change the tables in any way
    ([others]).  A driver failure reports an error for a call that was not
    executed, or for one that was (an answer lost on the way). *)

From S2P Require Import Prelude GoTime Errors Models Batch Sql Repo Transactions.
Open Scope Z_scope.

(** ** State *)

(** outbox/service_batch.go, [batchLeaseManager].  [m_cancel] is the cause
    given to [cancelBatch], [m_beating] whether the heartbeat goroutine is
    still running. *)
Record Manager : Type := mkManager {
  m_token : LeaseToken;
  m_reserveFor : Z;
  m_ordered : list JobID;
  m_outstanding : gmap JobID Z;
  m_earliest : Z;
  m_err : option err;
  m_cancel : option err;
  m_beating : bool
}.

(** outbox/observer.go. *)
Inductive RuntimeOutcomeKind : Type :=
| OutcomeACKConfirmed | OutcomeRetryPersisted | OutcomeDeferPersisted
| OutcomeDLQCommitted | OutcomeLeaseLost.

Record RuntimeOutcome : Type := {
  e_Kind : RuntimeOutcomeKind;
  e_JobID : JobID;
  e_Capability : option JobCapability;
  e_Attempt : Z;
  e_AvailableAt : Z;
  e_ObservedAt : Z;
  e_ClaimedJobs : Z
}.

Record World : Type := mkWorld {
  w_db : Db;
  w_tick : nat;
  w_mgr : Manager;
  w_paused : gmap JobCapability Z;
  w_streak : gmap JobCapability Z;
  w_handled : list (JobID * Z);          (* handler calls: job and attempt *)
  w_events : list RuntimeOutcome
}.

Definition set_db (d : Db) (w : World) : World :=
  mkWorld d (w_tick w) (w_mgr w) (w_paused w) (w_streak w) (w_handled w) (w_events w).
Definition bump (w : World) : World :=
  mkWorld (w_db w) (S (w_tick w)) (w_mgr w) (w_paused w) (w_streak w) (w_handled w) (w_events w).
Definition set_mgr (m : Manager) (w : World) : World :=
  mkWorld (w_db w) (w_tick w) m (w_paused w) (w_streak w) (w_handled w) (w_events w).
Definition set_paused (p : gmap JobCapability Z) (w : World) : World :=
  mkWorld (w_db w) (w_tick w) (w_mgr w) p (w_streak w) (w_handled w) (w_events w).
Definition set_streak (p : gmap JobCapability Z) (w : World) : World :=
  mkWorld (w_db w) (w_tick w) (w_mgr w) (w_paused w) p (w_handled w) (w_events w).
Definition add_handled (h : list (JobID * Z)) (w : World) : World :=
  mkWorld (w_db w) (w_tick w) (w_mgr w) (w_paused w) (w_streak w) (w_handled w ++ h) (w_events w).
Definition add_event (e : RuntimeOutcome) (w : World) : World :=
  mkWorld (w_db w) (w_tick w) (w_mgr w) (w_paused w) (w_streak w) (w_handled w) (w_events w ++ [e]).

Definition set_outstanding (o : gmap JobID Z) (m : Manager) : Manager :=
  mkManager (m_token m) (m_reserveFor m) (m_ordered m) o (m_earliest m) (m_err m) (m_cancel m) (m_beating m).
Definition set_earliest (e : Z) (m : Manager) : Manager :=
  mkManager (m_token m) (m_reserveFor m) (m_ordered m) (m_outstanding m) e (m_err m) (m_cancel m) (m_beating m).
Definition set_ordered (l : list JobID) (m : Manager) : Manager :=
  mkManager (m_token m) (m_reserveFor m) l (m_outstanding m) (m_earliest m) (m_err m) (m_cancel m) (m_beating m).
Definition set_m_err (e : option err) (m : Manager) : Manager :=
  mkManager (m_token m) (m_reserveFor m) (m_ordered m) (m_outstanding m) (m_earliest m) e (m_cancel m) (m_beating m).
(** Only the first cause of a cancellation is kept. *)
Definition cancel_with (e : err) (m : Manager) : Manager :=
  mkManager (m_token m) (m_reserveFor m) (m_ordered m) (m_outstanding m) (m_earliest m) (m_err m)
            (match m_cancel m with Some c => Some c | None => Some e end) (m_beating m).
Definition set_beating (b : bool) (m : Manager) : Manager :=
  mkManager (m_token m) (m_reserveFor m) (m_ordered m) (m_outstanding m) (m_earliest m) (m_err m) (m_cancel m) b.

(** ** The environment *)

Record Env : Type := {
  clock : nat → Z;
  newLeaseToken : nat → LeaseToken;
  newJobID : nat → JobID;
  others : nat → Db → Db;
  fault : nat → option Fault;
  commit_fault : nat → option Fault;
  run_cause : nat → option err;          (* [context.Cause] of the Run context *)
  draining : nat → bool;
  beats : nat → nat;                     (* heartbeat ticks served before a lock is taken *)
  lock_timeout : nat → option err;       (* [LockContext] giving up *)
  held : nat → gset JobID;               (* rows locked by other transactions *)
  sink : nat → bool;                     (* whether the observer's channel takes an event *)
  timer_first : nat → bool;              (* a fired timer is chosen over the other ready cases *)
  uuid_text : JobID → string             (* [uuid.UUID.String] of google/uuid *)
}.

(** A context: whether the Run context's cancellation and the batch's
    [cancelBatch] reach it, and its deadline. *)
Record Ctx : Type := mkCtx { c_run : bool; c_batch : bool; c_deadline : option Z }.

Definition runCtx : Ctx := mkCtx true false None.
Definition WithCancelCause (c : Ctx) : Ctx := mkCtx (c_run c) true (c_deadline c).
Definition WithoutCancel (c : Ctx) : Ctx := mkCtx false false None.
Definition WithDeadline (c : Ctx) (deadline : Z) : Ctx :=
  mkCtx (c_run c) (c_batch c)
        (Some (match c_deadline c with Some d => Z.min d deadline | None => deadline end)).

(** ** The state monad *)

Definition M (A : Type) : Type := World → A * World.

#[global] Instance M_ret : MRet M := λ A a w, (a, w).
#[global] Instance M_bind : MBind M := λ A B f m w, let '(a, w') := m w in f a w'.

(** Continue unless the step returned an error. *)
Definition bind_ok {A B} (m : M (result A)) (k : A → M (result B)) : M (result B) := λ w,
  match m w with
  | (Ok a, w') => k a w'
  | (Err e, w') => (Err e, w')
  end.
Notation "x ←? m ; k" := (bind_ok m (λ x, k)) (at level 20, m at level 100, k at level 200, only parsing).
Notation "' p ←? m ; k" := (bind_ok m (λ p, k))
  (at level 20, p pattern, m at level 100, k at level 200, only parsing).

Definition ok {A} (a : A) : M (result A) := mret (Ok a).
Definition error {A} (e : err) : M (result A) := mret (Err e).
Definition map_error {A} (f : err → err) (m : M (result A)) : M (result A) := λ w,
  let '(r, w') := m w in (res_map_err f r, w').

Definition gets {A} (f : World → A) : M A := λ w, (f w, w).
Definition modify (f : World → World) : M unit := λ w, (tt, f w).
Definition modify_mgr (f : Manager → Manager) : M unit := modify (λ w, set_mgr (f (w_mgr w)) w).

Section runtime.
Context (E : Env).

Definition tick : M nat := λ w, (w_tick w, bump w).

(** [n] readings at once: the number of the first. *)
Definition draws (n : nat) : M nat := λ w, (w_tick w, Nat.iter n bump w).

(** [time.Now().UTC()]. *)
Definition now : M Z := t ← tick; mret (clock E t).

Definition isDraining : M bool := t ← tick; mret (draining E t).

(** [context.Cause(ctx)]. *)
Definition cause (c : Ctx) : M (option err) :=
  t ← tick;
  m ← gets w_mgr;
  mret (match (if c_batch c then m_cancel m else None) with
        | Some e => Some e
        | None =>
            match (if c_run c then run_cause E t else None) with
            | Some e => Some e
            | None =>
                match c_deadline c with
                | Some d => if d <=? clock E t then Some (ESentinel ContextDeadlineExceeded) else None
                | None => None
                end
            end
        end).

(** [ctx.Err()]: the kind of cancellation rather than its cause. *)
Definition ctx_err (c : Ctx) : M (option err) :=
  o ← cause c;
  mret (match o with
        | None => None
        | Some e => Some (if errors_Is e ContextDeadlineExceeded then ESentinel ContextDeadlineExceeded
                          else ESentinel ContextCanceled)
        end).

(** [cancelBatch(err)]: the first cause wins, also when it is the Run
    context's. *)
Definition cancelBatch (e : err) : M unit :=
  t ← tick;
  modify_mgr (cancel_with (match run_cause E t with Some c => c | None => e end)).

Definition NewLeaseToken : M LeaseToken := t ← tick; mret (newLeaseToken E t).

Definition NewJobID : M JobID := t ← tick; mret (newJobID E t).

(** The outcome of executing an operation under the failures of step [t]. *)
Definition execute {A} (o : option Fault) (op : Op A) (d : Db) : result A * Db :=
  let '(r, d') := op d in
  match o with
  | None => (r, d')
  | Some f => (Err (fault_err f), if fault_applied f then d' else d)
  end.

Definition on_db {A} (f : Db → result A * Db) : M (result A) := λ w,
  let '(r, d') := f (w_db w) in (r, set_db d' w).

(** A repository call on its own. *)
Definition call {A} (op : Op A) : M (result A) :=
  t ← tick; on_db (λ d, execute (fault E t) op (others E t d)).

(** A statement inside a transaction that holds its rows. *)
Definition call_tx {A} (op : Op A) : M (result A) :=
  t ← tick; on_db (execute (fault E t) op).

(** [Transactor.RunInTx].  With [atomicDLQ] the callback's writes are rolled
    back when it fails, and a commit may fail with or without effect; the
    best-effort runner only calls the function. *)
Definition RunInTx {A} (atomicDLQ : bool) (fn : M (result A)) : M (result A) :=
  t ← tick;
  _ ← modify (λ w, set_db (others E t (w_db w)) w);
  before ← gets w_db;
  r ← fn;
  if negb atomicDLQ then mret r
  else match r with
       | Err e => _ ← modify (set_db before); mret (Err e)
       | Ok a =>
           t' ← tick;
           match commit_fault E t' with
           | None => mret (Ok a)
           | Some f =>
               _ ← (if fault_applied f then mret tt else modify (set_db before));
               mret (Err (wrapf "commit failed" (fault_err f)))
           end
       end.
End runtime.

(** ** Weakest preconditions *)

Definition wp {A} (m : M A) (Q : A → World → Prop) (w : World) : Prop := Q (m w).1 (m w).2.

Lemma wp_ret {A} (a : A) Q w : wp (mret a) Q w = Q a w.
Proof. done. Qed.

Lemma wp_bind {A B} (m : M A) (f : A → M B) Q w : wp (m ≫= f) Q w = wp m (λ a, wp (f a) Q) w.
Proof. unfold wp, mbind, M_bind. by destruct (m w). Qed.

Lemma wp_bind_ok {A B} (m : M (result A)) (f : A → M (result B)) Q w :
  wp (bind_ok m f) Q w
  = wp m (λ r w', match r with Ok a => wp (f a) Q w' | Err e => Q (Err e) w' end) w.
Proof. unfold wp, bind_ok. destruct (m w) as [[]]; done. Qed.

Lemma wp_mono {A} (m : M A) (Q Q' : A → World → Prop) w :
  wp m Q w → (∀ a w', Q a w' → Q' a w') → wp m Q' w.
Proof. unfold wp. auto. Qed.

(** A specification applied to a run. *)
Lemma wp_run {A} (m : M A) Q w a w' : wp m Q w → m w = (a, w') → Q a w'.
Proof. unfold wp. intros HQ Hm. by rewrite Hm in HQ. Qed.

Lemma wp_gets {A} (f : World → A) Q w : wp (gets f) Q w = Q (f w) w.
Proof. done. Qed.
Lemma wp_modify f Q w : wp (modify f) Q w = Q tt (f w).
Proof. done. Qed.
Lemma wp_modify_mgr f Q w : wp (modify_mgr f) Q w = Q tt (set_mgr (f (w_mgr w)) w).
Proof. done. Qed.
Lemma wp_ok {A} (a : A) Q w : wp (ok a) Q w = Q (Ok a) w.
Proof. done. Qed.
Lemma wp_error {A} e Q w : wp (error (A:=A) e) Q w = Q (Err e) w.
Proof. done. Qed.
Lemma wp_map_error {A} f (m : M (result A)) Q w :
  wp (map_error f m) Q w = wp m (λ r, Q (res_map_err f r)) w.
Proof. unfold wp, map_error. by destruct (m w). Qed.

(** Steps that only consult the environment. *)
Lemma wp_tick Q w : wp tick Q w = Q (w_tick w) (bump w).
Proof. done. Qed.
Lemma wp_now E Q w : wp (now E) Q w = Q (clock E (w_tick w)) (bump w).
Proof. done. Qed.
Lemma wp_isDraining E Q w : wp (isDraining E) Q w = Q (draining E (w_tick w)) (bump w).
Proof. done. Qed.
Lemma wp_cause E c Q w : (∀ o, Q o (bump w)) → wp (cause E c) Q w.
Proof. intros H. apply H. Qed.
Lemma wp_ctx_err E c Q w : (∀ o, Q o (bump w)) → wp (ctx_err E c) Q w.
Proof. intros H. apply H. Qed.

(** A call: the others move, then the operation runs, fails or is lost. *)
Lemma wp_call {A} E (op : Op A) Q w :
  (∀ d r d', d = others E (w_tick w) (w_db w) → op d = (r, d') → Q r (set_db d' (bump w))) →
  (∀ d r d' e, d = others E (w_tick w) (w_db w) → op d = (r, d') →
     Q (Err e) (set_db d' (bump w)) ∧ Q (Err e) (set_db d (bump w))) →
  wp (call E op) Q w.
Proof.
  intros Hr Hf. unfold wp, call, tick, on_db, execute, mbind, M_bind. cbn.
  destruct (op _) as [r d'] eqn:Hop. destruct (fault E (w_tick w)) as [[e []]|]; cbn.
  - by destruct (Hf _ r d' e eq_refl Hop).
  - by destruct (Hf _ r d' e eq_refl Hop).
  - by eapply Hr.
Qed.

Lemma wp_call_tx {A} E (op : Op A) Q w :
  (∀ r d', op (w_db w) = (r, d') → Q r (set_db d' (bump w))) →
  (∀ r d' e, op (w_db w) = (r, d') →
     Q (Err e) (set_db d' (bump w)) ∧ Q (Err e) (set_db (w_db w) (bump w))) →
  wp (call_tx E op) Q w.
Proof.
  intros Hr Hf. unfold wp, call_tx, tick, on_db, execute, mbind, M_bind. cbn.
  destruct (op _) as [r d'] eqn:Hop. destruct (fault E (w_tick w)) as [[e []]|]; cbn.
  - by destruct (Hf r d' e eq_refl).
  - by destruct (Hf r d' e eq_refl).
  - by eapply Hr.
Qed.

(** A transaction: a callback that fails is rolled back; after one that
    succeeds the commit answers, or its answer is lost with or without the
    effect. *)
Lemma wp_RunInTx_atomic {A} E (fn : M (result A)) Q w :
  let d0 := others E (w_tick w) (w_db w) in
  wp fn (λ r w1, match r with
                 | Err e => Q (Err e) (set_db d0 w1)
                 | Ok a => Q (Ok a) (bump w1)
                           ∧ ∀ e, Q (Err e) (bump w1) ∧ Q (Err e) (set_db d0 (bump w1))
                 end) (set_db d0 (bump w)) →
  wp (RunInTx E true fn) Q w.
Proof.
  intros d0 Hfn. unfold RunInTx, wp, mbind, M_bind, tick, modify, gets in *. cbn in *. fold d0.
  destruct (fn _) as [[a|e] w1]; cbn in *; [|done]. destruct Hfn as [Hok Hlost].
  destruct (commit_fault E (w_tick w1)) as [[e []]|]; cbn; [apply Hlost..|done].
Qed.

Lemma wp_RunInTx_besteffort {A} E (fn : M (result A)) Q w :
  wp fn Q (set_db (others E (w_tick w) (w_db w)) (bump w)) → wp (RunInTx E false fn) Q w.
Proof.
  intros Hfn. unfold RunInTx, wp, mbind, M_bind, tick, modify, gets in *. cbn in *.
  by destruct (fn _) as [a w1].
Qed.

Ltac wp_simpl := repeat first
  [ rewrite wp_bind | rewrite wp_bind_ok | rewrite wp_ret | rewrite wp_gets | rewrite wp_modify
  | rewrite wp_modify_mgr | rewrite wp_ok | rewrite wp_error | rewrite wp_now | rewrite wp_tick
  | rewrite wp_isDraining | rewrite wp_map_error ].

(** ** The transactor of the model and the transaction managers *)

(** A piece of the worker as the callback of a transaction. *)
Definition as_callback {A} (fn : M (result A)) (w : World) : Callback := λ s,
  let '(r, w') := fn (set_db (default (stored s) (open_tx s)) w) in
  (Returned (match r with Ok _ => None | Err e => Some e end),
   mkSession (stored s) (Some (w_db w')) (commits s) (rollbacks s)).

Lemma as_callback_inside {A} (fn : M (result A)) w : inside (as_callback fn w).
Proof. intros s d x s' Hs. unfold as_callback. destruct (fn _) as [r w']. intros [= <- <-]. eauto. Qed.

(** The transactor the worker is modelled with is the transaction manager.
    Whatever the callback does and however the commit ends, [RunInTx] leaves
    the tables a PostgreSQL, SQLite or MySQL manager stores when its driver
    answers the same, and reports success exactly when the manager does. *)
Theorem RunInTx_is_managed {A} E (fn : M (result A)) w run : manager run →
  let d0 := others E (w_tick w) (w_db w) in
  let drv := {| begin_err := None; commit_err := commit_fault E (w_tick (fn (set_db d0 (bump w))).2);
                rollback_err := None |} in
  let m := run drv (as_callback fn (bump w)) (mkSession d0 None 0 0) in
  w_db (RunInTx E true fn w).2 = stored m.2
  ∧ match (RunInTx E true fn w).1 with Ok _ => m.1 = Returned None | Err _ => ∃ e, m.1 = Returned (Some e) end.
Proof.
  intros Hrun d0 drv m.
  assert (m = pg_runTransaction drv (as_callback fn (bump w)) (mkSession d0 None 0 0)
          ∨ ∃ b, m = sql_RunInTx b true drv (as_callback fn (bump w)) (mkSession d0 None 0 0)) as Hm
    by (unfold m; destruct Hrun as [->|[b ->]]; eauto).
  clearbody m. unfold RunInTx, mbind, M_bind, tick, modify, gets in *. cbn.
  fold d0. unfold pg_runTransaction, sql_RunInTx, as_callback, BeginTx in Hm. cbn in Hm.
  destruct (fn (set_db d0 (bump w))) as [[a|e] w1] eqn:Hfn; cbn in *.
  - unfold commit_with, Commit in Hm. cbn in Hm. destruct (commit_fault E (w_tick w1)) as [[fe []]|]; cbn in *;
      destruct Hm as [->|[b ->]]; cbn; eauto.
  - unfold rollback_with, Rollback in Hm. destruct Hm as [->|[b ->]]; cbn; eauto.
Qed.
