(* ===== verification/Api.v ===== *)
(** * The producer API

    outbox/api.go: puts, deduplicated puts and queue statistics of the
    service.  A call is made by any goroutine of the process, outside the
    worker loop; the repository draws the ids and reads the clock. *)

From S2P Require Import Prelude GoTime Errors Models Batch Sql Repo Stats Options Fencing Runtime.
Open Scope Z_scope.

Section api.
Context (E : Env) (S : Service).

Definition PutVersioned (name : string) (schemaVersion : SchemaVersion) (payload : string) (availableAt : Z) :
    M (result JobID) :=
  match Validate {| cap_Name := name; cap_SchemaVersion := schemaVersion |} with
  | Err e => error e
  | Ok _ =>
      id ← NewJobID E;
      t ← now E;
      map_error (wrapf "create versioned job")
        (call E (CreateJobVersioned (rp_jobs (s_repo S)) id t name schemaVersion payload availableAt))
  end.

Definition Put (name payload : string) (availableAt : Z) : M (result JobID) :=
  PutVersioned name DefaultSchemaVersion payload availableAt.

Definition PutVersionedUnique (deduplicationKey name : string) (schemaVersion : SchemaVersion) (payload : string)
    (availableAt : Z) : M (result UniquePutResult) :=
  match uniqueJobsRepo (s_options S) with
  | None => error (ESentinel ErrUniqueRepositoryNotConfigured)
  | Some repo =>
      if String.eqb deduplicationKey "" then error (EText "outbox deduplication key is empty")
      else match Validate {| cap_Name := name; cap_SchemaVersion := schemaVersion |} with
           | Err e => error e
           | Ok _ =>
               id ← NewJobID E;
               t ← now E;
               map_error (wrapf "create unique versioned job")
                 (call E (CreateJobVersionedUniqueResult repo id t deduplicationKey name schemaVersion payload availableAt))
           end
  end.

(** The validation loop of [PutVersionedUniqueBatch]. *)
Fixpoint validate_items (items : list UniqueBatchPut) (seen : gset string) : result unit :=
  match items with
  | [] => Ok tt
  | item :: rest =>
      _ ← fail_if (String.eqb (p_DeduplicationKey item) "")
                  (EText "outbox unique batch item has an empty deduplication key");
      _ ← fail_if (bool_decide (p_DeduplicationKey item ∈ seen))
                  (EText "outbox unique batch item duplicates deduplication key");
      _ ← res_map_err (wrapf "outbox unique batch item")
            (Validate {| cap_Name := p_Name item; cap_SchemaVersion := p_SchemaVersion item |});
      validate_items rest ({[p_DeduplicationKey item]} ∪ seen)
  end.

Definition check_results (items : list UniqueBatchPut) (results : list UniquePutResult) :
    result (list UniquePutResult) :=
  if negb (length results =? length items)%nat
  then Err (EText "unique batch repository returned a different number of results")
  else _ ← check_from (λ _ r, fail_if (JobIDType.IsZero (u_JobID r))
                                (EText "unique batch repository returned an empty JobID")) 0 results;
       Ok results.

Definition PutVersionedUniqueBatch (items : list UniqueBatchPut) : M (result (list UniquePutResult)) :=
  match uniqueBatchJobsRepo (s_options S) with
  | None => error (ESentinel ErrUniqueRepositoryNotConfigured)
  | Some repo =>
      if (length items =? 0)%nat then error (EText "outbox unique batch is empty")
      else if MaxReservationBatchSize <? Z.of_nat (length items)
      then error (EText "outbox unique batch contains too many items")
      else match validate_items items ∅ with
           | Err e => error e
           | Ok _ =>
               t ← now E;
               first ← draws (length items);
               results ←? map_error (wrapf "create unique versioned job batch")
                 (call E (CreateJobVersionedUniqueBatch repo (λ i, newJobID E (first + i)) t items));
               mret (check_results items results)
           end
  end.

Definition GetQueueStats : M (result QueueStats) :=
  match jobsStatRepo (s_options S) with
  | None => error (ESentinel ErrJobStatNotInit)
  | Some repo =>
      observedAt ← now E;
      stats ←? map_error (wrapf "get queue stats") (call E (repo observedAt));
      ok {| ObservedAt := observedAt; Total := Total stats; Available := Available stats;
            Processing := Processing stats; ByCapability := sort_slice stats_less (ByCapability stats) |}
  end.
End api.

Lemma validate_items_ok items seen : validate_items items seen = Ok tt ↔ check_puts items seen = Ok tt.
Proof.
  revert seen. induction items as [|i items IH]; intros seen; [done|]. cbn [validate_items check_puts].
  by rewrite !res_seq_ok, !res_map_err_ok, !fail_if_ok, IH.
Qed.

(** ** Idempotent producers *)

Lemma iter_bump_db n w : w_db (Nat.iter n bump w) = w_db w.
Proof. by induction n as [|n IH]. Qed.

Section producer.
Context (E : Env) (ts : Z → Z) (fp : string → SchemaVersion → string → Z → string) (U : UniqueJobsRepository).
Context `{!UniqueRepository ts fp U}.

(** The ids drawn from reading [n] on occur nowhere. *)
Definition fresh_from (n : nat) (d : Db) : Prop := ∀ k, (n ≤ k)%nat → fresh_id (newJobID E k) d.

(** Random ids do not repeat, the others keep the registry well-formed and do
    not guess ids. *)
Context (Hinj : ∀ i j, newJobID E i = newJobID E j → i = j).
Context (Hreg : ∀ t d, registry_ok d → registry_ok (others E t d)).
Context (Hfresh : ∀ t d n, fresh_from n d → fresh_from n (others E t d)).

Record producing (w : World) : Prop := {
  pg_registry : registry_ok (w_db w);
  pg_fresh : fresh_from (w_tick w) (w_db w)
}.

Lemma fresh_from_le n n' d : (n ≤ n')%nat → fresh_from n d → fresh_from n' d.
Proof. intros Hn Hf k Hk. apply Hf. lia. Qed.

Lemma producing_staged w k now key name v payload at_ d :
  registry_ok d → fresh_from k d → (k < w_tick w)%nat → keys_t d !! key = None →
  w_db w = staged ts (fp name v payload at_) (newJobID E k) now key name v payload at_ d → producing w.
Proof.
  intros Hr Hf Hk Hn Heq. split; rewrite Heq.
  - apply staged_registry_ok; [done|by apply Hf|done].
  - intros i Hi. apply staged_fresh; [apply Hf; lia|]. intros ->%Hinj. lia.
Qed.

(** One deduplicated put through the repository: either nothing but the
    others' moves, or the key is registered with this content. *)
Lemma put_call_spec f key name v payload at_ w : producing w →
  wp (id ← NewJobID E; t ← now E;
      map_error f (call E (CreateJobVersionedUniqueResult U id t key name v payload at_)))
    (λ r w', producing w' ∧ w_tick w' = S (S (S (w_tick w))) ∧ ∃ d, d = others E (S (S (w_tick w))) (w_db w) ∧
       match r with
       | Ok res => ∃ row, keys_t (w_db w') !! key = Some row ∧ ik_job_id row = u_JobID res
           ∧ ik_fingerprint row = fp name v payload at_
           ∧ (if u_Created res
              then keys_t d !! key = None
                   ∧ ∃ created, jobs_t (w_db w') !! u_JobID res = Some (queued ts (u_JobID res) created key name v payload at_)
              else keys_t d !! key = Some row ∧ w_db w' = d)
       | Err _ => w_db w' = d ∨ keys_t d !! key = None
       end
       ∧ ∀ row, keys_t d !! key = Some row → w_db w' = d ∧ keys_t (w_db w') !! key = Some row) w.
Proof.
  intros [Hr Hf]. unfold NewJobID. wp_simpl. set (t := clock E _).
  assert (registry_ok (others E (S (S (w_tick w))) (w_db w))) as Hr2 by (by apply Hreg).
  assert (fresh_from (w_tick w) (others E (S (S (w_tick w))) (w_db w))) as Hf2 by (by apply Hfresh).
  assert (∀ w', w_tick w' = S (S (S (w_tick w))) → w_db w' = others E (S (S (w_tick w))) (w_db w) → producing w') as Hsame.
  { intros w' Ht Hd. split; rewrite Hd; [done|]. rewrite Ht. eapply fresh_from_le; [|done]. lia. }
  apply wp_call; cbn.
  - intros d r d' -> Hop. apply (put_answers ts fp U) in Hop; [|done|by apply Hf2].
    destruct Hop as [Hkey Hv Hn|row Hrow Hfp|e He]; cbn.
    + split_and!; [eapply producing_staged; try done; cbn; lia|done|]. eexists. split; [done|]. split.
      * exists (mkIdemKey (newJobID E (w_tick w)) (fp name v payload at_) (ts t)). cbn. rewrite !lookup_insert_eq. split_and!; eauto.
      * intros row Hrow. congruence.
    + split_and!; [by apply Hsame|done|]. eexists. split; [done|]. split; [exists row; done|]. done.
    + split_and!; [by apply Hsame|done|]. eexists. split; [done|]. split; [by left|done].
  - intros d r d' e -> Hop. apply (put_answers ts fp U) in Hop; [|done|by apply Hf2]. split; cbn.
    + destruct Hop as [Hkey Hv Hn|row Hrow Hfp|e' He].
      * split_and!; [eapply producing_staged; try done; cbn; lia|done|]. eexists. split; [done|].
        split; [by right|]. intros row Hrow. congruence.
      * split_and!; [by apply Hsame|done|]. eexists. split; [done|]. split; [by left|done].
      * split_and!; [by apply Hsame|done|]. eexists. split; [done|]. split; [by left|done].
    + split_and!; [by apply Hsame|done|]. eexists. split; [done|]. split; [by left|done].
Qed.
(** ** Batches *)

Lemma put_all_length newID now i items d rs d' :
  put_all U newID now i items d = Some (rs, d') → length rs = length items.
Proof.
  revert i d rs. induction items as [|item items IH]; intros i d rs; cbn [put_all]; [by intros [= <- _]|].
  destruct (CreateJobVersionedUniqueResult _ _ _ _ _ _ _ _ _) as [[r|e] d1]; [|done].
  destruct (put_all _ _ _ _ items d1) as [[rs1 d2]|] eqn:Hall; [|done].
  intros [= <- <-]. cbn. f_equal. by apply (IH _ _ _ Hall).
Qed.

(** A batch of deduplicated puts is staged whole or not at all.  When it
    is acknowledged, the tables and the answers are those of its puts made one
    after the other, in order; when it fails, either nothing was written or,
    the answer having been lost, all of it was. *)
Theorem put_batch_whole S items w r w' :
  uniqueBatchJobsRepo (s_options S) = Some U → producing w →
  PutVersionedUniqueBatch E S items w = (r, w') →
  w' = w ∧ (∃ e, r = Err e)
  ∨ puts_ok items ∧ ∃ t n,
      let d := others E t (w_db w) in
      let staging := put_all U (λ i, newJobID E (n + i)) (clock E (w_tick w)) 0 items d in
      match r with
      | Ok rs => length rs = length items ∧ staging = Some (rs, w_db w')
      | Err _ => w_db w' = d ∨ ∃ rs, staging = Some (rs, w_db w')
      end.
Proof.
  intros HU [Hr Hf] Hrun. pattern r, w'. eapply wp_run; [|exact Hrun]. clear r w' Hrun.
  unfold PutVersionedUniqueBatch. rewrite HU.
  destruct (Nat.eqb_spec (length items) 0) as [|Hlen]; [wp_simpl; by eauto|].
  destruct (Z.ltb_spec MaxReservationBatchSize (Z.of_nat (length items))) as [|Hmax]; [wp_simpl; by eauto|].
  destruct (validate_items items ∅) as [[]|e] eqn:Hv; [|wp_simpl; by eauto].
  assert (puts_ok items) as Hok.
  { apply validate_items_ok, check_puts_ok in Hv as (H1 & H2 & _). split_and!; [|done|done|done]. lia. }
  wp_simpl. unfold draws. unfold wp at 1. cbn [fst snd].
  set (w1 := Nat.iter (length items) bump (bump w)). set (n := w_tick (bump w)).
  assert (w_db w1 = w_db w) as Hdb by exact (iter_bump_db _ (bump w)).
  assert (registry_ok (others E (w_tick w1) (w_db w))) as Hr2 by (by apply Hreg).
  assert (∀ i, fresh_id (newJobID E (n + i)) (others E (w_tick w1) (w_db w))) as Hfr.
  { intros i. eapply Hfresh; [exact Hf|]. subst n. cbn. lia. }
  clearbody n w1.
  pose proof (unique_batch (U:=U) (λ i, newJobID E (n + i)) (clock E (w_tick w)) items
    (others E (w_tick w1) (w_db w)) Hok Hr2) as Hb.
  cbv beta in Hb. specialize (Hb ltac:(intros i j Heq%Hinj; lia) Hfr).
  rewrite wp_bind_ok, wp_map_error. apply wp_call; rewrite Hdb; cbn.
  - intros d r d' -> Hop. destruct (put_all _ _ _ _ _ _) as [[rs d1]|] eqn:Hall.
    + rewrite Hb in Hop. injection Hop as <- <-. cbn. wp_simpl. right. split; [done|].
      exists (w_tick w1), n. rewrite Hall. unfold check_results. rewrite (put_all_length _ _ _ _ _ _ _ Hall), Nat.eqb_refl.
      cbn. destruct (check_from _ _ _) as [[]|e]; cbn; [|right; by eexists].
      by rewrite (put_all_length _ _ _ _ _ _ _ Hall).
    + destruct Hb as (e & Hb & _). rewrite Hb in Hop. injection Hop as <- <-. cbn. right. split; [done|].
      exists (w_tick w1), n. by left.
  - intros d r d' e -> Hop. split; cbn.
    + right. split; [done|]. exists (w_tick w1), n. destruct (put_all _ _ _ _ _ _) as [[rs d1]|] eqn:Hall.
      * rewrite Hb in Hop. injection Hop as <- <-. right. by exists rs.
      * destruct Hb as (e' & Hb & _). rewrite Hb in Hop. injection Hop as <- <-. by left.
    + right. split; [done|]. exists (w_tick w1), n. by left.
Qed.

(** ** Attempts under one key *)

Context (S : Service) (HU : uniqueJobsRepo (s_options S) = Some U) (key : string).

(** The key is not pruned while its producer may still retry. *)
Context (Hkeep : ∀ t d row, keys_t d !! key = Some row → keys_t (others E t d) !! key = Some row).

(** The content of one attempt: name, version, payload, availability. *)
Definition content : Type := string * SchemaVersion * string * Z.
Definition content_fp (c : content) : string := let '(name, v, payload, at_) := c in fp name v payload at_.

Definition put_content (c : content) : M (result UniquePutResult) :=
  let '(name, v, payload, at_) := c in PutVersionedUnique E S key name v payload at_.

Fixpoint put_attempts (cs : list content) : M (list (result UniquePutResult)) :=
  match cs with
  | [] => mret []
  | c :: cs => r ← put_content c; rs ← put_attempts cs; mret (r :: rs)
  end.

Lemma put_content_spec c w : producing w →
  wp (put_content c) (λ r w', producing w'
    ∧ (∀ row, keys_t (w_db w) !! key = Some row → keys_t (w_db w') !! key = Some row
         ∧ ∀ res, r = Ok res → u_Created res = false)
    ∧ ∀ res, r = Ok res → ∃ row, keys_t (w_db w') !! key = Some row ∧ ik_job_id row = u_JobID res
         ∧ ik_fingerprint row = content_fp c) w.
Proof.
  intros Hw. destruct c as [[[name v] payload] at_]. cbn [put_content content_fp]. unfold PutVersionedUnique. rewrite HU.
  destruct (String.eqb key ""); [by wp_simpl|]. destruct (Validate _); [|by wp_simpl].
  eapply wp_mono; [by apply put_call_spec|]. intros r w' (Hw' & _ & d & -> & Hr & Hrow). split; [done|]. split.
  - intros row Hk%(Hkeep (Datatypes.S (Datatypes.S (w_tick w)))). destruct (Hrow _ Hk) as [Hd Hk']. split; [done|].
    intros res ->. destruct Hr as (row' & _ & _ & _ & Hc). destruct (u_Created res); [destruct Hc; congruence|done].
  - intros res ->. destruct Hr as (row & Hk & Hid & Hfp & _). by exists row.
Qed.

Lemma put_attempts_spec cs w : producing w →
  wp (put_attempts cs) (λ rs w', producing w' ∧ length rs = length cs
    ∧ (∀ row, keys_t (w_db w) !! key = Some row → keys_t (w_db w') !! key = Some row
         ∧ ∀ res, Ok res ∈ rs → u_Created res = false)
    ∧ ∀ i c res, cs !! i = Some c → rs !! i = Some (Ok res) →
        ∃ row, keys_t (w_db w') !! key = Some row ∧ ik_job_id row = u_JobID res ∧ ik_fingerprint row = content_fp c
        ∧ (u_Created res = true → ∀ j res', rs !! j = Some (Ok res') → u_Created res' = true → i = j)) w.
Proof.
  revert w. induction cs as [|c cs IH]; intros w Hw; cbn [put_attempts]; wp_simpl.
  { split_and!; [done|done|set_solver|done]. }
  eapply wp_mono; [by apply put_content_spec|]. intros r w1 (Hw1 & Hold & Hnew). wp_simpl.
  eapply wp_mono; [by apply IH|]. intros rs w2 (Hw2 & Hlen & Hold2 & Hnew2). wp_simpl.
  split_and!; [done|by cbn; rewrite Hlen| |].
  - intros row Hk. destruct (Hold _ Hk) as [Hk1 Hc]. destruct (Hold2 _ Hk1) as [Hk2 Hc2]. split; [done|].
    intros res [<-|Hin]%elem_of_cons; [by apply Hc|by apply Hc2].
  - intros [|i] c' res Hci Hri; cbn in Hci, Hri.
    + injection Hci as ->. injection Hri as ->. destruct (Hnew _ eq_refl) as (row & Hk & Hid & Hfp).
      destruct (Hold2 _ Hk) as [Hk2 Hc2]. exists row. split_and!; [done..|]. intros _ [|j] res' Hrj Hcr; [done|].
      cbn in Hrj. apply list_elem_of_lookup_2, Hc2 in Hrj. congruence.
    + destruct (Hnew2 _ _ _ Hci Hri) as (row & Hk & Hid & Hfp & Hone). exists row. split_and!; [done..|].
      intros Hcr [|j] res' Hrj Hcr'; cbn in Hrj.
      * injection Hrj as ->. destruct (Hnew _ eq_refl) as (row1 & Hk1 & _). destruct (Hold2 _ Hk1) as [_ Hc2].
        apply list_elem_of_lookup_2, Hc2 in Hri. congruence.
      * f_equal. by eapply Hone.
Qed.

End producer.

(** ** Queue statistics *)

Lemma ready_not_processing now j : ready now j = true → processing now j = false.
Proof.
  unfold ready, processing. rewrite andb_true_iff. intros [_ Hr].
  destruct (ReservedAt j) as [r|]; [|done]. apply Z.leb_le in Hr.
  destruct (Z.ltb_spec now r); [lia|done].
Qed.

Lemma count_disjoint p q l : (∀ j, p j = true → q j = false) → count p l + count q l ≤ count (λ _, true) l.
Proof.
  intros Hpq. induction l as [|j l IH]; [done|]. cbn. specialize (Hpq j).
  destruct (p j), (q j); naive_solver lia.
Qed.

(** C30: the statistics reconcile with the table they were read from: the totals
    are the numbers of stored, claimable and leased rows at the observation
    time, the claimable and the leased are disjoint, and there is exactly one
    group per capability present, in the order of name and version. *)
Theorem queue_stats_reconcile E S ts repo w st w' : StatsRepository ts repo →
  jobsStatRepo (s_options S) = Some repo → GetQueueStats E S w = (Ok st, w') →
  let t := jobs_t (w_db w') in
  let now := ts (ObservedAt st) in
  ObservedAt st = clock E (w_tick w)
  ∧ Total st = Z.of_nat (size t) ∧ Available st = affected (ready now) t ∧ Processing st = affected (processing now) t
  ∧ Available st + Processing st ≤ Total st
  ∧ StronglySorted (not_after stats_less) (ByCapability st)
  ∧ ByCapability st ≡ₚ group_stats now (all_rows t) <$> remove_dups (row_capability <$> all_rows t).
Proof.
  intros Hrepo HS Hrun. revert st w' Hrun.
  assert (wp (GetQueueStats E S) (λ r w', ∀ st, r = Ok st → ∃ caps,
    let rows := all_rows (jobs_t (w_db w')) in let t := clock E (w_tick w) in
    let base := accumulate (no_stats t) (group_stats (ts t) rows <$> caps) in
    caps ≡ₚ remove_dups (row_capability <$> rows)
    ∧ st = {| ObservedAt := t; Total := Total base; Available := Available base; Processing := Processing base;
              ByCapability := sort_slice stats_less (ByCapability base) |}) w) as Hwp.
  { unfold GetQueueStats. rewrite HS. wp_simpl. apply wp_call; cbn; [|by split].
    intros d [st|e] d' _ Hop; cbn; wp_simpl; [|done]. intros ? [= <-].
    pose proof (stats_read _ _ _ _ Hop) as ->. apply stats_ok in Hop as (caps & Hp & ->). by exists caps. }
  intros st w' Hrun. destruct (wp_run _ _ _ _ _ Hwp Hrun st eq_refl) as (caps & Hp & ->). cbv zeta. cbn.
  destruct (accumulate_groups (no_stats (clock E (w_tick w)))
    (group_stats (ts (clock E (w_tick w))) (all_rows (jobs_t (w_db w'))) <$> caps)) as (_ & -> & -> & -> & ->). cbn.
  set (rows := all_rows (jobs_t (w_db w'))) in *. set (t := ts (clock E (w_tick w))).
  rewrite <- !list_fmap_compose.
  change (s_Total ∘ group_stats t rows) with (λ c, count (λ _, true) (filter (λ j, row_is j c = true) rows)).
  change (s_Available ∘ group_stats t rows) with (λ c, count (ready t) (filter (λ j, row_is j c = true) rows)).
  change (s_Processing ∘ group_stats t rows) with (λ c, count (processing t) (filter (λ j, row_is j c = true) rows)).
  rewrite !Z.add_0_l, !stats_totals by done. split_and!.
  - done.
  - subst rows. rewrite count_affected. unfold affected. f_equal. f_equal. apply map_filter_id. done.
  - apply count_affected.
  - apply count_affected.
  - apply count_disjoint, ready_not_processing.
  - apply sort_slice_sorted, _.
  - etrans; [apply sort_slice_perm|]. by rewrite Hp.
Qed.
