(* ===== verification/Fanout.v ===== *)
(** * Fan-out

    outbox/fanout.go: the normalisation of a fan-out snapshot, the names and
    ids of its deliveries, [PutFanout], the dispatcher's handler and
    [DecodeFanoutDelivery].

    The UUID text and the name-based UUIDs of google/uuid are parameters.  So
    are the two JSON codecs of encoding/json; what a proof uses of them is
    stated in [FanoutCodec]. *)

From Stdlib Require Import Ascii.
From S2P Require Import Prelude GoTime Errors Models Batch Fingerprint Sql Repo Stats Options Fencing Runtime.
From S2P Require Import Api Json.
Open Scope Z_scope.

(** ** Data *)

Record FanoutEvent : Type := {
  ev_ID : MessageID;
  ev_Topic : string;
  ev_SchemaVersion : SchemaVersion;
  ev_Payload : string;
  ev_OccurredAt : Z
}.

Record FanoutTarget : Type := {
  tg_Kind : string;
  tg_ID : string;
  tg_Snapshot : string
}.

Record FanoutDelivery : Type := {
  dl_ID : MessageID;
  dl_Event : FanoutEvent;
  dl_Target : FanoutTarget
}.

Record fanoutSnapshot : Type := {
  sn_Event : FanoutEvent;
  sn_Targets : list FanoutTarget;
  sn_AvailableAt : Z
}.

#[global] Instance FanoutTarget_eq_dec : EqDecision FanoutTarget.
Proof. solve_decision. Defined.

Definition fanoutDeliveryNamePrefix : string := "fanout.".
Definition nul : string := String (byte 0) "".

Definition FanoutDeliveryJobName (kind topic : string) : string :=
  fanoutDeliveryNamePrefix +:+ kind +:+ "." +:+ topic.

(** ** Normalisation *)

(** The runes of a token are ASCII, so the loop over runes is one over
    bytes: no byte of a longer rune, and not the replacement rune of an
    invalid byte, is accepted. *)
Definition token_byte (allowDot : bool) (char : Ascii.ascii) : bool :=
  byte_in "a" "z" char || byte_in "A" "Z" char || byte_in "0" "9" char
  || is_byte char "-" || is_byte char "_" || allowDot && is_byte char ".".

Definition validFanoutToken (value : string) (allowDot : bool) : bool :=
  if String.eqb value "" then false else all_bytes (token_byte allowDot) value.

Definition invalidFanout (detail : string) : err := wrapAs ErrInvalidFanout detail.

(** [fmt.Errorf("%w: detail: %w", ErrInvalidFanout, err)]. *)
Definition invalidFanoutBy (detail : string) (e : err) : err :=
  EWrapf (sentinel_text ErrInvalidFanout +:+ ": " +:+ detail +:+ ": " +:+ Error e) [ESentinel ErrInvalidFanout; e].

Definition normalizeFanoutEvent (event : FanoutEvent) : result FanoutEvent :=
  _ ← res_map_err (invalidFanoutBy "event id") (MessageIDType.Validate (ev_ID event));
  _ ← fail_if (negb (validFanoutToken (ev_Topic event) true)) (invalidFanout "invalid topic");
  _ ← fail_if (255 <? len (FanoutDeliveryJobName "consumer" (ev_Topic event))) (invalidFanout "topic is too long");
  _ ← fail_if (ev_SchemaVersion event <=? 0) (invalidFanout "schema version must be positive");
  _ ← fail_if (IsZero (ev_OccurredAt event)) (invalidFanout "occurredAt is required");
  _ ← fail_if (negb (json_Valid (ev_Payload event))) (invalidFanout "event payload must be valid JSON");
  Ok event.

Definition normalizeFanoutTarget (target : FanoutTarget) : result FanoutTarget :=
  _ ← fail_if (negb (validFanoutToken (tg_Kind target) false)) (invalidFanout "invalid target kind");
  _ ← fail_if (blank (tg_ID target) || (512 <? len (tg_ID target))) (invalidFanout "invalid target id");
  _ ← fail_if (255 <? len (FanoutDeliveryJobName (tg_Kind target) "topic")) (invalidFanout "target kind is too long");
  let snapshot := if (String.length (tg_Snapshot target) =? 0)%nat then "{}" else tg_Snapshot target in
  _ ← fail_if (negb (json_Valid snapshot)) (invalidFanout "target snapshot must be valid JSON");
  Ok {| tg_Kind := tg_Kind target; tg_ID := tg_ID target; tg_Snapshot := snapshot |}.

Definition target_key (target : FanoutTarget) : string := tg_Kind target +:+ nul +:+ tg_ID target.

(** The loop over the targets. *)
Fixpoint normalize_targets (topic : string) (items : list FanoutTarget) (seen : gset string) :
    result (list FanoutTarget) :=
  match items with
  | [] => Ok []
  | item :: items =>
      target ← normalizeFanoutTarget item;
      _ ← fail_if (255 <? len (FanoutDeliveryJobName (tg_Kind target) topic))
                  (invalidFanout "delivery capability name is too long");
      _ ← fail_if (bool_decide (target_key target ∈ seen)) (invalidFanout "duplicate target");
      targets ← normalize_targets topic items ({[target_key target]} ∪ seen);
      Ok (target :: targets)
  end.

Definition target_less : FanoutTarget → FanoutTarget → bool :=
  lex_by String.eqb String.ltb tg_Kind (by_key String.ltb tg_ID).

Definition normalizeFanoutSnapshot (snapshot : fanoutSnapshot) : result fanoutSnapshot :=
  event ← normalizeFanoutEvent (sn_Event snapshot);
  targets ← normalize_targets (ev_Topic event) (sn_Targets snapshot) ∅;
  Ok {| sn_Event := event; sn_Targets := sort_slice target_less targets; sn_AvailableAt := sn_AvailableAt snapshot |}.

(** ** Operations *)

(** The parts of the operations that are not in the repository: the text and
    the name-based ids of UUIDs, and the JSON codecs of the two messages. *)
Record FanoutLib : Type := {
  uuidString : MessageID → string;
  NewSHA1 : N → string → N;
  MarshalSnapshot : fanoutSnapshot → result string;
  UnmarshalSnapshot : string → result fanoutSnapshot;
  MarshalDelivery : FanoutDelivery → result string;
  UnmarshalDelivery : string → result FanoutDelivery
}.

(** [uuid.NameSpaceOID], 6ba7b812-9dad-11d1-80b4-00c04fd430c8. *)
Definition NameSpaceOID : N := 143098242562633686632406296499919794376%N.

Section fanout.
Context (E : Env) (L : FanoutLib).

(** The text a delivery id is derived from. *)
Definition delivery_name (eventID : MessageID) (kind targetID : string) : string :=
  uuidString L eventID +:+ nul +:+ kind +:+ nul +:+ targetID.

Definition FanoutDeliveryID (eventID : MessageID) (kind targetID : string) : MessageID :=
  let namespace := NewSHA1 L NameSpaceOID "github.com/assurrussa/outbox/fanout" in
  NewSHA1 L namespace (delivery_name eventID kind targetID).

Definition fanoutEventDeduplicationKey (eventID : MessageID) : string := "fanout-event:" +:+ uuidString L eventID.
Definition fanoutDeliveryDeduplicationKey (deliveryID : MessageID) : string :=
  "fanout-delivery:" +:+ uuidString L deliveryID.

Definition DecodeFanoutDelivery (payload : string) : result FanoutDelivery :=
  delivery ← res_map_err (invalidFanoutBy "decode delivery") (UnmarshalDelivery L payload);
  event ← normalizeFanoutEvent (dl_Event delivery);
  target ← normalizeFanoutTarget (dl_Target delivery);
  let expectedID := FanoutDeliveryID (ev_ID event) (tg_Kind target) (tg_ID target) in
  _ ← fail_if (negb (N.eqb (dl_ID delivery) expectedID)) (invalidFanout "delivery id does not match event and target");
  Ok {| dl_ID := dl_ID delivery; dl_Event := event; dl_Target := target |}.

(** [FanoutJobsRepository]: the deduplicated put without the created flag. *)
Definition CreateJobVersionedUnique (U : UniqueJobsRepository) (jobID : JobID) (createdAt : Z) (key name : string)
    (v : SchemaVersion) (payload : string) (availableAt : Z) : Op JobID := λ d,
  let '(r, d') := CreateJobVersionedUniqueResult U jobID createdAt key name v payload availableAt d in
  (u_JobID <$> r, d').

Definition PutFanout (S : Service) (event : FanoutEvent) (targets : list FanoutTarget) (availableAt : Z) :
    M (result JobID) :=
  match fanoutJobsRepo (s_options S) with
  | None => error (ESentinel ErrFanoutRepositoryNotConfigured)
  | Some repo =>
      match normalizeFanoutSnapshot {| sn_Event := event; sn_Targets := targets; sn_AvailableAt := availableAt |} with
      | Err e => error e
      | Ok snapshot =>
          match MarshalSnapshot L snapshot with
          | Err e => error (wrapf "encode fan-out snapshot" e)
          | Ok payload =>
              id ← NewJobID E;
              t ← now E;
              map_error (wrapf "create fan-out snapshot")
                (call E (CreateJobVersionedUnique repo id t (fanoutEventDeduplicationKey (ev_ID (sn_Event snapshot)))
                           FanoutDispatcherJobName FanoutDispatcherSchemaVersion payload (sn_AvailableAt snapshot)))
          end
      end
  end.

Definition delivery_of (snapshot : fanoutSnapshot) (target : FanoutTarget) : FanoutDelivery :=
  {| dl_ID := FanoutDeliveryID (ev_ID (sn_Event snapshot)) (tg_Kind target) (tg_ID target);
     dl_Event := sn_Event snapshot; dl_Target := target |}.

(** The loop of [Handle]. *)
Fixpoint stage_deliveries (repo : UniqueJobsRepository) (snapshot : fanoutSnapshot) (targets : list FanoutTarget) :
    M (result unit) :=
  match targets with
  | [] => ok tt
  | target :: rest =>
      let delivery := delivery_of snapshot target in
      match MarshalDelivery L delivery with
      | Err e => error (wrapf "encode fan-out delivery" e)
      | Ok deliveryPayload =>
          id ← NewJobID E;
          t ← now E;
          _ ←? map_error (wrapf ("create fan-out delivery " +:+ uuidString L (dl_ID delivery)))
            (call_tx E (CreateJobVersionedUnique repo id t (fanoutDeliveryDeduplicationKey (dl_ID delivery))
                          (FanoutDeliveryJobName (tg_Kind target) (ev_Topic (sn_Event snapshot)))
                          (ev_SchemaVersion (sn_Event snapshot)) deliveryPayload (sn_AvailableAt snapshot)));
          stage_deliveries repo snapshot rest
      end
  end.

(** What the dispatcher makes of its payload. *)
Definition decode_snapshot (payload : string) : result fanoutSnapshot :=
  snapshot ← res_map_err (wrapf "decode fan-out snapshot") (UnmarshalSnapshot L payload);
  normalizeFanoutSnapshot snapshot.

(** [fanoutDispatcher.Handle] on a transactor that is atomic or not. *)
Definition Handle (repo : UniqueJobsRepository) (atomicDLQ : bool) (payload : string) : M (result unit) :=
  match decode_snapshot payload with
  | Err e => error e
  | Ok snapshot => RunInTx E atomicDLQ (stage_deliveries repo snapshot (sn_Targets snapshot))
  end.
End fanout.

(** ** Accepted events and targets *)

Record event_ok (e : FanoutEvent) : Prop := {
  eo_id : ev_ID e ≠ MessageIDNil;
  eo_topic : validFanoutToken (ev_Topic e) true = true;
  eo_len : len (FanoutDeliveryJobName "consumer" (ev_Topic e)) ≤ 255;
  eo_version : 0 < ev_SchemaVersion e;
  eo_time : ev_OccurredAt e ≠ zeroTime;
  eo_payload : json_Valid (ev_Payload e) = true
}.

Record target_ok (topic : string) (t : FanoutTarget) : Prop := {
  to_kind : validFanoutToken (tg_Kind t) false = true;
  to_id : blank (tg_ID t) = false;
  to_id_len : len (tg_ID t) ≤ 512;
  to_kind_len : len (FanoutDeliveryJobName (tg_Kind t) "topic") ≤ 255;
  to_snapshot : json_Valid (tg_Snapshot t) = true;
  to_name_len : len (FanoutDeliveryJobName (tg_Kind t) topic) ≤ 255
}.

(** The default of a missing snapshot. *)
Definition filled (t : FanoutTarget) : FanoutTarget :=
  {| tg_Kind := tg_Kind t; tg_ID := tg_ID t;
     tg_Snapshot := if (String.length (tg_Snapshot t) =? 0)%nat then "{}" else tg_Snapshot t |}.

Lemma guard_ok {A} b (e : err) (r : result A) a : (_ ← fail_if b e; r) = Ok a ↔ b = false ∧ r = Ok a.
Proof. destruct b; cbn; naive_solver. Qed.

Lemma message_id_valid t : MessageIDType.Validate t = Ok tt ↔ t ≠ MessageIDNil.
Proof. unfold MessageIDType.Validate, MessageIDType.IsZero. by rewrite fail_if_ok, N.eqb_neq. Qed.

Lemma normalizeFanoutEvent_ok e e' : normalizeFanoutEvent e = Ok e' ↔ e' = e ∧ event_ok e.
Proof.
  unfold normalizeFanoutEvent. rewrite res_bind_ok. setoid_rewrite res_map_err_ok.
  setoid_rewrite guard_ok. setoid_rewrite guard_ok. setoid_rewrite guard_ok. setoid_rewrite guard_ok.
  setoid_rewrite guard_ok. split.
  - intros ([] & Hid%message_id_valid & Ht & Hl & Hv & Ho & Hp & [= ->]). split; [done|].
    apply negb_false_iff in Ht, Hp. apply Z.ltb_ge in Hl. apply Z.leb_gt in Hv. apply Z.eqb_neq in Ho. by split.
  - intros (-> & [Hid Ht Hl Hv Ho Hp]). exists tt. rewrite Ht, Hp. split_and!; try done.
    + by apply message_id_valid.
    + by apply Z.ltb_ge.
    + by apply Z.leb_gt.
    + by apply Z.eqb_neq.
Qed.

(** [normalizeFanoutTarget] with the length check of its loop. *)
Lemma normalizeFanoutTarget_ok topic t t' :
  normalizeFanoutTarget t = Ok t' ∧ len (FanoutDeliveryJobName (tg_Kind t') topic) ≤ 255
  ↔ t' = filled t ∧ target_ok topic (filled t).
Proof.
  unfold normalizeFanoutTarget. cbv zeta. rewrite !guard_ok. split.
  - intros [(Hk & [Hb Hi]%orb_false_iff & Hl & Hs & [= <-]) Hn]. split; [done|].
    apply negb_false_iff in Hk, Hs. apply Z.ltb_ge in Hi, Hl. by split.
  - intros [-> [Hk Hb Hi Hl Hs Hn]]. cbn in *. rewrite Hk, Hb, Hs. split; [|done]. split_and!; try done.
    + by apply Z.ltb_ge.
    + by apply Z.ltb_ge.
Qed.

Lemma normalize_targets_ok topic items seen ts : normalize_targets topic items seen = Ok ts ↔
  ts = filled <$> items ∧ Forall (target_ok topic) ts ∧ NoDup (target_key <$> ts)
  ∧ ∀ t, t ∈ ts → target_key t ∉ seen.
Proof.
  revert seen ts. induction items as [|item items IH]; intros seen ts; cbn [normalize_targets fmap list_fmap].
  { split; [intros [= <-]|intros (-> & _)]; [|done]. split_and!; [done|constructor|constructor|set_solver]. }
  split.
  - intros (t & Ht & Hrest)%res_bind_ok. apply guard_ok in Hrest as [Hl%Z.ltb_ge Hrest].
    apply guard_ok in Hrest as [Hs%bool_decide_eq_false Hrest].
    apply res_bind_ok in Hrest as (ts' & (-> & Hok & Hnd & Hseen)%IH & [= <-]).
    destruct (proj1 (normalizeFanoutTarget_ok topic item t) (conj Ht Hl)) as [-> Hto].
    split_and!; [done|by constructor| |set_solver]. cbn. apply NoDup_cons. split; [|done].
    intros (x & Hx & Hin)%list_elem_of_fmap. apply (Hseen _ Hin). rewrite Hx. set_solver.
  - intros (-> & [Hto Hok]%Forall_cons & Hnd & Hseen). cbn in Hnd. apply NoDup_cons in Hnd as [Hn Hnd].
    destruct (proj2 (normalizeFanoutTarget_ok topic item (filled item)) (conj eq_refl Hto)) as [Ht Hl].
    apply res_bind_ok. exists (filled item). split; [done|]. apply guard_ok. split; [by apply Z.ltb_ge|].
    apply guard_ok. split; [apply bool_decide_eq_false; set_solver|].
    apply res_bind_ok. exists (filled <$> items). split; [|done]. apply IH. split_and!; [done..|].
    intros t Hin [Hk%elem_of_singleton|Hk]%elem_of_union; [|set_solver].
    apply Hn. rewrite <- Hk. by apply list_elem_of_fmap_2.
Qed.

(** ** Addresses *)

Lemma token_no_nul d c : token_byte d c = true → negb (is_byte c "000") = true.
Proof. by destruct d, c as [[] [] [] [] [] [] [] []]. Qed.

Lemma kind_no_dot c : token_byte false c = true → negb (is_byte c ".") = true.
Proof. by destruct c as [[] [] [] [] [] [] [] []]. Qed.

Lemma token_bytes value d : validFanoutToken value d = true → all_bytes (token_byte d) value = true.
Proof. unfold validFanoutToken. by destruct (String.eqb value ""). Qed.

Lemma kind_key_inj k1 k2 i1 i2 : validFanoutToken k1 false = true → validFanoutToken k2 false = true →
  k1 +:+ nul +:+ i1 = k2 +:+ nul +:+ i2 → k1 = k2 ∧ i1 = i2.
Proof.
  intros H1%token_bytes H2%token_bytes. apply (cut_inj (λ c, negb (is_byte c "000"))); [done|..];
    by eapply all_bytes_mono; [apply token_no_nul|].
Qed.

Lemma target_key_inj topic t1 t2 : target_ok topic t1 → target_ok topic t2 →
  target_key t1 = target_key t2 → tg_Kind t1 = tg_Kind t2 ∧ tg_ID t1 = tg_ID t2.
Proof. intros H1 H2. apply kind_key_inj; [apply H1|apply H2]. Qed.

(** The capability name of a delivery spells its kind and topic. *)
Lemma FanoutDeliveryJobName_inj k1 k2 topic1 topic2 :
  validFanoutToken k1 false = true → validFanoutToken k2 false = true →
  FanoutDeliveryJobName k1 topic1 = FanoutDeliveryJobName k2 topic2 → k1 = k2 ∧ topic1 = topic2.
Proof.
  intros H1%token_bytes H2%token_bytes Heq. unfold FanoutDeliveryJobName in Heq.
  apply app_length_inj in Heq as [_ Heq]; [|done]. revert Heq.
  apply (cut_inj (λ c, negb (is_byte c "."))); [done|..]; by eapply all_bytes_mono; [apply kind_no_dot|].
Qed.

(** ** Normal form *)

#[global] Instance target_less_strict : StrictOrderB target_less.
Proof. apply _. Qed.

(** Distinct keys identify the targets of a snapshot. *)
Record targets_ok (topic : string) (ts : list FanoutTarget) : Prop := {
  tso_each : Forall (target_ok topic) ts;
  tso_keys : NoDup (target_key <$> ts)
}.

Lemma NoDup_fmap_elem {A B} (f : A → B) l a b : NoDup (f <$> l) → a ∈ l → b ∈ l → f a = f b → a = b.
Proof.
  intros Hnd [i Hi]%list_elem_of_lookup [j Hj]%list_elem_of_lookup Hf.
  assert (i = j) as -> by (eapply (NoDup_lookup _ _ _ (f a) Hnd); rewrite list_lookup_fmap, ?Hi, ?Hj; cbn; by rewrite ?Hf).
  congruence.
Qed.

Lemma targets_tie topic ts a b : targets_ok topic ts → a ∈ ts → b ∈ ts →
  target_less a b = false → target_less b a = false → a = b.
Proof.
  intros [_ Hnd] Ha Hb H1 H2. eapply NoDup_fmap_elem; [exact Hnd|done..|].
  destruct (lex_tie _ _ _ _ _ _ H1 H2) as (Hk & H3 & H4). unfold by_key in *.
  unfold target_key. by rewrite Hk, (key_tri _ _ H3 H4).
Qed.

Lemma targets_ok_perm topic ts ts' : ts ≡ₚ ts' → targets_ok topic ts → targets_ok topic ts'.
Proof. intros Hp [H1 H2]. split; by rewrite <- Hp. Qed.

Lemma normalizeFanoutSnapshot_ok s s' : normalizeFanoutSnapshot s = Ok s' ↔
  event_ok (sn_Event s) ∧ targets_ok (ev_Topic (sn_Event s)) (filled <$> sn_Targets s)
  ∧ s' = {| sn_Event := sn_Event s; sn_Targets := sort_slice target_less (filled <$> sn_Targets s);
            sn_AvailableAt := sn_AvailableAt s |}.
Proof.
  unfold normalizeFanoutSnapshot. split.
  - intros (e & [-> He]%normalizeFanoutEvent_ok & Hrest)%res_bind_ok.
    apply res_bind_ok in Hrest as (ts & (-> & Hok & Hnd & _)%normalize_targets_ok & [= <-]). done.
  - intros (He & [Hok Hnd] & ->). apply res_bind_ok. exists (sn_Event s). split; [by apply normalizeFanoutEvent_ok|].
    apply res_bind_ok. exists (filled <$> sn_Targets s). split; [|done]. apply normalize_targets_ok. split_and!; set_solver.
Qed.

Lemma filled_ok topic t : target_ok topic t → filled t = t.
Proof.
  intros [_ _ _ _ Hs _]. destruct t as [k i sn]. unfold filled. cbn in *. by destruct sn.
Qed.

Lemma targets_filled topic ts : targets_ok topic ts → filled <$> ts = ts.
Proof.
  intros [Hok _]. induction Hok as [|t ts Ht Hts IH]; [done|]. rewrite fmap_cons, IH. by rewrite (filled_ok topic).
Qed.

(** The normal form of a fan-out snapshot.  The order in which targets are
    listed is irrelevant, so retries under the event's key agree; the accepted
    targets are those given, with the default snapshot filled in, in strictly
    ascending order of kind and id, so none is there twice; and normalising
    again, as the dispatcher does, changes nothing. *)
Theorem normalizeFanoutSnapshot_canonical s s1 : normalizeFanoutSnapshot s = Ok s1 →
  (∀ targets, targets ≡ₚ sn_Targets s →
     normalizeFanoutSnapshot {| sn_Event := sn_Event s; sn_Targets := targets; sn_AvailableAt := sn_AvailableAt s |} = Ok s1)
  ∧ sn_Targets s1 ≡ₚ filled <$> sn_Targets s
  ∧ StronglySorted (λ a b, target_less a b = true) (sn_Targets s1)
  ∧ normalizeFanoutSnapshot s1 = Ok s1.
Proof.
  intros (He & Hts & ->)%normalizeFanoutSnapshot_ok. cbn [sn_Event sn_Targets sn_AvailableAt].
  set (topic := ev_Topic (sn_Event s)) in *. set (ts := filled <$> sn_Targets s) in *.
  pose proof (sort_slice_perm target_less ts) as Hp.
  pose proof (targets_ok_perm topic _ _ (symmetry Hp) Hts) as Hsort. split_and!.
  - intros targets Hperm. apply normalizeFanoutSnapshot_ok. cbn.
    assert (filled <$> targets ≡ₚ ts) as Hpt by (by apply fmap_Permutation).
    pose proof (targets_ok_perm topic _ _ (symmetry Hpt) Hts) as Hto. split_and!; [done..|].
    f_equal. apply (sort_slice_unique target_less); [intros a b; by apply (targets_tie topic)|by rewrite Hp, Hpt|apply sort_slice_sorted, _].
  - done.
  - apply sorted_strict; [apply sort_slice_sorted, _|apply (NoDup_fmap_1 target_key), Hsort|].
    intros a b. by apply (targets_tie topic).
  - apply normalizeFanoutSnapshot_ok. cbn. rewrite (targets_filled topic) by done. split_and!; [done..|].
    f_equal. apply (sort_slice_unique target_less); [intros a b; by apply (targets_tie topic)|done|apply sort_slice_sorted, _].
Qed.

(** ** What the codecs promise *)

(** [time.Time] is encodable when its year is in [0, 9999]: from 366 days
    before the zero time to the 3652059 days after it. *)
Definition json_time (t : Z) : Prop := - 366 * 86400 * Second ≤ t < 3652059 * 86400 * Second.

(** encoding/json rewrites what it encodes: [text] replaces the invalid UTF-8
    of a string, [compact] drops the white space of a raw message and escapes
    HTML characters in it. *)
Section image.
Context (text compact : string → string).

Definition event_image (e : FanoutEvent) : FanoutEvent :=
  {| ev_ID := ev_ID e; ev_Topic := text (ev_Topic e); ev_SchemaVersion := ev_SchemaVersion e;
     ev_Payload := compact (ev_Payload e); ev_OccurredAt := ev_OccurredAt e |}.
Definition target_image (t : FanoutTarget) : FanoutTarget :=
  {| tg_Kind := text (tg_Kind t); tg_ID := text (tg_ID t); tg_Snapshot := compact (tg_Snapshot t) |}.
Definition delivery_image (d : FanoutDelivery) : FanoutDelivery :=
  {| dl_ID := dl_ID d; dl_Event := event_image (dl_Event d); dl_Target := target_image (dl_Target d) |}.
Definition snapshot_image (s : fanoutSnapshot) : fanoutSnapshot :=
  {| sn_Event := event_image (sn_Event s); sn_Targets := target_image <$> sn_Targets s;
     sn_AvailableAt := sn_AvailableAt s |}.

Class FanoutCodec (L : FanoutLib) : Prop := {
  uuid_inj :: Inj (=) (=) (uuidString L);
  uuid_no_nul id : all_bytes (λ c, negb (is_byte c "000")) (uuidString L id) = true;
  snapshot_marshals s : json_Valid (ev_Payload (sn_Event s)) = true →
    Forall (λ t, json_Valid (tg_Snapshot t) = true) (sn_Targets s) →
    is_Ok (MarshalSnapshot L s) = true ↔ json_time (ev_OccurredAt (sn_Event s)) ∧ json_time (sn_AvailableAt s);
  delivery_marshals d : json_Valid (ev_Payload (dl_Event d)) = true → json_Valid (tg_Snapshot (dl_Target d)) = true →
    is_Ok (MarshalDelivery L d) = true ↔ json_time (ev_OccurredAt (dl_Event d));
  snapshot_decodes s p : MarshalSnapshot L s = Ok p → UnmarshalSnapshot L p = Ok (snapshot_image s);
  delivery_decodes d p : MarshalDelivery L d = Ok p → UnmarshalDelivery L p = Ok (delivery_image d);
  text_token s : all_bytes (token_byte true) s = true → text s = s;
  text_idem s : text (text s) = text s;
  compact_idem s : compact (compact s) = compact s;
  compact_valid s : json_Valid s = true → json_Valid (compact s) = true
}.
End image.

(** ** Encoding and decoding *)

Section codec.
Context (L : FanoutLib) (text compact : string → string) `{!FanoutCodec text compact L}.

Lemma token_text value d : validFanoutToken value d = true → text value = value.
Proof.
  intros H1%token_bytes. apply (text_token (L:=L) text compact), (all_bytes_mono (token_byte d)); [|done].
  intros c. unfold token_byte. destruct d; [done|]. cbn. rewrite orb_false_r. by intros ->.
Qed.

Lemma event_image_ok e : event_ok e → event_ok (event_image text compact e).
Proof.
  intros [Hid Ht Hl Hv Ho Hp]. split; cbn [event_image ev_ID ev_Topic ev_SchemaVersion ev_Payload ev_OccurredAt];
    rewrite ?(token_text _ true) by done; try done. by apply (compact_valid (L:=L) text compact).
Qed.

Lemma target_image_key t topic : target_ok topic t → text (tg_ID t) = tg_ID t →
  tg_Kind (target_image text compact t) = tg_Kind t ∧ tg_ID (target_image text compact t) = tg_ID t.
Proof. intros Ht Hid. cbn. by rewrite (token_text _ false) by apply Ht. Qed.

Lemma target_image_ok topic t : target_ok topic t → text (tg_ID t) = tg_ID t →
  target_ok topic (target_image text compact t).
Proof.
  intros Ht Hid. destruct (target_image_key t topic Ht Hid) as [Hk Hi], Ht as [? ? ? ? Hs ?].
  split; rewrite ?Hk, ?Hi; try done. by apply (compact_valid (L:=L) text compact).
Qed.

Lemma targets_image_ok topic ts : Forall (λ t, text (tg_ID t) = tg_ID t) ts → targets_ok topic ts →
  targets_ok topic (target_image text compact <$> ts)
  ∧ target_key <$> (target_image text compact <$> ts) = target_key <$> ts.
Proof.
  intros Hid [Hok Hnd].
  assert (target_key <$> (target_image text compact <$> ts) = target_key <$> ts) as Hkeys.
  { rewrite <- list_fmap_compose. apply list_fmap_ext. intros i t Hi%list_elem_of_lookup_2.
    rewrite Forall_forall in Hok, Hid. destruct (target_image_key t topic) as [Hk Hi']; [by apply Hok|by apply Hid|].
    unfold compose, target_key. by rewrite Hk, Hi'. }
  split; [|done]. split; [|by rewrite Hkeys]. apply Forall_fmap. rewrite Forall_forall in *.
  intros t Ht. apply target_image_ok; eauto.
Qed.

(** Sorting looks at kinds and ids only. *)
Lemma sorted_image topic ts : Forall (λ t, text (tg_ID t) = tg_ID t) ts → Forall (target_ok topic) ts →
  StronglySorted (not_after target_less) ts → StronglySorted (not_after target_less) (target_image text compact <$> ts).
Proof.
  intros Hid Hok. induction 1 as [|t l Hl IH Hall]; cbn; constructor.
  - apply Forall_cons in Hid as [_ ?], Hok as [_ ?]. auto.
  - apply Forall_fmap. rewrite Forall_forall in *. intros u Hu. specialize (Hall u Hu).
    destruct (target_image_key t topic) as [Hk Hi]; [apply Hok; set_solver|apply Hid; set_solver|].
    destruct (target_image_key u topic) as [Hk' Hi']; [apply Hok; set_solver|apply Hid; set_solver|].
    revert Hall. unfold compose, not_after, target_less, lex_by, lex, by_key. by rewrite Hk, Hi, Hk', Hi'.
Qed.

Lemma marshalled_time s topic p : MarshalSnapshot L s = Ok p →
  event_ok (sn_Event s) ∧ targets_ok topic (sn_Targets s) → json_time (ev_OccurredAt (sn_Event s)).
Proof.
  intros Hp [He [Hts _]]. refine (proj1 (proj1 (snapshot_marshals text compact s _ _) _)); [apply He| |by rewrite Hp].
  eapply Forall_impl; [exact Hts|]. by intros ? [].
Qed.

(** What [PutFanout] stores is what consumers read.  When an accepted
    snapshot is encoded and its target ids are valid UTF-8, the dispatcher
    decodes it to the same event and targets, up to the layout of raw JSON,
    without a normalisation error; every delivery it stages can be encoded,
    and its consumer decodes exactly that delivery. *)
Theorem fanout_roundtrip s s1 p : normalizeFanoutSnapshot s = Ok s1 → MarshalSnapshot L s1 = Ok p →
  Forall (λ t, text (tg_ID t) = tg_ID t) (sn_Targets s) →
  decode_snapshot L p = Ok (snapshot_image text compact s1)
  ∧ ∀ t, t ∈ sn_Targets (snapshot_image text compact s1) →
      ∃ q, MarshalDelivery L (delivery_of L (snapshot_image text compact s1) t) = Ok q
         ∧ DecodeFanoutDelivery L q = Ok (delivery_of L (snapshot_image text compact s1) t).
Proof.
  intros (He & Hts & ->)%normalizeFanoutSnapshot_ok Hp Hid. set (topic := ev_Topic (sn_Event s)) in *.
  pose proof (sort_slice_perm target_less (filled <$> sn_Targets s)) as Hperm.
  pose proof (targets_ok_perm topic _ _ (symmetry Hperm) Hts) as Hsort.
  assert (Forall (λ t, text (tg_ID t) = tg_ID t) (sort_slice target_less (filled <$> sn_Targets s))) as Hids.
  { rewrite Hperm. by apply Forall_fmap. }
  destruct (targets_image_ok topic _ Hids Hsort) as [Hio _].
  pose proof (event_image_ok _ He) as Hei.
  assert (text topic = topic) as Htopic by (apply (token_text _ true), He).
  split.
  - unfold decode_snapshot. rewrite (snapshot_decodes text compact _ _ Hp). cbn [res_map_err mbind res_bind].
    apply normalizeFanoutSnapshot_ok. cbn [snapshot_image sn_Event sn_Targets sn_AvailableAt event_image ev_Topic].
    fold topic. rewrite Htopic. rewrite (targets_filled topic) by done. split_and!; [done..|].
    unfold snapshot_image. cbn. f_equal. apply (sort_slice_unique target_less).
    + intros a b. by apply (targets_tie topic).
    + done.
    + eapply sorted_image; [done|apply Hsort|apply sort_slice_sorted, _].
  - intros t Ht. cbn [snapshot_image sn_Targets] in Ht. destruct Hio as [Hall _]. rewrite Forall_forall in Hall.
    pose proof (Hall t Ht) as Hto. apply list_elem_of_fmap in Ht as (t0 & -> & Ht0).
    assert (json_time (ev_OccurredAt (sn_Event s))) as Htime.
    { exact (marshalled_time _ topic _ Hp (conj He Hsort)). }
    set (d := delivery_of L _ _).
    assert (is_Ok (MarshalDelivery L d) = true) as Hq by (apply (delivery_marshals text compact); [apply Hei|apply Hto|exact Htime]).
    destruct (MarshalDelivery L d) as [q|e] eqn:Hm; [|done]. exists q. split; [done|].
    assert (delivery_image text compact d = d) as Hd.
    { subst d. unfold delivery_of, delivery_image, event_image, target_image. cbn. fold topic.
      rewrite !(text_idem (L:=L) text compact), !(compact_idem (L:=L) text compact). done. }
    unfold DecodeFanoutDelivery. rewrite (delivery_decodes text compact _ _ Hm), Hd. cbn [res_map_err mbind res_bind].
    assert (normalizeFanoutEvent (dl_Event d) = Ok (dl_Event d)) as -> by (by apply normalizeFanoutEvent_ok).
    destruct (proj2 (normalizeFanoutTarget_ok topic (dl_Target d) (dl_Target d))) as [-> _].
    { by rewrite (filled_ok topic) by exact Hto. }
    cbn [mbind res_bind]. subst d. cbn [delivery_of dl_ID dl_Event dl_Target]. rewrite N.eqb_refl. done.
Qed.

(** A delivery is identified by its event and target.  Two deliveries of
    accepted targets share a deduplication key only if they are of the same
    event, kind and target id, as long as the name-based UUIDs of the two do
    not collide; and they share a capability name only if they are of the same
    kind and topic. *)
Theorem delivery_identity e1 e2 t1 t2 : target_ok (ev_Topic e1) t1 → target_ok (ev_Topic e2) t2 →
  (FanoutDeliveryID L (ev_ID e1) (tg_Kind t1) (tg_ID t1) = FanoutDeliveryID L (ev_ID e2) (tg_Kind t2) (tg_ID t2) →
   delivery_name L (ev_ID e1) (tg_Kind t1) (tg_ID t1) = delivery_name L (ev_ID e2) (tg_Kind t2) (tg_ID t2)) →
  (fanoutDeliveryDeduplicationKey L (FanoutDeliveryID L (ev_ID e1) (tg_Kind t1) (tg_ID t1))
   = fanoutDeliveryDeduplicationKey L (FanoutDeliveryID L (ev_ID e2) (tg_Kind t2) (tg_ID t2)) →
   ev_ID e1 = ev_ID e2 ∧ target_key t1 = target_key t2 ∧ tg_ID t1 = tg_ID t2)
  ∧ (FanoutDeliveryJobName (tg_Kind t1) (ev_Topic e1) = FanoutDeliveryJobName (tg_Kind t2) (ev_Topic e2) →
     tg_Kind t1 = tg_Kind t2 ∧ ev_Topic e1 = ev_Topic e2).
Proof.
  intros H1 H2 Hsha. split; [|apply FanoutDeliveryJobName_inj; [apply H1|apply H2]].
  intros Heq. apply app_length_inj in Heq as [_ Heq]; [|done].
  apply (inj (uuidString L)), Hsha in Heq.
  apply (cut_inj (λ c, negb (is_byte c "000"))) in Heq as [Hid Heq]; [|done|apply (uuid_no_nul text compact)..].
  apply (inj (uuidString L)) in Hid. split; [done|].
  apply kind_key_inj in Heq as [Hk Hi]; [|apply H1|apply H2]. unfold target_key. by rewrite Hk, Hi.
Qed.

(** The exception the round trip makes is real: ids that are not valid UTF-8
    are accepted but not encoded faithfully, and when two of them become the
    same text the dispatcher rejects the stored snapshot for good. *)
Lemma invalid_utf8_rejected s s1 p t1 t2 : normalizeFanoutSnapshot s = Ok s1 → MarshalSnapshot L s1 = Ok p →
  t1 ∈ sn_Targets s1 → t2 ∈ sn_Targets s1 → tg_Kind t1 = tg_Kind t2 → tg_ID t1 ≠ tg_ID t2 →
  text (tg_ID t1) = text (tg_ID t2) → ∃ e, decode_snapshot L p = Err e.
Proof.
  intros _ Hp [i Hi]%list_elem_of_lookup [j Hj]%list_elem_of_lookup Hk Hne Heq.
  destruct (decode_snapshot L p) as [s2|e] eqn:Hd; [|by eauto]. exfalso. unfold decode_snapshot in Hd.
  rewrite (snapshot_decodes text compact _ _ Hp) in Hd. apply normalizeFanoutSnapshot_ok in Hd as (_ & [_ Hnd] & _).
  cbn [snapshot_image sn_Targets] in Hnd.
  assert (i = j) as ->; [|congruence].
  apply (NoDup_lookup _ _ _ (target_key (target_image text compact t1)) Hnd); rewrite !list_lookup_fmap, ?Hi, ?Hj;
    [done|]. cbn. unfold target_key. cbn. by rewrite Hk, Heq.
Qed.
End codec.

(** ** Delivery ids *)

Section dispatch.
Context (E : Env) (L : FanoutLib) (ts : Z → Z) (fp : string → SchemaVersion → string → Z → string)
  (U : UniqueJobsRepository).
Context `{!UniqueRepository ts fp U}.
Context (Hinj : ∀ i j, newJobID E i = newJobID E j → i = j).
Context (Hreg : ∀ t d, registry_ok d → registry_ok (others E t d)).
Context (Hfresh : ∀ t d n, fresh_from E n d → fresh_from E n (others E t d)).

(** The delivery of a target is registered under its key, with its content. *)
Definition registered_delivery (s : fanoutSnapshot) (d : Db) (t : FanoutTarget) : Prop :=
  ∃ p row, MarshalDelivery L (delivery_of L s t) = Ok p
    ∧ keys_t d !! fanoutDeliveryDeduplicationKey L (dl_ID (delivery_of L s t)) = Some row
    ∧ ik_fingerprint row = fp (FanoutDeliveryJobName (tg_Kind t) (ev_Topic (sn_Event s)))
                              (ev_SchemaVersion (sn_Event s)) p (sn_AvailableAt s).

(** [PutFanout] through the deduplicated put. *)
Lemma wp_call_unique id t key name v payload at_ Q w :
  wp (call E (CreateJobVersionedUnique U id t key name v payload at_)) Q w
  = wp (call E (CreateJobVersionedUniqueResult U id t key name v payload at_)) (λ r, Q (u_JobID <$> r)) w.
Proof.
  unfold wp, call, tick, on_db, execute, mbind, M_bind, CreateJobVersionedUnique. cbn.
  destruct (CreateJobVersionedUniqueResult U _ _ _ _ _ _ _ _) as [[r|e] d]; by destruct (fault E (w_tick w)) as [[? []]|].
Qed.

Lemma wp_put_unique f key name v payload at_ Q w :
  wp (id ← NewJobID E; t ← now E; map_error f (call E (CreateJobVersionedUniqueResult U id t key name v payload at_)))
     (λ r, Q (u_JobID <$> r)) w →
  wp (id ← NewJobID E; t ← now E; map_error f (call E (CreateJobVersionedUnique U id t key name v payload at_))) Q w.
Proof.
  unfold NewJobID. wp_simpl. rewrite wp_call_unique. intros Hput. eapply wp_mono; [exact Hput|]. by intros [].
Qed.

(** What is registered under the key of an event. *)
Definition stored_snapshot (event : FanoutEvent) (targets : list FanoutTarget) (availableAt : Z) (row : IdemKey) : Prop :=
  ∃ s p, normalizeFanoutSnapshot {| sn_Event := event; sn_Targets := targets; sn_AvailableAt := availableAt |} = Ok s
    ∧ MarshalSnapshot L s = Ok p
    ∧ ik_fingerprint row = fp FanoutDispatcherJobName FanoutDispatcherSchemaVersion p availableAt.

Lemma PutFanout_spec S event targets availableAt w : fanoutJobsRepo (s_options S) = Some U → producing E w →
  wp (PutFanout E L S event targets availableAt) (λ r w', producing E w' ∧ ∀ id, r = Ok id →
    ∃ row t, keys_t (w_db w') !! fanoutEventDeduplicationKey L (ev_ID event) = Some row ∧ ik_job_id row = id
      ∧ stored_snapshot event targets availableAt row
      ∧ ∀ row', keys_t (others E t (w_db w)) !! fanoutEventDeduplicationKey L (ev_ID event) = Some row' → row' = row) w.
Proof.
  intros HU Hw. unfold PutFanout. rewrite HU.
  destruct (normalizeFanoutSnapshot _) as [s|e] eqn:Hs; [|by wp_simpl].
  destruct (MarshalSnapshot L s) as [p|e] eqn:Hp; [|by wp_simpl].
  pose proof (proj1 (normalizeFanoutSnapshot_ok _ _) Hs) as (_ & _ & Heq). cbn in Heq.
  assert (sn_Event s = event ∧ sn_AvailableAt s = availableAt) as [Hev Hat] by (by subst s).
  rewrite Hev, Hat. clear Heq.
  apply wp_put_unique. eapply wp_mono; [by apply (put_call_spec E ts fp U Hinj Hreg Hfresh)|].
  intros r w' (Hw' & _ & d & -> & Hr & Hold). split; [done|]. intros id Hid.
  destruct r as [res|e]; [|done]. injection Hid as <-. destruct Hr as (row & Hrow & Hjob & Hfp & _).
  exists row. eexists. split_and!; [done|done|by exists s, p|]. intros row' Hrow'.
  destruct (Hold _ Hrow') as [_ Hk]. congruence.
Qed.

(** Puts only add: keys and jobs that were there stay. *)
Record extends (d d' : Db) : Prop := {
  ex_jobs : jobs_t d ⊆ jobs_t d';
  ex_keys : keys_t d ⊆ keys_t d';
  ex_failed : failed_t d' = failed_t d
}.

#[local] Instance extends_preorder : PreOrder extends.
Proof. split; [done|]. intros d1 d2 d3 [] []. split; [by etrans..|congruence]. Qed.

Lemma registered_mono s d d' t : extends d d' → registered_delivery s d t → registered_delivery s d' t.
Proof. intros [_ Hk _] (p & row & Hp & Hr & Hf). exists p, row. split_and!; [done|by eapply lookup_weaken|done]. Qed.

Lemma staged_extends id now key name v payload at_ d : fresh_id id d → keys_t d !! key = None →
  extends d (staged ts (fp name v payload at_) id now key name v payload at_ d).
Proof. intros (_ & Hj & _) Hk. split; cbn; [by apply insert_subseteq..|done]. Qed.

(** What one put of the dispatcher leaves, whether or not its answer arrives. *)
Lemma create_effect w w' now key name v payload at_ r d' : producing E w → (w_tick w < w_tick w')%nat → w_db w' = d' →
  CreateJobVersionedUnique U (newJobID E (w_tick w)) now key name v payload at_ (w_db w) = (r, d') →
  producing E w' ∧ extends (w_db w) d'
  ∧ (is_Ok r = true → ∃ row, keys_t d' !! key = Some row ∧ ik_fingerprint row = fp name v payload at_)
  ∧ (∀ row, keys_t (w_db w) !! key = Some row → d' = w_db w).
Proof.
  intros [Hr Hf] Htick Hd Hop. unfold CreateJobVersionedUnique in Hop.
  destruct (CreateJobVersionedUniqueResult U _ _ _ _ _ _ _ _) as [r0 d0] eqn:Hres. injection Hop as <- <-.
  apply (put_answers ts fp U) in Hres; [|done|by apply Hf].
  assert (d0 = w_db w → producing E w') as Hsame.
  { intros ->. split; rewrite Hd; [done|]. eapply fresh_from_le; [|exact Hf]. lia. }
  destruct Hres as [Hkey Hv Hn|row Hrow Hfp|e He].
  - split_and!; [eapply producing_staged; try done|apply staged_extends; [by apply Hf|done]| |].
    + intros _. eexists. cbn. by rewrite lookup_insert_eq.
    + intros row Hrow. congruence.
  - split_and!; [by apply Hsame|done|by eauto|done].
  - split_and!; [by apply Hsame|done|done|done].
Qed.

(** Within the transaction nobody else moves.  The loop either registers every
    target or stops at an error; when all were registered before, it changes
    nothing. *)
Lemma stage_deliveries_spec s targets w : producing E w →
  wp (stage_deliveries E L U s targets) (λ r w', producing E w' ∧ (w_tick w ≤ w_tick w')%nat ∧ extends (w_db w) (w_db w')
    ∧ (r = Ok tt → Forall (registered_delivery s (w_db w')) targets)
    ∧ (Forall (registered_delivery s (w_db w)) targets → w_db w' = w_db w)) w.
Proof.
  revert w. induction targets as [|t targets IH]; intros w Hw; cbn [stage_deliveries].
  { wp_simpl. split_and!; [done|done|done|by constructor|done]. }
  destruct (MarshalDelivery L (delivery_of L s t)) as [p|e] eqn:Hp; wp_simpl; [|by split_and!].
  unfold NewJobID. wp_simpl. set (w1 := bump (bump (bump w))).
  apply wp_call_tx; cbn [w_db bump]; fold w1.
  - intros r d' Hop. destruct (create_effect w (set_db d' w1) _ _ _ _ _ _ _ _ Hw ltac:(cbn; lia) eq_refl Hop)
      as (Hw' & Hex & Hok & Hold). destruct r as [id|e]; cbn.
    + eapply wp_mono; [by apply IH|]. cbn [w_db set_db]. intros r w' (Hw2 & Htick & Hex2 & Hall & Hsame). split_and!.
      * done.
      * cbn in Htick. lia.
      * by etrans.
      * intros Hr. constructor; [|by apply Hall]. eapply registered_mono; [exact Hex2|].
        destruct (Hok eq_refl) as (row & Hrow & Hfp). by exists p, row.
      * intros [(p' & row & _ & Hrow & _) Hrest]%Forall_cons. rewrite Hsame; [by eapply Hold|].
        eapply Forall_impl; [exact Hrest|]. intros t' Ht'. by eapply registered_mono.
    + split_and!; [done|lia|done|done|]. intros [(p' & row & _ & Hrow & _) _]%Forall_cons. by eapply Hold.
  - intros r d' e Hop. destruct (create_effect w (set_db d' w1) _ _ _ _ _ _ _ _ Hw ltac:(cbn; lia) eq_refl Hop)
      as (Hw' & Hex & _ & Hold). split; cbn.
    + split_and!; [done|lia|done|done|]. intros [(p' & row & _ & Hrow & _) _]%Forall_cons. by eapply Hold.
    + split_and!; [|lia|done|done|done]. destruct Hw as [Hr Hf]. split; [done|]. eapply fresh_from_le; [|exact Hf]. cbn. lia.
Qed.

(** One run of the dispatcher. *)
Lemma Handle_spec payload s w : decode_snapshot L payload = Ok s → producing E w →
  wp (Handle E L U true payload) (λ r w', let d := others E (w_tick w) (w_db w) in
    let all := Forall (registered_delivery s (w_db w')) (sn_Targets s) in
    producing E w' ∧ extends d (w_db w') ∧ (r = Ok tt → all) ∧ (w_db w' = d ∨ all)
    ∧ (Forall (registered_delivery s d) (sn_Targets s) → w_db w' = d)) w.
Proof.
  intros Hs [Hr Hf]. unfold Handle. rewrite Hs. apply wp_RunInTx_atomic.
  assert (∀ w', (w_tick w ≤ w_tick w')%nat → w_db w' = others E (w_tick w) (w_db w) → producing E w') as Hback.
  { intros w' Ht Hd. split; rewrite Hd; [by apply Hreg|]. eapply fresh_from_le; [exact Ht|by apply Hfresh]. }
  eapply wp_mono; [apply stage_deliveries_spec, Hback; [cbn; lia|done]|].
  cbn [w_db w_tick set_db bump]. intros [[]|e] w1 (Hw1 & Ht & Hex & Hall & Hsame); cbn.
  - assert (producing E (bump w1)) as Hb.
    { destruct Hw1 as [H1 H2]. split; [done|]. eapply fresh_from_le; [|exact H2]. cbn. lia. }
    split; [by split_and!; auto|]. intros e. split; (split_and!; [|done|done|auto|auto]); [done|apply Hback; [cbn; lia|done]].
  - split_and!; [apply Hback; [cbn; lia|done]|done|done|by left|done].
Qed.

(** The snapshot of an event is immutable.  Once a put for an event was
    acknowledged and as long as its key is kept, every later acknowledged put
    for the event answers the same job, and only when its normalised snapshot,
    encoded, has the content already stored: a retry cannot change the targets
    that were eligible. *)
Theorem put_fanout_immutable S ev1 ts1 at1 ev2 ts2 at2 w id1 w1 wm id2 w2 :
  fanoutJobsRepo (s_options S) = Some U → ev_ID ev1 = ev_ID ev2 →
  (∀ t row, keys_t (w_db w1) !! fanoutEventDeduplicationKey L (ev_ID ev1) = Some row →
     keys_t (others E t (w_db wm)) !! fanoutEventDeduplicationKey L (ev_ID ev1) = Some row) →
  producing E w → producing E wm →
  PutFanout E L S ev1 ts1 at1 w = (Ok id1, w1) → PutFanout E L S ev2 ts2 at2 wm = (Ok id2, w2) →
  id1 = id2 ∧ ∃ row, ik_job_id row = id1 ∧ stored_snapshot ev1 ts1 at1 row ∧ stored_snapshot ev2 ts2 at2 row.
Proof.
  intros HU Hev Hkeep Hw Hwm Hrun1 Hrun2.
  destruct (wp_run _ _ _ _ _ (PutFanout_spec S ev1 ts1 at1 w HU Hw) Hrun1) as [_ H1].
  destruct (wp_run _ _ _ _ _ (PutFanout_spec S ev2 ts2 at2 wm HU Hwm) Hrun2) as [_ H2].
  destruct (H1 _ eq_refl) as (row & t & Hrow & Hid & Hs & _). destruct (H2 _ eq_refl) as (row2 & t2 & Hrow2 & Hid2 & Hs2 & Hold).
  rewrite <- Hev in Hold. rewrite <- (Hold _ (Hkeep t2 _ Hrow)) in *. split; [congruence|by exists row].
Qed.

(** C31: one dispatch of a fan-out snapshot in an atomic transaction is all or
    nothing, and the dispatcher may be run again.  Success means that every
    target of the decoded snapshot has its delivery registered with its
    content; a failure leaves the tables untouched, or, when only the commit's
    answer was lost, all deliveries registered.  Nothing that was queued is
    touched, and a run on tables where all deliveries are registered, whatever
    it answers, adds nothing. *)
Theorem dispatch_all_or_nothing payload w r w' : producing E w → Handle E L U true payload w = (r, w') →
  match decode_snapshot L payload with
  | Err _ => is_Ok r = false ∧ w' = w
  | Ok s =>
      let d := others E (w_tick w) (w_db w) in
      let all := Forall (registered_delivery s (w_db w')) (sn_Targets s) in
      extends d (w_db w')
      ∧ (if is_Ok r then all else w_db w' = d ∨ all)
      ∧ (Forall (registered_delivery s d) (sn_Targets s) → w_db w' = d)
  end.
Proof.
  intros Hw Hrun. destruct (decode_snapshot L payload) as [s|e] eqn:Hs.
  - destruct (wp_run _ _ _ _ _ (Handle_spec payload s w Hs Hw) Hrun) as (_ & Hex & Hok & Hor & Hsame).
    split_and!; [done| |done]. destruct r as [[]|e]; [by apply Hok|done].
  - unfold Handle in Hrun. rewrite Hs in Hrun. by injection Hrun as <- <-.
Qed.
End dispatch.
