(* ===== verification/FanoutFlow.v ===== *)
(** * Fan-out from the event to its consumers

    A put of an event, the row it leaves for the dispatcher, any number of runs
    of the dispatcher on that row, and what the consumers of the targets find:
    the parts of outbox/fanout.go put together. *)

From S2P Require Import Prelude GoTime Errors Models Batch Fingerprint Sql Repo Stats Options Runtime Api Json Fanout.
Open Scope Z_scope.

(** A worker that gets the row again, after a failure, a lost answer or an
    expired lease, runs the handler again. *)
Fixpoint dispatches (E : Env) (L : FanoutLib) (U : UniqueJobsRepository) (payload : string) (n : nat) : M (list (result unit)) :=
  match n with
  | O => mret []
  | S n => r ← Handle E L U true payload; rs ← dispatches E L U payload n; mret (r :: rs)
  end.

Section flow.
Context (E : Env) (L : FanoutLib) (ts : Z → Z) (fp : string → SchemaVersion → string → Z → string)
  (U : UniqueJobsRepository) (text compact : string → string).
Context `{!UniqueRepository ts fp U, !FanoutCodec text compact L}.
Context (Hinj : ∀ i j, newJobID E i = newJobID E j → i = j).
Context (Hreg : ∀ t d, registry_ok d → registry_ok (others E t d)).
Context (Hfresh : ∀ t d n, fresh_from E n d → fresh_from E n (others E t d)).

(** The others may do anything to the tables but prune the keys. *)
Context (Hkeep : ∀ t d, keys_t d ⊆ keys_t (others E t d)).

(** What the others alone can make of the tables. *)
Definition moved : Db → Db → Prop := rtc (λ d d', ∃ t, d' = others E t d).

Definition delivery_key (event : FanoutEvent) (t : FanoutTarget) : string :=
  fanoutDeliveryDeduplicationKey L (FanoutDeliveryID L (ev_ID event) (tg_Kind t) (tg_ID t)).

(** A job was staged for the target, under its key, with a payload its consumer
    decodes to the event and the target, up to the layout of raw JSON. *)
Definition staged_for (event : FanoutEvent) (availableAt : Z) (d : Db) (t : FanoutTarget) : Prop :=
  ∃ q row, keys_t d !! delivery_key event t = Some row
    ∧ ik_fingerprint row = fp (FanoutDeliveryJobName (tg_Kind t) (ev_Topic event)) (ev_SchemaVersion event) q availableAt
    ∧ DecodeFanoutDelivery L q
      = Ok {| dl_ID := FanoutDeliveryID L (ev_ID event) (tg_Kind t) (tg_ID t);
              dl_Event := event_image text compact event; dl_Target := target_image text compact (filled t) |}.

Lemma registered_kept s t d target :
  registered_delivery L fp s d target → registered_delivery L fp s (others E t d) target.
Proof.
  intros (p & row & Hp & Hrow & Hfp). exists p, row. split_and!; [done| |done]. by eapply lookup_weaken, Hkeep.
Qed.

Lemma registered_moved s d d' : moved d d' →
  Forall (registered_delivery L fp s d) (sn_Targets s) → Forall (registered_delivery L fp s d') (sn_Targets s).
Proof.
  induction 1 as [|d1 d2 d3 [t ->] _ IH]; [done|]. intros Hall. apply IH. eapply Forall_impl; [exact Hall|].
  intros target. apply registered_kept.
Qed.

Lemma dispatches_spec payload s n w : decode_snapshot L payload = Ok s → producing E w →
  wp (dispatches E L U payload n) (λ rs w', let all d := Forall (registered_delivery L fp s d) (sn_Targets s) in
    producing E w' ∧ (Ok tt ∈ rs → all (w_db w')) ∧ (moved (w_db w) (w_db w') ∨ all (w_db w'))
    ∧ (all (w_db w) → moved (w_db w) (w_db w'))) w.
Proof.
  intros Hs. revert w. induction n as [|n IH]; intros w Hw; cbn [dispatches]; wp_simpl.
  { split_and!; [done|set_solver|left; reflexivity|reflexivity]. }
  eapply wp_mono; [by apply (Handle_spec E L ts fp U Hinj Hreg Hfresh payload s)|].
  intros r w1 (Hw1 & _ & Hok & Hor & Hsame). wp_simpl.
  eapply wp_mono; [by apply IH|]. intros rs w2 (Hw2 & Hok2 & Hor2 & Hsame2). wp_simpl.
  assert (moved (w_db w) (others E (w_tick w) (w_db w))) as Hstep by (apply rtc_once; eauto).
  split_and!; [done|..].
  - intros [Hr|Hin]%elem_of_cons; [|by apply Hok2]. pose proof (Hok (eq_sym Hr)) as Hall. eapply registered_moved; eauto.
  - destruct Hor2 as [Hm|Hall]; [|by right]. destruct Hor as [Heq|Hall]; [left; rewrite Heq in Hm; by etrans|right].
    by eapply registered_moved.
  - intros Hall. pose proof (registered_moved s _ _ Hstep Hall) as Hd. rewrite (Hsame Hd) in *. etrans; [exact Hstep|].
    by apply Hsame2.
Qed.

(** What a put leaves when its event is new. *)
Lemma PutFanout_stages S event targets availableAt w : fanoutJobsRepo (s_options S) = Some U → producing E w →
  (∀ t, keys_t (others E t (w_db w)) !! fanoutEventDeduplicationKey L (ev_ID event) = None) →
  wp (PutFanout E L S event targets availableAt) (λ r w', ∀ id, r = Ok id → ∃ s p created,
    normalizeFanoutSnapshot {| sn_Event := event; sn_Targets := targets; sn_AvailableAt := availableAt |} = Ok s
    ∧ MarshalSnapshot L s = Ok p
    ∧ jobs_t (w_db w') !! id = Some (queued ts id created (fanoutEventDeduplicationKey L (ev_ID event))
        FanoutDispatcherJobName FanoutDispatcherSchemaVersion p availableAt)) w.
Proof.
  intros HU Hw Hnew. unfold PutFanout. rewrite HU.
  destruct (normalizeFanoutSnapshot _) as [s|e] eqn:Hs; [|by wp_simpl].
  destruct (MarshalSnapshot L s) as [p|e] eqn:Hp; [|by wp_simpl].
  pose proof (proj1 (normalizeFanoutSnapshot_ok _ _) Hs) as (_ & _ & Heq). cbn in Heq.
  assert (sn_Event s = event ∧ sn_AvailableAt s = availableAt) as [-> ->] by (by subst s). clear Heq.
  apply (wp_put_unique E U). eapply wp_mono; [by apply (put_call_spec E ts fp U Hinj Hreg Hfresh)|].
  intros r w' (_ & _ & d & -> & Hr & _) id Hid. destruct r as [res|e]; [|done]. injection Hid as <-.
  destruct Hr as (row & _ & _ & _ & Hc). destruct (u_Created res); [|destruct Hc; congruence].
  destruct Hc as (_ & created & Hj). by exists s, p, created.
Qed.

(** The registered deliveries of the stored snapshot are those of the caller's
    targets. *)
Lemma staged_for_targets event targets availableAt s p d :
  normalizeFanoutSnapshot {| sn_Event := event; sn_Targets := targets; sn_AvailableAt := availableAt |} = Ok s →
  MarshalSnapshot L s = Ok p → Forall (λ t, text (tg_ID t) = tg_ID t) targets →
  Forall (registered_delivery L fp (snapshot_image text compact s) d) (sn_Targets (snapshot_image text compact s)) →
  Forall (staged_for event availableAt d) targets.
Proof.
  intros Hs Hp Hids Hall. destruct (fanout_roundtrip L text compact _ s p Hs Hp Hids) as [_ Hdec].
  pose proof (proj1 (normalizeFanoutSnapshot_ok _ _) Hs) as (He & [Hto _] & Heq). cbn [sn_Event sn_Targets sn_AvailableAt] in He, Hto, Heq. subst s.
  rewrite Forall_forall in Hall, Hids |- *. intros t Ht.
  set (img := snapshot_image text compact _) in *. set (t' := target_image text compact (filled t)).
  assert (t' ∈ sn_Targets img) as Ht'.
  { unfold img, t'. cbn [snapshot_image sn_Targets]. apply list_elem_of_fmap_2. rewrite (sort_slice_perm target_less). by apply list_elem_of_fmap_2. }
  destruct (Hdec t' Ht') as (q & Hq & Hread). destruct (Hall t' Ht') as (q' & row & Hq' & Hrow & Hfp).
  assert (q' = q) as -> by congruence.
  assert (target_ok (ev_Topic event) (filled t)) as Hok by (rewrite Forall_forall in Hto; by apply Hto, list_elem_of_fmap_2).
  assert (text (tg_Kind t) = tg_Kind t) as Hk by (apply (token_text L text compact _ false), Hok).
  assert (text (ev_Topic event) = ev_Topic event) as Htp by (apply (token_text L text compact _ true), He).
  pose proof (Hids t Ht) as Hi. cbn in Hrow, Hfp. rewrite Hk, Hi in Hrow. rewrite Hk, Htp in Hfp.
  exists q, row. split_and!; [exact Hrow|exact Hfp|]. rewrite Hread. unfold delivery_of. cbn. by rewrite Hk, Hi.
Qed.

Lemma distinct_keys event targets : targets_ok (ev_Topic event) (filled <$> targets) →
  (∀ a b, a ∈ targets → b ∈ targets →
     FanoutDeliveryID L (ev_ID event) (tg_Kind a) (tg_ID a) = FanoutDeliveryID L (ev_ID event) (tg_Kind b) (tg_ID b) →
     delivery_name L (ev_ID event) (tg_Kind a) (tg_ID a) = delivery_name L (ev_ID event) (tg_Kind b) (tg_ID b)) →
  NoDup (delivery_key event <$> targets).
Proof.
  intros [Hto Hnd] Hsha. rewrite <- list_fmap_compose in Hnd. rewrite Forall_fmap, Forall_forall in Hto.
  apply NoDup_fmap_2_strong; [|by eapply NoDup_fmap_1]. intros a b Ha Hb Hkey.
  destruct (proj1 (delivery_identity L text compact event event (filled a) (filled b) (Hto a Ha) (Hto b Hb)
    (Hsha a b Ha Hb)) Hkey) as (_ & Hk & _).
  exact (NoDup_fmap_elem (target_key ∘ filled) targets a b Hnd Ha Hb Hk).
Qed.

(** C32: a new event reaches all of its targets, each once.  When the put of an
    event that was not put before is acknowledged, its row is queued for the
    dispatcher; run on that row as often as it takes, the dispatcher has staged
    a job for every target of the caller's list as soon as one run succeeded,
    under a key of its own and with a payload that its consumer decodes to the
    event and the target.  However the runs end, the tables are never left with
    a part of the targets: unless all are staged, only the other clients
    changed anything; and once all are staged, further runs add nothing.
    Assumed are ids in valid UTF-8, name-based ids that do not collide, and
    that no key is pruned in between. *)
Theorem event_reaches_targets S event targets availableAt w id w1 n w2 rs w3 :
  fanoutJobsRepo (s_options S) = Some U → producing E w →
  (∀ t, keys_t (others E t (w_db w)) !! fanoutEventDeduplicationKey L (ev_ID event) = None) →
  Forall (λ t, text (tg_ID t) = tg_ID t) targets →
  (∀ a b, a ∈ targets → b ∈ targets →
     FanoutDeliveryID L (ev_ID event) (tg_Kind a) (tg_ID a) = FanoutDeliveryID L (ev_ID event) (tg_Kind b) (tg_ID b) →
     delivery_name L (ev_ID event) (tg_Kind a) (tg_ID a) = delivery_name L (ev_ID event) (tg_Kind b) (tg_ID b)) →
  PutFanout E L S event targets availableAt w = (Ok id, w1) → producing E w2 →
  ∃ job, jobs_t (w_db w1) !! id = Some job ∧ Name job = FanoutDispatcherJobName ∧ AvailableAt job = ts availableAt
  ∧ NoDup (delivery_key event <$> targets)
  ∧ (dispatches E L U (Payload job) n w2 = (rs, w3) →
     let all d := Forall (staged_for event availableAt d) targets in
     (Ok tt ∈ rs → all (w_db w3)) ∧ (all (w_db w3) ∨ moved (w_db w2) (w_db w3))
     ∧ (Ok tt ∈ rs → ∀ m rs' w4, dispatches E L U (Payload job) m w3 = (rs', w4) → moved (w_db w3) (w_db w4))).
Proof.
  intros HU Hw Hnew Hids Hsha Hput Hw2.
  destruct (wp_run _ _ _ _ _ (PutFanout_stages S event targets availableAt w HU Hw Hnew) Hput id eq_refl)
    as (s & p & created & Hs & Hp & Hjob).
  eexists. split; [exact Hjob|]. cbn [queued Name AvailableAt Payload]. split; [done|]. split; [done|]. split.
  { pose proof (proj1 (normalizeFanoutSnapshot_ok _ _) Hs) as (_ & Hto & _). by eapply distinct_keys. }
  destruct (fanout_roundtrip L text compact _ s p Hs Hp Hids) as [Hdec _]. intros Hrun.
  pose proof (staged_for_targets event targets availableAt s p) as Hfor.
  destruct (wp_run _ _ _ _ _ (dispatches_spec p _ n w2 Hdec Hw2) Hrun) as (Hw3 & Hok & Hor & _). split_and!.
  - intros Hin. by apply Hfor, Hok.
  - destruct Hor as [Hm|Hall]; [by right|left; by apply Hfor].
  - intros Hin m rs' w4 Hrun2. destruct (wp_run _ _ _ _ _ (dispatches_spec p _ m w3 Hdec Hw3) Hrun2) as (_ & _ & _ & Hsame).
    by apply Hsame, Hok.
Qed.
End flow.
