(* ===== verification/LeaseManager.v ===== *)
(** * The batch lease manager

    outbox/service_batch.go, [batchLeaseManager]: the ledger of the leases of
    one claimed batch, extended by a heartbeat and before every handler and
    finalization.  Its lock makes each operation below one critical section;
    [lock] lets the heartbeat serve any number of ticks before the section. *)

From S2P Require Import Prelude GoTime Errors Models Batch Sql Repo Runtime.
Open Scope Z_scope.

(** The loop [if earliest.IsZero() || until.Before(earliest)]. *)
Definition earlier (earliest until : Z) : Z :=
  if IsZero earliest || Before until earliest then until else earliest.
Fixpoint earliest_from (earliest : Z) (l : list Z) : Z :=
  match l with [] => earliest | u :: l => earliest_from (earlier earliest u) l end.

Definition ledger_values (o : gmap JobID Z) : list Z := (map_to_list o).*2.

(** [job.ReservedAt.Time]: the zero time when the column is NULL. *)
Definition reserved_time (j : Job) : Z := default zeroTime (ReservedAt j).

(** The entries of [orderedIDs] still outstanding, with their deadlines. *)
Fixpoint outstanding_in (ordered : list JobID) (o : gmap JobID Z) : list (JobID * Z) :=
  match ordered with
  | [] => []
  | id :: ordered =>
      match o !! id with
      | Some u => (id, u) :: outstanding_in ordered o
      | None => outstanding_in ordered o
      end
  end.

Fixpoint add_all (o : gmap JobID Z) (ids : list JobID) (until : Z) : gmap JobID Z :=
  match ids with [] => o | id :: ids => add_all (<[id := until]> o) ids until end.

Section manager.
Context (E : Env) (R : JobsRepository).

Definition empty_manager (leaseToken : LeaseToken) (reserveFor : Z) : Manager :=
  mkManager leaseToken reserveFor [] ∅ zeroTime None None true.

(** One claimed job entering the ledger. *)
Definition add_job (job : Job) (m : Manager) : Manager :=
  set_earliest (earlier (m_earliest m) (reserved_time job))
    (set_outstanding (<[ID job := reserved_time job]> (m_outstanding m))
       (set_ordered (m_ordered m ++ [ID job]) m)).

Fixpoint add_jobs (jobs : list Job) (m : Manager) : Manager :=
  match jobs with [] => m | job :: jobs => add_jobs jobs (add_job job m) end.

Definition newBatchLeaseManager (jobs : list Job) (leaseToken : LeaseToken) (reserveFor : Z) : M unit :=
  modify (set_mgr (add_jobs jobs (empty_manager leaseToken reserveFor))).

Definition recomputeEarliestLocked : M unit :=
  modify_mgr (λ m, set_earliest (earliest_from zeroTime (ledger_values (m_outstanding m))) m).

Definition setError (e : err) : M unit := modify_mgr (set_m_err (Some e)).

Definition failLeaseLocked {A} (e : err) : M (result A) :=
  _ ← setError e; _ ← cancelBatch E e; error e.

Definition checkLeasesLocked (now : Z) : M (result unit) :=
  m ← gets w_mgr;
  if Before now (m_earliest m) then ok tt
  else if existsb (λ until, negb (After until now)) (ledger_values (m_outstanding m))
       then failLeaseLocked (wrapAs ErrLeaseLost "expired lease")
       else _ ← recomputeEarliestLocked; ok tt.

Definition ensureLeasesLocked (ctx : Ctx) (requiredUntil targetUntil : Z) : M (result unit) :=
  now0 ← now E;
  _ ←? checkLeasesLocked now0;
  m ← gets w_mgr;
  if negb (Before (m_earliest m) requiredUntil) then ok tt
  else
    let rows := outstanding_in (m_ordered m) (m_outstanding m) in
    let earliest := earliest_from zeroTime rows.*2 in
    let jobIDs := (filter (λ r, Before r.2 requiredUntil = true) rows).*1 in
    _ ← modify_mgr (set_earliest earliest);
    match jobIDs with
    | [] => ok tt
    | _ =>
        let targetUntil := if Before targetUntil requiredUntil then requiredUntil else targetUntil in
        let until := Add (Truncate targetUntil Millisecond) Millisecond in
        let extendCtx := WithDeadline ctx earliest in
        r ← call E (ExtendJobLeases R jobIDs (m_token m) now0 until);
        r ← match r with
            | Err e => mret (Err e)
            | Ok affected =>
                c ← cause E extendCtx;
                mret (match c with Some e => Err e | None => Ok affected end)
            end;
        match r with
        | Err e =>
            failLeaseLocked (EJoin [ESentinel ErrLeaseLost; wrapf "extend reservation batch leases" e])
        | Ok affected =>
            if negb (affected =? Z.of_nat (length jobIDs))
            then failLeaseLocked (wrapAs ErrLeaseLost "extended some of the reservation batch leases")
            else
              _ ← modify_mgr (λ m, set_outstanding (add_all (m_outstanding m) jobIDs until) m);
              _ ← recomputeEarliestLocked;
              now1 ← now E;
              checkLeasesLocked now1
        end
    end.

Definition extend (ctx : Ctx) : M (result unit) :=
  m ← gets w_mgr;
  t ← now E;
  let target := Add t (m_reserveFor m) in
  ensureLeasesLocked ctx target target.

(** [run]: ticks served by the heartbeat until its context is done or an
    extension fails. *)
Fixpoint run (ctx : Ctx) (ticks : nat) : M unit :=
  match ticks with
  | O => mret tt
  | S ticks =>
      m ← gets w_mgr;
      if negb (m_beating m) then mret tt
      else
        c ← cause E ctx;
        match c with
        | Some _ => modify_mgr (set_beating false)
        | None =>
            r ← extend ctx;
            match r with
            | Err _ => modify_mgr (set_beating false)
            | Ok _ => run ctx ticks
            end
        end
  end.

Definition batchCtx : Ctx := WithCancelCause runCtx.

(** [m.mu.Lock()]. *)
Definition lock : M unit := t ← tick; run batchCtx (beats E t).

(** [m.mu.LockContext(ctx)]. *)
Definition LockContext : M (result unit) :=
  t ← tick;
  _ ← run batchCtx (beats E t);
  match lock_timeout E t with Some e => error e | None => ok tt end.

Definition batchStartError (ctx : Ctx) : M (result unit) :=
  c ← cause E ctx;
  match c with
  | Some e => error e
  | None =>
      d ← isDraining E;
      if (d : bool) then error (ESentinel ErrServiceDraining) else ok tt
  end.

Definition manager_admit (ctx : Ctx) : M (result unit) :=
  _ ← lock;
  _ ←? batchStartError ctx;
  m ← gets w_mgr;
  if bool_decide (m_outstanding m = ∅) then error (ESentinel ErrLeaseLost)
  else
    t ← now E;
    _ ←? checkLeasesLocked t;
    m ← gets w_mgr;
    _ ←? (if Before (m_earliest m) (Add t (m_reserveFor m / 3)) then
            let target := Add t (m_reserveFor m) in
            ensureLeasesLocked ctx target target
          else ok tt);
    batchStartError ctx.

Definition clear_if_empty (m : Manager) : Manager :=
  if bool_decide (m_outstanding m = ∅) then set_earliest zeroTime m else m.

Definition finalize (ctx : Ctx) (jobID : JobID) (fin : Ctx → M (result unit)) : M (result unit) :=
  t0 ← now E;
  let deadline := Add t0 leaseFinalizationTimeout in
  let finalizeCtx := WithDeadline (WithoutCancel ctx) deadline in
  l ← LockContext;
  match l with
  | Err e => _ ← cancelBatch E e; error e
  | Ok _ =>
      m ← gets w_mgr;
      match m_outstanding m !! jobID with
      | None => error (ESentinel ErrLeaseLost)
      | Some _ =>
          let requiredUntil := Add deadline batchFinalizationMargin in
          let targetUntil := Add requiredUntil (m_reserveFor m) in
          _ ←? ensureLeasesLocked finalizeCtx requiredUntil targetUntil;
          c ← ctx_err E finalizeCtx;
          match c with
          | Some e => error e
          | None =>
              _ ←? fin finalizeCtx;
              _ ← modify_mgr (λ m, clear_if_empty (set_outstanding (delete jobID (m_outstanding m)) m));
              ok tt
          end
      end
  end.

Fixpoint add_checked (jobs : list Job) : M (result unit) :=
  match jobs with
  | [] => ok tt
  | job :: jobs =>
      t ← now E;
      m ← gets w_mgr;
      match validateClaimedJobLease job (m_token m) t with
      | Err e => error e
      | Ok _ =>
          if bool_decide (is_Some (m_outstanding m !! ID job))
          then error (wrapAs ErrLeaseLost "duplicate claimed job")
          else _ ← modify_mgr (add_job job); add_checked jobs
      end
  end.

Definition add (jobs : list Job) : M (result unit) := _ ← lock; add_checked jobs.

Definition finalizeAll (ctx : Ctx) (leaseUntil : Z) (fin : M (result unit)) : M (result unit) :=
  l ← LockContext;
  match l with
  | Err e => _ ← cancelBatch E e; error e
  | Ok _ =>
      m ← gets w_mgr;
      if bool_decide (m_outstanding m = ∅) then error (ESentinel ErrLeaseLost)
      else
        _ ←? ensureLeasesLocked ctx leaseUntil leaseUntil;
        c ← ctx_err E ctx;
        match c with
        | Some e => error e
        | None =>
            _ ←? fin;
            _ ← modify_mgr (λ m, set_earliest zeroTime (set_outstanding ∅ m));
            ok tt
        end
  end.

Definition forget (jobID : JobID) : M unit :=
  _ ← lock;
  modify_mgr (λ m, clear_if_empty (set_outstanding (delete jobID (m_outstanding m)) m)).

Definition forgetAll : M unit :=
  _ ← lock; modify_mgr (λ m, set_earliest zeroTime (set_outstanding ∅ m)).

Definition outstandingIDsLocked (m : Manager) : list JobID :=
  (outstanding_in (m_ordered m) (m_outstanding m)).*1.

Definition releaseUnstarted (ctx : Ctx) : M (result unit) :=
  _ ← lock;
  m ← gets w_mgr;
  let jobIDs := outstandingIDsLocked m in
  match jobIDs with
  | [] => ok tt
  | _ =>
      t ← now E;
      r ← call E (ReleaseUnstartedJobsWithLease R jobIDs (m_token m) t);
      match r with
      | Err e => error (wrapf "release unstarted reservation batch jobs" e)
      | Ok affected =>
          if negb (affected =? Z.of_nat (length jobIDs))
          then error (wrapAs ErrLeaseLost "released some of the unstarted reservation batch jobs")
          else
            _ ← modify_mgr (λ m, set_earliest zeroTime (set_outstanding ∅ m));
            ok tt
      end
  end.

(** The heartbeat is stopped and joined; it may serve a last tick first. *)
Definition stopAndWait : M (option err) :=
  _ ← lock;
  _ ← modify_mgr (set_beating false);
  m ← gets w_mgr;
  mret (m_err m).
End manager.

(** ** The ledger *)

Lemma earlier_le e u : 0 ≤ e → 0 < u → earlier e u ≤ u ∧ 0 < earlier e u ∧ (e = 0 ∨ earlier e u ≤ e).
Proof.
  unfold earlier, IsZero, Before, zeroTime. intros He Hu.
  destruct (Z.eqb_spec e 0), (Z.ltb_spec u e); cbn; lia.
Qed.

Lemma earliest_from_le l e : 0 ≤ e → Forall (Z.lt 0) l →
  (∀ u, u ∈ l → 0 < earliest_from e l ≤ u) ∧ (e = 0 ∨ 0 < earliest_from e l ≤ e).
Proof.
  intros He HF. revert e He. induction HF as [|u l Hu HF IH]; intros e He; cbn.
  { split; [set_solver|lia]. }
  destruct (earlier_le e u He Hu) as (H1 & H2 & H3).
  destruct (IH (earlier e u) ltac:(lia)) as (I1 & I2).
  split; [|lia]. intros x [->|Hx]%elem_of_cons; [lia|auto].
Qed.

Lemma earliest_from_nonneg l : Forall (Z.lt 0) l → 0 ≤ earliest_from zeroTime l.
Proof.
  assert (∀ e, 0 ≤ e → Forall (Z.lt 0) l → 0 ≤ earliest_from e l) as Hall; [|by intros; apply Hall].
  induction l as [|u l IH]; intros e He HF; cbn; [done|]. inversion HF; subst.
  apply IH; [|done]. destruct (earlier_le e u) as (? & ? & ?); [done..|lia].
Qed.

Lemma outstanding_in_elem ord o id u :
  (id, u) ∈ outstanding_in ord o ↔ id ∈ ord ∧ o !! id = Some u.
Proof.
  induction ord as [|i ord IH]; cbn; [set_solver|].
  destruct (o !! i) as [v|] eqn:E; rewrite ?elem_of_cons, IH; naive_solver.
Qed.

Lemma add_all_lookup ids o until id :
  add_all o ids until !! id = if bool_decide (id ∈ ids) then Some until else o !! id.
Proof.
  revert o. induction ids as [|i ids IH]; intros o; cbn; [done|]. rewrite IH.
  destruct (decide (i = id)) as [->|Hne].
  - rewrite lookup_insert_eq. by repeat case_bool_decide; set_solver.
  - rewrite lookup_insert_ne by done. repeat case_bool_decide; set_solver.
Qed.

Lemma ledger_values_elem o u : u ∈ ledger_values o ↔ ∃ id, o !! id = Some u.
Proof.
  unfold ledger_values. rewrite list_elem_of_fmap. split.
  - intros ([id v] & -> & Hin%elem_of_map_to_list). eauto.
  - intros [id Hid]. exists (id, u). by rewrite elem_of_map_to_list.
Qed.

Lemma Truncate_next t : t < Add (Truncate t Millisecond) Millisecond.
Proof. unfold Add. pose proof (Truncate_gt t Millisecond ltac:(done)). lia. Qed.

(** The ledger's shape: [earliestUntil] is a lower bound, deadlines are set
    and every outstanding job was claimed. *)
Record ledger_ok (m : Manager) : Prop := {
  lo_nonneg : 0 ≤ m_earliest m;
  lo_lower : ∀ id u, m_outstanding m !! id = Some u → 0 < m_earliest m ≤ u;
  lo_pos : ∀ id u, m_outstanding m !! id = Some u → 0 < u;
  lo_ordered : ∀ id u, m_outstanding m !! id = Some u → id ∈ m_ordered m
}.

(** The manager's jobs, without their deadlines. *)
Record same_jobs (w w' : World) : Prop := {
  sj_handled : w_handled w' = w_handled w;
  sj_token : m_token (w_mgr w') = m_token (w_mgr w);
  sj_dom : ∀ id, is_Some (m_outstanding (w_mgr w') !! id) ↔ is_Some (m_outstanding (w_mgr w) !! id)
}.

Lemma same_jobs_refl w : same_jobs w w.
Proof. by split. Qed.
Lemma same_jobs_trans w1 w2 w3 : same_jobs w1 w2 → same_jobs w2 w3 → same_jobs w1 w3.
Proof. intros [] []. split; [congruence..|]. intros id. naive_solver. Qed.
Lemma same_jobs_eq w w' : w_handled w' = w_handled w → m_token (w_mgr w') = m_token (w_mgr w) →
  m_outstanding (w_mgr w') = m_outstanding (w_mgr w) → same_jobs w w'.
Proof. intros H1 H2 H3. split; [done..|]. by rewrite H3. Qed.

(** The ledger's jobs change only where jobs are added or dropped, whatever
    the repository answers. *)
Section jobs_kept.
Context (E : Env) (R : JobsRepository).

Lemma checkLeases_jobs t w : wp (checkLeasesLocked E t) (λ _ w', same_jobs w w'
  ∧ m_outstanding (w_mgr w') = m_outstanding (w_mgr w) ∧ m_ordered (w_mgr w') = m_ordered (w_mgr w)) w.
Proof.
  unfold checkLeasesLocked, failLeaseLocked, setError, cancelBatch, recomputeEarliestLocked. wp_simpl.
  destruct (Before _ _); wp_simpl; [split_and!; [apply same_jobs_refl|done|done]|].
  destruct (existsb _ _); wp_simpl; (split_and!; [by apply same_jobs_eq|done|done]).
Qed.

Lemma failLease_jobs {A} e w : wp (failLeaseLocked E (A:=A) e) (λ _ w', same_jobs w w') w.
Proof. unfold failLeaseLocked, setError, cancelBatch. wp_simpl. by apply same_jobs_eq. Qed.

Lemma ensureLeases_jobs ctx req target w : wp (ensureLeasesLocked E R ctx req target) (λ _ w', same_jobs w w') w.
Proof.
  unfold ensureLeasesLocked. wp_simpl. eapply wp_mono; [apply checkLeases_jobs|].
  intros r w1 (Hs1 & Ho1 & Hord1).
  assert (same_jobs w w1) as Hs by (destruct Hs1; by split). destruct r as [[]|e]; cbn; [|done]. wp_simpl.
  destruct (negb _); wp_simpl; [done|]. set (rows := outstanding_in _ _).
  set (ids := (filter _ rows).*1) in *.
  assert (∀ id, id ∈ ids → is_Some (m_outstanding (w_mgr w1) !! id)) as Hids.
  { intros id ([i u] & -> & [_ [_ Hu]%outstanding_in_elem]%list_elem_of_filter)%list_elem_of_fmap. cbn. eauto. }
  destruct ids as [|i0 ids0] eqn:Eids; wp_simpl; [eapply same_jobs_trans; [done|by apply same_jobs_eq]|].
  rewrite <- Eids in *. clearbody ids. clear Eids.
  assert (∀ e w', w_handled w' = w_handled w1 → m_token (w_mgr w') = m_token (w_mgr w1) →
            m_outstanding (w_mgr w') = m_outstanding (w_mgr w1) →
            wp (failLeaseLocked E (A:=unit) e) (λ _ w', same_jobs w w') w') as Hfail.
  { intros e w' H1 H2 H3. eapply wp_mono; [apply failLease_jobs|]. intros [[]|] w2 Hs2;
      (eapply same_jobs_trans; [exact Hs|]; eapply same_jobs_trans; [by apply same_jobs_eq|exact Hs2]). }
  apply wp_call.
  - intros d [n|e] d' _ _; wp_simpl; [|by apply Hfail].
    apply wp_cause. intros [c|]; wp_simpl; [by apply Hfail|].
    destruct (negb _); wp_simpl; [by apply Hfail|]. unfold recomputeEarliestLocked. wp_simpl.
    eapply wp_mono; [apply checkLeases_jobs|]. intros r w2 (Hs2 & _ & _).
    eapply same_jobs_trans; [exact Hs|]. eapply same_jobs_trans; [|exact Hs2].
    split; [done..|]. intros id. cbn. rewrite add_all_lookup. case_bool_decide as Hin; [|done].
    split; [intros _; by apply Hids|eauto].
  - intros d r d' e _ _. split; wp_simpl; by apply Hfail.
Qed.

Lemma run_jobs ctx n w : wp (run E R ctx n) (λ _ w', same_jobs w w') w.
Proof.
  revert w. induction n as [|n IH]; intros w; cbn [run]; wp_simpl; [apply same_jobs_refl|].
  destruct (negb _); wp_simpl; [apply same_jobs_refl|].
  apply wp_cause. intros [c|]; wp_simpl; [by apply same_jobs_eq|]. unfold extend. wp_simpl.
  eapply wp_mono; [apply ensureLeases_jobs|]. intros [[]|e] w1 Hs1; wp_simpl.
  - eapply wp_mono; [apply IH|]. intros [] w2 Hs2. eapply same_jobs_trans; [|exact Hs2]. by destruct Hs1; split.
  - destruct Hs1. by split.
Qed.

Lemma lock_jobs w : wp (lock E R) (λ _ w', same_jobs w w') w.
Proof. unfold lock. wp_simpl. eapply wp_mono; [apply run_jobs|]. intros [] w1 []. by split. Qed.

Lemma admit_jobs ctx w : wp (manager_admit E R ctx) (λ _ w', same_jobs w w') w.
Proof.
  assert (∀ w, wp (batchStartError E ctx) (λ _ w', same_jobs w w') w) as Hstart.
  { intros w0. unfold batchStartError. wp_simpl. apply wp_cause. intros [c|]; wp_simpl; [by apply same_jobs_eq|].
    destruct (draining E _); wp_simpl; by apply same_jobs_eq. }
  unfold manager_admit. wp_simpl. eapply wp_mono; [apply lock_jobs|]. intros [] w1 H1. wp_simpl.
  eapply wp_mono; [apply Hstart|]. intros [[]|e] w2 H2; cbn; [|by eapply same_jobs_trans].
  pose proof (same_jobs_trans _ _ _ H1 H2) as H12. wp_simpl. case_bool_decide; wp_simpl; [done|].
  eapply wp_mono; [apply checkLeases_jobs|]. intros r w3 (H3 & _ & _).
  assert (same_jobs w w3) as H13 by (eapply same_jobs_trans; [exact H12|]; destruct H3; by split).
  destruct r as [[]|e]; cbn; [|done]. wp_simpl. destruct (Before _ _).
  - eapply wp_mono; [apply ensureLeases_jobs|]. intros [[]|e] w4 H4; cbn; [|by eapply same_jobs_trans].
    eapply wp_mono; [apply Hstart|]. intros r w5 H5. eapply same_jobs_trans; [|exact H5]. by eapply same_jobs_trans.
  - wp_simpl. eapply wp_mono; [apply Hstart|]. intros r w5 H5. by eapply same_jobs_trans.
Qed.

(** Adding rows: all of them and none twice, or an error. *)
Lemma add_jobs_kept jobs w :
  wp (add E R jobs) (λ r w', w_handled w' = w_handled w ∧ m_token (w_mgr w') = m_token (w_mgr w) ∧
    (r = Ok tt → NoDup (ID <$> jobs) ∧ (∀ id, id ∈ ID <$> jobs → ¬ is_Some (m_outstanding (w_mgr w) !! id))
       ∧ ∀ id, is_Some (m_outstanding (w_mgr w') !! id)
               ↔ is_Some (m_outstanding (w_mgr w) !! id) ∨ id ∈ ID <$> jobs)) w.
Proof.
  unfold add. wp_simpl. eapply wp_mono; [apply lock_jobs|]. intros [] w0 [Hh Ht Hdom].
  assert (∀ w, wp (add_checked E jobs) (λ r w', w_handled w' = w_handled w ∧ m_token (w_mgr w') = m_token (w_mgr w) ∧
    (r = Ok tt → NoDup (ID <$> jobs) ∧ (∀ id, id ∈ ID <$> jobs → ¬ is_Some (m_outstanding (w_mgr w) !! id))
       ∧ ∀ id, is_Some (m_outstanding (w_mgr w') !! id)
               ↔ is_Some (m_outstanding (w_mgr w) !! id) ∨ id ∈ ID <$> jobs)) w) as Hall.
  { clear. induction jobs as [|j jobs IH]; intros w; cbn [add_checked]; wp_simpl.
    { split_and!; [done..|]. intros _. split_and!; [constructor|set_solver|set_solver]. }
    destruct (validateClaimedJobLease _ _ _); wp_simpl; [|done]. case_bool_decide as Hdup; wp_simpl; [done|].
    eapply wp_mono; [apply IH|]. intros r w1 (Hh & Ht & Hr). split_and!; [done..|]. intros Hok.
    destruct (Hr Hok) as (Hnd & Hnew & Hdom). rewrite fmap_cons. cbn in Hdup.
    assert (∀ id, is_Some (m_outstanding (add_job j (w_mgr w)) !! id)
              ↔ id = ID j ∨ is_Some (m_outstanding (w_mgr w) !! id)) as Hj.
    { intros id. cbn. rewrite lookup_insert_is_Some'. naive_solver. }
    split_and!.
    - constructor; [|done]. intros Hin. apply (Hnew _ Hin). apply Hj. by left.
    - intros id [->|Hin]%elem_of_cons; [done|]. intros Hs. apply (Hnew _ Hin). apply Hj. by right.
    - intros id. rewrite Hdom, elem_of_cons. cbn [w_mgr set_mgr bump]. rewrite Hj. naive_solver. }
  eapply wp_mono; [apply Hall|]. intros r w1 (Hh1 & Ht1 & Hr). split_and!; [congruence..|]. intros Hok.
  destruct (Hr Hok) as (Hnd & Hnew & Hd). split_and!; [done| |].
  - intros id Hin. rewrite <- Hdom. by apply Hnew.
  - intros id. by rewrite Hd, Hdom.
Qed.
End jobs_kept.

(** What the manager's critical sections preserve: the batch's identity, its
    jobs, and each deadline or a later one. *)
Record grows (m m' : Manager) : Prop := {
  gr_token : m_token m' = m_token m;
  gr_reserve : m_reserveFor m' = m_reserveFor m;
  gr_ordered : m_ordered m' = m_ordered m;
  gr_dom : ∀ id, is_Some (m_outstanding m' !! id) ↔ is_Some (m_outstanding m !! id);
  gr_later : ∀ id u u', m_outstanding m !! id = Some u → m_outstanding m' !! id = Some u' → u ≤ u'
}.

Lemma grows_refl m : grows m m.
Proof. split; try done. naive_solver lia. Qed.

Lemma grows_trans m1 m2 m3 : grows m1 m2 → grows m2 m3 → grows m1 m3.
Proof.
  intros [a1 a2 a3 a4 a5] [b1 b2 b3 b4 b5]. split; try congruence.
  - intros id. by rewrite b4.
  - intros id u u'' Hu Hu''. destruct (proj2 (a4 id)) as [u' Hu']; [eauto|].
    specialize (a5 _ _ _ Hu Hu'). specialize (b5 _ _ _ Hu' Hu''). lia.
Qed.

Lemma grows_same m m' : m_token m' = m_token m → m_reserveFor m' = m_reserveFor m →
  m_ordered m' = m_ordered m → m_outstanding m' = m_outstanding m → grows m m'.
Proof. intros E1 E2 E3 E4. split; try done; rewrite E4; [done|]. naive_solver lia. Qed.

Lemma ledger_recompute m : ledger_ok m →
  ledger_ok (set_earliest (earliest_from zeroTime (ledger_values (m_outstanding m))) m).
Proof.
  intros [_ _ Hpos Hord].
  assert (Forall (Z.lt 0) (ledger_values (m_outstanding m))) as HF.
  { apply Forall_forall. intros v [i Hi]%ledger_values_elem. by eapply Hpos. }
  split; cbn; [by apply earliest_from_nonneg| |done|done]. intros id u Hu.
  apply (earliest_from_le _ zeroTime ltac:(done) HF). apply ledger_values_elem. eauto.
Qed.

Section theory.
Context (E : Env) (R : JobsRepository) (ts : Z → Z) `{!LeaseRepository ts R} (tok : LeaseToken).

(** The others never write a row that carries this batch's token. *)
Context (Hothers : ∀ t d id j, jobs_t (others E t d) !! id = Some j → LeaseTokenOf j = tok →
           jobs_t d !! id = Some j).
Context (Hkeyed : ∀ t d, keyed (jobs_t d) → keyed (jobs_t (others E t d))).
Context (Hclock : ∀ t, 0 < clock E t).

(** A row that still carries the token is stored with the ledger's deadline
    or a later one. *)
Definition ledger_sound (d : Db) (m : Manager) : Prop :=
  ∀ id u j, m_outstanding m !! id = Some u → jobs_t d !! id = Some j → LeaseTokenOf j = tok →
    ∃ r, ReservedAt j = Some r ∧ ts u ≤ r.

Record managed (w : World) : Prop := {
  mg_token : m_token (w_mgr w) = tok;
  mg_reserve : 0 < m_reserveFor (w_mgr w);
  mg_ledger : ledger_ok (w_mgr w);
  mg_keyed : keyed (jobs_t (w_db w));
  mg_sound : ledger_sound (w_db w) (w_mgr w)
}.

Lemma managed_same w w' : managed w → w_db w' = w_db w →
  m_token (w_mgr w') = m_token (w_mgr w) → m_reserveFor (w_mgr w') = m_reserveFor (w_mgr w) →
  m_outstanding (w_mgr w') = m_outstanding (w_mgr w) → ledger_ok (w_mgr w') → managed w'.
Proof.
  intros [Ht Hr Hl Hk Hs] Hd Ht' Hr' Ho Hl'. split; [congruence|lia|done|by rewrite Hd|].
  unfold ledger_sound. by rewrite Hd, Ho.
Qed.

(** The frame of a section: what it leaves of the world besides tables,
    ledger and time. *)
Record frame (w w' : World) : Prop := {
  fr_paused : w_paused w' = w_paused w;
  fr_streak : w_streak w' = w_streak w;
  fr_handled : w_handled w' = w_handled w;
  fr_events : w_events w' = w_events w;
  fr_grows : grows (w_mgr w) (w_mgr w')
}.

Lemma frame_refl w : frame w w.
Proof. split; try done. apply grows_refl. Qed.
Lemma frame_trans w1 w2 w3 : frame w1 w2 → frame w2 w3 → frame w1 w3.
Proof. intros [] []. split; try congruence. by eapply grows_trans. Qed.

Lemma frame_bump w w' : frame (bump w) w' → frame w w'.
Proof. by intros []. Qed.
Lemma managed_bump w : managed w → managed (bump w).
Proof. intros Hm. by eapply managed_same; [exact Hm|..]; try done; apply Hm. Qed.

Definition live_at (t : Z) (m : Manager) : Prop := ∀ id u, m_outstanding m !! id = Some u → t < u.
Definition until_at_least (t : Z) (m : Manager) : Prop := ∀ id u, m_outstanding m !! id = Some u → t ≤ u.

Lemma checkLeases_spec t w : managed w →
  wp (checkLeasesLocked E t) (λ r w', managed w' ∧ frame w w' ∧ w_db w' = w_db w
    ∧ m_outstanding (w_mgr w') = m_outstanding (w_mgr w) ∧ (r = Ok tt → live_at t (w_mgr w'))) w.
Proof.
  intros Hm. pose proof (mg_ledger _ Hm) as Hl. unfold checkLeasesLocked. wp_simpl.
  destruct (Before_spec t (m_earliest (w_mgr w))) as [Hb|Hb]; wp_simpl.
  { split_and!; [done|apply frame_refl|done|done|]. intros _ id u Hu.
    pose proof (lo_lower _ Hl _ _ Hu). lia. }
  destruct (existsb _ _) eqn:Ex; unfold failLeaseLocked, setError, cancelBatch, recomputeEarliestLocked; wp_simpl; cbn.
  - split_and!; [|split; try done; by apply grows_same|done|done|done].
    eapply managed_same; try done. destruct Hl. by split.
  - split_and!; [|split; try done; by apply grows_same|done|done|].
    + eapply managed_same; try done. by apply ledger_recompute.
    + intros _ id u Hu. cbn in Hu. apply not_true_iff_false in Ex.
      destruct (After_spec u t) as [|Hn]; [done|]. exfalso. apply Ex, existsb_exists. exists u.
      split; [apply list_elem_of_In, ledger_values_elem; eauto|].
      by destruct (After_spec u t).
Qed.

Lemma others_sound t d m : ledger_sound d m → ledger_sound (others E t d) m.
Proof. intros Hs id u j Hu Hj Ht. apply (Hs id u j Hu); [by eapply Hothers|done]. Qed.

(** What an extension does to the stored deadlines. *)
Lemma extend_sound d d' m ids t until r : keyed (jobs_t d) → ledger_sound d m →
  (∀ id u, id ∈ ids → m_outstanding m !! id = Some u → u ≤ until) →
  ExtendJobLeases R ids tok t until d = (r, d') →
  keyed (jobs_t d') ∧ ledger_sound d' m
  ∧ (r = Ok (Z.of_nat (length ids)) → ∀ id j, id ∈ ids → jobs_t d' !! id = Some j →
       ReservedAt j = Some (ts until)).
Proof.
  intros Hk Hs Hle Hop. destruct r as [n|e].
  2: { rewrite (extend_atomic _ _ _ _ _ _ _ Hop). done. }
  apply extend_ok in Hop as [_ [-> [_ Hfound]]]. cbn [jobs_t set_jobs].
  split_and!; [by apply keyed_update| |].
  - intros id u j Hu. cbn [jobs_t set_jobs]. rewrite sql_update_lookup, fmap_Some. intros (j0 & Hj0 & ->) Ht.
    destruct (owned ids tok (ts t) j0) eqn:Ho; [|by eapply Hs]. exists (ts until). split; [done|].
    apply ts_mono, (Hle id u); [|done]. rewrite <- (Hk _ _ Hj0). by eapply owned_in.
  - intros Hn id j Hin. injection Hn as ->. apply affected_all in Hfound as [_ Hall]; [|done|apply owned_in].
    destruct (Hall id Hin) as (j0 & Hj0 & Ho). rewrite sql_update_lookup, Hj0. cbn. rewrite Ho.
    by intros [= <-].
Qed.

Lemma rows_earliest m : ledger_ok m →
  ledger_ok (set_earliest (earliest_from zeroTime (outstanding_in (m_ordered m) (m_outstanding m)).*2) m).
Proof.
  intros [_ _ Hpos Hord].
  assert (Forall (Z.lt 0) (outstanding_in (m_ordered m) (m_outstanding m)).*2) as HF.
  { apply Forall_forall. intros v ([i x] & -> & [_ Hi]%outstanding_in_elem)%list_elem_of_fmap. by eapply Hpos. }
  split; cbn; [by apply earliest_from_nonneg| |done|done]. intros id u Hu.
  apply (earliest_from_le _ zeroTime ltac:(done) HF). apply list_elem_of_fmap. exists (id, u). split; [done|].
  apply outstanding_in_elem. split; [by eapply Hord|done].
Qed.

Lemma add_all_ok m ids until : ledger_ok m → 0 < until → (∀ id, id ∈ ids → id ∈ m_ordered m) →
  ledger_ok (set_earliest (earliest_from zeroTime (ledger_values (add_all (m_outstanding m) ids until)))
               (set_outstanding (add_all (m_outstanding m) ids until) m)).
Proof.
  intros [_ _ Hpos Hord] Hu Hids.
  assert (∀ id u, add_all (m_outstanding m) ids until !! id = Some u → 0 < u ∧ id ∈ m_ordered m) as Hall.
  { intros id u. rewrite add_all_lookup. case_bool_decide; naive_solver. }
  assert (Forall (Z.lt 0) (ledger_values (add_all (m_outstanding m) ids until))) as HF.
  { apply Forall_forall. intros v [i Hi]%ledger_values_elem. by eapply Hall. }
  split; cbn; [by apply earliest_from_nonneg| |naive_solver..]. intros id u Hid.
  apply (earliest_from_le _ zeroTime ltac:(done) HF). apply ledger_values_elem. eauto.
Qed.

Lemma failLease_spec {A} e w Q :
  (∀ m', grows (w_mgr w) m' → m_outstanding m' = m_outstanding (w_mgr w) →
     (ledger_ok (w_mgr w) → ledger_ok m') → Q (Err e) (set_mgr m' (bump w))) →
  wp (failLeaseLocked E (A:=A) e) Q w.
Proof.
  intros HQ. unfold failLeaseLocked, setError, cancelBatch. wp_simpl. cbn. apply HQ; [by apply grows_same|done|].
  intros []. by split.
Qed.

(** The rows an extension asks for. *)
Definition short_rows (m : Manager) (requiredUntil : Z) : list JobID :=
  (filter (λ r, Before r.2 requiredUntil = true) (outstanding_in (m_ordered m) (m_outstanding m))).*1.

Lemma short_rows_elem m req id : id ∈ short_rows m req ↔
  ∃ u, id ∈ m_ordered m ∧ m_outstanding m !! id = Some u ∧ u < req.
Proof.
  unfold short_rows. rewrite list_elem_of_fmap. split.
  - intros ([i u] & -> & [Hb [Ho Hu]%outstanding_in_elem]%list_elem_of_filter). cbn in Hb.
    exists u. split_and!; [done..|]. by apply Z.ltb_lt.
  - intros (u & Ho & Hu & Hlt). exists (id, u). split; [done|]. apply list_elem_of_filter. split.
    + by apply Z.ltb_lt.
    + by apply outstanding_in_elem.
Qed.

(** The extension of the rows that fall short. *)
Lemma extend_short_spec ctx req target earliest now0 ids w0 w : managed w → frame w0 w → 0 < req →
  (∀ id, id ∈ ids ↔ ∃ u, m_outstanding (w_mgr w) !! id = Some u ∧ u < req) →
  let targetUntil := if Before target req then req else target in
  let until := Add (Truncate targetUntil Millisecond) Millisecond in
  wp (r ← call E (ExtendJobLeases R ids tok now0 until);
      r ← match r with
          | Err e => mret (Err e)
          | Ok affected =>
              c ← cause E (WithDeadline ctx earliest);
              mret (match c with Some e => Err e | None => Ok affected end)
          end;
      match r with
      | Err e => failLeaseLocked E (EJoin [ESentinel ErrLeaseLost; wrapf "extend reservation batch leases" e])
      | Ok affected =>
          if negb (affected =? Z.of_nat (length ids))
          then failLeaseLocked E (wrapAs ErrLeaseLost "extended some of the reservation batch leases")
          else
            _ ← modify_mgr (λ m, set_outstanding (add_all (m_outstanding m) ids until) m);
            _ ← recomputeEarliestLocked;
            now1 ← now E;
            checkLeasesLocked E now1
      end) (λ r w', managed w' ∧ frame w0 w' ∧ (r = Ok tt → until_at_least req (w_mgr w'))) w.
Proof.
  intros Hm Hf Hreq Hids targetUntil until.
  assert (req < until) as Huntil.
  { pose proof (Truncate_next targetUntil). unfold until, targetUntil in *.
    destruct (Before_spec target req); lia. }
  pose proof (mg_ledger _ Hm) as Hl. pose proof (mg_keyed _ Hm) as Hk.
  set (d0 := others E (w_tick w) (w_db w)).
  assert (keyed (jobs_t d0) ∧ ledger_sound d0 (w_mgr w)) as [Hk0 Hs0]
    by (split; [by apply Hkeyed|by apply others_sound, (mg_sound _ Hm)]).
  assert (∀ id u, id ∈ ids → m_outstanding (w_mgr w) !! id = Some u → u ≤ until) as Hle.
  { intros id u (v & Hv & Hlt)%Hids Hu. rewrite Hu in Hv. injection Hv as ->. lia. }
  (* the ledger is unchanged: a failure *)
  assert (∀ d' e w', keyed (jobs_t d') → ledger_sound d' (w_mgr w) → w_db w' = d' → w_mgr w' = w_mgr w →
            w_paused w' = w_paused w → w_streak w' = w_streak w → w_handled w' = w_handled w → w_events w' = w_events w →
            wp (failLeaseLocked E (A:=unit) e) (λ r w', managed w' ∧ frame w0 w'
              ∧ (r = Ok tt → until_at_least req (w_mgr w'))) w') as Hfail.
  { intros d' e w' Hk' Hs' Hdb Hmgr Hp Hst Hh He. apply failLease_spec. intros m' Hgr Hout Hl'. rewrite Hmgr in *.
    split_and!; [|eapply frame_trans; [exact Hf|by split]|done].
    split; cbn; [rewrite (gr_token _ _ Hgr); apply Hm|rewrite (gr_reserve _ _ Hgr); apply Hm|by apply Hl'|by rewrite Hdb|].
    unfold ledger_sound. by rewrite Hdb, Hout. }
  rewrite wp_bind. apply wp_call.
  - intros d r d' Hd Hop. subst d.
    destruct (extend_sound _ _ _ _ _ _ _ Hk0 Hs0 Hle Hop)
      as (Hk' & Hs' & Hall).
    destruct r as [n|e]; wp_simpl; [|by eapply Hfail].
    apply wp_cause. intros [c|]; wp_simpl; [by eapply Hfail|].
    destruct (Z.eqb_spec n (Z.of_nat (length ids))) as [->|]; cbn; wp_simpl; [|by eapply Hfail].
    unfold recomputeEarliestLocked. wp_simpl. cbn. specialize (Hall eq_refl).
    set (m' := set_earliest _ _). set (w' := bump _).
    assert (ledger_ok m') as Hl'.
    { apply add_all_ok; [done|lia|]. intros id (u & Hu & _)%Hids. by eapply lo_ordered. }
    assert (frame w w') as Hf'.
    { split; try done. split; try done; intros id; cbn; rewrite add_all_lookup.
      - case_bool_decide as Hin; [|done]. apply Hids in Hin as (u & Hu & _). split; eauto.
      - intros u u' Hu. case_bool_decide as Hin; [|naive_solver lia].
        apply Hids in Hin as (v & Hv & Hlt). intros [= <-]. rewrite Hu in Hv. injection Hv as ->. lia. }
    assert (managed w') as Hm'.
    { split; cbn; [apply Hm|apply Hm|done|done|]. intros id u j Hu Hj Ht. cbn in Hu. rewrite add_all_lookup in Hu.
      case_bool_decide as Hin; [|by eapply Hs']. injection Hu as <-. exists (ts until). split; [|done]. by eapply Hall. }
    eapply wp_mono; [apply (checkLeases_spec _ _ Hm')|].
    intros r w2 (Hm2 & Hf2 & _ & Hout & _). split_and!; [done|eapply frame_trans, frame_trans; eauto|].
    intros _ id u. rewrite Hout. cbn. rewrite add_all_lookup. case_bool_decide as Hin; [naive_solver lia|].
    intros Hu. destruct (Z.le_gt_cases req u); [done|]. exfalso. apply Hin, Hids. eauto.
  - intros d r d' e Hd Hop. subst d.
    destruct (extend_sound _ _ _ _ _ _ _ Hk0 Hs0 Hle Hop)
      as (Hk' & Hs' & _).
    split; wp_simpl; [by eapply (Hfail d')|by eapply (Hfail d0)].
Qed.

Lemma ensureLeases_spec ctx req target w : managed w → 0 < req →
  wp (ensureLeasesLocked E R ctx req target) (λ r w', managed w' ∧ frame w w'
    ∧ (r = Ok tt → until_at_least req (w_mgr w'))) w.
Proof.
  intros Hm Hreq. unfold ensureLeasesLocked. wp_simpl.
  eapply wp_mono; [apply (checkLeases_spec _ _ (managed_bump _ Hm))|].
  intros [[]|e] w1 (Hm1 & Hf1%frame_bump & _ & _ & _); cbn; [|done].
  wp_simpl. pose proof (mg_ledger _ Hm1) as Hl1.
  destruct (Before_spec (m_earliest (w_mgr w1)) req) as [Hb|Hb]; cbn; wp_simpl.
  2: { split_and!; [done..|]. intros _ id u Hu. pose proof (lo_lower _ Hl1 _ _ Hu). lia. }
  fold (short_rows (w_mgr w1) req). set (m2 := set_earliest _ (w_mgr w1)).
  assert (ledger_ok m2) as Hl2 by (by apply rows_earliest).
  assert (managed (set_mgr m2 w1)) as Hm2 by (by eapply managed_same; [exact Hm1|..]).
  assert (frame w (set_mgr m2 w1)) as Hf2.
  { eapply frame_trans; [exact Hf1|]. split; try done. by apply grows_same. }
  assert (∀ id, id ∈ short_rows (w_mgr w1) req ↔ ∃ u, m_outstanding m2 !! id = Some u ∧ u < req) as Hshort.
  { intros id. rewrite short_rows_elem. split; [naive_solver|]. intros (u & Hu & Hlt).
    exists u. split_and!; [by eapply (lo_ordered _ Hl1)|done..]. }
  destruct (short_rows (w_mgr w1) req) as [|i0 ids0] eqn:Eids.
  { wp_simpl. split_and!; [done..|]. intros _ id u Hu. destruct (Z.le_gt_cases req u) as [|Hlt]; [done|]. exfalso.
    assert (id ∈ ([] : list JobID)) as Hin by (apply Hshort; eauto). set_solver. }
  rewrite (mg_token _ Hm1). by apply (extend_short_spec ctx req target).
Qed.

Lemma extend_spec ctx w : managed w →
  wp (extend E R ctx) (λ r w', managed w' ∧ frame w w') w.
Proof.
  intros Hm. unfold extend. wp_simpl. eapply wp_mono.
  - apply ensureLeases_spec; [by apply managed_bump|]. unfold Add.
    pose proof (Hclock (w_tick w)). pose proof (mg_reserve _ Hm). lia.
  - intros r w' (? & ?%frame_bump & _). done.
Qed.

Lemma set_beating_managed b w : managed w → managed (set_mgr (set_beating b (w_mgr w)) w)
  ∧ frame w (set_mgr (set_beating b (w_mgr w)) w).
Proof.
  intros Hm. split; [|split; try done; by apply grows_same].
  eapply managed_same; try done. destruct (mg_ledger _ Hm). by split.
Qed.

(** However many ticks the heartbeat serves. *)
Lemma run_spec ctx n w : managed w → wp (run E R ctx n) (λ _ w', managed w' ∧ frame w w') w.
Proof.
  revert w. induction n as [|n IH]; intros w Hm; cbn [run]; wp_simpl; [split; [done|apply frame_refl]|].
  destruct (m_beating (w_mgr w)); cbn; wp_simpl; [|split; [done|apply frame_refl]].
  apply wp_cause. intros [c|]; wp_simpl.
  - destruct (set_beating_managed false _ (managed_bump _ Hm)) as [? ?%frame_bump]. done.
  - eapply wp_mono; [apply extend_spec; by apply managed_bump|]. intros [u|e] w1 [Hm1 Hf1%frame_bump].
    + eapply wp_mono; [by apply IH|]. intros _ w2 [Hm2 Hf2]. split; [done|]. by eapply frame_trans.
    + wp_simpl. destruct (set_beating_managed false _ Hm1) as [? ?]. split; [done|]. by eapply frame_trans.
Qed.

Lemma lock_spec w : managed w → wp (lock E R) (λ _ w', managed w' ∧ frame w w') w.
Proof.
  intros Hm. unfold lock. wp_simpl. eapply wp_mono; [apply run_spec; by apply managed_bump|].
  intros _ w' [? ?%frame_bump]. done.
Qed.

Lemma LockContext_spec w : managed w → wp (LockContext E R) (λ _ w', managed w' ∧ frame w w') w.
Proof.
  intros Hm. unfold LockContext. wp_simpl. eapply wp_mono; [apply run_spec; by apply managed_bump|].
  intros _ w' [? ?%frame_bump]. destruct (lock_timeout E _); by wp_simpl.
Qed.

(** Sections that only consult the environment. *)
Definition same_state (w w' : World) : Prop := ∃ n, w' = Nat.iter n bump w.

Lemma same_state_managed w w' : same_state w w' → managed w → managed w' ∧ frame w w'.
Proof.
  intros [n ->]. induction n as [|n IH]; intros Hm; cbn; [split; [done|apply frame_refl]|].
  destruct (IH Hm) as [Hm' Hf']. split; [by apply managed_bump|]. destruct Hf'. by split.
Qed.

Lemma same_state_mgr w w' : same_state w w' → w_mgr w' = w_mgr w.
Proof. intros [n ->]. by induction n. Qed.

Lemma batchStartError_spec ctx w : wp (batchStartError E ctx) (λ r w', same_state w w') w.
Proof.
  unfold batchStartError. wp_simpl. apply wp_cause. intros [c|]; wp_simpl; [by exists 1%nat|].
  destruct (draining E _); wp_simpl; by exists 2%nat.
Qed.

(** A handler is admitted only under leases with time left. *)
Lemma admit_spec ctx w : managed w →
  wp (manager_admit E R ctx) (λ r w', managed w' ∧ frame w w' ∧ (r = Ok tt → m_outstanding (w_mgr w') ≠ ∅ ∧
    ∃ t, until_at_least (clock E t + m_reserveFor (w_mgr w) / 3) (w_mgr w'))) w.
Proof.
  intros Hm. unfold manager_admit. wp_simpl. eapply wp_mono; [by apply lock_spec|]. intros _ w1 [Hm1 Hf1]. wp_simpl.
  eapply wp_mono; [apply batchStartError_spec|]. intros [[]|e] w2 Hs; cbn;
    destruct (same_state_managed _ _ Hs Hm1) as [Hm2 Hf2];
    pose proof (frame_trans _ _ _ Hf1 Hf2) as Hf; [|done].
  wp_simpl. case_bool_decide as Hemp; wp_simpl; [done|].
  eapply wp_mono; [apply checkLeases_spec; by apply managed_bump|].
  intros [[]|e] w3 (Hm3 & Hf3%frame_bump & _ & Hout & _); cbn; [|split_and!; [done|by eapply frame_trans|done]].
  pose proof (frame_trans _ _ _ Hf Hf3) as Hf4. wp_simpl.
  pose proof (gr_reserve _ _ (fr_grows _ _ Hf4)) as Hr. set (t := w_tick w2).
  destruct (Before_spec (m_earliest (w_mgr w3)) (Add (clock E t) (m_reserveFor (w_mgr w3) / 3))) as [Hb|Hb].
  - eapply wp_mono; [apply ensureLeases_spec; [done|]|].
    { unfold Add. pose proof (Hclock t). pose proof (mg_reserve _ Hm3). lia. }
    intros [[]|e] w4 (Hm4 & Hf5 & Hu); cbn; pose proof (frame_trans _ _ _ Hf4 Hf5) as Hf6; [|done].
    eapply wp_mono; [apply batchStartError_spec|]. intros r w5 Hs5.
    destruct (same_state_managed _ _ Hs5 Hm4) as [Hm5 Hf7].
    split_and!; [done|by eapply frame_trans|]. intros _. rewrite (same_state_mgr _ _ Hs5). split.
    + intros Hno. apply Hemp. apply map_eq_iff. intros id. rewrite lookup_empty. apply eq_None_not_Some.
      intros Hid. rewrite <- (gr_dom _ _ (fr_grows _ _ Hf3)) in Hid. rewrite <- (gr_dom _ _ (fr_grows _ _ Hf5)) in Hid.
      rewrite Hno in Hid. by destruct Hid.
    + exists t. intros id u Hid. specialize (Hu eq_refl id u Hid). unfold Add in Hu. rewrite <- Hr.
      assert (m_reserveFor (w_mgr w3) / 3 ≤ m_reserveFor (w_mgr w3)) by (apply Z.div_le_upper_bound; pose proof (mg_reserve _ Hm3); lia).
      lia.
  - wp_simpl. eapply wp_mono; [apply batchStartError_spec|]. intros r w5 Hs5.
    destruct (same_state_managed _ _ Hs5 Hm3) as [Hm5 Hf7].
    split_and!; [done|by eapply frame_trans|]. intros _. rewrite (same_state_mgr _ _ Hs5). split; [by rewrite Hout|].
    exists t. intros id u Hid. pose proof (lo_lower _ (mg_ledger _ Hm3) _ _ Hid). unfold Add in Hb. rewrite <- Hr. lia.
Qed.

Lemma cancelBatch_spec e w : managed w → wp (cancelBatch E e) (λ _ w', managed w' ∧ frame w w') w.
Proof.
  intros Hm. unfold cancelBatch. wp_simpl. split; [|split; try done; by apply grows_same].
  eapply managed_same; try done. destruct (mg_ledger _ Hm). by split.
Qed.

(** Dropping entries from the ledger keeps it sound. *)
Lemma shrink_managed w m' : managed w → m_token m' = m_token (w_mgr w) →
  m_reserveFor m' = m_reserveFor (w_mgr w) → m_ordered m' = m_ordered (w_mgr w) →
  (∀ id u, m_outstanding m' !! id = Some u → m_outstanding (w_mgr w) !! id = Some u ∧ 0 < m_earliest m' ≤ u) →
  0 ≤ m_earliest m' → managed (set_mgr m' w).
Proof.
  intros [Ht Hr [Hnn Hlo Hpos Hord] Hk Hs] Ht' Hr' Ho' Hout Hnn'. split; cbn; [congruence|lia| |done|].
  - split; [done|naive_solver|naive_solver|]. intros id u [Hu _]%Hout. rewrite Ho'. by eapply Hord.
  - intros id u j [Hu _]%Hout. by apply Hs.
Qed.

Definition dropped (jobID : JobID) (m : Manager) : Manager :=
  clear_if_empty (set_outstanding (delete jobID (m_outstanding m)) m).

Lemma dropped_managed jobID w : managed w → managed (set_mgr (dropped jobID (w_mgr w)) w)
  ∧ m_outstanding (dropped jobID (w_mgr w)) = delete jobID (m_outstanding (w_mgr w)).
Proof.
  intros Hm. unfold dropped, clear_if_empty. cbn.
  assert (∀ id u, delete jobID (m_outstanding (w_mgr w)) !! id = Some u →
            m_outstanding (w_mgr w) !! id = Some u ∧ 0 < m_earliest (w_mgr w) ≤ u) as Hdel.
  { intros id u [_ Hu]%lookup_delete_Some. split; [done|]. by eapply (lo_lower _ (mg_ledger _ Hm)). }
  case_bool_decide as He; (split; [|done]); apply shrink_managed; try done; cbn in *; [|apply Hm].
  intros id u Hu. rewrite He in Hu. done.
Qed.

Definition cleared (m : Manager) : Manager := set_earliest zeroTime (set_outstanding ∅ m).

Lemma cleared_managed w : managed w → managed (set_mgr (cleared (w_mgr w)) w).
Proof. intros Hm. apply shrink_managed; try done. Qed.

(** A finalization callback runs only under leases that outlive its own
    deadline by the margin, on a job still in the ledger. *)
Lemma finalize_rule ctx jobID fin Q w : managed w →
  (* the callback never ran *)
  (∀ e w', managed w' → frame w w' → Q (Err e) w') →
  (* it ran *)
  (∀ w1 deadline, managed w1 → frame w w1 → is_Some (m_outstanding (w_mgr w1) !! jobID) →
     deadline = clock E (w_tick w) + leaseFinalizationTimeout →
     until_at_least (deadline + batchFinalizationMargin) (w_mgr w1) →
     wp (fin (mkCtx false false (Some deadline)))
        (λ r w2, match r with
                 | Ok _ => Q (Ok tt) (set_mgr (dropped jobID (w_mgr w2)) w2)
                 | Err e => Q (Err e) w2
                 end) w1) →
  wp (finalize E R ctx jobID fin) Q w.
Proof.
  intros Hm Hno Hrun. unfold finalize. wp_simpl.
  eapply wp_mono; [apply LockContext_spec; by apply managed_bump|].
  intros [[]|e] w1 [Hm1 Hf1%frame_bump]; cbn.
  2: { wp_simpl. eapply wp_mono; [by apply cancelBatch_spec|]. intros _ w2 [Hm2 Hf2]. wp_simpl.
       apply Hno; [done|]. by eapply frame_trans. }
  wp_simpl. destruct (m_outstanding (w_mgr w1) !! jobID) as [u|] eqn:Hj; wp_simpl; [|by apply Hno].
  eapply wp_mono; [apply ensureLeases_spec; [done|]|].
  { unfold Add, leaseFinalizationTimeout, batchFinalizationMargin, Second. pose proof (Hclock (w_tick w)). lia. }
  intros [[]|e] w2 (Hm2 & Hf2 & Hu); cbn; [|apply Hno; [done|by eapply frame_trans]].
  wp_simpl. apply wp_ctx_err. intros [e|]; wp_simpl.
  { apply Hno; [by apply managed_bump|]. eapply frame_trans; [done|]. destruct Hf2. by split. }
  eapply wp_mono.
  - apply (Hrun (bump w2) (clock E (w_tick w) + leaseFinalizationTimeout)); [by apply managed_bump| | |done|].
    + eapply frame_trans; [done|]. destruct Hf2. by split.
    + cbn. apply (gr_dom _ _ (fr_grows _ _ Hf2)). eauto.
    + exact (Hu eq_refl).
  - intros [[]|e] w3 HQ; wp_simpl; done.
Qed.

Lemma add_job_managed j w : managed w → (∃ u, ReservedAt j = Some u ∧ 0 < u) →
  m_outstanding (w_mgr w) !! ID j = None →
  (∀ j', jobs_t (w_db w) !! ID j = Some j' → LeaseTokenOf j' = tok →
     ∃ r, ReservedAt j' = Some r ∧ ts (reserved_time j) ≤ r) →
  managed (set_mgr (add_job j (w_mgr w)) (bump w)).
Proof.
  intros [Ht Hr [Hnn Hlo Hpo Hord] Hk Hs] (u & Hu & Hpos) Hnone Hst.
  assert (reserved_time j = u) as Hrt by (unfold reserved_time; by rewrite Hu).
  destruct (earlier_le (m_earliest (w_mgr w)) u Hnn Hpos) as (H1 & H2 & H3).
  split; cbn; [done|done| |done|].
  - split; cbn; rewrite ?Hrt; [lia|intros id v; rewrite lookup_insert_Some..].
    + intros [[_ <-]|[_ Hv]]; [lia|]. destruct (Hlo _ _ Hv). lia.
    + naive_solver.
    + rewrite elem_of_app, list_elem_of_singleton. naive_solver.
  - intros id v x. cbn. rewrite lookup_insert_Some. intros [[<- <-]|[Hne Hv]] Hx Htx; [by apply Hst|].
    by eapply Hs.
Qed.

Lemma add_checked_spec jobs w : managed w →
  (* claimed rows are stored with the deadline they report or a later one *)
  (∀ j, j ∈ jobs → ∀ u, ReservedAt j = Some u → ∀ j', jobs_t (w_db w) !! ID j = Some j' →
     LeaseTokenOf j' = tok → ∃ r, ReservedAt j' = Some r ∧ ts u ≤ r) →
  wp (add_checked E jobs) (λ r w', managed w' ∧ w_db w' = w_db w ∧
    (r = Ok tt → ∀ id, is_Some (m_outstanding (w_mgr w') !! id)
                       ↔ is_Some (m_outstanding (w_mgr w) !! id) ∨ id ∈ ID <$> jobs)) w.
Proof.
  revert w. induction jobs as [|j jobs IH]; intros w Hm Hst; cbn [add_checked]; wp_simpl.
  { split_and!; [done..|]. intros _ id. set_solver. }
  destruct (validateClaimedJobLease j (m_token (w_mgr (bump w))) _) as [[]|e] eqn:Hv; wp_simpl;
    [|split_and!; [by apply managed_bump|done..]].
  case_bool_decide as Hdup; wp_simpl; [split_and!; [by apply managed_bump|done..]|].
  apply validateClaimedJobLease_ok in Hv as (Htok & u & Hu & Hlt).
  assert (0 < u) as Hpos by (pose proof (Hclock (w_tick w)); lia).
  assert (managed (set_mgr (add_job j (w_mgr w)) (bump w))) as Hm1.
  { apply add_job_managed; [done|by exists u|by apply eq_None_not_Some|]. intros j' Hj' Ht'.
    unfold reserved_time. rewrite Hu. apply (Hst j ltac:(set_solver) u Hu j' Hj' Ht'). }
  eapply wp_mono; [apply (IH _ Hm1)|].
  { intros x Hx v Hv. apply (Hst x); [set_solver|done]. }
  intros r w2 (Hm2 & Hdb & Hout). split_and!; [done..|]. intros Hr id. rewrite (Hout Hr), fmap_cons, elem_of_cons.
  cbn [w_mgr set_mgr bump add_job m_outstanding set_outstanding set_earliest set_ordered].
  rewrite lookup_insert_is_Some'. naive_solver.
Qed.

(** What the sections that settle or drop rows leave alone. *)
Record quiet_frame (w w' : World) : Prop := {
  qf_paused : w_paused w' = w_paused w;
  qf_streak : w_streak w' = w_streak w;
  qf_handled : w_handled w' = w_handled w;
  qf_events : w_events w' = w_events w
}.

Lemma frame_quiet w w' : frame w w' → quiet_frame w w'.
Proof. intros []. by split. Qed.
Lemma quiet_frame_trans w1 w2 w3 : quiet_frame w1 w2 → quiet_frame w2 w3 → quiet_frame w1 w3.
Proof. intros [] []. split; congruence. Qed.

Lemma finalizeAll_rule ctx leaseUntil fin Q w : managed w → 0 < leaseUntil →
  (∀ e w', managed w' → frame w w' → Q (Err e) w') →
  (∀ w1, managed w1 → frame w w1 → m_outstanding (w_mgr w1) ≠ ∅ → until_at_least leaseUntil (w_mgr w1) →
     wp fin (λ r w2, match r with
                     | Ok _ => Q (Ok tt) (set_mgr (cleared (w_mgr w2)) w2)
                     | Err e => Q (Err e) w2
                     end) w1) →
  wp (finalizeAll E R ctx leaseUntil fin) Q w.
Proof.
  intros Hm Hpos Hno Hrun. unfold finalizeAll. wp_simpl.
  eapply wp_mono; [by apply LockContext_spec|]. intros [[]|e] w1 [Hm1 Hf1]; cbn.
  2: { wp_simpl. eapply wp_mono; [by apply cancelBatch_spec|]. intros _ w2 [Hm2 Hf2]. wp_simpl.
       apply Hno; [done|]. by eapply frame_trans. }
  wp_simpl. case_bool_decide as Hemp; wp_simpl; [by apply Hno|].
  eapply wp_mono; [by apply ensureLeases_spec|].
  intros [[]|e] w2 (Hm2 & Hf2 & Hu); cbn; [|apply Hno; [done|by eapply frame_trans]].
  wp_simpl. apply wp_ctx_err. intros [e|]; wp_simpl.
  { apply Hno; [by apply managed_bump|]. eapply frame_trans; [done|]. destruct Hf2. by split. }
  eapply wp_mono; [apply Hrun|].
  - by apply managed_bump.
  - eapply frame_trans; [done|]. destruct Hf2. by split.
  - intros He. cbn in He. apply Hemp, map_empty. intros id. apply eq_None_not_Some. intros Hid.
    apply (gr_dom _ _ (fr_grows _ _ Hf2)) in Hid. rewrite He in Hid. by destruct Hid.
  - exact (Hu eq_refl).
  - intros [[]|e] w3 HQ; by wp_simpl.
Qed.

Lemma forget_spec jobID w : managed w →
  wp (forget E R jobID) (λ _ w', managed w' ∧ quiet_frame w w'
    ∧ (∀ id, is_Some (m_outstanding (w_mgr w') !! id) ↔ id ≠ jobID ∧ is_Some (m_outstanding (w_mgr w) !! id))) w.
Proof.
  intros Hm. unfold forget. wp_simpl. eapply wp_mono; [by apply lock_spec|]. intros _ w1 [Hm1 Hf1]. wp_simpl.
  destruct (dropped_managed jobID w1 Hm1) as [Hm2 Hout]. split_and!; [done|by destruct Hf1|].
  intros id. cbn. fold (dropped jobID (w_mgr w1)). rewrite Hout, lookup_delete_is_Some.
  rewrite (gr_dom _ _ (fr_grows _ _ Hf1)). naive_solver.
Qed.

Lemma forgetAll_spec w : managed w →
  wp (forgetAll E R) (λ _ w', managed w' ∧ quiet_frame w w' ∧ m_outstanding (w_mgr w') = ∅) w.
Proof.
  intros Hm. unfold forgetAll. wp_simpl. eapply wp_mono; [by apply lock_spec|]. intros _ w1 [Hm1 Hf1]. wp_simpl.
  split_and!; [by apply cleared_managed|by destruct Hf1|done].
Qed.

Lemma stopAndWait_spec w : managed w →
  wp (stopAndWait E R) (λ r w', managed w' ∧ frame w w' ∧ m_beating (w_mgr w') = false ∧ r = m_err (w_mgr w')) w.
Proof.
  intros Hm. unfold stopAndWait. wp_simpl. eapply wp_mono; [by apply lock_spec|]. intros _ w1 [Hm1 Hf1]. wp_simpl.
  destruct (set_beating_managed false _ Hm1) as [Hm2 Hf2]. split_and!; [done|by eapply frame_trans|done|done].
Qed.

(** ** Calls that settle rows of the batch *)

(** Nothing carries the token afterwards that did not before, unchanged. *)
Definition clears (d d' : Db) : Prop :=
  keyed (jobs_t d') ∧
  ∀ id j, jobs_t d' !! id = Some j → LeaseTokenOf j = tok → jobs_t d !! id = Some j.

Lemma clears_refl d : keyed (jobs_t d) → clears d d.
Proof. by split. Qed.

Lemma clears_trans d1 d2 d3 : clears d1 d2 → clears d2 d3 → clears d1 d3.
Proof. intros [_ H1] [Hk H2]. split; [done|]. eauto. Qed.

Lemma others_clears t d : keyed (jobs_t d) → clears d (others E t d).
Proof. split; [by apply Hkeyed|]. intros id j. by apply Hothers. Qed.

Lemma clears_managed w w' : managed w → w_mgr w' = w_mgr w → clears (w_db w) (w_db w') → managed w'.
Proof.
  intros [Ht Hr Hl Hk Hs] Hmgr [Hk' Hc]. split; rewrite ?Hmgr; try done.
  intros id u j Hu Hj Htok. eauto.
Qed.

Lemma update_clears p f d n d' : keyed (jobs_t d) → tok ≠ LeaseTokenNil →
  (∀ j, ID (f j) = ID j) → (∀ j, LeaseTokenOf (f j) = LeaseTokenNil) → updates p f d n d' → clears d d'.
Proof.
  intros Hk Htok Hid Hnil [-> _]. split; [by apply keyed_update|]. intros id j. cbn [jobs_t set_jobs].
  rewrite sql_update_lookup, fmap_Some. intros (j0 & Hj0 & ->). destruct (p j0); [|done].
  rewrite Hnil. congruence.
Qed.

Lemma delete_clears p d n d' : keyed (jobs_t d) → deletes p d n d' → clears d d'.
Proof.
  intros Hk [-> _]. split; [by apply keyed_delete|]. intros id j. cbn [jobs_t set_jobs].
  rewrite sql_delete_lookup. destruct (jobs_t d !! id); [|done]. by destruct (p _).
Qed.

Lemma settle_clears os d : keyed (jobs_t d) → tok ≠ LeaseTokenNil →
  clears d (set_jobs (settle ts os (jobs_t d)) d).
Proof.
  intros Hk Htok.
  assert (∀ id j, settle ts os (jobs_t d) !! id = Some j → ID j = id ∧ (LeaseTokenOf j = tok → jobs_t d !! id = Some j))
    as Hall.
  { intros id j. rewrite settle_lookup. destruct (jobs_t d !! id) as [j0|] eqn:Hj0; [|done]. cbn.
    pose proof (Hk _ _ Hj0) as Hid. destruct (outcome_of os id) as [o|]; [|naive_solver].
    unfold outcome_row. destruct (o_Kind o); try done; intros [= <-]; cbn; split; congruence. }
  split; cbn [jobs_t set_jobs]; [intros id j Hj|intros id j Hj Ht]; by apply Hall.
Qed.

Lemma outstandingIDs_elem m id : ledger_ok m →
  id ∈ outstandingIDsLocked m ↔ is_Some (m_outstanding m !! id).
Proof.
  intros Hl. unfold outstandingIDsLocked. rewrite list_elem_of_fmap. split.
  - intros ([i u] & -> & [_ Hu]%outstanding_in_elem). eauto.
  - intros [u Hu]. exists (id, u). split; [done|]. apply outstanding_in_elem. split; [by eapply lo_ordered|done].
Qed.

(** A release call, whatever becomes of its answer. *)
Lemma release_clears ids t d r d' : keyed (jobs_t d) →
  ReleaseUnstartedJobsWithLease R ids tok t d = (r, d') → clears d d'.
Proof.
  intros Hk Hop. destruct r as [n|e].
  - apply release_ok in Hop as [(Htok & _) Hup]. eapply update_clears, Hup; done.
  - rewrite (release_atomic _ _ _ _ _ _ Hop). by apply clears_refl.
Qed.

(** Rows put back: available again, with the attempt their claim counted
    taken back. *)
Definition put_back (ids : list JobID) (d' : Db) : Prop :=
  ∀ id, id ∈ ids → ∃ j, LeaseTokenOf j = tok ∧ 0 < Attempts j ∧ jobs_t d' !! id = Some (release_row j).

Lemma release_puts_back ids t d n d' : keyed (jobs_t d) →
  ReleaseUnstartedJobsWithLease R ids tok t d = (Ok n, d') → n = Z.of_nat (length ids) → put_back ids d'.
Proof.
  intros Hk [_ [-> ->]]%release_ok Hn id Hin.
  apply symmetry, Z.eq_le_incl, affected_all in Hn as [_ Hall]; [|done|intros j Hj; by eapply owned_in, owned_counted_owned].
  destruct (Hall _ Hin) as (j & Hj & Ho). exists j. cbn [jobs_t set_jobs]. rewrite sql_update_lookup, Hj. cbn.
  rewrite Ho. apply andb_true_iff in Ho as [[Ht _]%owned_live%live_spec Ha%Z.ltb_lt]. done.
Qed.

Lemma releaseUnstarted_spec ctx w : managed w →
  wp (releaseUnstarted E R ctx) (λ r w', managed w' ∧ quiet_frame w w'
    ∧ (r = Ok tt → m_outstanding (w_mgr w') = ∅ ∧
         ∀ id, is_Some (m_outstanding (w_mgr w) !! id) → ∃ ids, id ∈ ids ∧ put_back ids (w_db w'))) w.
Proof.
  intros Hm. unfold releaseUnstarted. wp_simpl. eapply wp_mono; [by apply lock_spec|]. intros _ w1 [Hm1 Hf1].
  wp_simpl. pose proof (λ id, outstandingIDs_elem _ id (mg_ledger _ Hm1)) as Hids.
  assert (∀ id, is_Some (m_outstanding (w_mgr w) !! id) → id ∈ outstandingIDsLocked (w_mgr w1)) as Hin.
  { intros id Hid. by apply Hids, (gr_dom _ _ (fr_grows _ _ Hf1)). }
  pose proof (frame_quiet _ _ Hf1) as Hq.
  destruct (outstandingIDsLocked (w_mgr w1)) as [|i ids0] eqn:Eids.
  { wp_simpl. split_and!; [done|done|]. intros _. split.
    - apply map_empty. intros id. apply eq_None_not_Some. intros ?%Hids. set_solver.
    - intros id ?%Hin. set_solver. }
  rewrite <- Eids in *. set (ids := outstandingIDsLocked (w_mgr w1)) in *. clearbody ids. clear Eids.
  wp_simpl. rewrite (mg_token _ Hm1). apply wp_call.
  - intros d r d' Hd Hop. cbn in Hd.
    assert (clears (w_db w1) d) as Hc0 by (subst d; apply others_clears, Hm1).
    assert (clears (w_db w1) d') as Hc1 by (eapply clears_trans; [done|by eapply release_clears; [apply Hc0|]]).
    assert (managed (set_db d' (bump (bump w1)))) as Hm2 by (by eapply (clears_managed w1)).
    assert (quiet_frame w (set_db d' (bump (bump w1)))) as Hq2 by (by destruct Hq).
    destruct r as [n|e]; wp_simpl; [|done].
    destruct (Z.eqb_spec n (Z.of_nat (length ids))) as [Hn|]; cbn; wp_simpl; [|done].
    split_and!; [by apply (cleared_managed _ Hm2)|by destruct Hq2|]. intros _. split; [done|].
    intros id Hid. exists ids. split; [by apply Hin|]. eapply release_puts_back; [apply Hc0|done|done].
  - intros d r d' e Hd Hop. cbn in Hd.
    assert (clears (w_db w1) d) as Hc0 by (subst d; apply others_clears, Hm1).
    assert (clears (w_db w1) d') as Hc1 by (eapply clears_trans; [done|by eapply release_clears; [apply Hc0|]]).
    split; wp_simpl; (split_and!; [|by destruct Hq|done]); by eapply (clears_managed w1).
Qed.

(** Under leases that outlive a deadline by the margin, a row that carries
    the token is live at every clock reading up to the deadline, whatever
    the column's rounding. *)
Lemma window_live w deadline id j t : managed w →
  until_at_least (deadline + batchFinalizationMargin) (w_mgr w) → is_Some (m_outstanding (w_mgr w) !! id) →
  jobs_t (w_db w) !! id = Some j → LeaseTokenOf j = tok → t ≤ deadline → live tok (ts t) j = true.
Proof.
  intros Hm Hu [u Hid] Hj Htok Ht. specialize (Hu _ _ Hid).
  destruct (mg_sound _ Hm _ _ _ Hid Hj Htok) as (r & Hr & Hle).
  apply live_spec. split; [done|]. exists r. split; [done|].
  pose proof (ts_close (ts:=ts) t). pose proof (ts_close (ts:=ts) u).
  unfold batchFinalizationMargin, Second, Millisecond, Microsecond, Nanosecond in *. lia.
Qed.

(** Whatever the repository, the other workers and the driver do, an
    extension keeps the deadline ledger sound: [earliestUntil] stays a lower
    bound, no outstanding job is dropped and no deadline is shortened, and
    every row that still carries the batch's token is stored with the ledger's
    deadline or a later one.  When it returns without error, every
    outstanding lease reaches at least the required time. *)
Theorem ensureLeasesLocked_sound ctx requiredUntil targetUntil w r w' :
  managed w → 0 < requiredUntil → ensureLeasesLocked E R ctx requiredUntil targetUntil w = (r, w') →
  managed w' ∧ grows (w_mgr w) (w_mgr w') ∧ w_handled w' = w_handled w
  ∧ (r = Ok tt → ∀ id u, m_outstanding (w_mgr w') !! id = Some u → requiredUntil ≤ u).
Proof.
  intros Hm Hreq Hrun. pose proof (wp_run _ _ _ _ _ (ensureLeases_spec ctx _ targetUntil _ Hm Hreq) Hrun)
    as (Hm' & Hf & Hu). split_and!; [done|apply Hf|apply Hf|exact Hu].
Qed.

(** The same holds for the heartbeat, however many ticks it serves. *)
Theorem heartbeat_sound ctx ticks w r w' : managed w → run E R ctx ticks w = (r, w') →
  managed w' ∧ grows (w_mgr w) (w_mgr w').
Proof.
  intros Hm Hrun. pose proof (wp_run _ _ _ _ _ (run_spec ctx ticks _ Hm) Hrun) as (Hm' & Hf).
  split; [done|apply Hf].
Qed.

(** A handler is admitted only while the batch holds at least one lease
    and every outstanding lease has at least a third of the reservation time
    left at a clock reading of this admission. *)
Theorem admit_margin ctx w w' : managed w → manager_admit E R ctx w = (Ok tt, w') →
  managed w' ∧ m_outstanding (w_mgr w') ≠ ∅
  ∧ ∃ t, ∀ id u, m_outstanding (w_mgr w') !! id = Some u →
      clock E t + m_reserveFor (w_mgr w) / 3 ≤ u.
Proof.
  intros Hm Hrun. pose proof (wp_run _ _ _ _ _ (admit_spec ctx _ Hm) Hrun) as (Hm' & _ & Hok).
  destruct (Hok eq_refl) as (Hne & t & Hu). split_and!; [done..|]. by exists t.
Qed.

(** C25: a finalization runs its callback only on an outstanding job and
    inside a window the lease covers: until the callback's own deadline, at
    every clock reading and under the rounding of the timestamp column, a row
    that still carries the token passes the statement's lease test.  The job
    leaves the ledger exactly when the callback succeeds. *)
Theorem finalization_window ctx jobID fin w r w' :
  managed w → finalize E R ctx jobID fin w = (r, w') →
  (managed w' ∧ grows (w_mgr w) (w_mgr w') ∧ r ≠ Ok tt)
  ∨ ∃ w1 deadline r1 w2,
      deadline = clock E (w_tick w) + leaseFinalizationTimeout
      ∧ managed w1 ∧ grows (w_mgr w) (w_mgr w1) ∧ is_Some (m_outstanding (w_mgr w1) !! jobID)
      ∧ (∀ id j t, is_Some (m_outstanding (w_mgr w1) !! id) → jobs_t (w_db w1) !! id = Some j →
           LeaseTokenOf j = tok → t ≤ deadline → live tok (ts t) j = true)
      ∧ fin (mkCtx false false (Some deadline)) w1 = (r1, w2) ∧ r = r1
      ∧ (r1 = Ok tt → m_outstanding (w_mgr w') = delete jobID (m_outstanding (w_mgr w2)))
      ∧ (r1 ≠ Ok tt → w' = w2).
Proof.
  intros Hm Hrun. pattern r, w'. eapply wp_run; [|exact Hrun]. apply finalize_rule; [done| |].
  { intros e w1 Hm1 Hf1. left. split_and!; [done|apply Hf1|done]. }
  intros w1 deadline Hm1 Hf1 Hin Hd Hu. unfold wp. destruct (fin _ w1) as [r1 w2] eqn:Hfin. cbn.
  assert (∀ id j t, is_Some (m_outstanding (w_mgr w1) !! id) → jobs_t (w_db w1) !! id = Some j →
           LeaseTokenOf j = tok → t ≤ deadline → live tok (ts t) j = true) as Hlive
    by (intros; by eapply window_live).
  assert (∀ jid m, m_outstanding (dropped jid m) = delete jid (m_outstanding m)) as Hdrop.
  { intros jid m. unfold dropped, clear_if_empty. by case_bool_decide. }
  destruct r1 as [[]|e]; right; exists w1, deadline; eexists; exists w2;
    (split_and!; [done|done|apply Hf1|done|exact Hlive|exact Hfin|done| |]); try done.
Qed.

(** When the unstarted tail of a batch is released without error, every
    job that was still outstanding is back in the queue: its lease cleared
    and the attempt its claim counted taken back. *)
Theorem release_unstarted_returns_jobs ctx w w' : managed w → releaseUnstarted E R ctx w = (Ok tt, w') →
  m_outstanding (w_mgr w') = ∅ ∧ w_handled w' = w_handled w
  ∧ ∀ id, is_Some (m_outstanding (w_mgr w) !! id) →
      ∃ j, LeaseTokenOf j = tok ∧ 0 < Attempts j ∧ jobs_t (w_db w') !! id = Some (release_row j).
Proof.
  intros Hm Hrun. pose proof (wp_run _ _ _ _ _ (releaseUnstarted_spec ctx _ Hm) Hrun) as (_ & Hq & Hok).
  destruct (Hok eq_refl) as (Hemp & Hback). split_and!; [done|apply Hq|].
  intros id (ids & Hin & Hput)%Hback. by apply Hput.
Qed.
End theory.
