(* ===== verification/Footprint.v ===== *)
(** * What an operation may touch

    One traversal of the code for every relation between the worlds before
    and after: a relation that the primitive steps respect ([Footprint]) is
    respected by every operation built from them ([pres]).  Instances: which
    repository calls are made at all, which tokens are cleared, that telemetry
    and handler records are left alone. *)

From S2P Require Import Prelude GoTime Errors Models Batch Sql Repo Runtime LeaseManager.
Open Scope Z_scope.

(** The repository calls an operation may make. *)
Abbreviation Allowed := (∀ A : Type, Op A → Prop).

Class Footprint (E : Env) (allowed : Allowed) (P : World → World → Prop) : Prop := {
  fp_preorder :: PreOrder P;
  fp_bump w : P w (bump w);
  fp_mgr m w : P w (set_mgr m w);
  fp_event e w : P w (add_event e w);
  fp_paused p w : P w (set_paused p w);
  fp_streak p w : P w (set_streak p w);
  fp_others t w : P w (set_db (others E t (w_db w)) w);
  fp_op A (op : Op A) w : allowed A op → P w (set_db (op (w_db w)).2 w);
  fp_rollback w w' : P w w' → P w (set_db (w_db w) w')
}.

Section pres.
Context {E : Env} {allowed : Allowed} (P : World → World → Prop) `{!Footprint E allowed P}.

Definition pres {A} (m : M A) : Prop := ∀ w, P w (m w).2.

Lemma pres_ret {A} (a : A) : pres (mret a).
Proof. intros w. cbn. reflexivity. Qed.
Lemma pres_ok {A} (a : A) : pres (ok a).
Proof. apply pres_ret. Qed.
Lemma pres_error {A} e : pres (error (A:=A) e).
Proof. apply pres_ret. Qed.
Lemma pres_gets {A} (f : World → A) : pres (gets f).
Proof. intros w. cbn. reflexivity. Qed.

Lemma pres_bind {A B} (m : M A) (f : A → M B) : pres m → (∀ a, pres (f a)) → pres (m ≫= f).
Proof.
  intros Hm Hf w. unfold mbind, M_bind. specialize (Hm w). destruct (m w) as [a w1]. cbn in *.
  etrans; [exact Hm|apply Hf].
Qed.

Lemma pres_bind_ok {A B} (m : M (result A)) (f : A → M (result B)) :
  pres m → (∀ a, pres (f a)) → pres (bind_ok m f).
Proof.
  intros Hm Hf w. unfold bind_ok. specialize (Hm w). destruct (m w) as [[a|e] w1]; cbn in *; [|done].
  etrans; [exact Hm|apply Hf].
Qed.

Lemma pres_map_error {A} f (m : M (result A)) : pres m → pres (map_error f m).
Proof. intros Hm w. unfold map_error. specialize (Hm w). by destruct (m w). Qed.

Lemma pres_tick : pres tick.
Proof. intros w. apply fp_bump. Qed.
Lemma pres_now : pres (now E).
Proof. intros w. apply fp_bump. Qed.
Lemma pres_draws n : pres (draws n).
Proof. intros w. cbn. induction n as [|n IH]; cbn; [reflexivity|]. etrans; [exact IH|apply fp_bump]. Qed.
Lemma pres_isDraining : pres (isDraining E).
Proof. intros w. apply fp_bump. Qed.
Lemma pres_cause c : pres (cause E c).
Proof. intros w. apply fp_bump. Qed.
Lemma pres_ctx_err c : pres (ctx_err E c).
Proof. intros w. apply fp_bump. Qed.
Lemma pres_NewLeaseToken : pres (NewLeaseToken E).
Proof. intros w. apply fp_bump. Qed.
Lemma pres_NewJobID : pres (NewJobID E).
Proof. intros w. apply fp_bump. Qed.
Lemma pres_modify f : (∀ w, P w (f w)) → pres (modify f).
Proof. intros Hf w. apply Hf. Qed.
Lemma pres_modify_mgr f : pres (modify_mgr f).
Proof. intros w. apply fp_mgr. Qed.
Lemma pres_cancelBatch e : pres (cancelBatch E e).
Proof. apply pres_bind; [apply pres_tick|]. intros t. apply pres_modify_mgr. Qed.

Lemma set_db_bump d w : set_db d (bump w) = bump (set_db d w).
Proof. done. Qed.
Lemma set_db_same w : set_db (w_db w) w = w.
Proof. by destruct w. Qed.

Lemma pres_call_tx {A} (op : Op A) : allowed A op → pres (call_tx E op).
Proof.
  intros Hop w. unfold call_tx, mbind, M_bind, tick, on_db, execute. cbn.
  pose proof (fp_op A op w Hop) as Hst. destruct (op (w_db w)) as [r d'] eqn:Eop. cbn in Hst.
  assert (P w (set_db d' (bump w))) as Happ by (rewrite set_db_bump; etrans; [exact Hst|apply fp_bump]).
  assert (P w (set_db (w_db w) (bump w))) as Hnot by (rewrite set_db_bump, set_db_same; apply fp_bump).
  destruct (fault E (w_tick w)) as [[e []]|]; cbn; done.
Qed.

Lemma pres_call {A} (op : Op A) : allowed A op → pres (call E op).
Proof.
  intros Hop w. set (w0 := set_db (others E (w_tick w) (w_db w)) w).
  assert ((call E op w).2 = (call_tx E op w0).2) as ->.
  { unfold call, call_tx, mbind, M_bind, tick, on_db, execute. cbn.
    destruct (op _) as [r d']. by destruct (fault E (w_tick w)). }
  etrans; [apply fp_others|]. by apply pres_call_tx.
Qed.

Lemma pres_RunInTx {A} atomic (fn : M (result A)) : pres fn → pres (RunInTx E atomic fn).
Proof.
  intros Hfn w. unfold RunInTx, mbind, M_bind, tick, modify, gets. cbn.
  set (w0 := set_db (others E (w_tick w) (w_db w)) (bump w)).
  assert (P w w0) as H0 by (unfold w0; rewrite set_db_bump; etrans; [apply fp_others|apply fp_bump]).
  specialize (Hfn w0). change (others E (w_tick w) (w_db w)) with (w_db w0).
  destruct (fn w0) as [[a|e] w1]; cbn in *; destruct atomic; cbn; try (by etrans; [exact H0|exact Hfn]).
  - assert (P w (bump w1)) as Hb by (etrans; [exact H0|etrans; [exact Hfn|apply fp_bump]]).
    destruct (commit_fault E (w_tick w1)) as [[e []]|]; cbn; try done.
    rewrite set_db_bump. etrans; [exact H0|]. etrans; [apply fp_rollback, Hfn|apply fp_bump].
  - etrans; [exact H0|]. by apply fp_rollback.
Qed.
End pres.

Create HintDb pres discriminated.
#[export] Hint Resolve pres_ret pres_ok pres_error pres_gets pres_tick pres_now pres_draws pres_isDraining pres_cause
  pres_ctx_err pres_NewLeaseToken pres_NewJobID pres_modify_mgr pres_cancelBatch pres_call pres_call_tx : pres.

(** Walk through the code. *)
Ltac pres_auto :=
  repeat first
    [ solve [eauto 4 with pres]
    | match goal with
      | |- pres _ (bind_ok _ _) => eapply pres_bind_ok; [eassumption| |intros ?]
      | |- pres _ (mbind _ _) => eapply pres_bind; [eassumption| |intros ?]
      | |- pres _ (map_error _ _) => eapply pres_map_error
      | |- pres _ (RunInTx _ _ _) => eapply pres_RunInTx; [eassumption|]
      | |- pres _ (match ?x with _ => _ end) => destruct x
      end ].

(** ** The lease manager *)

Section manager_footprint.
Context {E : Env} {allowed : Allowed} (P : World → World → Prop) `{!Footprint E allowed P} (R : JobsRepository).
Context (Hextend : ∀ ids tok t u, allowed _ (ExtendJobLeases R ids tok t u))
        (Hrelease : ∀ ids tok t, allowed _ (ReleaseUnstartedJobsWithLease R ids tok t)).

Lemma pres_newBatchLeaseManager jobs tok r : pres P (newBatchLeaseManager jobs tok r).
Proof. intros w. apply fp_mgr. Qed.

Lemma pres_failLease {A} e : pres P (failLeaseLocked E (A:=A) e).
Proof. unfold failLeaseLocked, setError. pres_auto. Qed.

Lemma pres_checkLeases t : pres P (checkLeasesLocked E t).
Proof. unfold checkLeasesLocked, recomputeEarliestLocked. pres_auto; apply pres_failLease. Qed.

Lemma pres_ensureLeases ctx req target : pres P (ensureLeasesLocked E R ctx req target).
Proof.
  unfold ensureLeasesLocked, recomputeEarliestLocked.
  pres_auto; first [apply pres_checkLeases|apply pres_failLease].
Qed.

Lemma pres_run ctx n : pres P (run E R ctx n).
Proof.
  induction n as [|n IH]; cbn [run]; [eauto with pres|]. unfold extend.
  pres_auto; try apply pres_ensureLeases.
Qed.

Lemma pres_lock : pres P (lock E R).
Proof. unfold lock. pres_auto. apply pres_run. Qed.
Lemma pres_LockContext : pres P (LockContext E R).
Proof. unfold LockContext. pres_auto. apply pres_run. Qed.
Lemma pres_batchStartError ctx : pres P (batchStartError E ctx).
Proof. unfold batchStartError. pres_auto. Qed.

Lemma pres_admit ctx : pres P (manager_admit E R ctx).
Proof.
  unfold manager_admit. pres_auto;
    first [apply pres_lock|apply pres_batchStartError|apply pres_checkLeases|apply pres_ensureLeases].
Qed.

Lemma pres_finalize ctx id fin : (∀ c, pres P (fin c)) → pres P (finalize E R ctx id fin).
Proof. intros Hfin. unfold finalize. pres_auto; first [apply pres_LockContext|apply pres_ensureLeases|apply Hfin]. Qed.

Lemma pres_finalizeAll ctx u fin : pres P fin → pres P (finalizeAll E R ctx u fin).
Proof. intros Hfin. unfold finalizeAll. pres_auto; first [apply pres_LockContext|apply pres_ensureLeases|done]. Qed.

Lemma pres_add jobs : pres P (add E R jobs).
Proof.
  unfold add. eapply pres_bind; [eassumption|apply pres_lock|]. intros _.
  induction jobs as [|j jobs IH]; cbn [add_checked]; pres_auto.
Qed.

Lemma pres_forget id : pres P (forget E R id).
Proof. unfold forget. pres_auto. apply pres_lock. Qed.
Lemma pres_forgetAll : pres P (forgetAll E R).
Proof. unfold forgetAll. pres_auto. apply pres_lock. Qed.
Lemma pres_releaseUnstarted ctx : pres P (releaseUnstarted E R ctx).
Proof. unfold releaseUnstarted. pres_auto. apply pres_lock. Qed.
Lemma pres_stopAndWait : pres P (stopAndWait E R).
Proof. unfold stopAndWait. pres_auto. apply pres_lock. Qed.
End manager_footprint.

#[export] Hint Resolve pres_newBatchLeaseManager pres_run pres_admit pres_finalize pres_finalizeAll pres_add
  pres_forget pres_forgetAll pres_releaseUnstarted pres_stopAndWait : pres.
