(* ===== verification/Service.v ===== *)
(** * The worker service: single handlers

    outbox/service_claim.go, outbox/observer.go, the pause and streak maps of
    outbox/service_execution_batch.go, and the reservation-batch path of
    outbox/service_batch.go and outbox/service.go: claim a batch, run its jobs
    in order under the lease manager, finalize each, release what was not
    started. *)

From S2P Require Import Prelude GoTime Errors Models Retry Batch Sql Repo Stats Options Fencing Runtime.
From S2P Require Import LeaseManager Footprint.
Open Scope Z_scope.

(** ** outbox/observer.go *)

Section observer.
Context (E : Env) (S : Service).

(** The send on the channel goes through or is dropped. *)
Definition emitOutcome (event : RuntimeOutcome) : M unit :=
  if negb (observer (s_options S)) then mret tt
  else t ← tick; if sink E t then modify (add_event event) else mret tt.

Definition observeJobOutcome (job : Job) (kind : RuntimeOutcomeKind) (availableAt : Z) : M unit :=
  if negb (observer (s_options S)) then mret tt
  else if match kind with OutcomeDLQCommitted => negb (atomicDLQ (s_options S)) | _ => false end then mret tt
  else
    t ← now E;
    emitOutcome {| e_Kind := kind; e_JobID := ID job; e_Capability := Some (job_capability job);
                   e_Attempt := Attempts job; e_AvailableAt := availableAt; e_ObservedAt := t;
                   e_ClaimedJobs := 0 |}.

Definition observeLeaseLoss (e : option err) (claimedJobs : Z) : M unit :=
  if negb (observer (s_options S)) || negb (match e with Some e => errors_Is e ErrLeaseLost | None => false end)
  then mret tt
  else
    t ← now E;
    emitOutcome {| e_Kind := OutcomeLeaseLost; e_JobID := JobIDNil; e_Capability := None; e_Attempt := 0;
                   e_AvailableAt := zeroTime; e_ObservedAt := t; e_ClaimedJobs := claimedJobs |}.

Definition jobs_by_id (jobs : list Job) : gmap JobID Job :=
  foldl (λ m job, <[ID job := job]> m) ∅ jobs.

Fixpoint observe_outcomes (jobsByID : gmap JobID Job) (outcomes : list BatchJobOutcome) : M unit :=
  match outcomes with
  | [] => mret tt
  | outcome :: outcomes =>
      _ ← match jobsByID !! o_JobID outcome with
          | None => mret tt
          | Some job =>
              match o_Kind outcome with
              | BatchJobOutcomeSuccess => observeJobOutcome job OutcomeACKConfirmed zeroTime
              | BatchJobOutcomeRetry => observeJobOutcome job OutcomeRetryPersisted (o_AvailableAt outcome)
              | BatchJobOutcomeDefer => observeJobOutcome job OutcomeDeferPersisted (o_AvailableAt outcome)
              | BatchJobOutcomeDLQ => observeJobOutcome job OutcomeDLQCommitted zeroTime
              end
          end;
      observe_outcomes jobsByID outcomes
  end.

Definition observeBatchOutcomes (jobs : list Job) (outcomes : list BatchJobOutcome) : M unit :=
  if negb (observer (s_options S)) then mret tt else observe_outcomes (jobs_by_id jobs) outcomes.
End observer.

(** ** Pauses and retry streaks (outbox/service_execution_batch.go) *)

(** A missing entry reads as the zero time. *)
Definition paused_until (p : gmap JobCapability Z) (capability : JobCapability) : Z :=
  default zeroTime (p !! capability).

Definition pauseBatchCapability (capability : JobCapability) (until : Z) : M unit :=
  modify (λ w, if After until (paused_until (w_paused w) capability)
               then set_paused (<[capability := until]> (w_paused w)) w else w).

Definition batchCapabilityPaused (capability : JobCapability) (now : Z) : M bool := λ w,
  let until := paused_until (w_paused w) capability in
  if IsZero until || negb (After until now)
  then (false, set_paused (delete capability (w_paused w)) w)
  else (true, w).

Definition resetBatchRetryStreak (capability : JobCapability) : M unit :=
  modify (λ w, set_streak (delete capability (w_streak w)) w).

(** ** Claims *)

Section service.
Context (E : Env) (S : Service).
Abbreviation R := (rp_jobs (s_repo S)).

Definition releaseClaimedBatchTail (token : LeaseToken) (jobs : list Job) : M (result unit) :=
  match jobs with
  | [] => ok tt
  | _ =>
      let ids := ID <$> jobs in
      t ← now E;
      r ← call E (ReleaseUnstartedJobsWithLease R ids token t);
      match r with
      | Err e => error (wrapf "release unstarted claimed jobs" e)
      | Ok affected =>
          if negb (affected =? Z.of_nat (length ids))
          then error (wrapAs ErrLeaseLost "released some of the unstarted claimed jobs")
          else ok tt
      end
  end.

(** The rows of a cancelled claim that are still ours, once each. *)
Fixpoint confirmed_rows (token : LeaseToken) (now : Z) (jobs : list Job) (seen : gset JobID) : list Job :=
  match jobs with
  | [] => []
  | job :: jobs =>
      if negb (is_Ok (validateClaimedJobLease job token now)) then confirmed_rows token now jobs seen
      else if bool_decide (ID job ∈ seen) then confirmed_rows token now jobs seen
      else job :: confirmed_rows token now jobs ({[ID job]} ∪ seen)
  end.

Definition releaseCancelledClaim (token : LeaseToken) (jobs : list Job) : M (result unit) :=
  t ← now E; releaseClaimedBatchTail token (confirmed_rows token t jobs ∅).

Definition claimJobsWithLease (ctx : Ctx) (token : LeaseToken)
    (claim : gset JobID → Z → Z → Op (list Job)) : M (result (list Job)) :=
  d ← isDraining E;
  if (d : bool) then error (ESentinel ErrServiceDraining)
  else
    t ← now E;
    let until := Add t (reserveFor (s_options S)) in
    let claimCtx := WithDeadline ctx until in
    k ← tick;
    r ← call E (claim (held E k) t until);
    claimCause ← cause E claimCtx;
    match r with
    | Err e => error e
    | Ok jobs =>
        match claimCause with
        | None => ok jobs
        | Some c =>
            r ← releaseCancelledClaim token jobs;
            match r with
            | Err e => error (EJoin [c; ESentinel errCancelledClaimCleanup; e])
            | Ok _ => error c
            end
        end
    end.

(** The capabilities that are not paused. *)
Fixpoint eligible_capabilities (now : Z) (capabilities : list JobCapability) : M (list JobCapability) :=
  match capabilities with
  | [] => mret []
  | capability :: capabilities =>
      paused ← batchCapabilityPaused capability now;
      rest ← eligible_capabilities now capabilities;
      mret (if (paused : bool) then rest else capability :: rest)
  end.

(** The validation loop of [claimBatch]; each row reads the clock. *)
Fixpoint validate_claimed (token : LeaseToken) (jobs : list Job) : M (result unit) :=
  match jobs with
  | [] => ok tt
  | job :: jobs =>
      t ← now E;
      match validateClaimedJobLease job token t with
      | Err e => error e
      | Ok _ => validate_claimed token jobs
      end
  end.

Definition claimBatch (ctx : Ctx) (capabilities : list JobCapability) : M (result (list Job * LeaseToken)) :=
  match capabilities with
  | [] => error (ESentinel ErrNoJobs)
  | _ =>
      t ← now E;
      eligible ← eligible_capabilities t capabilities;
      match eligible with
      | [] => error (ESentinel ErrNoJobs)
      | _ =>
          leaseToken ← NewLeaseToken E;
          let size := reservationBatchSize (s_options S) in
          r ← claimJobsWithLease ctx leaseToken (λ locked now until,
                FindAndReserveJobsForCapabilities R locked now until leaseToken eligible size);
          match r with
          | Err e => error (wrapf "find and reserve job batch" e)
          | Ok [] => error (ESentinel ErrEmptyReservationBatch)
          | Ok jobs =>
              if size <? Z.of_nat (length jobs)
              then error (EText "reservation batch repository returned too many jobs")
              else
                _ ←? validate_claimed leaseToken jobs;
                ok (jobs, leaseToken)
          end
      end
  end.

(** ** Finalization *)

Definition deferLeased (job : Job) (availableAt : Z) : M (result unit) :=
  match DeferJobWithLease R with
  | None => error (ESentinel ErrBatchRepositoryNotConfigured)
  | Some defer =>
      t ← now E;
      let availableAt := if Before availableAt t then t else availableAt in
      r ← call E (defer (ID job) (LeaseTokenOf job) t availableAt);
      match r with
      | Err e => error (wrapf "defer leased job" e)
      | Ok affected =>
          if negb (affected =? 1) then error (ESentinel ErrLeaseLost)
          else
            _ ← pauseBatchCapability {| cap_Name := Name job; cap_SchemaVersion := SchemaVersionOf job |} availableAt;
            _ ← observeJobOutcome E S job OutcomeDeferPersisted availableAt;
            ok tt
      end
  end.

Definition ackBatch (job : Job) : M (result unit) :=
  t ← now E;
  r ← call E (DeleteJobWithLease R (ID job) (LeaseTokenOf job) t);
  match r with
  | Err e => error (wrapf "delete reservation batch job" e)
  | Ok affected =>
      if negb (affected =? 1) then error (ESentinel ErrLeaseLost)
      else _ ← observeJobOutcome E S job OutcomeACKConfirmed zeroTime; ok tt
  end.

(** The statements of one transaction; outside one ([RunInTx] of a
    best-effort transactor) the others may interleave. *)
Definition call_in {A} (op : Op A) : M (result A) :=
  if atomicDLQ (s_options S) then call_tx E op else call E op.

(** [CreateFailedJobVersioned] draws its id and reads the clock twice. *)
Definition create_failed (job : Job) (reason : string) : M (result JobID) :=
  newID ← NewJobID E;
  failedAt ← now E;
  createdAt ← now E;
  call_in (CreateFailedJobVersioned (s_failed S) newID failedAt createdAt (ID job) (Name job)
             (SchemaVersionOf job) (Payload job) reason).

Definition dlq_tx (job : Job) (reason : string) : M (result unit) :=
  _ ←? map_error (wrapf "create versioned failed job") (create_failed job reason);
  t ← now E;
  r ← call_in (DeleteJobWithLease R (ID job) (LeaseTokenOf job) t);
  match r with
  | Err e => error (wrapf "delete reservation batch job" e)
  | Ok affected => if negb (affected =? 1) then error (ESentinel ErrLeaseLost) else ok tt
  end.

Definition dlqBatch (job : Job) (reason : string) : M (result unit) :=
  r ← RunInTx E (atomicDLQ (s_options S)) (dlq_tx job reason);
  match r with
  | Err e => error e
  | Ok _ => _ ← observeJobOutcome E S job OutcomeDLQCommitted zeroTime; ok tt
  end.

Definition rescheduleLeased (job : Job) (availableAt : Z) : M (result unit) :=
  t ← now E;
  let availableAt := if Before availableAt t then t else availableAt in
  r ← call E (RescheduleJobWithLease R (ID job) (LeaseTokenOf job) t availableAt);
  match r with
  | Err e => error (wrapf "reschedule job" e)
  | Ok affected =>
      if negb (affected =? 1) then error (ESentinel ErrLeaseLost)
      else _ ← observeJobOutcome E S job OutcomeRetryPersisted availableAt; ok tt
  end.

(** ** Running a handler *)

(** [handleJob]: the heartbeat may beat while the handler runs; a panic is
    recovered. *)
Definition handleJob (handler : Handler) (job : Job) : M (option err) :=
  t ← tick;
  _ ← modify (add_handled [(ID job, Attempts job)]);
  _ ← run E R batchCtx (beats E t);
  mret (match h_Handle handler t (withJobMetadata job) (Payload job) with
        | Returns r => r
        | Panics v => Some (EText ("panic in job " +:+ Name job +:+ ": " +:+ v))
        end).

Definition executeJob (ctx : Ctx) (handler : Handler) (job : Job) : M (option err) :=
  t ← now E;
  let handlerCtx := WithDeadline ctx (Add t (h_ExecutionTimeout handler)) in
  e ← handleJob handler job;
  c ← cause E handlerCtx;
  mret (match c with Some c => Some c | None => e end).

(** What the service decides about a handler's error. *)
Inductive Disposition : Type :=
| Ack
| DLQ (reason : string)
| Defer (availableAt : Z)
| Reschedule (handleErr : err)
| KeepLease.

Definition disposition (handler : Handler) (job : Job) (handleErr : option err) : Disposition :=
  match handleErr with
  | None => Ack
  | Some e =>
      if IsPermanent (Some e) then DLQ ("permanent failure: " +:+ Error e)
      else match DeferTime (Some e) with
           | Some availableAt => Defer availableAt
           | None =>
               if h_MaxAttempts handler <=? Attempts job then DLQ ("max attempts exceeded: " +:+ Error e)
               else if bool_decide (is_Some (RetryTime (Some e)))
                       || bool_decide (is_Some (retryPolicy (s_options S)))
               then Reschedule e else KeepLease
           end
  end.

Definition processBatchJob (ctx : Ctx) (job : Job) : M (bool * result unit) :=
  match s_jobs S !! job_capability job with
  | None => mret (false, Err (wrapAs ErrUnsupportedClaim "no handler for the claimed capability"))
  | Some handler =>
      a ← manager_admit E R ctx;
      match a with
      | Err e => mret (false, Err e)
      | Ok _ =>
          handleErr ← executeJob ctx handler job;
          c ← cause E ctx;
          match c with
          | Some c => mret (true, Err c)
          | None =>
              r ← match disposition handler job handleErr with
                  | Ack => finalize E R ctx (ID job) (λ _, ackBatch job)
                  | DLQ reason => finalize E R ctx (ID job) (λ _, dlqBatch job reason)
                  | Defer availableAt => finalize E R ctx (ID job) (λ _, deferLeased job availableAt)
                  | Reschedule e =>
                      t ← now E;
                      match retryTime (retryPolicy (s_options S)) job e t 0 with
                      | Err e => error e
                      | Ok availableAt => finalize E R ctx (ID job) (λ _, rescheduleLeased job availableAt)
                      end
                  | KeepLease => _ ← forget E R (ID job); ok tt
                  end;
              mret (true, r)
          end
      end
  end.

(** ** One reservation batch *)

Fixpoint process_jobs (ctx : Ctx) (jobs : list Job) : M (option err) :=
  match jobs with
  | [] => mret None
  | job :: jobs =>
      '(started, r) ← processBatchJob ctx job;
      match r with
      | Ok _ => process_jobs ctx jobs
      | Err e =>
          _ ← (if (started : bool) then forget E R (ID job) else mret tt);
          mret (Some e)
      end
  end.

Definition to_option {A} (r : result A) : option err := match r with Ok _ => None | Err e => Some e end.

Definition batch_result (processErr heartbeatErr releaseErr : option err) : result unit :=
  let processErr := match processErr with Some e => Some e | None => heartbeatErr end in
  if match processErr with Some e => errors_Is e ErrServiceDraining | None => false end
     && bool_decide (releaseErr = None) && bool_decide (heartbeatErr = None)
  then Err (ESentinel ErrServiceDraining)
  else match processErr, releaseErr with
       | None, None => Ok tt
       | _, _ => match errors_Join [processErr; heartbeatErr; releaseErr] with
                 | Some e => Err e
                 | None => Ok tt
                 end
       end.

Definition findAndProcessBatch (capabilities : list JobCapability) : M (result unit) :=
  c ← claimBatch runCtx capabilities;
  match c with
  | Err e => _ ← observeLeaseLoss E S (Some e) 0; error e
  | Ok (jobs, leaseToken) =>
      _ ← newBatchLeaseManager jobs leaseToken (reserveFor (s_options S));
      processErr ← process_jobs batchCtx jobs;
      heartbeatErr ← stopAndWait E R;
      releaseErr ← releaseUnstarted E R runCtx;
      let r := batch_result processErr heartbeatErr (to_option releaseErr) in
      _ ← observeLeaseLoss E S (to_option r) (Z.of_nat (length jobs));
      mret r
  end.

Definition processOneAvailableSingle (singleCapabilities : list JobCapability) : M (bool * option err) :=
  match singleCapabilities with
  | [] => mret (false, None)
  | _ =>
      r ← findAndProcessBatch singleCapabilities;
      mret (match r with
            | Ok _ => (true, None)
            | Err e => if errors_Is e ErrNoJobs || errors_Is e ErrServiceDraining then (false, None)
                       else (false, Some e)
            end)
  end.
End service.

(** ** What the finalizations store *)

Section finalizations.
Context (E : Env) (S : Service) (ts : Z → Z).
Abbreviation R := (rp_jobs (s_repo S)).
Context `{!LeaseRepository ts R, !FailedRepository ts (s_failed S)}.

(** Telemetry changes nothing but the event log. *)
Definition telemetry (w w' : World) : Prop :=
  w_db w' = w_db w ∧ w_mgr w' = w_mgr w ∧ w_paused w' = w_paused w ∧ w_streak w' = w_streak w
  ∧ w_handled w' = w_handled w.

Lemma telemetry_trans w1 w2 w3 : telemetry w1 w2 → telemetry w2 w3 → telemetry w1 w3.
Proof. unfold telemetry. naive_solver congruence. Qed.

Lemma observeJobOutcome_spec job kind at_ w :
  wp (observeJobOutcome E S job kind at_) (λ _ w', telemetry w w' ∧
    (w_events w' = w_events w ∨
     ∃ t, (kind = OutcomeDLQCommitted → atomicDLQ (s_options S) = true) ∧
       w_events w' = w_events w ++ [{| e_Kind := kind; e_JobID := ID job; e_Capability := Some (job_capability job);
                       e_Attempt := Attempts job; e_AvailableAt := at_; e_ObservedAt := t; e_ClaimedJobs := 0 |}])) w.
Proof.
  unfold observeJobOutcome, emitOutcome. destruct (observer (s_options S)); cbn; wp_simpl; [|split; [done|by left]].
  destruct kind; cbn; wp_simpl; try (destruct (atomicDLQ (s_options S)) eqn:Hat; cbn; wp_simpl; [|split; [done|by left]]);
    destruct (sink E _); wp_simpl; (split; [done|]); [right|by left| right|by left| right|by left| right|by left|right|by left];
    eexists; (split; [|reflexivity]); done.
Qed.

(** A fenced statement on one id that reports one row. *)
Lemma updated_one p f id d d' : keyed (jobs_t d) → (∀ j, p j = true → ID j = id) → updates p f d 1 d' →
  ∃ j, jobs_t d !! id = Some j ∧ p j = true ∧ d' = set_jobs (<[id := f j]> (jobs_t d)) d.
Proof.
  intros Hk Hp [-> Hn]. rewrite (affected_singleton p id) in Hn by done.
  destruct (jobs_t d !! id) as [j|] eqn:Hj; [|done]. destruct (p j) eqn:Hpj; [|done].
  exists j. split_and!; [done..|]. f_equal. apply map_eq. intros i. rewrite sql_update_lookup.
  destruct (decide (i = id)) as [->|Hne]; [by rewrite lookup_insert_eq, Hj; cbn; rewrite Hpj|].
  rewrite lookup_insert_ne by done. destruct (jobs_t d !! i) as [x|] eqn:Hx; [|done]. cbn.
  destruct (p x) eqn:Hpx; [|done]. rewrite <- (Hk _ _ Hx), (Hp _ Hpx) in Hne. done.
Qed.

Lemma deleted_one p id d d' : keyed (jobs_t d) → (∀ j, p j = true → ID j = id) → deletes p d 1 d' →
  ∃ j, jobs_t d !! id = Some j ∧ p j = true ∧ d' = set_jobs (delete id (jobs_t d)) d.
Proof.
  intros Hk Hp [-> Hn]. rewrite (affected_singleton p id) in Hn by done.
  destruct (jobs_t d !! id) as [j|] eqn:Hj; [|done]. destruct (p j) eqn:Hpj; [|done].
  exists j. split_and!; [done..|]. f_equal. apply map_eq. intros i. rewrite sql_delete_lookup.
  destruct (decide (i = id)) as [->|Hne]; [by rewrite lookup_delete_eq, Hj, Hpj|].
  rewrite lookup_delete_ne by done. destruct (jobs_t d !! i) as [x|] eqn:Hx; [|done].
  destruct (p x) eqn:Hpx; [|done]. rewrite <- (Hk _ _ Hx), (Hp _ Hpx) in Hne. done.
Qed.

Lemma owned_one id tok t j : owned [id] tok t j = true → ID j = id.
Proof. intros Hin%owned_in. set_solver. Qed.

(** The tables just before a settlement: the row is there, live under the
    job's token. *)
Definition held_row (job : Job) (t : Z) (d : Db) (j : Job) : Prop :=
  jobs_t d !! ID job = Some j ∧ live (LeaseTokenOf job) (ts t) j = true.

(** How a disposition settles the job's row.  [t] is the clock reading of
    the statement. *)
Inductive settles_job (job : Job) (t : Z) (d : Db) : Disposition → Db → Prop :=
| settles_ack j : held_row job t d j →
    settles_job job t d Ack (set_jobs (delete (ID job) (jobs_t d)) d)
| settles_defer j at_ : held_row job t d j → 0 < Attempts j →
    settles_job job t d (Defer at_) (set_jobs (<[ID job := defer_row (ts (Z.max at_ t)) j]> (jobs_t d)) d)
| settles_reschedule j e at_ : held_row job t d j → t ≤ at_ →
    settles_job job t d (Reschedule e) (set_jobs (<[ID job := reschedule_row (ts at_) j]> (jobs_t d)) d)
| settles_dlq j reason newID failedAt createdAt : held_row job t d j →
    settles_job job t d (DLQ reason)
      (set_jobs (delete (ID job) (jobs_t d))
         (set_failed (<[newID := failed_row ts newID failedAt createdAt (ID job) (Name job) (SchemaVersionOf job)
                                   (Payload job) reason]> (failed_t d)) d))
| settles_dlq_besteffort j reason newID failedAt createdAt d0 :
    atomicDLQ (s_options S) = false →                  (* the record was stored before, on its own *)
    failed_t d0 !! newID = Some (failed_row ts newID failedAt createdAt (ID job) (Name job)
                                   (SchemaVersionOf job) (Payload job) reason) →
    held_row job t d j →
    settles_job job t d (DLQ reason) (set_jobs (delete (ID job) (jobs_t d)) d).

Context (Hkeyed : ∀ t d, keyed (jobs_t d) → keyed (jobs_t (others E t d))).

(** The shape every finalization has: confirmed storage with its event, or
    an error without one. *)
Definition finalized (job : Job) (disp : Disposition) (w w' : World) (r : result unit) : Prop :=
  w_handled w' = w_handled w ∧ w_streak w' = w_streak w ∧ w_mgr w' = w_mgr w ∧
  match r with
  | Ok _ => ∃ d t, settles_job job t d disp (w_db w') ∧
              ((∀ at_, disp ≠ Defer at_) → w_paused w' = w_paused w)
  | Err _ => w_events w' = w_events w ∧ w_paused w' = w_paused w
  end.

Lemma ackBatch_spec job w : keyed (jobs_t (w_db w)) →
  wp (ackBatch E S job) (λ r w', finalized job Ack w w' r) w.
Proof.
  intros Hk. unfold ackBatch. wp_simpl. apply wp_call.
  - intros d [n|e] d' Hd Hop; wp_simpl; [|done].
    destruct (Z.eqb_spec n 1) as [->|]; cbn; wp_simpl; [|done].
    assert (keyed (jobs_t d)) as Hkd by (subst d; by apply Hkeyed).
    apply delete_ok in Hop as [_ Hdel]. apply (deleted_one _ (ID job)) in Hdel as (j & Hj & Ho & ->);
      [|done|intros j; apply owned_one].
    eapply wp_mono; [apply observeJobOutcome_spec|]. intros _ w' [(Hdb & Hm & Hp & Hs & Hh) _]. wp_simpl.
    split_and!; [done..|]. exists d, (clock E (w_tick w)). rewrite Hdb. split; [|done].
    econstructor. split; [done|by eapply owned_live].
  - intros d r d' e Hd Hop. split; wp_simpl; done.
Qed.

Lemma rescheduleLeased_spec job e at_ w : keyed (jobs_t (w_db w)) →
  wp (rescheduleLeased E S job at_) (λ r w', finalized job (Reschedule e) w w' r) w.
Proof.
  intros Hk. unfold rescheduleLeased. wp_simpl. set (t := clock E (w_tick w)).
  assert (t ≤ (if Before at_ t then t else at_)) as Hat by (destruct (Before_spec at_ t); lia).
  apply wp_call.
  - intros d [n|e'] d' Hd Hop; wp_simpl; [|done].
    destruct (Z.eqb_spec n 1) as [->|]; cbn; wp_simpl; [|done].
    assert (keyed (jobs_t d)) as Hkd by (subst d; by apply Hkeyed).
    apply reschedule_ok in Hop as [_ Hup]. apply (updated_one _ _ (ID job)) in Hup as (j & Hj & Ho & ->);
      [|done|intros j; apply owned_one].
    eapply wp_mono; [apply observeJobOutcome_spec|]. intros _ w' [(Hdb & Hm & Hp & Hs & Hh) _]. wp_simpl.
    split_and!; [done..|]. exists d, t. rewrite Hdb. split; [|done].
    econstructor; [|done]. split; [done|by eapply owned_live].
  - intros d r d' e' Hd Hop. split; wp_simpl; done.
Qed.

Lemma deferLeased_spec job at_ w : keyed (jobs_t (w_db w)) →
  wp (deferLeased E S job at_) (λ r w', finalized job (Defer at_) w w' r) w.
Proof.
  intros Hk. unfold deferLeased. destruct (DeferJobWithLease R) as [defer|] eqn:Hdef; [|by wp_simpl].
  wp_simpl. set (t := clock E (w_tick w)).
  assert ((if Before at_ t then t else at_) = Z.max at_ t) as -> by (destruct (Before_spec at_ t); lia).
  apply wp_call.
  - intros d [n|e] d' Hd Hop; wp_simpl; [|done].
    destruct (Z.eqb_spec n 1) as [->|]; cbn; wp_simpl; [|done].
    assert (keyed (jobs_t d)) as Hkd by (subst d; by apply Hkeyed).
    eapply defer_ok in Hop as [_ Hup]; [|done|done].
    apply (updated_one _ _ (ID job)) in Hup as (j & Hj & Ho & ->);
      [|done|intros j Hj%owned_counted_owned; by eapply owned_one].
    unfold pauseBatchCapability. wp_simpl. set (w1 := if After _ _ then _ else _).
    assert (w_db w1 = set_jobs (<[ID job:=defer_row (ts (at_ `max` t)) j]> (jobs_t d)) d ∧ w_mgr w1 = w_mgr w
            ∧ w_handled w1 = w_handled w ∧ w_streak w1 = w_streak w) as (E1 & E2 & E3 & E4)
      by (subst w1; by destruct (After _ _)).
    eapply wp_mono; [apply observeJobOutcome_spec|]. intros _ w' [(Hdb & Hm & Hp & Hs & Hh) _]. wp_simpl.
    split_and!; [congruence..|]. exists d, t. rewrite Hdb, E1. split; [|naive_solver].
    apply andb_true_iff in Ho as [Ho Ha%Z.ltb_lt].
    econstructor; [|done]. split; [done|by eapply owned_live].
  - intros d r d' e Hd Hop. split; wp_simpl; done.
Qed.

(** The transaction's callback: the record and the deletion, or an error. *)
Lemma dlq_tx_atomic_spec job reason w : atomicDLQ (s_options S) = true → keyed (jobs_t (w_db w)) →
  wp (dlq_tx E S job reason) (λ r w', w_mgr w' = w_mgr w ∧ w_paused w' = w_paused w ∧ w_streak w' = w_streak w
    ∧ w_handled w' = w_handled w ∧ w_events w' = w_events w
    ∧ (r = Ok tt → ∃ t, settles_job job t (w_db w) (DLQ reason) (w_db w'))) w.
Proof.
  intros Hat Hk. unfold dlq_tx, create_failed, call_in, NewJobID. rewrite Hat. wp_simpl.
  set (newID := newJobID E _). set (fa := clock E _).
  apply wp_call_tx.
  2: { intros r d' e _. split; wp_simpl; cbn; done. }
  intros [i|e] d' Hop; cbn [res_map_err]; wp_simpl; [|done].
  apply failed_ok in Hop as (_ & _ & _ & ca & _ & ->). cbn [bump w_tick w_db w_mgr] in *.
  set (t := clock E _). apply wp_call_tx.
  2: { intros r d' e _. split; wp_simpl; cbn; done. }
  intros [n|e] d' Hop; wp_simpl; [|done]. destruct (Z.eqb_spec n 1) as [->|]; cbn; wp_simpl; [|done].
  split_and!; try done. intros _. exists t.
  apply delete_ok in Hop as [_ Hdel]. apply (deleted_one _ (ID job)) in Hdel as (j & Hj & Ho & ->);
    [|done|intros j; apply owned_one].
  cbn. eapply (settles_dlq _ _ _ j). split; [done|by eapply owned_live].
Qed.

Lemma dlq_tx_besteffort_spec job reason w : atomicDLQ (s_options S) = false → keyed (jobs_t (w_db w)) →
  wp (dlq_tx E S job reason) (λ r w', w_mgr w' = w_mgr w ∧ w_paused w' = w_paused w ∧ w_streak w' = w_streak w
    ∧ w_handled w' = w_handled w ∧ w_events w' = w_events w
    ∧ (r = Ok tt → ∃ d t, settles_job job t d (DLQ reason) (w_db w'))) w.
Proof.
  intros Hat Hk. unfold dlq_tx, create_failed, call_in, NewJobID. rewrite Hat. wp_simpl.
  set (newID := newJobID E _). set (fa := clock E _).
  apply wp_call.
  2: { intros d r d' e _ _. split; wp_simpl; cbn; done. }
  intros d [i|e] d' Hd Hop; cbn [res_map_err]; wp_simpl; [|done].
  apply failed_ok in Hop as (_ & _ & _ & ca & _ & ->). cbn [bump w_tick w_db w_mgr] in *.
  assert (keyed (jobs_t d)) as Hkd by (subst d; by apply Hkeyed).
  set (t := clock E _). apply wp_call.
  2: { intros d2 r d' e _ _. split; wp_simpl; cbn; done. }
  intros d2 [n|e] d' Hd2 Hop; wp_simpl; [|done]. destruct (Z.eqb_spec n 1) as [->|]; cbn; wp_simpl; [|done].
  split_and!; try done. intros _. exists d2, t.
  apply delete_ok in Hop as [_ Hdel]. apply (deleted_one _ (ID job)) in Hdel as (j & Hj & Ho & ->);
    [|subst d2; by apply Hkeyed|intros j; apply owned_one].
  cbn. eapply (settles_dlq_besteffort _ _ _ j _ newID fa ca (set_failed (<[newID := _]> (failed_t d)) d));
    [done|apply lookup_insert_eq|].
  split; [done|by eapply owned_live].
Qed.

Lemma dlqBatch_spec job reason w : keyed (jobs_t (w_db w)) →
  wp (dlqBatch E S job reason) (λ r w', finalized job (DLQ reason) w w' r
    ∧ (atomicDLQ (s_options S) = true → ∃ d0, d0 = others E (w_tick w) (w_db w) ∧
         ((w_db w' = d0 ∧ r ≠ Ok tt) ∨ ∃ t, settles_job job t d0 (DLQ reason) (w_db w')))) w.
Proof.
  intros Hk. unfold dlqBatch. wp_simpl. destruct (atomicDLQ (s_options S)) eqn:Hat.
  - apply wp_RunInTx_atomic. eapply wp_mono; [apply dlq_tx_atomic_spec; [done|by apply Hkeyed]|].
    set (d0 := others E (w_tick w) (w_db w)). cbn.
    intros [[]|e] w1 (Hm & Hp & Hs & Hh & He & Hset); wp_simpl.
    + destruct (Hset eq_refl) as (t & Hset'). split.
      * eapply wp_mono; [apply observeJobOutcome_spec|]. intros _ w' [(Hdb & Hm' & Hp' & Hs' & Hh') _]. wp_simpl.
        cbn in *. rewrite Hdb. split; [|eauto]. split_and!; [congruence..|]. exists d0, t.
        split; [by rewrite Hdb|congruence].
      * intros e. split; wp_simpl; cbn; (split; [done|]); eauto.
    + split; [done|]. cbn. eauto.
  - apply wp_RunInTx_besteffort. eapply wp_mono; [apply dlq_tx_besteffort_spec; [done|by apply Hkeyed]|].
    cbn. intros [[]|e] w1 (Hm & Hp & Hs & Hh & He & Hset); wp_simpl; [|split; [done|done]].
    destruct (Hset eq_refl) as (d & t & Hset').
    eapply wp_mono; [apply observeJobOutcome_spec|]. intros _ w' [(Hdb & Hm' & Hp' & Hs' & Hh') _]. wp_simpl.
    split; [|done]. split_and!; [congruence..|]. exists d, t. split; [by rewrite Hdb|congruence].
Qed.
End finalizations.

(** ** Footprints *)

Section service_footprint.
Context {E : Env} {allowed : Allowed} (P : World → World → Prop) `{!Footprint E allowed P} (S : Service).
Abbreviation R := (rp_jobs (s_repo S)).

Lemma pres_emitOutcome event : pres P (emitOutcome E S event).
Proof. unfold emitOutcome. pres_auto. apply pres_modify. intros w. apply fp_event. Qed.

Lemma pres_observeJobOutcome job kind at_ : pres P (observeJobOutcome E S job kind at_).
Proof. unfold observeJobOutcome. pres_auto; apply pres_emitOutcome. Qed.

Lemma pres_observeLeaseLoss e n : pres P (observeLeaseLoss E S e n).
Proof. unfold observeLeaseLoss. pres_auto. apply pres_emitOutcome. Qed.

Lemma pres_observeBatchOutcomes jobs outcomes : pres P (observeBatchOutcomes E S jobs outcomes).
Proof.
  unfold observeBatchOutcomes. pres_auto.
  induction outcomes as [|o outcomes IH]; cbn [observe_outcomes]; pres_auto; apply pres_observeJobOutcome.
Qed.

Lemma pres_pause c until : pres P (pauseBatchCapability c until).
Proof. apply pres_modify. intros w. destruct (After _ _); [apply fp_paused|reflexivity]. Qed.

Lemma pres_reset c : pres P (resetBatchRetryStreak c).
Proof. apply pres_modify. intros w. apply fp_streak. Qed.

Lemma pres_paused c t : pres P (batchCapabilityPaused c t).
Proof. intros w. unfold batchCapabilityPaused. destruct (_ || _); cbn; [apply fp_paused|reflexivity]. Qed.

Lemma pres_ackBatch job : (∀ t, allowed _ (DeleteJobWithLease R (ID job) (LeaseTokenOf job) t)) →
  pres P (ackBatch E S job).
Proof. intros Ha. unfold ackBatch. pres_auto. apply pres_observeJobOutcome. Qed.

Lemma pres_rescheduleLeased job at_ :
  (∀ t u, allowed _ (RescheduleJobWithLease R (ID job) (LeaseTokenOf job) t u)) →
  pres P (rescheduleLeased E S job at_).
Proof. intros Ha. unfold rescheduleLeased. pres_auto; apply pres_observeJobOutcome. Qed.

Lemma pres_deferLeased job at_ :
  (∀ f t u, DeferJobWithLease R = Some f → allowed _ (f (ID job) (LeaseTokenOf job) t u)) →
  pres P (deferLeased E S job at_).
Proof.
  intros Ha. unfold deferLeased. destruct (DeferJobWithLease R) as [f|] eqn:Hf; [|pres_auto].
  specialize (λ t u, Ha f t u eq_refl). pres_auto; first [apply pres_pause|apply pres_observeJobOutcome].
Qed.

Lemma pres_call_in {A} (op : Op A) : allowed A op → pres P (call_in E S op).
Proof. intros Ha. unfold call_in. pres_auto. Qed.

Lemma pres_create_failed job reason :
  (∀ i t u, allowed _ (CreateFailedJobVersioned (s_failed S) i t u (ID job) (Name job) (SchemaVersionOf job)
                         (Payload job) reason)) →
  pres P (create_failed E S job reason).
Proof. intros Ha. unfold create_failed. pres_auto. by apply pres_call_in. Qed.

Lemma pres_dlqBatch job reason :
  (∀ t, allowed _ (DeleteJobWithLease R (ID job) (LeaseTokenOf job) t)) →
  (∀ i t u, allowed _ (CreateFailedJobVersioned (s_failed S) i t u (ID job) (Name job) (SchemaVersionOf job)
                         (Payload job) reason)) →
  pres P (dlqBatch E S job reason).
Proof.
  intros Ha Hf. unfold dlqBatch, dlq_tx. pres_auto;
    first [by apply pres_create_failed|by apply pres_call_in|apply pres_observeJobOutcome].
Qed.
End service_footprint.

#[export] Hint Resolve pres_observeJobOutcome pres_observeLeaseLoss pres_observeBatchOutcomes pres_pause pres_reset
  pres_paused pres_ackBatch pres_rescheduleLeased pres_deferLeased pres_dlqBatch pres_create_failed pres_call_in : pres.

(** ** Processing the jobs of a batch *)

Section batch.
Context (E : Env) (S : Service) (ts : Z → Z) (tok : LeaseToken).
Abbreviation R := (rp_jobs (s_repo S)).
Context `{!LeaseRepository ts R, !FailedRepository ts (s_failed S)}.
Context (Hothers : ∀ t d id j, jobs_t (others E t d) !! id = Some j → LeaseTokenOf j = tok →
           jobs_t d !! id = Some j).
Context (Hkeyed : ∀ t d, keyed (jobs_t d) → keyed (jobs_t (others E t d))).
Context (Hclock : ∀ t, 0 < clock E t).
Abbreviation managed := (managed ts tok).

(** *** Settling calls clear the token *)

Definition clearing : Allowed := λ A op, ∀ d, keyed (jobs_t d) → clears tok d (op d).2.

Definition cleared_since (w w' : World) : Prop := keyed (jobs_t (w_db w)) → clears tok (w_db w) (w_db w').

#[local] Instance clears_footprint : Footprint E clearing cleared_since.
Proof.
  assert (PreOrder cleared_since) as Hpre.
  { split; [intros w Hk; by apply clears_refl|]. intros w1 w2 w3 H1 H2 Hk.
    eapply clears_trans; [by apply H1|]. apply H2. by apply H1. }
  split; try done; try (intros; intros Hk; by apply clears_refl).
  - intros t w Hk. by apply others_clears.
  - intros A op w Hop Hk. cbn. by apply Hop.
Qed.

Lemma delete_clearing id t : clearing _ (DeleteJobWithLease R id tok t).
Proof.
  intros d Hk. destruct (DeleteJobWithLease R id tok t d) as [[n|e] d'] eqn:Hop; cbn.
  - apply delete_ok in Hop as [_ Hdel]. by eapply delete_clears.
  - rewrite (delete_atomic _ _ _ _ _ _ Hop). by apply clears_refl.
Qed.

Lemma reschedule_clearing id t u : clearing _ (RescheduleJobWithLease R id tok t u).
Proof.
  intros d Hk. destruct (RescheduleJobWithLease R id tok t u d) as [[n|e] d'] eqn:Hop; cbn.
  - apply reschedule_ok in Hop as [(Htok & _) Hup]. eapply update_clears, Hup; done.
  - rewrite (reschedule_atomic _ _ _ _ _ _ _ Hop). by apply clears_refl.
Qed.

Lemma defer_clearing f id t u : DeferJobWithLease R = Some f → clearing _ (f id tok t u).
Proof.
  intros Hf d Hk. destruct (f id tok t u d) as [[n|e] d'] eqn:Hop; cbn.
  - eapply defer_ok in Hop as [(Htok & _) Hup]; [|done..]. eapply update_clears, Hup; done.
  - rewrite (defer_atomic _ _ _ _ _ Hf _ _ _ Hop). by apply clears_refl.
Qed.

Lemma failed_clearing i t u jobID name v payload reason :
  clearing _ (CreateFailedJobVersioned (s_failed S) i t u jobID name v payload reason).
Proof.
  intros d Hk.
  destruct (CreateFailedJobVersioned (s_failed S) i t u jobID name v payload reason d) as [[n|e] d'] eqn:Hop; cbn.
  - apply failed_ok in Hop as (_ & _ & _ & ? & _ & ->). done.
  - rewrite (failed_atomic _ _ _ _ _ _ _ _ _ _ _ Hop). by apply clears_refl.
Qed.

(** A finalization, with what it means for the ledger. *)
Lemma finalized_managed {A} (m : M A) Q w : managed w → pres cleared_since m →
  wp m Q w → (∀ a w', Q a w' → w_mgr w' = w_mgr w) → wp m (λ a w', Q a w' ∧ managed w') w.
Proof.
  intros Hm Hp HQ Hmgr. split; [done|]. eapply clears_managed; [exact Hm|by eapply Hmgr|].
  apply Hp. apply Hm.
Qed.

(** *** Running a handler *)

(** A section that runs the handlers in [h]. *)
Record hframe (h : list (JobID * Z)) (w w' : World) : Prop := {
  hf_paused : w_paused w' = w_paused w;
  hf_streak : w_streak w' = w_streak w;
  hf_handled : w_handled w' = w_handled w ++ h;
  hf_events : w_events w' = w_events w;
  hf_grows : grows (w_mgr w) (w_mgr w')
}.

Lemma frame_hframe w w' : frame w w' → hframe [] w w'.
Proof. intros []. split; try done. by rewrite app_nil_r. Qed.

Lemma hframe_trans h1 h2 w1 w2 w3 : hframe h1 w1 w2 → hframe h2 w2 w3 → hframe (h1 ++ h2) w1 w3.
Proof.
  intros [] []. split; try congruence; [|by eapply grows_trans].
  rewrite app_assoc. congruence.
Qed.

(** The error a handler's run ends with: its answer, a recovered panic, or
    the end of its context. *)
Definition handler_answer (handler : Handler) (job : Job) (t : nat) : option err :=
  match h_Handle handler t (withJobMetadata job) (Payload job) with
  | Returns r => r
  | Panics v => Some (EText ("panic in job " +:+ Name job +:+ ": " +:+ v))
  end.

Definition answered (handler : Handler) (job : Job) (he : option err) : Prop :=
  (∃ t, he = handler_answer handler job t) ∨ ∃ c, he = Some c.

Lemma add_handled_managed h w : managed w → managed (add_handled h w).
Proof. intros Hm. by eapply managed_same; [exact Hm|..]; try done; apply Hm. Qed.

Lemma executeJob_spec ctx handler job w : managed w →
  wp (executeJob E S ctx handler job) (λ he w', managed w' ∧ hframe [(ID job, Attempts job)] w w'
    ∧ answered handler job he) w.
Proof.
  intros Hm. unfold executeJob, handleJob. wp_simpl. set (w0 := add_handled _ _).
  assert (managed w0) as Hm0 by (by apply add_handled_managed, managed_bump, managed_bump).
  eapply wp_mono; [by apply run_spec|]. intros _ w1 [Hm1 Hf1]. wp_simpl. apply wp_cause. intros c. wp_simpl.
  split_and!; [by apply managed_bump| |].
  - destruct Hf1. by split.
  - destruct c as [c|]; [right; eauto|left; by eexists].
Qed.

(** *** One job *)

(** Which disposition an answer calls for: a permanent error goes to the failed
    jobs whatever else it says; a defer request comes before the attempt budget;
    below the budget an explicit time or a policy reschedules. *)
Inductive disposes (handler : Handler) (job : Job) : option err → Disposition → Prop :=
| disposes_ack : disposes handler job None Ack
| disposes_permanent e : IsPermanent (Some e) = true →
    disposes handler job (Some e) (DLQ ("permanent failure: " +:+ Error e))
| disposes_defer e at_ : IsPermanent (Some e) = false → DeferTime (Some e) = Some at_ →
    disposes handler job (Some e) (Defer at_)
| disposes_exhausted e : IsPermanent (Some e) = false → DeferTime (Some e) = None → h_MaxAttempts handler ≤ Attempts job →
    disposes handler job (Some e) (DLQ ("max attempts exceeded: " +:+ Error e))
| disposes_retry e : IsPermanent (Some e) = false → DeferTime (Some e) = None → Attempts job < h_MaxAttempts handler →
    is_Some (RetryTime (Some e)) ∨ is_Some (retryPolicy (s_options S)) → disposes handler job (Some e) (Reschedule e)
| disposes_expire e : IsPermanent (Some e) = false → DeferTime (Some e) = None → Attempts job < h_MaxAttempts handler →
    RetryTime (Some e) = None → retryPolicy (s_options S) = None → disposes handler job (Some e) KeepLease.

Lemma disposition_disposes handler job he : disposes handler job he (disposition S handler job he).
Proof.
  destruct he as [e|]; cbn [disposition]; [|constructor]. destruct (IsPermanent (Some e)) eqn:Hp; [by constructor|].
  destruct (DeferTime (Some e)) as [at_|] eqn:Hd; [by constructor|].
  destruct (Z.leb_spec (h_MaxAttempts handler) (Attempts job)); [by constructor|].
  case_bool_decide as Hr; [apply disposes_retry; auto|]. case_bool_decide as Hpol; [apply disposes_retry; auto|].
  apply eq_None_not_Some in Hr, Hpol. by constructor.
Qed.

(** What processing a job stores when it succeeds. *)
Definition stored (job : Job) (disp : Disposition) (w w' : World) : Prop :=
  match disp with
  | KeepLease => w_events w' = w_events w
  | _ => ∃ d t, settles_job S ts job t d disp (w_db w')
  end.

Record processed (job : Job) (w : World) (started : bool) (r : result unit) (w' : World) : Prop := {
  pr_managed : managed w';
  pr_handled : w_handled w' = w_handled w ++ (if started then [(ID job, Attempts job)] else []);
  pr_ledger : ∀ id, is_Some (m_outstanding (w_mgr w') !! id)
                    ↔ is_Some (m_outstanding (w_mgr w) !! id) ∧ (r = Ok tt → id ≠ ID job);
  pr_stored : match r with
              | Ok _ => started = true ∧ ∃ handler he disp, s_jobs S !! job_capability job = Some handler
                  ∧ answered handler job he ∧ disposes handler job he disp ∧ stored job disp w w'
              | Err _ => w_events w' = w_events w
              end
}.

(** A finalization of the job after its handler ran. *)
Lemma finalize_processed ctx job handler he disp fin w w1 :
  hframe [(ID job, Attempts job)] w w1 → managed w1 →
  s_jobs S !! job_capability job = Some handler → answered handler job he →
  disposition S handler job he = disp → disp ≠ KeepLease → pres cleared_since fin →
  (∀ w2, keyed (jobs_t (w_db w2)) → wp fin (λ r w', finalized S ts job disp w2 w' r) w2) →
  wp (finalize E R ctx (ID job) (λ _, fin)) (λ r w', processed job w true r w') w1.
Proof.
  intros Hh Hm1 Hhd Hans Hdisp Hne Hpres Hfin.
  assert (∀ w', managed w' → frame w1 w' → ∀ e, processed job w true (Err e) w') as Hfail.
  { intros w' Hm' Hf' e. pose proof (hframe_trans _ _ _ _ _ Hh (frame_hframe _ _ Hf')) as []. rewrite app_nil_r in *.
    split; [done|done| |done]. intros id. rewrite (gr_dom _ _ hf_grows0). naive_solver. }
  eapply (finalize_rule E R ts tok); [done..| |].
  { intros e w' Hm' Hf'. by apply Hfail. }
  intros w2 deadline Hm2 Hf2 Hin _ _.
  eapply wp_mono; [apply (finalized_managed _ _ _ Hm2 Hpres (Hfin _ (mg_keyed _ _ _ Hm2)))|].
  { by intros r w' (_ & _ & ? & _). }
  pose proof (hframe_trans _ _ _ _ _ Hh (frame_hframe _ _ Hf2)) as Hh2. rewrite app_nil_r in Hh2.
  intros [[]|e] w3 [(Hhd3 & Hst3 & Hmgr & Hres) Hm3]; destruct Hh2 as [P1 P2 P3 P4 P5].
  - destruct (dropped_managed ts tok (ID job) w3 Hm3) as [Hm4 Hout]. split; [done|by cbn; rewrite Hhd3| |].
    + intros id. cbn. rewrite Hout, lookup_delete_is_Some, Hmgr, (gr_dom _ _ P5). naive_solver.
    + split; [done|]. exists handler, he, disp. split_and!; [done|done|rewrite <- Hdisp; apply disposition_disposes|]. unfold stored. cbn.
      destruct Hres as (d & t & Hset & _). destruct disp; try done; eauto.
  - split; [done|by rewrite Hhd3| |].
    + intros id. rewrite Hmgr, (gr_dom _ _ P5). naive_solver.
    + destruct Hres as [He _]. congruence.
Qed.

Lemma processBatchJob_spec ctx job w : managed w → LeaseTokenOf job = tok →
  wp (processBatchJob E S ctx job) (λ sr w', processed job w sr.1 sr.2 w') w.
Proof.
  intros Hm Htok. unfold processBatchJob.
  assert (∀ h (started : bool) w' e, managed w' → hframe h w w' →
            h = (if started then [(ID job, Attempts job)] else []) → processed job w started (Err e) w') as Hfail.
  { intros h started w' e Hm' [] ->. split; [done|done| |done].
    intros id. rewrite (gr_dom _ _ hf_grows0). naive_solver. }
  destruct (s_jobs S !! job_capability job) as [handler|] eqn:Hhd; wp_simpl.
  2: { eapply (Hfail []); [done|apply frame_hframe, frame_refl|done]. }
  eapply wp_mono; [by apply (admit_spec E R ts tok)|]. intros [[]|e] w1 (Hm1 & Hf1 & _); wp_simpl.
  2: { eapply (Hfail []); [done|by apply frame_hframe|done]. }
  eapply wp_mono; [by apply executeJob_spec|]. intros he w2 (Hm2 & Hh2 & Hans). wp_simpl.
  pose proof (hframe_trans _ _ _ _ _ (frame_hframe _ _ Hf1) Hh2) as Hh. cbn in Hh.
  apply wp_cause. intros [c|]; wp_simpl.
  { eapply (Hfail _ true); [by apply managed_bump|destruct Hh; by split|done]. }
  assert (hframe [(ID job, Attempts job)] w (bump w2)) as Hh3 by (destruct Hh; by split).
  assert (managed (bump w2)) as Hm3 by (by apply managed_bump).
  destruct (disposition S handler job he) as [|reason|at_|e|] eqn:Hdisp.
  - eapply wp_mono; [eapply finalize_processed; [done..| |]|intros r w'; by wp_simpl]; [|intros; by apply ackBatch_spec].
    eapply pres_ackBatch; [apply _|]. intros t. rewrite Htok. apply delete_clearing.
  - eapply wp_mono; [eapply finalize_processed; [done..| |]|intros r w'; by wp_simpl].
    + eapply pres_dlqBatch; [apply _|intros t; rewrite Htok; apply delete_clearing|intros; apply failed_clearing].
    + intros w4 Hk4. eapply wp_mono; [by apply dlqBatch_spec|]. by intros ? ? [? _].
  - eapply wp_mono; [eapply finalize_processed; [done..| |]|intros r w'; by wp_simpl]; [|intros; by apply deferLeased_spec].
    eapply pres_deferLeased; [apply _|]. intros f t u. rewrite Htok. apply defer_clearing.
  - wp_simpl. destruct (retryTime _ _ _ _ _) as [at_|e']; wp_simpl.
    2: { eapply (Hfail _ true); [by apply managed_bump|destruct Hh3; by split|done]. }
    assert (hframe [(ID job, Attempts job)] w (bump (bump w2))) as Hh4 by (destruct Hh3; by split).
    assert (managed (bump (bump w2))) as Hm4 by (by apply managed_bump).
    eapply wp_mono; [eapply finalize_processed; [done..| |]|intros r w'; by wp_simpl];
      [|intros; by apply rescheduleLeased_spec].
    eapply pres_rescheduleLeased; [apply _|]. intros t u. rewrite Htok. apply reschedule_clearing.
  - wp_simpl. eapply wp_mono; [by apply (forget_spec E R ts tok)|]. intros _ w4 (Hm4 & Hq4 & Hled). wp_simpl.
    destruct Hh3 as [_ _ P3 P4 P5], Hq4 as [_ _ Q3 Q4]. split; [done|by rewrite Q3| |].
    + intros id. rewrite Hled, (gr_dom _ _ P5). naive_solver.
    + split; [done|]. exists handler, he, KeepLease. split_and!; [done|done|rewrite <- Hdisp; apply disposition_disposes|]. cbn. congruence.
Qed.

(** *** The whole batch *)

Definition handled_of (jobs : list Job) : list (JobID * Z) := (λ j, (ID j, Attempts j)) <$> jobs.

(** The jobs are handled in order, up to the first that fails; those after
    it stay in the ledger. *)
Lemma process_jobs_spec ctx jobs w : managed w → Forall (λ j, LeaseTokenOf j = tok) jobs →
  wp (process_jobs E S ctx jobs) (λ o w', managed w' ∧ ∃ k : nat, (k ≤ length jobs)%nat
    ∧ w_handled w' = w_handled w ++ handled_of (take k jobs)
    ∧ (o = None → k = length jobs)
    ∧ (∀ id, is_Some (m_outstanding (w_mgr w') !! id)
             ↔ is_Some (m_outstanding (w_mgr w) !! id) ∧ id ∉ ID <$> take k jobs)) w.
Proof.
  intros Hm HF. revert w Hm. induction HF as [|job jobs Htok HF IH]; intros w Hm; cbn [process_jobs]; wp_simpl.
  { split; [done|]. exists 0%nat. cbn. rewrite app_nil_r. split_and!; [lia|done|done|]. set_solver. }
  eapply wp_mono; [by apply processBatchJob_spec|]. intros [started r] w1 [Hm1 Hh1 Hl1 Hst1].
  cbn [fst snd] in *. destruct r as [[]|e].
  - destruct Hst1 as [-> _]. eapply wp_mono; [by apply IH|]. intros o w2 (Hm2 & k & Hk & Hh2 & Hn & Hl2).
    split; [done|]. exists (Datatypes.S k). cbn. split_and!; [lia| | |].
    + rewrite Hh2, Hh1, <- app_assoc. done.
    + intros Ho. by rewrite (Hn Ho).
    + intros id. rewrite Hl2, Hl1. set_solver.
  - destruct started; wp_simpl.
    + eapply wp_mono; [by apply (forget_spec E R ts tok)|]. intros _ w2 (Hm2 & Hq2 & Hl2). wp_simpl.
      split; [done|]. exists 1%nat. cbn. split_and!; [lia| |done|].
      * rewrite (qf_handled _ _ Hq2), Hh1, take_0. done.
      * intros id. rewrite take_0, Hl2, Hl1. set_solver.
    + split; [done|]. exists 0%nat. cbn. split_and!; [lia|by rewrite Hh1|done|]. intros id. rewrite Hl1. set_solver.
Qed.

(** A manager created on the rows of a claim. *)
Lemma add_jobs_managed jobs w : managed w → NoDup (ID <$> jobs) →
  (∀ j, j ∈ jobs → m_outstanding (w_mgr w) !! ID j = None ∧ (∃ u, ReservedAt j = Some u ∧ 0 < u)
     ∧ ∀ j', jobs_t (w_db w) !! ID j = Some j' → LeaseTokenOf j' = tok →
         ∃ r, ReservedAt j' = Some r ∧ ts (reserved_time j) ≤ r) →
  managed (set_mgr (add_jobs jobs (w_mgr w)) w)
  ∧ ∀ id, is_Some (m_outstanding (add_jobs jobs (w_mgr w)) !! id)
          ↔ is_Some (m_outstanding (w_mgr w) !! id) ∨ id ∈ ID <$> jobs.
Proof.
  revert w. induction jobs as [|j jobs IH]; intros w Hm Hnd Hall; cbn [add_jobs].
  { split; [|set_solver]. destruct w. exact Hm. }
  rewrite fmap_cons, NoDup_cons in Hnd. destruct Hnd as [Hj Hnd].
  destruct (Hall j) as (Hnone & Hpos & Hst); [set_solver|].
  pose proof (add_job_managed _ _ _ _ Hm Hpos Hnone Hst) as Hm1.
  set (w1 := set_mgr (add_job j (w_mgr w)) w).
  assert (managed w1) as Hm1' by (eapply managed_same; [exact Hm1|done..|apply Hm1]).
  destruct (IH w1) as [Hm2 Hdom]; [done|done| |].
  { intros x Hx. destruct (Hall x) as (Hn & Hp & Hs); [set_solver|]. split_and!; [|done|done].
    cbn. rewrite lookup_insert_ne; [done|]. intros Heq. apply Hj. rewrite Heq. by apply list_elem_of_fmap_2. }
  split; [exact Hm2|]. intros id. cbn in Hdom. rewrite Hdom. cbn. rewrite lookup_insert_is_Some', elem_of_cons.
  naive_solver.
Qed.

Lemma newBatchLeaseManager_spec jobs w : 0 < reserveFor (s_options S) → keyed (jobs_t (w_db w)) →
  NoDup (ID <$> jobs) →
  (∀ j, j ∈ jobs → (∃ u, ReservedAt j = Some u ∧ 0 < u)
     ∧ ∀ j', jobs_t (w_db w) !! ID j = Some j' → LeaseTokenOf j' = tok →
         ∃ r, ReservedAt j' = Some r ∧ ts (reserved_time j) ≤ r) →
  wp (newBatchLeaseManager jobs tok (reserveFor (s_options S))) (λ _ w', managed w' ∧ w_handled w' = w_handled w
    ∧ w_events w' = w_events w ∧ w_db w' = w_db w
    ∧ ∀ id, is_Some (m_outstanding (w_mgr w') !! id) ↔ id ∈ ID <$> jobs) w.
Proof.
  intros Hr Hk Hnd Hall. unfold newBatchLeaseManager. wp_simpl.
  set (w0 := set_mgr (empty_manager tok (reserveFor (s_options S))) w).
  assert (managed w0) as Hm0.
  { split; cbn; [done|done| |done|]; [split; cbn; done|]. intros id u j Hu. done. }
  destruct (add_jobs_managed jobs w0 Hm0 Hnd) as [Hm Hdom].
  { intros j Hj. by split; [|apply Hall]. }
  split_and!; try done. intros id. cbn in Hdom |- *. rewrite Hdom, lookup_empty. unfold is_Some. naive_solver.
Qed.
End batch.

(** ** Claims *)

Section claims.
Context (E : Env) (S : Service) (ts : Z → Z).
Abbreviation R := (rp_jobs (s_repo S)).
Context `{!LeaseRepository ts R}.
Context (Hkeyed : ∀ t d, keyed (jobs_t d) → keyed (jobs_t (others E t d))).

(** A claim changes the tables, the pauses and the time. *)
Record claim_frame (w w' : World) : Prop := {
  cf_mgr : w_mgr w' = w_mgr w;
  cf_streak : w_streak w' = w_streak w;
  cf_handled : w_handled w' = w_handled w;
  cf_events : w_events w' = w_events w
}.

Lemma claim_frame_refl w : claim_frame w w.
Proof. by split. Qed.
Lemma claim_frame_trans w1 w2 w3 : claim_frame w1 w2 → claim_frame w2 w3 → claim_frame w1 w3.
Proof. intros [] []. split; congruence. Qed.

Lemma releaseClaimedBatchTail_frame token jobs w :
  wp (releaseClaimedBatchTail E S token jobs) (λ _ w', claim_frame w w') w.
Proof.
  unfold releaseClaimedBatchTail. destruct jobs as [|j jobs]; wp_simpl; [done|].
  apply wp_call.
  - intros d [n|e] d' Hd Hop; wp_simpl; [|done]. destruct (negb _); by wp_simpl.
  - intros d r d' e Hd Hop. split; by wp_simpl.
Qed.

(** A successful claim: the rows as the repository answered, nothing else
    happened to the tables since. *)
Lemma claimJobsWithLease_spec ctx token claim w : keyed (jobs_t (w_db w)) →
  wp (claimJobsWithLease E S ctx token claim) (λ r w', claim_frame w w' ∧
    ∀ jobs, r = Ok jobs → ∃ locked t d, keyed (jobs_t d)
      ∧ claim locked t (t + reserveFor (s_options S)) d = (Ok jobs, w_db w')) w.
Proof.
  intros Hk. unfold claimJobsWithLease. wp_simpl. destruct (draining E _); wp_simpl; [done|].
  apply wp_call.
  - intros d r d' Hd Hop. wp_simpl. apply wp_cause. intros c. destruct r as [jobs|e]; wp_simpl; [|done].
    destruct c as [c|]; wp_simpl.
    + unfold releaseCancelledClaim. wp_simpl. eapply wp_mono; [apply releaseClaimedBatchTail_frame|].
      intros [[]|e] w' Hf; wp_simpl; destruct Hf; (split; [by split|done]).
    + split; [done|]. intros ? [= <-]. eexists _, _, d. split; [subst d; by apply Hkeyed|exact Hop].
  - intros d r d' e Hd Hop. split; wp_simpl; apply wp_cause; intros c; by wp_simpl.
Qed.

Lemma eligible_spec t caps w : 0 ≤ t →
  wp (eligible_capabilities t caps) (λ l w', w_db w' = w_db w ∧ claim_frame w w' ∧ l ⊆+ caps
    ∧ ∀ c, c ∈ l → ¬ t < paused_until (w_paused w) c) w.
Proof.
  intros Ht. revert w. induction caps as [|c caps IH]; intros w; cbn [eligible_capabilities]; wp_simpl.
  { split_and!; [done|done|done|set_solver]. }
  unfold batchCapabilityPaused, wp at 1.
  assert (∀ p c', p = w_paused w ∨ p = delete c (w_paused w) →
            ¬ t < paused_until p c' → ¬ t < paused_until (w_paused w) c' ∨ c' = c) as Hsame.
  { intros p c' [->| ->]; [by left|]. destruct (decide (c' = c)) as [->|Hne]; [by right|].
    unfold paused_until. rewrite lookup_delete_ne by done. by left. }
  set (u := paused_until (w_paused w) c).
  destruct (IsZero u || negb (After u t)) eqn:Hp; cbn.
  - wp_simpl. eapply wp_mono; [apply IH|]. intros l w1 (Hdb & Hf & Hsub & Hl). wp_simpl.
    split_and!; [done|by destruct Hf|by apply submseteq_skip|].
    assert (¬ t < u) as Hu.
    { unfold IsZero, After, zeroTime in Hp. destruct (Z.eqb_spec u 0); [lia|]. cbn in Hp.
      destruct (Z.ltb_spec t u); [done|lia]. }
    intros c' [->|Hc']%elem_of_cons; [done|]. destruct (Hsame _ c' (or_intror eq_refl) (Hl _ Hc')) as [Hc|Hc]; [done|by rewrite Hc].
  - wp_simpl. eapply wp_mono; [apply IH|]. intros l w1 (Hdb & Hf & Hsub & Hl). wp_simpl.
    split_and!; [done|done|by apply submseteq_cons|done].
Qed.

Lemma validate_claimed_spec tok jobs w :
  wp (validate_claimed E tok jobs) (λ r w', w_db w' = w_db w ∧ claim_frame w w' ∧
    (r = Ok tt → ∀ j, j ∈ jobs → LeaseTokenOf j = tok ∧ ∃ u t, ReservedAt j = Some u ∧ clock E t < u)
    ∧ r ≠ Err (ESentinel ErrServiceDraining)) w.
Proof.
  revert w. induction jobs as [|j jobs IH]; intros w; cbn [validate_claimed]; wp_simpl.
  { split_and!; [done|done| |done]. set_solver. }
  destruct (validateClaimedJobLease j tok _) as [[]|e] eqn:Hv; wp_simpl.
  2: { split_and!; try done. intros [= ->]. unfold validateClaimedJobLease in Hv.
       destruct (negb _); [done|]. destruct (ReservedAt j); [|done]. by destruct (After _ _). }
  eapply wp_mono; [apply IH|]. intros r w1 (Hdb & Hf & Hall & Hd). split_and!; [done|by destruct Hf| |done].
  intros Hr x [->|Hx]%elem_of_cons; [|by apply Hall].
  apply validateClaimedJobLease_ok in Hv as (Ht & u & Hu & Hlt). split; [done|]. by exists u, (w_tick w).
Qed.

(** What a successful claim hands to the worker. *)
Record claimed (capabilities : list JobCapability) (w : World) (jobs : list Job) (tok : LeaseToken) (w' : World) : Prop := {
  cl_frame : claim_frame w w';
  cl_token : ∃ k, tok = newLeaseToken E k;
  cl_claim : ∃ locked t eligible d, keyed (jobs_t d) ∧ eligible ⊆+ capabilities
    ∧ (∀ c, c ∈ eligible → ∃ t0, ¬ clock E t0 < paused_until (w_paused w) c)
    ∧ claim_base ts locked t (t + reserveFor (s_options S)) tok eligible (reservationBatchSize (s_options S)) d jobs (w_db w')
    ∧ claim_prefix ts locked t eligible (reservationBatchSize (s_options S)) d jobs;
  cl_valid : ∀ j, j ∈ jobs → LeaseTokenOf j = tok ∧ ∃ u t, ReservedAt j = Some u ∧ clock E t < u
}.

Context (Hclock : ∀ t, 0 < clock E t).

Lemma claimBatch_spec ctx capabilities w : keyed (jobs_t (w_db w)) →
  wp (claimBatch E S ctx capabilities) (λ r w', claim_frame w w' ∧
    (∀ jobs tok, r = Ok (jobs, tok) → claimed capabilities w jobs tok w')
    ∧ r ≠ Err (ESentinel ErrServiceDraining)) w.
Proof.
  intros Hk. unfold claimBatch. destruct capabilities as [|c0 caps]; [by wp_simpl|].
  set (capabilities := c0 :: caps). wp_simpl. pose proof (Hclock (w_tick w)) as Hpos.
  eapply wp_mono; [apply eligible_spec; lia|]. intros eligible w1 (Hdb1 & Hf1 & Hsub & Hel).
  assert (claim_frame w w1) as Hf by (by destruct Hf1).
  destruct eligible as [|e0 eligible]; [by wp_simpl|]. set (el := e0 :: eligible) in *. unfold NewLeaseToken. wp_simpl.
  eapply wp_mono; [apply claimJobsWithLease_spec; cbn; by rewrite Hdb1|].
  intros r w2 (Hf2 & Hr). assert (claim_frame w w2) as Hf' by (destruct Hf, Hf2; split; cbn in *; congruence).
  destruct r as [[|j jobs]|e]; wp_simpl; [done| |done]. set (js := j :: jobs) in *.
  destruct (Z.ltb_spec (reservationBatchSize (s_options S)) (Z.of_nat (length js))); wp_simpl; [done|].
  eapply wp_mono; [apply validate_claimed_spec|]. intros [[]|e] w3 (Hdb3 & Hf3 & Hv & Hd); cbn;
    [|split_and!; [by eapply claim_frame_trans|done|congruence]].
  wp_simpl. split_and!; [by eapply claim_frame_trans| |done]. intros ? ? [= <- <-].
  destruct (Hr _ eq_refl) as (locked & t & d & Hkd & Hop). apply claim_ok in Hop as [Hb Hp]; [|done].
  split; [by eapply claim_frame_trans|by eexists| |by apply Hv].
  eexists _, t, el, d. rewrite Hdb3. split_and!; [done|done| |exact Hb|exact Hp].
  intros c Hc. exists (w_tick w). by apply Hel.
Qed.
End claims.

(** ** The single-handler worker *)

Section worker.
Context (E : Env) (S : Service) (ts : Z → Z).
Abbreviation R := (rp_jobs (s_repo S)).
Context `{!LeaseRepository ts R, !FailedRepository ts (s_failed S)}.

(** The tokens this worker draws are its own: the others never write a row
    that carries one of them. *)
Context (Htokens : ∀ k t d id j, jobs_t (others E t d) !! id = Some j → LeaseTokenOf j = newLeaseToken E k →
           jobs_t d !! id = Some j).
Context (Hkeyed : ∀ t d, keyed (jobs_t d) → keyed (jobs_t (others E t d))).
Context (Hclock : ∀ t, 0 < clock E t).
Context (Hreserve : 0 < reserveFor (s_options S)).

(** A claim that was just made can be managed. *)
Lemma claimed_managed capabilities w jobs tok w' : claimed E S ts capabilities w jobs tok w' →
  wp (newBatchLeaseManager jobs tok (reserveFor (s_options S))) (λ _ w2, managed ts tok w2
    ∧ w_handled w2 = w_handled w' ∧ w_events w2 = w_events w' ∧ w_db w2 = w_db w'
    ∧ ∀ id, is_Some (m_outstanding (w_mgr w2) !! id) ↔ id ∈ ID <$> jobs) w'.
Proof.
  intros [Hf [k Htok] (locked & t & el & d & Hkd & _ & _ & Hb & _) Hv].
  assert (keyed (jobs_t (w_db w'))) as Hk'.
  { rewrite (cp_db _ _ _ _ _ _ _ _ _ _ Hb). by apply keyed_update. }
  eapply (newBatchLeaseManager_spec E); try done; [subst tok; apply Htokens|exact (cp_distinct _ _ _ _ _ _ _ _ _ _ Hb)|]. intros j Hj.
  destruct (Hv j Hj) as (_ & u & t0 & Hu & Hlt). split.
  { exists u. split; [done|]. pose proof (Hclock t0). lia. }
  intros j' Hj' _. destruct (cp_rows _ _ _ _ _ _ _ _ _ _ Hb j Hj) as (r & u' & Hr & _ & _ & Hts & Heq).
  rewrite (cp_db _ _ _ _ _ _ _ _ _ _ Hb) in Hj'. cbn [jobs_t set_jobs] in Hj'.
  rewrite sql_update_lookup, Hr in Hj'. cbn in Hj'.
  rewrite (proj2 (in_ids_spec _ _)) in Hj'.
  2: { rewrite (Hkd _ _ Hr). by apply list_elem_of_fmap_2. }
  injection Hj' as <-. exists (ts (t + reserveFor (s_options S))). split; [done|].
  unfold reserved_time. rewrite Heq. cbn. by rewrite Hts.
Qed.

(** The jobs a batch was made of, and how far it got. *)
Definition batch_run (capabilities : list JobCapability) (w w' : World) (jobs : list Job) (k : nat) : Prop :=
  (k ≤ length jobs)%nat ∧ w_handled w' = w_handled w ++ handled_of (take k jobs)
  ∧ NoDup (ID <$> jobs) ∧ StronglySorted (not_after queue_less) jobs
  ∧ Z.of_nat (length jobs) ≤ reservationBatchSize (s_options S)
  ∧ ∀ j, j ∈ jobs → ∃ c, c ∈ capabilities ∧ row_is j c = true.

Lemma batch_result_ok p h r : batch_result p h r = Ok tt → p = None ∧ h = None ∧ r = None.
Proof.
  unfold batch_result. destruct p as [p|], h as [h|], r as [r|]; cbn; try done;
    repeat case_bool_decide; cbn; rewrite ?andb_false_r, ?andb_true_r; try done; by destruct (errors_Is _ _).
Qed.

Lemma batch_result_draining p h r : batch_result p h r = Err (ESentinel ErrServiceDraining) → h = None ∧ r = None.
Proof.
  unfold batch_result. destruct p as [p|], h as [h|], r as [r|]; cbn; try done;
    repeat case_bool_decide; cbn; rewrite ?andb_false_r, ?andb_true_r; try done; by destruct (errors_Is _ _).
Qed.

Lemma observeLeaseLoss_spec e n w : wp (observeLeaseLoss E S e n) (λ _ w', telemetry w w') w.
Proof.
  unfold observeLeaseLoss, emitOutcome. destruct (observer (s_options S)); cbn; wp_simpl; [|done].
  destruct (negb _); cbn; wp_simpl; [done|]. destruct (sink E _); by wp_simpl.
Qed.

Lemma findAndProcessBatch_spec capabilities w : keyed (jobs_t (w_db w)) →
  wp (findAndProcessBatch E S capabilities) (λ r w',
    (w_handled w' = w_handled w ∧ r ≠ Ok tt ∧ r ≠ Err (ESentinel ErrServiceDraining))
    ∨ ∃ jobs tok k, batch_run capabilities w w' jobs k ∧ (r = Ok tt → jobs ≠ [] ∧ k = length jobs)
      ∧ (r = Ok tt ∨ r = Err (ESentinel ErrServiceDraining) →
           ∀ j, j ∈ drop k jobs → ∃ row, LeaseTokenOf row = tok ∧ 0 < Attempts row
             ∧ jobs_t (w_db w') !! ID j = Some (release_row row))) w.
Proof.
  intros Hk. unfold findAndProcessBatch. wp_simpl.
  eapply wp_mono; [by apply claimBatch_spec|]. intros [[jobs tok]|e] w1 (Hf1 & Hcl & Hd).
  2: { wp_simpl. eapply wp_mono; [apply observeLeaseLoss_spec|]. intros _ w2 (_ & _ & _ & _ & Hh). wp_simpl.
       left. split_and!; [|done|congruence]. rewrite Hh. apply Hf1. }
  specialize (Hcl _ _ eq_refl). wp_simpl. eapply wp_mono; [by eapply claimed_managed|].
  intros _ w2 (Hm2 & Hh2 & _ & _ & Hl2). destruct Hcl as [_ [n Htok] (locked & t & el & d & Hkd & Hel & _ & Hb & _) Hv].
  assert (Hothers : ∀ t d id j, jobs_t (others E t d) !! id = Some j → LeaseTokenOf j = tok → jobs_t d !! id = Some j)
    by (subst tok; apply Htokens).
  assert (Forall (λ j, LeaseTokenOf j = tok) jobs) as HF by (apply Forall_forall; intros j Hj; by apply Hv).
  wp_simpl. eapply wp_mono; [by apply (process_jobs_spec E S ts tok)|].
  intros processErr w3 (Hm3 & k & Hkl & Hh3 & Hall & Hl3). wp_simpl.
  eapply wp_mono; [by apply (stopAndWait_spec E R ts tok)|]. intros hb w4 (Hm4 & Hf4 & _ & _). wp_simpl.
  eapply wp_mono; [by apply (releaseUnstarted_spec E R ts tok)|]. intros rel w5 (Hm5 & Hq5 & Hrel). wp_simpl.
  set (r := batch_result processErr hb (to_option rel)).
  eapply wp_mono; [apply observeLeaseLoss_spec|]. intros _ w6 (Hdb6 & _ & _ & _ & Hh6). wp_simpl. right.
  exists jobs, tok, k. split_and!.
  - split_and!; [done| |apply Hb|apply Hb|apply Hb|].
    + rewrite Hh6, (qf_handled _ _ Hq5), (fr_handled _ _ Hf4), Hh3, Hh2. by rewrite (cf_handled _ _ Hf1).
    + intros j Hj. destruct (cp_rows _ _ _ _ _ _ _ _ _ _ Hb j Hj) as (x & u & _ & Hcl & _ & _ & ->).
      apply andb_true_iff in Hcl as [_ (c & Hc & Hrow)%existsb_exists]. exists c. split; [|done].
      eapply elem_of_submseteq; [|exact Hel]. by apply list_elem_of_In.
  - intros Hr. destruct (batch_result_ok _ _ _ Hr) as (Hp & _ & _). split; [|by apply Hall].
    intros ->. destruct (cp_count _ _ _ _ _ _ _ _ _ _ Hb). cbn in *. lia.
  - intros Hr j Hj.
    assert (to_option rel = None) as Hnone.
    { destruct Hr as [Hr|Hr]; [by apply batch_result_ok in Hr as (_ & _ & ?)|by apply batch_result_draining in Hr as [_ ?]]. }
    destruct rel as [[]|]; [|done]. destruct (Hrel eq_refl) as [_ Hback].
    destruct (Hback (ID j)) as (ids & Hin & Hput).
    { apply (gr_dom _ _ (fr_grows _ _ Hf4)), Hl3. split; [apply Hl2, list_elem_of_fmap_2; rewrite <- (take_drop k jobs); set_solver|].
      intros Hin. pose proof (cp_distinct _ _ _ _ _ _ _ _ _ _ Hb) as Hnd.
      rewrite <- (take_drop k jobs), fmap_app, NoDup_app in Hnd. destruct Hnd as (_ & Hdisj & _).
      by apply (Hdisj _ Hin), list_elem_of_fmap_2. }
    rewrite Hdb6. by apply Hput.
Qed.



(** C12: with an atomic transactor a dead-letter transition is all or
    nothing, whatever statement fails and whether or not the commit's answer
    arrives: either the tables are exactly as the transaction found them and
    the call failed, or the job's row, live under its token, is gone from the
    queue and its failed-job record is there with the job's identity, payload
    and reason. *)
Theorem dlq_atomic job reason w r w' :
  atomicDLQ (s_options S) = true → keyed (jobs_t (w_db w)) → dlqBatch E S job reason w = (r, w') →
  let d0 := others E (w_tick w) (w_db w) in
  (w_db w' = d0 ∧ r ≠ Ok tt)
  ∨ ∃ t row newID failedAt createdAt,
      jobs_t d0 !! ID job = Some row ∧ live (LeaseTokenOf job) (ts t) row = true
      ∧ jobs_t (w_db w') = delete (ID job) (jobs_t d0)
      ∧ failed_t (w_db w') = <[newID := failed_row ts newID failedAt createdAt (ID job) (Name job)
                                         (SchemaVersionOf job) (Payload job) reason]> (failed_t d0)
      ∧ keys_t (w_db w') = keys_t d0.
Proof.
  intros Hat Hk Hrun d0.
  pose proof (wp_run _ _ _ _ _ (dlqBatch_spec E S ts Hkeyed job reason w Hk) Hrun) as [_ Hdlq].
  destruct (Hdlq Hat) as (d & -> & [Hback|(t & Hset)]); [by left|right].
  inversion Hset as [| | |j reason' newID fa ca [Hj Hlive] Heq Hdb|]; subst; [|congruence].
  exists t, j, newID, fa, ca. done.
Qed.

(** A claim is made with a fresh token, for capabilities that were
    requested and not paused; the rows it returns carry the token, have a
    deadline later than a clock reading taken after the claim, and nothing
    that was ready was passed over for something later in the queue. *)
Theorem claimBatch_sound ctx capabilities w jobs tok w' :
  keyed (jobs_t (w_db w)) → claimBatch E S ctx capabilities w = (Ok (jobs, tok), w') →
  claimed E S ts capabilities w jobs tok w'.
Proof.
  intros Hk Hrun. pose proof (wp_run _ _ _ _ _ (claimBatch_spec E S ts Hkeyed Hclock ctx capabilities w Hk) Hrun)
    as (_ & Hcl & _). by apply Hcl.
Qed.
End worker.

(** A pause holds until the latest time asked for and no longer: after
    pausing a capability it is reported paused exactly before the later of the
    new and the previous time, other capabilities are unaffected, and asking
    does not change the answer. *)
Theorem pause_holds_until capability until t w w1 paused w2 : 0 < until → 0 ≤ t →
  pauseBatchCapability capability until w = (tt, w1) → batchCapabilityPaused capability t w1 = (paused, w2) →
  paused = (t <? Z.max until (paused_until (w_paused w) capability))
  ∧ batchCapabilityPaused capability t w2 = (paused, w2)
  ∧ ∀ c, c ≠ capability → paused_until (w_paused w2) c = paused_until (w_paused w) c.
Proof.
  intros Hu Ht. unfold pauseBatchCapability, modify. intros [= <-].
  set (old := paused_until (w_paused w) capability).
  set (w1 := if After until old then _ else w).
  assert (paused_until (w_paused w1) capability = Z.max until old
          ∧ ∀ c, c ≠ capability → paused_until (w_paused w1) c = paused_until (w_paused w) c) as [Hnew Hother].
  { subst w1. destruct (After_spec until old); unfold paused_until; cbn.
    - rewrite lookup_insert_eq. split; [cbn; lia|]. intros c Hc. by rewrite lookup_insert_ne.
    - split; [change (old = Z.max until old); lia|done]. }
  clearbody w1. unfold batchCapabilityPaused. rewrite Hnew. unfold IsZero, After, zeroTime.
  destruct (Z.eqb_spec (Z.max until old) 0); [lia|]. cbn.
  destruct (Z.ltb_spec t (Z.max until old)); cbn; intros [= <- <-].
  - rewrite Hnew. destruct (Z.eqb_spec (Z.max until old) 0); [lia|]. cbn.
    destruct (Z.ltb_spec t (Z.max until old)); [done|lia].
  - split_and!; [done| |].
    + cbn. unfold paused_until. rewrite lookup_delete_eq. cbn. by rewrite delete_delete_eq.
    + intros c Hc. cbn. unfold paused_until. rewrite lookup_delete_ne by done. by apply Hother.
Qed.
