(* ===== verification/ExecBatch.v ===== *)
(** * The worker service: batch handlers

    outbox/service_execution_batch.go and the scheduling of outbox/service.go:
    claim a first batch, fill it until the wait is over, run the batch handler
    once, and settle all items in one transaction.

    The fill loop polls until a deadline and has no bound of its own: it takes
    fuel, and its result is [None] when the fuel runs out. *)

From S2P Require Import Prelude GoTime Errors Models Retry Batch Sql Repo Stats Options Fencing Runtime.
From S2P Require Import LeaseManager Footprint Service.
Open Scope Z_scope.

Definition batchCollectorClaimLimit : Z := 1.
Definition batchFillPollInterval : Z := 2 * Millisecond.
Definition batchFillClaimHeadroom : Z := 5 * Millisecond.

(** [batchAttemptBackoff] with its doubling loop run to the end. *)
Definition backoff (attempt : Z) : Z := default 0 (batchAttemptBackoff attempt).

Section exec.
Context (E : Env) (S : Service).
Abbreviation R := (rp_jobs (s_repo S)).

(** ** Claims *)

Definition claimExecutionBatchSingletonWithToken (ctx : Ctx) (repo : BatchJobsRepository)
    (capability : JobCapability) (leaseToken : LeaseToken) : M (result (list Job)) :=
  jobs ←? map_error (wrapf "find and reserve execution batch")
            (claimJobsWithLease E S ctx leaseToken (λ locked now until,
               FindAndReserveJobsForCapability repo locked now until leaseToken capability batchCollectorClaimLimit));
  t ← draws (length jobs);
  match validateClaimedExecutionBatch (λ i, clock E (t + i)) jobs capability leaseToken batchCollectorClaimLimit with
  | Err e => error e
  | Ok _ => ok jobs
  end.

Definition claimExecutionBatchBoundedWithToken (ctx : Ctx)
    (claim : gset JobID → Z → Z → LeaseToken → JobCapability → BatchClaimLimits → Op (list Job))
    (capability : JobCapability) (limits : BatchClaimLimits) (leaseToken : LeaseToken) : M (result (list Job)) :=
  jobs ←? map_error (wrapf "find and reserve execution batch")
            (claimJobsWithLease E S ctx leaseToken (λ locked now until,
               claim locked now until leaseToken capability limits));
  t ← draws (length jobs);
  match validateClaimedExecutionBatch (λ i, clock E (t + i)) jobs capability leaseToken (lim_MaxMessages limits) with
  | Err e => error e
  | Ok _ =>
      match validateBoundedExecutionBatchPayload jobs (lim_MaxBytes limits) with
      | Err e => error e
      | Ok _ => ok jobs
      end
  end.

Definition claimExecutionBatchForFill (ctx : Ctx) (repo : BatchJobsRepository) (capability : JobCapability)
    (leaseToken : LeaseToken) (limits : BatchClaimLimits) : M (result (list Job)) :=
  match FindAndReserveJobsForCapabilityBounded repo with
  | None => claimExecutionBatchSingletonWithToken ctx repo capability leaseToken
  | Some boundedRepo => claimExecutionBatchBoundedWithToken ctx boundedRepo capability limits leaseToken
  end.

Definition claimInitialExecutionBatch (ctx : Ctx) (repo : BatchJobsRepository) (capability : JobCapability)
    (config : BatchConfig) : M (result (list Job) * LeaseToken) :=
  leaseToken ← NewLeaseToken E;
  jobs ← claimExecutionBatchForFill ctx repo capability leaseToken
           {| lim_MaxMessages := MaxMessages config; lim_MaxBytes := MaxBytes config |};
  mret (jobs, leaseToken).

(** The answer of a claim inside the fill window: rows, the window's end, or
    an error. *)
Definition claimExecutionBatchWithinFillWindow (ctx : Ctx) (repo : BatchJobsRepository) (capability : JobCapability)
    (leaseToken : LeaseToken) (limits : BatchClaimLimits) (deadline : Z) : M (list Job * bool * option err) :=
  t ← now E;
  if deadline - t <=? batchFillClaimHeadroom then mret ([], true, None)
  else
    let claimCtx := WithDeadline ctx deadline in
    r ← claimExecutionBatchForFill claimCtx repo capability leaseToken limits;
    claimCause ← cause E claimCtx;
    match r with
    | Ok jobs => mret (jobs, false, None)
    | Err e =>
        if errors_Is e errCancelledClaimCleanup then mret ([], false, Some e)
        else
          c ← cause E ctx;
          match c with
          | Some c => mret ([], false, Some c)
          | None =>
              if match claimCause with Some c => errors_Is c ContextDeadlineExceeded | None => false end
              then mret ([], true, None)
              else mret ([], false, Some e)
          end
    end.

(** The wait between two polls. *)
Definition poll_wait (ctx : Ctx) : M (option err) :=
  k ← tick;
  c ← cause E ctx;
  d ← isDraining E;
  mret (if timer_first E k then None
        else match c with
             | Some c => Some c
             | None => if (d : bool) then Some (ESentinel ErrServiceDraining) else None
             end).

(** The rows collected, and the error that ended the collection. *)
Fixpoint fill_loop (fuel : nat) (ctx : Ctx) (repo : BatchJobsRepository) (leaseToken : LeaseToken)
    (capability : JobCapability) (config : BatchConfig) (deadline : Z) (jobs : list Job) (usedBytes : Z) :
    M (option (list Job * option err)) :=
  match fuel with
  | O => mret None
  | Datatypes.S fuel =>
      if negb ((Z.of_nat (length jobs) <? MaxMessages config) && (usedBytes <? MaxBytes config))
      then mret (Some (jobs, None))
      else
        t ← now E;
        if deadline - t <=? 0 then mret (Some (jobs, None))
        else
          '(claimed, reached, e) ← claimExecutionBatchWithinFillWindow ctx repo capability leaseToken
             {| lim_MaxMessages := MaxMessages config - Z.of_nat (length jobs);
                lim_MaxBytes := MaxBytes config - usedBytes |} deadline;
          if (reached : bool) then mret (Some (jobs, None))
          else match (e : option err) with
               | Some e =>
                   if errors_Is e ErrNoJobs then
                     t ← now E;
                     if deadline - t <=? 0 then mret (Some (jobs, None))
                     else
                       stop ← poll_wait ctx;
                       match stop with
                       | Some e => mret (Some (jobs, Some e))
                       | None => fill_loop fuel ctx repo leaseToken capability config deadline jobs usedBytes
                       end
                   else mret (Some (jobs, Some (wrapf "fill execution batch" e)))
               | None =>
                   let '(selected, tail) := selectBatchPayloadLimitWithUsed claimed (MaxBytes config) usedBytes in
                   a ← add E R selected;
                   match a with
                   | Err e => mret (Some (jobs, Some e))
                   | Ok _ =>
                       let jobs := jobs ++ selected in
                       r ← releaseClaimedBatchTail E S leaseToken tail;
                       match r with
                       | Err e => mret (Some (jobs, Some e))
                       | Ok _ =>
                           match tail with
                           | _ :: _ => mret (Some (jobs, None))
                           | [] => fill_loop fuel ctx repo leaseToken capability config deadline jobs
                                     (usedBytes + payload_sum selected)
                           end
                       end
                   end
               end
  end.

Definition fillExecutionBatch (fuel : nat) (ctx : Ctx) (repo : BatchJobsRepository) (leaseToken : LeaseToken)
    (capability : JobCapability) (config : BatchConfig) (initial : list Job) : M (option (list Job * option err)) :=
  let usedBytes := payload_sum initial in
  if (MaxMessages config <=? Z.of_nat (length initial)) || (MaxBytes config <=? usedBytes)
  then mret (Some (initial, None))
  else
    t ← now E;
    fill_loop fuel ctx repo leaseToken capability config (Add t (MaxWait config)) initial usedBytes.

(** ** The batch handler *)

Definition batch_items (jobs : list Job) : list BatchJobItem :=
  (λ job, {| item_JobID := ID job; item_Payload := Payload job; item_Attempt := Attempts job |}) <$> jobs.

Definition executeBatchHandler (ctx : Ctx) (job : BatchHandler) (items : list BatchJobItem) :
    M (BatchResult * option err) :=
  t0 ← now E;
  let handlerCtx := WithDeadline ctx (Add t0 (bh_ExecutionTimeout job)) in
  t ← tick;
  _ ← modify (add_handled ((λ i, (item_JobID i, item_Attempt i)) <$> items));
  _ ← run E R batchCtx (beats E t);
  match bh_HandleBatch job t items with
  | Panics v => mret ([], Some (HandlerPanicError (bh_Name job) v))
  | Returns (result, e) =>
      c ← cause E handlerCtx;
      mret (match c with Some c => ([], Some c) | None => (result, e) end)
  end.

(** ** Scheduling the outcomes *)

Definition topLevelBatchRetryTime (capability : JobCapability) (e : err) : M Z :=
  t ← now E;
  match DeferTime (Some e) with
  | Some deferAt =>
      let deferAt := if Before deferAt t then t else deferAt in
      _ ← pauseBatchCapability capability deferAt; mret deferAt
  | None =>
      match RetryTime (Some e) with
      | Some retryAt =>
          let retryAt := if Before retryAt t then t else retryAt in
          _ ← pauseBatchCapability capability retryAt; mret retryAt
      | None =>
          _ ← modify (λ w, set_streak (<[capability := default 0 (w_streak w !! capability) + 1]> (w_streak w)) w);
          streak ← gets (λ w, default 0 (w_streak w !! capability));
          let availableAt := Add t (backoff streak) in
          _ ← modify (λ w, if After availableAt (paused_until (w_paused w) capability)
                           then set_paused (<[capability := availableAt]> (w_paused w)) w else w);
          mret availableAt
      end
  end.

Definition outcome_with (job : Job) (kind : BatchJobOutcomeKind) (availableAt : Z) (reason : string) : BatchJobOutcome :=
  {| o_JobID := ID job; o_Kind := kind; o_AvailableAt := availableAt; o_Reason := reason |}.

Definition dlqExecutionBatchOutcome (job : Job) (reason : string) : BatchJobOutcome :=
  outcome_with job BatchJobOutcomeDLQ zeroTime reason.

(** The outcome of one item, with the pause its defer asks for. *)
Definition item_outcome (capability : JobCapability) (handler : BatchHandler) (now : Z) (job : Job)
    (itemErr : option err) : M (result BatchJobOutcome) :=
  match itemErr with
  | None => ok (outcome_with job BatchJobOutcomeSuccess zeroTime "")
  | Some e =>
      if IsPermanent (Some e) then ok (dlqExecutionBatchOutcome job ("permanent failure: " +:+ Error e))
      else match DeferTime (Some e) with
           | Some at_ =>
               let at_ := if Before at_ now then now else at_ in
               _ ← pauseBatchCapability capability at_;
               ok (outcome_with job BatchJobOutcomeDefer at_ "")
           | None =>
               if bh_MaxAttempts handler <=? Attempts job
               then ok (dlqExecutionBatchOutcome job ("max attempts exceeded: " +:+ Error e))
               else match retryTime (retryPolicy (s_options S)) job e now (backoff (Attempts job)) with
                    | Err e => error e
                    | Ok availableAt => ok (outcome_with job BatchJobOutcomeRetry availableAt "")
                    end
           end
  end.

Fixpoint item_outcomes (capability : JobCapability) (handler : BatchHandler) (now : Z) (jobs : list Job)
    (errs : list (option err)) : M (result (list BatchJobOutcome)) :=
  match jobs, errs with
  | job :: jobs, itemErr :: errs =>
      outcome ←? item_outcome capability handler now job itemErr;
      outcomes ←? item_outcomes capability handler now jobs errs;
      ok (outcome :: outcomes)
  | _, _ => ok []
  end.

(** ** Settling the batch *)

Fixpoint create_dlq_records (jobsByID : gmap JobID Job) (outcomes : list BatchJobOutcome) : M (result unit) :=
  match outcomes with
  | [] => ok tt
  | outcome :: outcomes =>
      match o_Kind outcome with
      | BatchJobOutcomeDLQ =>
          match jobsByID !! o_JobID outcome with
          | None => error (wrapAs ErrInvalidBatchResult "DLQ outcome references unknown job")
          | Some job =>
              _ ←? map_error (wrapf "create versioned failed batch job") (create_failed E S job (o_Reason outcome));
              create_dlq_records jobsByID outcomes
          end
      | _ => create_dlq_records jobsByID outcomes
      end
  end.

Definition createExecutionBatchDLQRecords (jobs : list Job) (outcomes : list BatchJobOutcome) : M (result unit) :=
  create_dlq_records (jobs_by_id jobs) outcomes.

Definition apply_tx (repo : BatchJobsRepository) (jobs : list Job) (outcomes : list BatchJobOutcome) : M (result unit) :=
  _ ←? createExecutionBatchDLQRecords jobs outcomes;
  t ← now E;
  m ← gets w_mgr;
  r ← call_in E S (ApplyBatchJobOutcomes repo (m_token m) t outcomes);
  match r with
  | Err e => error (wrapf "apply batch job outcomes" e)
  | Ok affected =>
      if negb (affected =? Z.of_nat (length outcomes))
      then error (wrapAs ErrLeaseLost "finalized some of the batch jobs")
      else ok tt
  end.

Definition applyExecutionBatchOutcomes (ctx : Ctx) (repo : BatchJobsRepository) (jobs : list Job)
    (outcomes : list BatchJobOutcome) : M (result unit) :=
  t ← now E;
  let deadline := Add t (executionBatchFinalizationTimeout outcomes) in
  let finalizeCtx := WithDeadline (WithoutCancel ctx) deadline in
  r ← finalizeAll E R finalizeCtx (Add deadline batchFinalizationMargin)
        (RunInTx E (atomicDLQ (s_options S)) (apply_tx repo jobs outcomes));
  match r with
  | Err e => error e
  | Ok _ => _ ← observeBatchOutcomes E S jobs outcomes; ok tt
  end.

Definition finishExecutionBatch (ctx : Ctx) (repo : BatchJobsRepository) (capability : JobCapability)
    (handler : BatchHandler) (jobs : list Job) (items : list BatchJobItem) (result : BatchResult)
    (handleErr : option err) : M (Errors.result unit) :=
  match handleErr with
  | Some e =>
      if bool_decide (is_Some (errors_As pick_panic e)) then error e
      else match result with
           | _ :: _ => error (EJoin [wrapAs ErrInvalidBatchResult "non-empty result with top-level error"; e])
           | [] =>
               if IsPermanent (Some e) then error (wrapf "permanent top-level batch failure" e)
               else
                 availableAt ← topLevelBatchRetryTime capability e;
                 applyExecutionBatchOutcomes ctx repo jobs
                   ((λ job, outcome_with job BatchJobOutcomeDefer availableAt "") <$> jobs)
           end
  | None =>
      match validateBatchResult items result with
      | Err e => error e
      | Ok errs =>
          _ ← resetBatchRetryStreak capability;
          t ← now E;
          outcomes ←? item_outcomes capability handler t jobs errs;
          applyExecutionBatchOutcomes ctx repo jobs outcomes
      end
  end.

(** ** One execution batch *)

(** [errors.Join] of the errors of a run that claimed. *)
Definition joined (errs : list (option err)) : bool * option err := (true, errors_Join errs).

(** After the fill: admit, run the handler, settle. *)
Definition run_filled_batch (repo : BatchJobsRepository) (capability : JobCapability) (handler : BatchHandler)
    (filled : list Job) : M (bool * option err) :=
  let selected := sortExecutionBatchJobs (uuid_text E) filled in
  a ← manager_admit E R batchCtx;
  match a with
  | Err e =>
      heartbeatErr ← stopAndWait E R;
      released ← releaseUnstarted E R runCtx;
      mret (joined [Some e; heartbeatErr; to_option released])
  | Ok _ =>
      let items := batch_items selected in
      '(result, handleErr) ← executeBatchHandler batchCtx handler items;
      c ← cause E batchCtx;
      match c with
      | Some c =>
          _ ← forgetAll E R;
          heartbeatErr ← stopAndWait E R;
          mret (joined [Some c; heartbeatErr])
      | None =>
          if match handleErr with Some e => bool_decide (is_Some (errors_As pick_panic e)) | None => false end
          then
            _ ← forgetAll E R;
            heartbeatErr ← stopAndWait E R;
            mret (joined [handleErr; heartbeatErr])
          else
            r ← finishExecutionBatch runCtx repo capability handler selected items result handleErr;
            _ ← match r with Err _ => forgetAll E R | Ok _ => mret tt end;
            heartbeatErr ← stopAndWait E R;
            let processErr := match r with Err e => Some e | Ok _ => heartbeatErr end in
            released ← releaseUnstarted E R runCtx;
            mret (joined [processErr; heartbeatErr; to_option released])
      end
  end.

(** [None] when the fill loop runs out of fuel. *)
Definition findAndProcessExecutionBatch (fuel : nat) (capability : JobCapability) : M (option (bool * option err)) :=
  match s_batchJobs S !! capability with
  | None =>
      let e := EText "batch capability disappeared" in
      _ ← observeLeaseLoss E S (Some e) 0; mret (Some (false, Some e))
  | Some (handler, config) =>
      match rp_batch (s_repo S) with
      | None =>
          let e := ESentinel ErrBatchRepositoryNotConfigured in
          _ ← observeLeaseLoss E S (Some e) 0; mret (Some (false, Some e))
      | Some repo =>
          '(claim, leaseToken) ← claimInitialExecutionBatch runCtx repo capability config;
          match (claim : result (list Job)) with
          | Err e =>
              if errors_Is e ErrNoJobs then mret (Some (false, None))
              else _ ← observeLeaseLoss E S (Some e) 0; mret (Some (false, Some e))
          | Ok jobs =>
              _ ← newBatchLeaseManager jobs leaseToken (reserveFor (s_options S));
              f ← fillExecutionBatch fuel batchCtx repo leaseToken capability config jobs;
              match (f : option (list Job * option err)) with
              | None => mret None
              | Some (filled, Some fillErr) =>
                  heartbeatErr ← stopAndWait E R;
                  released ← releaseUnstarted E R runCtx;
                  let r := joined [Some fillErr; heartbeatErr; to_option released] in
                  _ ← observeLeaseLoss E S r.2 (Z.of_nat (length filled));
                  mret (Some r)
              | Some (filled, None) =>
                  r ← run_filled_batch repo capability handler filled;
                  _ ← observeLeaseLoss E S (r : bool * option err).2 (Z.of_nat (length filled));
                  mret (Some r)
              end
          end
      end
  end.

(** ** Scheduling (outbox/service.go) *)

Record workerSchedule : Type := { batchCursor : nat; preferBatch : bool }.

(** The loop over [offset]; the cursor moves past a capability that had
    work. *)
Fixpoint try_capabilities (fuel : nat) (capabilities : list JobCapability) (start : nat) (offsets : list nat)
    (cursor : nat) : M (option (bool * option err * nat)) :=
  match offsets with
  | [] => mret (Some (false, None, cursor))
  | offset :: offsets =>
      let index := ((start + offset) mod length capabilities)%nat in
      match capabilities !! index with
      | None => mret (Some (false, None, cursor))          (* the index is in range *)
      | Some capability =>
          t ← now E;
          paused ← batchCapabilityPaused capability t;
          if (paused : bool) then try_capabilities fuel capabilities start offsets cursor
          else
            r ← findAndProcessExecutionBatch fuel capability;
            match r with
            | None => mret None
            | Some (processed, e) =>
                if bool_decide (is_Some e) || processed
                then mret (Some (processed, e,
                                 if (processed : bool) then ((index + 1) mod length capabilities)%nat else cursor))
                else try_capabilities fuel capabilities start offsets cursor
            end
      end
  end.

Definition processOneAvailableBatch (fuel : nat) (capabilities : list JobCapability) (cursor : nat) :
    M (option (bool * option err * nat)) :=
  match capabilities with
  | [] => mret (Some (false, None, cursor))
  | _ => try_capabilities fuel capabilities (cursor mod length capabilities)%nat (seq 0 (length capabilities)) cursor
  end.

Definition is_draining_err (e : option err) : bool :=
  match e with Some e => errors_Is e ErrServiceDraining | None => false end.

Definition processWorkerWork (fuel : nat) (single batch : list JobCapability) (schedule : workerSchedule) :
    M (option (bool * option err * workerSchedule)) :=
  b ← (if preferBatch schedule then processOneAvailableBatch fuel batch (batchCursor schedule)
       else mret (Some (false, None, batchCursor schedule)));
  match b with
  | None => mret None
  | Some (didWork, e, cursor) =>
      if is_draining_err e then mret (Some (false, None, {| batchCursor := cursor; preferBatch := preferBatch schedule |}))
      else if bool_decide (is_Some e) || (didWork : bool)
      then mret (Some (didWork, e, {| batchCursor := cursor;
                                      preferBatch := if didWork then false else preferBatch schedule |}))
      else
        '(didWork, e) ← processOneAvailableSingle E S single;
        if bool_decide (is_Some e) || (didWork : bool)
        then mret (Some (didWork, e, {| batchCursor := cursor;
                                        preferBatch := if didWork then true else preferBatch schedule |}))
        else if preferBatch schedule
        then mret (Some (false, None, {| batchCursor := cursor; preferBatch := preferBatch schedule |}))
        else
          b ← processOneAvailableBatch fuel batch cursor;
          match b with
          | None => mret None
          | Some (didWork, e, cursor) =>
              if is_draining_err e
              then mret (Some (false, None, {| batchCursor := cursor; preferBatch := preferBatch schedule |}))
              else mret (Some (didWork, e, {| batchCursor := cursor;
                                              preferBatch := if (didWork : bool) then false else preferBatch schedule |}))
          end
  end.

(** [waitForWorker]: whether the worker stops. *)
Definition waitForWorker : M bool :=
  k ← tick;
  c ← ctx_err E runCtx;
  d ← isDraining E;
  mret (if timer_first E k then false else bool_decide (is_Some c) || (d : bool)).

(** [runWorker] for at most [rounds] rounds; [None] when they are used up. *)
Fixpoint runWorker (rounds fuel : nat) (single batch : list JobCapability) (schedule : workerSchedule) :
    M (option (result unit)) :=
  match rounds with
  | O => mret None
  | Datatypes.S rounds =>
      d ← isDraining E;
      if (d : bool) then mret (Some (Ok tt))
      else
        r ← processWorkerWork fuel single batch schedule;
        match r with
        | None => mret None
        | Some (didWork, Some e, _) =>
            c ← ctx_err E runCtx;
            match c with
            | Some _ => mret (Some (Ok tt))
            | None => mret (Some (Err e))
            end
        | Some (didWork, None, schedule) =>
            if (didWork : bool) then runWorker rounds fuel single batch schedule
            else
              stop ← waitForWorker;
              if (stop : bool) then mret (Some (Ok tt))
              else runWorker rounds fuel single batch schedule
        end
  end.
End exec.
