(* ===== verification/WorkerFootprint.v ===== *)
(** * The footprint of a worker

    Every operation of the service up to [runWorker] respects a relation that
    its primitive steps and repository calls respect. *)

From S2P Require Import Prelude GoTime Errors Models Retry Batch Sql Repo Stats Options Fencing Runtime.
From S2P Require Import LeaseManager Footprint Service ExecBatch.
Open Scope Z_scope.

(** The calls the service makes on its repositories. *)
Class ServiceCalls (S : Service) (allowed : Allowed) : Prop := {
  sc_extend ids tok t u : allowed _ (ExtendJobLeases (rp_jobs (s_repo S)) ids tok t u);
  sc_release ids tok t : allowed _ (ReleaseUnstartedJobsWithLease (rp_jobs (s_repo S)) ids tok t);
  sc_delete id tok t : allowed _ (DeleteJobWithLease (rp_jobs (s_repo S)) id tok t);
  sc_reschedule id tok t u : allowed _ (RescheduleJobWithLease (rp_jobs (s_repo S)) id tok t u);
  sc_defer f id tok t u : DeferJobWithLease (rp_jobs (s_repo S)) = Some f → allowed _ (f id tok t u);
  sc_claim locked t u tok caps n :
    allowed _ (FindAndReserveJobsForCapabilities (rp_jobs (s_repo S)) locked t u tok caps n);
  sc_failed id t u jobID name v payload reason :
    allowed _ (CreateFailedJobVersioned (s_failed S) id t u jobID name v payload reason);
  sc_claim_one B locked t u tok cap n : rp_batch (s_repo S) = Some B →
    allowed _ (FindAndReserveJobsForCapability B locked t u tok cap n);
  sc_claim_bounded B f locked t u tok cap limits : rp_batch (s_repo S) = Some B →
    FindAndReserveJobsForCapabilityBounded B = Some f → allowed _ (f locked t u tok cap limits);
  sc_apply B tok t os : rp_batch (s_repo S) = Some B → allowed _ (ApplyBatchJobOutcomes B tok t os)
}.

Section worker_footprint.
Context {E : Env} {allowed : Allowed} (P : World → World → Prop) `{FP : !Footprint E allowed P} (S : Service)
        `{SC : !ServiceCalls S allowed}.
Abbreviation R := (rp_jobs (s_repo S)).
Context (Hhandled : ∀ h w, P w (add_handled h w)).

Definition al_extend := @sc_extend S allowed SC.
Definition al_release := @sc_release S allowed SC.
Definition al_delete := @sc_delete S allowed SC.
Definition al_reschedule := @sc_reschedule S allowed SC.
Definition al_defer := @sc_defer S allowed SC.
Definition al_claim := @sc_claim S allowed SC.
Definition al_failed := @sc_failed S allowed SC.
Definition al_claim_one := @sc_claim_one S allowed SC.
Definition al_claim_bounded := @sc_claim_bounded S allowed SC.
Definition al_apply := @sc_apply S allowed SC.
#[local] Hint Resolve al_extend al_release al_delete al_reschedule al_defer al_claim al_failed al_claim_one al_claim_bounded al_apply : pres.

Lemma pres_modify_handled h : pres P (modify (add_handled h)).
Proof. apply pres_modify. auto. Qed.

Lemma pres_run_worker ctx n : pres P (run E R ctx n).
Proof. eapply pres_run; eauto with pres. Qed.
Lemma pres_admit_worker ctx : pres P (manager_admit E R ctx).
Proof. eapply pres_admit; eauto with pres. Qed.
Lemma pres_finalize_worker ctx id fin : (∀ c, pres P (fin c)) → pres P (finalize E R ctx id fin).
Proof. intros. eapply pres_finalize; eauto with pres. Qed.
Lemma pres_finalizeAll_worker ctx u fin : pres P fin → pres P (finalizeAll E R ctx u fin).
Proof. intros. eapply pres_finalizeAll; eauto with pres. Qed.
Lemma pres_add_worker jobs : pres P (add E R jobs).
Proof. eapply pres_add; eauto with pres. Qed.
Lemma pres_forget_worker id : pres P (forget E R id).
Proof. eapply pres_forget; eauto with pres. Qed.
Lemma pres_forgetAll_worker : pres P (forgetAll E R).
Proof. eapply pres_forgetAll; eauto with pres. Qed.
Lemma pres_release_worker ctx : pres P (releaseUnstarted E R ctx).
Proof. eapply pres_releaseUnstarted; eauto with pres. Qed.
Lemma pres_stop_worker : pres P (stopAndWait E R).
Proof. eapply pres_stopAndWait; eauto with pres. Qed.
Lemma pres_new_manager jobs tok r : pres P (newBatchLeaseManager jobs tok r).
Proof. eapply pres_newBatchLeaseManager; eauto with pres. Qed.

#[local] Hint Resolve pres_modify_handled pres_run_worker pres_admit_worker pres_finalize_worker
  pres_finalizeAll_worker pres_add_worker pres_forget_worker pres_forgetAll_worker pres_release_worker
  pres_stop_worker pres_new_manager : pres.

(** ** Single handlers *)

Lemma pres_releaseTail tok jobs : pres P (releaseClaimedBatchTail E S tok jobs).
Proof. unfold releaseClaimedBatchTail. pres_auto. Qed.
#[local] Hint Resolve pres_releaseTail : pres.

Lemma pres_claimJobs ctx tok claim : (∀ l t u, allowed _ (claim l t u)) → pres P (claimJobsWithLease E S ctx tok claim).
Proof. intros Hc. unfold claimJobsWithLease, releaseCancelledClaim. pres_auto. Qed.

Lemma pres_eligible t caps : pres P (eligible_capabilities t caps).
Proof. induction caps as [|c caps IH]; cbn [eligible_capabilities]; pres_auto. Qed.

Lemma pres_validate_claimed tok jobs : pres P (validate_claimed E tok jobs).
Proof. induction jobs as [|j jobs IH]; cbn [validate_claimed]; pres_auto. Qed.
#[local] Hint Resolve pres_eligible pres_validate_claimed : pres.

Lemma pres_claimBatch ctx caps : pres P (claimBatch E S ctx caps).
Proof. unfold claimBatch. pres_auto. apply pres_claimJobs. eauto with pres. Qed.
#[local] Hint Resolve pres_claimBatch : pres.

Lemma pres_executeJob ctx h job : pres P (executeJob E S ctx h job).
Proof. unfold executeJob, handleJob. pres_auto. Qed.
#[local] Hint Resolve pres_executeJob : pres.

Lemma pres_processBatchJob ctx job : pres P (processBatchJob E S ctx job).
Proof.
  unfold processBatchJob. pres_auto; apply pres_finalize_worker; intros _;
    first [ eapply pres_ackBatch; by eauto with pres | eapply pres_dlqBatch; by eauto with pres
          | eapply pres_deferLeased; by eauto with pres | eapply pres_rescheduleLeased; by eauto with pres ].
Qed.
#[local] Hint Resolve pres_processBatchJob : pres.

Lemma pres_process_jobs ctx jobs : pres P (process_jobs E S ctx jobs).
Proof. induction jobs as [|job jobs IH]; cbn [process_jobs]; pres_auto. Qed.
#[local] Hint Resolve pres_process_jobs : pres.

Lemma pres_findAndProcessBatch caps : pres P (findAndProcessBatch E S caps).
Proof. unfold findAndProcessBatch. pres_auto. Qed.
#[local] Hint Resolve pres_findAndProcessBatch : pres.

Lemma pres_processOneAvailableSingle caps : pres P (processOneAvailableSingle E S caps).
Proof. unfold processOneAvailableSingle. pres_auto. Qed.
#[local] Hint Resolve pres_processOneAvailableSingle : pres.

(** ** Batch handlers *)

Section with_batch.
Context (B : BatchJobsRepository) (HB : rp_batch (s_repo S) = Some B).

Lemma pres_claimForFill ctx cap tok limits : pres P (claimExecutionBatchForFill E S ctx B cap tok limits).
Proof.
  unfold claimExecutionBatchForFill, claimExecutionBatchSingletonWithToken, claimExecutionBatchBoundedWithToken.
  destruct (FindAndReserveJobsForCapabilityBounded B) as [f|] eqn:Hf; pres_auto;
    apply pres_claimJobs; eauto with pres.
Qed.

Lemma pres_claimInitial ctx cap cfg : pres P (claimInitialExecutionBatch E S ctx B cap cfg).
Proof. unfold claimInitialExecutionBatch. pres_auto. apply pres_claimForFill. Qed.

Lemma pres_claimWithin ctx cap tok limits deadline :
  pres P (claimExecutionBatchWithinFillWindow E S ctx B cap tok limits deadline).
Proof. unfold claimExecutionBatchWithinFillWindow. pres_auto. apply pres_claimForFill. Qed.

Lemma pres_poll ctx : pres P (poll_wait E ctx).
Proof. unfold poll_wait. pres_auto. Qed.
#[local] Hint Resolve pres_claimInitial pres_claimWithin pres_poll : pres.

Lemma pres_fill_loop fuel ctx tok cap cfg deadline jobs used :
  pres P (fill_loop E S fuel ctx B tok cap cfg deadline jobs used).
Proof.
  revert jobs used. induction fuel as [|fuel IH]; intros jobs used; cbn [fill_loop]; pres_auto.
Qed.

Lemma pres_fill fuel ctx tok cap cfg jobs : pres P (fillExecutionBatch E S fuel ctx B tok cap cfg jobs).
Proof. unfold fillExecutionBatch. pres_auto. apply pres_fill_loop. Qed.

Lemma pres_executeBatchHandler ctx h items : pres P (executeBatchHandler E S ctx h items).
Proof. unfold executeBatchHandler. pres_auto. Qed.

Lemma pres_topLevel cap e : pres P (topLevelBatchRetryTime E cap e).
Proof.
  unfold topLevelBatchRetryTime. pres_auto; apply pres_modify; intros w;
    first [apply fp_streak|destruct (After _ _); [apply fp_paused|reflexivity]].
Qed.

Lemma pres_item_outcomes cap h t jobs errs : pres P (item_outcomes S cap h t jobs errs).
Proof.
  revert errs. induction jobs as [|job jobs IH]; intros [|e errs]; cbn [item_outcomes]; unfold item_outcome; pres_auto.
Qed.
#[local] Hint Resolve pres_fill pres_executeBatchHandler pres_topLevel pres_item_outcomes : pres.

Lemma pres_create_dlq m os : pres P (create_dlq_records E S m os).
Proof.
  induction os as [|o os IH]; cbn [create_dlq_records]; pres_auto.
Qed.

Lemma pres_apply_tx jobs os : pres P (apply_tx E S B jobs os).
Proof.
  unfold apply_tx, createExecutionBatchDLQRecords. pres_auto. apply pres_create_dlq.
Qed.

Lemma pres_apply ctx jobs os : pres P (applyExecutionBatchOutcomes E S ctx B jobs os).
Proof.
  unfold applyExecutionBatchOutcomes. pres_auto.
  apply pres_finalizeAll_worker. eapply pres_RunInTx; [eassumption|]. apply pres_apply_tx.
Qed.
#[local] Hint Resolve pres_apply : pres.

Lemma pres_finish ctx cap h jobs items res he : pres P (finishExecutionBatch E S ctx B cap h jobs items res he).
Proof. unfold finishExecutionBatch. pres_auto. Qed.
#[local] Hint Resolve pres_finish : pres.

Lemma pres_run_filled cap h filled : pres P (run_filled_batch E S B cap h filled).
Proof. unfold run_filled_batch. pres_auto. Qed.
End with_batch.

#[local] Hint Resolve pres_claimInitial pres_fill pres_run_filled : pres.

Lemma pres_findAndProcessExecutionBatch fuel cap : pres P (findAndProcessExecutionBatch E S fuel cap).
Proof.
  unfold findAndProcessExecutionBatch. destruct (s_batchJobs S !! cap) as [[h cfg]|]; [|pres_auto].
  destruct (rp_batch (s_repo S)) as [B|] eqn:HB; pres_auto.
Qed.
#[local] Hint Resolve pres_findAndProcessExecutionBatch : pres.

Lemma pres_try_capabilities fuel caps start offsets cursor :
  pres P (try_capabilities E S fuel caps start offsets cursor).
Proof. induction offsets as [|o offsets IH]; cbn [try_capabilities]; pres_auto. Qed.

Lemma pres_processOneAvailableBatch fuel caps cursor : pres P (processOneAvailableBatch E S fuel caps cursor).
Proof. unfold processOneAvailableBatch. pres_auto. apply pres_try_capabilities. Qed.
#[local] Hint Resolve pres_processOneAvailableBatch : pres.

Lemma pres_processWorkerWork fuel single batch sched : pres P (processWorkerWork E S fuel single batch sched).
Proof. unfold processWorkerWork. pres_auto. Qed.

Lemma pres_runWorker rounds fuel single batch sched : pres P (runWorker E S rounds fuel single batch sched).
Proof.
  revert sched. induction rounds as [|n IH]; intros sched; cbn [runWorker]; unfold waitForWorker; pres_auto;
    apply pres_processWorkerWork.
Qed.
End worker_footprint.
