(* ===== verification/Refinement.v ===== *)
(** * Workers refine the fencing protocol

    Whatever a worker does to the shared tables is a sequence of steps of
    [Fencing], provided the others only take such steps.  So every theorem of
    [Fencing] about arbitrary interleavings holds of the running service. *)

From S2P Require Import Prelude GoTime Errors Models Retry Batch Sql Repo Stats Options Fencing Runtime.
From S2P Require Import LeaseManager Footprint Service ExecBatch WorkerFootprint.
Open Scope Z_scope.

Section refinement.
Context (E : Env) (S : Service) (ts : Z → Z) (B : BatchJobsRepository) (U : UniqueJobsRepository)
        (fp : string → SchemaVersion → string → Z → string).
Abbreviation R := (rp_jobs (s_repo S)).
Context `{!LeaseRepository ts R, !BatchRepository ts B, !UniqueRepository ts fp U, !FailedRepository ts (s_failed S)}.
Context (HB : ∀ B', rp_batch (s_repo S) = Some B' → B' = B).

(** One table state leads to another by protocol steps, whatever tokens were
    drawn and leases settled before. *)
Definition moves (d d' : Db) : Prop :=
  ∀ used log, ∃ used' log', reachable ts R B U (mkSys d used log) (mkSys d' used' log').

#[global] Instance moves_preorder : PreOrder moves.
Proof.
  split.
  - intros d used log. exists used, log. apply rtc_refl.
  - intros d1 d2 d3 H1 H2 used log. destruct (H1 used log) as (u1 & l1 & Hr1).
    destruct (H2 u1 l1) as (u2 & l2 & Hr2). exists u2, l2. unfold reachable in *. by etrans.
Qed.

Lemma moves_step l d d' : (∀ used log, ∃ used' log', step ts R B U l (mkSys d used log) (mkSys d' used' log')) →
  moves d d'.
Proof.
  intros Hs used log. destruct (Hs used log) as (u & l' & Hstep). exists u, l'. apply rtc_once. by exists l.
Qed.

(** The others keep to the protocol. *)
Context (Hothers : ∀ t d, moves d (others E t d)).

Definition moving : Allowed := λ A op, ∀ d, moves d (op d).2.

Definition protocol (w w' : World) : Prop := moves (w_db w) (w_db w').

#[local] Instance protocol_footprint : Footprint E moving protocol.
Proof.
  split; unfold protocol; cbn; try (intros; reflexivity).
  - split; [intros w; reflexivity|intros w1 w2 w3 H1 H2; by etrans].
  - auto.
  - intros A op w Hop. apply Hop.
Qed.

#[local] Instance service_moves : ServiceCalls S moving.
Proof.
  split; intros; intros d.
  - destruct (ExtendJobLeases R ids tok t u d) as [r d'] eqn:Hop. cbn.
    eapply moves_step. intros used log. do 2 eexists. eapply (step_extend _ _ _ _ (mkSys d used log)). exact Hop.
  - destruct (ReleaseUnstartedJobsWithLease R ids tok t d) as [r d'] eqn:Hop. cbn.
    eapply moves_step. intros used log. do 2 eexists. eapply (step_release _ _ _ _ (mkSys d used log)). exact Hop.
  - destruct (DeleteJobWithLease R id tok t d) as [r d'] eqn:Hop. cbn.
    eapply moves_step. intros used log. do 2 eexists. eapply (step_delete _ _ _ _ (mkSys d used log)). exact Hop.
  - destruct (RescheduleJobWithLease R id tok t u d) as [r d'] eqn:Hop. cbn.
    eapply moves_step. intros used log. do 2 eexists. eapply (step_reschedule _ _ _ _ (mkSys d used log)). exact Hop.
  - destruct (f id tok t u d) as [r d'] eqn:Hop. cbn.
    eapply moves_step. intros used log. do 2 eexists. eapply (step_defer _ _ _ _ (mkSys d used log)); [done|exact Hop].
  - destruct (FindAndReserveJobsForCapabilities R locked t u tok caps n d) as [r d'] eqn:Hop. cbn.
    eapply moves_step. intros used log. do 2 eexists. eapply (step_claim _ _ _ _ (mkSys d used log)). exact Hop.
  - destruct (CreateFailedJobVersioned (s_failed S) id t u jobID name v payload reason d) as [r d'] eqn:Hop. cbn.
    eapply moves_step. intros used log. do 2 eexists. apply (step_elsewhere _ _ _ _ (mkSys d used log)).
    + destruct r as [i|e]; [by apply failed_ok in Hop as (_ & _ & _ & ? & _ & ->)|by rewrite (failed_atomic _ _ _ _ _ _ _ _ _ _ _ Hop)].
    + destruct r as [i|e]; [by apply failed_ok in Hop as (_ & _ & _ & ? & _ & ->)|by rewrite (failed_atomic _ _ _ _ _ _ _ _ _ _ _ Hop)].
  - rename select (_ = Some _) into HB'. pose proof (HB _ HB') as ->.
    destruct (FindAndReserveJobsForCapability B locked t u tok cap n d) as [r d'] eqn:Hop. cbn.
    eapply moves_step. intros used log. do 2 eexists. eapply (step_claim_batch _ _ _ _ (mkSys d used log)). exact Hop.
  - rename select (rp_batch _ = Some _) into HB'. pose proof (HB _ HB') as ->.
    destruct (f locked t u tok cap limits d) as [r d'] eqn:Hop. cbn.
    eapply moves_step. intros used log. do 2 eexists.
    eapply (step_claim_bounded _ _ _ _ (mkSys d used log)); [done|exact Hop].
  - rename select (rp_batch _ = Some _) into HB'. pose proof (HB _ HB') as ->.
    destruct (ApplyBatchJobOutcomes B tok t os d) as [r d'] eqn:Hop. cbn.
    eapply moves_step. intros used log. do 2 eexists. eapply (step_apply _ _ _ _ (mkSys d used log)). exact Hop.
Qed.


(** A worker keeps the queue's invariant: started on tables where every
    row is filed under its id, idle or leased under a drawn token with a
    counted attempt, and every live key is registered, it leaves such tables
    behind at every moment it returns, however it was interrupted. *)
Theorem worker_preserves_invariant rounds fuel single batch schedule w r w' used log :
  Inv (mkSys (w_db w) used log) → runWorker E S rounds fuel single batch schedule w = (r, w') →
  ∃ used' log', Inv (mkSys (w_db w') used' log').
Proof.
  intros HI Hrun.
  pose proof (pres_runWorker protocol S (λ h w, reflexivity _) rounds fuel single batch schedule w) as Hp.
  rewrite Hrun in Hp. destruct (Hp used log) as (used' & log' & Hr). exists used', log'.
  by eapply (reachable_inv ts R B U fp).
Qed.
End refinement.
