(* ===== verification/ExecProofs.v ===== *)
(** * Batch handlers: termination, outcomes and settlement

    Theorems about [ExecBatch]: the fill loop ends with its window, the
    outcomes a batch produces are the ones its items ask for and ones the
    repository accepts, and a batch is settled whole or not at all. *)

From S2P Require Import Prelude GoTime Errors Models Retry Batch Sql Repo Stats Options Fencing Runtime.
From S2P Require Import LeaseManager Footprint Service ExecBatch WorkerFootprint.
Open Scope Z_scope.

(** ** The fill loop ends *)

Section fill_terminates.
Context (E : Env) (S : Service).

Definition later (w w' : World) : Prop := (w_tick w ≤ w_tick w')%nat.

#[local] Instance later_footprint : Footprint E (λ _ _, True) later.
Proof. split; unfold later; cbn; try (intros; lia). split; [intros w; lia|intros w1 w2 w3; lia]. Qed.

#[local] Instance any_call : ServiceCalls S (λ _ _, True).
Proof. by split. Qed.

(** Going on at a later time. *)
Lemma wp_later {A} (m : M A) (Q : A → World → Prop) w : pres later m →
  (∀ a w', later w w' → Q a w') → wp m Q w.
Proof. intros Hp HQ. apply HQ, Hp. Qed.

Lemma fill_loop_returns B T fuel ctx tok capability config deadline jobs used w :
  rp_batch (s_repo S) = Some B → (∀ t, (T ≤ t)%nat → deadline ≤ clock E t) →
  (0 < fuel)%nat → (T < w_tick w + fuel)%nat →
  wp (fill_loop E S fuel ctx B tok capability config deadline jobs used) (λ r _, r ≠ None) w.
Proof.
  intros HB HT. revert w jobs used. induction fuel as [|fuel IH]; intros w jobs used Hpos Hfuel; [lia|].
  cbn [fill_loop]. destruct (negb _); wp_simpl; [done|].
  destruct (Z.leb_spec (deadline - clock E (w_tick w)) 0) as [|Hlt]; wp_simpl; [done|].
  assert (w_tick w < T)%nat as HwT.
  { destruct (Nat.lt_ge_cases (w_tick w) T) as [|Hge]; [done|]. specialize (HT _ Hge). lia. }
  apply wp_later; [by eapply pres_claimWithin; try apply _|]. intros [[claimed reached] e] w1 H1. cbn in H1.
  destruct reached; wp_simpl; [done|]. destruct e as [e|].
  - destruct (errors_Is e ErrNoJobs); wp_simpl; [|done].
    destruct (deadline - clock E (w_tick w1) <=? 0); wp_simpl; [done|].
    apply wp_later; [by eapply pres_poll; try apply _|]. intros [e'|] w2 H2; wp_simpl; [done|].
    unfold later in *. cbn in *. apply IH; lia.
  - destruct (selectBatchPayloadLimitWithUsed _ _ _) as [selected tail]. wp_simpl.
    apply wp_later; [eapply pres_add; [apply _|done]|]. intros [[]|e] w2 H2; wp_simpl; [|done].
    apply wp_later; [eapply pres_releaseTail; apply _|]. intros [[]|e] w3 H3; wp_simpl; [|done].
    destruct tail; wp_simpl; [|done]. unfold later in *. cbn in *. apply IH; lia.
Qed.

(** C26: filling a batch returns.  Each round of the loop reads the clock, so
    when the clock stays past the window's end from some reading on, as many
    rounds as there are readings until then are enough, whatever is claimed,
    refused or cancelled meanwhile. *)
Theorem fillExecutionBatch_terminates B T fuel ctx tok capability config initial w r w' :
  rp_batch (s_repo S) = Some B →
  (∀ t, (T ≤ t)%nat → clock E (w_tick w) + MaxWait config ≤ clock E t) →
  (0 < fuel)%nat → (T ≤ w_tick w + fuel)%nat →
  fillExecutionBatch E S fuel ctx B tok capability config initial w = (r, w') → r ≠ None.
Proof.
  intros HB HT Hpos Hfuel Hrun. pattern r, w'. eapply wp_run; [|exact Hrun].
  unfold fillExecutionBatch. destruct (_ || _); wp_simpl; [done|].
  eapply fill_loop_returns; [done|exact HT|done|cbn; lia].
Qed.
End fill_terminates.

(** ** A batch is settled whole or not at all *)

Section settlement.
Context (E : Env) (S : Service) (ts : Z → Z) (B : BatchJobsRepository) (tok : LeaseToken).
Abbreviation R := (rp_jobs (s_repo S)).
Context `{!LeaseRepository ts R, !FailedRepository ts (s_failed S), !BatchRepository ts B}.

Definition is_dlq (o : BatchJobOutcome) : bool := bool_decide (o_Kind o = BatchJobOutcomeDLQ).
Fixpoint count_dlq (os : list BatchJobOutcome) : nat :=
  match os with [] => 0%nat | o :: os => ((if is_dlq o then 1 else 0) + count_dlq os)%nat end.

(** One record per dead-lettered item, with the job's identity, payload and
    reason; nothing is overwritten. *)
Definition dlq_stored (jobsByID : gmap JobID Job) (os : list BatchJobOutcome) (f f' : gmap JobID JobFailed) : Prop :=
  f ⊆ f' ∧ size f' = (size f + count_dlq os)%nat
  ∧ ∀ o, o ∈ os → is_dlq o = true → ∃ newID failedAt createdAt job, jobsByID !! o_JobID o = Some job
      ∧ f' !! newID = Some (failed_row ts newID failedAt createdAt (ID job) (Name job) (SchemaVersionOf job)
                              (Payload job) (o_Reason o)).

(** What a transaction's callback leaves of the world besides the tables. *)
Definition tx_frame (w w' : World) : Prop :=
  w_mgr w' = w_mgr w ∧ w_paused w' = w_paused w ∧ w_streak w' = w_streak w ∧ w_handled w' = w_handled w
  ∧ w_events w' = w_events w.

Lemma tx_frame_trans w1 w2 w3 : tx_frame w1 w2 → tx_frame w2 w3 → tx_frame w1 w3.
Proof. unfold tx_frame. intros (?&?&?&?&?) (?&?&?&?&?). split_and!; congruence. Qed.

Context (Hatomic : atomicDLQ (s_options S) = true).

Lemma create_failed_spec job reason w :
  wp (create_failed E S job reason) (λ r w', tx_frame w w' ∧ ∀ i, r = Ok i → ∃ fa ca,
    failed_t (w_db w) !! i = None ∧
    w_db w' = set_failed (<[i := failed_row ts i fa ca (ID job) (Name job) (SchemaVersionOf job) (Payload job) reason]>
                            (failed_t (w_db w))) (w_db w)) w.
Proof.
  unfold create_failed, call_in, NewJobID. rewrite Hatomic. wp_simpl. apply wp_call_tx.
  - intros r d' Hop. split; [done|]. intros i ->. apply failed_ok in Hop as (-> & Hn & _ & ca & _ & ->).
    eexists _, _. split; [exact Hn|reflexivity].
  - intros r d' e _. split; (split; [done|done]).
Qed.

Lemma create_dlq_records_spec jobsByID os w :
  wp (create_dlq_records E S jobsByID os) (λ r w', tx_frame w w' ∧
    (r = Ok tt → ∃ f', w_db w' = set_failed f' (w_db w) ∧ dlq_stored jobsByID os (failed_t (w_db w)) f')) w.
Proof.
  revert w. induction os as [|o os IH]; intros w; cbn [create_dlq_records]; wp_simpl.
  { split; [done|]. intros _. exists (failed_t (w_db w)). split; [by destruct (w_db w)|].
    split_and!; [done|cbn; lia|set_solver]. }
  assert (is_dlq o = false →
    wp (create_dlq_records E S jobsByID os) (λ r w', tx_frame w w' ∧
      (r = Ok tt → ∃ f', w_db w' = set_failed f' (w_db w) ∧ dlq_stored jobsByID (o :: os) (failed_t (w_db w)) f')) w) as Hskip.
  { intros Hno. eapply wp_mono; [apply IH|]. intros r w' [Hf Hr]. split; [done|]. intros Ho.
    destruct (Hr Ho) as (f' & Hdb & Hsub & Hsz & Hall). exists f'. split; [done|]. split_and!; [done|cbn; by rewrite Hno|].
    intros o' [->|Hin]%elem_of_cons Hd; [congruence|by apply Hall]. }
  destruct (o_Kind o) eqn:Hkind; try (apply Hskip; unfold is_dlq; by rewrite Hkind).
  destruct (jobsByID !! o_JobID o) as [job|] eqn:Hjob; wp_simpl; [|done].
  eapply wp_mono; [apply create_failed_spec|]. intros [i|e] w1 [Hf1 Hr1]; cbn [res_map_err]; [|done].
  destruct (Hr1 _ eq_refl) as (fa & ca & Hnone & Hdb1).
  eapply wp_mono; [apply IH|]. intros r w2 [Hf2 Hr2]. split; [by eapply tx_frame_trans|]. intros Ho.
  destruct (Hr2 Ho) as (f' & Hdb2 & Hsub & Hsz & Hall). rewrite Hdb1 in Hdb2, Hsub, Hsz. cbn in Hsub, Hsz.
  exists f'. split; [by rewrite Hdb2|].
  split_and!.
  - etrans; [|exact Hsub]. by apply insert_subseteq.
  - rewrite map_size_insert_None in Hsz by done. cbn. unfold is_dlq at 1. rewrite bool_decide_true by done. lia.
  - intros o' [->|Hin]%elem_of_cons Hd; [|by apply Hall].
    exists i, fa, ca, job. split; [done|]. eapply lookup_weaken; [|exact Hsub]. apply lookup_insert_eq.
Qed.

(** The settled tables: every item's row in its outcome, every record. *)
Definition batch_settled (jobs : list Job) (os : list BatchJobOutcome) (d d' : Db) : Prop :=
  (∃ t, all_settleable tok (ts t) os (jobs_t d)) ∧ NoDup (o_JobID <$> os)
  ∧ jobs_t d' = settle ts os (jobs_t d) ∧ keys_t d' = keys_t d
  ∧ dlq_stored (jobs_by_id jobs) os (failed_t d) (failed_t d').

Lemma apply_tx_spec jobs os w : m_token (w_mgr w) = tok → keyed (jobs_t (w_db w)) →
  wp (apply_tx E S B jobs os) (λ r w', tx_frame w w' ∧
    (r = Ok tt → batch_settled jobs os (w_db w) (w_db w'))) w.
Proof.
  intros Htok Hk. unfold apply_tx, createExecutionBatchDLQRecords. wp_simpl.
  eapply wp_mono; [apply create_dlq_records_spec|]. intros [[]|e] w1 [Hf1 Hr1]; [|done].
  destruct (Hr1 eq_refl) as (f' & Hdb1 & Hstored). wp_simpl. unfold call_in. rewrite Hatomic.
  assert (m_token (w_mgr w1) = tok) as Htok1 by (destruct Hf1 as (-> & _); done).
  cbn [w_mgr bump]. rewrite Htok1. apply wp_call_tx.
  - intros [n|e] d' Hop; wp_simpl; [|done]. cbn in Hop. rewrite Hdb1 in Hop.
    destruct (n =? Z.of_nat (length os)); cbn; wp_simpl; [|done]. split; [done|]. intros _.
    apply apply_ok in Hop as ((_ & _ & Hnd & _) & _ & Hall & ->); [|done].
    split_and!; [by eexists|done|done|done|done].
  - intros r d' e _. split; wp_simpl; done.
Qed.

Context (Hothers : ∀ t d id j, jobs_t (others E t d) !! id = Some j → LeaseTokenOf j = tok →
           jobs_t d !! id = Some j).
Context (Hkeyed : ∀ t d, keyed (jobs_t d) → keyed (jobs_t (others E t d))).
Context (Hclock : ∀ t, 0 < clock E t).

Lemma settle_tx_spec jobs os w : m_token (w_mgr w) = tok → keyed (jobs_t (w_db w)) →
  wp (RunInTx E (atomicDLQ (s_options S)) (apply_tx E S B jobs os)) (λ r w', tx_frame w w' ∧
    let d0 := others E (w_tick w) (w_db w) in
    (w_db w' = d0 ∧ r ≠ Ok tt) ∨ batch_settled jobs os d0 (w_db w')) w.
Proof.
  intros Htok Hk. rewrite Hatomic. apply wp_RunInTx_atomic.
  eapply wp_mono; [apply apply_tx_spec; [done|by apply Hkeyed]|].
  intros [[]|e] w1 [Hf Hr]; cbn in *.
  - specialize (Hr eq_refl). split; [split; [done|by right]|]. intros e. split; (split; [done|]); [by right|by left].
  - split; [done|]. by left.
Qed.

(** C13: with an atomic transactor a batch is settled as a unit.  Whatever
    statement fails, whether the lease of one item was lost, and whether or
    not the commit's answer arrives: either the tables are exactly as the
    transaction found them and the call failed, or every item's row, live
    under the batch's token, is in the state its outcome asks for and every
    dead-lettered item has its record, none overwriting another. *)
Theorem batch_settlement_atomic jobs outcomes w r w' :
  m_token (w_mgr w) = tok → keyed (jobs_t (w_db w)) →
  RunInTx E (atomicDLQ (s_options S)) (apply_tx E S B jobs outcomes) w = (r, w') →
  let d0 := others E (w_tick w) (w_db w) in
  (w_db w' = d0 ∧ r ≠ Ok tt)
  ∨ (∃ t, all_settleable tok (ts t) outcomes (jobs_t d0)) ∧ NoDup (o_JobID <$> outcomes)
    ∧ jobs_t (w_db w') = settle ts outcomes (jobs_t d0) ∧ keys_t (w_db w') = keys_t d0
    ∧ dlq_stored (jobs_by_id jobs) outcomes (failed_t d0) (failed_t (w_db w')).
Proof.
  intros Htok Hk Hrun d0. pose proof (wp_run _ _ _ _ _ (settle_tx_spec jobs outcomes w Htok Hk) Hrun) as [_ Hset].
  exact Hset.
Qed.

Lemma observeBatchOutcomes_spec jobs os w : wp (observeBatchOutcomes E S jobs os) (λ _ w', telemetry w w') w.
Proof.
  unfold observeBatchOutcomes. destruct (negb _); wp_simpl; [done|].
  revert w. induction os as [|o os IH]; intros w; cbn [observe_outcomes]; wp_simpl; [done|].
  destruct (jobs_by_id jobs !! o_JobID o) as [job|]; [|by wp_simpl; apply IH].
  destruct (o_Kind o); (eapply wp_mono; [apply observeJobOutcome_spec|]);
    intros _ w1 [Ht _]; (eapply wp_mono; [apply IH|]); intros [] w2 Ht2; by eapply telemetry_trans.
Qed.

Lemma dlq_timeout_ge timeout os : timeout ≤ dlq_timeout timeout os.
Proof.
  revert timeout. induction os as [|o os IH]; intros timeout; cbn; [done|]. etrans; [|apply IH].
  unfold batchDLQInsertAllowance, Millisecond, Microsecond, Nanosecond. case_bool_decide; lia.
Qed.

(** When the outcomes of a batch are reported applied, the whole batch
    was settled in one transaction under leases that outlived it by the
    margin, the ledger is empty, and the handlers' record is untouched; when
    they are not, no event was emitted. *)
Theorem applyExecutionBatchOutcomes_settles ctx jobs outcomes w r w' :
  managed ts tok w → applyExecutionBatchOutcomes E S ctx B jobs outcomes w = (r, w') →
  w_handled w' = w_handled w ∧
  match r with
  | Ok _ => m_outstanding (w_mgr w') = ∅ ∧ ∃ d0, batch_settled jobs outcomes d0 (w_db w')
      ∧ ∃ w1, managed ts tok w1 ∧ until_at_least (clock E (w_tick w) + executionBatchFinalizationTimeout outcomes
                                                   + batchFinalizationMargin) (w_mgr w1)
             ∧ d0 = others E (w_tick w1) (w_db w1)
  | Err _ => w_events w' = w_events w
  end.
Proof.
  intros Hm Hrun. pattern r, w'. eapply wp_run; [|exact Hrun]. unfold applyExecutionBatchOutcomes. wp_simpl.
  set (deadline := Add (clock E (w_tick w)) _).
  eapply (finalizeAll_rule E R ts tok); try done.
  - by apply managed_bump.
  - pose proof (Hclock (w_tick w)). subst deadline.
    pose proof (dlq_timeout_ge leaseFinalizationTimeout outcomes) as Hge.
    unfold Add, executionBatchFinalizationTimeout, batchFinalizationMargin, leaseFinalizationTimeout, Second,
      Millisecond, Microsecond, Nanosecond in *. lia.
  - intros e w1 _ Hf1. wp_simpl. destruct Hf1. done.
  - intros w1 Hm1 Hf1 _ Hu. eapply wp_mono; [apply settle_tx_spec; [apply Hm1|apply Hm1]|].
    intros r1 w2 [(Hmgr & _ & _ & Hh & He) Hset]. destruct Hf1. cbn in *.
    destruct r1 as [[]|e]; wp_simpl; [|split; congruence].
    eapply wp_mono; [apply observeBatchOutcomes_spec|]. intros _ w3 (Hdb & Hm3 & _ & _ & Hh3). wp_simpl.
    split; [cbn in *; congruence|]. rewrite Hm3. split; [done|].
    destruct Hset as [[_ Hbad]|Hset]; [done|]. eexists. rewrite Hdb. split; [exact Hset|].
    exists w1. split_and!; [done| |done]. intros id u Hid. specialize (Hu id u Hid). subst deadline. unfold Add in Hu. lia.
Qed.
End settlement.

(** ** The outcomes of a batch *)

Section outcomes.
Context (E : Env) (S : Service).

Lemma backoff_nonneg attempt : 0 ≤ backoff attempt.
Proof. unfold backoff. by destruct (batchAttemptBackoff_pos attempt) as (d & -> & Hd). Qed.

(** The outcome an item's error asks for.  [t] is the completion time. *)
Inductive asks_for (handler : BatchHandler) (t : Z) (job : Job) : option err → BatchJobOutcome → Prop :=
| asks_success : asks_for handler t job None (outcome_with job BatchJobOutcomeSuccess zeroTime "")
| asks_permanent e : IsPermanent (Some e) = true →
    asks_for handler t job (Some e) (outcome_with job BatchJobOutcomeDLQ zeroTime ("permanent failure: " +:+ Error e))
| asks_defer e at_ : IsPermanent (Some e) = false → DeferTime (Some e) = Some at_ →
    asks_for handler t job (Some e) (outcome_with job BatchJobOutcomeDefer (Z.max at_ t) "")
| asks_exhausted e : IsPermanent (Some e) = false → DeferTime (Some e) = None → bh_MaxAttempts handler ≤ Attempts job →
    asks_for handler t job (Some e)
      (outcome_with job BatchJobOutcomeDLQ zeroTime ("max attempts exceeded: " +:+ Error e))
| asks_retry e at_ : IsPermanent (Some e) = false → DeferTime (Some e) = None → Attempts job < bh_MaxAttempts handler →
    t ≤ at_ → retryTime (retryPolicy (s_options S)) job e t (backoff (Attempts job)) = Ok at_ →
    asks_for handler t job (Some e) (outcome_with job BatchJobOutcomeRetry at_ "").

Lemma item_outcome_spec capability handler t job e w :
  wp (item_outcome S capability handler t job e) (λ r w', w_db w' = w_db w ∧ w_mgr w' = w_mgr w
    ∧ w_handled w' = w_handled w ∧ w_events w' = w_events w
    ∧ match r with
      | Ok o => asks_for handler t job e o
      | Err e' => ∃ e0, e = Some e0 ∧ retryTime (retryPolicy (s_options S)) job e0 t (backoff (Attempts job)) = Err e'
      end) w.
Proof.
  unfold item_outcome. destruct e as [e|]; wp_simpl; [|split_and!; try done; constructor].
  destruct (IsPermanent (Some e)) eqn:Hp; wp_simpl; [split_and!; try done; by constructor|].
  destruct (DeferTime (Some e)) as [at_|] eqn:Hd.
  { unfold pauseBatchCapability. wp_simpl.
    assert ((if Before at_ t then t else at_) = Z.max at_ t) as -> by (destruct (Before_spec at_ t); lia).
    destruct (After _ _); cbn; split_and!; try done; by constructor. }
  destruct (Z.leb_spec (bh_MaxAttempts handler) (Attempts job)); wp_simpl; [split_and!; try done; by constructor|].
  destruct (retryTime _ _ _ _ _) as [at_|e'] eqn:Hr; wp_simpl; split_and!; try done; [|by exists e].
  constructor; try done. eapply retryTime_not_past; [apply backoff_nonneg|exact Hr].
Qed.

Lemma item_outcomes_spec capability handler t jobs errs w : length jobs = length errs →
  wp (item_outcomes S capability handler t jobs errs) (λ r w', w_db w' = w_db w ∧ w_mgr w' = w_mgr w
    ∧ w_handled w' = w_handled w ∧ w_events w' = w_events w
    ∧ ∀ os, r = Ok os → Forall3 (asks_for handler t) jobs errs os) w.
Proof.
  revert errs w. induction jobs as [|job jobs IH]; intros [|e errs] w Hlen; try done; cbn [item_outcomes]; wp_simpl.
  { split_and!; try done. intros os [= <-]. constructor. }
  eapply wp_mono; [apply item_outcome_spec|]. intros [o|e'] w1 (Hd1 & Hm1 & Hh1 & He1 & Ho); wp_simpl; [|done].
  eapply wp_mono; [apply IH; cbn in Hlen; lia|]. intros [os|e'] w2 (Hd2 & Hm2 & Hh2 & He2 & Hos); wp_simpl.
  - split_and!; [congruence..|]. intros ? [= <-]. constructor; [done|by apply Hos].
  - split_and!; [congruence..|done].
Qed.

Lemma asks_for_ok handler t job e o : 0 < t → asks_for handler t job e o → ID job ≠ JobIDNil →
  o_JobID o = ID job ∧ outcome_ok o = true
  ∧ (o_Kind o = BatchJobOutcomeRetry ∨ o_Kind o = BatchJobOutcomeDefer → t ≤ o_AvailableAt o).
Proof.
  intros Ht Ha Hid.
  assert (JobIDType.IsZero (ID job) = false) as Hz by (unfold JobIDType.IsZero; by apply N.eqb_neq).
  assert (∀ x, 0 < x → IsZero x = false) as Hnz by (intros x Hx; unfold IsZero, zeroTime; apply Z.eqb_neq; lia).
  inversion Ha; subst; unfold outcome_ok; cbn; rewrite Hz; cbn; split_and!; try done; try (naive_solver lia);
    (rewrite Hnz; [done|lia]).
Qed.

(** A batch handler's item results become exactly the outcomes they ask
    for, item by item and in order: success, dead letter with its reason,
    defer or retry not before the completion time.  They are outcomes the
    repository accepts: the job ids of the batch without duplicates, a reason
    with every dead letter, a time with every retry and defer. *)
Theorem item_outcomes_accepted maximum tok capability handler t jobs errs w outcomes w' :
  length jobs = length errs → 0 < t → tok ≠ LeaseTokenNil → NoDup (ID <$> jobs) → JobIDNil ∉ ID <$> jobs →
  1 ≤ Z.of_nat (length jobs) ≤ maximum →
  item_outcomes S capability handler t jobs errs w = (Ok outcomes, w') →
  Forall3 (asks_for handler t) jobs errs outcomes
  ∧ o_JobID <$> outcomes = ID <$> jobs ∧ outcomes_ok maximum tok outcomes
  ∧ ∀ o, o ∈ outcomes → o_Kind o = BatchJobOutcomeRetry ∨ o_Kind o = BatchJobOutcomeDefer → t ≤ o_AvailableAt o.
Proof.
  intros Hlen Ht Htok Hnd Hnil Hcount Hrun.
  pose proof (wp_run _ _ _ _ _ (item_outcomes_spec capability handler t jobs errs w Hlen) Hrun) as (_ & _ & _ & _ & Hos).
  specialize (Hos _ eq_refl).
  assert (o_JobID <$> outcomes = ID <$> jobs ∧ Forall (λ o, outcome_ok o = true) outcomes
    ∧ ∀ o, o ∈ outcomes → o_Kind o = BatchJobOutcomeRetry ∨ o_Kind o = BatchJobOutcomeDefer → t ≤ o_AvailableAt o)
    as (Hids & Hok & Htimes).
  { clear Hrun Hnd Hcount Hlen. induction Hos as [|job e o jobs errs outcomes Ha Hall IH]; [set_solver|].
    rewrite !fmap_cons in *. apply not_elem_of_cons in Hnil as [Hj Hnil].
    destruct (asks_for_ok _ _ _ _ _ Ht Ha) as (H1 & H2 & H3); [congruence|].
    destruct (IH Hnil) as (I1 & I2 & I3).
    split_and!; [by rewrite H1, I1|by constructor|]. intros x [->|Hx]%elem_of_cons; auto. }
  split_and!; try done. split; [done|]. split; [|split; [by rewrite Hids|done]].
  assert (length outcomes = length jobs) as -> by (rewrite <- (length_fmap o_JobID), Hids; by rewrite length_fmap). done.
Qed.
End outcomes.

(** ** Delivery *)

Section delivery.
Context (E : Env) (S : Service).
Abbreviation R := (rp_jobs (s_repo S)).

Lemma claimJobs_frame ctx token claim w :
  wp (claimJobsWithLease E S ctx token claim) (λ _ w', claim_frame w w') w.
Proof.
  unfold claimJobsWithLease. wp_simpl. destruct (draining E _); wp_simpl; [done|]. apply wp_call.
  - intros d r d' _ _. wp_simpl. apply wp_cause. intros c. destruct r as [jobs|e]; wp_simpl; [|done].
    destruct c as [c|]; wp_simpl; [|done]. unfold releaseCancelledClaim. wp_simpl.
    eapply wp_mono; [apply releaseClaimedBatchTail_frame|]. intros [[]|e] w' []; wp_simpl; by split.
  - intros d r d' e _ _. split; wp_simpl; apply wp_cause; intros c; by wp_simpl.
Qed.

(** The rows a worker accepts from one claim: the capability's, once each,
    within both limits, or a single larger one. *)
Record acceptable (capability : JobCapability) (maxMessages maxBytes : Z) (jobs : list Job) : Prop := {
  ac_count : 1 ≤ Z.of_nat (length jobs) ≤ maxMessages;
  ac_distinct : NoDup (ID <$> jobs);
  ac_capability : Forall (λ j, job_capability j = capability) jobs;
  ac_bytes : payload_sum jobs ≤ maxBytes ∨ (length jobs = 1)%nat
}.

Lemma draws_frame n w : claim_frame w (Nat.iter n bump w).
Proof. induction n as [|n IH]; cbn; [done|]. by destruct IH. Qed.

Lemma wp_draws n Q w : wp (draws n) Q w = Q (w_tick w) (Nat.iter n bump w).
Proof. done. Qed.

Lemma claimForFill_spec ctx B capability tok limits w : 1 ≤ lim_MaxMessages limits →
  wp (claimExecutionBatchForFill E S ctx B capability tok limits) (λ r w', claim_frame w w' ∧
    ∀ jobs, r = Ok jobs → acceptable capability (lim_MaxMessages limits) (lim_MaxBytes limits) jobs) w.
Proof.
  intros Hmax. unfold claimExecutionBatchForFill.
  destruct (FindAndReserveJobsForCapabilityBounded B) as [f|].
  - unfold claimExecutionBatchBoundedWithToken. wp_simpl.
    eapply wp_mono; [apply claimJobs_frame|]. intros [jobs|e] w1 Hf1; cbn [res_map_err]; [|done].
    wp_simpl. rewrite wp_draws. set (t := w_tick w1).
    pose proof (claim_frame_trans _ _ _ Hf1 (draws_frame (length jobs) w1)) as Hf.
    destruct (validateClaimedExecutionBatch _ jobs _ _ _) as [[]|e] eqn:Hv; wp_simpl; [|done].
    destruct (validateBoundedExecutionBatchPayload jobs _) as [[]|e] eqn:Hp; wp_simpl; [|done].
    split; [done|]. intros ? [= <-]. apply claimed_batch_facts in Hv as (Hc & Hnd & HF).
    apply bounded_payload_facts in Hp. split; [done|done| |].
    + eapply Forall_impl; [exact HF|]. by intros j [? _].
    + destruct Hp; [by left|right; lia].
  - unfold claimExecutionBatchSingletonWithToken. wp_simpl.
    eapply wp_mono; [apply claimJobs_frame|]. intros [jobs|e] w1 Hf1; cbn [res_map_err]; [|done].
    wp_simpl. rewrite wp_draws. set (t := w_tick w1).
    pose proof (claim_frame_trans _ _ _ Hf1 (draws_frame (length jobs) w1)) as Hf.
    destruct (validateClaimedExecutionBatch _ jobs _ _ _) as [[]|e] eqn:Hv; wp_simpl; [|done].
    split; [done|]. intros ? [= <-]. apply claimed_batch_facts in Hv as (Hc & Hnd & HF).
    unfold batchCollectorClaimLimit in Hc. split; [lia|done| |right; lia].
    eapply Forall_impl; [exact HF|]. by intros j [? _].
Qed.

Lemma claimWithin_spec ctx B capability tok limits deadline w : 1 ≤ lim_MaxMessages limits →
  wp (claimExecutionBatchWithinFillWindow E S ctx B capability tok limits deadline) (λ r w', claim_frame w w' ∧
    (r.1.2 = false → r.2 = None → acceptable capability (lim_MaxMessages limits) (lim_MaxBytes limits) r.1.1)) w.
Proof.
  intros Hmax. unfold claimExecutionBatchWithinFillWindow. wp_simpl. destruct (_ <=? _); wp_simpl; [done|].
  eapply wp_mono; [by apply claimForFill_spec|]. intros r w1 [Hf Hr]. wp_simpl. apply wp_cause. intros cc.
  assert (claim_frame w (bump w1)) as Hf' by (destruct Hf; by split).
  destruct r as [jobs|e]; wp_simpl; [split; [done|]; intros _ _; by apply Hr|].
  destruct (errors_Is e errCancelledClaimCleanup); wp_simpl; [done|].
  apply wp_cause. intros [c|]; wp_simpl; [split; [destruct Hf'; by split|done]|].
  destruct (match cc with Some c => _ | None => false end); wp_simpl; (split; [destruct Hf'; by split|done]).
Qed.

Definition ledger_is (jobs : list Job) (w : World) : Prop :=
  ∀ id, is_Some (m_outstanding (w_mgr w) !! id) ↔ id ∈ ID <$> jobs.

Lemma ledger_is_frame jobs w w' : claim_frame w w' → ledger_is jobs w → ledger_is jobs w'.
Proof. intros [Hm _ _ _] Hl id. by rewrite Hm. Qed.

Lemma acceptable_app capability maxMessages maxBytes jobs selected :
  acceptable capability maxMessages maxBytes jobs → payload_sum jobs + payload_sum selected ≤ maxBytes →
  Z.of_nat (length jobs) + Z.of_nat (length selected) ≤ maxMessages →
  Forall (λ j, job_capability j = capability) selected → NoDup (ID <$> selected) →
  (∀ id, id ∈ ID <$> selected → id ∉ ID <$> jobs) →
  acceptable capability maxMessages maxBytes (jobs ++ selected).
Proof.
  intros [Hc Hnd HF Hb] Hbytes Hcount HF' Hnd' Hnew. split.
  - rewrite length_app. lia.
  - rewrite fmap_app. apply NoDup_app. split_and!; [done| |done]. intros id Hin Hin'. by apply (Hnew id).
  - by apply Forall_app.
  - left. rewrite payload_sum_app. lia.
Qed.

(** The fill keeps the batch acceptable and in step with the ledger. *)
Lemma fill_loop_spec B fuel ctx tok capability config deadline jobs w :
  acceptable capability (MaxMessages config) (MaxBytes config) jobs → ledger_is jobs w →
  wp (fill_loop E S fuel ctx B tok capability config deadline jobs (payload_sum jobs)) (λ r w',
    w_handled w' = w_handled w ∧
    ∀ filled e, r = Some (filled, e) → acceptable capability (MaxMessages config) (MaxBytes config) filled) w.
Proof.
  revert jobs w. induction fuel as [|fuel IH]; intros jobs w Hac Hl; cbn [fill_loop]; wp_simpl; [done|].
  assert (∀ w' (o : option err), w_handled w' = w_handled w →
    w_handled w' = w_handled w ∧ ∀ filled e, Some (jobs, o) = Some (filled, e) →
      acceptable capability (MaxMessages config) (MaxBytes config) filled) as Hdone by naive_solver.
  destruct (Z.ltb_spec (Z.of_nat (length jobs)) (MaxMessages config)) as [Hlen|]; cbn; wp_simpl; [|by apply Hdone].
  destruct (Z.ltb_spec (payload_sum jobs) (MaxBytes config)) as [Hbytes|]; cbn; wp_simpl; [|by apply Hdone].
  destruct (_ <=? 0); wp_simpl; [by apply Hdone|].
  eapply wp_mono; [apply claimWithin_spec; cbn; lia|]. intros [[claimed reached] e] w1 [Hf1 Hcl]. cbn in Hcl.
  assert (w_handled w1 = w_handled w) as Hh1 by (by destruct Hf1).
  assert (ledger_is jobs w1) as Hl1 by (by eapply ledger_is_frame).
  destruct reached; wp_simpl; [by apply Hdone|]. destruct e as [e|].
  - destruct (errors_Is e ErrNoJobs); wp_simpl; [|by apply Hdone]. destruct (_ <=? 0); wp_simpl; [by apply Hdone|].
    unfold poll_wait. wp_simpl. apply wp_cause. intros c. wp_simpl.
    set (stop := if timer_first E _ then _ else _). destruct stop; wp_simpl; [by apply Hdone|].
    eapply wp_mono; [by apply IH|]. intros r w2 [Hh2 Hr2]. split; [cbn in *; congruence|done].
  - specialize (Hcl eq_refl eq_refl).
    destruct (selectBatchPayloadLimitWithUsed claimed (MaxBytes config) (payload_sum jobs)) as [selected tail] eqn:Hsel.
    apply select_fits in Hsel as [Happ Hfit]. specialize (Hfit ltac:(lia)). wp_simpl.
    eapply wp_mono; [apply add_jobs_kept|]. intros [[]|e] w2 (Hh2 & _ & Hadd); wp_simpl; [|apply Hdone; congruence].
    destruct (Hadd eq_refl) as (Hnd & Hnew & Hdom).
    assert (acceptable capability (MaxMessages config) (MaxBytes config) (jobs ++ selected)) as Hac2.
    { apply acceptable_app; try done.
      - assert (length selected ≤ length claimed)%nat by (rewrite <- Happ, length_app; lia).
        pose proof (ac_count _ _ _ _ Hcl). cbn in *. lia.
      - pose proof (ac_capability _ _ _ _ Hcl) as HF. rewrite <- Happ in HF. by apply Forall_app in HF as [? _].
      - intros id Hin Hin'. apply (Hnew id Hin). by apply Hl1. }
    assert (ledger_is (jobs ++ selected) w2) as Hl2.
    { intros id. rewrite Hdom, fmap_app, elem_of_app. by rewrite (Hl1 id). }
    eapply wp_mono; [apply releaseClaimedBatchTail_frame|]. intros r w3 Hf3.
    assert (w_handled w3 = w_handled w) as Hh3 by (destruct Hf3; congruence).
    assert (ledger_is (jobs ++ selected) w3) as Hl3 by (eapply ledger_is_frame; [exact Hf3|exact Hl2]).
    destruct r as [[]|e]; wp_simpl; [|split; [done|]; intros ? ? [= <- <-]; done].
    destruct tail; wp_simpl; [|split; [done|]; intros ? ? [= <- <-]; done].
    rewrite <- payload_sum_app. eapply wp_mono; [by apply IH|]. intros r w4 [Hh4 Hr4]. split; [congruence|done].
Qed.

(** Everything but the handler leaves the record of handler calls alone. *)
Definition same_handled (w w' : World) : Prop := w_handled w' = w_handled w.

#[local] Instance handled_footprint : Footprint E (λ _ _, True) same_handled.
Proof.
  split; unfold same_handled; try done. split; [by intros w|]. intros w1 w2 w3. congruence.
Qed.

#[local] Instance unrestricted_calls : ServiceCalls S (λ _ _, True).
Proof. by split. Qed.

Lemma wp_same_handled {A} (m : M A) (Q : A → World → Prop) w : pres same_handled m →
  (∀ a w', w_handled w' = w_handled w → Q a w') → wp m Q w.
Proof. intros Hp HQ. apply HQ, Hp. Qed.

Lemma executeBatchHandler_handled ctx handler items w :
  wp (executeBatchHandler E S ctx handler items)
    (λ _ w', w_handled w' = w_handled w ++ ((λ i, (item_JobID i, item_Attempt i)) <$> items)) w.
Proof.
  unfold executeBatchHandler. wp_simpl.
  apply wp_same_handled; [eapply pres_run; [apply _|done]|]. intros _ w1 Hh. wp_simpl.
  destruct (bh_HandleBatch _ _ _) as [[r e]|v]; wp_simpl; [|done]. apply wp_cause. intros c. by wp_simpl.
Qed.

Lemma batch_items_handled jobs :
  (λ i, (item_JobID i, item_Attempt i)) <$> batch_items jobs = handled_of jobs.
Proof. unfold batch_items, handled_of. rewrite <- list_fmap_compose. done. Qed.

Context (B : BatchJobsRepository) (HB : rp_batch (s_repo S) = Some B).

(** One handler call at most, on the sorted batch. *)
Lemma run_filled_handled capability handler filled w :
  wp (run_filled_batch E S B capability handler filled) (λ _ w', w_handled w' = w_handled w
    ∨ w_handled w' = w_handled w ++ handled_of (sortExecutionBatchJobs (uuid_text E) filled)) w.
Proof.
  unfold run_filled_batch. wp_simpl. set (selected := sortExecutionBatchJobs _ _).
  eapply wp_mono; [apply admit_jobs|]. intros [[]|e] w1 [Hh1 _ _]; wp_simpl.
  2: { apply wp_same_handled; [by eapply pres_stop_worker; apply _|]. intros hb w2 Hh2. wp_simpl.
       apply wp_same_handled; [by eapply pres_release_worker; apply _|]. intros rel w3 Hh3. wp_simpl. left. congruence. }
  eapply wp_mono; [apply executeBatchHandler_handled|]. intros [result he] w2 Hh2. rewrite batch_items_handled in Hh2.
  assert (w_handled w2 = w_handled w ++ handled_of selected) as Hh by congruence. wp_simpl.
  apply wp_cause. intros c.
  assert (∀ {A} (m : M A) (f : option err → bool * option err), pres same_handled m →
    wp (m ≫= λ _, hb ← stopAndWait E R; mret (f hb)) (λ _ w', w_handled w' = w_handled w
    ∨ w_handled w' = w_handled w ++ handled_of selected) (bump w2)) as Hstop.
  { intros A m f Hp. wp_simpl. apply wp_same_handled; [done|]. intros a w3 Hh3. wp_simpl.
    apply wp_same_handled; [by eapply pres_stop_worker; apply _|]. intros hb w4 Hh4. wp_simpl. right. cbn in *. congruence. }
  destruct c as [c|]; [apply Hstop; by eapply pres_forgetAll_worker; apply _|].
  destruct (match he with Some e => _ | None => false end);
    [apply Hstop; by eapply pres_forgetAll_worker; apply _|].
  wp_simpl. apply wp_same_handled; [by eapply pres_finish; try apply _|]. intros r w3 Hh3. wp_simpl.
  apply wp_same_handled; [destruct r; [eapply pres_ret|eapply pres_forgetAll_worker]; apply _|]. intros _ w4 Hh4. wp_simpl.
  apply wp_same_handled; [by eapply pres_stop_worker; apply _|]. intros hb w5 Hh5. wp_simpl.
  apply wp_same_handled; [by eapply pres_release_worker; apply _|]. intros rel w6 Hh6. wp_simpl. right.
  cbn in *. congruence.
Qed.

Lemma payload_sum_perm l1 l2 : l1 ≡ₚ l2 → payload_sum l1 = payload_sum l2.
Proof. induction 1; cbn; lia. Qed.

Lemma acceptable_perm capability n b l1 l2 : l1 ≡ₚ l2 → acceptable capability n b l1 → acceptable capability n b l2.
Proof.
  intros Hp [Hc Hnd HF Hb]. split.
  - by rewrite <- Hp.
  - by rewrite <- Hp.
  - by rewrite <- Hp.
  - rewrite <- (payload_sum_perm _ _ Hp), <- (Permutation_length Hp). done.
Qed.

Lemma new_manager_ledger jobs tok r w :
  wp (newBatchLeaseManager jobs tok r) (λ _ w', w_handled w' = w_handled w ∧ ledger_is jobs w') w.
Proof.
  unfold newBatchLeaseManager. wp_simpl. split; [done|].
  assert (∀ m id, is_Some (m_outstanding (add_jobs jobs m) !! id)
            ↔ is_Some (m_outstanding m !! id) ∨ id ∈ ID <$> jobs) as Hadd.
  { induction jobs as [|j jobs IH]; intros m id; cbn [add_jobs]; [set_solver|].
    rewrite IH, fmap_cons, elem_of_cons. cbn. rewrite lookup_insert_is_Some'. naive_solver. }
  intros id. cbn. rewrite Hadd. cbn. rewrite lookup_empty. unfold is_Some. naive_solver.
Qed.

Lemma findAndProcessExecutionBatch_handled fuel capability handler config w :
  s_batchJobs S !! capability = Some (handler, config) → 1 ≤ MaxMessages config →
  wp (findAndProcessExecutionBatch E S fuel capability) (λ _ w', w_handled w' = w_handled w ∨ ∃ jobs,
    w_handled w' = w_handled w ++ handled_of jobs
    ∧ acceptable capability (MaxMessages config) (MaxBytes config) jobs
    ∧ StronglySorted (not_after (execution_less (uuid_text E))) jobs) w.
Proof.
  intros Hreg Hmax. unfold findAndProcessExecutionBatch. rewrite Hreg, HB.
  unfold claimInitialExecutionBatch, NewLeaseToken. wp_simpl.
  eapply wp_mono; [by apply claimForFill_spec|]. intros claim w1 [Hf1 Hcl]. wp_simpl.
  assert (w_handled w1 = w_handled w) as Hh1 by (by destruct Hf1).
  destruct claim as [jobs|e].
  2: { destruct (errors_Is e ErrNoJobs); wp_simpl; [by left|].
       apply wp_same_handled; [eapply pres_observeLeaseLoss; apply _|]. intros _ w2 Hh2. wp_simpl. left. congruence. }
  specialize (Hcl _ eq_refl). cbn in Hcl. wp_simpl.
  eapply wp_mono; [apply new_manager_ledger|]. intros _ w2 [Hh2 Hl2]. wp_simpl.
  assert (wp (fillExecutionBatch E S fuel batchCtx B (newLeaseToken E (w_tick w)) capability config jobs) (λ r w',
    w_handled w' = w_handled w2 ∧
    ∀ filled e, r = Some (filled, e) → acceptable capability (MaxMessages config) (MaxBytes config) filled) w2) as Hfill.
  { unfold fillExecutionBatch. destruct (_ || _); wp_simpl; [split; [done|]; intros ? ? [= <- <-]; done|].
    eapply wp_mono; [by apply fill_loop_spec|]. done. }
  eapply wp_mono; [exact Hfill|]. intros [[filled fe]|] w3 [Hh3 Hac]; wp_simpl; [|left; congruence].
  specialize (Hac _ _ eq_refl). destruct fe as [fe|]; wp_simpl.
  - apply wp_same_handled; [by eapply pres_stop_worker; apply _|]. intros hb w4 Hh4. wp_simpl.
    apply wp_same_handled; [by eapply pres_release_worker; apply _|]. intros rel w5 Hh5. wp_simpl.
    apply wp_same_handled; [eapply pres_observeLeaseLoss; apply _|]. intros _ w6 Hh6. wp_simpl. left. congruence.
  - eapply wp_mono; [apply run_filled_handled|]. intros r w4 Hh4. wp_simpl.
    apply wp_same_handled; [eapply pres_observeLeaseLoss; apply _|]. intros _ w5 Hh5. wp_simpl. rewrite Hh5.
    destruct Hh4 as [Hh4|Hh4]; [left; congruence|right]. eexists. split; [rewrite Hh4; f_equal; congruence|]. split.
    + eapply acceptable_perm; [|exact Hac]. symmetry. apply sort_slice_perm.
    + apply sort_slice_sorted. apply _.
Qed.

End delivery.
