(* ===== verification/Progress.v ===== *)
(** * Progress: a worker left alone empties its queue

    The other theorems hold in every environment; here the environment is calm
    (nothing fails, nobody else writes, no cancellation, no drain, and every
    clock reading falls within [slack] of [t0], short enough that no lease
    needs extending) and the question is whether the work gets done. *)

From S2P Require Import Prelude GoTime Errors Models Retry Batch Sql Repo Stats Options PgJobs DbSql SqliteJobs.
From S2P Require Import Runtime LeaseManager Service ExecBatch.
Open Scope Z_scope.

(** What a backend promises about claims that find something, or nothing.
    [room] is the room a row has left in its attempt counter. *)
Class ClaimsReady (ts : Z → Z) (room : Job → bool) (R : JobsRepository) : Prop := {
  claim_total locked now until tok caps limit d :
    keyed (jobs_t d) → tok ≠ LeaseTokenNil → Forall (λ c, Validate c = Ok tt) caps →
    1 ≤ limit ≤ MaxReservationBatchSizeOf R → map_Forall (λ _ j, room j = true) (jobs_t d) →
    (∃ r, jobs_t d !! ID r = Some r ∧ claimable (ts now) caps r = true
          ∧ ID r ∉ skipped (SkipLocked R) locked) →
    ∃ js d', FindAndReserveJobsForCapabilities R locked now until tok caps limit d = (Ok js, d');
  claim_none locked now until tok caps limit d :
    keyed (jobs_t d) → tok ≠ LeaseTokenNil → Forall (λ c, Validate c = Ok tt) caps →
    1 ≤ limit ≤ MaxReservationBatchSizeOf R →
    (∀ r, jobs_t d !! ID r = Some r → claimable (ts now) caps r = false) →
    ∃ e, FindAndReserveJobsForCapabilities R locked now until tok caps limit d = (Err e, d)
         ∧ errors_Is e ErrNoJobs = true
}.

(** ** A calm environment *)

Record Calm (E : Env) (t0 slack : Z) : Prop := {
  calm_clock n : t0 ≤ clock E n ≤ t0 + slack;
  calm_token n : newLeaseToken E n ≠ LeaseTokenNil;
  calm_others n d : others E n d = d;
  calm_fault n : fault E n = None;
  calm_commit n : commit_fault E n = None;
  calm_cause n : run_cause E n = None;
  calm_draining n : draining E n = false;
  calm_beats n : beats E n = 0%nat;
  calm_lock n : lock_timeout E n = None;
  calm_held n : held E n = ∅
}.

Lemma iter_bump n w : w_db (Nat.iter n bump w) = w_db w ∧ w_mgr (Nat.iter n bump w) = w_mgr w
  ∧ w_paused (Nat.iter n bump w) = w_paused w ∧ w_handled (Nat.iter n bump w) = w_handled w.
Proof. by induction n. Qed.

Lemma iter_bump_tick n w : w_tick (Nat.iter n bump w) = (n + w_tick w)%nat.
Proof. induction n as [|n IH]; [done|]. rewrite Nat.iter_succ. cbn. by rewrite IH. Qed.

Section calm.
Context (E : Env) (t0 slack : Z) (Hcalm : Calm E t0 slack).

Lemma wp_call_calm {A} (op : Op A) Q w r d' : op (w_db w) = (r, d') → Q r (set_db d' (bump w)) → wp (call E op) Q w.
Proof.
  intros Hop HQ. unfold wp, call, tick, on_db, execute, mbind, M_bind. cbn.
  by rewrite (calm_others _ _ _ Hcalm), Hop, (calm_fault _ _ _ Hcalm).
Qed.

Lemma wp_call_tx_calm {A} (op : Op A) Q w r d' : op (w_db w) = (r, d') → Q r (set_db d' (bump w)) → wp (call_tx E op) Q w.
Proof.
  intros Hop HQ. unfold wp, call_tx, tick, on_db, execute, mbind, M_bind. cbn.
  by rewrite Hop, (calm_fault _ _ _ Hcalm).
Qed.

(** A transaction whose callback succeeds is committed. *)
Lemma wp_RunInTx_calm {A} atomic (fn : M (result A)) Q w :
  wp fn (λ r w1, ∃ a, r = Ok a ∧ Q (Ok a) w1 ∧ Q (Ok a) (bump w1)) (bump w) → wp (RunInTx E atomic fn) Q w.
Proof.
  intros Hfn. unfold RunInTx. wp_simpl. cbn [w_db bump]. rewrite (calm_others _ _ _ Hcalm).
  replace (set_db (w_db w) (bump w)) with (bump w) by done. eapply wp_mono; [exact Hfn|].
  intros r w1 (a & -> & H1 & H2). destruct atomic; cbn [negb]; wp_simpl; [|done].
  rewrite (calm_commit _ _ _ Hcalm). by wp_simpl.
Qed.

Lemma wp_lock_calm R Q w : Q tt (bump w) → wp (lock E R) Q w.
Proof. intros HQ. unfold lock. wp_simpl. by rewrite (calm_beats _ _ _ Hcalm). Qed.

Lemma wp_LockContext_calm R Q w : Q (Ok tt) (bump w) → wp (LockContext E R) Q w.
Proof. intros HQ. unfold LockContext. wp_simpl. rewrite (calm_beats _ _ _ Hcalm), (calm_lock _ _ _ Hcalm). by wp_simpl. Qed.

(** A context whose deadline is past every reading. *)
Definition open_ctx (c : Ctx) : Prop := match c_deadline c with Some d => t0 + slack < d | None => True end.

Lemma wp_cause_calm c Q w : open_ctx c → m_cancel (w_mgr w) = None → Q None (bump w) → wp (cause E c) Q w.
Proof.
  intros Hc Hm HQ. unfold cause. wp_simpl. cbn [w_mgr bump]. rewrite Hm.
  assert (∀ b : bool, (if b then None else None) = @None err) as Hif by (by intros []).
  rewrite Hif. rewrite (calm_cause _ _ _ Hcalm), Hif. unfold open_ctx in Hc. destruct (c_deadline c) as [d|]; [|done].
  pose proof (calm_clock _ _ _ Hcalm (w_tick w)). rewrite (proj2 (Z.leb_gt _ _)) by lia. done.
Qed.

Lemma wp_ctx_err_calm c Q w : open_ctx c → m_cancel (w_mgr w) = None → Q None (bump w) → wp (ctx_err E c) Q w.
Proof. intros Hc Hm HQ. unfold ctx_err. wp_simpl. by apply wp_cause_calm. Qed.

Lemma wp_isDraining_calm Q w : Q false (bump w) → wp (isDraining E) Q w.
Proof. rewrite wp_isDraining. by rewrite (calm_draining _ _ _ Hcalm). Qed.

Lemma wp_batchStartError_calm c Q w : open_ctx c → m_cancel (w_mgr w) = None → Q (Ok tt) (bump (bump w)) →
  wp (batchStartError E c) Q w.
Proof.
  intros Hc Hm HQ. unfold batchStartError. wp_simpl. apply wp_cause_calm; [done|done|]. wp_simpl.
  by rewrite (calm_draining _ _ _ Hcalm).
Qed.

(** Nothing to extend: every lease of the ledger outlives what is required. *)
Lemma wp_checkLeases_calm n Q w : n < m_earliest (w_mgr w) → Q (Ok tt) w → wp (checkLeasesLocked E n) Q w.
Proof.
  intros Hn HQ. unfold checkLeasesLocked. wp_simpl. unfold Before. rewrite (proj2 (Z.ltb_lt _ _)) by done. by wp_simpl.
Qed.

Lemma wp_ensure_calm R ctx required target Q w : t0 + slack < m_earliest (w_mgr w) → required ≤ m_earliest (w_mgr w) →
  Q (Ok tt) (bump w) → wp (ensureLeasesLocked E R ctx required target) Q w.
Proof.
  intros He Hr HQ. unfold ensureLeasesLocked. wp_simpl. pose proof (calm_clock _ _ _ Hcalm (w_tick w)).
  apply wp_checkLeases_calm; [cbn; lia|]. wp_simpl. cbn [w_mgr bump]. unfold Before.
  rewrite (proj2 (Z.ltb_ge _ _)) by done. by wp_simpl.
Qed.
End calm.

Lemma ready_mono a b j : a ≤ b → ready a j = true → ready b j = true.
Proof.
  unfold ready. rewrite !andb_true_iff, !Z.leb_le. intros Hab [? Hr]. split; [lia|].
  destruct (ReservedAt j); [|done]. apply Z.leb_le in Hr. apply Z.leb_le. lia.
Qed.

Lemma claimable_mono a b caps j : a ≤ b → claimable a caps j = true → claimable b caps j = true.
Proof. unfold claimable. rewrite !andb_true_iff. intros Hab [? ?]. split; [by eapply ready_mono|done]. Qed.

Lemma set_jobs_set_jobs t t' d : set_jobs t (set_jobs t' d) = set_jobs t d.
Proof. done. Qed.

(** Deleting by id, one row or one selection after another. *)
Lemma sql_delete_ids_cons id ids t : keyed t →
  (sql_delete (in_ids ids) (delete id t)).1 = (sql_delete (in_ids (id :: ids)) t).1.
Proof.
  intros Hk. apply map_eq. intros i. rewrite !sql_delete_lookup.
  destruct (decide (i = id)) as [->|Hne].
  - rewrite lookup_delete_eq. destruct (t !! id) as [j|] eqn:Hj; [|done].
    rewrite (proj2 (in_ids_spec _ _)); [done|]. rewrite (Hk _ _ Hj). set_solver.
  - rewrite lookup_delete_ne by done. destruct (t !! i) as [j|] eqn:Hj; [|done].
    replace (in_ids (id :: ids) j) with (in_ids ids j); [done|].
    apply eq_true_iff_eq. rewrite !in_ids_spec, (Hk _ _ Hj). set_solver.
Qed.

Lemma sql_delete_ids_app ids1 ids2 t :
  (sql_delete (in_ids ids2) (sql_delete (in_ids ids1) t).1).1 = (sql_delete (in_ids (ids1 ++ ids2)) t).1.
Proof.
  apply map_eq. intros i. rewrite !sql_delete_lookup. destruct (t !! i) as [j|]; [|done].
  assert (in_ids (ids1 ++ ids2) j = in_ids ids1 j || in_ids ids2 j) as ->.
  { apply eq_true_iff_eq. rewrite orb_true_iff, !in_ids_spec. set_solver. }
  by destruct (in_ids ids1 j), (in_ids ids2 j).
Qed.

(** Rows reserved and then deleted by id are simply gone. *)
Lemma sql_delete_updated ids f t : (∀ j, ID (f j) = ID j) →
  (sql_delete (in_ids ids) (sql_update (in_ids ids) f t).1).1 = (sql_delete (in_ids ids) t).1.
Proof.
  intros Hf. apply map_eq. intros i. rewrite !sql_delete_lookup, sql_update_lookup.
  destruct (t !! i) as [j|]; [|done]. cbn. destruct (in_ids ids j) eqn:Hj; [|by rewrite Hj].
  unfold in_ids in *. by rewrite Hf, Hj.
Qed.

(** The rows a deletion by id leaves of a selection. *)
Lemma affected_deleted p rs t : keyed t → NoDup (ID <$> rs) →
  (∀ r, r ∈ rs → t !! ID r = Some r ∧ p r = true) →
  affected p (sql_delete (in_ids (ID <$> rs)) t).1 + Z.of_nat (length rs) = affected p t.
Proof.
  intros Hk Hnd Hrs.
  assert (affected (λ j, p j && in_ids (ID <$> rs) j) t = Z.of_nat (length rs)) as <-.
  { rewrite <- (length_fmap ID rs). apply affected_all_iff; [done|done| |].
    - by intros j [_ Hj%in_ids_spec]%andb_true_iff.
    - intros id (r & -> & Hr)%list_elem_of_fmap. destruct (Hrs r Hr) as [Hl Hp]. exists r. split; [done|].
      rewrite Hp. cbn. apply in_ids_spec. by apply list_elem_of_fmap_2. }
  assert (affected p (sql_delete (in_ids (ID <$> rs)) t).1
          = affected (λ j, p j && negb (in_ids (ID <$> rs) j)) t) as ->.
  { unfold affected. do 2 f_equal. apply map_eq. intros i. apply option_eq. intros j.
    rewrite !map_lookup_filter_Some. cbn [snd]. rewrite sql_delete_lookup.
    destruct (t !! i) as [x|]; [|naive_solver]. rewrite andb_true_iff, negb_true_iff.
    destruct (in_ids _ x) eqn:Hx; split; [naive_solver| |naive_solver..].
    intros ([= ->] & _ & Hn). congruence. }
  rewrite Z.add_comm, affected_disjoint by (done || (intros j [_ ->]%andb_true_iff; apply andb_false_r)).
  apply affected_ext. intros j. destruct (p j), (in_ids _ j); done.
Qed.

(** ** One batch in a calm environment *)

(** A handler that succeeds, with a timeout it does not reach. *)
Definition succeeds (slack : Z) (h : Handler) : Prop :=
  slack < h_ExecutionTimeout h ∧ ∀ t m p, h_Handle h t m p = Returns None.

Section serve.
Context (E : Env) (S : Service) (ts : Z → Z) (t0 slack : Z).
Abbreviation R := (rp_jobs (s_repo S)).
Abbreviation rf := (reserveFor (s_options S)).
Abbreviation D := (t0 + rf - 2 * Millisecond).
Context `{!LeaseRepository ts R}.
Context (Hcalm : Calm E t0 slack).
(** The leases of a claim outlast the readings by what admission ([rf / 3])
    and finalization ask for. *)
Context (Hslack : 0 ≤ slack < leaseFinalizationTimeout).
Context (Hadmit : slack + rf / 3 + 2 * Millisecond ≤ rf).
Context (Hfinal : slack + leaseFinalizationTimeout + batchFinalizationMargin + 2 * Millisecond ≤ rf).

(** The handlers of the service, with timeouts they do not reach. *)
Context (good : Handler → Prop) (Hgood : ∀ h, good h → slack < h_ExecutionTimeout h).

(** A claimed job and its row. *)
Definition in_hand (d : Db) (j : Job) : Prop :=
  ID j ≠ JobIDNil ∧ LeaseTokenOf j ≠ LeaseTokenNil
  ∧ (∃ h, s_jobs S !! job_capability j = Some h ∧ good h)
  ∧ ∃ r u, jobs_t d !! ID j = Some r ∧ LeaseTokenOf r = LeaseTokenOf j ∧ ReservedAt r = Some u
           ∧ t0 + slack + Millisecond ≤ u.

(** The worker while [js] are left of its batch. *)
Record serving (js : list Job) (w : World) : Prop := {
  sv_err : m_err (w_mgr w) = None;
  sv_cancel : m_cancel (w_mgr w) = None;
  sv_reserveFor : m_reserveFor (w_mgr w) = rf;
  sv_ledger id : is_Some (m_outstanding (w_mgr w) !! id) ↔ id ∈ ID <$> js;
  sv_earliest : js ≠ [] → D ≤ m_earliest (w_mgr w);
  sv_paused : w_paused w = ∅;
  sv_keyed : keyed (jobs_t (w_db w));
  sv_distinct : NoDup (ID <$> js);
  sv_rows j : j ∈ js → in_hand (w_db w) j
}.

Lemma serving_same js w w' : w_db w' = w_db w → w_mgr w' = w_mgr w → w_paused w' = w_paused w →
  serving js w → serving js w'.
Proof. intros Hd Hm Hp []. split; rewrite ?Hm, ?Hp, ?Hd; auto. Qed.

Lemma serving_bump js w : serving js w → serving js (bump w).
Proof. by apply serving_same. Qed.
Hint Resolve serving_bump : core.

Lemma reading w : t0 ≤ clock E (w_tick w) ≤ t0 + slack.
Proof. apply (calm_clock _ _ _ Hcalm). Qed.

Lemma wp_admit_calm j js ctx Q w : open_ctx t0 slack ctx → serving (j :: js) w →
  (∀ n, Q (Ok tt) (Nat.iter n bump w)) → wp (manager_admit E R ctx) Q w.
Proof.
  intros Hctx Hsv HQ. unfold manager_admit. wp_simpl. eapply wp_lock_calm; [done|]. wp_simpl.
  eapply wp_batchStartError_calm; [done|done|apply Hsv|]. wp_simpl. cbn [w_mgr bump].
  assert (m_outstanding (w_mgr w) ≠ ∅) as Hne.
  { intros He. destruct (proj2 (sv_ledger _ _ Hsv (ID j))) as [u Hu]; [set_solver|]. by rewrite He in Hu. }
  rewrite bool_decide_eq_false_2 by done. wp_simpl.
  pose proof (sv_earliest _ _ Hsv ltac:(done)) as HD.
  set (t := clock E _). assert (t0 ≤ t ≤ t0 + slack) as Ht by apply (calm_clock _ _ _ Hcalm).
  assert (0 < leaseFinalizationTimeout ∧ 0 < batchFinalizationMargin ∧ 0 < Millisecond) as (? & ? & ?) by done.
  apply wp_checkLeases_calm; [cbn; lia|]. wp_simpl. cbn [w_mgr bump]. rewrite (sv_reserveFor _ _ Hsv).
  unfold Before, Add. rewrite (proj2 (Z.ltb_ge _ _)) by lia. wp_simpl.
  eapply wp_batchStartError_calm; [done|done|apply Hsv|]. exact (HQ 6%nat).
Qed.

Lemma row_live j d t : in_hand d j → t0 ≤ t ≤ t0 + slack →
  ∃ r, jobs_t d !! ID j = Some r ∧ live (LeaseTokenOf j) (ts t) r = true.
Proof.
  intros (_ & _ & _ & r & u & Hr & Htok & Hu & Hlong) Ht. exists r. split; [done|].
  apply live_spec. split; [done|]. exists u. split; [done|]. pose proof (ts_close t). lia.
Qed.

Lemma wp_ack_calm job Q w : keyed (jobs_t (w_db w)) → in_hand (w_db w) job →
  (∀ w', w_db w' = set_jobs (delete (ID job) (jobs_t (w_db w))) (w_db w) → w_mgr w' = w_mgr w →
         w_paused w' = w_paused w → w_handled w' = w_handled w → Q (Ok tt) w') →
  wp (ackBatch E S job) Q w.
Proof.
  intros Hk Hin HQ. unfold ackBatch. wp_simpl. set (t := clock E (w_tick w)).
  destruct (row_live _ _ t Hin (reading w)) as (r & Hr & Hlive).
  destruct Hin as (Hid & Htok & _).
  destruct (delete_total (ts := ts) (ID job) (LeaseTokenOf job) t (w_db w)) as (n & d' & Hop).
  { pose proof (max_positive (ts := ts) (R := R)). split_and!; [done|cbn; lia..|set_solver]. }
  eapply wp_call_calm; [done|exact Hop|]. cbn [w_db bump].
  destruct (delete_ok _ _ _ _ _ _ Hop) as [_ Hdel].
  assert (n = 1) as ->.
  { destruct Hdel as [_ ->]. rewrite (affected_singleton _ (ID job)) by (done || (intros ? Ho; apply owned_in in Ho; set_solver)).
    rewrite Hr. unfold owned. rewrite Hlive, andb_true_r.
    rewrite (proj2 (in_ids_spec _ _)); [done|]. rewrite (Hk _ _ Hr). set_solver. }
  apply (deleted_one _ (ID job)) in Hdel as (? & _ & _ & ->); [|done|intros ? Ho; apply owned_in in Ho; set_solver].
  cbn -[set_jobs]. wp_simpl. eapply wp_mono; [apply observeJobOutcome_spec|].
  intros _ w' [(Hdb & Hm & Hp & _ & Hh) _]. wp_simpl. apply HQ; by rewrite ?Hdb, ?Hm, ?Hp, ?Hh.
Qed.

Lemma dropped_fields id m :
  m_err (dropped id m) = m_err m ∧ m_cancel (dropped id m) = m_cancel m
  ∧ m_reserveFor (dropped id m) = m_reserveFor m ∧ m_outstanding (dropped id m) = delete id (m_outstanding m)
  ∧ (m_outstanding (dropped id m) ≠ ∅ → m_earliest (dropped id m) = m_earliest m).
Proof. unfold dropped, clear_if_empty. by case_bool_decide. Qed.

(** The ledger and the tables without the job that was settled. *)
Lemma serving_dropped j js w w' : serving (j :: js) w → keyed (jobs_t (w_db w')) →
  (∀ id, id ≠ ID j → jobs_t (w_db w') !! id = jobs_t (w_db w) !! id) → w_paused w' = w_paused w →
  w_mgr w' = dropped (ID j) (w_mgr w) → serving js w'.
Proof.
  intros Hsv Hk Hrest Hp Hm. pose proof (sv_distinct _ _ Hsv) as [Hj Hnd]%NoDup_cons.
  assert (∀ x, x ∈ js → ID x ≠ ID j) as Hne.
  { intros x Hx Heq. apply Hj. rewrite <- Heq. by apply list_elem_of_fmap_2. }
  destruct (dropped_fields (ID j) (w_mgr w)) as (He & Hc & Hf & Ho & Hear). rewrite <- Hm in *.
  assert (∀ id, is_Some (m_outstanding (w_mgr w') !! id) ↔ id ∈ ID <$> js) as Hl.
  { intros id. rewrite Ho. destruct (decide (id = ID j)) as [->|Hn].
    - rewrite lookup_delete_eq. split; [by intros []|done].
    - rewrite lookup_delete_ne by done. rewrite (sv_ledger _ _ Hsv id), fmap_cons. set_solver. }
  split.
  - rewrite He. apply Hsv.
  - rewrite Hc. apply Hsv.
  - rewrite Hf. apply Hsv.
  - done.
  - intros Hjs. destruct js as [|x js]; [done|]. destruct (proj2 (Hl (ID x))) as [u Hu]; [set_solver|].
    rewrite Hear; [by apply (sv_earliest _ _ Hsv)|]. intros Hem. by rewrite Hem in Hu.
  - rewrite Hp. apply Hsv.
  - done.
  - done.
  - intros x Hx. destruct (sv_rows _ _ Hsv x ltac:(set_solver)) as (? & ? & ? & r & u & Hr & Hmore).
    split_and!; [done..|]. exists r, u. split; [|done]. rewrite Hrest; [done|]. by apply Hne.
Qed.

Lemma serving_settled j js w w' : serving (j :: js) w →
  w_db w' = set_jobs (delete (ID j) (jobs_t (w_db w))) (w_db w) → w_paused w' = w_paused w →
  w_mgr w' = dropped (ID j) (w_mgr w) → serving js w'.
Proof.
  intros Hsv Hdb Hp Hm. eapply serving_dropped; [exact Hsv|..]; try done; rewrite Hdb; cbn.
  - intros id r [_ Hr]%lookup_delete_Some. by apply (sv_keyed _ _ Hsv).
  - intros id Hid. by rewrite lookup_delete_ne.
Qed.

(** A finalization runs its callback, and takes the job off the ledger when
    that succeeds. *)
Lemma wp_finalize_calm j js fin Q w : serving (j :: js) w →
  (∀ n ctx, wp (fin ctx) (λ r w', r = Ok tt ∧ w_mgr w' = w_mgr w ∧ Q (Ok tt) (set_mgr (dropped (ID j) (w_mgr w)) w'))
              (Nat.iter n bump w)) →
  wp (finalize E R batchCtx (ID j) fin) Q w.
Proof.
  intros Hsv Hfin. unfold finalize. wp_simpl. eapply wp_LockContext_calm; [done|]. wp_simpl. cbn [w_mgr bump].
  destruct (proj2 (sv_ledger _ _ Hsv (ID j))) as [u ->]; [set_solver|]. wp_simpl.
  pose proof (sv_earliest _ _ Hsv ltac:(done)) as HD. pose proof (reading w).
  assert (0 < leaseFinalizationTimeout ∧ 0 < batchFinalizationMargin ∧ 0 < Millisecond) as (? & ? & ?) by done.
  eapply wp_ensure_calm; [done|cbn; lia|unfold Add; cbn; lia|]. wp_simpl.
  eapply wp_ctx_err_calm; [done| |apply Hsv|]. { unfold open_ctx, Add. cbn. lia. }
  wp_simpl. eapply wp_mono; [apply (Hfin 4%nat)|]. intros r w' (-> & Hm & HQ). wp_simpl. by rewrite Hm.
Qed.

(** The answer of a handler, a recovered panic included, and the rest of
    [processBatchJob] after it. *)
Definition answered (h : Handler) (t : nat) (j : Job) : option err :=
  match h_Handle h t (withJobMetadata j) (Payload j) with
  | Returns r => r
  | Panics v => Some (EText ("panic in job " +:+ Name j +:+ ": " +:+ v))
  end.
Definition settle_job (h : Handler) (job : Job) (handleErr : option err) : M (result unit) :=
  match disposition S h job handleErr with
  | Ack => finalize E R batchCtx (ID job) (λ _, ackBatch E S job)
  | DLQ reason => finalize E R batchCtx (ID job) (λ _, dlqBatch E S job reason)
  | Defer availableAt => finalize E R batchCtx (ID job) (λ _, deferLeased E S job availableAt)
  | Reschedule e =>
      t ← now E;
      match retryTime (retryPolicy (s_options S)) job e t 0 with
      | Err e => error e
      | Ok availableAt => finalize E R batchCtx (ID job) (λ _, rescheduleLeased E S job availableAt)
      end
  | KeepLease => _ ← forget E R (ID job); ok tt
  end.

(** A job is admitted and its handler called once, before its deadline. *)
Lemma wp_handled_calm j js h Q w : serving (j :: js) w → s_jobs S !! job_capability j = Some h → good h →
  (∀ t w', serving (j :: js) w' → w_db w' = w_db w → (w_tick w ≤ w_tick w')%nat →
     w_handled w' = w_handled w ++ [(ID j, Attempts j)] →
     wp (settle_job h j (answered h t j)) (λ r, Q (true, r)) w') →
  wp (processBatchJob E S batchCtx j) Q w.
Proof.
  intros Hsv Hh Hg HQ. unfold processBatchJob. pose proof (Hgood h Hg) as Htimeout. rewrite Hh. wp_simpl.
  eapply wp_admit_calm; [done|exact Hsv|]. intros n. destruct (iter_bump n w) as (Hdb & Hm & Hp & Hhd).
  assert (w_tick w ≤ w_tick (Nat.iter n bump w))%nat as Htick by (rewrite iter_bump_tick; lia).
  assert (serving (j :: js) (Nat.iter n bump w)) as Hsv1 by (by eapply serving_same).
  set (w1 := Nat.iter n bump w) in *. clearbody w1. wp_simpl. unfold executeJob. wp_simpl. unfold handleJob. wp_simpl.
  rewrite (calm_beats _ _ _ Hcalm). cbn [run]. wp_simpl.
  eapply wp_cause_calm; [done| |apply Hsv1|].
  { unfold open_ctx, Add. cbn. pose proof (reading w1). lia. }
  wp_simpl. eapply wp_cause_calm; [done|done|apply Hsv1|]. wp_simpl. cbn [w_tick bump add_handled].
  eapply wp_mono; [eapply HQ; [by eapply serving_same; [..|exact Hsv1]|done|cbn; lia|cbn; by rewrite Hhd]|].
  intros r w2 HQ2. by wp_simpl.
Qed.

Lemma add_jobs_ledger js m :
  (∀ j, j ∈ js → D ≤ reserved_time j) → m_earliest m = zeroTime ∨ D ≤ m_earliest m →
  let m' := add_jobs js m in
  m_err m' = m_err m ∧ m_cancel m' = m_cancel m ∧ m_reserveFor m' = m_reserveFor m
  ∧ (∀ id, is_Some (m_outstanding m' !! id) ↔ id ∈ ID <$> js ∨ is_Some (m_outstanding m !! id))
  ∧ (js ≠ [] ∨ D ≤ m_earliest m → D ≤ m_earliest m').
Proof.
  revert m. induction js as [|j js IH]; intros m Hjs Hm; cbn.
  { split_and!; [done..|set_solver|naive_solver]. }
  assert (D ≤ earlier (m_earliest m) (reserved_time j)) as He.
  { pose proof (Hjs j ltac:(set_solver)). unfold earlier, IsZero. destruct (Z.eqb_spec (m_earliest m) zeroTime); [done|].
    cbn. destruct (Before _ _); [done|]. by destruct Hm. }
  destruct (IH (add_job j m)) as (-> & -> & -> & Ho & Hear); [set_solver|by right|].
  split_and!; [done..| |intros _; by apply Hear; right].
  intros id. rewrite Ho. cbn. destruct (decide (id = ID j)) as [->|Hne].
  - rewrite lookup_insert_eq. set_solver.
  - rewrite lookup_insert_ne by done. set_solver.
Qed.

(** ** Claims *)

Context (room : Job → bool) `{!ClaimsReady ts room R}.
Context (caps : list JobCapability).
Context (Hcaps : caps ≠ []) (Hdistinct : NoDup caps) (Hvalid : Forall (λ c, Validate c = Ok tt) caps).
Context (Hhandlers : ∀ c, c ∈ caps → ∃ h, s_jobs S !! c = Some h ∧ good h).
Abbreviation size := (reservationBatchSize (s_options S)).
Context (Hsize : 1 ≤ size ≤ MaxReservationBatchSizeOf R).

(** The worker between two batches. *)
Record resting (w : World) : Prop := {
  rs_cancel : m_cancel (w_mgr w) = None;
  rs_paused : w_paused w = ∅;
  rs_keyed : keyed (jobs_t (w_db w));
  rs_nil : jobs_t (w_db w) !! JobIDNil = None;
  rs_room : map_Forall (λ _ j, room j = true) (jobs_t (w_db w))
}.

Lemma eligible_calm t l Q w : w_paused w = ∅ → Q l w → wp (eligible_capabilities t l) Q w.
Proof.
  intros Hp. revert Q. induction l as [|c l IH]; intros Q HQ; cbn [eligible_capabilities]; wp_simpl; [done|].
  assert (batchCapabilityPaused c t w = (false, w)) as Hnot.
  { unfold batchCapabilityPaused, paused_until. rewrite Hp, lookup_empty. cbn. f_equal.
    rewrite delete_empty, <- Hp. by destruct w. }
  unfold wp at 1. rewrite Hnot. cbn. wp_simpl. by apply IH.
Qed.

(** What a claim took. *)
Definition claimed (w : World) (tok : LeaseToken) (js : list Job) (w' : World) : Prop :=
  ∃ t, t0 ≤ t ≤ t0 + slack
  ∧ claim_base ts ∅ t (t + rf) tok caps size (w_db w) js (w_db w')
  ∧ claim_prefix ts ∅ t caps size (w_db w) js
  ∧ w_mgr w' = w_mgr w ∧ w_paused w' = w_paused w ∧ w_handled w' = w_handled w.

Lemma claimed_lease t tok js w d' j : t0 ≤ t →
  claim_base ts ∅ t (t + rf) tok caps size (w_db w) js d' → j ∈ js →
  LeaseTokenOf j = tok ∧ ∃ u, ReservedAt j = Some u ∧ D ≤ u.
Proof.
  intros Ht Hb Hj. destruct (cp_rows _ _ _ _ _ _ _ _ _ _ Hb j Hj) as (r & u & _ & _ & _ & Hu & ->).
  cbn. split; [done|]. exists u. split; [done|]. pose proof (ts_close u). pose proof (ts_close (t + rf)). lia.
Qed.

Lemma validate_claimed_calm tok js Q w :
  (∀ j, j ∈ js → LeaseTokenOf j = tok ∧ ∃ u, ReservedAt j = Some u ∧ D ≤ u) →
  (∀ n, Q (Ok tt) (Nat.iter n bump w)) → wp (validate_claimed E tok js) Q w.
Proof.
  revert w. induction js as [|j js IH]; intros w Hjs HQ; cbn [validate_claimed]; wp_simpl; [exact (HQ 0%nat)|].
  destruct (Hjs j ltac:(set_solver)) as [Htok (u & Hu & HD)]. pose proof (reading w).
  assert (0 < leaseFinalizationTimeout ∧ 0 < batchFinalizationMargin ∧ 0 < Millisecond) as (? & ? & ?) by done.
  rewrite (proj2 (validateClaimedJobLease_ok _ _ _)).
  - apply IH; [set_solver|]. intros n. specialize (HQ (Datatypes.S n)). by rewrite Nat.iter_succ_r in HQ.
  - split; [done|]. exists u. split; [done|]. lia.
Qed.

Lemma wp_claim_calm Q w : resting w →
  (∀ tok js w', claimed w tok js w' → Q (Ok (js, tok)) w') →
  (∀ e n, errors_Is e ErrNoJobs = true →
     (∀ r, jobs_t (w_db w) !! ID r = Some r → claimable (ts t0) caps r = false) →
     Q (Err e) (Nat.iter n bump w)) →
  wp (claimBatch E S runCtx caps) Q w.
Proof.
  intros Hw Hsome Hnone. unfold claimBatch.
  assert (∀ A (a b : A), match caps with [] => a | _ :: _ => b end = b) as Hne
    by (intros; destruct caps; done).
  rewrite Hne. wp_simpl. apply eligible_calm; [apply Hw|]. rewrite Hne. unfold NewLeaseToken, claimJobsWithLease. wp_simpl.
  rewrite (calm_draining _ _ _ Hcalm). cbn [w_tick bump]. wp_simpl. rewrite (calm_held _ _ _ Hcalm).
  set (tok := newLeaseToken E _). set (t := clock E _).
  assert (tok ≠ LeaseTokenNil) as Htok by apply (calm_token _ _ _ Hcalm).
  assert (t0 ≤ t ≤ t0 + slack) as Ht by apply (calm_clock _ _ _ Hcalm).
  assert (0 < leaseFinalizationTimeout ∧ 0 < batchFinalizationMargin ∧ 0 < Millisecond) as (? & ? & ?) by done.
  destruct (decide (affected (claimable (ts t) caps) (jobs_t (w_db w)) = 0)) as [Hz|Hz].
  - destruct (claim_none (ts := ts) (R := R) ∅ t (Add t rf) tok caps size (w_db w)) as (e & Hop & He);
      [apply Hw|done..| |].
    { intros r Hr. destruct (claimable (ts t) caps r) eqn:Hcl; [|done]. exfalso. revert Hz.
      apply (affected_pos _ _ (rs_keyed _ Hw)). eauto. }
    eapply wp_call_calm; [done|exact Hop|]. wp_simpl.
    eapply wp_cause_calm; [done|unfold open_ctx, Add; cbn; lia|apply Hw|]. wp_simpl.
    apply (Hnone _ 7%nat); [by rewrite errors_Is_wrapf|]. intros r Hr. destruct (claimable (ts t0) caps r) eqn:Hcl; [|done].
    exfalso. revert Hz. apply (affected_pos _ _ (rs_keyed _ Hw)). exists (ID r), r. split; [done|].
    eapply claimable_mono; [|exact Hcl]. apply ts_mono. lia.
  - apply (affected_pos _ _ (rs_keyed _ Hw)) in Hz as (id & r & Hr & Hcl).
    rewrite <- (rs_keyed _ Hw _ _ Hr) in Hr.
    destruct (claim_total (ts := ts) (R := R) ∅ t (Add t rf) tok caps size (w_db w)) as (js & d' & Hop);
      [apply Hw|done..|apply Hw|exists r; split_and!; [done..|by destruct (SkipLocked R)]|].
    destruct (claim_ok (ts := ts) _ _ _ _ _ _ _ _ _ (rs_keyed _ Hw) Hop) as [Hbase Hpre].
    assert (skipped (SkipLocked R) ∅ = ∅) as Hsk by (by destruct (SkipLocked R)). rewrite Hsk in *.
    eapply wp_call_calm; [done|exact Hop|]. wp_simpl.
    eapply wp_cause_calm; [done|unfold open_ctx, Add; cbn; lia|apply Hw|]. wp_simpl.
    pose proof (cp_count _ _ _ _ _ _ _ _ _ _ Hbase) as Hcount.
    destruct js as [|j js']; [cbn in Hcount; lia|]. set (js := j :: js') in *.
    rewrite (proj2 (Z.ltb_ge _ _)) by apply Hcount. wp_simpl.
    apply validate_claimed_calm; [intros x Hx; eapply claimed_lease; [|exact Hbase|exact Hx]; lia|].
    intros n. wp_simpl. apply Hsome. exists t.
    match goal with |- context [Nat.iter n bump ?w1] => destruct (iter_bump n w1) as (-> & -> & -> & ->) end.
    split; [exact Ht|]. split; [exact Hbase|]. split; [exact Hpre|]. done.
Qed.

Lemma row_capability c r : c ∈ caps → row_is r c = true → job_capability r = c.
Proof.
  intros Hc [Hn%String.eqb_eq Hv%Z.eqb_eq]%andb_true_iff.
  rewrite Forall_forall in Hvalid. pose proof (proj1 (capability_valid c) (Hvalid c Hc)) as Hpos.
  unfold job_capability, normalizeSchemaVersion. rewrite Hn, Hv, (proj2 (Z.leb_gt _ _)) by done. by destruct c.
Qed.

Lemma claimed_serving w tok js w' : resting w → claimed w tok js w' →
  serving js (set_mgr (add_jobs js (empty_manager tok rf)) w').
Proof.
  intros Hw (t & Ht & Hb & _ & Hm & Hp & Hh).
  assert (∀ j, j ∈ js → LeaseTokenOf j = tok ∧ ∃ u, ReservedAt j = Some u ∧ D ≤ u) as Hlease
    by (intros j Hj; eapply claimed_lease; [|exact Hb|done]; lia).
  destruct (add_jobs_ledger js (empty_manager tok rf)) as (He & Hc & Hf & Ho & Hear).
  { intros j Hj. destruct (Hlease j Hj) as [_ (u & Hu & HD)]. unfold reserved_time. by rewrite Hu. }
  { by left. }
  split; cbn [w_mgr w_db w_paused set_mgr]; rewrite ?He, ?Hc, ?Hf; try done.
  - intros id. rewrite Ho. cbn. rewrite lookup_empty. split; [intros [?|[]]; done|by left].
  - intros Hne. apply Hear. by left.
  - rewrite Hp. apply Hw.
  - rewrite (cp_db _ _ _ _ _ _ _ _ _ _ Hb). apply keyed_update; [done|apply Hw].
  - apply (cp_distinct _ _ _ _ _ _ _ _ _ _ Hb).
  - intros j Hj. destruct (cp_rows _ _ _ _ _ _ _ _ _ _ Hb j Hj) as (r & u & Hr & Hcl & _ & Hu & Hjr).
    split_and!.
    + intros Hnil. rewrite Hnil, (rs_nil _ Hw) in Hr. done.
    + rewrite (proj1 (Hlease j Hj)). apply (cp_token _ _ _ _ _ _ _ _ _ _ Hb).
    + apply andb_true_iff in Hcl as [_ (c & Hin & Hrow)%existsb_exists]. rewrite <- list_elem_of_In in Hin.
      destruct (Hhandlers c Hin) as (h & Hh' & Hs). exists h. split; [|done].
      assert (job_capability j = job_capability r) as -> by (by subst j). by rewrite (row_capability c r).
    + exists (reserve_row (ts (t + rf)) tok r), (ts (t + rf)).
      rewrite (cp_db _ _ _ _ _ _ _ _ _ _ Hb). cbn [jobs_t set_jobs]. rewrite sql_update_lookup, Hr. cbn.
      rewrite (proj2 (in_ids_spec _ _)).
      2: { rewrite (rs_keyed _ Hw _ _ Hr). by apply list_elem_of_fmap_2. }
      assert (0 < leaseFinalizationTimeout ∧ 0 < batchFinalizationMargin ∧ 0 < Millisecond) as (? & ? & ?) by done.
      assert (Millisecond ≤ batchFinalizationMargin) by done.
      split_and!; [done|by rewrite (proj1 (Hlease j Hj))|done|]. pose proof (ts_close (t + rf)). lia.
Qed.

Definition none_left (w : World) : Prop :=
  ∀ r, jobs_t (w_db w) !! ID r = Some r → claimable (ts t0) caps r = false.

Lemma claims_taken w tok js w' : claimed w tok js w' →
  ∃ rs, ID <$> rs = ID <$> js ∧ ((λ r, (ID r, Attempts r + 1)) <$> rs) = ((λ j, (ID j, Attempts j)) <$> js)
    ∧ ∀ r, r ∈ rs → jobs_t (w_db w) !! ID r = Some r ∧ claimable (ts (t0 + slack)) caps r = true.
Proof.
  intros (t & Ht & Hb & _). pose proof (cp_rows _ _ _ _ _ _ _ _ _ _ Hb) as Hrows. clear Hb.
  induction js as [|j js IH]; [exists []; set_solver|].
  destruct IH as (rs & Hids & Hatt & Hrs); [intros; apply Hrows; set_solver|].
  destruct (Hrows j ltac:(set_solver)) as (r & u & Hr & Hcl & _ & _ & ->). exists (r :: rs). cbn in *.
  rewrite Hids, Hatt. split_and!; [done..|]. intros x [->|Hx]%elem_of_cons; [|auto]. split; [done|].
  eapply claimable_mono; [|exact Hcl]. apply ts_mono. lia.
Qed.

(** ** A round *)

(** Handlers that succeed. *)
Context (Hret : ∀ h, good h → ∀ t m p, h_Handle h t m p = Returns None).

(** One job: handled once, its row deleted. *)
Lemma wp_process_calm j js Q w : serving (j :: js) w →
  (∀ w', serving js w' → w_db w' = set_jobs (delete (ID j) (jobs_t (w_db w))) (w_db w) →
         w_handled w' = w_handled w ++ [(ID j, Attempts j)] → Q (true, Ok tt) w') →
  wp (processBatchJob E S batchCtx j) Q w.
Proof.
  intros Hsv HQ. pose proof (sv_rows _ _ Hsv j ltac:(set_solver)) as (_ & _ & (h & Hh & Hg) & _).
  eapply wp_handled_calm; [done..|]. intros t w1 Hsv1 Hdb _ Hhd. unfold answered. rewrite (Hret h Hg).
  unfold settle_job. cbn [disposition]. eapply wp_finalize_calm; [exact Hsv1|]. intros k ctx.
  destruct (iter_bump k w1) as (Hd2 & Hm2 & Hp2 & Hh2).
  eapply wp_ack_calm; [rewrite Hd2; apply Hsv1|rewrite Hd2; by apply Hsv1; set_solver|].
  intros w3 Hdb3 Hm3 Hp3 Hh3. rewrite Hd2 in Hdb3. split; [done|]. split; [congruence|]. apply HQ.
  - eapply (serving_settled j js w1); cbn; congruence.
  - cbn. by rewrite Hdb3, Hdb.
  - cbn. congruence.
Qed.

Lemma wp_process_jobs_calm js Q w : serving js w →
  (∀ w', serving [] w' → w_db w' = set_jobs (sql_delete (in_ids (ID <$> js)) (jobs_t (w_db w))).1 (w_db w) →
         w_handled w' = w_handled w ++ ((λ j, (ID j, Attempts j)) <$> js) → Q None w') →
  wp (process_jobs E S batchCtx js) Q w.
Proof.
  revert w. induction js as [|j js IH]; intros w Hsv HQ; cbn [process_jobs]; wp_simpl.
  - apply HQ; [done| |by rewrite app_nil_r].
    rewrite <- set_jobs_id at 1. f_equal. apply map_eq. intros i. rewrite sql_delete_lookup. by destruct (_ !! i).
  - eapply wp_process_calm; [done|]. intros w1 Hsv1 Hdb1 Hh1. wp_simpl. apply IH; [done|].
    intros w2 Hsv2 Hdb2 Hh2. apply HQ; [done| |].
    + rewrite Hdb2, Hdb1, set_jobs_set_jobs. cbn [jobs_t set_jobs].
      rewrite sql_delete_ids_cons by apply Hsv. done.
    + by rewrite Hh2, Hh1, <- (assoc (++)).
Qed.

(** The rows [rs] of the tables of [w], handled once each and deleted. *)
Record served (rs : list Job) (w w' : World) : Prop := {
  sd_distinct : NoDup (ID <$> rs);
  sd_rows r : r ∈ rs → jobs_t (w_db w) !! ID r = Some r ∧ claimable (ts (t0 + slack)) caps r = true;
  sd_db : w_db w' = set_jobs (sql_delete (in_ids (ID <$> rs)) (jobs_t (w_db w))).1 (w_db w);
  sd_handled : w_handled w' = w_handled w ++ ((λ r, (ID r, Attempts r + 1)) <$> rs)
}.

Lemma resting_deleted ids w w' : resting w → m_cancel (w_mgr w') = None → w_paused w' = ∅ →
  w_db w' = set_jobs (sql_delete (in_ids ids) (jobs_t (w_db w))).1 (w_db w) → resting w'.
Proof.
  intros Hw Hc Hp Hdb. split; [done|done| | |]; rewrite Hdb; cbn [jobs_t set_jobs].
  - apply keyed_delete, Hw.
  - rewrite sql_delete_lookup. by rewrite (rs_nil _ Hw).
  - intros id j. rewrite sql_delete_lookup. destruct (_ !! id) as [x|] eqn:Hx; [|done].
    destruct (in_ids ids x); [done|]. intros [= <-]. by apply (rs_room _ Hw id).
Qed.

Lemma served_nil w w' : w_db w' = w_db w → w_handled w' = w_handled w → served [] w w'.
Proof.
  intros Hd Hh. split; [constructor|set_solver| |by rewrite app_nil_r].
  rewrite Hd. rewrite <- set_jobs_id at 1. f_equal. apply map_eq. intros i. rewrite sql_delete_lookup. by destruct (_ !! i).
Qed.

Lemma served_trans rs1 rs2 w1 w2 w3 : keyed (jobs_t (w_db w1)) →
  served rs1 w1 w2 → served rs2 w2 w3 → served (rs1 ++ rs2) w1 w3.
Proof.
  intros Hk [Hn1 Hr1 Hd1 Hh1] [Hn2 Hr2 Hd2 Hh2].
  assert (∀ r, r ∈ rs2 → jobs_t (w_db w1) !! ID r = Some r ∧ in_ids (ID <$> rs1) r = false) as Hold.
  { intros r Hr. destruct (Hr2 r Hr) as [Hl _]. rewrite Hd1 in Hl. cbn [jobs_t set_jobs] in Hl.
    rewrite sql_delete_lookup in Hl. destruct (jobs_t (w_db w1) !! ID r) as [x|]; [|done].
    destruct (in_ids _ x) eqn:Hx; [done|]. injection Hl as ->. done. }
  split.
  - rewrite fmap_app. apply NoDup_app. split_and!; [done| |done].
    intros id Hid1 (r & -> & Hr)%list_elem_of_fmap. destruct (Hold r Hr) as [_ Hf].
    apply in_ids_spec in Hid1. congruence.
  - intros r [Hr|Hr]%elem_of_app; [auto|]. split; [by apply Hold|by apply Hr2].
  - rewrite Hd2, Hd1, set_jobs_set_jobs. cbn [jobs_t set_jobs]. by rewrite sql_delete_ids_app, fmap_app.
  - by rewrite Hh2, Hh1, fmap_app, (assoc (++)).
Qed.

Lemma wp_round_calm w : resting w →
  wp (findAndProcessBatch E S caps) (λ r w', resting w' ∧ ∃ rs, served rs w w' ∧
    match r with
    | Ok _ => rs ≠ [] ∧ (Z.of_nat (length rs) = size ∨ none_left w')
    | Err e => errors_Is e ErrNoJobs = true ∧ none_left w'
    end) w.
Proof.
  intros Hw. unfold findAndProcessBatch. wp_simpl. apply wp_claim_calm; [done| |].
  2: { intros e n He Hnone. wp_simpl. eapply wp_mono; [by eapply observeLeaseLoss_spec|].
       intros _ w' (Hdb & Hm & Hp & _ & Hh). wp_simpl.
       destruct (iter_bump n w) as (Hd1 & Hm1 & Hp1 & Hh1).
       assert (served [] w w') as Hs by (apply served_nil; congruence).
       split; [|exists []; split_and!; [done..|]].
       - eapply resting_deleted; [done| | |apply Hs]; [rewrite Hm, Hm1|rewrite Hp, Hp1]; apply Hw.
       - unfold none_left. by rewrite Hdb, Hd1. }
  intros tok js w1 Hcl. wp_simpl. unfold newBatchLeaseManager. wp_simpl.
  destruct (claims_taken _ _ _ _ Hcl) as (rs & Hids & Hatt & Hrs).
  eapply wp_process_jobs_calm; [by eapply claimed_serving|].
  intros w2 Hsv2 Hdb2 Hh2. wp_simpl. unfold stopAndWait. wp_simpl. eapply wp_lock_calm; [done|]. wp_simpl.
  unfold releaseUnstarted. wp_simpl. eapply wp_lock_calm; [done|]. wp_simpl. cbn [w_mgr bump set_mgr].
  assert (outstandingIDsLocked (set_beating false (w_mgr w2)) = []) as ->.
  { unfold outstandingIDsLocked. destruct (outstanding_in _ _) as [|[id u] l] eqn:Ho; [done|].
    assert ((id, u) ∈ outstanding_in (m_ordered (w_mgr w2)) (m_outstanding (w_mgr w2))) as [_ Hu]%outstanding_in_elem
      by (cbn in Ho; rewrite Ho; set_solver).
    assert (id ∈ ID <$> ([] : list Job)) by (apply (sv_ledger _ _ Hsv2); eauto). set_solver. }
  wp_simpl. cbn [m_err set_beating]. rewrite (sv_err _ _ Hsv2).
  eapply wp_mono; [by eapply observeLeaseLoss_spec|]. intros _ w3 (Hdb & Hm & Hp & _ & Hh). wp_simpl.
  cbn in Hdb, Hm, Hp, Hh. destruct Hcl as (t & Ht & Hb & Hpre & _ & Hp1 & Hh1).
  assert (served rs w w3) as Hsd.
  { split; [rewrite Hids; apply Hb|done| |].
    - rewrite Hdb, Hdb2. cbn. rewrite (cp_db _ _ _ _ _ _ _ _ _ _ Hb). cbn. rewrite set_jobs_set_jobs, Hids.
      by rewrite sql_delete_updated.
    - by rewrite Hh, Hh2, Hatt, <- Hh1. }
  split; [eapply resting_deleted; [done|rewrite Hm; apply Hsv2|rewrite Hp; apply Hsv2|apply Hsd]|].
  exists rs. split; [done|]. cbn.
  assert (length rs = length js) as Hlen by (by rewrite <- (length_fmap ID rs), Hids, length_fmap).
  destruct (cp_count _ _ _ _ _ _ _ _ _ _ Hb) as [Hc1 Hc2]. split; [by intros ->; cbn in Hlen; lia|].
  destruct (decide (Z.of_nat (length js) = size)) as [Heq|Hless]; [left; by rewrite Hlen|right].
  intros r Hr. destruct (claimable (ts t0) caps r) eqn:Hcl; [|done]. exfalso. apply Hless.
  rewrite (sd_db _ _ _ Hsd) in Hr. cbn [jobs_t set_jobs] in Hr. rewrite sql_delete_lookup in Hr.
  destruct (jobs_t (w_db w) !! ID r) as [x|] eqn:Hx; [|done]. destruct (in_ids _ x) eqn:Hin; [done|].
  injection Hr as ->. apply (Hpre Hdistinct r Hx); [|set_solver|].
  - eapply claimable_mono; [|exact Hcl]. apply ts_mono. lia.
  - rewrite <- Hids. intros Hid%in_ids_spec. congruence.
Qed.

(** ** The worker *)

(** What is left for a worker with [n] rounds to go: nothing, or no more than
    it can claim. *)
Definition within (n : nat) (w : World) : Prop :=
  none_left w ∨ affected (claimable (ts (t0 + slack)) caps) (jobs_t (w_db w)) ≤ Z.of_nat n * size.

Lemma none_left_deleted ids w w' : none_left w →
  w_db w' = set_jobs (sql_delete (in_ids ids) (jobs_t (w_db w))).1 (w_db w) → none_left w'.
Proof.
  intros Hn Hdb r. rewrite Hdb. cbn [jobs_t set_jobs]. rewrite sql_delete_lookup.
  destruct (_ !! ID r) as [x|] eqn:Hx; [|done]. destruct (in_ids ids x); [done|]. intros [= ->]. by apply Hn.
Qed.

Lemma within_round n rs w w' : resting w → served rs w w' → within (Datatypes.S n) w →
  Z.of_nat (length rs) = size ∨ none_left w' → within n w'.
Proof.
  intros Hw Hs [Hnone|Hn] Hr; [left; eapply none_left_deleted; [done|apply Hs]|].
  destruct Hr as [Hr|Hr]; [right|by left].
  pose proof (affected_deleted (claimable (ts (t0 + slack)) caps) rs (jobs_t (w_db w)) (rs_keyed _ Hw)
                (sd_distinct _ _ _ Hs) (sd_rows _ _ _ Hs)) as Heq.
  rewrite (sd_db _ _ _ Hs). cbn [jobs_t set_jobs]. lia.
Qed.

Definition worked (w w' : World) : Prop :=
  resting w' ∧ ∃ rs, served rs w w' ∧ (Z.of_nat (length rs) = size ∨ none_left w').

Lemma wp_single_calm w : resting w →
  wp (processOneAvailableSingle E S caps) (λ r w', r.2 = None ∧ worked w w') w.
Proof.
  intros Hw. unfold processOneAvailableSingle.
  assert (∀ A (a b : A), match caps with [] => a | _ :: _ => b end = b) as Hne
    by (intros; destruct caps; done).
  rewrite Hne. wp_simpl. eapply wp_mono; [by apply wp_round_calm|]. intros r w' [Hw' (rs & Hs & Hr)]. wp_simpl.
  destruct r as [[]|e]; [destruct Hr as [_ Hr]|destruct Hr as [-> Hr]]; (split; [done|]); (split; [done|eauto]).
Qed.

Lemma wp_work_calm fuel sched w : resting w →
  wp (processWorkerWork E S fuel caps [] sched)
     (λ r w', ∃ b sched', r = Some (b, None, sched') ∧ worked w w') w.
Proof.
  intros Hw. unfold processWorkerWork, processOneAvailableBatch.
  destruct (preferBatch sched) eqn:Hpref; wp_simpl; cbn [is_draining_err];
    rewrite bool_decide_eq_false_2 by (by intros []); cbn [orb]; wp_simpl;
    (eapply wp_mono; [by apply wp_single_calm|]); intros [b e] w' [He Hwk]; cbn in He; subst e;
    rewrite bool_decide_eq_false_2 by (by intros []); destruct b; cbn; wp_simpl; cbn; eauto.
  wp_simpl. eauto.
Qed.

(** A worker with rounds for what is ready uses them up without an error. *)
Lemma wp_worker_calm n fuel w0 : keyed (jobs_t (w_db w0)) → ∀ sched rs0 w, resting w → served rs0 w0 w → within n w →
  wp (runWorker E S n fuel caps [] sched) (λ r w', r = None ∧ none_left w' ∧ ∃ rs, served rs w0 w') w.
Proof.
  intros Hk0. induction n as [|n IH]; intros sched rs0 w Hw Hd Hin; cbn [runWorker]; wp_simpl.
  { split; [done|]. split; [|eauto]. destruct Hin as [?|Hle]; [done|]. intros r Hr.
    destruct (claimable (ts t0) caps r) eqn:Hcl; [|done]. exfalso.
    assert (affected (claimable (ts (t0 + slack)) caps) (jobs_t (w_db w)) ≠ 0) as Hpos.
    { apply (affected_pos _ _ (rs_keyed _ Hw)). exists (ID r), r. split; [done|].
      eapply claimable_mono; [|exact Hcl]. apply ts_mono. lia. }
    unfold affected in *. lia. }
  rewrite (calm_draining _ _ _ Hcalm). wp_simpl.
  assert (resting (bump w)) as Hwb by (by destruct Hw).
  eapply wp_mono; [by apply wp_work_calm|]. intros r w1 (b & sched' & -> & Hw1 & rs & Hs & Hr).
  assert (served rs w w1) as Hs' by (by destruct Hs).
  pose proof (within_round n rs w w1 Hw Hs' Hin Hr) as Hin1.
  pose proof (served_trans _ _ _ _ _ Hk0 Hd Hs') as Hd1.
  destruct b; [by eapply IH|]. unfold waitForWorker. wp_simpl.
  eapply wp_ctx_err_calm; [done|done|apply Hw1|]. wp_simpl. rewrite (calm_draining _ _ _ Hcalm).
  rewrite bool_decide_eq_false_2 by (by intros []). rewrite orb_false_r.
  match goal with |- context [if ?c then false else false] => replace (if c then false else false) with false by (by destruct c) end.
  eapply IH; [|eapply (served_trans rs0 rs)|]; [by destruct Hw1|done|done|by destruct Hs'|done].
Qed.

(** The worker uses its rounds up without an error; what is gone was served. *)
Lemma worker_serves rounds fuel sched w r w' : resting w →
  affected (claimable (ts (t0 + slack)) caps) (jobs_t (w_db w)) ≤ Z.of_nat rounds * size →
  runWorker E S rounds fuel caps [] sched w = (r, w') →
  r = None ∧ ∃ rs, NoDup (ID <$> rs)
  ∧ (∀ j, j ∈ rs → jobs_t (w_db w) !! ID j = Some j ∧ claimable (ts (t0 + slack)) caps j = true)
  ∧ (∀ j, jobs_t (w_db w) !! ID j = Some j → claimable (ts t0) caps j = true → j ∈ rs)
  ∧ w_db w' = set_jobs (sql_delete (in_ids (ID <$> rs)) (jobs_t (w_db w))).1 (w_db w)
  ∧ w_handled w' = w_handled w ++ ((λ j, (ID j, Attempts j + 1)) <$> rs).
Proof.
  intros Hw Hk Hrun. eapply wp_run in Hrun.
  2: { eapply (wp_worker_calm rounds fuel w); [apply Hw|done|by apply served_nil|by right]. }
  destruct Hrun as (-> & Hnone & rs & [Hnd Hrs Hdb Hh]). split; [done|]. exists rs. split_and!; try done.
  intros j Hj Hcl. destruct (decide (j ∈ rs)) as [?|Hout]; [done|]. exfalso.
  assert (claimable (ts t0) caps j = false); [|congruence]. apply Hnone. rewrite Hdb. cbn [jobs_t set_jobs].
  rewrite sql_delete_lookup, Hj. destruct (in_ids _ j) eqn:Hin; [|done]. exfalso. apply Hout.
  apply in_ids_spec, list_elem_of_fmap in Hin as (x & Heq & Hx). destruct (Hrs x Hx) as [Hl _].
  rewrite <- Heq, Hj in Hl. by injection Hl as ->.
Qed.

(** Liveness.  Left alone (no failures, no other writer, no drain, clock
    readings within [slack]), a worker whose handlers succeed empties its
    queue: with rounds enough for the rows that are or become ready, it uses
    them up without an error, no row that was ready at the start remains, and
    the rows it removed were each handled exactly once, with the attempt that
    claimed them; every other row and every other table is as it was. *)
Theorem worker_empties_queue rounds fuel sched w r w' : resting w →
  affected (claimable (ts (t0 + slack)) caps) (jobs_t (w_db w)) ≤ Z.of_nat rounds * size →
  runWorker E S rounds fuel caps [] sched w = (r, w') →
  r = None ∧ ∃ rs, NoDup (ID <$> rs)
  ∧ (∀ j, j ∈ rs → jobs_t (w_db w) !! ID j = Some j ∧ claimable (ts (t0 + slack)) caps j = true)
  ∧ (∀ j, jobs_t (w_db w) !! ID j = Some j → claimable (ts t0) caps j = true → j ∈ rs)
  ∧ w_db w' = set_jobs (sql_delete (in_ids (ID <$> rs)) (jobs_t (w_db w))).1 (w_db w)
  ∧ w_handled w' = w_handled w ++ ((λ j, (ID j, Attempts j + 1)) <$> rs).
Proof. by apply worker_serves. Qed.
End serve.

(** ** The backends make progress *)

Lemma valid_caps_check caps op : Forall (λ c, Validate c = Ok tt) caps →
  check_from (λ _ c, res_map_err (wrapf op) (Validate c)) 0 caps = Ok tt.
Proof.
  intros HF. apply check_from_ok. intros k c Hc. apply res_map_err_ok.
  rewrite Forall_forall in HF. by eapply HF, list_elem_of_lookup_2.
Qed.

Lemma top_nonempty n l x : (1 ≤ n)%nat → x ∈ l → top queue_less n l ≠ [].
Proof.
  intros Hn Hx Hnil. pose proof (top_length queue_less n l) as Hlen. rewrite Hnil in Hlen. cbn in Hlen.
  destruct l; [set_solver|cbn in Hlen; lia].
Qed.

(** PostgreSQL: as long as the attempt counters are below the range of a
    smallint. *)
#[export] Instance pg_claims_ready ts `{!Rounding ts} :
  ClaimsReady ts (λ j, Attempts j <? Pg.smallint_max) (Pg.repository ts).
Proof.
  split; intros locked now until tok caps limit d Hk Htok Hcaps Hlim.
  - intros Hroom (r & Hr & Hcl & Hloc). cbn in *. unfold Pg.FindAndReserveJobsForCapabilities.
    assert (caps ≠ []) as Hne by (intros ->; unfold claimable in Hcl; cbn in Hcl; by rewrite andb_false_r in Hcl).
    destruct caps as [|c0 cs] eqn:Hcs; [done|]. rewrite <- Hcs in *. unfold Pg.findAndReserveJobs.
    rewrite Pg.checked_pass by (by apply Pg.validateBatchRequest_ok).
    rewrite Pg.checked_pass by (by apply valid_caps_check). unfold Pg.reserve_selected.
    set (rows := Pg.join_requested _ _). set (c := top _ _ rows).
    assert (r ∈ rows) as Hin.
    { apply Pg.join_requested_elem. apply andb_true_iff in Hcl as [Hrd Hex]. split; [|done].
      apply rows_where_elem; [done|]. split; [done|]. by apply unlocked_ready_spec. }
    assert (∀ j, j ∈ c → jobs_t d !! ID j = Some j) as Hc.
    { intros j Hj%top_elem. by apply Pg.join_requested_elem in Hj as [[Hl _]%rows_where_elem _]. }
    assert (c ≠ []) as Hcne by (eapply top_nonempty; [lia|done]).
    assert (Pg.attempts_overflow c = false) as ->.
    { apply not_true_iff_false. intros (j & Hj & Hmax)%existsb_exists. rewrite <- list_elem_of_In in Hj.
      pose proof (Hroom _ _ (Hc j Hj)) as Hlt. cbn in Hlt. apply Z.ltb_lt in Hlt. apply Z.leb_le in Hmax. lia. }
    pose proof (reserved_rows (ts until) tok (jobs_t d) c Hk Hc) as Hperm.
    rewrite <- (sort_slice_perm queue_less) in Hperm. destruct (sort_slice _ _) as [|j js]; [|eauto].
    apply Permutation_nil, fmap_nil_inv in Hperm. destruct c as [|x c']; [done|].
    assert (x ∈ remove_dups (x :: c')) as Hx by (apply elem_of_remove_dups; set_solver).
    rewrite Hperm in Hx. set_solver.
  - intros Hnone. cbn in *. unfold Pg.FindAndReserveJobsForCapabilities.
    destruct caps as [|c0 cs] eqn:Hcs; [by exists (ESentinel ErrNoJobs)|]. rewrite <- Hcs in *.
    unfold Pg.findAndReserveJobs.
    rewrite Pg.checked_pass by (by apply Pg.validateBatchRequest_ok).
    rewrite Pg.checked_pass by (by apply valid_caps_check). unfold Pg.reserve_selected.
    assert (Pg.join_requested caps (rows_where (unlocked_ready locked (ts now)) (jobs_t d)) = []) as ->.
    { destruct (Pg.join_requested _ _) as [|r rows] eqn:Hj; [done|]. exfalso.
      assert (r ∈ Pg.join_requested caps (rows_where (unlocked_ready locked (ts now)) (jobs_t d)))
        as [[Hl [Hrd _]%unlocked_ready_spec]%rows_where_elem Hex]%Pg.join_requested_elem by (rewrite Hj; set_solver); [|done].
      pose proof (Hnone r Hl) as Hf. unfold claimable in Hf. by rewrite Hrd, Hex in Hf. }
    replace (top queue_less (Z.to_nat limit) []) with ([] : list Job)
      by (symmetry; apply length_zero_iff_nil; rewrite top_length; cbn; lia).
    cbn [Pg.attempts_overflow existsb fmap list_fmap].
    assert (rows_where (in_ids []) (sql_update (in_ids []) (reserve_row (ts until) tok) (jobs_t d)).1 = []) as ->.
    { unfold rows_where. induction ((map_to_list _).*2) as [|j l IH]; [done|]. by rewrite filter_cons, decide_False. }
    by exists (ESentinel ErrNoJobs).
Qed.

(** SQLite: its integers have room. *)
#[export] Instance sqlite_claims_ready : ClaimsReady Sqlite.ts (λ _, true) Sqlite.repository.
Proof.
  split; intros locked now until tok caps limit d Hk Htok Hcaps Hlim; cbn in *.
  - intros _ (r & Hr & Hcl & _). unfold Sqlite.FindAndReserveJobsForCapabilities.
    assert (caps ≠ []) as Hne by (intros ->; unfold claimable in Hcl; cbn in Hcl; by rewrite andb_false_r in Hcl).
    destruct caps as [|c0 cs] eqn:Hcs; [done|]. rewrite <- Hcs in *.
    unfold guarded at 1. rewrite valid_caps_check by done. unfold Sqlite.findAndReserveBatch, guarded.
    rewrite (proj2 (DbSql.validateBatchClaim_ok tok limit)) by done.
    unfold Sqlite.findAndReserveBatchWithExecutor. rewrite sql_select_top.
    set (rows := rows_where _ _). set (c := top _ _ rows).
    assert (r ∈ rows) as Hin by (by apply rows_where_elem).
    assert (c ≠ []) as Hcne by (eapply top_nonempty; [lia|done]).
    unfold sql_update. rewrite DbSql.affected_in_ids, Z.eqb_refl; [destruct c; [done|eauto]|done| |].
    + by apply top_NoDup, rows_where_distinct.
    + intros j Hj%top_elem. by apply rows_where_elem in Hj as [? _].
  - intros Hnone. unfold Sqlite.FindAndReserveJobsForCapabilities.
    destruct caps as [|c0 cs] eqn:Hcs; [by exists (ESentinel ErrNoJobs)|]. rewrite <- Hcs in *.
    unfold guarded at 1. rewrite valid_caps_check by done. unfold Sqlite.findAndReserveBatch, guarded.
    rewrite (proj2 (DbSql.validateBatchClaim_ok tok limit)) by done.
    unfold Sqlite.findAndReserveBatchWithExecutor. rewrite sql_select_top.
    destruct (top _ _ _) as [|r rest] eqn:Ht; [by exists (ESentinel ErrNoJobs)|]. exfalso.
    assert (r ∈ top queue_less (Z.to_nat limit) (rows_where (λ j, ready (Sqlite.ts now) j && existsb (row_is j) caps) (jobs_t d)))
      as Hr by (rewrite Ht; set_solver).
    apply top_elem, rows_where_elem in Hr as [Hl Hcl]; [|done]. pose proof (Hnone r Hl) as Hf.
    unfold claimable in Hf. congruence.
Qed.
