(* ===== verification/Delivery.v ===== *)
(** * Delivery: from an acknowledged put to the handler

    The producer API ([Api.PutVersioned]) composed with the worker of
    [Progress].  The producer's calls may fail, or lose their answers, and
    other producers may be writing meanwhile; the worker then runs in a calm
    environment.  Every put that was acknowledged reaches its handler. *)

From S2P Require Import Prelude GoTime Errors Models Retry Batch Sql Repo Stats Options PgJobs DbSql SqliteJobs.
From S2P Require Import Fencing Runtime Api LeaseManager Service ExecBatch Progress.
Open Scope Z_scope.

(** What one call of [PutVersioned] is asked for. *)
Record PutRequest : Type := mkRequest {
  q_Name : string;
  q_SchemaVersion : SchemaVersion;
  q_Payload : string;
  q_AvailableAt : Z
}.

Definition q_capability (q : PutRequest) : JobCapability :=
  {| cap_Name := q_Name q; cap_SchemaVersion := q_SchemaVersion q |}.

(** A producer makes its puts one after the other, whatever they answer. *)
Fixpoint produce (E : Env) (S : Service) (qs : list PutRequest) : M (list (result JobID)) :=
  match qs with
  | [] => mret []
  | q :: qs =>
      r ← PutVersioned E S (q_Name q) (q_SchemaVersion q) (q_Payload q) (q_AvailableAt q);
      rs ← produce E S qs;
      mret (r :: rs)
  end.

(** The row of an acknowledged put nobody has claimed yet. *)
Definition waiting (ts : Z → Z) (q : PutRequest) (id : JobID) (d : Db) : Prop :=
  ∃ j, jobs_t d !! id = Some j ∧ ID j = id ∧ row_is j (q_capability q) = true ∧ Payload j = q_Payload q
  ∧ Attempts j = 0 ∧ ReservedAt j = None ∧ AvailableAt j = ts (q_AvailableAt q).

Section producer.
Context (E0 : Env) (S : Service) (ts : Z → Z) (room : Job → bool).
Abbreviation R := (rp_jobs (s_repo S)).
Context `{!LeaseRepository ts R}.
Context (Hroom : ∀ j, Attempts j = 0 → room j = true).
Context (Hid : ∀ n, newJobID E0 n ≠ JobIDNil).

(** Tables a worker can start from. *)
Record steady (d : Db) : Prop := {
  st_keyed : keyed (jobs_t d);
  st_nil : jobs_t d !! JobIDNil = None;
  st_room : map_Forall (λ _ j, room j = true) (jobs_t d)
}.

(** Meanwhile the others only produce: no row changes, new ones may appear. *)
Context (Hothers : ∀ n d, steady d → steady (others E0 n d) ∧ jobs_t d ⊆ jobs_t (others E0 n d)).

Lemma steady_insert id j d : steady d → ID j = id → id ≠ JobIDNil → Attempts j = 0 →
  steady (set_jobs (<[id := j]> (jobs_t d)) d).
Proof.
  intros [Hk Hn Hr] Hj Hne Ha. split; cbn.
  - intros i x [[<- <-]|[_ Hx]]%lookup_insert_Some; [done|by apply Hk].
  - by rewrite lookup_insert_ne.
  - apply map_Forall_insert_2; [by apply Hroom|done].
Qed.

(** A put leaves every row in place, and an acknowledged one leaves a new row. *)
Definition grown (w w' : World) : Prop :=
  steady (w_db w') ∧ jobs_t (w_db w) ⊆ jobs_t (w_db w') ∧ w_handled w' = w_handled w
  ∧ w_mgr w' = w_mgr w ∧ w_paused w' = w_paused w.

Lemma waiting_grown q id w w' : grown w w' → waiting ts q id (w_db w) → waiting ts q id (w_db w').
Proof. intros (_ & Hsub & _) (j & Hj & Hrest). exists j. split; [by eapply lookup_weaken|done]. Qed.

Lemma create_grows q id t d r d' : steady d → id ≠ JobIDNil →
  CreateJobVersioned R id t (q_Name q) (q_SchemaVersion q) (q_Payload q) (q_AvailableAt q) d = (r, d') →
  steady d' ∧ jobs_t d ⊆ jobs_t d' ∧ ∀ id', r = Ok id' → jobs_t d !! id' = None ∧ waiting ts q id' d'.
Proof.
  intros Hst Hne Hop. destruct r as [id'|e].
  - apply (create_ok (ts := ts)) in Hop as (-> & _ & Hnone & qn & ->).
    split_and!; [by apply steady_insert|by apply insert_subseteq|]. intros ? [= <-]. split; [done|].
    eexists. cbn. rewrite lookup_insert_eq. split_and!; try done.
    apply andb_true_iff. by rewrite String.eqb_refl, Z.eqb_refl.
  - by rewrite (create_atomic (ts := ts) (R := R) _ _ _ _ _ _ _ _ _ Hop).
Qed.

Lemma put_grows q w : steady (w_db w) →
  wp (PutVersioned E0 S (q_Name q) (q_SchemaVersion q) (q_Payload q) (q_AvailableAt q))
     (λ r w', grown w w' ∧ ∀ id, r = Ok id → jobs_t (w_db w) !! id = None ∧ waiting ts q id (w_db w')) w.
Proof.
  intros Hst. unfold PutVersioned. destruct (Validate _) as [[]|e]; [|by wp_simpl].
  unfold NewJobID. wp_simpl. set (t := clock E0 _).
  destruct (Hothers (Datatypes.S (Datatypes.S (w_tick w))) _ Hst) as [Hst1 Hsub].
  apply wp_call; cbn [w_tick bump w_db]; intros d r d'; [intros -> Hop|intros e -> Hop];
    (apply create_grows in Hop as (Hst' & Hsub' & Hnew); [|done|apply Hid]).
  - assert (grown w (set_db d' (bump (bump (bump w))))) as Hg by (split_and!; [done|by etrans|done..]).
    destruct r as [id'|e]; [|done]. cbn. split; [exact Hg|]. intros ? [= <-]. destruct (Hnew id' eq_refl) as [Hn Hw].
    split; [by eapply lookup_weaken_None|done].
  - cbn. split; (split; [|done]); (split_and!; [done|by etrans|done..]).
Qed.

(** Every acknowledged put of a run waits in the tables, under its own id. *)
Lemma produce_grows qs w : steady (w_db w) →
  wp (produce E0 S qs) (λ rs w', grown w w'
    ∧ length rs = length qs ∧ (∀ i q id, qs !! i = Some q → rs !! i = Some (Ok id) → jobs_t (w_db w) !! id = None ∧ waiting ts q id (w_db w'))
    ∧ ∀ i j id, rs !! i = Some (Ok id) → rs !! j = Some (Ok id) → i = j) w.
Proof.
  revert w. induction qs as [|q qs IH]; intros w Hst; cbn [produce]; wp_simpl; [by split_and!|].
  eapply wp_mono; [by apply put_grows|]. intros r w1 [Hg Hr]. wp_simpl.
  eapply wp_mono; [apply IH, Hg|]. intros rs w2 (Hg2 & Hlen & Hrs & Hone). wp_simpl.
  split_and!; [|by cbn; rewrite Hlen|..].
  - destruct Hg as (_ & ? & ? & ? & ?), Hg2 as (? & ? & ? & ? & ?). split_and!; [done|by etrans|congruence..].
  - intros [|i] q' id Hq Hi; cbn in Hq, Hi; simplify_eq.
    + destruct (Hr id eq_refl). split; [done|]. by eapply waiting_grown.
    + destruct (Hrs i q' id Hq Hi) as [Hn Hw]. split; [|done]. eapply lookup_weaken_None; [exact Hn|apply Hg].
  - assert (∀ i id, r = Ok id → rs !! i = Some (Ok id) → False) as Hdiff.
    { intros i id -> Hi. destruct (lookup_lt_is_Some_2 qs i) as [q' Hq]; [rewrite <- Hlen; by eapply lookup_lt_Some|].
      destruct (Hrs i q' id Hq Hi) as [Hn _]. destruct (Hr id eq_refl) as [_ (j & Hj & _)]. congruence. }
    intros [|i] [|j] id Hi Hj; cbn in Hi, Hj; simplify_eq; [done|exfalso; eauto..|]. f_equal. by eapply Hone.
Qed.
End producer.

(** ** Delivery *)

Section delivery.
Context (E0 E : Env) (S : Service) (ts : Z → Z) (t0 slack : Z).
Abbreviation R := (rp_jobs (s_repo S)).
Abbreviation rf := (reserveFor (s_options S)).
Context `{!LeaseRepository ts R}.
Context (Hcalm : Calm E t0 slack).
Context (Hslack : 0 ≤ slack < leaseFinalizationTimeout).
Context (Hadmit : slack + rf / 3 + 2 * Millisecond ≤ rf).
Context (Hfinal : slack + leaseFinalizationTimeout + batchFinalizationMargin + 2 * Millisecond ≤ rf).
Context (room : Job → bool) `{!ClaimsReady ts room R}.
Context (caps : list JobCapability).
Context (Hcaps : caps ≠ []) (Hdistinct : NoDup caps) (Hvalid : Forall (λ c, Validate c = Ok tt) caps).
Context (Hhandlers : ∀ c, c ∈ caps → ∃ h, s_jobs S !! c = Some h ∧ succeeds slack h).
Abbreviation size := (reservationBatchSize (s_options S)).
Context (Hsize : 1 ≤ size ≤ MaxReservationBatchSizeOf R).
Context (Hroom : ∀ j, Attempts j = 0 → room j = true).
Context (Hid : ∀ n, newJobID E0 n ≠ JobIDNil).
Context (Hothers : ∀ n d, steady room d → steady room (others E0 n d) ∧ jobs_t d ⊆ jobs_t (others E0 n d)).

Lemma waiting_claimable q id d : waiting ts q id d → q_capability q ∈ caps → q_AvailableAt q ≤ t0 →
  ∃ j, jobs_t d !! ID j = Some j ∧ ID j = id ∧ Attempts j = 0 ∧ claimable (ts t0) caps j = true.
Proof.
  intros (j & Hj & <- & Hrow & _ & Ha & Hres & Hat) Hc Hle. exists j. split_and!; [done..|].
  unfold claimable, ready. rewrite Hres, Hat, andb_true_r. apply andb_true_iff. split.
  - apply Z.leb_le. by apply ts_mono.
  - apply existsb_exists. exists (q_capability q). by rewrite <- list_elem_of_In.
Qed.

(** In a list of distinct ids, an element is mentioned at one place. *)
Lemma handled_once (rs : list Job) j : NoDup (ID <$> rs) → j ∈ rs →
  ∃ before after, ((λ x, (ID x, Attempts x + 1)) <$> rs) = before ++ (ID j, Attempts j + 1) :: after
    ∧ ID j ∉ before.*1 ∧ ID j ∉ after.*1.
Proof.
  intros Hnd (l1 & l2 & ->)%list_elem_of_split. rewrite fmap_app, fmap_cons.
  rewrite fmap_app, fmap_cons in Hnd. apply NoDup_app in Hnd as (_ & Hd & [Hn _]%NoDup_cons).
  eexists _, _. split; [done|]. rewrite <- !list_fmap_compose. cbn. split; [|done].
  intros Hin. apply (Hd _ Hin). set_solver.
Qed.

(** C15: every acknowledged put is delivered exactly once.  A producer makes
    any number of puts; some may be refused, fail or lose their answers, and
    other producers may write in between.  When the worker is then left alone,
    with rounds for the rows that are ready, each put that was acknowledged,
    for a capability it serves and available by then, got an id of its own and
    reaches its handler exactly once, on the first attempt; its row is gone
    afterwards. *)
Theorem acknowledged_puts_delivered qs w0 rs w1 rounds fuel sched r w2 :
  steady room (w_db w0) → m_cancel (w_mgr w0) = None → w_paused w0 = ∅ →
  produce E0 S qs w0 = (rs, w1) →
  affected (claimable (ts (t0 + slack)) caps) (jobs_t (w_db w1)) ≤ Z.of_nat rounds * size →
  runWorker E S rounds fuel caps [] sched w1 = (r, w2) →
  r = None ∧ ∀ i q id, qs !! i = Some q → rs !! i = Some (Ok id) → q_capability q ∈ caps → q_AvailableAt q ≤ t0 →
    jobs_t (w_db w0) !! id = None ∧ jobs_t (w_db w2) !! id = None
    ∧ (∀ j, rs !! j = Some (Ok id) → i = j)
    ∧ ∃ before after, w_handled w2 = w_handled w0 ++ before ++ (id, 1) :: after
        ∧ id ∉ before.*1 ∧ id ∉ after.*1.
Proof.
  intros Hst Hc Hp Hprod Hrounds Hrun.
  pose proof (wp_run _ _ _ _ _ (produce_grows E0 S ts room Hroom Hid Hothers qs w0 Hst) Hprod)
    as ((Hst1 & _ & Hh1 & Hm1 & Hp1) & _ & Hrs & Hone).
  assert (resting room w1) as Hrest by (split; [by rewrite Hm1|by rewrite Hp1|apply Hst1..]).
  eapply (worker_serves E S ts t0 slack Hcalm Hslack Hadmit Hfinal (succeeds slack)) in Hrun
    as (-> & served & Hnd & _ & Hall & Hdb & Hh); try done; try (by intros h [? ?]).
  split; [done|]. intros i q id Hq Hi Hcap Hat. destruct (Hrs i q id Hq Hi) as [Hn Hw].
  destruct (waiting_claimable q id _ Hw Hcap Hat) as (j & Hj & <- & Ha & Hcl).
  pose proof (Hall j Hj Hcl) as Hin. split_and!; [done| |eauto|].
  - rewrite Hdb. cbn [jobs_t set_jobs]. rewrite sql_delete_lookup, Hj.
    by rewrite (proj2 (in_ids_spec _ _)) by (by apply list_elem_of_fmap_2).
  - destruct (handled_once served j Hnd Hin) as (b & a & Heq & Hb & Haft). exists b, a.
    by rewrite Hh, Heq, Hh1, Ha.
Qed.
End delivery.
