(* ===== verification/Settling.v ===== *)
(** * Settling: every job is delivered or dead-lettered

    [Progress] lets handlers succeed; here they may fail and panic as they
    like, as long as they leave the timing to the retry policy.  Each window is
    calm, and the next one begins after the retry delay.  A job is delivered,
    or it ends among the failed jobs after as many attempts as its handler
    allows: none is retried for ever. *)

From S2P Require Import Prelude GoTime Errors Models Retry Batch Sql Repo Stats Options PgJobs DbSql SqliteJobs.
From S2P Require Import Runtime LeaseManager Footprint Service ExecBatch WorkerFootprint Progress.
Open Scope Z_scope.

(** ** Ticks only grow *)

Definition later (w w' : World) : Prop := (w_tick w ≤ w_tick w')%nat.
Definition any_call : Allowed := λ _ _, True.

#[export] Instance later_footprint E : Footprint E any_call later.
Proof. unfold later. split; intros; cbn; try lia. split; [intros w; lia|intros w1 w2 w3; lia]. Qed.
#[export] Instance any_service_calls S : ServiceCalls S any_call.
Proof. by split. Qed.

Lemma wp_and_later {A} (m : M A) Q w : pres later m → wp m Q w → wp m (λ a w', Q a w' ∧ later w w') w.
Proof. intros Hm HQ. split; [exact HQ|apply Hm]. Qed.

(** ** One window *)

Section window.
Context (E : Env) (S : Service) (ts : Z → Z) (t0 slack maxDelay : Z).
Abbreviation R := (rp_jobs (s_repo S)).
Abbreviation rf := (reserveFor (s_options S)).
Context `{!LeaseRepository ts R, !FailedRepository ts (s_failed S)}.
Context (Hcalm : Calm E t0 slack).
Context (Hslack : 0 ≤ slack < leaseFinalizationTimeout).
Context (Hadmit : slack + rf / 3 + 2 * Millisecond ≤ rf).
Context (Hfinal : slack + leaseFinalizationTimeout + batchFinalizationMargin + 2 * Millisecond ≤ rf).
(** Record ids are drawn once. *)
Context (Hinj : ∀ i k, newJobID E i = newJobID E k → i = k).

(** The retry policy postpones a job past the window, and no further than
    [maxDelay]. *)
Context (Hpolicy : is_Some (retryPolicy (s_options S))).
Context (Hretry : ∀ j e t, RetryTime (Some e) = None → ∃ at_,
  retryTime (retryPolicy (s_options S)) j e t 0 = Ok at_ ∧ t + slack + 2 * Millisecond ≤ at_ ≤ t + maxDelay).

(** A handler with a timeout it does not reach, whose errors neither defer the
    job nor name a time of their own. *)
Definition decides (h : Handler) : Prop :=
  slack < h_ExecutionTimeout h
  ∧ ∀ t m p e, h_Handle h t m p = Returns (Some e) → DeferTime (Some e) = None ∧ RetryTime (Some e) = None.

Lemma decides_timeout h : decides h → slack < h_ExecutionTimeout h.
Proof. by intros []. Qed.

Lemma answered_plain h t j e : decides h → answered h t j = Some e → DeferTime (Some e) = None ∧ RetryTime (Some e) = None.
Proof.
  intros [_ Hh]. unfold answered. destruct (h_Handle _ _ _ _) as [r|v] eqn:Hr.
  - intros ->. by eapply Hh.
  - by intros [= <-].
Qed.

Abbreviation serving := (Progress.serving S t0 slack decides).
Abbreviation in_hand := (Progress.in_hand S t0 slack decides).

(** The content a claim leaves alone. *)
Definition same_content (r r' : Job) : Prop :=
  ID r' = ID r ∧ Name r' = Name r ∧ SchemaVersionOf r' = SchemaVersionOf r ∧ Payload r' = Payload r.

Lemma same_capability r r' : same_content r r' → job_capability r' = job_capability r.
Proof. intros (_ & Hn & Hv & _). unfold job_capability. by rewrite Hn, Hv. Qed.

(** An attempt that may not be followed by another: the last one allowed, or
    one that failed for good. *)
Definition hopeless (a : Z) (h : Handler) (t : nat) (m : option JobMetadata) (payload : string) : Prop :=
  h_Handle h t m payload ≠ Returns None
  ∧ (h_MaxAttempts h ≤ a ∨ ∃ e, h_Handle h t m payload = Returns (Some e) ∧ IsPermanent (Some e) = true).

(** What became of the job of a row [r] after its attempt number [a]: it was
    delivered, it is among the failed jobs, or its row waits for the next
    attempt it is allowed. *)
Inductive fate (a : Z) (r : Job) (d : Db) : Prop :=
| fate_delivered h t m : jobs_t d !! ID r = None →
    s_jobs S !! job_capability r = Some h → h_Handle h t m (Payload r) = Returns None → fate a r d
| fate_dead h t m i f : jobs_t d !! ID r = None →
    s_jobs S !! job_capability r = Some h → hopeless a h t m (Payload r) →
    failed_t d !! i = Some f → f_JobID f = ID r → f_Name f = Name r → f_Payload f = Payload r → fate a r d
| fate_retry h x : jobs_t d !! ID r = Some x → s_jobs S !! job_capability r = Some h → a < h_MaxAttempts h →
    same_content r x → Attempts x = a → ReservedAt x = None →
    ts (t0 + slack) < AvailableAt x ≤ ts (t0 + slack + maxDelay) → fate a r d.

Lemma fate_content a r r' d : same_content r r' → fate a r d → fate a r' d.
Proof.
  intros Hc Hf. pose proof (same_capability r r' Hc) as Hcap. destruct Hc as (Hi & Hn & Hv & Hp).
  destruct Hf as [h t m H1 H2 H3|h t m i f H1 H2 H3 H4 H5 H6 H7|h x H1 H2 H3 (Hi' & Hn' & Hv' & Hp') H5 H6 H7].
  - by eapply (fate_delivered _ _ _ h t m); rewrite ?Hi, ?Hcap, ?Hp.
  - by eapply (fate_dead _ _ _ h t m i f); rewrite ?Hi, ?Hcap, ?Hn, ?Hp.
  - eapply (fate_retry _ _ _ h x); rewrite ?Hi, ?Hcap; try done. unfold same_content. split_and!; congruence.
Qed.

(** Failed-job records: their ids are not drawn again, and no job is both
    queued and failed. *)
Record sound (n : nat) (d : Db) : Prop := {
  so_fresh k : (n ≤ k)%nat → failed_t d !! newJobID E k = None;
  so_once i f : failed_t d !! i = Some f → jobs_t d !! f_JobID f = None
}.

Lemma sound_later n n' d : (n ≤ n')%nat → sound n d → sound n' d.
Proof. intros Hn [Hf Ho]. split; [intros k Hk; apply Hf; lia|done]. Qed.

(** The rest of a batch, its job at hand first. *)
Record settling (js : list Job) (w : World) : Prop := {
  se_serving : serving js w;
  se_sound : sound (w_tick w) (w_db w);
  se_version j : j ∈ js → 0 < SchemaVersionOf j;
  se_content j : j ∈ js → ∃ x, jobs_t (w_db w) !! ID j = Some x ∧ same_content j x ∧ Attempts x = Attempts j
}.

(** What settling one job did to the tables. *)
Definition settles_one (j : Job) (w w' : World) : Prop :=
  keyed (jobs_t (w_db w')) ∧ (∀ id, id ≠ ID j → jobs_t (w_db w') !! id = jobs_t (w_db w) !! id)
  ∧ fate (Attempts j) j (w_db w') ∧ failed_t (w_db w) ⊆ failed_t (w_db w')
  ∧ sound (w_tick w') (w_db w')
  ∧ w_mgr w' = w_mgr w ∧ w_paused w' = w_paused w ∧ w_handled w' = w_handled w.

(** A job at hand: its row, under its lease. *)
Record at_hand (j : Job) (h : Handler) (w : World) : Prop := {
  ah_keyed : keyed (jobs_t (w_db w));
  ah_hand : in_hand (w_db w) j;
  ah_handler : s_jobs S !! job_capability j = Some h;
  ah_decides : decides h;
  ah_sound : sound (w_tick w) (w_db w);
  ah_version : 0 < SchemaVersionOf j;
  ah_content : ∃ x, jobs_t (w_db w) !! ID j = Some x ∧ same_content j x ∧ Attempts x = Attempts j
}.

Lemma sound_deleted n id d : sound n d → sound n (set_jobs (delete id (jobs_t d)) d).
Proof. intros [Hf Ho]. split; [exact Hf|]. intros i f Hi. cbn. rewrite lookup_delete_None. right. by eapply Ho. Qed.

Lemma wp_acked j h t w : at_hand j h w → answered h t j = None →
  wp (ackBatch E S j) (λ r w', r = Ok tt ∧ settles_one j w w') w.
Proof.
  intros [Hk Hin Hh Hdec Hso _ _] Hans.
  eapply wp_mono; [apply wp_and_later; [refine (pres_ackBatch (allowed := any_call) later S j _); by intros|]|].
  { eapply (wp_ack_calm E S ts t0 slack Hcalm Hslack Hadmit Hfinal decides decides_timeout j
      (λ r w', r = Ok tt ∧ w_db w' = set_jobs (delete (ID j) (jobs_t (w_db w))) (w_db w) ∧ w_mgr w' = w_mgr w
               ∧ w_paused w' = w_paused w ∧ w_handled w' = w_handled w)); [done|done|]. by intros. }
  intros r w' [(-> & Hdb & Hm & Hp & Hhd) Htick]. split; [done|]. unfold settles_one. rewrite Hdb. split_and!; try done; cbn.
  - intros id x [_ Hx]%lookup_delete_Some. by apply Hk.
  - intros id Hid. by rewrite lookup_delete_ne.
  - unfold answered in Hans. destruct (h_Handle h t _ _) as [o|v] eqn:Ha; [|done]. subst o.
    eapply fate_delivered; [cbn; apply lookup_delete_eq|exact Hh|exact Ha].
  - eapply sound_later; [exact Htick|]. by apply sound_deleted.
Qed.

(** One row is found by a statement of its lease. *)
Lemma one_owned j d t : keyed (jobs_t d) → in_hand d j → t0 ≤ t ≤ t0 + slack →
  affected (owned [ID j] (LeaseTokenOf j) (ts t)) (jobs_t d) = 1.
Proof.
  intros Hk Hin Ht. destruct (row_live S ts t0 slack decides j d t Hin Ht) as (r & Hr & Hlive).
  rewrite (affected_singleton _ (ID j)) by (done || (intros ? Ho; apply owned_in in Ho; set_solver)).
  rewrite Hr. unfold owned. rewrite Hlive, andb_true_r.
  rewrite (proj2 (in_ids_spec _ _)); [done|]. rewrite (Hk _ _ Hr). set_solver.
Qed.

Lemma hand_request j d : in_hand d j → request_ok R [ID j] (LeaseTokenOf j).
Proof.
  intros (Hid & Htok & _). pose proof (max_positive (ts := ts) (R := R)). split_and!; [done|cbn; lia..|set_solver].
Qed.

Lemma wp_rescheduled j h at_ w : at_hand j h w → Attempts j < h_MaxAttempts h →
  t0 + slack + 2 * Millisecond ≤ at_ ≤ t0 + slack + maxDelay →
  wp (rescheduleLeased E S j at_) (λ r w', r = Ok tt ∧ settles_one j w w') w.
Proof.
  intros [Hk Hin Hh Hdec Hso _ (x & Hx & Hcon & Hatt)] Hmax Hat.
  eapply wp_mono; [apply (wp_and_later _ (λ r w', r = Ok tt
      ∧ w_db w' = set_jobs (<[ID j := reschedule_row (ts at_) x]> (jobs_t (w_db w))) (w_db w)
      ∧ w_mgr w' = w_mgr w ∧ w_paused w' = w_paused w ∧ w_handled w' = w_handled w)); [refine (pres_rescheduleLeased (allowed := any_call) later S j at_ _); by intros|]|].
  { unfold rescheduleLeased. wp_simpl. set (t := clock E (w_tick w)).
    assert (t0 ≤ t ≤ t0 + slack) as Ht by apply (calm_clock _ _ _ Hcalm).
    assert (0 < Millisecond) by done. unfold Before. rewrite (proj2 (Z.ltb_ge at_ t)) by lia.
    destruct (reschedule_total (ts := ts) (ID j) (LeaseTokenOf j) t at_ (w_db w)) as (n & d' & Hop); [by eapply hand_request|].
    eapply wp_call_calm; [done|exact Hop|]. destruct (reschedule_ok _ _ _ _ _ _ _ Hop) as [_ Hup].
    assert (n = 1) as -> by (destruct Hup as [_ ->]; by apply one_owned).
    apply (updated_one _ _ (ID j)) in Hup as (x' & Hx' & _ & ->); [|done|intros ? Ho; apply owned_in in Ho; set_solver].
    rewrite Hx in Hx'. injection Hx' as <-. cbn -[set_jobs]. wp_simpl.
    eapply wp_mono; [apply observeJobOutcome_spec|]. intros _ w' [(Hdb & Hm & Hp & _ & Hhd) _]. wp_simpl.
    exact (conj eq_refl (conj Hdb (conj Hm (conj Hp Hhd)))). }
  intros r w' [(-> & Hdb & Hm & Hp & Hhd) Htick]. cbn in Hdb, Hm, Hp, Hhd. split; [done|].
  pose proof Hcon as (Hi & _). unfold settles_one. rewrite Hdb. split_and!; try done; cbn.
  - intros id y [[<- <-]|[_ Hy]]%lookup_insert_Some; [done|by apply Hk].
  - intros id Hid. by rewrite lookup_insert_ne.
  - eapply fate_retry; [cbn; apply lookup_insert_eq|exact Hh|done|exact Hcon|done|done|]. cbn.
    pose proof (ts_close at_). pose proof (ts_close (t0 + slack)). split; [lia|]. apply ts_mono. lia.
  - eapply sound_later; [exact Htick|]. destruct Hso as [Hf Ho]. split; [exact Hf|]. intros i f Hi'. cbn.
    rewrite lookup_insert_ne; [by eapply Ho|]. intros Heq. apply Ho in Hi'. rewrite <- Heq in Hi'. congruence.
Qed.

Lemma wp_call_in_calm {A} (op : Op A) Q w r d' : op (w_db w) = (r, d') → Q r (set_db d' (bump w)) → wp (call_in E S op) Q w.
Proof.
  intros Hop HQ. unfold call_in. destruct (atomicDLQ (s_options S)); [by eapply wp_call_tx_calm|by eapply wp_call_calm].
Qed.

(** Telemetry leaves everything but the ticks alone. *)
Lemma wp_observed j kind at_ Q w :
  (∀ w', w_db w' = w_db w → later w w' → w_mgr w' = w_mgr w → w_paused w' = w_paused w → w_handled w' = w_handled w → Q tt w') →
  wp (observeJobOutcome E S j kind at_) Q w.
Proof.
  intros HQ. assert (pres later (observeJobOutcome E S j kind at_)) as Hl
    by exact (pres_observeJobOutcome (allowed := any_call) later S j kind at_).
  pose proof (wp_and_later _ _ w Hl (observeJobOutcome_spec E S j kind at_ w)) as Hw. revert Hw. unfold wp.
  intros [[(Hd & Hm & Hp & _ & Hh) _] Htick]. destruct (observeJobOutcome E S j kind at_ w) as [[] w']. by apply HQ.
Qed.

Lemma wp_observed_loss e n Q w :
  (∀ w', w_db w' = w_db w → later w w' → w_mgr w' = w_mgr w → w_paused w' = w_paused w → w_handled w' = w_handled w → Q tt w') →
  wp (observeLeaseLoss E S e n) Q w.
Proof.
  intros HQ. assert (pres later (observeLeaseLoss E S e n)) as Hl by exact (pres_observeLeaseLoss (allowed := any_call) later S e n).
  assert (wp (observeLeaseLoss E S e n) (λ _ w', telemetry w w') w) as Hw by (by eapply observeLeaseLoss_spec).
  apply (wp_and_later _ _ w Hl) in Hw. revert Hw. unfold wp.
  intros [(Hd & Hm & Hp & _ & Hh) Htick]. destruct (observeLeaseLoss E S e n w) as [[] w']. by apply HQ.
Qed.

(** The tables after a dead letter. *)
Definition dead_lettered (j : Job) (k : nat) (reason : string) (d d' : Db) : Prop :=
  ∃ failedAt t, d' = set_jobs (delete (ID j) (jobs_t d))
    (set_failed (<[newJobID E k := failed_row ts (newJobID E k) failedAt t (ID j) (Name j) (SchemaVersionOf j) (Payload j) reason]>
                  (failed_t d)) d).

Lemma wp_dlq_tx j h reason w : at_hand j h w →
  wp (dlq_tx E S j reason) (λ r w', r = Ok tt ∧ dead_lettered j (w_tick w) reason (w_db w) (w_db w')
    ∧ later (bump w) w' ∧ w_mgr w' = w_mgr w ∧ w_paused w' = w_paused w ∧ w_handled w' = w_handled w) w.
Proof.
  intros [Hk Hin Hh Hdec [Hfresh Honce] Hv (x & Hx & _)].
  unfold dlq_tx, create_failed, NewJobID. wp_simpl.
  set (t1 := clock E _). set (t2 := clock E _).
  destruct (failed_total (ts := ts) (F := s_failed S) (newJobID E (w_tick w)) t1 t2 (ID j) (Name j) (SchemaVersionOf j)
    (Payload j) reason (w_db w)) as [d1 Hop]; [done|by apply Hfresh| |].
  { intros i f Hi Heq. apply Honce in Hi. rewrite Heq in Hi. congruence. }
  eapply wp_call_in_calm; [exact Hop|]. apply (failed_ok (ts := ts)) in Hop as (_ & _ & _ & t & _ & ->). cbn -[set_jobs set_failed]. wp_simpl.
  set (t3 := clock E _). set (d1 := set_failed _ (w_db w)).
  assert (t0 ≤ t3 ≤ t0 + slack) as Ht3 by apply (calm_clock _ _ _ Hcalm).
  destruct (delete_total (ts := ts) (ID j) (LeaseTokenOf j) t3 d1) as (n & d2 & Hop2); [by eapply hand_request|].
  eapply wp_call_in_calm; [exact Hop2|]. apply delete_ok in Hop2 as [_ Hdel].
  assert (n = 1) as -> by (destruct Hdel as [_ ->]; by apply (one_owned j (w_db w))).
  apply (deleted_one _ (ID j)) in Hdel as (? & _ & _ & ->); [|done|intros ? Ho; apply owned_in in Ho; set_solver].
  cbn -[set_jobs set_failed]. wp_simpl. split_and!; try done; [by exists t1, t|]. unfold later. cbn. lia.
Qed.

Lemma dead_lettered_sound j h k reason w d' : at_hand j h w → (w_tick w ≤ k)%nat → dead_lettered j k reason (w_db w) d' →
  sound (Datatypes.S k) d'.
Proof.
  intros [_ _ _ _ [Hfresh Honce] _ _] Hk (failedAt & t & ->). split; cbn.
  - intros i Hi. rewrite lookup_insert_ne; [apply Hfresh; lia|]. intros Heq%Hinj. lia.
  - intros i f [[_ <-]|[_ Hf]]%lookup_insert_Some; [apply lookup_delete_eq|].
    rewrite lookup_delete_None. right. by eapply Honce.
Qed.

Lemma wp_dead j h t reason w : at_hand j h w → hopeless (Attempts j) h t (withJobMetadata j) (Payload j) →
  wp (dlqBatch E S j reason) (λ r w', r = Ok tt ∧ settles_one j w w') w.
Proof.
  intros Hah Hfail. pose proof Hah as [Hk Hin Hh Hdec Hso _ _].
  assert (at_hand j h (bump w)) as Hah1 by (destruct Hah; split; try done; by eapply sound_later; [|exact Hso]; cbn; lia).
  unfold dlqBatch. wp_simpl. eapply wp_RunInTx_calm; [done|].
  eapply wp_mono; [by eapply wp_dlq_tx|]. intros r w1 (-> & Hd & Hl & Hm & Hp & Hhd). cbn in Hm, Hp, Hhd. exists tt. split; [done|].
  assert (∀ w2, w_db w2 = w_db w1 → later w1 w2 → w_mgr w2 = w_mgr w1 → w_paused w2 = w_paused w1 →
    w_handled w2 = w_handled w1 → settles_one j w w2) as Hsettled.
  { intros w2 Hd2 Hl2 Hm2 Hp2 Hh2. unfold settles_one. rewrite Hd2. split_and!; [..|congruence|congruence|congruence].
    - destruct Hd as (? & ? & ->). cbn. intros id y [_ Hy]%lookup_delete_Some. by apply Hk.
    - intros id Hid. destruct Hd as (? & ? & ->). cbn. by rewrite lookup_delete_ne.
    - destruct Hd as (? & ? & ->). eapply fate_dead; [cbn; apply lookup_delete_eq|exact Hh|exact Hfail|cbn; apply lookup_insert_eq|done..].
    - destruct Hd as (? & ? & ->). cbn. apply insert_subseteq. apply (so_fresh _ _ Hso). cbn. lia.
    - eapply sound_later; [|by eapply dead_lettered_sound; [exact Hah1| |exact Hd]]. unfold later in *. cbn in *. lia. }
  split; wp_simpl; apply wp_observed; intros w2 Hd2 Hl2 Hm2 Hp2 Hh2; wp_simpl; (split; [done|]);
    apply Hsettled; try done; unfold later in *; cbn in *; lia.
Qed.

(** What settling a job leaves of the tables, without the bookkeeping. *)
Record passed (j : Job) (w w' : World) : Prop := {
  ps_others id : id ≠ ID j → jobs_t (w_db w') !! id = jobs_t (w_db w) !! id;
  ps_fate : fate (Attempts j) j (w_db w');
  ps_failed : failed_t (w_db w) ⊆ failed_t (w_db w')
}.

Lemma settling_at_hand j js h w : settling (j :: js) w → s_jobs S !! job_capability j = Some h → decides h → at_hand j h w.
Proof. intros [Hsv Hso Hv Hc] Hh Hdec. split; [apply Hsv|apply Hsv; set_solver|done|done|done|apply Hv; set_solver|apply Hc; set_solver]. Qed.

Lemma at_hand_bumped j h n w : at_hand j h w → at_hand j h (Nat.iter n bump w).
Proof.
  intros [Hk Hin Hh Hdec Hso Hv Hc]. destruct (iter_bump n w) as (Hd & _).
  split; rewrite ?Hd; try done. eapply sound_later; [|exact Hso]. rewrite iter_bump_tick. lia.
Qed.

Lemma wp_finalized j js h fin Q w : settling (j :: js) w → s_jobs S !! job_capability j = Some h → decides h →
  (∀ w2, at_hand j h w2 → wp fin (λ r w', r = Ok tt ∧ settles_one j w2 w') w2) →
  (∀ w', settling js w' → passed j w w' → w_handled w' = w_handled w → Q (Ok tt) w') →
  wp (finalize E R batchCtx (ID j) (λ _, fin)) Q w.
Proof.
  intros Hse Hh Hdec Hfin HQ. eapply (wp_finalize_calm E S ts t0 slack Hcalm Hslack Hadmit Hfinal decides decides_timeout j js); [apply Hse|].
  intros n _. destruct (iter_bump n w) as (Hd & Hm & Hp & Hhd).
  eapply wp_mono; [by apply Hfin, at_hand_bumped, (settling_at_hand _ js)|].
  intros r w' (-> & Hk & Ho & Hfate & Hfail & Hso & Hm' & Hp' & Hhd'). rewrite Hd in Ho, Hfail.
  split; [done|]. split; [congruence|]. destruct Hse as [Hsv _ Hv Hc].
  assert (∀ x, x ∈ js → ID x ≠ ID j) as Hne.
  { intros x Hx Heq. pose proof (sv_distinct _ _ _ _ _ _ Hsv) as [Hj _]%NoDup_cons. apply Hj. rewrite <- Heq. by apply list_elem_of_fmap_2. }
  apply HQ; [split; cbn| |cbn; congruence].
  - eapply (serving_dropped E S ts t0 slack Hcalm Hslack Hadmit Hfinal decides decides_timeout j js w); cbn; try done; congruence.
  - exact Hso.
  - intros x Hx. apply Hv. set_solver.
  - intros x Hx. rewrite Ho by (by apply Hne). apply Hc. set_solver.
  - by split.
Qed.

Lemma disposition_retry h j e : IsPermanent (Some e) = false → DeferTime (Some e) = None → Attempts j < h_MaxAttempts h →
  disposition S h j (Some e) = Reschedule e.
Proof.
  intros Hp Hdef Hmax. unfold disposition. rewrite Hp, Hdef, (proj2 (Z.leb_gt _ _)) by done.
  rewrite (bool_decide_eq_true_2 (is_Some (retryPolicy _))) by done. by rewrite orb_true_r.
Qed.

(** One job: its handler runs once, and its fate is decided. *)
Lemma wp_settle_calm j js Q w : settling (j :: js) w →
  (∀ w', settling js w' → passed j w w' → w_handled w' = w_handled w ++ [(ID j, Attempts j)] → Q (true, Ok tt) w') →
  wp (processBatchJob E S batchCtx j) Q w.
Proof.
  intros Hse HQ. pose proof (sv_rows _ _ _ _ _ _ (se_serving _ _ Hse) j ltac:(set_solver)) as (_ & _ & (h & Hh & Hdec) & _).
  eapply (wp_handled_calm E S ts t0 slack Hcalm Hslack Hadmit Hfinal decides decides_timeout j js h); [apply Hse|done|done|].
  intros t w1 Hsv1 Hdb Htick Hhd.
  assert (settling (j :: js) w1) as Hse1.
  { destruct Hse as [_ Hso Hv Hc]. split; [done| |done|by rewrite Hdb]. rewrite Hdb. by eapply sound_later. }
  assert (∀ w', settling js w' → passed j w1 w' → w_handled w' = w_handled w1 → Q (true, Ok tt) w') as HQ1.
  { intros w' Hs [Ho Hf Hfl] Hh'. apply HQ; [done| |congruence]. by split; [rewrite <- Hdb|..|rewrite <- Hdb]. }
  unfold settle_job. destruct (answered h t j) as [e|] eqn:Hans.
  2: { cbn [disposition]. eapply (wp_finalized j js h); [done..| |exact HQ1]. intros. by eapply wp_acked. }
  destruct (answered_plain h t j e Hdec Hans) as [Hdef Hrt].
  assert (h_Handle h t (withJobMetadata j) (Payload j) ≠ Returns None) as Hnot by (unfold answered in Hans; by intros Heq; rewrite Heq in Hans).
  destruct (IsPermanent (Some e)) eqn:Hperm.
  { unfold disposition. rewrite Hperm. eapply (wp_finalized j js h); [done..| |exact HQ1]. intros. eapply (wp_dead j h t); [done|].
    split; [done|right]. unfold answered in Hans. destruct (h_Handle h t _ _) as [o|v]; [by exists e; subst o|].
    by injection Hans as <-. }
  destruct (Z.leb_spec (h_MaxAttempts h) (Attempts j)) as [Hmax|Hmax].
  { unfold disposition. rewrite Hperm, Hdef, (proj2 (Z.leb_le _ _)) by done.
    eapply (wp_finalized j js h); [done..| |exact HQ1]. intros. eapply (wp_dead j h t); [done|]. by split; [|left]. }
  rewrite disposition_retry by done. wp_simpl. set (t1 := clock E (w_tick w1)).
  assert (t0 ≤ t1 ≤ t0 + slack) as Ht1 by apply (calm_clock _ _ _ Hcalm).
  destruct (Hretry j e t1 Hrt) as (at_ & -> & Hat).
  eapply (wp_finalized j js h); [|done..| |].
  - destruct Hse1 as [Hsv Hso Hv Hc]. split; try done; [by eapply serving_same; [..|exact Hsv]|].
    eapply sound_later; [|exact Hso]. cbn. lia.
  - intros w2 Hw2. eapply wp_rescheduled; [done|done|lia].
  - intros w' Hs [] Hh'. by apply HQ1.
Qed.

Lemma fate_stable a r d d' : jobs_t d' !! ID r = jobs_t d !! ID r → failed_t d ⊆ failed_t d' → fate a r d → fate a r d'.
Proof.
  intros Hj Hf [h t m H1 H2 H3|h t m i f H1 H2 H3 H4 H5 H6 H7|h x H1 H2 H3 H4 H5 H6 H7].
  - by eapply fate_delivered; [rewrite Hj|..].
  - eapply fate_dead; [by rewrite Hj|done|done|by eapply lookup_weaken|done..].
  - by eapply fate_retry; [rewrite Hj|..].
Qed.

(** The jobs of a batch, one after the other. *)
Lemma wp_settle_jobs js Q w : settling js w →
  (∀ w', settling [] w' → (∀ id, id ∉ ID <$> js → jobs_t (w_db w') !! id = jobs_t (w_db w) !! id) →
     (∀ j, j ∈ js → fate (Attempts j) j (w_db w')) → failed_t (w_db w) ⊆ failed_t (w_db w') →
     w_handled w' = w_handled w ++ ((λ j, (ID j, Attempts j)) <$> js) → Q None w') →
  wp (process_jobs E S batchCtx js) Q w.
Proof.
  revert w. induction js as [|j js IH]; intros w Hse HQ; cbn [process_jobs]; wp_simpl.
  { apply HQ; [done..|set_solver|done|by rewrite app_nil_r]. }
  pose proof (sv_distinct _ _ _ _ _ _ (se_serving _ _ Hse)) as [Hj _]%NoDup_cons.
  eapply wp_settle_calm; [done|]. intros w1 Hse1 [Ho1 Hf1 Hfl1] Hh1. wp_simpl. apply IH; [done|].
  intros w2 Hse2 Ho2 Hf2 Hfl2 Hh2. apply HQ; [done|..].
  - intros id Hid. rewrite fmap_cons, not_elem_of_cons in Hid. destruct Hid as [Hid1 Hid2]. by rewrite Ho2, Ho1.
  - intros x [->|Hx]%elem_of_cons; [|by apply Hf2]. by eapply fate_stable; [apply Ho2|..].
  - by etrans.
  - by rewrite Hh2, Hh1, <- (assoc (++)).
Qed.

(** ** Rounds *)

Context (room : Job → bool) `{!ClaimsReady ts room R}.
Context (caps : list JobCapability).
Context (Hcaps : caps ≠ []) (Hdistinct : NoDup caps) (Hvalid : Forall (λ c, Validate c = Ok tt) caps).
Context (Hhandlers : ∀ c, c ∈ caps → ∃ h, s_jobs S !! c = Some h ∧ decides h).
Abbreviation size := (reservationBatchSize (s_options S)).
Context (Hsize : 1 ≤ size ≤ MaxReservationBatchSizeOf R).
(** Counters have room for the attempts the handlers allow. *)
Context (Hroom : ∀ c h x, s_jobs S !! c = Some h → Attempts x < h_MaxAttempts h → room x = true).

Abbreviation resting := (Progress.resting room).
Abbreviation claimed := (Progress.claimed S ts t0 slack caps).
Abbreviation none_left := (Progress.none_left ts t0 caps).

Definition between (w : World) : Prop := resting w ∧ sound (w_tick w) (w_db w).

Lemma claimed_row w tok js w' j : claimed w tok js w' → j ∈ js → ∃ r, jobs_t (w_db w) !! ID j = Some r ∧ same_content r j
  ∧ Attempts j = Attempts r + 1 ∧ claimable (ts (t0 + slack)) caps r = true
  ∧ ∃ x, jobs_t (w_db w') !! ID j = Some x ∧ same_content j x ∧ Attempts x = Attempts j.
Proof.
  intros (t & Ht & Hb & _) Hj. destruct (cp_rows _ _ _ _ _ _ _ _ _ _ Hb j Hj) as (r & u & Hr & Hcl & _ & _ & Heq).
  assert (ID r = ID j) as Hid by (by rewrite Heq).
  exists r. split; [done|]. split; [by subst j|]. split; [by subst j|]. split.
  { eapply claimable_mono; [|exact Hcl]. apply ts_mono. lia. }
  exists (reserve_row (ts (t + rf)) tok r). rewrite (cp_db _ _ _ _ _ _ _ _ _ _ Hb). cbn [jobs_t set_jobs].
  rewrite sql_update_lookup, Hr. cbn. rewrite (proj2 (in_ids_spec _ _)); [by subst j|].
  rewrite Hid. by apply list_elem_of_fmap_2.
Qed.

Lemma claimed_settling w tok js w' : between w → claimed w tok js w' → later w w' →
  settling js (set_mgr (add_jobs js (empty_manager tok rf)) w').
Proof.
  intros [Hw Hso] Hcl Hl. pose proof Hcl as (t & Ht & Hb & _). split.
  - by eapply (claimed_serving E S ts t0 slack Hcalm Hslack Hadmit Hfinal decides decides_timeout room caps).
  - eapply sound_later; [exact Hl|]. cbn [w_db set_mgr]. rewrite (cp_db _ _ _ _ _ _ _ _ _ _ Hb). destruct Hso as [Hf Ho].
    split; [exact Hf|]. intros i f Hi. cbn [jobs_t set_jobs]. by rewrite sql_update_lookup, (Ho _ _ Hi).
  - intros j Hj. destruct (claimed_row _ _ _ _ _ Hcl Hj) as (r & _ & (_ & _ & Hv & _) & _ & Hc & _). rewrite Hv.
    apply andb_true_iff in Hc as [_ (c & Hin & [_ Hver%Z.eqb_eq]%andb_true_iff)%existsb_exists].
    rewrite <- list_elem_of_In in Hin. rewrite Forall_forall in Hvalid.
    pose proof (proj1 (capability_valid c) (Hvalid c Hin)). lia.
  - intros j Hj. destruct (claimed_row _ _ _ _ _ Hcl Hj) as (r & _ & _ & _ & _ & Hx). exact Hx.
Qed.

(** The rows of the tables of [w] that were attempted once. *)
Record settled (rs : list Job) (w w' : World) : Prop := {
  sd_distinct : NoDup (ID <$> rs);
  sd_rows r : r ∈ rs → jobs_t (w_db w) !! ID r = Some r ∧ claimable (ts (t0 + slack)) caps r = true;
  sd_others id : id ∉ ID <$> rs → jobs_t (w_db w') !! id = jobs_t (w_db w) !! id;
  sd_fate r : r ∈ rs → fate (Attempts r + 1) r (w_db w');
  sd_failed : failed_t (w_db w) ⊆ failed_t (w_db w');
  sd_handled : w_handled w' = w_handled w ++ ((λ r, (ID r, Attempts r + 1)) <$> rs)
}.

(** A row that waits is not claimed in the same window. *)
Lemma fate_unclaimed a r d x : fate a r d → jobs_t d !! ID r = Some x → claimable (ts (t0 + slack)) caps x = false.
Proof.
  intros [h t m H1 H2 H3|h t m i f H1 H2 H3 H4 H5 H6 H7|h y H1 H2 H3 H4 H5 H6 H7] Hx; [congruence..|].
  rewrite H1 in Hx. injection Hx as ->. unfold claimable, ready. rewrite (proj2 (Z.leb_gt _ _)) by lia. done.
Qed.

Lemma settled_nil w w' : w_db w' = w_db w → w_handled w' = w_handled w → settled [] w w'.
Proof. intros Hd Hh. split; [constructor|set_solver|by rewrite Hd|set_solver|by rewrite Hd|by rewrite app_nil_r]. Qed.

Lemma settled_trans rs1 rs2 w1 w2 w3 : settled rs1 w1 w2 → settled rs2 w2 w3 → settled (rs1 ++ rs2) w1 w3.
Proof.
  intros [Hn1 Hr1 Ho1 Hf1 Hl1 Hh1] [Hn2 Hr2 Ho2 Hf2 Hl2 Hh2].
  assert (∀ r1 r2, r1 ∈ rs1 → r2 ∈ rs2 → ID r1 ≠ ID r2) as Hne.
  { intros r1 r2 H1 H2 Heq. destruct (Hr2 r2 H2) as [Hl Hc]. rewrite <- Heq in Hl.
    rewrite (fate_unclaimed _ _ _ _ (Hf1 r1 H1) Hl) in Hc. done. }
  assert (∀ id, id ∈ ID <$> rs1 → id ∉ ID <$> rs2) as Hdis.
  { intros id (r1 & -> & H1)%list_elem_of_fmap (r2 & Heq & H2)%list_elem_of_fmap. by eapply Hne. }
  split.
  - rewrite fmap_app. by apply NoDup_app.
  - intros r [Hr|Hr]%elem_of_app; [auto|]. destruct (Hr2 r Hr) as [Hl Hc]. split; [|done].
    rewrite <- Ho1; [done|]. intros Hin. by eapply Hdis; [|apply list_elem_of_fmap_2].
  - intros id. rewrite fmap_app, not_elem_of_app. intros [H1 H2]. by rewrite Ho2, Ho1.
  - intros r [Hr|Hr]%elem_of_app; [|auto]. eapply fate_stable; [|done|by apply Hf1]. apply Ho2, Hdis. by apply list_elem_of_fmap_2.
  - by etrans.
  - by rewrite Hh2, Hh1, fmap_app, (assoc (++)).
Qed.

Lemma none_left_settled rs w w' : none_left w → settled rs w w' → none_left w'.
Proof.
  intros Hn [_ _ Ho Hf _ _] r Hr. destruct (decide (ID r ∈ ID <$> rs)) as [(x & Heq & Hx)%list_elem_of_fmap|Hout].
  - rewrite Heq in Hr. destruct (claimable (ts t0) caps r) eqn:Hc; [|done].
    rewrite <- (fate_unclaimed _ _ _ _ (Hf x Hx) Hr). symmetry. eapply claimable_mono; [|exact Hc]. apply ts_mono. lia.
  - apply Hn. by rewrite <- Ho.
Qed.

(** The tables after a round are again such that a worker can go on. *)
Lemma between_settled rs w w' : resting w → settled rs w w' → m_cancel (w_mgr w') = None → w_paused w' = ∅ →
  keyed (jobs_t (w_db w')) → sound (w_tick w') (w_db w') → between w'.
Proof.
  intros Hw Hs Hc Hp Hk Hso. split; [|done]. split; [done|done|done|..].
  - rewrite (sd_others _ _ _ Hs); [apply Hw|]. intros (r & Heq & Hr)%list_elem_of_fmap.
    destruct (sd_rows _ _ _ Hs r Hr) as [Hl _]. rewrite <- Heq, (rs_nil _ _ Hw) in Hl. done.
  - intros id x Hx. destruct (decide (id ∈ ID <$> rs)) as [(r & -> & Hr)%list_elem_of_fmap|Hout].
    + destruct (sd_fate _ _ _ Hs r Hr) as [h t m H1|h t m i f H1|h y H1 H2 H3 H4 H5]; [congruence..|].
      rewrite H1 in Hx. injection Hx as <-. eapply Hroom; [done|lia].
    + rewrite (sd_others _ _ _ Hs) in Hx by done. by eapply (rs_room _ _ Hw).
Qed.

Lemma wp_claim_settling Q w : between w →
  (∀ tok js w', claimed w tok js w' → later w w' → Q (Ok (js, tok)) w') →
  (∀ e w', errors_Is e ErrNoJobs = true → none_left w → later w w' → w_db w' = w_db w → w_mgr w' = w_mgr w →
     w_paused w' = w_paused w → w_handled w' = w_handled w → Q (Err e) w') →
  wp (claimBatch E S runCtx caps) Q w.
Proof.
  intros [Hw _] Hok Herr.
  assert (pres later (claimBatch E S runCtx caps)) as Hl by exact (pres_claimBatch (allowed := any_call) later S runCtx caps).
  eapply wp_mono; [apply (wp_and_later _ (λ r w', match r with
    | Ok (js, tok) => claimed w tok js w'
    | Err e => errors_Is e ErrNoJobs = true ∧ none_left w ∧ w_db w' = w_db w ∧ w_mgr w' = w_mgr w
               ∧ w_paused w' = w_paused w ∧ w_handled w' = w_handled w end) w Hl)|].
  - eapply (wp_claim_calm E S ts t0 slack Hcalm Hslack Hadmit Hfinal decides decides_timeout room caps); try done.
    intros e n He Hnone. destruct (iter_bump n w) as (? & ? & ? & ?). by split_and!.
  - intros [[js tok]|e] w' [Hr Htick]; [by apply Hok|]. destruct Hr as (? & ? & ? & ? & ? & ?). by apply Herr.
Qed.

Lemma settled_claimed w tok js w1 w' : resting w → claimed w tok js w1 →
  (∀ id, id ∉ ID <$> js → jobs_t (w_db w') !! id = jobs_t (w_db w1) !! id) →
  (∀ j, j ∈ js → fate (Attempts j) j (w_db w')) → failed_t (w_db w1) ⊆ failed_t (w_db w') →
  w_handled w' = w_handled w1 ++ ((λ j, (ID j, Attempts j)) <$> js) →
  ∃ rs, ID <$> rs = ID <$> js ∧ settled rs w w'.
Proof.
  intros Hw Hcl Ho Hf Hfl Hh. destruct (claims_taken E S ts t0 slack Hcalm Hslack Hadmit Hfinal decides decides_timeout room caps Hcaps Hdistinct
    Hvalid Hhandlers Hsize w tok js w1 Hcl) as (rs & Hids & Hatt & Hrs).
  exists rs. split; [done|]. pose proof Hcl as (t & Ht & Hb & _ & _ & _ & Hh1).
  split; [rewrite Hids; apply Hb|done| | | |by rewrite Hh, Hatt, <- Hh1].
  - intros id. rewrite Hids. intros Hid. rewrite Ho by done. rewrite (cp_db _ _ _ _ _ _ _ _ _ _ Hb). cbn [jobs_t set_jobs].
    rewrite sql_update_lookup. destruct (jobs_t (w_db w) !! id) as [x|] eqn:Hx; [|done]. cbn.
    destruct (in_ids _ x) eqn:Hin; [|done]. exfalso. apply Hid. apply in_ids_spec in Hin.
    by rewrite (rs_keyed _ _ Hw _ _ Hx) in Hin.
  - intros r Hr. assert (ID r ∈ ID <$> js) as (j & Heq & Hj)%list_elem_of_fmap by (rewrite <- Hids; by apply list_elem_of_fmap_2).
    destruct (claimed_row _ _ _ _ _ Hcl Hj) as (r' & Hr' & Hcon & Ha & _). rewrite <- Heq in Hr'.
    rewrite (proj1 (Hrs r Hr)) in Hr'. injection Hr' as <-. rewrite <- Ha.
    eapply (fate_content _ j); [|by apply Hf]. destruct Hcon as (? & ? & ? & ?). by split_and!.
  - rewrite (cp_db _ _ _ _ _ _ _ _ _ _ Hb) in Hfl. exact Hfl.
Qed.

Lemma wp_round_settles w : between w →
  wp (findAndProcessBatch E S caps) (λ r w', between w' ∧ ∃ rs, settled rs w w' ∧
    match r with
    | Ok _ => Z.of_nat (length rs) = size ∨ none_left w'
    | Err e => errors_Is e ErrNoJobs = true ∧ none_left w'
    end) w.
Proof.
  intros Hbw. pose proof Hbw as [Hw Hso]. unfold findAndProcessBatch. wp_simpl. apply wp_claim_settling; [done| |].
  2: { intros e w1 He Hnone Hl Hd1 Hm1 Hp1 Hh1. wp_simpl.
       apply wp_observed_loss. intros w' Hdb Hl2 Hm Hp Hh. wp_simpl.
       assert (settled [] w w') as Hs by (apply settled_nil; congruence).
       split; [|exists []; split_and!; [done..|by eapply none_left_settled]].
       eapply between_settled; [done|done|rewrite Hm, Hm1; apply Hw|rewrite Hp, Hp1; apply Hw|rewrite Hdb, Hd1; apply Hw|].
       rewrite Hdb, Hd1. eapply sound_later; [|exact Hso]. unfold later in *. lia. }
  intros tok js w1 Hcl Hl1. wp_simpl. unfold newBatchLeaseManager. wp_simpl.
  eapply wp_settle_jobs; [by eapply claimed_settling|].
  intros w2 Hse2 Ho2 Hf2 Hfl2 Hh2. wp_simpl. unfold stopAndWait. wp_simpl. eapply wp_lock_calm; [done|]. wp_simpl.
  unfold releaseUnstarted. wp_simpl. eapply wp_lock_calm; [done|]. wp_simpl. cbn [w_mgr bump set_mgr].
  pose proof (se_serving _ _ Hse2) as Hsv2.
  assert (outstandingIDsLocked (set_beating false (w_mgr w2)) = []) as ->.
  { unfold outstandingIDsLocked. destruct (outstanding_in _ _) as [|[id u] l] eqn:Ho; [done|].
    assert ((id, u) ∈ outstanding_in (m_ordered (w_mgr w2)) (m_outstanding (w_mgr w2))) as [_ Hu]%outstanding_in_elem
      by (cbn in Ho; rewrite Ho; set_solver).
    assert (id ∈ ID <$> ([] : list Job)) by (apply (sv_ledger _ _ _ _ _ _ Hsv2); eauto). set_solver. }
  wp_simpl. cbn [m_err set_beating]. rewrite (sv_err _ _ _ _ _ _ Hsv2).
  apply wp_observed_loss. intros w3 Hdb Hl3 Hm Hp Hh. wp_simpl. cbn in Hdb, Hm, Hp, Hh.
  destruct (settled_claimed w tok js w1 w3 Hw Hcl) as (rs & Hids & Hs); [rewrite Hdb; done..|by rewrite Hh, Hh2|].
  split.
  - eapply between_settled; [done|exact Hs|rewrite Hm; apply Hsv2|rewrite Hp; apply Hsv2|rewrite Hdb; apply Hsv2|].
    rewrite Hdb. eapply sound_later; [|apply Hse2]. unfold later in Hl3. cbn in Hl3. lia.
  - exists rs. split; [done|]. cbn. pose proof Hcl as (t & Ht & Hb & Hpre & _).
    assert (length rs = length js) as Hlen by (by rewrite <- (length_fmap ID rs), Hids, length_fmap).
    destruct (decide (Z.of_nat (length js) = size)) as [Heq|Hless]; [left; by rewrite Hlen|right].
    intros r Hr. destruct (claimable (ts t0) caps r) eqn:Hc; [|done]. exfalso. apply Hless.
    assert (claimable (ts (t0 + slack)) caps r = true) as Hc' by (eapply claimable_mono; [|exact Hc]; apply ts_mono; lia).
    destruct (decide (ID r ∈ ID <$> rs)) as [(x & Hx & Hin)%list_elem_of_fmap|Hout].
    { rewrite Hx in Hr. rewrite (fate_unclaimed _ _ _ _ (sd_fate _ _ _ Hs x Hin) Hr) in Hc'. done. }
    rewrite (sd_others _ _ _ Hs) in Hr by done. apply (Hpre Hdistinct r Hr); [|set_solver|by rewrite <- Hids].
    eapply claimable_mono; [|exact Hc]. apply ts_mono. lia.
Qed.

(** ** The worker *)

Abbreviation ripe := (claimable (ts (t0 + slack)) caps).

Lemma affected_settled rs w w' : keyed (jobs_t (w_db w)) → settled rs w w' →
  affected ripe (jobs_t (w_db w')) + Z.of_nat (length rs) = affected ripe (jobs_t (w_db w)).
Proof.
  intros Hk Hs. rewrite <- (affected_deleted ripe rs (jobs_t (w_db w)) Hk (sd_distinct _ _ _ Hs) (sd_rows _ _ _ Hs)). f_equal.
  unfold affected. do 2 f_equal. apply map_eq. intros i. apply option_eq. intros x.
  rewrite !map_lookup_filter_Some. cbn [snd]. rewrite sql_delete_lookup.
  destruct (decide (i ∈ ID <$> rs)) as [(r & -> & Hr)%list_elem_of_fmap|Hout].
  - rewrite (proj1 (sd_rows _ _ _ Hs r Hr)). rewrite (proj2 (in_ids_spec _ _)) by (by apply list_elem_of_fmap_2).
    split; [|by intros []]. intros [Hx Hc]. rewrite (fate_unclaimed _ _ _ _ (sd_fate _ _ _ Hs r Hr) Hx) in Hc. done.
  - rewrite (sd_others _ _ _ Hs) by done. destruct (jobs_t (w_db w) !! i) as [y|] eqn:Hy; [|done].
    destruct (in_ids _ y) eqn:Hin; [|done]. apply in_ids_spec in Hin. rewrite (Hk _ _ Hy) in Hin. done.
Qed.

Definition within (n : nat) (w : World) : Prop :=
  none_left w ∨ affected ripe (jobs_t (w_db w)) ≤ Z.of_nat n * size.

Lemma within_after_round n rs w w' : between w → settled rs w w' → within (Datatypes.S n) w →
  Z.of_nat (length rs) = size ∨ none_left w' → within n w'.
Proof.
  intros [Hw _] Hs [Hnone|Hn] Hr; [left; by eapply none_left_settled|]. destruct Hr as [Hr|Hr]; [right|by left].
  pose proof (affected_settled rs w w' (rs_keyed _ _ Hw) Hs). lia.
Qed.

Definition worked (w w' : World) : Prop :=
  between w' ∧ ∃ rs, settled rs w w' ∧ (Z.of_nat (length rs) = size ∨ none_left w').

Lemma wp_single_settles w : between w →
  wp (processOneAvailableSingle E S caps) (λ r w', r.2 = None ∧ worked w w') w.
Proof.
  intros Hw. unfold processOneAvailableSingle.
  assert (∀ A (a b : A), match caps with [] => a | _ :: _ => b end = b) as Hne by (intros; destruct caps; done).
  rewrite Hne. wp_simpl. eapply wp_mono; [by apply wp_round_settles|]. intros r w' [Hw' (rs & Hs & Hr)]. wp_simpl.
  destruct r as [[]|e]; [|destruct Hr as [-> Hr]]; (split; [done|]); (split; [done|eauto]).
Qed.

Lemma wp_work_settles fuel sched w : between w →
  wp (processWorkerWork E S fuel caps [] sched)
     (λ r w', ∃ b sched', r = Some (b, None, sched') ∧ worked w w') w.
Proof.
  intros Hw. unfold processWorkerWork, processOneAvailableBatch.
  destruct (preferBatch sched) eqn:Hpref; wp_simpl; cbn [is_draining_err];
    rewrite bool_decide_eq_false_2 by (by intros []); cbn [orb]; wp_simpl;
    (eapply wp_mono; [by apply wp_single_settles|]); intros [b e] w' [He Hwk]; cbn in He; subst e;
    rewrite bool_decide_eq_false_2 by (by intros []); destruct b; cbn; wp_simpl; cbn; eauto.
  wp_simpl. eauto.
Qed.

Lemma between_bump w : between w → between (bump w).
Proof. intros [Hw Hso]. split; [by destruct Hw|]. eapply sound_later; [|exact Hso]. cbn. lia. Qed.

Lemma settled_bump_l rs w w' : settled rs (bump w) w' → settled rs w w'.
Proof. by intros []. Qed.

Lemma wp_worker_settles n fuel w0 : ∀ sched rs0 w, between w → settled rs0 w0 w → within n w →
  wp (runWorker E S n fuel caps [] sched) (λ r w', r = None ∧ between w' ∧ none_left w' ∧ ∃ rs, settled rs w0 w') w.
Proof.
  induction n as [|n IH]; intros sched rs0 w Hw Hd Hin; cbn [runWorker]; wp_simpl.
  { split; [done|]. split; [done|]. split; [|eauto]. destruct Hin as [?|Hle]; [done|]. intros r Hr.
    destruct (claimable (ts t0) caps r) eqn:Hcl; [|done]. exfalso.
    assert (affected ripe (jobs_t (w_db w)) ≠ 0) as Hpos.
    { apply (affected_pos _ _ (rs_keyed _ _ (proj1 Hw))). exists (ID r), r. split; [done|].
      eapply claimable_mono; [|exact Hcl]. apply ts_mono. lia. }
    unfold affected in *. lia. }
  rewrite (calm_draining _ _ _ Hcalm). wp_simpl.
  eapply wp_mono; [by apply wp_work_settles, between_bump|]. intros r w1 (b & sched' & -> & Hw1 & rs & Hs%settled_bump_l & Hr).
  pose proof (within_after_round n rs w w1 Hw Hs Hin Hr) as Hin1.
  pose proof (settled_trans _ _ _ _ _ Hd Hs) as Hd1.
  destruct b; [by eapply IH|]. unfold waitForWorker. wp_simpl.
  eapply wp_ctx_err_calm; [done|done|apply Hw1|]. wp_simpl. rewrite (calm_draining _ _ _ Hcalm).
  rewrite bool_decide_eq_false_2 by (by intros []). rewrite orb_false_r.
  match goal with |- context [if ?c then false else false] => replace (if c then false else false) with false by (by destruct c) end.
  eapply IH; [by repeat apply between_bump|by destruct Hd1|by destruct Hin1; [left|right]].
Qed.

(** A window leaves nothing that was ready when it began, and every row it
    attempted has its fate. *)
Lemma window_settles n fuel sched w r w' : between w → affected ripe (jobs_t (w_db w)) ≤ Z.of_nat n * size →
  runWorker E S n fuel caps [] sched w = (r, w') →
  r = None ∧ between w' ∧ ∃ rs, settled rs w w'
  ∧ ∀ j, jobs_t (w_db w) !! ID j = Some j → claimable (ts t0) caps j = true → j ∈ rs.
Proof.
  intros Hw Hn Hrun. eapply wp_run in Hrun.
  2: { eapply (wp_worker_settles n fuel w); [done|by apply settled_nil|by right]. }
  destruct Hrun as (-> & Hw' & Hnone & rs & Hs). split; [done|]. split; [done|]. exists rs. split; [done|].
  intros j Hj Hcl. destruct (decide (ID j ∈ ID <$> rs)) as [(x & Heq & Hx)%list_elem_of_fmap|Hout].
  - destruct (sd_rows _ _ _ Hs x Hx) as [Hl _]. rewrite <- Heq, Hj in Hl. by injection Hl as ->.
  - exfalso. assert (claimable (ts t0) caps j = false); [|congruence]. apply Hnone. by rewrite (sd_others _ _ _ Hs).
Qed.
End window.

(** ** Windows *)

Section windows.
Context (S : Service) (ts : Z → Z) (slack maxDelay : Z) (gen : nat → JobID).
Abbreviation R := (rp_jobs (s_repo S)).
Abbreviation rf := (reserveFor (s_options S)).
Context `{!LeaseRepository ts R, !FailedRepository ts (s_failed S)}.
Context (Hslack : 0 ≤ slack < leaseFinalizationTimeout).
Context (Hadmit : slack + rf / 3 + 2 * Millisecond ≤ rf).
Context (Hfinal : slack + leaseFinalizationTimeout + batchFinalizationMargin + 2 * Millisecond ≤ rf).
Context (Hgen : ∀ i k, gen i = gen k → i = k).
Context (Hpolicy : is_Some (retryPolicy (s_options S))).
Context (Hretry : ∀ j e t, RetryTime (Some e) = None → ∃ at_,
  retryTime (retryPolicy (s_options S)) j e t 0 = Ok at_ ∧ t + slack + 2 * Millisecond ≤ at_ ≤ t + maxDelay).
Context (room : Job → bool) `{!ClaimsReady ts room R}.
Context (caps : list JobCapability).
Context (Hcaps : caps ≠ []) (Hdistinct : NoDup caps) (Hvalid : Forall (λ c, Validate c = Ok tt) caps).
Context (Hhandlers : ∀ c, c ∈ caps → ∃ h, s_jobs S !! c = Some h ∧ decides slack h).
Abbreviation size := (reservationBatchSize (s_options S)).
Context (Hsize : 1 ≤ size ≤ MaxReservationBatchSizeOf R).
Context (Hroom : ∀ c h x, s_jobs S !! c = Some h → Attempts x < h_MaxAttempts h → room x = true).
Context (rounds fuel : nat) (sched : workerSchedule).

(** The worker runs in one environment after the other. *)
Fixpoint run_windows (ws : list (Env * Z)) (w : World) : list (option (result unit)) * World :=
  match ws with
  | [] => ([], w)
  | (E, _) :: ws =>
      let '(r, w1) := runWorker E S rounds fuel caps [] sched w in
      let '(rs, w2) := run_windows ws w1 in
      (r :: rs, w2)
  end.

Lemma run_windows_cons E t ws w : run_windows ((E, t) :: ws) w =
  let '(r, w1) := runWorker E S rounds fuel caps [] sched w in
  let '(rs, w2) := run_windows ws w1 in (r :: rs, w2).
Proof. done. Qed.

(** Each window is calm at its time, and the next begins after the delay. *)
Fixpoint spaced (ws : list (Env * Z)) : Prop :=
  match ws with
  | [] => True
  | (E, t) :: ws =>
      Calm E t slack ∧ newJobID E = gen
      ∧ match ws with [] => True | (_, t') :: _ => t + slack + maxDelay ≤ t' end
      ∧ spaced ws
  end.

(** The end of a job after its attempt number [a]. *)
Inductive ended (a : Z) (r : Job) (d : Db) : Prop :=
| ended_delivered h t m : jobs_t d !! ID r = None →
    s_jobs S !! job_capability r = Some h → h_Handle h t m (Payload r) = Returns None → ended a r d
| ended_dead h t m i f : jobs_t d !! ID r = None →
    s_jobs S !! job_capability r = Some h → hopeless a h t m (Payload r) →
    failed_t d !! i = Some f → f_JobID f = ID r → f_Name f = Name r → f_Payload f = Payload r → ended a r d.

Lemma ended_content a r r' d : same_content r r' → ended a r d → ended a r' d.
Proof.
  intros Hc He. pose proof (same_capability r r' Hc) as Hcap. destruct Hc as (Hi & Hn & Hv & Hp).
  destruct He as [h t m H1 H2 H3|h t m i f H1 H2 H3 H4 H5 H6 H7].
  - by eapply (ended_delivered _ _ _ h t m); rewrite ?Hi, ?Hcap, ?Hp.
  - by eapply (ended_dead _ _ _ h t m i f); rewrite ?Hi, ?Hcap, ?Hn, ?Hp.
Qed.

Lemma ended_stable a r d d' : jobs_t d' !! ID r = None → failed_t d ⊆ failed_t d' → ended a r d → ended a r d'.
Proof.
  intros Hj Hf [h t m H1 H2 H3|h t m i f H1 H2 H3 H4 H5 H6 H7].
  - by eapply ended_delivered.
  - eapply ended_dead; [done|done|done|by eapply lookup_weaken|done..].
Qed.

(** What is known between two windows. *)
Definition idle (w : World) : Prop :=
  Progress.resting room w ∧ (∀ k, (w_tick w ≤ k)%nat → failed_t (w_db w) !! gen k = None)
  ∧ (∀ i f, failed_t (w_db w) !! i = Some f → jobs_t (w_db w) !! f_JobID f = None)
  ∧ Z.of_nat (stdpp.base.size (jobs_t (w_db w))) ≤ Z.of_nat rounds * size.

Abbreviation settled t := (Settling.settled S ts t slack maxDelay caps).

Lemma settled_dom t rs w w' : settled t rs w w' → ∀ id, jobs_t (w_db w) !! id = None → jobs_t (w_db w') !! id = None.
Proof.
  intros Hs id Hid. rewrite (sd_others _ _ _ _ _ _ _ _ _ Hs); [done|]. intros (r & -> & Hr)%list_elem_of_fmap.
  destruct (sd_rows _ _ _ _ _ _ _ _ _ Hs r Hr). congruence.
Qed.

Lemma affected_size p (t : gmap JobID Job) : affected p t ≤ Z.of_nat (stdpp.base.size t).
Proof. unfold affected. apply inj_le, map_subseteq_size, map_filter_subseteq. Qed.

Lemma one_window E t w r w' : Calm E t slack → newJobID E = gen → idle w →
  runWorker E S rounds fuel caps [] sched w = (r, w') →
  r = None ∧ idle w' ∧ ∃ rs, settled t rs w w'
  ∧ ∀ j, jobs_t (w_db w) !! ID j = Some j → claimable (ts t) caps j = true → j ∈ rs.
Proof.
  intros Hcalm Hg (Hrest & Hfresh & Honce & Hn) Hrun.
  assert (∀ i k, newJobID E i = newJobID E k → i = k) as Hinj by (by rewrite Hg).
  eapply (window_settles E S ts t slack maxDelay) in Hrun as (-> & [Hrest' [Hf' Ho']] & rs & Hs & Hall); try done.
  - split; [done|]. rewrite Hg in Hf'. split; [|by exists rs]. split_and!; [done..|].
    etrans; [|exact Hn]. apply inj_le. rewrite <- !size_dom. apply subseteq_size. intros id. rewrite !elem_of_dom.
    intros [x Hx]. apply not_eq_None_Some. intros Hnone. by rewrite (settled_dom t rs w w' Hs id Hnone) in Hx.
  - split; [done|]. split; [by rewrite Hg|done].
  - etrans; [apply affected_size|done].
Qed.

(** ** One job over the windows *)

Definition attempts_of (id : JobID) (l : list (JobID * Z)) : list (JobID * Z) := filter (λ x, x.1 = id) l.

Lemma attempts_none id rs : id ∉ ID <$> rs → attempts_of id ((λ r, (ID r, Attempts r + 1)) <$> rs) = [].
Proof.
  induction rs as [|r rs IH]; [done|]. cbn [fmap list_fmap]. rewrite not_elem_of_cons. intros [Hne Hout].
  unfold attempts_of. rewrite filter_cons_False; [by apply IH|]. cbn. congruence.
Qed.

Lemma attempts_once r rs : NoDup (ID <$> rs) → r ∈ rs →
  attempts_of (ID r) ((λ r, (ID r, Attempts r + 1)) <$> rs) = [(ID r, Attempts r + 1)].
Proof.
  induction rs as [|x rs IH]; [set_solver|]. cbn [fmap list_fmap]. intros [Hx Hnd]%NoDup_cons [->|Hr]%elem_of_cons.
  - unfold attempts_of. rewrite filter_cons_True by done. f_equal. by apply attempts_none.
  - unfold attempts_of. rewrite filter_cons_False; [by apply IH|]. cbn. intros Heq. apply Hx. rewrite Heq. by apply list_elem_of_fmap_2.
Qed.

(** A job that is gone stays gone, and is not handled again. *)
Lemma gone_stays ws w rs w' id : spaced ws → idle w → jobs_t (w_db w) !! id = None → run_windows ws w = (rs, w') →
  Forall (λ r, r = None) rs ∧ jobs_t (w_db w') !! id = None ∧ failed_t (w_db w) ⊆ failed_t (w_db w')
  ∧ attempts_of id (w_handled w') = attempts_of id (w_handled w).
Proof.
  revert w rs. induction ws as [|[E t] ws IH]; intros w rs Hsp Hw Hid; cbn [run_windows]; [by intros [= <- <-]|].
  destruct Hsp as (Hcalm & Hg & _ & Hsp). destruct (runWorker _ _ _ _ _ _ _ _) as [r w1] eqn:Hrun.
  destruct (run_windows ws w1) as [rs1 w2] eqn:Hws. intros [= <- <-].
  destruct (one_window E t w r w1 Hcalm Hg Hw Hrun) as (-> & Hw1 & done_rs & Hs & _).
  destruct (IH w1 rs1 Hsp Hw1 (settled_dom _ _ _ _ Hs id Hid) Hws) as (HF & Hg2 & Hfl & Hh). split_and!; [by constructor|done| |].
  - etrans; [apply (sd_failed _ _ _ _ _ _ _ _ _ Hs)|done].
  - rewrite Hh, (sd_handled _ _ _ _ _ _ _ _ _ Hs). unfold attempts_of. rewrite filter_app.
    fold (attempts_of id ((λ r, (ID r, Attempts r + 1)) <$> done_rs)). rewrite attempts_none, app_nil_r; [done|].
    intros (r & -> & Hr)%list_elem_of_fmap. destruct (sd_rows _ _ _ _ _ _ _ _ _ Hs r Hr). congruence.
Qed.

(** The attempts [a + 1, ..., a + k] of a job. *)
Definition attempts_from (id : JobID) (a : Z) (k : nat) : list (JobID * Z) := (λ i, (id, a + i)) <$> seqZ 1 (Z.of_nat k).

Lemma attempts_from_S id a k : attempts_from id a (Datatypes.S k) = (id, a + 1) :: attempts_from id (a + 1) k.
Proof.
  unfold attempts_from. rewrite Nat2Z.inj_succ, seqZ_cons by lia. rewrite Z.pred_succ. cbn. f_equal.
  replace (Z.succ 1) with (1 + 1) by lia. rewrite <- (fmap_add_seqZ 1 1), <- list_fmap_compose. apply list_fmap_ext. intros i x _. cbn. f_equal. lia.
Qed.

Lemma waits_claimable t t' r x h : claimable (ts (t + slack)) caps r = true → same_content r x → ReservedAt x = None →
  AvailableAt x ≤ ts (t + slack + maxDelay) → t + slack + maxDelay ≤ t' → s_jobs S !! job_capability r = Some h →
  claimable (ts t') caps x = true.
Proof.
  intros Hc (_ & Hn & Hv & _) Hres Hat Ht _. apply andb_true_iff in Hc as [_ Hex]. unfold claimable, ready.
  rewrite Hres, andb_true_r. apply andb_true_iff. split.
  - apply Z.leb_le. etrans; [exact Hat|]. by apply ts_mono.
  - unfold row_is in *. by rewrite Hn, Hv.
Qed.

(** A window attempts a ready job once, and the job ends or waits for the next. *)
Lemma first_window E t w r h res w1 : Calm E t slack → newJobID E = gen → idle w →
  jobs_t (w_db w) !! ID r = Some r → claimable (ts t) caps r = true → s_jobs S !! job_capability r = Some h →
  runWorker E S rounds fuel caps [] sched w = (res, w1) →
  res = None ∧ idle w1 ∧ failed_t (w_db w) ⊆ failed_t (w_db w1)
  ∧ attempts_of (ID r) (w_handled w1) = attempts_of (ID r) (w_handled w) ++ [(ID r, Attempts r + 1)]
  ∧ (ended (Attempts r + 1) r (w_db w1)
     ∨ ∃ x, jobs_t (w_db w1) !! ID x = Some x ∧ same_content r x ∧ Attempts x = Attempts r + 1
         ∧ Attempts x < h_MaxAttempts h ∧ ∀ t', t + slack + maxDelay ≤ t' → claimable (ts t') caps x = true).
Proof.
  intros Hcalm Hg Hw Hr Hcl Hh Hrun.
  destruct (one_window E t w res w1 Hcalm Hg Hw Hrun) as (-> & Hw1 & done_rs & Hs & Hall).
  pose proof (Hall r Hr Hcl) as Hin. destruct (sd_rows _ _ _ _ _ _ _ _ _ Hs r Hin) as [_ Hripe].
  split_and!; [done|done|apply Hs| |].
  - rewrite (sd_handled _ _ _ _ _ _ _ _ _ Hs). unfold attempts_of at 1. rewrite filter_app.
    fold (attempts_of (ID r) (w_handled w)). f_equal. apply attempts_once; [apply Hs|done].
  - destruct (sd_fate _ _ _ _ _ _ _ _ _ Hs r Hin)
      as [h' t1 m H1 H2 H3|h' t1 m i f H1 H2 H3 H4 H5 H6 H7|h' x H1 H2 H3 H4 H5 H6 H7].
    + left. by eapply ended_delivered.
    + left. by eapply ended_dead.
    + right. exists x. assert (ID x = ID r) as Hid by apply H4. rewrite Hh in H2. injection H2 as <-.
      split_and!; [by rewrite Hid|done|done|lia|]. intros t' Ht'. eapply waits_claimable; try done. apply H7.
Qed.

(** A job in the queue when the first of enough windows begins. *)
Lemma job_ends ws : ∀ E t w r h rs w', spaced ((E, t) :: ws) → idle w →
  jobs_t (w_db w) !! ID r = Some r → claimable (ts t) caps r = true → s_jobs S !! job_capability r = Some h →
  h_MaxAttempts h - Attempts r ≤ Z.of_nat (Datatypes.S (length ws)) →
  run_windows ((E, t) :: ws) w = (rs, w') →
  Forall (λ r, r = None) rs ∧ failed_t (w_db w) ⊆ failed_t (w_db w')
  ∧ ∃ k, (1 ≤ k)%nat ∧ Z.of_nat k ≤ Z.max 1 (h_MaxAttempts h - Attempts r)
    ∧ ended (Attempts r + Z.of_nat k) r (w_db w')
    ∧ attempts_of (ID r) (w_handled w') = attempts_of (ID r) (w_handled w) ++ attempts_from (ID r) (Attempts r) k.
Proof.
  induction ws as [|[E' t'] ws IH]; intros E t w r h rs w' Hsp Hw Hr Hcl Hh Hn;
    rewrite run_windows_cons; destruct Hsp as (Hcalm & Hg & Hgap & Hsp); destruct (runWorker E _ _ _ _ _ _ _) as [res w1] eqn:Hrun;
    destruct (first_window E t w r h res w1 Hcalm Hg Hw Hr Hcl Hh Hrun) as (-> & Hw1 & Hfl1 & Hat1 & Hend).
  - intros [= <- <-]. split; [by constructor|]. split; [done|]. cbn in Hn.
    destruct Hend as [Hend|(x & _ & _ & Hax & Hmax & _)]; [|lia]. exists 1%nat. by split_and!; [lia|lia|..].
  - destruct (run_windows ((E', t') :: ws) w1) as [rs1 w2] eqn:Hws. intros [= <- <-].
    destruct Hend as [Hend|(x & Hx & Hcon & Hax & Hmax & Hready)].
    + assert (jobs_t (w_db w1) !! ID r = None) as Hgone by (by destruct Hend).
      destruct (gone_stays ((E', t') :: ws) w1 rs1 w2 (ID r) Hsp Hw1 Hgone Hws) as (HF & Hgone2 & Hfl2 & Hat2).
      split; [by constructor|]. split; [by etrans|]. exists 1%nat.
      split_and!; [lia|lia|by eapply ended_stable|by rewrite Hat2, Hat1].
    + assert (ID x = ID r) as Hid by apply Hcon. rewrite <- (same_capability r x Hcon) in Hh.
      destruct (IH E' t' w1 x h rs1 w2 Hsp Hw1 Hx (Hready t' Hgap) Hh) as (HF & Hfl2 & k & Hk1 & Hk2 & Hend & Hat2);
        [cbn [length] in Hn; lia|exact Hws|].
      split; [by constructor|]. split; [by etrans|]. exists (Datatypes.S k). rewrite Hid, Hax in *. split_and!; [lia|lia| |].
      * replace (Attempts r + Z.of_nat (Datatypes.S k)) with (Attempts r + 1 + Z.of_nat k) by lia.
        eapply (ended_content _ x); [|done]. destruct Hcon as (? & ? & ? & ?). by split_and!.
      * by rewrite Hat2, Hat1, attempts_from_S, <- (assoc (++)).
Qed.

(** C14: no job is retried for ever.  Let the worker run in calm windows, each
    beginning after the retry delay of the one before, with handlers that
    succeed, fail and panic as they like but leave the timing to the policy.  A
    job that is ready when the first window begins is attempted in consecutive
    windows, with consecutive attempt numbers and never more often than its
    handler allows; within as many windows as it has attempts left it is gone
    from the queue: its handler returned nil, or it is recorded among the
    failed jobs with its content, after a permanent failure or its last
    attempt. *)
Theorem every_job_ends E t ws w r h rs w' : spaced ((E, t) :: ws) → idle w →
  jobs_t (w_db w) !! ID r = Some r → claimable (ts t) caps r = true → s_jobs S !! job_capability r = Some h →
  h_MaxAttempts h - Attempts r ≤ Z.of_nat (Datatypes.S (length ws)) →
  run_windows ((E, t) :: ws) w = (rs, w') →
  Forall (λ r, r = None) rs
  ∧ ∃ k, (1 ≤ k)%nat ∧ Z.of_nat k ≤ Z.max 1 (h_MaxAttempts h - Attempts r)
    ∧ ended (Attempts r + Z.of_nat k) r (w_db w')
    ∧ attempts_of (ID r) (w_handled w') = attempts_of (ID r) (w_handled w) ++ attempts_from (ID r) (Attempts r) k.
Proof.
  intros Hsp Hw Hr Hcl Hh Hn Hrun.
  by destruct (job_ends ws E t w r h rs w' Hsp Hw Hr Hcl Hh Hn Hrun) as (HF & _ & Hk).
Qed.
End windows.
