(* ===== verification/Samples.v ===== *)
(** * Concrete runs

    A small PostgreSQL-backed service and its environment, and the theorems of
    the library applied to runs of it: the hypotheses of every theorem hold of
    an executable configuration, and the runs do the work (jobs are claimed,
    handled, dead-lettered and settled). *)

From stdpp Require Import pretty.
From S2P Require Import Prelude GoTime Errors Models Retry Batch Fingerprint Sql Repo Stats Options PgJobs.
From S2P Require Import PgUnique PgReads SqliteJobs Fencing Runtime LeaseManager Footprint Service ExecBatch.
From S2P Require Import WorkerFootprint Refinement ExecProofs Api.
Open Scope Z_scope.

(** ** The configuration *)

(** timestamptz keeps microseconds; the sample truncates to them. *)
Definition micro (t : Z) : Z := t / 1000 * 1000.

#[global] Instance micro_rounding : Rounding micro.
Proof.
  split; unfold micro, Millisecond, Microsecond, Nanosecond.
  - intros a b Hab. pose proof (Z.div_le_mono a b 1000). lia.
  - intros a. by rewrite Z.div_mul by lia.
  - intros a. pose proof (Z.div_mod a 1000). pose proof (Z.mod_pos_bound a 1000). lia.
Qed.

Definition start : Z := 1700000000 * Second.

Definition sample_env : Env := {|
  clock t := start + Z.of_nat t * Millisecond;
  newLeaseToken k := (1000 + N.of_nat k)%N;
  newJobID k := (5000 + N.of_nat k)%N;
  others _ d := d;
  fault _ := None;
  commit_fault _ := None;
  run_cause _ := None;
  draining _ := false;
  beats _ := 1%nat;
  lock_timeout _ := None;
  held _ := ∅;
  sink _ := true;
  timer_first _ := false;
  uuid_text id := pretty id
|}.

(** A handler that answers by its payload. *)
Definition answer (payload : string) : option err :=
  if decide (payload = "poison") then Permanent (Some (EText "poison"))
  else if decide (payload = "again") then RetryAt (Some (EText "busy")) (start + Minute)
  else None.

Definition mail : JobCapability := {| cap_Name := "mail"; cap_SchemaVersion := 1 |}.
Definition audit : JobCapability := {| cap_Name := "audit"; cap_SchemaVersion := 2 |}.

Definition mail_handler : Handler :=
  {| h_Name := "mail"; h_SchemaVersion := None; h_ExecutionTimeout := Second; h_MaxAttempts := 3;
     h_Handle _ _ payload := Returns (answer payload) |}.

Definition audit_handler : BatchHandler :=
  {| bh_Name := "audit"; bh_SchemaVersion := Some 2; bh_ExecutionTimeout := Second; bh_MaxAttempts := 3;
     bh_HandleBatch _ items :=
       Returns ((λ i, {| r_JobID := item_JobID i; r_Err := answer (item_Payload i) |}) <$> items, None) |}.

Definition audit_config : BatchConfig := {| MaxMessages := 4; MaxBytes := 1024; MaxWait := 20 * Millisecond |}.

Definition sample_stats : JobsStatRepository := PgReads.GetQueueStats micro capability_less.

Definition pg_repo : Repository :=
  {| rp_jobs := Pg.repository micro; rp_batch := Some (Pg.batch_repository micro);
     rp_unique := Some (PgUnique.unique_repository micro id);
     rp_unique_batch := Some (PgUnique.unique_repository micro id); rp_stats := Some sample_stats |}.

Definition sample_options : list (Options → Options) :=
  [WithJobsRepo (Some pg_repo); WithJobsFailedRepo (Some (PgReads.failed_repository micro));
   WithTransactor (Some {| tx_SupportsAtomicDLQ := Some true |}); WithReservationBatchSize 5;
   WithReserveFor Minute; WithObserver true].

Definition stopped : Service :=
  mkService (set_atomicDLQ true (detectOptionalRepositories (apply_options sample_options default_options)))
    pg_repo (PgReads.failed_repository micro) ∅ ∅ false.

(** The registries as registration leaves them. *)
Definition sample_service : Service :=
  mkService (s_options stopped) (s_repo stopped) (s_failed stopped)
    (s_jobs (RegisterJobs [Some mail_handler] stopped).2)
    (s_batchJobs (RegisterBatchJob (Some audit_handler) audit_config stopped).2) false.

(** Jobs are put through the repository, one by one. *)
Fixpoint put_jobs (R : JobsRepository) (id : JobID) (jobs : list (JobCapability * string)) (d : Db) : Db :=
  match jobs with
  | [] => d
  | (c, payload) :: jobs =>
      put_jobs R (N.succ id) jobs
        (CreateJobVersioned R id (start - Second) (cap_Name c) (cap_SchemaVersion c) payload (start - Second) d).2
  end.

Definition sample_db : Db :=
  put_jobs (Pg.repository micro) 1
    [(mail, "hello"); (mail, "poison"); (audit, "a"); (mail, "again"); (audit, "poison")] empty_db.

Definition idle_manager : Manager := mkManager LeaseTokenNil Minute [] ∅ zeroTime None None false.
Definition world_of (d : Db) : World := mkWorld d 0 idle_manager ∅ ∅ [] [].
Definition w0 : World := world_of sample_db.

(** What the runs below do. *)
Definition single_run : result unit * World := findAndProcessBatch sample_env sample_service [mail] w0.
Definition batch_run_sample : option (bool * option err) * World :=
  findAndProcessExecutionBatch sample_env sample_service 100 audit w0.

Example single_run_works :
  single_run.1 = Ok tt ∧ w_handled single_run.2 = [(1%N, 1); (2%N, 1); (4%N, 1)]
  ∧ (e_Kind <$> w_events single_run.2) = [OutcomeACKConfirmed; OutcomeDLQCommitted; OutcomeRetryPersisted]
  ∧ (map_to_list (jobs_t (w_db single_run.2))).*1 ≡ₚ [3%N; 4%N; 5%N]
  ∧ (f_JobID <$> (map_to_list (failed_t (w_db single_run.2))).*2) = [2%N].
Proof. split_and!; [vm_compute; reflexivity..| |vm_compute; reflexivity]. apply (bool_decide_unpack _). vm_compute. exact I. Qed.

(** ** Deciding the hypotheses *)

Lemma keyed_check t : bool_decide (map_Forall (λ id j, ID j = id) t) = true → keyed t.
Proof. intros Ht. by apply bool_decide_eq_true in Ht. Qed.

(** A computable [managed]. *)
Definition lease_covered (tok : LeaseToken) (m : Manager) (id : JobID) (j : Job) : bool :=
  negb (LeaseTokenOf j =? tok)%N ||
  match m_outstanding m !! id, ReservedAt j with
  | None, _ => true
  | Some _, None => false
  | Some u, Some r => micro u <=? r
  end.

Definition managed_check (tok : LeaseToken) (w : World) : bool :=
  let m := w_mgr w in
  (m_token m =? tok)%N && (0 <? m_reserveFor m) && (0 <=? m_earliest m)
  && bool_decide (map_Forall (λ id u, 0 < m_earliest m ∧ m_earliest m ≤ u ∧ 0 < u ∧ id ∈ m_ordered m) (m_outstanding m))
  && bool_decide (map_Forall (λ id j, ID j = id) (jobs_t (w_db w)))
  && bool_decide (map_Forall (λ id j, lease_covered tok m id j = true) (jobs_t (w_db w))).

Lemma managed_check_ok tok w : managed_check tok w = true → managed micro tok w.
Proof.
  unfold managed_check. rewrite !andb_true_iff, N.eqb_eq, Z.ltb_lt, Z.leb_le, !bool_decide_eq_true.
  intros (((((Ht & Hr) & He) & Ho) & Hk) & Hs).
  split; [done..| |done|].
  - split; [done|..]; intros id u Hu; destruct (Ho _ _ Hu) as (? & ? & ? & ?); done.
  - intros id u j Hu Hj Htok. specialize (Hs id j Hj). unfold lease_covered in Hs.
    rewrite Htok, N.eqb_refl, Hu in Hs. cbn in Hs. destruct (ReservedAt j) as [r|]; [|done]. exists r.
    split; [done|]. by apply Z.leb_le.
Qed.

Lemma sample_tokens k t d id j : jobs_t (others sample_env t d) !! id = Some j →
  LeaseTokenOf j = newLeaseToken sample_env k → jobs_t d !! id = Some j.
Proof. done. Qed.
Lemma sample_others tok t d id j : jobs_t (others sample_env t d) !! id = Some j →
  LeaseTokenOf j = tok → jobs_t d !! id = Some j.
Proof. done. Qed.
Lemma sample_keyed t d : keyed (jobs_t d) → keyed (jobs_t (others sample_env t d)).
Proof. done. Qed.
Lemma sample_clock t : 0 < clock sample_env t.
Proof. cbn. unfold start, Second, Millisecond, Microsecond, Nanosecond. lia. Qed.
Lemma keyed_w0 : keyed (jobs_t (w_db w0)).
Proof. apply keyed_check. vm_compute. reflexivity. Qed.

(** A batch in progress: claimed, its lease manager set up. *)
Definition claim_run := claimBatch sample_env sample_service runCtx [mail] w0.
Definition claimed_jobs : list Job := match claim_run.1 with Ok (jobs, _) => jobs | Err _ => [] end.
Definition tok1 : LeaseToken := match claim_run.1 with Ok (_, tok) => tok | Err _ => LeaseTokenNil end.
Definition w1 : World := (newBatchLeaseManager claimed_jobs tok1 Minute claim_run.2).2.

Lemma managed_w1 : managed micro tok1 w1.
Proof. apply managed_check_ok. vm_compute. reflexivity. Qed.

Example claim_works : (ID <$> claimed_jobs) = [1%N; 2%N; 4%N] ∧ tok1 = 1001%N
  ∧ (map_to_list (m_outstanding (w_mgr w1))).*1 ≡ₚ [1%N; 2%N; 4%N].
Proof. split_and!; [vm_compute; reflexivity..|]. apply (bool_decide_unpack _). vm_compute. exact I. Qed.

(** An execution batch in progress. *)
Definition audit_claim : result (list Job) * World :=
  claimExecutionBatchForFill sample_env sample_service runCtx (Pg.batch_repository micro) audit 1500%N
    {| lim_MaxMessages := 4; lim_MaxBytes := 1024 |} w0.
Definition audit_jobs : list Job := default [] (match audit_claim.1 with Ok jobs => Some jobs | Err _ => None end).
Definition w2 : World := (newBatchLeaseManager audit_jobs 1500%N Minute audit_claim.2).2.

Lemma managed_w2 : managed micro 1500%N w2.
Proof. apply managed_check_ok. vm_compute. reflexivity. Qed.

Definition audit_outcomes : list BatchJobOutcome :=
  [{| o_JobID := 3%N; o_Kind := BatchJobOutcomeSuccess; o_AvailableAt := zeroTime; o_Reason := "" |};
   {| o_JobID := 5%N; o_Kind := BatchJobOutcomeDLQ; o_AvailableAt := zeroTime; o_Reason := "poison" |}].

Example audit_claim_works : (ID <$> audit_jobs) = [3%N; 5%N].
Proof. vm_compute. reflexivity. Qed.

(** The SQLite claim answers with the deadline it was asked for, while the row
    keeps milliseconds: the claimed deadline can be the later of the two. *)
Definition sqlite_claim : result (list Job) * Db :=
  FindAndReserveJobsForCapabilities Sqlite.repository ∅ start (start + Minute + 1) 7%N [mail] 1
    (put_jobs Sqlite.repository 1 [(mail, "hello")] empty_db).

Example sqlite_claim_deadline_diverges :
  (∃ j, sqlite_claim.1 = Ok [j] ∧ ReservedAt j = Some (start + Minute + 1))
  ∧ (jobs_t sqlite_claim.2 !! 1%N ≫= ReservedAt) = Some (start + Minute).
Proof. split; [eexists; split|]; vm_compute; reflexivity. Qed.
