(* ===== verification/Witnesses.v ===== *)
(** * The theorems applied to concrete runs

    Each lemma instantiates one theorem at the configuration of [Samples] and
    discharges its hypotheses there. *)

From S2P Require Import Prelude GoTime Errors Models Retry Batch Fingerprint Sql Repo Stats Options PgJobs.
From S2P Require Import PgUnique PgReads SqliteJobs Backends Fencing Transactions Runtime LeaseManager Footprint Service.
From S2P Require Import ExecBatch WorkerFootprint Refinement ExecProofs Api Samples.
Open Scope Z_scope.

#[local] Existing Instances Pg.pg_lease_repository Pg.pg_batch_repository PgUnique.pg_unique_repository
  PgReads.pg_failed_repository PgReads.pg_stats_repository.

Abbreviation PR := (Pg.repository micro).
Abbreviation PB := (Pg.batch_repository micro).
Abbreviation PU := (PgUnique.unique_repository micro id).

Lemma ok_run {A B} (p : A * B) {a} : p.1 = a → p = (a, p.2).
Proof. by destruct p as [? ?]; cbn; intros ->. Qed.

(** ** Contracts *)

Lemma pg_keeps_contracts_witness :
  LeaseRepository micro PR ∧ BatchRepository micro PB ∧ UniqueRepository micro (jobFingerprint id) PU
  ∧ FailedRepository micro (PgReads.failed_repository micro).
Proof. exact (pg_keeps_contracts micro id micro_rounding). Defined.

(** ** Registration *)

Lemma stopped_ok : registered_ok stopped.
Proof. split; cbn; intros; set_solver. Qed.

Lemma RegisterJobs_atomic_witness :
  (RegisterJobs [Some mail_handler] stopped).1 = Ok tt
  ∧ registered_ok (RegisterJobs [Some mail_handler] stopped).2.
Proof.
  split; [reflexivity|].
  apply (RegisterJobs_atomic [Some mail_handler] stopped _ _ stopped_ok (surjective_pairing _)).
Defined.

Lemma RegisterBatchJob_sound_witness :
  (RegisterBatchJob (Some audit_handler) audit_config stopped).1 = Ok tt
  ∧ registered_ok (RegisterBatchJob (Some audit_handler) audit_config stopped).2.
Proof.
  split; [reflexivity|].
  apply (RegisterBatchJob_sound (Some audit_handler) audit_config stopped _ _ stopped_ok (surjective_pairing _)).
Defined.

(** ** Lease manager *)

Definition ensure_run : result unit * World :=
  ensureLeasesLocked sample_env PR runCtx (start + 2 * Minute) (start + 3 * Minute) w1.

Lemma ensureLeasesLocked_sound_witness :
  ensure_run.1 = Ok tt ∧ managed micro tok1 ensure_run.2
  ∧ ∃ u, m_outstanding (w_mgr ensure_run.2) !! 1%N = Some u ∧ start + 3 * Minute ≤ u.
Proof.
  split_and!; [vm_compute; reflexivity| |]. 2: { exists (start + 3 * Minute + Millisecond). by split; vm_compute. }
  exact (proj1 (ensureLeasesLocked_sound sample_env PR micro tok1 (sample_others tok1) sample_keyed sample_clock
           runCtx (start + 2 * Minute) (start + 3 * Minute) w1 ensure_run.1 ensure_run.2 managed_w1 eq_refl
           (surjective_pairing _))).
Defined.

Lemma heartbeat_sound_witness : managed micro tok1 (run sample_env PR batchCtx 5 w1).2.
Proof.
  exact (proj1 (heartbeat_sound sample_env PR micro tok1 (sample_others tok1) sample_keyed sample_clock batchCtx 5 w1
           _ _ managed_w1 (surjective_pairing _))).
Defined.

Lemma admit_margin_witness : m_outstanding (w_mgr (manager_admit sample_env PR batchCtx w1).2) ≠ ∅.
Proof.
  assert ((manager_admit sample_env PR batchCtx w1).1 = Ok tt) as Hok by (vm_compute; reflexivity).
  exact (proj1 (proj2 (admit_margin sample_env PR micro tok1 (sample_others tok1) sample_keyed sample_clock batchCtx w1 _ managed_w1
           (ok_run _ Hok)))).
Defined.

Definition finalize_run : result unit * World :=
  finalize sample_env PR batchCtx 1%N (λ _ w, (Ok tt, w)) w1.

Lemma finalization_window_witness :
  finalize_run.1 = Ok tt ∧ ∃ w deadline,
    deadline = clock sample_env (w_tick w1) + leaseFinalizationTimeout
    ∧ managed micro tok1 w ∧ is_Some (m_outstanding (w_mgr w) !! 1%N).
Proof.
  split; [vm_compute; reflexivity|].
  destruct (finalization_window sample_env PR micro tok1 (sample_others tok1) sample_keyed sample_clock
              batchCtx 1%N (λ _ w, (Ok tt, w)) w1 finalize_run.1 finalize_run.2 managed_w1 (surjective_pairing _))
    as [(_ & _ & Hno)|(w & deadline & _ & _ & Hd & Hm & _ & Hin & _)].
  - exfalso. apply Hno. vm_compute. reflexivity.
  - exists w, deadline. exact (conj Hd (conj Hm Hin)).
Defined.

Definition release_run : result unit * World := releaseUnstarted sample_env PR runCtx w1.

Lemma release_unstarted_returns_jobs_witness :
  m_outstanding (w_mgr release_run.2) = ∅ ∧ Attempts <$> jobs_t (w_db release_run.2) !! 4%N = Some 0.
Proof.
  split; [|vm_compute; reflexivity].
  assert (release_run.1 = Ok tt) as Hok by (vm_compute; reflexivity).
  exact (proj1 (release_unstarted_returns_jobs sample_env PR micro tok1 (sample_others tok1) sample_keyed sample_clock
           runCtx w1 _ managed_w1 (ok_run _ Hok))).
Defined.

(** ** Workers *)


Definition poison_job : Job := default (mkJob 0 "" "" 0 "" 0 None 0 None 0 0) (claimed_jobs !! 1%nat).
Definition process_run : bool * result unit * World := processBatchJob sample_env sample_service batchCtx poison_job w1.


Definition dlq_run : result unit * World := dlqBatch sample_env sample_service poison_job "poison" w1.

Lemma dlq_atomic_witness :
  dlq_run.1 = Ok tt ∧ jobs_t (w_db dlq_run.2) = delete (ID poison_job) (jobs_t (w_db w1)).
Proof.
  assert (dlq_run.1 = Ok tt) as Hok by (vm_compute; reflexivity). split; [exact Hok|].
  destruct (dlq_atomic sample_env sample_service micro sample_keyed poison_job "poison" w1 dlq_run.1 dlq_run.2
              eq_refl (mg_keyed _ _ _ managed_w1) (surjective_pairing _))
    as [[_ Hno]|(t & row & newID & fa & ca & _ & _ & Hdel & _)].
  - by destruct (Hno Hok).
  - exact Hdel.
Defined.

Lemma claimBatch_sound_witness :
  claimed sample_env sample_service micro [mail] w0 claimed_jobs tok1 claim_run.2.
Proof.
  apply (claimBatch_sound sample_env sample_service micro sample_keyed sample_clock runCtx [mail] w0 claimed_jobs tok1).
  - exact keyed_w0.
  - apply (ok_run claim_run). vm_compute. reflexivity.
Defined.

Lemma pause_holds_until_witness :
  (batchCapabilityPaused audit 50 (pauseBatchCapability audit 100 w0).2).1 = true
  ∧ (batchCapabilityPaused audit 50 (pauseBatchCapability audit 100 w0).2).1
    = (50 <? Z.max 100 (paused_until (w_paused w0) audit)).
Proof.
  split; [vm_compute; reflexivity|].
  exact (proj1 (pause_holds_until audit 100 50 w0 (pauseBatchCapability audit 100 w0).2 _ _ eq_refl (λ e, ltac:(discriminate e))
           eq_refl (surjective_pairing _))).
Defined.

(** ** Interleavings *)

(** Job 1 is put, claimed under token 7, its lease expires, token 8 claims it
    and deletes it; token 7 comes too late. *)
Definition late : Z := start + 10 * Minute.
Definition put_db : Db := (CreateJobVersioned PR 1 start "mail" 1 "hello" start empty_db).2.
Definition claim7_db : Db :=
  (FindAndReserveJobsForCapabilities PR ∅ start (start + Minute) 7 [mail] 5 put_db).2.
Definition claim8_db : Db :=
  (FindAndReserveJobsForCapabilities PR ∅ late (late + Minute) 8 [mail] 5 claim7_db).2.
Definition extend7_db : Db := (ExtendJobLeases PR [1%N] 7 late (late + Minute) claim8_db).2.
Definition delete8_db : Db := (DeleteJobWithLease PR 1 8 (late + Second) claim8_db).2.
Definition again8_db : Db := (DeleteJobWithLease PR 1 8 (late + Second) delete8_db).2.

Definition sys_put : Sys := mkSys put_db ∅ [].
Definition sys_claim7 : Sys := mkSys claim7_db ({[7%N]} ∪ ∅) [].
Definition sys_claim8 : Sys := mkSys claim8_db ({[8%N]} ∪ ({[7%N]} ∪ ∅)) [].
Definition sys_extend7 : Sys := mkSys extend7_db (sys_used sys_claim8) [].

Definition log_of (id : JobID) (tok : LeaseToken) (now : Z) (d : Db) : list (LeaseToken * JobID) :=
  log_ok (DeleteJobWithLease PR id tok now d).1 (settled tok (owned [id] tok (micro now)) (jobs_t d)).
Definition sys_delete8 : Sys := mkSys delete8_db (sys_used sys_claim8) ([] ++ log_of 1 8 (late + Second) claim8_db).
Definition sys_again8 : Sys :=
  mkSys again8_db (sys_used sys_claim8) (sys_log sys_delete8 ++ log_of 1 8 (late + Second) delete8_db).

Lemma put_step : step micro PR PB PU None initial sys_put.
Proof. exact (step_create _ _ _ _ initial 1 start "mail" 1 "hello" start _ _ (surjective_pairing _)). Qed.
Lemma claim7_step : step micro PR PB PU (Some 7%N) sys_put sys_claim7.
Proof. exact (step_claim _ _ _ _ sys_put ∅ start (start + Minute) 7%N [mail] 5 _ _ (surjective_pairing _)). Qed.
Lemma claim8_step : step micro PR PB PU (Some 8%N) sys_claim7 sys_claim8.
Proof. exact (step_claim _ _ _ _ sys_claim7 ∅ late (late + Minute) 8%N [mail] 5 _ _ (surjective_pairing _)). Qed.
Lemma extend7_step : step micro PR PB PU None sys_claim8 sys_extend7.
Proof. exact (step_extend _ _ _ _ sys_claim8 [1%N] 7%N late (late + Minute) _ _ (surjective_pairing _)). Qed.
Lemma delete8_step : step micro PR PB PU None sys_claim8 sys_delete8.
Proof. exact (step_delete _ _ _ _ sys_claim8 1%N 8%N (late + Second) _ _ (surjective_pairing _)). Qed.
Lemma again8_step : step micro PR PB PU None sys_delete8 sys_again8.
Proof. exact (step_delete _ _ _ _ sys_delete8 1%N 8%N (late + Second) _ _ (surjective_pairing _)). Qed.

Lemma claim7_reachable : reachable micro PR PB PU initial sys_claim7.
Proof.
  eapply rtc_l; [exists None; exact put_step|]. apply rtc_once. exists (Some 7%N). exact claim7_step.
Qed.
Lemma claim8_reachable : reachable micro PR PB PU initial sys_claim8.
Proof. eapply rtc_r; [exact claim7_reachable|]. exists (Some 8%N). exact claim8_step. Qed.

Example interleaving_works :
  (LeaseTokenOf <$> jobs_t claim8_db !! 1%N) = Some 8%N ∧ (Attempts <$> jobs_t claim8_db !! 1%N) = Some 2
  ∧ jobs_t delete8_db !! 1%N = None ∧ sys_log sys_delete8 = [(8%N, 1%N)].
Proof. split_and!; vm_compute; reflexivity. Qed.

Lemma interleaving_invariant_witness : Inv sys_claim8.
Proof. exact (interleaving_invariant micro PR PB PU (jobFingerprint id) sys_claim8 claim8_reachable). Defined.

Definition claim8 : result (list Job) * Db :=
  FindAndReserveJobsForCapabilities PR ∅ late (late + Minute) 8 [mail] 5 claim7_db.

Lemma claimed_jobs_typed_witness : ∃ j, claim8.1 = Ok [j] ∧ JobIDFromContext (withJobMetadata j) = 1%N.
Proof.
  assert (∃ j, claim8.1 = Ok [j] ∧ ID j = 1%N) as (j & Hj & Hid) by (vm_compute; eauto).
  exists j. split; [exact Hj|]. rewrite <- Hid.
  refine (proj2 (proj2 (proj2 (proj2 (proj2 (claimed_jobs_typed micro PR PB PU (jobFingerprint id) sys_claim7 ∅ late
    (late + Minute) 8 [mail] 5 [j] claim8.2 claim7_reachable _ _ _ j _)))))).
  - vm_compute. reflexivity.
  - repeat constructor.
  - rewrite <- Hj. exact (surjective_pairing claim8).
  - by left.
Defined.

Lemma stale_lease_fenced_witness :
  ∃ j, jobs_t extend7_db !! 1%N = Some j ∧ LeaseTokenOf j ≠ 7%N ∧ owned [1%N] 7%N late j = false.
Proof.
  eexists. split; [vm_compute; reflexivity|].
  apply (stale_lease_fenced micro PR PB PU (jobFingerprint id) sys_claim8 sys_extend7 7%N 1%N claim8_reachable).
  - apply rtc_once. exists None. split; [discriminate|exact extend7_step].
  - discriminate.
  - intros j Hj. vm_compute in Hj. injection Hj as <-. discriminate.
  - vm_compute. reflexivity.
Defined.

Lemma lease_settled_once_witness : (8%N, 1%N) ∈ sys_log sys_delete8 ∧ (8%N, 1%N) ∉ log_of 1 8 (late + Second) delete8_db.
Proof.
  assert ((8%N, 1%N) ∈ sys_log sys_delete8) as Hin by (vm_compute; left). split; [exact Hin|].
  refine (lease_settled_once micro PR PB PU (jobFingerprint id) None sys_claim8 sys_delete8 sys_delete8 None sys_again8
           8%N 1%N claim8_reachable delete8_step _ Hin (rtc_refl _ _) again8_step _ eq_refl).
  apply not_elem_of_nil.
Defined.



(** ** The worker and the protocol *)

Lemma sample_batch_repo B' : rp_batch (s_repo sample_service) = Some B' → B' = PB.
Proof. intros [= <-]. reflexivity. Qed.
Lemma sample_moves t d : moves sample_service micro PB PU d (others sample_env t d).
Proof. intros used log. exists used, log. apply rtc_refl. Qed.

Definition worker_run : option (result unit) * World :=
  runWorker sample_env sample_service 4 100 [mail] [audit] {| batchCursor := 0; preferBatch := true |} w0.

(** Four rounds handle both kinds of work. *)
Example worker_works : w_handled worker_run.2 = [(3%N, 1); (5%N, 1); (1%N, 1); (2%N, 1); (4%N, 1)].
Proof. vm_compute. reflexivity. Qed.


Lemma w0_inv : Inv (mkSys (w_db w0) ∅ []).
Proof.
  split; cbn [sys_db sys_used].
  - exact keyed_w0.
  - assert (map_Forall (λ _ j, Attempts j = 0 ∧ 0 < SchemaVersionOf j ∧ LeaseTokenOf j = LeaseTokenNil
              ∧ ReservedAt j = None) (jobs_t (w_db w0))) as Hall
      by (apply (bool_decide_unpack _); vm_compute; exact I).
    intros id j (Ha & ? & ? & ?)%Hall. split; [lia|]. split; [done|]. by left.
  - split.
    + assert (map_Forall (λ _ j, DeduplicationKey j = None) (jobs_t (w_db w0))) as Hall
        by (apply (bool_decide_unpack _); vm_compute; exact I).
      intros id j k Hj Hk. by rewrite (Hall id j Hj) in Hk.
    + change (keys_t (w_db w0)) with (∅ : gmap string IdemKey). intros *. rewrite lookup_empty. done.
Qed.

Lemma worker_preserves_invariant_witness : ∃ used' log', Inv (mkSys (w_db worker_run.2) used' log').
Proof.
  exact (worker_preserves_invariant sample_env sample_service micro PB PU (jobFingerprint id) sample_batch_repo
           sample_moves 4 100 [mail] [audit] {| batchCursor := 0; preferBatch := true |} w0 worker_run.1 worker_run.2
           ∅ [] w0_inv (surjective_pairing _)).
Defined.

(** ** Execution batches *)

Definition fill_run : option (list Job * option err) * World :=
  fillExecutionBatch sample_env sample_service 40 batchCtx PB 1500%N audit audit_config audit_jobs w2.

Lemma fillExecutionBatch_terminates_witness : fill_run.1 ≠ None.
Proof.
  refine (fillExecutionBatch_terminates sample_env sample_service PB (w_tick w2 + 20) 40 batchCtx 1500%N audit audit_config
            audit_jobs w2 fill_run.1 fill_run.2 eq_refl _ _ _ (surjective_pairing _)); [|lia|lia].
  intros t Ht. cbn [clock sample_env audit_config MaxWait].
  unfold Millisecond, Microsecond, Nanosecond. lia.
Defined.

Definition settle_run : result unit * World :=
  RunInTx sample_env true (apply_tx sample_env sample_service PB audit_jobs audit_outcomes) w2.

Lemma batch_settlement_atomic_witness :
  settle_run.1 = Ok tt ∧ jobs_t (w_db settle_run.2) = settle micro audit_outcomes (jobs_t (w_db w2)).
Proof.
  assert (settle_run.1 = Ok tt) as Hok by (vm_compute; reflexivity). split; [exact Hok|].
  destruct (batch_settlement_atomic sample_env sample_service micro PB 1500%N eq_refl sample_keyed audit_jobs
              audit_outcomes w2 settle_run.1 settle_run.2 (mg_token _ _ _ managed_w2) (mg_keyed _ _ _ managed_w2)
              (surjective_pairing _)) as [[_ Hno]|(_ & _ & Hset & _)].
  - by destruct (Hno Hok).
  - exact Hset.
Defined.

Definition apply_run : result unit * World :=
  applyExecutionBatchOutcomes sample_env sample_service runCtx PB audit_jobs audit_outcomes w2.

Lemma applyExecutionBatchOutcomes_settles_witness :
  apply_run.1 = Ok tt ∧ m_outstanding (w_mgr apply_run.2) = ∅.
Proof.
  assert (apply_run.1 = Ok tt) as Hok by (vm_compute; reflexivity). split; [exact Hok|].
  exact (proj1 (proj2 (applyExecutionBatchOutcomes_settles sample_env sample_service micro PB 1500%N eq_refl
           (sample_others 1500%N) sample_keyed sample_clock runCtx audit_jobs audit_outcomes w2 (Ok tt) apply_run.2
           managed_w2 (ok_run _ Hok)))).
Defined.

Definition outcomes_run : result (list BatchJobOutcome) * World :=
  item_outcomes sample_service audit audit_handler start audit_jobs [None; answer "again"] w2.

Lemma item_outcomes_accepted_witness :
  ∃ os, outcomes_run.1 = Ok os ∧ (o_Kind <$> os) = [BatchJobOutcomeSuccess; BatchJobOutcomeRetry]
    ∧ outcomes_ok 4 1500%N os.
Proof.
  eexists. split; [vm_compute; reflexivity|]. split; [reflexivity|].
  refine (proj1 (proj2 (proj2 (item_outcomes_accepted sample_service 4 1500%N audit audit_handler start audit_jobs
            [None; answer "again"] w2 _ outcomes_run.2 _ _ _ _ _ _ (ok_run outcomes_run _))))).
  - vm_compute. reflexivity.
  - vm_compute. reflexivity.
  - discriminate.
  - apply (bool_decide_unpack _). vm_compute. exact I.
  - apply (bool_decide_unpack _). vm_compute. exact I.
  - vm_compute. split; discriminate.
  - vm_compute. reflexivity.
Defined.


(** ** Producers *)

Definition idle_world : World := world_of empty_db.

Lemma sample_ids i j : newJobID sample_env i = newJobID sample_env j → i = j.
Proof. cbn. lia. Qed.

Lemma idle_producing E : newJobID E = newJobID sample_env → producing E idle_world.
Proof.
  intros HE. split.
  - split; intros *; cbn; rewrite !lookup_empty; done.
  - intros k _. split_and!; [|done|].
    + rewrite HE. cbn. unfold JobIDNil. lia.
    + apply registered_false. intros ? ?. cbn. by rewrite lookup_empty.
Qed.

(** Three attempts, the second after a lost answer, the third with other
    content. *)
Definition lossy_env : Env := {|
  clock := clock sample_env; newLeaseToken := newLeaseToken sample_env; newJobID := newJobID sample_env;
  others := others sample_env;
  fault t := if decide (t = 2%nat) then Some {| fault_err := EText "connection reset"; fault_applied := true |} else None;
  commit_fault := commit_fault sample_env; run_cause := run_cause sample_env; draining := draining sample_env;
  beats := beats sample_env; lock_timeout := lock_timeout sample_env; held := held sample_env;
  sink := sink sample_env; timer_first := timer_first sample_env; uuid_text := uuid_text sample_env |}.

Definition order_put (payload : string) : content := ("mail", 1, payload, start).
Definition attempts_run : list (result UniquePutResult) * World :=
  put_attempts lossy_env sample_service "order-1"
    [order_put "v1"; order_put "v1"; order_put "v1"; order_put "v2"] idle_world.

Example attempts_work :
  attempts_run.1 !! 0%nat = Some (Err (wrapf "create unique versioned job" (EText "connection reset")))
  ∧ attempts_run.1 !! 1%nat = Some (Ok {| u_JobID := 5000; u_Created := false |})
  ∧ attempts_run.1 !! 2%nat = Some (Ok {| u_JobID := 5000; u_Created := false |})
  ∧ (∃ e, attempts_run.1 !! 3%nat = Some (Err e) ∧ errors_Is e ErrIdempotencyConflict = true).
Proof. split_and!; [vm_compute; reflexivity..|]. eexists. split; vm_compute; reflexivity. Qed.


Definition batch_puts : list UniqueBatchPut :=
  [{| p_DeduplicationKey := "k1"; p_Name := "mail"; p_SchemaVersion := 1; p_Payload := "a"; p_AvailableAt := start |};
   {| p_DeduplicationKey := "k2"; p_Name := "audit"; p_SchemaVersion := 2; p_Payload := "b"; p_AvailableAt := start |}].
Definition put_batch_run : result (list UniquePutResult) * World :=
  PutVersionedUniqueBatch sample_env sample_service batch_puts idle_world.

Lemma put_batch_whole_witness :
  put_batch_run.1 = Ok [{| u_JobID := 5001; u_Created := true |}; {| u_JobID := 5002; u_Created := true |}]
  ∧ ∃ t n, put_all PU (λ i, newJobID sample_env (n + i)) (clock sample_env 0) 0 batch_puts (others sample_env t empty_db)
           = Some ([{| u_JobID := 5001; u_Created := true |}; {| u_JobID := 5002; u_Created := true |}],
                   w_db put_batch_run.2).
Proof.
  assert (put_batch_run.1 = Ok [{| u_JobID := 5001; u_Created := true |}; {| u_JobID := 5002; u_Created := true |}])
    as Hok by (vm_compute; reflexivity). split; [exact Hok|].
  destruct (put_batch_whole sample_env micro (jobFingerprint id) PU sample_ids (λ _ _ Hr, Hr) (λ _ _ _ Hf, Hf)
              sample_service batch_puts idle_world _ put_batch_run.2 eq_refl (idle_producing sample_env eq_refl) (ok_run _ Hok))
    as [(_ & e & He)|(_ & t & n & _ & Hput)].
  - discriminate He.
  - exists t, n. exact Hput.
Defined.

Definition stats_run : result QueueStats * World := GetQueueStats sample_env sample_service single_run.2.
Definition stats_of (r : result QueueStats) : QueueStats := match r with Ok st => st | Err _ => no_stats 0 end.

Lemma queue_stats_reconcile_witness :
  Total (stats_of stats_run.1) = 3 ∧ (s_Name <$> ByCapability (stats_of stats_run.1)) = ["audit"; "mail"]
  ∧ Available (stats_of stats_run.1) + Processing (stats_of stats_run.1) ≤ Total (stats_of stats_run.1).
Proof.
  split_and!; [vm_compute; reflexivity..|].
  assert (stats_run.1 = Ok (stats_of stats_run.1)) as Hok by (vm_compute; reflexivity).
  exact (proj1 (proj2 (proj2 (proj2 (proj2 (queue_stats_reconcile sample_env sample_service micro
    sample_stats single_run.2 (stats_of stats_run.1) stats_run.2 (PgReads.pg_stats_repository micro _)
    eq_refl (ok_run _ Hok))))))).
Defined.
