(* ===== verification/BackendRuns.v ===== *)
(** * Backends on concrete tables

    The theorems about the MySQL repository and about pages applied to small
    tables, with a second client interfering where the theorem allows it. *)

From S2P Require Import Prelude GoTime Errors Models Batch Fingerprint Sql Repo Stats Pages Listings MysqlJobs PicodataJobs Backends.
From S2P Require Import PicodataStats DbReads Samples.
Open Scope Z_scope.

(** ** MySQL *)

Lemma mysql_keeps_contracts_witness :
  LeaseRepository micro (Mysql.repository micro) ∧ BatchRepository micro (Mysql.batch_repository micro)
  ∧ UniqueRepository micro (jobFingerprint id) (Mysql.unique_repository micro id)
  ∧ FailedRepository micro (Mysql.failed_repository micro) ∧ StatsRepository micro (Mysql.GetQueueStats micro).
Proof. exact (mysql_keeps_contracts micro id micro_rounding). Defined.

Definition mysql_db : Db :=
  put_jobs (Mysql.repository micro) 1 [(mail, "a"); (mail, "b"); (audit, "c"); (mail, "d")] empty_db.

(** Before the reserving transaction of the first two rounds another client
    takes the rows the query found. *)
Definition thief (k : nat) (d : Db) : Db :=
  set_jobs (sql_update (λ j, match k with 1%nat => N.eqb (ID j) 1 | 3%nat => N.eqb (ID j) 2 | _ => false end)
              (reserve_row (start + Minute) 77%N) (jobs_t d)).1 d.

Lemma thief_keyed k d : keyed (jobs_t d) → keyed (jobs_t (thief k d)).
Proof. intros Hk. by apply keyed_update. Qed.

Lemma thief_content k d id j j' : jobs_t d !! id = Some j → jobs_t (thief k d) !! id = Some j' →
  Name j' = Name j ∧ SchemaVersionOf j' = SchemaVersionOf j.
Proof. cbn. intros Hj. rewrite sql_update_lookup, Hj. intros [= <-]. by case_match. Qed.

Definition stolen_claim (fuel : nat) : option (result (list Job)) * Db :=
  Mysql.claim_rounds micro thief (λ _, None) fuel 0 (Mysql.findBatchCandidateIDs micro start [mail] 1)
    start (start + Minute) 9%N mysql_db.

Lemma mysql_db_keyed : keyed (jobs_t mysql_db).
Proof. apply keyed_check. by vm_compute. Qed.

Lemma mysql_claim_interleaved_witness :
  match (stolen_claim 3).1 with
  | Some (Ok js) => (ID <$> js) = [4%N] ∧ ∃ d2, others_only thief mysql_db d2
      ∧ claim_base micro ∅ start (start + Minute) 9%N [mail] 1 d2 js (stolen_claim 3).2
  | _ => False
  end.
Proof.
  pose proof (Mysql.mysql_claim_interleaved micro micro_rounding thief (λ _, None) 3
    (Mysql.findBatchCandidateIDs micro start [mail] 1) start (start + Minute) 9%N [mail] 1 mysql_db
    (stolen_claim 3).1 (stolen_claim 3).2 thief_keyed thief_content (or_introl eq_refl) eq_refl mysql_db_keyed
    (surjective_pairing _)) as Hclaim.
  assert (ID <$> (match (stolen_claim 3).1 with Some (Ok js) => js | _ => [] end) = [4%N]) as Hids by (by vm_compute).
  destruct (stolen_claim 3) as [[[js|e]|] d']; cbn in *; [done|done|done].
Defined.

(** Two rounds are lost to the other client; the third is not disturbed. *)
Lemma mysql_claim_ends_witness : (stolen_claim 2).1 = None ∧ (stolen_claim 3).1 ≠ None.
Proof.
  split; [by vm_compute|].
  refine (Mysql.mysql_claim_ends micro micro_rounding thief (λ _, None) 3 2
    (Mysql.findBatchCandidateIDs micro start [mail] 1) start (start + Minute) 9%N [mail] 1 mysql_db
    thief_keyed (or_introl eq_refl) eq_refl mysql_db_keyed (or_intror _) ltac:(lia)).
  intros d. destruct d as [j k f r]. unfold thief, set_jobs. cbn. f_equal. apply map_eq. intros i.
  rewrite sql_update_lookup. by destruct (j !! i).
Defined.

(** ** Picodata *)

Lemma picodata_keeps_contract_witness : LeaseRepository micro (Picodata.repository micro).
Proof. exact (picodata_keeps_contract micro micro_rounding). Defined.

Lemma thief_path_content d1 d2 id j j' : others_only thief d1 d2 → jobs_t d1 !! id = Some j → jobs_t d2 !! id = Some j' →
  Name j' = Name j ∧ SchemaVersionOf j' = SchemaVersionOf j.
Proof.
  intros Hq. revert j. induction Hq as [|d d1 d2 [k ->] _ IH]; intros j Hj Hj'; [naive_solver|].
  destruct (jobs_t (thief k d) !! id) as [x|] eqn:Hx.
  - destruct (IH x eq_refl Hj') as [-> ->]. by eapply thief_content.
  - cbn in Hx. by rewrite sql_update_lookup, Hj in Hx.
Qed.

(** The first candidate is taken between the query and the update; the claim
    goes on to the second. *)
Definition raced_claim : result (list Job) * Db :=
  Picodata.FindAndReserveJobsForCapabilities micro thief start (start + Minute) 9%N [mail] 1 mysql_db.

Lemma picodata_claim_interleaved_witness :
  match raced_claim.1 with
  | Ok js => (ID <$> js) = [2%N] ∧ ∃ d1 d2 seen row, js = [reserve_row (start + Minute) 9%N seen]
      ∧ others_only thief mysql_db d1 ∧ others_only thief d1 d2 ∧ jobs_t d2 !! ID seen = Some row
      ∧ (∀ tok', live tok' (micro start) row = false)
  | Err _ => False
  end.
Proof.
  pose proof (Picodata.picodata_claim_interleaved micro micro_rounding thief start (start + Minute) 9%N [mail] 1 mysql_db
    raced_claim.1 raced_claim.2 thief_keyed thief_path_content mysql_db_keyed (surjective_pairing _)) as Hclaim.
  assert (ID <$> (match raced_claim.1 with Ok js => js | _ => [] end) = [2%N]) as Hids by (by vm_compute).
  destruct raced_claim as [[js|e] d']; cbn in *; [|done]. split; [done|].
  destruct Hclaim as (d1 & d2 & seen & row & Hjs & _ & _ & Hq1 & Hq2 & _ & _ & Hrow & _ & Hfree & _).
  by exists d1, d2, seen, row.
Defined.

(** Another client claims the row and defers it by a minute between the query
    and the update: the attempt counter is back where it was read. *)
Definition deferring (k : nat) (d : Db) : Db :=
  match k with
  | 1%nat =>
      (Picodata.DeferJobWithLease micro 1%N 77%N start (start + Minute)
        (Picodata.FindAndReserveJobsForCapabilities micro (λ _ d, d) start (start + Minute) 77%N [mail] 1 d).2).2
  | _ => d
  end.

(** The compare-and-set does not read the availability again, so the claim
    answers a job that is not available for another minute. *)
Example picodata_claims_deferred_job :
  let claim := Picodata.FindAndReserveJobsForCapabilities micro deferring start (start + Minute) 9%N [mail] 1 mysql_db in
  (∃ j, claim.1 = Ok [j] ∧ ID j = 1%N)
  ∧ AvailableAt <$> jobs_t claim.2 !! 1%N = Some (start + Minute)
  ∧ LeaseTokenOf <$> jobs_t claim.2 !! 1%N = Some 9%N.
Proof. vm_compute. split; [by eexists|done]. Qed.

(** ** Pages *)

(** Five rows of one creation time, two to a page. *)
Definition page_rows : list Job :=
  all_rows (jobs_t (put_jobs (Mysql.repository micro) 1
    [(mail, "a"); (mail, "b"); (audit, "c"); (mail, "d"); (audit, "e")] empty_db)).

Lemma pages_complete_witness :
  (∃ l, traverse CreatedAt ID micro 6 2 None page_rows = Some l ∧ l ≡ₚ page_rows
    ∧ StronglySorted (λ a b, page_less CreatedAt ID a b = true) l)
  ∧ option_map (map ID) (traverse CreatedAt ID micro 6 2 None page_rows) = Some [5; 4; 3; 2; 1]%N.
Proof.
  split; [|by vm_compute].
  apply (pages_complete CreatedAt ID micro page_rows 2 6).
  - apply (bool_decide_unpack _). by vm_compute.
  - apply Forall_forall. apply (bool_decide_unpack _). by vm_compute.
  - done.
  - vm_compute. lia.
Defined.

(** Rows in order of insertion within a creation time. *)
Definition newest_sort : list Job → list Job := sort_slice (newest_first CreatedAt).

#[local] Instance newest_sort_orders : Orders (newest_first CreatedAt) newest_sort.
Proof. split; [apply sort_slice_perm|apply sort_slice_sorted, _]. Qed.

(** Five rows of one creation time: the second page is empty. *)
Lemma paged_skips_only_ties_witness :
  (∃ l, traverse_paged CreatedAt newest_sort micro 6 2 (start + Minute) page_rows = Some l ∧ NoDup l
    ∧ StronglySorted (λ a b, CreatedAt b ≤ CreatedAt a) l
    ∧ (∀ r, r ∈ l → r ∈ page_rows ∧ CreatedAt r < start + Minute)
    ∧ (∀ r, r ∈ page_rows → CreatedAt r < start + Minute → r ∈ l ∨ ∃ x, x ∈ l ∧ CreatedAt x = CreatedAt r)
    ∧ (NoDup (CreatedAt <$> page_rows) → l ≡ₚ filter (λ r, CreatedAt r < start + Minute) page_rows))
  ∧ option_map length (traverse_paged CreatedAt newest_sort micro 6 2 (start + Minute) page_rows) = Some 2%nat.
Proof.
  split; [|by vm_compute].
  apply (paged_skips_only_ties CreatedAt newest_sort micro page_rows 2 (start + Minute) 6).
  - apply newest_sort_orders.
  - apply (bool_decide_unpack _). by vm_compute.
  - apply Forall_forall. apply (bool_decide_unpack _). by vm_compute.
  - done.
  - vm_compute. lia.
Defined.

(** ** Statistics of Picodata *)

(** Timestamps as text, read back among the times of the table. *)
Definition stats_times : list Z := AvailableAt <$> all_rows (jobs_t mysql_db).
Definition find_time (s : string) : option Z := List.find (λ t, String.eqb s (FormatRFC3339Nano t)) stats_times.

#[local] Instance sample_text :
  TextTime (λ t, ∃ id j, jobs_t mysql_db !! id = Some j ∧ AvailableAt j = t) FormatRFC3339Nano find_time.
Proof.
  assert (∀ t, (∃ id j, jobs_t mysql_db !! id = Some j ∧ AvailableAt j = t) → t ∈ stats_times) as Hin.
  { intros t (i & j & Hj & <-). apply list_elem_of_fmap_2, list_elem_of_fmap. exists (i, j).
    split; [done|by apply elem_of_map_to_list]. }
  split.
  - intros t Ht%Hin. revert t Ht. apply Forall_forall. apply (bool_decide_unpack _). by vm_compute.
  - intros a b Ha%Hin Hb%Hin.
    assert (Forall (λ a, Forall (λ b, String.ltb (FormatRFC3339Nano a) (FormatRFC3339Nano b) = (a <? b)) stats_times)
              stats_times) as Hall by (apply (bool_decide_unpack _); by vm_compute).
    rewrite Forall_forall in Hall. specialize (Hall a Ha). rewrite Forall_forall in Hall. by apply Hall.
Qed.

Lemma picodata_stats_witness : ∃ st caps,
  PicodataStats.GetQueueStats FormatRFC3339Nano find_time micro start mysql_db = (Ok st, mysql_db)
  ∧ caps ≡ₚ remove_dups (row_capability <$> all_rows (jobs_t mysql_db))
  ∧ st = accumulate (no_stats start) (group_stats (micro start) (all_rows (jobs_t mysql_db)) <$> caps)
  ∧ StronglySorted (not_after stats_less) (ByCapability st).
Proof.
  apply (PicodataStats.picodata_stats micro FormatRFC3339Nano find_time start mysql_db sample_text).
  apply (bool_decide_unpack _). by vm_compute.
Defined.

(** The text Go writes does not sort as the times do: it drops the trailing
    zeros of the fraction. *)
Example rfc3339_text_unordered :
  String.ltb (FormatRFC3339Nano (start + Second / 2)) (FormatRFC3339Nano start) = true.
Proof. by vm_compute. Qed.
