(* ===== verification/ReplayRuns.v ===== *)
(** * Transactions and replays on concrete tables

    The theorems about transaction managers, immediate transactions and replay
    applied to a small failed-jobs table. *)

From stdpp Require Import pretty.
From S2P Require Import Prelude GoTime Errors Models Batch Fingerprint Sql Repo Transactions PgJobs PgReads Replay.
From S2P Require Import Runtime Samples.
Open Scope Z_scope.

(** ** Transactions *)

Definition steady : Driver := {| begin_err := None; commit_err := None; rollback_err := None |}.
Definition lost_commit : Driver :=
  {| begin_err := None; commit_err := Some {| fault_err := EText "connection reset"; fault_applied := true |};
     rollback_err := None |}.

(** An insert. *)
Definition nested_body : Callback :=
  op_callback (λ d, (Ok tt, put_jobs (Pg.repository micro) 1 [(mail, "a")] d)).

Lemma transaction_finalized_witness :
  (pg_runTransaction steady (pg_runTransaction lost_commit nested_body) (mkSession empty_db None 0 0)).1 = Returned None
  ∧ finalized steady (pg_runTransaction lost_commit nested_body) (mkSession empty_db None 0 0)
      (pg_runTransaction steady (pg_runTransaction lost_commit nested_body) (mkSession empty_db None 0 0)).1
      (pg_runTransaction steady (pg_runTransaction lost_commit nested_body) (mkSession empty_db None 0 0)).2.
Proof.
  split; [reflexivity|].
  refine (proj1 (proj1 (transaction_finalized pg_runTransaction steady (pg_runTransaction lost_commit nested_body)
    (mkSession empty_db None 0 0) (or_introl eq_refl) _))).
  exact (proj2 (transaction_finalized pg_runTransaction lost_commit nested_body (mkSession empty_db None 0 0)
    (or_introl eq_refl) (op_callback_inside _))).
Defined.

(** A work that panics on a connection whose rollback fails. *)
Definition broken : ConnDriver :=
  {| conn_err := None; pragma_err := None; immediate_err := None; end_err := None;
     undo_err := Some (EText "disk I/O error"); raw_err := None; close_err := None |}.
Definition panicking (d : Db) : Exit * Db := (Panicked "bug", put_jobs (Pg.repository micro) 1 [(mail, "a")] d).

Lemma immediate_transaction_clean_witness :
  (runImmediateTransaction broken panicking (mkConn empty_db None false false)).1 = Panicked "bug"
  ∧ c_tx (runImmediateTransaction broken panicking (mkConn empty_db None false false)).2 = None.
Proof.
  split; [reflexivity|].
  refine (proj1 (proj2 (immediate_transaction_clean broken panicking (mkConn empty_db None false false) _ _ _ eq_refl
    (surjective_pairing _)))).
  intros e He. discriminate He.
Defined.

Lemma RunInTx_is_managed_witness :
  (RunInTx sample_env true (ok 7) w0).1 = Ok 7
  ∧ w_db (RunInTx sample_env true (ok 7) w0).2 = sample_db.
Proof.
  split; [reflexivity|].
  etrans; [exact (proj1 (RunInTx_is_managed sample_env (ok 7) w0 pg_runTransaction (or_introl eq_refl)))|reflexivity].
Defined.

(** ** Replay *)

(** Job 2 failed; its record has id 500. *)
Definition failed_db : Db :=
  (PgReads.CreateFailedJobVersioned micro 500%N start start 2%N "mail" 1 "poison" "permanent" empty_db).2.

Definition request : Request := {| rq_RequestID := 1%N; rq_FailedJobID := 500%N |}.
Definition host : Admission := λ source _, Ok ("order-" +:+ so_Payload source).

Definition first_replay : result ReplayResult * Session :=
  Replay micro id pretty map_to_list (λ _, None) true None steady 900%N start start request (Some host)
    (mkSession failed_db None 0 0).

Lemma failed_provenance : provenance failed_db.
Proof.
  unfold provenance. split_and!.
  - split.
    + intros i r Hr. by vm_compute in Hr.
    + intros i f Hf. revert i f Hf. change (map_Forall (λ i f, f_ID f = i) (failed_t failed_db)).
      apply (bool_decide_unpack _). by vm_compute.
    + intros i r Hr. by vm_compute in Hr.
    + intros i r Hr. by vm_compute in Hr.
    + intros i1 r1 i2 r2 Hr. by vm_compute in Hr.
    + intros i1 r1 i2 r2 Hr. by vm_compute in Hr.
  - intros i id1 id2 _ _ [j Hj]. by vm_compute in Hj.
  - split; intros *; intros Hj; by vm_compute in Hj.
  - intros i j Hj. by vm_compute in Hj.
Qed.

Lemma failed_unused : unused 900%N failed_db.
Proof.
  split; [split_and!; by vm_compute|]. intros i [(f & Hf & Hj)|(rid & r & Hr & _)]; [|by vm_compute in Hr].
  revert i f Hf Hj. change (map_Forall (λ _ f, f_JobID f ≠ 900%N) (failed_t failed_db)).
  apply (bool_decide_unpack _). by vm_compute.
Qed.

Lemma no_failures (name : string) (e : err) : None = Some e → errors_Is e ErrReplayNotFound = false.
Proof. done. Qed.

Lemma replay_confirmed_witness :
  match first_replay.1 with
  | Ok res => rr_Created res = true ∧ rec_BusinessKey (rr_Record res) = "order-poison"
      ∧ replay_answer micro id pretty 900%N start start request host failed_db (Ok res) (stored first_replay.2)
  | Err _ => False
  end.
Proof.
  pose proof (replay_confirmed micro id pretty map_to_list (λ _, None) true None steady 900%N start start request host
    (mkSession failed_db None 0 0) first_replay.1 first_replay.2 (λ t, Permutation_refl _) no_failures failed_provenance
    failed_unused (surjective_pairing _)) as [Hans _].
  assert (match first_replay.1 with
          | Ok res => rr_Created res = true ∧ rec_BusinessKey (rr_Record res) = "order-poison"
          | Err _ => False end) as Hres by (vm_compute; by split).
  destruct first_replay as [[res|e] s']; cbn in *; [|done]. destruct Hres. auto.
Defined.

Lemma replay_keeps_provenance_witness :
  provenance (stored first_replay.2) ∧ is_Some (jobs_t (stored first_replay.2) !! 900%N).
Proof.
  split; [|vm_compute; by eexists].
  exact (replay_keeps_provenance micro id pretty map_to_list (λ _, None) true None steady 900%N start start request
    (Some host) (mkSession failed_db None 0 0) first_replay.1 first_replay.2 (λ t, Permutation_refl _) no_failures
    failed_provenance failed_unused (surjective_pairing _)).
Defined.

(** The queue row is acknowledged and the keys are pruned; the request is made
    again, once with the host's key and once with another. *)
Definition later_db : Db :=
  mkDb ∅ ∅ (failed_t (stored first_replay.2)) (replays_t (stored first_replay.2)).

Definition second_replay (admission : Admission) : result ReplayResult * Session :=
  Replay micro id pretty map_to_list (λ _, None) true None steady 901%N (start + Minute) (start + Minute) request
    (Some admission) (mkSession later_db None 0 0).

Definition first_result : ReplayResult :=
  match first_replay.1 with
  | Ok res => res
  | Err _ => {| rr_Record := record_of 0 (replay_row (source_of (mkJobFailed 0 0 "" "" 0 "" "" 0 0 "" "") "") 0 "" 0);
                rr_Created := false |}
  end.

Lemma replay_request_once_witness :
  (second_replay host).1 = Ok {| rr_Record := rr_Record first_result; rr_Created := false |}
  ∧ stored (second_replay host).2 = later_db.
Proof.
  assert (first_replay.1 = Ok first_result) as Hok by (by vm_compute).
  destruct (replay_request_once micro id pretty map_to_list (λ _, None) true None steady 900%N start start request host
    (mkSession failed_db None 0 0) first_result first_replay.2 901%N (start + Minute) (start + Minute) host later_db
    "order-poison" (λ t, Permutation_refl _) no_failures failed_provenance failed_unused) as (e & Hagain & _).
  - rewrite <- Hok. apply surjective_pairing.
  - done.
  - done.
  - by vm_compute.
  - unfold second_replay. assert (String.eqb "order-poison" (rec_BusinessKey (rr_Record first_result)) = true) as Hkey
      by (by vm_compute). rewrite Hkey in Hagain. split.
    + exact (f_equal fst Hagain).
    + exact (f_equal (stored ∘ snd) Hagain).
Defined.
