(* ===== verification/FanoutRuns.v ===== *)
(** * Fan-out on concrete runs

    A codec that keeps the promises of [FanoutCodec], and the theorems of
    [Fanout] applied to an event with two targets. *)

From stdpp Require Import countable pretty.
From S2P Require Import Prelude GoTime Errors Models Batch Fingerprint Sql Repo Stats Options PgJobs PgUnique.
From S2P Require Import Fencing Runtime Api Json Fanout FanoutFlow Samples Witnesses.
Open Scope Z_scope.

#[local] Existing Instances PgUnique.pg_unique_repository.

(** ** A codec: the binary digits of an injective numbering *)

Fixpoint bits (p : positive) : string :=
  match p with
  | xH => ""
  | xO p => String (Ascii.ascii_of_N 48) (bits p)
  | xI p => String (Ascii.ascii_of_N 49) (bits p)
  end.

Fixpoint unbits (s : string) : option positive :=
  match s with
  | EmptyString => Some xH
  | String c s => p ← unbits s; Some (if Ascii.eqb c (Ascii.ascii_of_N 49) then xI p else xO p)
  end.

Lemma unbits_bits p : unbits (bits p) = Some p.
Proof. induction p as [p IH|p IH|]; cbn in *; by rewrite ?IH. Qed.

Definition write_code {A} `{Countable A} (a : A) : string := bits (encode a).
Definition read_code {A} `{Countable A} (s : string) : result A :=
  match unbits s ≫= decode with Some a => Ok a | None => Err (EText "invalid character") end.

Lemma read_write {A} `{Countable A} (a : A) : read_code (write_code a) = Ok a.
Proof. unfold read_code, write_code. rewrite unbits_bits. cbn. by rewrite decode_encode. Qed.

Definition event_fields : Type := MessageID * string * Z * string * Z.
Definition target_fields : Type := string * string * string.

Definition of_event (e : FanoutEvent) : event_fields :=
  (ev_ID e, ev_Topic e, ev_SchemaVersion e, ev_Payload e, ev_OccurredAt e).
Definition to_event (f : event_fields) : FanoutEvent :=
  let '(i, topic, v, p, t) := f in
  {| ev_ID := i; ev_Topic := topic; ev_SchemaVersion := v; ev_Payload := p; ev_OccurredAt := t |}.
Definition of_target (t : FanoutTarget) : target_fields := (tg_Kind t, tg_ID t, tg_Snapshot t).
Definition to_target (f : target_fields) : FanoutTarget :=
  let '(k, i, s) := f in {| tg_Kind := k; tg_ID := i; tg_Snapshot := s |}.

#[global] Instance json_time_dec t : Decision (json_time t).
Proof. unfold json_time. apply _. Defined.

Definition out_of_range : err := EText "Time.MarshalJSON: year outside of range [0,9999]".

Definition sample_lib : FanoutLib := {|
  uuidString id := pretty id;
  NewSHA1 ns name := Npos (encode (ns, name));
  MarshalSnapshot s :=
    if decide (json_time (ev_OccurredAt (sn_Event s)) ∧ json_time (sn_AvailableAt s))
    then Ok (write_code (of_event (sn_Event s), of_target <$> sn_Targets s, sn_AvailableAt s))
    else Err out_of_range;
  UnmarshalSnapshot p :=
    '(e, targets, t) ← read_code (A := event_fields * list target_fields * Z) p;
    Ok {| sn_Event := to_event e; sn_Targets := to_target <$> targets; sn_AvailableAt := t |};
  MarshalDelivery d :=
    if decide (json_time (ev_OccurredAt (dl_Event d)))
    then Ok (write_code (dl_ID d, of_event (dl_Event d), of_target (dl_Target d)))
    else Err out_of_range;
  UnmarshalDelivery p :=
    '(i, e, t) ← read_code (A := MessageID * event_fields * target_fields) p;
    Ok {| dl_ID := i; dl_Event := to_event e; dl_Target := to_target t |}
|}.

Lemma to_of_event e : to_event (of_event e) = event_image id id e.
Proof. by destruct e. Qed.
Lemma to_of_target t : to_target (of_target t) = target_image id id t.
Proof. by destruct t. Qed.

Lemma digits_no_nul s : all_digits s → all_bytes (λ c, negb (is_byte c (byte 0))) s = true.
Proof. apply all_bytes_mono. intros c. by destruct c as [[] [] [] [] [] [] [] []]. Qed.

#[global] Instance sample_codec : FanoutCodec id id sample_lib.
Proof.
  split; try done.
  - intros a b. apply (inj pretty).
  - intros i. apply digits_no_nul. pose proof (Itoa_digits (Z.of_N i) ltac:(lia)) as Hd. by destruct i.
  - intros s _ _. cbn. case_decide; [|by split]. split; auto.
  - intros d _ _. cbn. case_decide; [|by split]. split; auto.
  - intros s p. cbn. case_decide; [|done]. intros [= <-]. rewrite read_write. cbn [mbind res_bind].
    by rewrite to_of_event, <- list_fmap_compose.
  - intros d p. cbn. case_decide; [|done]. intros [= <-]. rewrite read_write. cbn [mbind res_bind]. by rewrite to_of_event, to_of_target.
Qed.

(** ** An event with two targets *)

Definition sample_event : FanoutEvent :=
  {| ev_ID := 77; ev_Topic := "order.paid"; ev_SchemaVersion := 1; ev_Payload := "{}"; ev_OccurredAt := start |}.
Definition hook (i : string) : FanoutTarget := {| tg_Kind := "webhook"; tg_ID := i; tg_Snapshot := "" |}.
Definition sample_snapshot : fanoutSnapshot :=
  {| sn_Event := sample_event; sn_Targets := [hook "b"; hook "a"]; sn_AvailableAt := start |}.
Definition normal_snapshot : fanoutSnapshot :=
  {| sn_Event := sample_event; sn_Targets := [filled (hook "a"); filled (hook "b")]; sn_AvailableAt := start |}.

Lemma sample_normal : normalizeFanoutSnapshot sample_snapshot = Ok normal_snapshot.
Proof. vm_compute. reflexivity. Qed.

Lemma normalizeFanoutSnapshot_canonical_witness : normalizeFanoutSnapshot normal_snapshot = Ok normal_snapshot.
Proof.
  exact (proj2 (proj2 (proj2 (normalizeFanoutSnapshot_canonical sample_snapshot normal_snapshot sample_normal)))).
Defined.

Definition stored_payload : string :=
  write_code (of_event sample_event, of_target <$> sn_Targets normal_snapshot, start).

Lemma stored_marshal : MarshalSnapshot sample_lib normal_snapshot = Ok stored_payload.
Proof. vm_compute. reflexivity. Qed.

Lemma fanout_roundtrip_witness : decode_snapshot sample_lib stored_payload = Ok (snapshot_image id id normal_snapshot).
Proof.
  refine (proj1 (fanout_roundtrip sample_lib id id sample_snapshot normal_snapshot stored_payload sample_normal
           stored_marshal _)).
  apply Forall_forall. reflexivity.
Defined.

Lemma target_ok_sample i : i = "a" ∨ i = "b" → target_ok (ev_Topic sample_event) (filled (hook i)).
Proof. intros [->| ->]; split; vm_compute; try reflexivity; discriminate. Qed.

Lemma delivery_identity_witness :
  fanoutDeliveryDeduplicationKey sample_lib (FanoutDeliveryID sample_lib 77 "webhook" "a")
  ≠ fanoutDeliveryDeduplicationKey sample_lib (FanoutDeliveryID sample_lib 77 "webhook" "b").
Proof.
  intros Heq.
  destruct (proj1 (delivery_identity sample_lib id id sample_event sample_event (filled (hook "a")) (filled (hook "b"))
    (target_ok_sample "a" (or_introl eq_refl)) (target_ok_sample "b" (or_intror eq_refl))
    ltac:(intros [= Hc]%(inj Npos)%(inj encode); exact Hc)) Heq) as (_ & _ & Hid).
  discriminate Hid.
Defined.

Definition dispatch_run : result unit * World := Handle sample_env sample_lib PU true stored_payload idle_world.

Lemma dispatch_all_or_nothing_witness :
  dispatch_run.1 = Ok tt ∧ (size (jobs_t (w_db dispatch_run.2)) = 2)%nat
  ∧ Forall (registered_delivery sample_lib (jobFingerprint id) normal_snapshot (w_db dispatch_run.2))
      (sn_Targets normal_snapshot).
Proof.
  assert (dispatch_run.1 = Ok tt) as Hok by (vm_compute; reflexivity).
  split_and!; [exact Hok|vm_compute; reflexivity|].
  pose proof (dispatch_all_or_nothing sample_env sample_lib micro (jobFingerprint id) PU sample_ids
    (λ _ _ Hr, Hr) (λ _ _ _ Hf, Hf) stored_payload idle_world (Ok tt) dispatch_run.2
    (idle_producing sample_env eq_refl) (ok_run _ Hok)) as Hall.
  assert (decode_snapshot sample_lib stored_payload = Ok normal_snapshot) as Hd by (vm_compute; reflexivity).
  rewrite Hd in Hall. exact (proj1 (proj2 Hall)).
Defined.

(** A put and its retry with the targets in another order. *)
Definition fanout_service : Service :=
  mkService (WithFanoutJobsRepo (Some PU) (s_options sample_service)) (s_repo sample_service) (s_failed sample_service)
    (s_jobs sample_service) (s_batchJobs sample_service) false.
Definition first_put : result JobID * World :=
  PutFanout sample_env sample_lib fanout_service sample_event [hook "b"; hook "a"] start idle_world.
Definition second_put : result JobID * World :=
  PutFanout sample_env sample_lib fanout_service sample_event [hook "a"; hook "b"] start first_put.2.

Lemma first_producing : producing sample_env first_put.2.
Proof.
  exact (proj1 (PutFanout_spec sample_env sample_lib micro (jobFingerprint id) PU sample_ids (λ _ _ Hr, Hr)
    (λ _ _ _ Hf, Hf) fanout_service sample_event [hook "b"; hook "a"] start idle_world eq_refl
    (idle_producing sample_env eq_refl))).
Qed.

Lemma put_fanout_immutable_witness : first_put.1 = Ok 5000%N ∧ second_put.1 = Ok 5000%N ∧ 5000%N = 5000%N.
Proof.
  assert (first_put.1 = Ok 5000%N) as H1 by (vm_compute; reflexivity).
  assert (second_put.1 = Ok 5000%N) as H2 by (vm_compute; reflexivity).
  split_and!; [exact H1|exact H2|].
  exact (proj1 (put_fanout_immutable sample_env sample_lib micro (jobFingerprint id) PU sample_ids (λ _ _ Hr, Hr)
    (λ _ _ _ Hf, Hf) fanout_service sample_event [hook "b"; hook "a"] start sample_event [hook "a"; hook "b"] start
    idle_world 5000%N first_put.2 first_put.2 5000%N second_put.2 eq_refl eq_refl (λ _ _ Hk, Hk)
    (idle_producing sample_env eq_refl) first_producing (ok_run _ H1) (ok_run _ H2))).
Defined.

(** The event put, dispatched twice. *)
Definition two_dispatches : list (result unit) * World := dispatches sample_env sample_lib PU stored_payload 2 first_put.2.

Lemma event_reaches_targets_witness :
  first_put.1 = Ok 5000%N ∧ two_dispatches.1 = [Ok tt; Ok tt] ∧ (size (jobs_t (w_db two_dispatches.2)) = 3)%nat
  ∧ NoDup (delivery_key sample_lib sample_event <$> [hook "b"; hook "a"])
  ∧ Forall (staged_for sample_lib (jobFingerprint id) id id sample_event start (w_db two_dispatches.2)) [hook "b"; hook "a"].
Proof.
  assert (first_put.1 = Ok 5000%N) as H1 by (vm_compute; reflexivity).
  assert (two_dispatches.1 = [Ok tt; Ok tt]) as H2 by (vm_compute; reflexivity).
  split_and!; [exact H1|exact H2|vm_compute; reflexivity|..].
  all: destruct (event_reaches_targets sample_env sample_lib micro (jobFingerprint id) PU id id sample_ids (λ _ _ Hr, Hr)
    (λ _ _ _ Hf, Hf) (λ _ d, reflexivity (keys_t d)) fanout_service sample_event [hook "b"; hook "a"] start
    idle_world 5000%N first_put.2 2 first_put.2 two_dispatches.1 two_dispatches.2 eq_refl (idle_producing sample_env eq_refl)
    (λ _, eq_refl) ltac:(apply Forall_forall; reflexivity)
    ltac:(intros a b _ _ Hc%(inj Npos)%(inj encode); exact (f_equal snd Hc)) (ok_run _ H1) first_producing)
    as (job & Hjob & _ & _ & Hnd & Hrun).
  - exact Hnd.
  - assert (Payload <$> jobs_t (w_db first_put.2) !! 5000%N = Some stored_payload) as Hj by (vm_compute; reflexivity).
    rewrite Hjob in Hj. cbn [fmap option_fmap option_map] in Hj. injection Hj as Hp. rewrite Hp in Hrun.
    refine (proj1 (Hrun (surjective_pairing _)) _). rewrite H2. by left.
Defined.
