(* ===== verification/LifecycleRuns.v ===== *)
(** * A drain during a claim

    One [Run] with one worker; [BeginDrain] is called while the worker is in a
    repository claim.  The lifecycle theorems applied to that run. *)

From S2P Require Import Prelude Errors Lifecycle.
Import Lifecycle.

Definition idle_run : gmap nat Thread := {[0%nat := Runner RunCAS]}.
Definition one_worker (p : WorkerPhase) : gmap nat Thread := {[0%nat := Runner RunChecking; 1%nat := Worker 0 p]}.
Definition claiming : gmap nat Thread :=
  <[1%nat := Worker 0 Claiming]> (<[1%nat := Worker 0 Locked]> (<[1%nat := Worker 0 Entering]> (one_worker AtHead))).
Definition announced : gmap nat Thread :=
  <[2%nat := Drainer DrainWaiting]> (<[2%nat := Drainer DrainLocking]> (<[2%nat := Drainer DrainUnready]> claiming)).
Definition busy : Sys := mkSys (mkShared true false false {[1%nat]} (Some 2%nat)) announced.

Lemma busy_reachable : reachable busy.
Proof.
  eapply rtc_l; [by apply (call_run _ _ 0)|].
  eapply rtc_l; [apply (run_start _ _ (one_worker AtHead) 0 {[1%nat]}); [done|done|set_solver|]|].
  { intros j. unfold one_worker. destruct (decide (j = 0%nat)) as [->|]; [done|].
    rewrite lookup_insert_ne by done. destruct (decide (j ∈ ({[1%nat]} : gset nat))) as [->%elem_of_singleton|Hj]; [done|].
    rewrite lookup_singleton_ne by set_solver. by rewrite lookup_insert_ne. }
  eapply rtc_l; [by apply (worker_moves _ _ 1 0 AtHead), worker_try|].
  eapply rtc_l; [by apply (worker_moves _ _ 1 0 Entering), worker_rlock|].
  eapply rtc_l; [by apply (worker_moves _ _ 1 0 Locked), worker_claim|].
  eapply rtc_l; [by apply (call_drain _ _ 2)|].
  eapply rtc_l; [by apply (drain_moves _ _ 2 DrainUnready), drain_unready|].
  eapply rtc_l; [by apply (drain_moves _ _ 2 DrainLocking), drain_announce|].
  match goal with |- rtc _ ?x _ => replace x with busy; [done|] end.
  unfold busy, set_wlock, set_ready, set_readers, set_running. cbn. do 2 f_equal.
Qed.

(** The worker finishes its claim, the drain goes on and returns. *)
Lemma drain_can_finish_witness :
  threads busy !! 1%nat = Some (Worker 0 Claiming)
  ∧ ∃ y, rtc step busy y ∧ threads y !! 2%nat = Some (Drainer DrainReturned).
Proof. split; [reflexivity|]. exact (drain_can_finish busy 2 DrainWaiting busy_reachable eq_refl). Defined.

Lemma one_run_at_a_time_witness : running (sh busy) = true ∧ draining (sh busy) = false.
Proof.
  split; [reflexivity|].
  exact (proj2 (proj2 (proj2 (proj2 (one_run_at_a_time busy busy_reachable)))) 1%nat 0%nat eq_refl).
Defined.

Definition drained : Sys :=
  mkSys (mkShared true false true ∅ None)
    (<[2%nat := Drainer DrainReturned]> (<[2%nat := Drainer DrainUnlocking]> (<[2%nat := Drainer DrainClosing]>
      (<[1%nat := Worker 0 AtHead]> (<[1%nat := Worker 0 Unlocking]> announced))))).

Lemma drained_reachable : reachable drained.
Proof.
  unfold reachable. etrans; [apply busy_reachable|].
  eapply rtc_l; [apply (worker_moves _ _ 1 0 Claiming); [done|apply worker_claimed]|].
  eapply rtc_l; [apply (worker_moves _ _ 1 0 Unlocking); [done|by apply worker_runlock; left]|].
  eapply rtc_l; [apply (drain_moves _ _ 2 DrainWaiting); [done|apply drain_lock; cbn; set_solver]|].
  eapply rtc_l; [apply (drain_moves _ _ 2 DrainClosing); [done|apply drain_close]|].
  eapply rtc_l; [apply (drain_moves _ _ 2 DrainUnlocking); [done|apply drain_unlock]|].
  match goal with |- rtc _ ?x _ => replace x with drained; [done|] end.
  unfold drained, set_wlock, set_readers, close_drain. cbn. do 2 f_equal.
Qed.

(** A worker refused at the boundary, and a probe called after the drain. *)
Lemma drain_is_final_witness :
  ∃ y, rtc step drained y ∧ threads y !! 3%nat = Some (Probe true (ProbeReturned (Some ErrServiceDraining)))
    ∧ ∀ j r, threads y !! j ≠ Some (Worker r Claiming).
Proof.
  eassert (rtc step drained _) as Hrun.
  { eapply rtc_l; [by apply (call_probe _ _ 3)|].
    eapply rtc_l; [apply (probe_moves _ _ 3 true ProbeRunning); [done|by apply probe_running]|].
    apply rtc_once. apply (probe_moves _ _ 3 true ProbeDraining); [done|by apply probe_draining]. }
  eexists. split; [exact Hrun|]. split; [reflexivity|].
  exact (proj1 (drain_is_final drained _ 2 drained_reachable eq_refl Hrun)).
Defined.
