(* ===== verification/MigratorRuns.v ===== *)
(** * Migrations on a concrete directory

    Two migration files read, applied with a database that fails, and reset. *)

From S2P Require Import Prelude GoTime Errors Transactions GoStrings PicodataMigrator.
Open Scope Z_scope.

Definition nl : string := String newline "".

Definition jobs_sql : string :=
  "-- pico.UP" +:+ nl +:+ "CREATE TABLE IF NOT EXISTS jobs (" +:+ nl +:+ "  id UUID" +:+ nl +:+ ");" +:+ nl +:+ nl +:+
  "-- pico.DOWN" +:+ nl +:+ "DROP TABLE IF EXISTS jobs;" +:+ nl.
Definition lease_sql : string :=
  "-- pico.UP" +:+ nl +:+ "ALTER TABLE jobs ADD COLUMN lease UUID;" +:+ nl +:+ nl +:+ "UPDATE jobs SET lease = 0;" +:+ nl +:+
  "-- pico.DOWN" +:+ nl +:+ "ALTER TABLE jobs DROP COLUMN lease".

Definition entries : list Migrator.Entry :=
  [{| Migrator.e_name := "00001_jobs.sql"; Migrator.e_dir := false; Migrator.e_content := Ok jobs_sql |};
   {| Migrator.e_name := "00003_lease.sql"; Migrator.e_dir := false; Migrator.e_content := Ok lease_sql |};
   {| Migrator.e_name := "embed.go"; Migrator.e_dir := false; Migrator.e_content := Ok "" |}].
Definition files (dir : string) : result (list Migrator.Entry) :=
  if String.eqb dir "." then Ok entries else Err (EText "file does not exist").

Definition sample_migrations : list Migrator.migrationFile :=
  [{| Migrator.m_name := "00001_jobs.sql"; Migrator.m_version := 1;
      Migrator.m_up := "CREATE TABLE IF NOT EXISTS jobs (" +:+ nl +:+ "  id UUID" +:+ nl +:+ ");";
      Migrator.m_down := "DROP TABLE IF EXISTS jobs;" |};
   {| Migrator.m_name := "00003_lease.sql"; Migrator.m_version := 3;
      Migrator.m_up := "ALTER TABLE jobs ADD COLUMN lease UUID;" +:+ nl +:+ nl +:+ "UPDATE jobs SET lease = 0;";
      Migrator.m_down := "ALTER TABLE jobs DROP COLUMN lease" |}].

Example files_read : Migrator.readMigrationsFromFS files " " [] = Some (Ok sample_migrations).
Proof. by vm_compute. Qed.

(** The down section first: the slice of the up section is out of range. *)
Example down_first_panics :
  Migrator.parseMigration "1_a.sql" 1 ("-- pico.DOWN" +:+ nl +:+ "DROP TABLE a;" +:+ nl +:+ "-- pico.UP" +:+ nl +:+ "CREATE TABLE a;")
  = None.
Proof. by vm_compute. Qed.

Example renamed_table :
  Migrator.replace_tables [("jobs", "queue")] "DROP TABLE jobs;" = "DROP TABLE queue;".
Proof. by vm_compute. Qed.

(** ** Runs *)

Definition fails_at (calls : list (nat * string)) : Migrator.DbEnv := {|
  Migrator.fault n := match List.find (λ p, Nat.eqb p.1 n) calls with
                      | Some (_, text) => Some {| fault_err := EText text; fault_applied := false |}
                      | None => None
                      end;
  Migrator.done _ := None;
  Migrator.clock n := Z.of_nat n * Second
|}.

Definition opts (cmd : string) : Migrator.Options := Migrator.WithCommand cmd (Migrator.newDefaultOptions ".").
Definition fresh_pool : Migrator.Pool := Migrator.mkPool 0 None [] 0.
Definition migrate (E : Migrator.DbEnv) (cmd : string) (w : Migrator.Pool) : option (option err * Migrator.Pool) :=
  Migrator.run_migrations E "load embedded migrations" (Some (Ok sample_migrations)) (opts cmd) w.
Definition after (r : option (option err * Migrator.Pool)) : Migrator.Pool :=
  match r with Some (_, w) => w | None => fresh_pool end.
Definition answer (r : option (option err * Migrator.Pool)) : option (option err) := option_map fst r.

Example embedded_is_run : Migrator.RunEmbedded (fails_at []) files [Migrator.WithCommand "UP"] fresh_pool
  = Migrator.run_migrations (fails_at []) "load embedded migrations" (Some (Ok sample_migrations)) (opts "UP") fresh_pool.
Proof. by vm_compute. Qed.

(** The first statement is retried; the second statement of the second
    migration fails. *)
Definition raft_log : string := "ERROR: RaftLogCompacted: another DDL is in progress".
Definition interrupted := migrate (fails_at [(2%nat, raft_log); (6%nat, "connection lost")]) "up" fresh_pool.

Lemma up_applies_pending_witness :
  is_Some (answer interrupted) ∧ answer interrupted ≠ Some None
  ∧ Migrator.waited (after interrupted) = 100 * Millisecond
  ∧ ∃ finished todo l,
    Migrator.to_apply ∅ (-1) sample_migrations = finished ++ todo
    ∧ Migrator.recorded ∅ finished (default ∅ (Migrator.versions (after interrupted)))
    ∧ Migrator.succeeded (after interrupted)
      = [] ++ flat_map (λ m, Migrator.statements (Migrator.m_up m)) finished ++ l ∧ Migrator.started todo l.
Proof.
  split; [vm_compute; eauto|]. split; [by vm_compute|]. split; [by vm_compute|].
  assert (∃ r, interrupted = Some (r, after interrupted)) as [r Hr] by (vm_compute; eauto).
  destruct (Migrator.up_applies_pending (fails_at [(2%nat, raft_log); (6%nat, "connection lost")]) "load embedded migrations"
    sample_migrations (opts "up") fresh_pool r (after interrupted) eq_refl
    ltac:(apply (bool_decide_unpack _); by vm_compute) ltac:(apply (bool_decide_unpack _); by vm_compute) Hr)
    as (fin & todo & l & H1 & H2 & H3 & H4 & _).
  exists fin, todo, l. split; [exact H1|]. split; [exact H2|]. split; [exact H3|exact H4].
Defined.

Definition upped := migrate (fails_at [(2%nat, raft_log)]) "Up" fresh_pool.
Definition was_reset := migrate (fails_at []) "reset" (after upped).

Lemma reset_undoes_up_witness :
  Migrator.versions (after was_reset) = Some ∅
  ∧ Migrator.succeeded (after was_reset)
    = [] ++ flat_map (λ m, Migrator.statements (Migrator.m_up m)) sample_migrations
         ++ flat_map (λ m, Migrator.statements (Migrator.m_down m)) (rev sample_migrations).
Proof.
  apply (Migrator.reset_undoes_up (fails_at [(2%nat, raft_log)]) (fails_at []) "load embedded migrations" sample_migrations
    (opts "Up") (opts "reset") fresh_pool (after upped)).
  - reflexivity.
  - reflexivity.
  - apply (bool_decide_unpack _). by vm_compute.
  - apply (bool_decide_unpack _). by vm_compute.
  - intros m [->|[->|[]%elem_of_nil]%elem_of_cons]%elem_of_cons; split_and!; by vm_compute.
  - reflexivity.
  - by vm_compute.
  - by vm_compute.
Defined.

(** A statement that is not idempotent is attempted once, an idempotent one up
    to five times with waits of 1.5 seconds in all. *)
Example retries_bounded :
  let E := fails_at ((λ n, (n, raft_log)) <$> seq 0 9) in
  let exec stmt := Migrator.execMigrationStatement E stmt (Migrator.exec_statement E stmt) fresh_pool in
  length (Migrator.attempts (exec "ALTER TABLE jobs ADD COLUMN lease UUID;").2) = 1%nat
  ∧ length (Migrator.attempts (exec " drop table if exists jobs;").2) = 5%nat
  ∧ Migrator.waited (exec " drop table if exists jobs;").2 = 1500 * Millisecond.
Proof. by vm_compute. Qed.
