(* ===== verification/ProgressRuns.v ===== *)
(** * A worker left alone: concrete runs

    A calm environment, a service whose handler succeeds, and the liveness
    theorem of [Progress] applied to a queue of three jobs in batches of two; a
    producer with a failing connection, and what becomes of its puts. *)

From S2P Require Import Prelude GoTime Errors Models Retry Batch Sql Repo Stats Options PgJobs SqliteJobs.
From S2P Require Import Runtime LeaseManager Service ExecBatch Progress Delivery Samples.
Open Scope Z_scope.

(** The sample environment without heartbeats, its clock stopping after
    900 ms. *)
Definition calm_env : Env := {|
  clock t := start + Z.min (Z.of_nat t * Millisecond) (900 * Millisecond);
  newLeaseToken := newLeaseToken sample_env;
  newJobID := newJobID sample_env;
  others _ d := d;
  fault _ := None;
  commit_fault _ := None;
  run_cause _ := None;
  draining _ := false;
  beats _ := 0%nat;
  lock_timeout _ := None;
  held _ := ∅;
  sink _ := true;
  timer_first _ := false;
  uuid_text := uuid_text sample_env
|}.

Lemma calm_env_calm : Calm calm_env start (900 * Millisecond).
Proof.
  split; try done; cbn.
  - intros n. unfold Millisecond, Microsecond, Nanosecond. lia.
  - intros n. unfold LeaseTokenNil. lia.
Qed.

Definition willing : Handler :=
  {| h_Name := "mail"; h_SchemaVersion := None; h_ExecutionTimeout := Second; h_MaxAttempts := 3;
     h_Handle _ _ _ := Returns None |}.

Definition calm_options : Options := WithReservationBatchSize 2 (s_options stopped).
Definition calm_service : Service :=
  mkService calm_options pg_repo (s_failed stopped) {[mail := willing]} ∅ false.
Definition calm_world : World :=
  world_of (put_jobs (Pg.repository micro) 1 [(mail, "a"); (audit, "x"); (mail, "b"); (mail, "c")] empty_db).
Definition calm_schedule : workerSchedule := {| batchCursor := 0; preferBatch := true |}.

(** Three jobs in two rounds; the job of another capability stays. *)
Example calm_run_works :
  let '(r, w) := runWorker calm_env calm_service 3 10 [mail] [] calm_schedule calm_world in
  r = None ∧ w_handled w = [(1%N, 1); (3%N, 1); (4%N, 1)] ∧ ID <$> (map_to_list (jobs_t (w_db w))).*2 = [2%N].
Proof. vm_compute. done. Qed.

Lemma calm_resting : resting (λ j, Attempts j <? Pg.smallint_max) calm_world.
Proof.
  split; [reflexivity|reflexivity|..].
  - assert (map_Forall (λ id j, ID j = id) (jobs_t (w_db calm_world))) as Hall
      by (apply (bool_decide_unpack _); vm_compute; exact I).
    intros id j. apply Hall.
  - vm_compute. reflexivity.
  - apply (bool_decide_unpack _). vm_compute. exact I.
Qed.

Lemma calm_handlers c : c ∈ [mail] →
  ∃ h, s_jobs calm_service !! c = Some h ∧ succeeds (900 * Millisecond) h.
Proof.
  intros ->%list_elem_of_singleton. exists willing. split; [apply lookup_insert_eq|]. by split.
Qed.

Definition calm_run : option (result unit) * World :=
  runWorker calm_env calm_service 3 10 [mail] [] calm_schedule calm_world.

#[local] Instance calm_lease : LeaseRepository micro (rp_jobs (s_repo calm_service)) := Pg.pg_lease_repository micro.
#[local] Instance calm_ready : ClaimsReady micro (λ j, Attempts j <? Pg.smallint_max) (rp_jobs (s_repo calm_service)) :=
  pg_claims_ready micro.

Lemma worker_empties_queue_witness : calm_run.1 = None.
Proof.
  refine (proj1 (worker_empties_queue calm_env calm_service micro start (900 * Millisecond) calm_env_calm _ _ _
           (succeeds (900 * Millisecond)) (λ h, proj1 (A:=_) (B:=_)) (λ j, Attempts j <? Pg.smallint_max) [mail]
           _ _ _ calm_handlers _ (λ h, proj2 (A:=_) (B:=_)) 3 10 calm_schedule calm_world
           calm_run.1 calm_run.2 calm_resting _ (surjective_pairing _))).
  - vm_compute. split; congruence.
  - vm_compute. congruence.
  - vm_compute. congruence.
  - congruence.
  - apply NoDup_singleton.
  - repeat constructor.
  - vm_compute. split; congruence.
  - vm_compute. congruence.
Defined.

(** ** From the put to the handler *)

(** The producer's connection drops on its second put, after the commit. *)
Definition flaky_producer : Env := {|
  clock := clock calm_env;
  newLeaseToken := newLeaseToken calm_env;
  newJobID n := Npos (Pos.of_succ_nat n);
  others _ d := d;
  fault n := if (n =? 5)%nat then Some (Transactions.Build_Fault (EText "connection reset") true) else None;
  commit_fault _ := None;
  run_cause _ := None;
  draining _ := false;
  beats _ := 0%nat;
  lock_timeout _ := None;
  held _ := ∅;
  sink _ := true;
  timer_first _ := false;
  uuid_text := uuid_text calm_env
|}.

Definition requests : list PutRequest :=
  [mkRequest "mail" 1 "a" start; mkRequest "mail" 1 "b" start; mkRequest "mail" 0 "?" start;
   mkRequest "audit" 1 "x" start; mkRequest "mail" 1 "c" start].
Definition idle_world : World := world_of empty_db.
Definition produced : list (result JobID) * World := produce flaky_producer calm_service requests idle_world.
Definition delivered : option (result unit) * World :=
  runWorker calm_env calm_service 3 10 [mail] [] calm_schedule produced.2.

(** The put without an answer was stored and is handled like the others; the
    one with version 0 was refused, and the worker does not serve audits. *)
Example delivery_works :
  ((λ r, match r with Ok id => Some id | Err _ => None end) <$> produced.1) = [Some 1%N; None; None; Some 7%N; Some 10%N]
  ∧ w_handled delivered.2 = [(1%N, 1); (4%N, 1); (10%N, 1)]
  ∧ (ID <$> (map_to_list (jobs_t (w_db delivered.2))).*2) = [7%N].
Proof. vm_compute. done. Qed.

Lemma acknowledged_puts_delivered_witness : delivered.1 = None ∧ jobs_t (w_db delivered.2) !! 10%N = None
  ∧ ∃ before after, w_handled delivered.2 = before ++ (10%N, 1) :: after ∧ 10%N ∉ before.*1 ∧ 10%N ∉ after.*1.
Proof.
  unshelve epose proof (acknowledged_puts_delivered flaky_producer calm_env calm_service micro start (900 * Millisecond)
           calm_env_calm _ _ _ (λ j, Attempts j <? Pg.smallint_max) [mail] _ _ _ calm_handlers _ _ _ _
           requests idle_world produced.1 produced.2 3 10 calm_schedule delivered.1 delivered.2
           _ _ _ (surjective_pairing _) _ (surjective_pairing _)) as P.
  - vm_compute. split; congruence.
  - vm_compute. congruence.
  - vm_compute. congruence.
  - congruence.
  - apply NoDup_singleton.
  - repeat constructor.
  - vm_compute. split; congruence.
  - intros j Hj. cbn. rewrite Hj. reflexivity.
  - intros n. discriminate.
  - intros n d Hd. split; [exact Hd|reflexivity].
  - split; [intros id j; cbn; rewrite lookup_empty; discriminate|reflexivity|apply map_Forall_empty].
  - reflexivity.
  - reflexivity.
  - vm_compute. congruence.
  - unshelve refine (let Q := proj2 P 4%nat (mkRequest "mail" 1 "c" start) 10%N eq_refl _ _ _ in
      conj (proj1 P) (conj (proj1 (proj2 Q)) (proj2 (proj2 (proj2 Q))))).
    + vm_compute. reflexivity.
    + cbn. left.
    + vm_compute. congruence.
Defined.
