(* ===== verification/SettlingRuns.v ===== *)
(** * Every job ends: a concrete run

    A worker over three calm windows, a handler that fails on some payloads,
    and the theorem of [Settling] applied to the job that never succeeds. *)

From S2P Require Import Prelude GoTime Errors Models Retry Batch Sql Repo Stats Options PgJobs PgReads SqliteJobs.
From S2P Require Import Runtime LeaseManager Service ExecBatch Progress Settling Samples ProgressRuns.
Open Scope Z_scope.

Definition window_env (t : Z) : Env := {|
  clock n := t + Z.min (Z.of_nat n * Millisecond) (900 * Millisecond);
  newLeaseToken := newLeaseToken calm_env;
  newJobID n := Npos (Pos.of_succ_nat n);
  others _ d := d;
  fault _ := None;
  commit_fault _ := None;
  run_cause _ := None;
  draining _ := false;
  beats _ := 0%nat;
  lock_timeout _ := None;
  held _ := ∅;
  sink _ := true;
  timer_first _ := false;
  uuid_text := uuid_text calm_env
|}.

Lemma window_env_calm t : Calm (window_env t) t (900 * Millisecond).
Proof.
  split; try done; cbn.
  - intros n. unfold Millisecond, Microsecond, Nanosecond. lia.
  - intros n. unfold LeaseTokenNil. lia.
Qed.

(** "poison" always fails, "flaky" on its first attempt, "cursed" panics. *)
Definition moody : Handler :=
  {| h_Name := "mail"; h_SchemaVersion := None; h_ExecutionTimeout := Second; h_MaxAttempts := 3;
     h_Handle _ m payload :=
       if String.eqb payload "cursed" then Panics "boom"
       else if String.eqb payload "poison" then Returns (Some (EText "no such address"))
       else if String.eqb payload "flaky" && match m with Some m => meta_Attempt m =? 1 | None => false end
       then Returns (Some (EText "try again")) else Returns None |}.

Definition five_seconds : RetryPolicy := λ _, Returns (5 * Second).
Definition moody_options : Options := WithRetryPolicy (Some five_seconds) calm_options.
Definition moody_service : Service := mkService moody_options pg_repo (s_failed stopped) {[mail := moody]} ∅ false.
Definition moody_world : World :=
  world_of (put_jobs (Pg.repository micro) 1001 [(mail, "poison"); (mail, "fine"); (mail, "flaky"); (mail, "cursed")] empty_db).

Definition three_windows : list (Env * Z) :=
  [(window_env start, start); (window_env (start + 10 * Second), start + 10 * Second);
   (window_env (start + 20 * Second), start + 20 * Second)].
Definition moody_run : list (option (result unit)) * World :=
  run_windows moody_service [mail] 3 10 calm_schedule three_windows moody_world.

Example moody_run_works :
  jobs_t (w_db moody_run.2) = ∅
  ∧ (f_JobID <$> (map_to_list (failed_t (w_db moody_run.2))).*2) = [1004%N; 1001%N]
  ∧ w_handled moody_run.2 = [(1001%N, 1); (1002%N, 1); (1003%N, 1); (1004%N, 1); (1001%N, 2); (1003%N, 2); (1004%N, 2);
                             (1001%N, 3); (1004%N, 3)].
Proof. vm_compute. done. Qed.

Lemma moody_decides c : c ∈ [mail] → ∃ h, s_jobs moody_service !! c = Some h ∧ decides (900 * Millisecond) h.
Proof.
  intros ->%list_elem_of_singleton. exists moody. split; [apply lookup_insert_eq|]. split; [done|].
  intros t m p e. unfold moody, h_Handle. destruct (String.eqb p "cursed"); [done|].
  destruct (String.eqb p "poison"); [by intros [= <-]|]. destruct (_ && _); by intros [= <-].
Qed.

Lemma five_seconds_later j e t : RetryTime (Some e) = None → ∃ at_,
  retryTime (retryPolicy (s_options moody_service)) j e t 0 = Ok at_
  ∧ t + 900 * Millisecond + 2 * Millisecond ≤ at_ ≤ t + 5 * Second.
Proof.
  intros He. exists (t + 5 * Second). unfold retryTime. rewrite He. split; [reflexivity|].
  unfold Millisecond, Second, Microsecond, Nanosecond. lia.
Qed.

Lemma moody_room c h x : s_jobs moody_service !! c = Some h → Attempts x < h_MaxAttempts h → (Attempts x <? Pg.smallint_max) = true.
Proof.
  change (s_jobs moody_service) with ({[mail := moody]} : gmap JobCapability Handler).
  intros [<- <-]%lookup_singleton_Some. cbn. intros Hx. apply Z.ltb_lt. unfold Pg.smallint_max. lia.
Qed.

Lemma moody_idle : idle moody_service (λ n, Npos (Pos.of_succ_nat n)) (λ j, Attempts j <? Pg.smallint_max) 3 moody_world.
Proof.
  split_and!.
  - split; [reflexivity|reflexivity|..].
    + assert (map_Forall (λ id j, ID j = id) (jobs_t (w_db moody_world))) as Hall
        by (apply (bool_decide_unpack _); vm_compute; exact I).
      intros id j. apply Hall.
    + vm_compute. reflexivity.
    + apply (bool_decide_unpack _). vm_compute. exact I.
  - intros k _. assert (failed_t (w_db moody_world) = ∅) as -> by (vm_compute; reflexivity). apply lookup_empty.
  - intros i f. assert (failed_t (w_db moody_world) = ∅) as -> by (vm_compute; reflexivity). by rewrite lookup_empty.
  - vm_compute. congruence.
Qed.

#[local] Instance moody_lease : LeaseRepository micro (rp_jobs (s_repo moody_service)) := Pg.pg_lease_repository micro.
#[local] Instance moody_ready : ClaimsReady micro (λ j, Attempts j <? Pg.smallint_max) (rp_jobs (s_repo moody_service)) :=
  pg_claims_ready micro.
#[local] Instance moody_failed : FailedRepository micro (s_failed moody_service) := PgReads.pg_failed_repository micro.

Definition poison_row : Job := mkJob 1001 "queue" "mail" 1 "poison" 0 None LeaseTokenNil None (micro (start - Second)) (micro (start - Second)).

Lemma every_job_ends_witness : Forall (λ r, r = None) moody_run.1
  ∧ ∃ k, (1 ≤ k)%nat ∧ Z.of_nat k ≤ Z.max 1 3
    ∧ ended moody_service (Z.of_nat k) poison_row (w_db moody_run.2)
    ∧ attempts_of 1001 (w_handled moody_run.2) = attempts_of 1001 [] ++ attempts_from 1001 0 k.
Proof.
  refine (every_job_ends moody_service micro (900 * Millisecond) (5 * Second) (λ n, Npos (Pos.of_succ_nat n)) _ _ _ _ _
    five_seconds_later (λ j, Attempts j <? Pg.smallint_max) [mail] _ _ _ moody_decides _ moody_room 3 10 calm_schedule
    (window_env start) start _ moody_world poison_row moody moody_run.1 moody_run.2 _ moody_idle _ _ _ _ (surjective_pairing _)).
  - vm_compute. split; congruence.
  - vm_compute. congruence.
  - vm_compute. congruence.
  - intros i k Heq. injection Heq as Heq. apply SuccNat2Pos.inj. exact Heq.
  - eexists. reflexivity.
  - congruence.
  - apply NoDup_singleton.
  - repeat constructor.
  - vm_compute. split; congruence.
  - cbn [spaced]. repeat (split; [apply window_env_calm|]; split; [reflexivity|]; split; [first [exact I|vm_compute; congruence]|]). exact I.
  - vm_compute. reflexivity.
  - vm_compute. reflexivity.
  - apply lookup_insert_eq.
  - vm_compute. congruence.
Defined.
