(* ===== verification/StorageRuns.v ===== *)
(** * Storage: concrete runs

    A SQLite driver that keeps the settings of a connection, libraries whose
    calls succeed or fail at a chosen step, and the theorems of
    [SqliteConnector], [Runtimes], [Engine], [Scopes], [Migrators] and [Deploy]
    applied to them. *)

From S2P Require Import Prelude GoTime Errors Models Retry Batch Sql Repo Stats Options.
From S2P Require Import MysqlJobs Handles SqliteConnector Clients Runtimes Engine Migrators Deploy.
From S2P Require Import Transactions Scopes.
Open Scope Z_scope.

(** ** A SQLite driver *)

Record SampleConn : Type := mkSampleConn {
  k_busy : Z; k_foreign : bool; k_sync : string; k_journal : string; k_file : string
}.

Fixpoint drop_chars (n : nat) (s : string) : string :=
  match n, s with S n, String _ s => drop_chars n s | _, _ => s end.
Fixpoint chop (s : string) : string :=
  match s with
  | EmptyString => EmptyString
  | String _ EmptyString => EmptyString
  | String a s => String a (chop s)
  end.

Lemma chop_app s : chop (s +:+ ";") = s.
Proof.
  induction s as [|a s IH]; [done|]. change (String a s +:+ ";") with (String a (s +:+ ";")). cbn [chop]. rewrite IH.
  by destruct s.
Qed.

Definition sample_exec (q : string) (c : SampleConn) : option err * SampleConn :=
  if String.eqb q "PRAGMA busy_timeout=5000;" then (None, mkSampleConn 5000 (k_foreign c) (k_sync c) (k_journal c) (k_file c))
  else if String.eqb q "PRAGMA foreign_keys=ON;" then (None, mkSampleConn (k_busy c) true (k_sync c) (k_journal c) (k_file c))
  else if String.prefix "PRAGMA synchronous=" q
  then (None, mkSampleConn (k_busy c) (k_foreign c) (chop (drop_chars 19 q)) (k_journal c) (k_file c))
  else (Some (EText "syntax error"), c).

Definition one_row (row : list string) : Rows := mkRows [row] (EText "EOF") true None.

Definition sample_query (q : string) (c : SampleConn) : result Rows * SampleConn :=
  if String.eqb q "PRAGMA journal_mode=WAL;" then
    let mode := if String.eqb (k_file c) "" then "memory" else "wal" in
    (Ok (one_row [mode]), mkSampleConn (k_busy c) (k_foreign c) (k_sync c) mode (k_file c))
  else if String.eqb q "PRAGMA database_list;" then (Ok (one_row ["0"; "main"; k_file c]), c)
  else (Err (EText "syntax error"), c).

(** A driver for the database in [file]. *)
Definition sample_driver (file : string) : SqliteDriver SampleConn := {|
  drv_fresh _ := mkSampleConn 0 false "FULL" "delete" file;
  drv_context_aware _ := true;
  drv_Exec _ := sample_exec;
  drv_Query _ := sample_query
|}.

Definition sample_settings : Settings (C := SampleConn) :=
  {| busy_timeout := k_busy; foreign_keys := k_foreign; synchronous := k_sync; journal_mode := k_journal; main_file := k_file |}.

#[export] Instance sample_pragmas file : Pragmas (sample_driver file) sample_settings.
Proof.
  split; cbn; unfold sample_exec, sample_query.
  - intros _ c c'. cbn. by intros [= <-].
  - intros _ c r c'. cbn. intros [= <- <-]. cbn. split; [done|]. by intros value row rest [= <- _ _].
  - intros _ c r c'. cbn. intros [= <- <-]. split; [done|]. split; [done|]. cbn. by intros row ->%list_elem_of_singleton _.
  - intros _ c c'. cbn. by intros [= <-].
  - intros _ mode c c'. set (q := "PRAGMA synchronous=" +:+ mode +:+ ";").
    change (String.eqb q "PRAGMA busy_timeout=5000;") with false. change (String.eqb q "PRAGMA foreign_keys=ON;") with false.
    assert (String.prefix "PRAGMA synchronous=" q = true) as ->
      by (unfold q; cbn; by destruct (mode +:+ ";")).
    change (drop_chars 19 q) with (mode +:+ ";"). rewrite chop_app. by intros [= <-].
Qed.

(** Libraries whose calls all succeed, or fail at call [n] only. *)
Definition all_well : nat → option err := λ _, None.
Definition fails_at (n : nat) : nat → option err := λ m, if Nat.eqb m n then Some (EText "broken") else None.
Definition nothing_open : Handles := mkHandles 0 ∅ ∅ false.

Example file_connection_uses_wal :
  (λ c, (k_busy c, k_sync c, k_journal c)) <$> match Connect (sample_driver "/db") all_well all_well SynchronousNormal nothing_open with
    | (Ok (_, c), _) => Some c | _ => None end = Some (5000, "NORMAL", "wal").
Proof. reflexivity. Qed.

(** A context that ends while the connection is configured: it is closed. *)
Example cancelled_connection_closed :
  let '(r, h) := Connect (sample_driver "/db") all_well (fails_at 6) SynchronousFull nothing_open in
  r = Err (EJoin [EText "broken"]) ∧ hs_raw h = ∅.
Proof. vm_compute. done. Qed.

Definition memory_run := Connect (sample_driver "") all_well all_well SynchronousFull nothing_open.

Lemma connection_configured_witness :
  match memory_run.1 with
  | Ok (id, c) => configured sample_settings SynchronousFull c ∧ id ∉ hs_raw nothing_open
      ∧ hs_raw memory_run.2 = {[id]} ∪ hs_raw nothing_open ∧ hs_pools memory_run.2 = hs_pools nothing_open
  | Err _ => same_handles nothing_open memory_run.2
  end.
Proof.
  refine (connection_configured (sample_driver "") all_well all_well sample_settings SynchronousFull nothing_open
            memory_run.1 memory_run.2 _).
  by destruct memory_run eqn:E.
Defined.

(** ** A runtime *)

Definition sample_config : Config := mkConfig "user@tcp(db)/outbox" 3 0 0 50.
Definition sha_id (s : string) : string := s.
Definition no_dispatch : nat → option JobMetadata → string → callback (option err) := λ _ _ _, Returns None.
Definition open_mysql (answer : nat → option err) := mysql_Open answer sha_id no_dispatch (λ t, t) sample_config nothing_open.

Example runtime_opens : match (open_mysql all_well).1 with Ok rt => workers (s_options (rt_service rt)) = 3 | Err _ => False end
  ∧ size (hs_pools (open_mysql all_well).2) = 1%nat.
Proof. vm_compute. done. Qed.
(** The ping fails: the pool is closed again. *)
Example failed_ping_closes : size (hs_pools (open_mysql (fails_at 1)).2) = 0%nat ∧ hs_step (open_mysql (fails_at 1)).2 = 3%nat.
Proof. vm_compute. done. Qed.


(** ** The PostgreSQL pool whose ping fails *)

Definition parse_sample (dsn : string) : result PgClient.PgxConfig :=
  Ok (PgClient.mkPgxConfig "db" 5432 "u" "p" "outbox" ∅ 0 0 0 4 None).
Definition no_keys (_ _ : string) : result string := Err (EText "no such file").
Definition join_url (_ _ host path _ : string) : string := host +:+ path.
Definition ping_run : result PgClient.Client * Handles :=
  PgClient.NewPool (fails_at 1) parse_sample no_keys join_url (PgClient.NewOptions "db:5432" "u" "p" "outbox" []) nothing_open.

Example pool_left_open : ping_run.1 = Err (wrapf "ping database error" (EText "broken")) ∧ size (hs_pools ping_run.2) = 1%nat.
Proof. vm_compute. done. Qed.

Lemma NewPool_leaks_on_ping_witness :
  match ping_run.1 with
  | Ok client => one_more (PgClient.cl_pool client) no_limits nothing_open ping_run.2
      ∧ 1 ≤ PgClient.cf_MinConns (PgClient.cl_config client) ≤ PgClient.cf_MaxConns (PgClient.cl_config client)
  | Err e => (¬ ping_failed e ∧ same_handles nothing_open ping_run.2)
             ∨ (ping_failed e ∧ PgClient.check (PgClient.NewOptions "db:5432" "u" "p" "outbox" []) = true
                ∧ ∃ id, one_more id no_limits nothing_open ping_run.2)
  end.
Proof.
  refine (NewPool_leaks_on_ping (fails_at 1) parse_sample no_keys join_url _ nothing_open ping_run.1 ping_run.2 _).
  by destruct ping_run eqn:E.
Defined.

(** ** Statements in a transaction *)

Definition tx_ctx : list (CtxKey * CtxValue) := WithTx (WithValue None KeyIsolateMode (VIso SerializableLevel)) 7.
Definition span_ctx := CreateSpan tx_ctx.
Definition any_reply : nat → Executor → Call → result nat := λ n _ _, Ok n.
Definition in_tx : list (list (CtxKey * CtxValue) * (list (CtxKey * CtxValue) → T (result nat))) :=
  [(tx_ctx, λ ctx, Exec any_reply ctx "UPDATE" []);
   (span_ctx, λ ctx, Getx any_reply ctx (Err (EText "no columns")));
   (span_ctx, λ ctx, ScanAll any_reply Ok ctx "SELECT" [])].

Example the_transaction_is_serializable : RunInTx_options tx_ctx = (SerializableLevel, ReadWrite).
Proof. reflexivity. Qed.
Example the_calls : (run_all in_tx []).2 = [(OnTx 7, CExec "UPDATE" []); (OnTx 7, CQuery "SELECT" [])].
Proof. reflexivity. Qed.

Lemma statements_join_transaction_witness :
  ∃ calls, (run_all in_tx []).2 = [] ++ calls ∧ (length calls ≤ length in_tx)%nat ∧ Forall (sent_to (OnTx 7)) calls.
Proof.
  assert (derived 7 tx_ctx) as Hd by apply derived_tx.
  assert (derived 7 span_ctx) as Hs by (apply derived_value; [exact Hd|discriminate]).
  refine (statements_join_transaction any_reply Ok Ok 7 in_tx [] _).
  repeat apply Forall_cons_2; try apply Forall_nil_2; (split; [assumption|constructor]).
Defined.

(** ** A scope *)

(** Two statements, the second in a nested scope that asks for other options;
    the server refuses the commit. *)
Definition refuses_commit : nat → Executor → Call → result nat :=
  λ n _ c, match c with CCommit => Err (EText "deadlock detected") | _ => Ok n end.
Definition serializable_ctx : list (CtxKey * CtxValue) := WithValue None KeyIsolateMode (VIso SerializableLevel).
#[local] Existing Instance T_ret.
#[local] Existing Instance T_bind.
Definition two_statements : FnCallback := λ ctx,
  _ ← Exec refuses_commit ctx "UPDATE" [];
  x ← Scopes.runTransaction refuses_commit ctx (ReadCommitted_options ReadOnly) (λ ctx, _ ← Query refuses_commit ctx "SELECT" []; mret (Returned None));
  match x with Returned e => mret (Returned e) | _ => mret x end.

Definition scope_run := Scopes.RunInTx refuses_commit serializable_ctx two_statements [].

Example the_scope : scope_run.2 =
  [(OnPool, CBegin (SerializableLevel, ReadWrite)); (OnTx 0, CExec "UPDATE" []); (OnTx 0, CQuery "SELECT" []);
   (OnTx 0, CCommit); (OnTx 0, CRollback)] ∧ ∃ e, scope_run.1 = Returned (Some e).
Proof. split; [reflexivity|]. by eexists. Qed.

Lemma two_statements_scoped : scoped refuses_commit Ok Ok two_statements.
Proof.
  apply (sc_statement refuses_commit Ok Ok (λ ctx, Exec refuses_commit ctx "UPDATE" [])); [constructor|]. intros _.
  apply (sc_scope refuses_commit Ok Ok (λ _, ReadCommitted_options ReadOnly)); [|intros e; apply sc_exit].
  apply (sc_statement refuses_commit Ok Ok (λ ctx, Query refuses_commit ctx "SELECT" [])); [constructor|].
  intros _. apply sc_exit.
Qed.

Lemma scope_is_one_transaction_witness :
  ∃ x calls last, Forall (sent_to (OnTx 0)) calls ∧ ends 0 x last scope_run.1
    ∧ scope_run.2 = [(OnPool, CBegin (SerializableLevel, ReadWrite))] ++ calls ++ last.
Proof.
  destruct (scope_is_one_transaction refuses_commit Ok Ok serializable_ctx two_statements [] scope_run.1 scope_run.2
              two_statements_scoped eq_refl (surjective_pairing _)) as (x & calls & last & _ & Hc & He & Hl).
  exists x, calls, last. split; [exact Hc|]. split; [exact He|exact Hl].
Defined.

(** ** Migrations *)

(** Goose on a log of what it was asked; the disk has no files. *)
Definition log_goose (fs : option Goose.Backend) (d : string) (o : Goose.Options) (db : list string) : option err * list string :=
  match fs with
  | None => (Some (EText "no migration files"), db)
  | Some _ => (None, db ++ [d +:+ " " +:+ Goose.command o])
  end.
Definition known_dialect (d : string) : bool := bool_decide (d ∈ ["postgres"; "mysql"; "sqlite3"]).
Definition no_files (e : err) : bool := match e with EText t => String.eqb t "no migration files" | _ => false end.
Definition some_calls : list Goose.MigratorCall :=
  [Goose.CallEmbedded Goose.PgsqlMigrations [Goose.WithCommand "up"]; Goose.CallRun Goose.SqliteMigrations [];
   Goose.CallEmbedded Goose.MysqlMigrations []].
Definition left_behind : Goose.State := Goose.mkState (Some Goose.SqliteMigrations) "clickhouse" ([] : list string).

Example what_goose_did :
  (λ '(es, s), (es, Goose.database s)) (Goose.run_calls known_dialect log_goose no_files some_calls left_behind)
  = ([None; None; None], ["postgres up"; "mysql status"]).
Proof. reflexivity. Qed.

Lemma migrations_isolated_witness :
  let '(es, s') := Goose.run_calls known_dialect log_goose no_files some_calls left_behind in
  let '(es0, d0) := Goose.mean_calls log_goose some_calls (Goose.database left_behind) in
  Goose.database s' = d0 ∧ Forall2 (Goose.reports no_files) es0 es ∧ (some_calls ≠ [] → Goose.baseFS s' = None).
Proof.
  refine (Goose.migrations_isolated known_dialect log_goose no_files _ some_calls left_behind).
  intros []; reflexivity.
Defined.

(** ** Connection settings *)

Definition sample_get (q key : string) : string := drop_chars (S (String.length key)) q.
Definition sample_set (_ key value : string) : string := key +:+ "=" +:+ value.
Definition no_escape (v : string) : string := v.
Definition sample_url (u : DeployEnv.URL) : string :=
  DeployEnv.u_Scheme u +:+ "://" +:+ DeployEnv.u_Host u +:+ "?" +:+ DeployEnv.u_RawQuery u.
Definition default_url : DeployEnv.URL :=
  DeployEnv.connection_url no_escape "127.0.0.1" 5049 "admin" "passWord!123" "disable".
Definition sample_parse (s : string) : result DeployEnv.URL :=
  if String.eqb s "postgres://127.0.0.1:5049?sslmode=disable" then Ok default_url else Err (EText "unexpected").
Definition default_conn : DeployEnv.AppConnConfig :=
  DeployEnv.mkAppConn "postgres://127.0.0.1:5049?sslmode=disable" "127.0.0.1" 5049 "admin" "passWord!123" "disable".

Lemma sample_get_set q key value : sample_get (sample_set q key value) key = value.
Proof.
  unfold sample_get, sample_set. induction key as [|a key IH]; [done|].
  change (String a key +:+ "=" +:+ value) with (String a (key +:+ "=" +:+ value)). exact IH.
Qed.

Example hosts_work :
  DeployEnv.normalizeHost " LocalHost " = "127.0.0.1" ∧ DeployEnv.splitHostPort "[::1]:5049" = ("::1", "5049")
  ∧ DeployEnv.splitHostPort "db" = ("db", "") ∧ DeployEnv.Itoa 65535 = "65535"
  ∧ DeployEnv.EqualFold ("localho" +:+ String (Ascii.ascii_of_N 197) (String (Ascii.ascii_of_N 191) "t")) "localhost" = true.
Proof. split_and!; reflexivity. Qed.

Lemma connection_settings_stable_witness :
  DeployEnv.sound default_conn ∧ ∃ u, DeployEnv.describes sample_url sample_get u default_conn
    ∧ (sample_parse (GoStrings.TrimSpace (DeployEnv.DSN default_conn)) = Ok u →
       DeployEnv.bracketed (DeployEnv.Host default_conn) = false →
       DeployEnv.parseDSN sample_parse sample_url sample_get sample_set (DeployEnv.DSN default_conn) = Ok default_conn).
Proof.
  refine (DeployEnv.connection_settings_stable sample_parse sample_url sample_get sample_set no_escape sample_get_set _
            None default_conn _).
  - intros value. exact (sample_get_set "" "sslmode" value).
  - vm_compute. reflexivity.
Defined.
